(* ===== verification/_CoqProject ===== *)
-Q . S2P
Prelude.v
Types.v
Marker.v
Roots.v
Reducer.v
Validators.v
Steps.v
Invariant.v
Chain.v
Reach.v
Lifecycle.v
Counting.v
EventLog.v
RootBinding.v
Store.v
StoreInv.v
Progress.v
Commit.v
Queries.v
Ingest.v
IngestInv.v
Converge.v
Fleet.v
FleetInv.v
PassSteps.v
Serde.v
SerdeFacts.v
Total.v
Text.v
Config.v
ConfigFacts.v
Signer.v
Api.v
Agreement.v
Columns.v
Reports.v
Http.v
Rpc.v
RpcFacts.v
Service.v
WorkerTotal.v
Settling.v
Resolution.v
Signatures.v
Settled.v
Cli.v
CliFacts.v
Tool.v
Concrete.v
UnitTests.v
Witnesses.v
StoreWitnesses.v
FleetWitnesses.v
SerdeWitnesses.v
ServiceWitnesses.v
ReportWitnesses.v
RpcWitnesses.v
CliWitnesses.v
MainWitnesses.v
TotalWitnesses.v
SettledWitnesses.v
