(* ===== verification/Prelude.v ===== *)
(** * A verification of the Tandem verifier

    ** The program

    Tandem is a protocol of jointly owned objects on Bitcoin.  An object lives in a 2-of-2 coin,
    its carrier, and an OP_RETURN marker in a transaction says what the transaction means: INIT
    opens a deployment, CREATE makes an object, MARK adds a chapter to it, ROTATE changes its
    keys, CLOSE ends it, and an unmarked spend after a delay refunds it.  Any other spend of a
    carrier ends the object as a noncanonical exit.  The verifier reads blocks from a Bitcoin
    node and computes, for every height, the events, the objects and the Merkle roots that
    independent implementations compare.

    The parts of the program and how they interact:

    - crates/tandem-core is pure.  [types.rs] has the data and its encodings, [marker.rs] finds
      and parses markers, [roots.rs] computes leaves and roots, and [reducer.rs] applies one block
      to a [ChainState] and returns a [BlockDelta] that can undo it.
    - crates/tandem-verifier is the service.  The ingestion worker ([ingest.rs]) asks the node
      ([rpc.rs]) for blocks, runs the reducer, and hands each delta to the store ([store.rs]),
      which commits state, events, objects and journal in one PostgreSQL transaction.  When the
      node leaves the stored chain the worker rolls blocks back with the stored deltas.  The read
      API answers from the same tables.
    - crates/tandem-cli checks fixtures and replays resolved chains through the core.

    ** The files

    - [Prelude]: machine integers with their widths and checked arithmetic, little-endian
      encodings, fixed-size arrays, stable sorting and ordered maps, results that may also panic
      ([res]), and the state-and-error monad ([st]) that carries [&mut] code.  Its notations are
      in [tandem_scope] and its hints in the database [tandem].
    - [Types], [Marker], [Roots], [Reducer]: one file per module of tandem-core, definition by
      definition under the names of the source.  SHA-256, HASH160 and the curve-point test are
      the class [Primitives]; the hex crate is the class [HexCodec].
    - [Validators]: the protocol's rules as predicates ([create_rule], [mark_rule] and so on) and
      the proof that the guard sequences of the reducer decide exactly them; what an accepted
      transaction does with money; absence of panics.
    - [Steps]: the relation [tx_step] of what one transaction may do to the state, and the proof
      that [process_transaction] takes one of its steps.
    - [Invariant]: the coins of the chain as a ghost [Ledger], what Bitcoin promises of the next
      transaction ([tx_ok]), and the invariant that ties objects, carrier index and coins
      together, preserved by every step.
    - [Chain]: [apply_block] and [disconnect_block] as wholes: errors, linkage, inversion.
    - [Reach]: blocks as sequences of steps, the states canonical chains reach, what they owe their
      parties in money.
    - [Progress]: which chains of blocks the reducer applies, judged on the blocks alone.
    - [Lifecycle]: the state machine of one object and the refinement of the reducer to it.
    - [EventLog]: the log determines the objects; order, labels and widths of its events.
    - [RootBinding]: equal roots mean equal contents, unless the digest collides on strings that
      were hashed.
    - [Store]: the tables of the migration as finite maps, the statements with the constraints
      that can refuse them, the transactions and the queries of [store.rs].  What serde_json and
      the jsonb columns promise is the class [Json].
    - [StoreInv]: what a consistent database is: [db_ok b chain db s] says that [db] holds the
      deployment [b], the chain of blocks [chain] and its state [s].
    - [Commit]: the store as a stack of blocks: commit pushes, rollback pops.
    - [Queries]: what readers of a consistent database see.
    - [Ingest]: the worker over a source and a store whose behaviour may differ at every call.
    - [IngestInv]: safety of the worker under every environment.
    - [Converge]: convergence under a settled one, and the one gap in its recovery.
    - [Fleet], [FleetInv]: the pass as a machine that makes one call per step, several such workers
      over one database under any schedule, and their safety.  The repository starts one worker
      per process; the schedules model a deployment of several processes, not code of it.
    - [PassSteps]: the machine of [Fleet] is the pass of [Ingest]: run alone it computes [run_once].
    - [Serde], [SerdeFacts]: the JSON forms of the data, as the serde impls of the core write and
      read them, and what survives a [jsonb] column.
    - [Total], [WorkerTotal]: the reducer, the fuzz targets and the worker with its RPC client on
      arbitrary input: nothing panics.
    - [Counting]: what the counters of a block root count.
    - [Text]: UTF-8 validity, trimming and splitting as the standard library does them.
    - [Config], [ConfigFacts]: [Config::from_args] with the specification contract and the mainnet
      gate, and what a configuration that loads satisfies.
    - [Signer], [Api]: the agreement tuple with its signature, and the read API: readiness, the
      gates of the agreement endpoint and the query endpoints.
    - [Agreement]: two deployed verifiers side by side, and what their signatures say of them.
    - [Rpc], [RpcFacts]: the Bitcoin Core source: envelopes, raw transactions, the resolution of
      inputs through the block, the cache and the node, the signature checks.  The bitcoin and
      secp256k1 crates are the class [BitcoinCrate], the node a record of answers per call.  A
      panic of a method is a panic of its caller: the worker dies, a handler gives no response.
    - [Service]: start-up in the order of [main], the source behind the worker, the wakeups and
      the worker's run with its sleeps.
    - [Columns]: the root tuple as the byte and decimal columns of its row, and their readers.
    - [Reports]: the endpoints that list and count, and the HTTP form of readiness and errors.
    - [Http]: the router: every request with its response, and the status a client can expect.
    - [Resolution]: chains read through the source are the canonical chains of [Reach].
    - [Settled]: a node whose answers do not change, as conditions on its responses; every method
      of the source succeeds over it, and the service converges to its chain.
    - [Settling]: progress of a fleet: how far the calls of one worker bring the database, whatever
      the other workers do in between.
    - [UnitTests]: the unit, integration and property tests of the workspace, run on the model.
    - [Signatures]: who signed the changes of an object.
    - [Cli], [CliFacts], [Tool]: the verification tool, its checks, and its commands with their
      exit codes.  The JSON crate is the class [JsonDocument].
    - [Concrete], [Witnesses], [StoreWitnesses], [FleetWitnesses], [SerdeWitnesses],
      [ServiceWitnesses], [ReportWitnesses], [RpcWitnesses], [CliWitnesses], [MainWitnesses],
      [TotalWitnesses], [SettledWitnesses]: executable stand-ins for the primitives and crates, a deployment with a chain of 1012 blocks in which one object
      is created, marked, rotated and closed and another exits, a database, nodes, a fixture and
      configurations for it, and every theorem with hypotheses applied to them.

    ** What the theorems show

    - The reducer (claims about [apply_block]): live carriers are unspent coins of the right
      value and script; the object map and the carrier index agree; objects move only along the
      edges of the state machine; the log reconstructs the objects; the chains of blocks that are
      applied to their end are exactly the linked ones that bring the INIT ([chain_progress]); an
      error has exactly one of three reasons in the blocks and leaves the state untouched
      ([apply_block_error_exact]); disconnecting inverts connecting; the counters are sizes.  The
      validators accept exactly the declarative rules, and accepted operations pay a positive fee
      and move money as prescribed ([operations_pay]).
      On arbitrary blocks, canonical or not, the reducer never panics ([reducer_total]).
    - The roots: the Merkle loop is the tree defined from the top down, and the roots bind the
      events, the committed objects and, through the chained root, the whole history.
    - The encodings: markers, hash texts, the persisted carrier index, protocol identifiers and
      agreement tuples round trip or are injective, and what canonical chains write to the JSON
      columns they read back, widths checked, in whatever order the keys return.
    - The store: commits are atomic, rollbacks are exact, both are inverse on every table they
      share, stale writers are refused, and readers see the replay of the stored chain: roots,
      through their columns, and the log in the order and with the filters of the endpoints.
    - The worker: from the arguments of the process on, no environment corrupts the store, memory
      follows the database as long as no acknowledgement is lost, a pass terminates, and one pass
      over a settled node converges to the node's chain.  [service_converges] composes start-up,
      source, reducer, worker, store and readiness: whatever database an earlier run left behind,
      behind the node or on an abandoned branch, its other conditions are on the node's responses
      and the configuration only.  No environment makes the worker or a method of its RPC client
      panic ([service_never_panics]).
    - Several workers: no interleaving of their calls, with crashes, restarts and failures, breaks
      the database or loses an update ([fleet_safe], [fleet_linear]); a worker that loses a race
      reloads the winner's state; rollbacks have no such guard and may take a good block off
      ([stale_rollback_pops]), which later passes repair.  Over nodes that agree and answer truthfully, a worker that gets its
      calls answered often enough completes the stored chain under any interleaving
      ([fleet_settles]).
    - The source: reading a block never panics and shows the block the node serves; a chain read
      through it is canonical in the sense of the reducer's theorems; and, composed with the
      reducer, every change of an object that is not a forced exit carries strict SIGHASH_ALL
      signatures by both keys of the object.
    - The service: readiness and the agreement endpoint answer only for a synced, active and
      healthy service at the node's tip, and a signed envelope describes a height the node has
      too.  A configuration that loads is well formed, mainnet is authorised, and its release
      identity passes the checks of the database.
      The status code of every request follows from the stored chain and the node
      ([status_exact]); with the database down only liveness answers.
    - Two verifiers: if the envelopes they sign carry the same chained root, they signed the same
      height and processed the same blocks, events and roots up to it ([envelopes_agree]).
    - The unit tests of the source pass on the model, most of them for every digest and crate.
    - The tool: a replay confirms exactly the roots the service serves; a verified fixture or
      lock is what it claims to be, up to the two gaps recorded as findings; it panics
      only on an output that cannot be written and for one kind of fixture ([tool_panics_exact]).
      Its exit codes are those of a release build, which aborts on a panic.

    ** Fuel and bounds

    The Merkle loop runs on fuel equal to the number of leaves, enough because every level is
    shorter than the one below; [merkle_is_tree] proves that it returns.  The reorganisation loop
    runs on one more than the number of stored blocks, enough because every iteration that goes
    on removes one; [reconcile_terminates] proves that the fuel never runs out.  All other
    recursion is structural.  Integers are [Z] with the overflow checks of the source written
    out; the widths of encoded fields are hypotheses of the binding theorems and consequences of
    [events_ordered] on canonical chains.

    ** What is assumed

    Nothing is assumed of SHA-256, HASH160 or the curve beyond being functions; theorems that
    need collision resistance say for which strings.  Canonical chains are those whose
    transactions have new ids, spend what the ledger says they spend and derive new object keys
    ([tx_ok]).  The middle part is proved of the source in [Resolution]; the others are what
    Bitcoin consensus and the digest provide.

    ** What is not modelled

    The HTTP server and client with their path matching and argument extraction, the timer and the
    socket behind the wakeups, command lines, logging and signals are I/O; which wakeup is
    selected and when the next pass starts is modelled.  [lib.rs] of the core only re-exports.  The bitcoin, secp256k1, Ed25519, JCS, hex and
    JSON crates are parameters, with the few properties that are used of them as laws of their
    classes.  The law of [Json], that a stored value reads back, is stated for all values of the
    model; [Serde] proves it of the program's own impls for values whose integers fit their
    types, which the states, deltas and events of canonical chains do, and leaves out the forms a
    derived reader accepts but never writes.  PostgreSQL is modelled by the effects and constraints of the statements the store
    runs; the advisory lock makes its write transactions sequential.  The overlay refresh does not take
    it: in a fleet two refreshes that overlap may leave any overlay.  The identifiers and
    observation times of journal and overlay rows are left out, so rows of one mempool refresh
    are listed in an unspecified order ([RowOrder]). *)

From Stdlib Require Export ZArith Lia Strings.Byte.
From Stdlib Require Import NArith Eqdep_dec.
From stdpp Require Export prelude gmap sorting.

Declare Scope tandem_scope.
Delimit Scope tandem_scope with tandem.

Create HintDb tandem.
Create Rewrite HintDb tandem.

#[global] Open Scope Z_scope.

(** ** Bytes and machine integers *)

(** [u8] is Rocq's 256-constructor byte type, so a byte needs no range hypothesis.  Wider
    unsigned integers are [Z] with the range predicates below, and Rust's checked arithmetic
    written out. *)
Definition bval (b : byte) : Z := Z.of_N (Byte.to_N b).

Definition byte_of_Z (z : Z) : byte := default x00 (Byte.of_N (Z.to_N (z mod 256))).

#[global] Instance byte_eq_dec : EqDecision byte := Byte.byte_eq_dec.

#[global] Instance byte_countable : Countable byte :=
  inj_countable Byte.to_N Byte.of_N Byte.of_to_N.

Definition u8_max : Z := 255.
Definition u16_max : Z := 65535.
Definition u32_max : Z := 4294967295.
Definition u64_max : Z := 18446744073709551615.
Definition i64_max : Z := 9223372036854775807.

Definition is_u16 (z : Z) : Prop := 0 <= z <= u16_max.
Definition is_u32 (z : Z) : Prop := 0 <= z <= u32_max.
Definition is_u64 (z : Z) : Prop := 0 <= z <= u64_max.

(** [checked_add max a b] is [a.checked_add(b)] at the unsigned width whose maximum is [max];
    [checked_sub] is the same at every unsigned width. *)
Definition checked_add (max a b : Z) : option Z :=
  if decide (a + b <= max) then Some (a + b) else None.

Definition checked_sub (a b : Z) : option Z :=
  if decide (b <= a) then Some (a - b) else None.

(** [u32::try_from] / [i64::try_from] on a nonnegative value. *)
Definition try_from (max z : Z) : option Z := if decide (z <= max) then Some z else None.

(** Rust's [Option::filter(|fee| *fee > 0)]. *)
Definition filter_positive (o : option Z) : option Z :=
  match o with Some z => if decide (0 < z) then Some z else None | None => None end.

(** Rust's [Option::is_some_and]. *)
Definition is_some_and {A} (o : option A) (Q : A -> Prop) : Prop :=
  match o with Some a => Q a | None => False end.

#[global] Instance is_some_and_dec {A} (o : option A) (Q : A -> Prop) `{forall a, Decision (Q a)} :
  Decision (is_some_and o Q) :=
  match o with Some a => decide (Q a) | None => right (fun f => f) end.

(** [Vec::len] as a machine value. *)
Definition len {A} (l : list A) : Z := Z.of_nat (length l).

(** Little-endian encodings: [z.to_le_bytes()] at [n] bytes and [from_le_bytes]. *)
Fixpoint to_le (n : nat) (z : Z) : list byte :=
  match n with
  | O => []
  | S n' => byte_of_Z z :: to_le n' (z / 256)
  end.

Fixpoint of_le (l : list byte) : Z :=
  match l with
  | [] => 0
  | b :: l' => bval b + 256 * of_le l'
  end.

Lemma bval_range b : 0 <= bval b < 256.
Proof.
  unfold bval. pose proof (Byte.to_N_bounded b). lia.
Qed.

Lemma bval_of_Z z : bval (byte_of_Z z) = z mod 256.
Proof.
  unfold bval, byte_of_Z. pose proof (Z.mod_pos_bound z 256 eq_refl) as Hb.
  destruct (Byte.of_N (Z.to_N (z mod 256))) as [b|] eqn:E; simpl.
  - apply Byte.to_of_N in E. rewrite E. lia.
  - apply Byte.of_N_None_iff in E. lia.
Qed.

Lemma bval_inj b1 b2 : bval b1 = bval b2 -> b1 = b2.
Proof.
  unfold bval. intros H. apply N2Z.inj in H.
  pose proof (Byte.of_to_N b1) as E1. pose proof (Byte.of_to_N b2) as E2.
  rewrite H in E1. congruence.
Qed.

Lemma byte_of_bval b : byte_of_Z (bval b) = b.
Proof. apply bval_inj. rewrite bval_of_Z, Z.mod_small; [done|]. apply bval_range. Qed.

Lemma length_to_le n z : length (to_le n z) = n.
Proof. revert z. induction n as [|n IH]; intros z; simpl; [done|]. by rewrite IH. Qed.

Lemma of_le_range l : 0 <= of_le l < 256 ^ len l.
Proof.
  unfold len. induction l as [|b l IH]; simpl; [lia|].
  pose proof (bval_range b).
  replace (Z.of_nat (S (length l))) with (Z.of_nat (length l) + 1) by lia.
  rewrite Z.pow_add_r by lia. lia.
Qed.

Lemma of_to_le n z : of_le (to_le n z) = z mod 256 ^ Z.of_nat n.
Proof.
  revert z. induction n as [|n IH]; intros z; cbn [to_le of_le].
  - by rewrite Z.mod_1_r.
  - rewrite IH, bval_of_Z.
    replace (Z.of_nat (S n)) with (1 + Z.of_nat n) by lia.
    rewrite Z.pow_add_r by lia. change (256 ^ 1) with 256.
    rewrite Z.rem_mul_r by lia. lia.
Qed.

Lemma to_of_le l : to_le (length l) (of_le l) = l.
Proof.
  induction l as [|b l IH]; cbn [to_le of_le length]; [done|].
  pose proof (bval_range b). f_equal.
  - apply bval_inj. rewrite bval_of_Z.
    rewrite Z.mul_comm, Z.mod_add by lia. by apply Z.mod_small.
  - rewrite Z.mul_comm, Z.div_add by lia. rewrite Z.div_small by lia. exact IH.
Qed.

Lemma of_to_le_small n z : 0 <= z < 256 ^ Z.of_nat n -> of_le (to_le n z) = z.
Proof. intros H. rewrite of_to_le. by apply Z.mod_small. Qed.

Lemma to_le_inj n z1 z2 :
  0 <= z1 < 256 ^ Z.of_nat n -> 0 <= z2 < 256 ^ Z.of_nat n ->
  to_le n z1 = to_le n z2 -> z1 = z2.
Proof.
  intros H1 H2 E. apply (f_equal of_le) in E. by rewrite !of_to_le_small in E.
Qed.

Lemma to_le_inj_u16 z1 z2 : is_u16 z1 -> is_u16 z2 -> to_le 2 z1 = to_le 2 z2 -> z1 = z2.
Proof. unfold is_u16, u16_max. intros ? ?. apply to_le_inj; simpl; lia. Qed.
Lemma to_le_inj_u32 z1 z2 : is_u32 z1 -> is_u32 z2 -> to_le 4 z1 = to_le 4 z2 -> z1 = z2.
Proof. unfold is_u32, u32_max. intros ? ?. apply to_le_inj; simpl; lia. Qed.
Lemma to_le_inj_u64 z1 z2 : is_u64 z1 -> is_u64 z2 -> to_le 8 z1 = to_le 8 z2 -> z1 = z2.
Proof. unfold is_u64, u64_max. intros ? ?. apply to_le_inj; simpl; lia. Qed.

#[global] Arguments to_le : simpl never.
#[global] Arguments of_le : simpl never.

(** ** Fixed-width byte arrays *)

(** [arr n] is Rust's [[u8; n]]: the length is part of the type, with a boolean proof so that
    equality of arrays is equality of their bytes. *)
Record arr (n : nat) := Arr {
  arr_bytes : list byte;
  arr_len : Nat.eqb (length arr_bytes) n = true;
}.
Arguments Arr {n}.
Arguments arr_bytes {n}.
Arguments arr_len {n}.

Lemma arr_eq {n} (a b : arr n) : arr_bytes a = arr_bytes b -> a = b.
Proof.
  destruct a as [la Ha], b as [lb Hb]. simpl. intros ->. f_equal.
  apply UIP_dec. apply Bool.bool_dec.
Qed.

Lemma arr_length {n} (a : arr n) : length (arr_bytes a) = n.
Proof. apply Nat.eqb_eq, arr_len. Qed.

(** [slice.try_into()] to an array: fails unless the length is exact. *)
Definition arr_of (n : nat) (l : list byte) : option (arr n) :=
  match Nat.eqb (length l) n as b return Nat.eqb (length l) n = b -> option (arr n) with
  | true => fun H => Some (Arr l H)
  | false => fun _ => None
  end eq_refl.

Lemma arr_of_Some n l a : arr_of n l = Some a <-> arr_bytes a = l.
Proof.
  unfold arr_of. split.
  - generalize (eq_refl (Nat.eqb (length l) n)).
    generalize (Nat.eqb (length l) n) at 2 3 as b. intros [|] H ?; by simplify_eq.
  - intros <-. pose proof (arr_len a) as Ha. generalize (eq_refl (Nat.eqb (length (arr_bytes a)) n)).
    generalize (Nat.eqb (length (arr_bytes a)) n) at 2 3 as b.
    intros [|] H; [|congruence]. f_equal. by apply arr_eq.
Qed.

Lemma arr_of_bytes {n} (a : arr n) : arr_of n (arr_bytes a) = Some a.
Proof. by apply arr_of_Some. Qed.

Lemma arr_of_None n l : arr_of n l = None <-> length l <> n.
Proof.
  split.
  - intros H E. assert (Hb : Nat.eqb (length l) n = true) by by apply Nat.eqb_eq.
    pose proof (arr_of_bytes (Arr l Hb)) as Hs. simpl in Hs. congruence.
  - intros H. destruct (arr_of n l) as [a|] eqn:E; [|done].
    apply arr_of_Some in E. subst. by rewrite arr_length in H.
Qed.

Lemma arr_of_is_Some n l : length l = n -> exists a, arr_of n l = Some a /\ arr_bytes a = l.
Proof.
  intros H. destruct (arr_of n l) as [a|] eqn:E.
  - exists a. split; [done|]. by apply arr_of_Some.
  - by apply arr_of_None in E.
Qed.

#[global] Instance arr_eq_dec n : EqDecision (arr n).
Proof.
  refine (fun a b => match decide (arr_bytes a = arr_bytes b) with
                     | left H => left (arr_eq a b H)
                     | right H => right _
                     end).
  abstract congruence.
Defined.

#[global] Instance arr_countable n : Countable (arr n) :=
  inj_countable arr_bytes (arr_of n) arr_of_bytes.

(** [[b; n]], the repeated-byte array literal. *)
Definition arr_repeat (n : nat) (b : byte) : arr n :=
  Arr (replicate n b) (proj2 (Nat.eqb_eq _ _) (length_replicate n b)).

(** [bytes.reverse()] on an array. *)
Definition arr_reverse {n} (a : arr n) : arr n :=
  Arr (reverse (arr_bytes a))
    (proj2 (Nat.eqb_eq _ _) (eq_trans (length_reverse (arr_bytes a)) (arr_length a))).

Lemma arr_reverse_involutive {n} (a : arr n) : arr_reverse (arr_reverse a) = a.
Proof. apply arr_eq. simpl. apply reverse_involutive. Qed.

#[global] Arguments arr_reverse : simpl never.
#[global] Arguments arr_of : simpl never.

Lemma app_arr_inv {n} (a b : arr n) l1 l2 :
  arr_bytes a ++ l1 = arr_bytes b ++ l2 -> a = b /\ l1 = l2.
Proof.
  intros H. apply app_inj_1 in H as [H1 H2].
  - split; [by apply arr_eq|done].
  - by rewrite !arr_length.
Qed.

Lemma app_le_inv n z1 z2 l1 l2 :
  to_le n z1 ++ l1 = to_le n z2 ++ l2 -> to_le n z1 = to_le n z2 /\ l1 = l2.
Proof. intros H. apply app_inj_1 in H; [done|]. by rewrite !length_to_le. Qed.

(** ** Total orders, stable sorting by key, and ordered maps *)

(** The [Ord] implementations the program sorts and compares by. *)
Class KeyOrd (K : Type) := {
  key_leb : K -> K -> bool;
  key_leb_total : forall a b, key_leb a b = true \/ key_leb b a = true;
  key_leb_trans : forall a b c, key_leb a b = true -> key_leb b c = true -> key_leb a c = true;
  key_leb_antisym : forall a b, key_leb a b = true -> key_leb b a = true -> a = b;
}.

Definition key_ltb {K} `{KeyOrd K} (a b : K) : bool := negb (key_leb b a).

Lemma key_leb_refl {K} `{KeyOrd K} (a : K) : key_leb a a = true.
Proof. by destruct (key_leb_total a a). Qed.

Lemma key_ltb_leb {K} `{KeyOrd K} (a b : K) : key_ltb a b = true -> key_leb a b = true.
Proof.
  unfold key_ltb. intros Hn. destruct (key_leb_total a b) as [|E]; [done|].
  by rewrite E in Hn.
Qed.

Lemma key_ltb_irrefl {K} `{KeyOrd K} (a : K) : key_ltb a a = false.
Proof. unfold key_ltb. by rewrite key_leb_refl. Qed.

Lemma key_leb_ltb_trans {K} `{KeyOrd K} (a b c : K) :
  key_leb a b = true -> key_ltb b c = true -> key_ltb a c = true.
Proof.
  unfold key_ltb. intros H1 H2. destruct (key_leb c a) eqn:E; [|done].
  by rewrite (key_leb_trans _ _ _ E H1) in H2.
Qed.

Lemma key_leb_ne_ltb {K} `{KeyOrd K} (a b : K) :
  key_leb a b = true -> a <> b -> key_ltb a b = true.
Proof.
  unfold key_ltb. intros H1 Hne. destruct (key_leb b a) eqn:E; [|done].
  by destruct Hne; apply key_leb_antisym.
Qed.

#[global] Program Instance Z_key_ord : KeyOrd Z := {| key_leb := Z.leb |}.
Next Obligation. intros. lia. Qed.
Next Obligation. intros. lia. Qed.
Next Obligation. intros. lia. Qed.

(** Lexicographic order on byte strings: the derived [Ord] of [[u8; n]]. *)
Fixpoint lex_leb (l1 l2 : list byte) : bool :=
  match l1, l2 with
  | [], _ => true
  | _ :: _, [] => false
  | b1 :: l1', b2 :: l2' =>
      if bval b1 <? bval b2 then true
      else if bval b1 =? bval b2 then lex_leb l1' l2' else false
  end.

#[global] Program Instance bytes_key_ord : KeyOrd (list byte) := {| key_leb := lex_leb |}.
Next Obligation.
  induction a as [|x a IH]; intros [|y b]; simpl; auto.
  specialize (IH b). destruct (Z.ltb_spec (bval x) (bval y)), (Z.ltb_spec (bval y) (bval x)); auto.
  rewrite (Z.eqb_sym (bval y)). by destruct (bval x =? bval y) eqn:?; auto; lia.
Qed.
Next Obligation.
  induction a as [|x a IH]; intros [|y b] [|z c]; simpl; try done.
  destruct (Z.ltb_spec (bval x) (bval y)), (Z.ltb_spec (bval y) (bval z)),
    (Z.ltb_spec (bval x) (bval z)), (Z.eqb_spec (bval x) (bval y)),
    (Z.eqb_spec (bval y) (bval z)), (Z.eqb_spec (bval x) (bval z)); try done; try lia; eauto.
Qed.
Next Obligation.
  induction a as [|x a IH]; intros [|y b]; simpl; try done.
  destruct (Z.ltb_spec (bval x) (bval y)), (Z.ltb_spec (bval y) (bval x)),
    (Z.eqb_spec (bval x) (bval y)), (Z.eqb_spec (bval y) (bval x)); try done; try lia.
  intros H1' H2'. f_equal; [by apply bval_inj|eauto].
Qed.

(** An order pulled back along an injection, and the lexicographic order of a pair: the derived
    [Ord] of tuple structs and of structs, field by field. *)
Definition key_ord_of {A K} `{KeyOrd K} (f : A -> K) (Hf : forall a b, f a = f b -> a = b) :
  KeyOrd A := {|
  key_leb a b := key_leb (f a) (f b);
  key_leb_total a b := key_leb_total (f a) (f b);
  key_leb_trans a b c := key_leb_trans (f a) (f b) (f c);
  key_leb_antisym a b H1 H2 := Hf a b (key_leb_antisym (f a) (f b) H1 H2);
|}.

Definition pair_leb {A B} `{!KeyOrd A, !KeyOrd B} (p q : A * B) : bool :=
  if key_ltb p.1 q.1 then true
  else if key_ltb q.1 p.1 then false else key_leb p.2 q.2.

Lemma pair_leb_true {A B} `{!KeyOrd A, !KeyOrd B} (p q : A * B) :
  pair_leb p q = true <-> key_ltb p.1 q.1 = true \/ p.1 = q.1 /\ key_leb p.2 q.2 = true.
Proof.
  unfold pair_leb. destruct (key_ltb p.1 q.1) eqn:E1; [by split; [left|]|].
  destruct (key_ltb q.1 p.1) eqn:E2.
  - split; [done|]. intros [?|[E _]]; [done|]. by rewrite E, key_ltb_irrefl in E2.
  - unfold key_ltb in E1, E2. rewrite negb_false_iff in E1, E2.
    rewrite (key_leb_antisym p.1 q.1) by done. split; [by right|]. by intros [?|[_ ?]].
Qed.

#[global] Program Instance prod_key_ord {A B} `{!KeyOrd A, !KeyOrd B} : KeyOrd (A * B) :=
  {| key_leb := pair_leb |}.
Next Obligation.
  intros A B ? ? p q. rewrite !pair_leb_true.
  destruct (key_ltb p.1 q.1) eqn:E1; [auto|]. destruct (key_ltb q.1 p.1) eqn:E2; [auto|].
  unfold key_ltb in E1, E2. rewrite negb_false_iff in E1, E2.
  rewrite (key_leb_antisym p.1 q.1) by done.
  destruct (key_leb_total p.2 q.2); auto.
Qed.
Next Obligation.
  intros A B ? ? p q r. rewrite !pair_leb_true. intros [H1|[E1 H1]] [H2|[E2 H2]].
  - left. eapply key_leb_ltb_trans; [by apply key_ltb_leb|done].
  - left. by rewrite <- E2.
  - left. by rewrite E1.
  - right. split; [congruence|]. by eapply key_leb_trans.
Qed.
Next Obligation.
  intros A B ? ? [a1 b1] [a2 b2]. rewrite !pair_leb_true. simpl.
  intros [H1|[E1 H1]] [H2|[E2 H2]]; subst.
  - exfalso. pose proof (key_leb_ltb_trans _ _ _ (key_ltb_leb _ _ H1) H2) as Hc.
    by rewrite key_ltb_irrefl in Hc.
  - by rewrite key_ltb_irrefl in H1.
  - by rewrite key_ltb_irrefl in H2.
  - f_equal. by apply key_leb_antisym.
Qed.

#[global] Instance arr_key_ord n : KeyOrd (arr n) := key_ord_of arr_bytes arr_eq.

Section SortByKey.
Context {A K : Type} `{KeyOrd K} (f : A -> K).

(** [Vec::sort_by_key] is stable: an element is inserted before the first one whose key is
    not smaller, and the elements are inserted from the right. *)
Fixpoint insert_by_key (x : A) (l : list A) : list A :=
  match l with
  | [] => [x]
  | y :: l' => if key_leb (f x) (f y) then x :: l else y :: insert_by_key x l'
  end.

Definition sort_by_key (l : list A) : list A := foldr insert_by_key [] l.

Definition key_le (x y : A) : Prop := key_leb (f x) (f y) = true.
Definition key_lt (x y : A) : Prop := key_ltb (f x) (f y) = true.

Lemma insert_by_key_perm x l : insert_by_key x l ≡ₚ x :: l.
Proof.
  induction l as [|y l IH]; simpl; [done|].
  destruct (key_leb (f x) (f y)); [done|]. rewrite IH. constructor.
Qed.

Lemma sort_by_key_perm l : sort_by_key l ≡ₚ l.
Proof.
  induction l as [|x l IH]; simpl; [done|]. by rewrite insert_by_key_perm, IH.
Qed.

Lemma insert_by_key_sorted x l :
  StronglySorted key_le l -> StronglySorted key_le (insert_by_key x l).
Proof.
  induction 1 as [|y l Hl IH Hy]; simpl; [by repeat constructor|].
  destruct (key_leb (f x) (f y)) eqn:E.
  - constructor; [by constructor|]. constructor; [done|].
    eapply Forall_impl; [exact Hy|]. intros z Hz. by eapply key_leb_trans.
  - constructor; [done|]. rewrite insert_by_key_perm. constructor; [|done].
    unfold key_le. destruct (key_leb_total (f x) (f y)); congruence.
Qed.

Lemma sort_by_key_sorted l : StronglySorted key_le (sort_by_key l).
Proof. induction l; simpl; [constructor|]. by apply insert_by_key_sorted. Qed.

Lemma sort_by_key_id l : StronglySorted key_le l -> sort_by_key l = l.
Proof.
  induction 1 as [|x l Hl IH Hx]; simpl; [done|]. rewrite IH.
  destruct Hx as [|y l Hxy]; simpl; [done|]. by rewrite Hxy.
Qed.

Lemma sorted_unique l1 l2 :
  StronglySorted key_le l1 -> StronglySorted key_le l2 ->
  NoDup (f <$> l1) -> l1 ≡ₚ l2 -> l1 = l2.
Proof.
  intros H1. revert l2. induction H1 as [|x l1 Hl1 IH Hx]; intros l2 H2 Hnd Hp.
  - by apply Permutation_nil_l in Hp.
  - destruct H2 as [|y l2 Hl2 Hy]; [by apply Permutation_nil_r in Hp|].
    assert (x = y) as <-.
    { apply NoDup_cons in Hnd as [Hnx Hnd].
      assert (Hxin : x ∈ y :: l2) by (rewrite <- Hp; apply list_elem_of_here).
      assert (Hyin : y ∈ x :: l1) by (rewrite Hp; apply list_elem_of_here).
      apply elem_of_cons in Hxin as [|Hxin]; [done|].
      apply elem_of_cons in Hyin as [|Hyin]; [done|].
      rewrite Forall_forall in Hx, Hy.
      assert (f x = f y) as E by (apply key_leb_antisym; [by apply Hx|by apply Hy]).
      destruct Hnx. rewrite E. by apply list_elem_of_fmap_2. }
    f_equal. apply NoDup_cons in Hnd as [_ Hnd].
    apply IH; [done|done|]. by eapply Permutation_cons_inv.
Qed.

(** The sorted list of distinct keys does not depend on the input order. *)
Lemma sort_by_key_proper l1 l2 :
  NoDup (f <$> l1) -> l1 ≡ₚ l2 -> sort_by_key l1 = sort_by_key l2.
Proof.
  intros Hnd Hp. apply sorted_unique; [apply sort_by_key_sorted..| |].
  - by rewrite sort_by_key_perm.
  - by rewrite !sort_by_key_perm.
Qed.

Lemma key_lt_le l : StronglySorted key_lt l -> StronglySorted key_le l.
Proof.
  induction 1 as [|x l Hl IH Hx]; constructor; [done|].
  eapply Forall_impl; [exact Hx|]. intros y. apply key_ltb_leb.
Qed.

Lemma key_lt_NoDup l : StronglySorted key_lt l -> NoDup (f <$> l).
Proof.
  induction 1 as [|x l Hl IH Hx]; simpl; constructor; [|done].
  intros (y & E & Hy)%list_elem_of_fmap. rewrite Forall_forall in Hx.
  specialize (Hx y Hy). unfold key_lt in Hx. by rewrite E, key_ltb_irrefl in Hx.
Qed.

Lemma key_le_NoDup_lt l : StronglySorted key_le l -> NoDup (f <$> l) -> StronglySorted key_lt l.
Proof.
  induction 1 as [|x l Hl IH Hx]; simpl; intros Hnd; [constructor|].
  apply NoDup_cons in Hnd as [Hn Hnd]. constructor; [auto|].
  apply Forall_forall. intros y Hy. rewrite Forall_forall in Hx.
  apply key_leb_ne_ltb; [by apply Hx|]. intros E. destruct Hn. rewrite E.
  by apply list_elem_of_fmap_2.
Qed.
End SortByKey.

(** [BTreeMap]: a finite map whose iteration is in ascending key order. *)
Section OrderedMap.
Context {K V : Type} `{Countable K} `{!KeyOrd K}.

Definition bt_entries (m : gmap K V) : list (K * V) := sort_by_key fst (map_to_list m).
Definition bt_values (m : gmap K V) : list V := snd <$> bt_entries m.

Lemma bt_entries_perm m : bt_entries m ≡ₚ map_to_list m.
Proof. apply sort_by_key_perm. Qed.

Lemma bt_entries_NoDup m : NoDup (fst <$> bt_entries m).
Proof. rewrite bt_entries_perm. apply NoDup_fst_map_to_list. Qed.

Lemma bt_entries_sorted m : StronglySorted (key_lt fst) (bt_entries m).
Proof. apply key_le_NoDup_lt; [apply sort_by_key_sorted|apply bt_entries_NoDup]. Qed.

Lemma elem_of_bt_entries m k v : (k, v) ∈ bt_entries m <-> m !! k = Some v.
Proof. rewrite bt_entries_perm. apply elem_of_map_to_list. Qed.

Lemma elem_of_bt_values m v : v ∈ bt_values m <-> exists k, m !! k = Some v.
Proof.
  unfold bt_values. rewrite list_elem_of_fmap. split.
  - intros ([k v'] & -> & Hin). exists k. by apply elem_of_bt_entries.
  - intros [k Hk]. exists (k, v). split; [done|]. by apply elem_of_bt_entries.
Qed.

Lemma length_bt_entries m : length (bt_entries m) = size m.
Proof. rewrite bt_entries_perm. apply length_map_to_list. Qed.

Lemma length_bt_values m : length (bt_values m) = size m.
Proof. unfold bt_values. rewrite length_fmap. apply length_bt_entries. Qed.

Lemma bt_entries_to_map m : list_to_map (bt_entries m) = m.
Proof.
  rewrite <- (list_to_map_to_list m) at 2. apply list_to_map_proper.
  - apply bt_entries_NoDup.
  - apply bt_entries_perm.
Qed.
End OrderedMap.

(** ** Results that may also panic *)

(** [res E A] is the outcome of a Rust function returning [Result<A, E>]: a value, an error, or
    a panic ([expect] on [None], an index out of range, [unreachable!]). *)
Inductive res (E A : Type) :=
| Ok (a : A)
| Err (e : E)
| Panic.
Arguments Ok {E A}.
Arguments Err {E A}.
Arguments Panic {E A}.

Definition rbind {E A B} (m : res E A) (f : A -> res E B) : res E B :=
  match m with Ok a => f a | Err e => Err e | Panic => Panic end.

(** [option.ok_or(e)], [option.expect(..)], and indexing [l[i]]. *)
Definition ok_or {E A} (e : E) (o : option A) : res E A :=
  match o with Some a => Ok a | None => Err e end.
(** [result.map_err(f)]. *)
Definition map_err {E F A} (f : E -> F) (r : res E A) : res F A :=
  match r with Ok a => Ok a | Err e => Err (f e) | Panic => Panic end.
Definition expect {E A} (o : option A) : res E A :=
  match o with Some a => Ok a | None => Panic end.
Definition index {E A} (l : list A) (i : nat) : res E A := expect (l !! i).

(** [l[a..b]] as a panicking slice; [get_range] is [l.get(a..b)]. *)
Definition get_range {A} (a b : nat) (l : list A) : option (list A) :=
  if decide (a <= b /\ b <= length l)%nat then Some (take (b - a) (drop a l)) else None.
Definition slice {E A} (a b : nat) (l : list A) : res E (list A) := expect (get_range a b l).

Notation "'let?' x := m 'in' k" := (rbind m (fun x => k))
  (at level 10, x name, m at level 200, k at level 200) : tandem_scope.
Notation "'let?' ' p := m 'in' k" := (rbind m (fun '(p) => k))
  (at level 10, p strict pattern, m at level 200, k at level 200)
  : tandem_scope.
(** [if cond { return Err(e) } k] *)
Notation "'fail_if' c 'with' e ; k" := (if decide c then Err e else k)
  (at level 10, c at level 200, e at level 200, k at level 200)
  : tandem_scope.

#[global] Open Scope tandem_scope.

Section Res.
Context {E A B : Type}.

Lemma rbind_Ok (m : res E A) (f : A -> res E B) b :
  rbind m f = Ok b <-> exists a, m = Ok a /\ f a = Ok b.
Proof. destruct m; naive_solver. Qed.

Lemma rbind_Err (m : res E A) (f : A -> res E B) e :
  rbind m f = Err e <-> m = Err e \/ exists a, m = Ok a /\ f a = Err e.
Proof. destruct m; naive_solver. Qed.

Lemma ok_or_Ok (o : option A) (e : E) a : ok_or e o = Ok a <-> o = Some a.
Proof. destruct o; naive_solver. Qed.

Lemma ok_or_Err (o : option A) (e e' : E) : ok_or e o = Err e' <-> o = None /\ e' = e.
Proof. destruct o; naive_solver. Qed.

Lemma expect_Ok (o : option A) a : expect (E := E) o = Ok a <-> o = Some a.
Proof. destruct o; naive_solver. Qed.

Lemma expect_Err (o : option A) e : expect (E := E) o = Err e <-> False.
Proof. destruct o; naive_solver. Qed.

Lemma index_Ok (l : list A) i a : index (E := E) l i = Ok a <-> l !! i = Some a.
Proof. apply expect_Ok. Qed.

Lemma fail_if_Ok (Q : Prop) `{Decision Q} (e : E) (m : res E A) a :
  (fail_if Q with e; m) = Ok a <-> ¬ Q /\ m = Ok a.
Proof. case_decide; naive_solver. Qed.

Lemma map_err_Ok {F} (f : E -> F) (r : res E A) a : map_err f r = Ok a <-> r = Ok a.
Proof. destruct r; naive_solver. Qed.

Lemma map_err_Panic {F} (f : E -> F) (r : res E A) : map_err f r = Panic <-> r = Panic.
Proof. by destruct r. Qed.

(** A postcondition that also excludes panics: [m] either fails with an error or returns a
    value satisfying [Q]. *)
Definition returns (m : res E A) (Q : A -> Prop) : Prop :=
  match m with Ok a => Q a | Err _ => True | Panic => False end.

Lemma returns_no_panic m Q : returns m Q -> m <> Panic.
Proof. by destruct m. Qed.

Lemma returns_mono m (P Q : A -> Prop) : returns m P -> (forall a, P a -> Q a) -> returns m Q.
Proof. destruct m; simpl; auto. Qed.

Lemma returns_ok_or (o : option A) (e : E) (Q : A -> Prop) :
  (forall a, o = Some a -> Q a) -> returns (ok_or e o) Q.
Proof. destruct o; simpl; auto. Qed.

Lemma returns_index (l : list A) i (Q : A -> Prop) :
  (i < length l)%nat -> (forall a, l !! i = Some a -> Q a) -> returns (index l i) Q.
Proof.
  intros Hi HQ. unfold index. destruct (lookup_lt_is_Some_2 l i Hi) as [a Ha].
  rewrite Ha. by apply HQ.
Qed.

Lemma returns_fail_if (P : Prop) `{Decision P} (e : E) (m : res E A) Q :
  (¬ P -> returns m Q) -> returns (fail_if P with e; m) Q.
Proof. intros Hm. case_decide; simpl; auto. Qed.

End Res.

Lemma returns_slice {E A} (a b : nat) (l : list A) (Q : list A -> Prop) :
  (a <= b)%nat -> (b <= length l)%nat -> Q (take (b - a) (drop a l)) ->
  returns (slice (E := E) a b l) Q.
Proof. intros H1 H2 HQ. unfold slice, get_range. by rewrite decide_True. Qed.

Lemma returns_bind {E A B} (m : res E A) (f : A -> res E B) (P : A -> Prop) Q :
  returns m P -> (forall a, m = Ok a -> P a -> returns (f a) Q) -> returns (rbind m f) Q.
Proof. destruct m; simpl; auto. Qed.

(** ** Stateful computations *)

(** [st S E A] is a function taking [&mut S] and returning [Result<A, E>].  The state is not
    rolled back on an error: a computation that fails returns the state as it left it. *)
Definition st (S E A : Type) := S -> S * res E A.

Section St.
Context {S E : Type}.

Definition st_ret {A} (a : A) : st S E A := fun s => (s, Ok a).
Definition st_get : st S E S := fun s => (s, Ok s).
Definition st_put (s : S) : st S E unit := fun _ => (s, Ok tt).
Definition st_modify (f : S -> S) : st S E unit := fun s => (f s, Ok tt).
Definition st_lift {A} (m : res E A) : st S E A := fun s => (s, m).
Definition st_bind {A B} (m : st S E A) (f : A -> st S E B) : st S E B := fun s =>
  match m s with
  | (s', Ok a) => f a s'
  | (s', Err e) => (s', Err e)
  | (s', Panic) => (s', Panic)
  end.

Lemma st_bind_Ok {A B} (m : st S E A) (f : A -> st S E B) s s' b :
  st_bind m f s = (s', Ok b) <-> exists s1 a, m s = (s1, Ok a) /\ f a s1 = (s', Ok b).
Proof. unfold st_bind. destruct (m s) as [s1 [a|e|]]; naive_solver. Qed.

(** A Hoare-style postcondition: on success [Q], on an error [R], and never a panic. *)
Definition st_post {A} (m : st S E A) (s : S) (Q : S -> A -> Prop) (R : S -> E -> Prop) : Prop :=
  match m s with
  | (s', Ok a) => Q s' a
  | (s', Err e) => R s' e
  | (_, Panic) => False
  end.

Lemma st_post_bind {A B} (m : st S E A) (f : A -> st S E B) s P Q R :
  st_post m s P R -> (forall s' a, m s = (s', Ok a) -> P s' a -> st_post (f a) s' Q R) ->
  st_post (st_bind m f) s Q R.
Proof.
  unfold st_post, st_bind. destruct (m s) as [s1 [a|e|]] eqn:Em; simpl; auto.
  intros HP HQ. exact (HQ s1 a eq_refl HP).
Qed.

Lemma st_post_mono {A} (m : st S E A) s (P Q : S -> A -> Prop) R :
  st_post m s P R -> (forall s' a, P s' a -> Q s' a) -> st_post m s Q R.
Proof. unfold st_post. destruct (m s) as [s1 [a|e|]]; auto. Qed.
End St.

Notation "'do' x <- m ; k" := (st_bind m (fun x => k))
  (at level 10, x name, m at level 99, k at level 200) : tandem_scope.
Notation "'run' m ; k" := (st_bind m (fun _ => k))
  (at level 10, m at level 99, k at level 200) : tandem_scope.

(** ** Proof automation *)

(** Decompose a successful run into the successes of its parts. *)
Ltac res_step :=
  match goal with
  | H : rbind _ _ = Ok _ |- _ =>
      let a := fresh "a" in let Ha := fresh "Ha" in
      apply rbind_Ok in H; destruct H as (a & Ha & H)
  | H : (if decide ?P then Err _ else _) = Ok _ |- _ =>
      let Hn := fresh "Hn" in destruct (decide P) as [?|Hn]; [discriminate H|]
  | H : (if decide ?P then Ok _ else Err _) = Ok _ |- _ =>
      let Hp := fresh "Hp" in destruct (decide P) as [Hp|?]; [|discriminate H]
  | H : ok_or _ _ = Ok _ |- _ => apply ok_or_Ok in H
  | H : expect _ = Ok _ |- _ => apply expect_Ok in H
  | H : index _ _ = Ok _ |- _ => apply index_Ok in H
  | H : Ok _ = Ok _ |- _ => injection H as H; try subst
  | H : Err _ = Ok _ |- _ => discriminate H
  end.
Ltac res_inv := repeat res_step.

(** Case on the first [decide] or [match] of the goal or of a hypothesis. *)
Ltac split_decide := repeat case_decide.

Lemma get_range_Some {A} (a b : nat) (l r : list A) :
  get_range a b l = Some r <-> (a <= b /\ b <= length l)%nat /\ r = take (b - a) (drop a l).
Proof. unfold get_range. case_decide; naive_solver. Qed.

Lemma checked_add_Some max a b c : checked_add max a b = Some c <-> c = a + b /\ a + b <= max.
Proof. unfold checked_add. case_decide; naive_solver. Qed.

Lemma checked_add_None max a b : checked_add max a b = None <-> max < a + b.
Proof. unfold checked_add. case_decide; split; intros; by (done || lia). Qed.

Lemma checked_sub_Some a b c : checked_sub a b = Some c <-> c = a - b /\ b <= a.
Proof. unfold checked_sub. case_decide; naive_solver. Qed.

Lemma filter_positive_Some o z : filter_positive o = Some z <-> o = Some z /\ 0 < z.
Proof. unfold filter_positive. destruct o; [case_decide|]; naive_solver. Qed.

#[export] Hint Rewrite @checked_add_Some @checked_sub_Some @filter_positive_Some : tandem.
#[export] Hint Resolve bval_range arr_length : tandem.
