(* ===== verification/Types.v ===== *)
(** * Consensus data types (crates/tandem-core/src/types.rs)

    Every struct and enum of [types.rs] with its encodings: digests, outpoints, keys and key
    pairs, the deployment binding and its namespace, opcodes, reasons and event classes, the
    resolved transaction views, events, objects, the chain state and its counters.  The hash
    functions and the curve come from third-party crates and are the operations of the class
    [Primitives]; the [hex] crate is the class [HexCodec]. *)

From Stdlib Require Import String.
From stdpp Require Import strings.
From S2P Require Import Prelude.

(** [sha2::Sha256::digest], [bitcoin::hashes::hash160] and
    [secp256k1::PublicKey::from_slice(..).is_ok()]: total functions on byte strings. *)
Class Primitives := {
  sha256_digest : list byte -> arr 32;
  hash160_hash : list byte -> arr 20;
  secp_parses : list byte -> bool;
}.

(** The [hex] crate: lowercase encoding, and a decoder that inverts it. *)
Class HexCodec := {
  hex_encode : list byte -> string;
  hex_decode : string -> option (list byte);
  hex_decode_encode : forall l, hex_decode (hex_encode l) = Some l;
}.

(** ** Constants *)

Definition ascii (s : string) : list byte := String.list_byte_of_string s.
Definition domain (s : string) : list byte := ascii s ++ [x00].

Definition MAGIC : list byte := ascii "TNDM".
Definition VERSION : byte := x01.
Definition CARRIER_VALUE : Z := 20000.
Definition REFUND_DELAY : Z := 52560.
Definition FOUNDING_WINDOW : Z := 4320.
Definition INIT_LEAD : Z := 1008.
Definition CHANGE_FLOOR : Z := 1000.
Definition RBF_SEQUENCE : Z := 4294967293.

(** ** Digests, outpoints and keys *)

Definition Hash32 : Set := arr 32.
Definition Key33 : Set := arr 33.

#[global] Instance Hash32_eq_dec : EqDecision Hash32 := arr_eq_dec 32.
#[global] Instance Hash32_countable : Countable Hash32 := arr_countable 32.
#[global] Instance Hash32_ord : KeyOrd Hash32 := arr_key_ord 32.
#[global] Instance Key33_eq_dec : EqDecision Key33 := arr_eq_dec 33.
#[global] Instance Key33_ord : KeyOrd Key33 := arr_key_ord 33.

Definition hash_zero : Hash32 := arr_repeat 32 x00.
Definition key_zero : Key33 := arr_repeat 33 x00.

Definition is_zero (h : Hash32) : bool := bool_decide (h = hash_zero).

Record OutPointRef := OutPoint {
  op_txid : Hash32;
  op_vout : Z;
}.

#[global] Instance OutPointRef_eq_dec : EqDecision OutPointRef.
Proof. solve_decision. Defined.
#[global] Instance OutPointRef_countable : Countable OutPointRef :=
  inj_countable' (fun o => (op_txid o, op_vout o)) (fun p => OutPoint p.1 p.2)
    ltac:(by intros []).
#[global] Instance OutPointRef_ord : KeyOrd OutPointRef :=
  key_ord_of (fun o => (op_txid o, op_vout o))
    ltac:(intros [] []; simpl; congruence).

Definition outpoint_zero : OutPointRef := OutPoint hash_zero 0.

(** [OutPointRef::wire_bytes]: 32 txid bytes, then the little-endian index. *)
Definition wire_bytes (o : OutPointRef) : list byte :=
  arr_bytes (op_txid o) ++ to_le 4 (op_vout o).

Record KeyPair := mkKeyPair {
  key0 : Key33;
  key1 : Key33;
}.

#[global] Instance KeyPair_eq_dec : EqDecision KeyPair.
Proof. solve_decision. Defined.

(** ** Enumerations *)

Inductive Network := Mainnet | Signet | Testnet4 | Regtest.

#[global] Instance Network_eq_dec : EqDecision Network.
Proof. solve_decision. Defined.

Definition network_code (n : Network) : byte :=
  match n with Mainnet => x00 | Signet => x01 | Testnet4 => x02 | Regtest => x03 end.

Definition network_label (n : Network) : string :=
  match n with
  | Mainnet => "mainnet" | Signet => "signet" | Testnet4 => "testnet4" | Regtest => "regtest"
  end.

(** [Network::from_str]; the error is the message, which only names the value. *)
Definition network_from_str (value : string) : option Network :=
  if decide (value = "mainnet") then Some Mainnet
  else if decide (value = "signet") then Some Signet
  else if decide (value = "testnet4") then Some Testnet4
  else if decide (value = "regtest") then Some Regtest
  else None.

Inductive Opcode := OpInit | OpCreate | OpMark | OpRotate | OpClose.

#[global] Instance Opcode_eq_dec : EqDecision Opcode.
Proof. solve_decision. Defined.

Definition opcode_from_byte (value : byte) : option Opcode :=
  match value with
  | x00 => Some OpInit
  | x01 => Some OpCreate
  | x02 => Some OpMark
  | x03 => Some OpRotate
  | x04 => Some OpClose
  | _ => None
  end.

Definition payload_len (o : Opcode) : Z :=
  match o with OpInit => 59 | OpCreate => 40 | OpMark => 78 | OpRotate => 44 | OpClose => 80 end.

Inductive Reason :=
| Valid
| MultipleMarkers
| BadMarkerEncodingOrLength
| UnknownVersion
| WrongNetwork
| UnknownOpcode
| WrongNamespace
| UnsupportedOrReservedField
| BadTxVersionOrLocktime
| BadInputCountOrOrder
| BadOutputCountOrOrder
| UnconfirmedOrSameBlockPrevout
| BadInputScript
| BadKeyOrderOrBinding
| BadSignatureOrSighash
| BadOutputScriptOrValue
| NonpositiveOrInvalidFee
| BadFeeSplitOrChange
| PredecessorNotActive
| BadStateSequence
| BadSuccessor
| BadCommitment
| BadHeightOrPhase
| BadRefundShapeOrMaturity
| MultipleCarriers
| UnmarkedCarrierSpend.

#[global] Instance Reason_eq_dec : EqDecision Reason.
Proof. solve_decision. Defined.

(** [reason as u16]. *)
Definition reason_code (r : Reason) : Z :=
  match r with
  | Valid => 0
  | MultipleMarkers => 1
  | BadMarkerEncodingOrLength => 2
  | UnknownVersion => 3
  | WrongNetwork => 4
  | UnknownOpcode => 5
  | WrongNamespace => 6
  | UnsupportedOrReservedField => 7
  | BadTxVersionOrLocktime => 16
  | BadInputCountOrOrder => 17
  | BadOutputCountOrOrder => 18
  | UnconfirmedOrSameBlockPrevout => 19
  | BadInputScript => 20
  | BadKeyOrderOrBinding => 21
  | BadSignatureOrSighash => 22
  | BadOutputScriptOrValue => 23
  | NonpositiveOrInvalidFee => 24
  | BadFeeSplitOrChange => 25
  | PredecessorNotActive => 26
  | BadStateSequence => 27
  | BadSuccessor => 28
  | BadCommitment => 29
  | BadHeightOrPhase => 30
  | BadRefundShapeOrMaturity => 31
  | MultipleCarriers => 32
  | UnmarkedCarrierSpend => 48
  end.

Inductive EventType :=
| EvInit | EvCreate | EvMark | EvRotate | EvClose | EvRefund | EvExitedNoncanonical | EvInvalid.

#[global] Instance EventType_eq_dec : EqDecision EventType.
Proof. solve_decision. Defined.

Definition event_type_code (t : EventType) : Z :=
  match t with
  | EvInit => 0 | EvCreate => 1 | EvMark => 2 | EvRotate => 3 | EvClose => 4 | EvRefund => 5
  | EvExitedNoncanonical => 6 | EvInvalid => 7
  end.

(** [From<Opcode> for EventType]. *)
Definition event_type_of_opcode (o : Opcode) : EventType :=
  match o with
  | OpInit => EvInit | OpCreate => EvCreate | OpMark => EvMark | OpRotate => EvRotate
  | OpClose => EvClose
  end.

Inductive ValidityClass := InvalidNoState | ValidOperation | TerminalNoncanonical.

#[global] Instance ValidityClass_eq_dec : EqDecision ValidityClass.
Proof. solve_decision. Defined.

Definition validity_code (v : ValidityClass) : Z :=
  match v with InvalidNoState => 0 | ValidOperation => 1 | TerminalNoncanonical => 2 end.

Inductive ObjectStatus := Active | Closed | Refunded | ExitedNoncanonical.

#[global] Instance ObjectStatus_eq_dec : EqDecision ObjectStatus.
Proof. solve_decision. Defined.

Definition status_code (s : ObjectStatus) : Z :=
  match s with Active => 0 | Closed => 1 | Refunded => 2 | ExitedNoncanonical => 3 end.

(** ** Binding *)

Record Binding := mkBinding {
  network : Network;
  init_txid : Hash32;
  spec_hash : Hash32;
}.

#[global] Instance Binding_eq_dec : EqDecision Binding.
Proof. solve_decision. Defined.

(** ** Transaction and block views *)

Record InputView := mkInput {
  prevout : OutPointRef;
  sequence : Z;
  script_sig : list byte;
  witness : list (list byte);
  prevout_value : Z;
  prevout_script : list byte;
  prevout_height : option Z;
  signatures_valid : bool;
}.

Record OutputView := mkOutput {
  value : Z;
  script_pubkey : list byte;
}.

Record TxView := mkTx {
  tx_txid : Hash32;
  tx_wtxid : Hash32;
  tx_version : Z;
  lock_time : Z;
  inputs : list InputView;
  outputs : list OutputView;
}.

Record BlockView := mkBlock {
  blk_hash : Hash32;
  previous_hash : Hash32;
  blk_height : Z;
  transactions : list TxView;
}.

(** ** Events, objects and the chain state *)

Record Event := mkEvent {
  ev_namespace : Hash32;
  ev_block_hash : Hash32;
  ev_height : Z;
  tx_index : Z;
  event_index : Z;
  sub_index : Z;
  event_type : EventType;
  validity_class : ValidityClass;
  ev_reason : Reason;
  ev_txid : Hash32;
  ev_wtxid : Hash32;
  ev_object_key : Hash32;
  ev_state_seq : Z;
  predecessor : OutPointRef;
  successor : OutPointRef;
  ev_key0 : Key33;
  ev_key1 : Key33;
  commitment : Hash32;
}.

Record ObjectState := mkObject {
  object_key : Hash32;
  genesis : OutPointRef;
  founding : bool;
  status : ObjectStatus;
  create_height : Z;
  state_seq : Z;
  current_outpoint : OutPointRef;
  keys : KeyPair;
  terminal_txid : Hash32;
  chapter_count : Z;
}.

#[global] Instance ObjectState_eq_dec : EqDecision ObjectState.
Proof. solve_decision. Defined.
#[global] Instance Event_eq_dec : EqDecision Event.
Proof. solve_decision. Defined.

Inductive ProtocolStatus :=
| AwaitingInit
| PActive (init_height h_open h_close : Z)
| FailedInit (reason : Reason) (init_height : Z).

#[global] Instance ProtocolStatus_eq_dec : EqDecision ProtocolStatus.
Proof. solve_decision. Defined.

Record ChainState := mkState {
  binding : Binding;
  protocol_status : ProtocolStatus;
  tip_height : option Z;
  tip_hash : option Hash32;
  chained_root : Hash32;
  objects : gmap Hash32 ObjectState;
  active : gmap OutPointRef Hash32;
}.

#[global] Instance ChainState_eq_dec : EqDecision ChainState.
Proof. solve_decision. Defined.

Record Counters := mkCounters {
  founding_created : Z;
  all_objects : Z;
  active_objects : Z;
}.

Record HeightRoots := mkRoots {
  hr_height : Z;
  hr_block_hash : Hash32;
  hr_event_root : Hash32;
  hr_object_state_root : Hash32;
  hr_chained_root : Hash32;
  hr_counters : Counters;
}.

#[global] Instance Counters_eq_dec : EqDecision Counters.
Proof. solve_decision. Defined.
#[global] Instance HeightRoots_eq_dec : EqDecision HeightRoots.
Proof. solve_decision. Defined.

(** ** Operations *)

Section Ops.
Context {P : Primitives}.

(** [Hash32::sha256]. *)
Definition sha256 (bytes : list byte) : Hash32 := sha256_digest bytes.

(** [Key33::p2wpkh_script]: [0x00 0x14 hash160(key)]. *)
Definition p2wpkh_script (k : Key33) : list byte :=
  [x00; x14] ++ arr_bytes (hash160_hash (arr_bytes k)).

(** [Key33::is_valid]; the head of a 33-byte array always exists. *)
Definition key_is_valid (k : Key33) : bool :=
  match arr_bytes k with
  | b :: _ => bool_decide (b = x02 \/ b = x03) && secp_parses (arr_bytes k)
  | [] => false
  end.

(** [KeyPair::checked]. *)
Definition keypair_checked (k0 k1 : Key33) : option KeyPair :=
  if key_is_valid k0 && key_is_valid k1 && key_ltb k0 k1 then Some (mkKeyPair k0 k1) else None.

(** [KeyPair::witness_script]: the 71-byte 2-of-2 script. *)
Definition witness_script (p : KeyPair) : list byte :=
  [x52; x21] ++ arr_bytes (key0 p) ++ [x21] ++ arr_bytes (key1 p) ++ [x52; xae].

(** [KeyPair::carrier_script]: [0x00 0x20 sha256(witness_script)]. *)
Definition carrier_script (p : KeyPair) : list byte :=
  [x00; x20] ++ arr_bytes (sha256 (witness_script p)).

(** [KeyPair::contains]. *)
Definition keypair_contains (p : KeyPair) (k : Key33) : bool :=
  bool_decide (arr_bytes (key0 p) = arr_bytes k \/ arr_bytes (key1 p) = arr_bytes k).

(** [Binding::namespace]. *)
Definition namespace (b : Binding) : Hash32 :=
  sha256 (domain "TANDEM/NAMESPACE" ++ [network_code (network b)]
            ++ arr_bytes (init_txid b) ++ arr_bytes (spec_hash b)).

(** The free function [object_key(namespace, create_txid)]. *)
Definition derive_object_key (ns create_txid : Hash32) : Hash32 :=
  sha256 (domain "TANDEM/OBJECT" ++ arr_bytes ns ++ arr_bytes create_txid ++ to_le 4 1).

(** [InputView::p2wpkh_revealed_key].  The slice [prevout_script[..2]] is only taken of a
    22-byte script and [witness[1]] of a two-element stack, so neither can panic. *)
Definition p2wpkh_revealed_key (i : InputView) : option Key33 :=
  if decide (script_sig i <> [] \/ length (witness i) <> 2%nat
             \/ length (prevout_script i) <> 22%nat
             \/ take 2 (prevout_script i) <> [x00; x14])
  then None
  else w ← witness i !! 1%nat; arr_of 33 w.

(** [InputView::p2wpkh_key]. *)
Definition p2wpkh_key (i : InputView) : option Key33 :=
  key ← p2wpkh_revealed_key i;
  if decide (key_is_valid key = false \/ p2wpkh_script key <> prevout_script i)
  then None else Some key.

(** [InputView::carrier_revealed_keys]; every index is guarded by a length test. *)
Definition carrier_revealed_keys (i : InputView) : option (Key33 * Key33) :=
  if decide (script_sig i <> [] \/ length (witness i) <> 4%nat
             \/ witness i !! 0%nat <> Some []
             \/ length (prevout_script i) <> 34%nat
             \/ take 2 (prevout_script i) <> [x00; x20])
  then None
  else
    script ← witness i !! 3%nat;
    if decide (length script <> 71%nat \/ take 2 script <> [x52; x21]
               \/ script !! 35%nat <> Some x21
               \/ take 2 (drop 69 script) <> [x52; xae])
    then None
    else
      k0 ← arr_of 33 (take 33 (drop 2 script));
      k1 ← arr_of 33 (take 33 (drop 36 script));
      Some (k0, k1).

(** [InputView::carrier_keys]. *)
Definition carrier_keys (i : InputView) : option KeyPair :=
  '(k0, k1) ← carrier_revealed_keys i;
  pair ← keypair_checked k0 k1;
  if decide (carrier_script pair = prevout_script i) then Some pair else None.

(** [ChainState::new]. *)
Definition new_state (b : Binding) : ChainState := {|
  binding := b;
  protocol_status := AwaitingInit;
  tip_height := None;
  tip_hash := None;
  chained_root := sha256 (domain "TANDEM/STATE-EMPTY" ++ arr_bytes (namespace b));
  objects := ∅;
  active := ∅;
|}.
End Ops.

#[global] Arguments witness_script : simpl never.
#[global] Arguments carrier_script : simpl never.
#[global] Arguments p2wpkh_script : simpl never.
#[global] Arguments namespace : simpl never.
#[global] Arguments derive_object_key : simpl never.

(** [InputView::has_earlier_confirmation]. *)
Definition has_earlier_confirmation (i : InputView) (block_height : Z) : bool :=
  match prevout_height i with Some h => h <? block_height | None => false end.

(** [ChainState::counters]. *)
Definition counters (s : ChainState) : Counters := {|
  founding_created := len (filter (fun o => founding o = true) (bt_values (objects s)));
  all_objects := Z.of_nat (size (objects s));
  active_objects := len (filter (fun o => status o = Active) (bt_values (objects s)));
|}.

(** The serialized form of [ChainState::active] ([outpoint_map]): the entries in key order, and
    a deserializer that inserts pair by pair and refuses a duplicate outpoint. *)
Definition outpoint_map_serialize (m : gmap OutPointRef Hash32) : list (OutPointRef * Hash32) :=
  bt_entries m.

Definition outpoint_map_deserialize (pairs : list (OutPointRef * Hash32)) :
  option (gmap OutPointRef Hash32) :=
  let map := foldl (fun m p => <[p.1 := p.2]> m) ∅ pairs in
  if decide (size map <> length pairs) then None else Some map.

(** ** Hexadecimal text *)

Section Hex.
Context {X : HexCodec}.

(** [Hash32::to_hex], and [hex::decode_to_slice] into a 32-byte array. *)
Definition to_hex (h : Hash32) : string := hex_encode (arr_bytes h).
Definition from_hex (value : string) : option Hash32 := l ← hex_decode value; arr_of 32 l.

Definition key_to_hex (k : Key33) : string := hex_encode (arr_bytes k).
Definition key_from_hex (value : string) : option Key33 := l ← hex_decode value; arr_of 33 l.

Definition display_hash (h : Hash32) : string := hex_encode (arr_bytes (arr_reverse h)).
Definition wire_hash (display : string) : option Hash32 := h ← from_hex display; Some (arr_reverse h).

(** [Binding::protocol_id]: ["tndm:{network}:{display init txid}"]. *)
Definition protocol_id (b : Binding) : string :=
  "tndm:" ++ network_label (network b) ++ ":" ++ display_hash (init_txid b).
End Hex.

(** ** Encodings *)

Lemma wire_bytes_length o : length (wire_bytes o) = 36%nat.
Proof. unfold wire_bytes. by rewrite length_app, arr_length, length_to_le. Qed.

Lemma wire_bytes_inj o1 o2 :
  is_u32 (op_vout o1) -> is_u32 (op_vout o2) -> wire_bytes o1 = wire_bytes o2 -> o1 = o2.
Proof.
  destruct o1 as [t1 v1], o2 as [t2 v2]. unfold wire_bytes. simpl. intros H1 H2 E.
  apply app_arr_inv in E as [-> E]. f_equal. by apply to_le_inj_u32.
Qed.

Lemma network_code_inj n1 n2 : network_code n1 = network_code n2 -> n1 = n2.
Proof. by destruct n1, n2. Qed.

Lemma opcode_byte_cases b o :
  opcode_from_byte b = Some o ->
  b = match o with OpInit => x00 | OpCreate => x01 | OpMark => x02 | OpRotate => x03
                 | OpClose => x04 end.
Proof. destruct b; simpl; try discriminate; intros [= <-]; done. Qed.

Lemma reason_code_u16 r : is_u16 (reason_code r).
Proof. unfold is_u16, u16_max. destruct r; simpl; lia. Qed.

Lemma reason_code_inj r1 r2 : reason_code r1 = reason_code r2 -> r1 = r2.
Proof. destruct r1, r2; simpl; congruence. Qed.

Lemma event_type_code_inj t1 t2 : event_type_code t1 = event_type_code t2 -> t1 = t2.
Proof. destruct t1, t2; simpl; congruence. Qed.

Lemma validity_code_inj v1 v2 : validity_code v1 = validity_code v2 -> v1 = v2.
Proof. destruct v1, v2; simpl; congruence. Qed.

Lemma status_code_inj s1 s2 : status_code s1 = status_code s2 -> s1 = s2.
Proof. destruct s1, s2; simpl; congruence. Qed.

(** A list of known length splits at known positions. *)
Lemma split_at {A} (n : nat) (l : list A) : l = take n l ++ drop n l.
Proof. by rewrite take_drop. Qed.

Lemma length1_inv {A} (l : list A) : length l = 1%nat -> exists x, l = [x].
Proof. destruct l as [|x [|]]; try done. by exists x. Qed.

Section CarrierScripts.
Context {P : Primitives}.

Lemma witness_script_length p : length (witness_script p) = 71%nat.
Proof. unfold witness_script. by rewrite !length_app, !arr_length. Qed.

Lemma carrier_script_length p : length (carrier_script p) = 34%nat.
Proof. unfold carrier_script. by rewrite length_app, arr_length. Qed.

Lemma p2wpkh_script_length k : length (p2wpkh_script k) = 22%nat.
Proof. unfold p2wpkh_script. by rewrite length_app, arr_length. Qed.

Lemma witness_script_inj p1 p2 : witness_script p1 = witness_script p2 -> p1 = p2.
Proof.
  destruct p1 as [a1 b1], p2 as [a2 b2]. unfold witness_script. simpl. intros [= E].
  apply app_arr_inv in E as [-> E]. injection E as E. by apply app_arr_inv in E as [-> _].
Qed.

(** The pieces [InputView::carrier_revealed_keys] reads from a witness script are exactly the
    pieces [KeyPair::witness_script] writes. *)
Lemma witness_script_pieces (l : list byte) k0 k1 :
  l = witness_script (mkKeyPair k0 k1) <->
  length l = 71%nat /\ take 2 l = [x52; x21] /\ l !! 35%nat = Some x21 /\
  take 2 (drop 69 l) = [x52; xae] /\
  arr_bytes k0 = take 33 (drop 2 l) /\ arr_bytes k1 = take 33 (drop 36 l).
Proof.
  pose proof (arr_length k0) as L0. pose proof (arr_length k1) as L1. split.
  - intros ->. split; [apply witness_script_length|]. unfold witness_script. simpl key0. simpl key1.
    split; [done|]. split.
    { rewrite lookup_app_r by (simpl; lia). rewrite lookup_app_r by (simpl; lia).
      simpl length. by rewrite L0. }
    split.
    { rewrite drop_app_ge by (simpl; lia). rewrite drop_app_ge by (simpl; lia).
      rewrite drop_app_ge by (simpl; lia). rewrite drop_app_ge by (simpl; lia).
      simpl length. by rewrite L0, L1. }
    split.
    { change (drop 2 ([x52; x21] ++ ?r)) with r. by rewrite take_app_length'. }
    { rewrite drop_app_ge by (simpl; lia). rewrite drop_app_ge by (simpl; lia).
      rewrite drop_app_ge by (simpl; lia). simpl length. rewrite L0.
      change (36 - 2 - 33 - 1)%nat with 0%nat. rewrite drop_0.
      by rewrite take_app_length'. }
  - intros (Hl & H2 & H35 & H69 & E0 & E1).
    rewrite (split_at 2 l), H2. unfold witness_script. simpl key0. simpl key1. f_equal.
    rewrite (split_at 33 (drop 2 l)), E0, drop_drop. f_equal.
    rewrite (split_at 1 (drop _ l)), drop_drop.
    change (2 + 33)%nat with 35%nat. change (35 + 1)%nat with 36%nat. f_equal.
    { destruct (drop 35 l) as [|b r] eqn:Ed.
      - apply (f_equal length) in Ed. rewrite length_drop in Ed. simpl in Ed. lia.
      - simpl. replace l with (take 35 l ++ drop 35 l) in H35 by apply take_drop.
        rewrite Ed, lookup_app_r in H35 by (rewrite length_take; lia).
        rewrite length_take, Nat.min_l in H35 by lia. simpl in H35. rewrite take_0. congruence. }
    rewrite (split_at 33 (drop 36 l)), E1, drop_drop. f_equal.
    change (36 + 33)%nat with 69%nat. rewrite <- H69.
    symmetry. apply take_ge. rewrite length_drop. lia.
Qed.

(** A carrier input reveals keys [k0, k1] exactly when its scriptSig is empty, its witness is
    the four-element stack [[], sig, sig, witness_script(k0, k1)] and its prevout script is a
    34-byte version-0 program: [carrier_revealed_keys] accepts no other byte string. *)
Lemma carrier_revealed_keys_Some i k0 k1 :
  carrier_revealed_keys i = Some (k0, k1) <->
  script_sig i = [] /\
  (exists s1 s2, witness i = [[]; s1; s2; witness_script (mkKeyPair k0 k1)]) /\
  length (prevout_script i) = 34%nat /\ take 2 (prevout_script i) = [x00; x20].
Proof.
  unfold carrier_revealed_keys. split.
  - case_decide as Hg; [done|]. apply Decidable.not_or in Hg as [Hs Hg].
    apply Decidable.not_or in Hg as [Hw Hg]. apply Decidable.not_or in Hg as [H0 Hg].
    apply Decidable.not_or in Hg as [H34 Hv]. apply dec_stable in Hs, Hw, H0, H34, Hv.
    destruct (witness i) as [|w0 [|w1 [|w2 [|w3 [|]]]]] eqn:Ew; try done. simpl in *.
    injection H0 as ->. case_decide as Hg; [done|].
    apply Decidable.not_or in Hg as [H71 Hg]. apply Decidable.not_or in Hg as [H2 Hg].
    apply Decidable.not_or in Hg as [H35 H69]. apply dec_stable in H71, H2, H35, H69.
    destruct (arr_of 33 (take 33 (drop 2 w3))) as [a0|] eqn:E0; [|done]. simpl.
    destruct (arr_of 33 (take 33 (drop 36 w3))) as [a1|] eqn:E1; [|done]. simpl.
    intros [= -> ->]. apply arr_of_Some in E0, E1. split; [done|]. split; [|done].
    exists w1, w2. repeat f_equal. by apply witness_script_pieces.
  - intros (Hs & (s1 & s2 & Hw) & H34 & Hv).
    destruct (proj1 (witness_script_pieces _ k0 k1) eq_refl) as (W71 & W2 & W35 & W69 & W0 & W1).
    revert Hw W71 W2 W35 W69 W0 W1. generalize (witness_script (mkKeyPair k0 k1)). intros ws.
    intros Hw W71 W2 W35 W69 W0 W1. rewrite Hw, Hs, decide_False by naive_solver.
    cbn [lookup list_lookup mbind option_bind]. rewrite decide_False by naive_solver.
    by rewrite <- W0, <- W1, !arr_of_bytes.
Qed.

Lemma keypair_checked_Some k0 k1 p :
  keypair_checked k0 k1 = Some p <->
  p = mkKeyPair k0 k1 /\ key_is_valid k0 = true /\ key_is_valid k1 = true /\ key_ltb k0 k1 = true.
Proof.
  unfold keypair_checked. destruct (key_is_valid k0), (key_is_valid k1), (key_ltb k0 k1); naive_solver.
Qed.

(** What [InputView::carrier_keys] promises its callers: a checked pair, revealed by the witness
    and committed to by the spent script. *)
Lemma carrier_keys_Some i p :
  carrier_keys i = Some p <->
  carrier_revealed_keys i = Some (key0 p, key1 p) /\
  keypair_checked (key0 p) (key1 p) = Some p /\ prevout_script i = carrier_script p.
Proof.
  unfold carrier_keys. destruct (carrier_revealed_keys i) as [[k0 k1]|]; simpl; [|naive_solver].
  destruct (keypair_checked k0 k1) as [q|] eqn:E; simpl.
  - apply keypair_checked_Some in E as (-> & Hv0 & Hv1 & Hlt). case_decide as Hc.
    + split.
      * intros [= <-]. simpl. repeat split; [|done]. by apply keypair_checked_Some.
      * by intros ([= -> ->] & _ & _); destruct p.
    + split; [done|]. intros ([= -> ->] & _ & Hp). destruct p. by destruct Hc.
  - split; [done|]. intros ([= -> ->] & Hk & _). congruence.
Qed.

Lemma p2wpkh_revealed_key_Some i k :
  p2wpkh_revealed_key i = Some k <->
  script_sig i = [] /\ (exists sig, witness i = [sig; arr_bytes k]) /\
  length (prevout_script i) = 22%nat /\ take 2 (prevout_script i) = [x00; x14].
Proof.
  unfold p2wpkh_revealed_key. split.
  - case_decide as Hg; [done|]. apply Decidable.not_or in Hg as [Hs Hg].
    apply Decidable.not_or in Hg as [Hw Hg]. apply Decidable.not_or in Hg as [H22 Hv].
    apply dec_stable in Hs, Hw, H22, Hv.
    destruct (witness i) as [|w0 [|w1 [|]]] eqn:Ew; try done. simpl.
    intros E%arr_of_Some. subst. split; [done|]. split; [|done]. by exists w0.
  - intros (Hs & [sig Hw] & H22 & Hv). rewrite Hs, Hw. rewrite decide_False by naive_solver.
    simpl. apply arr_of_bytes.
Qed.

Lemma p2wpkh_key_Some i k :
  p2wpkh_key i = Some k <->
  p2wpkh_revealed_key i = Some k /\ key_is_valid k = true /\ prevout_script i = p2wpkh_script k.
Proof.
  unfold p2wpkh_key. destruct (p2wpkh_revealed_key i) as [k'|]; simpl; [|naive_solver].
  case_decide as Hc; [split; [done|]|].
  - intros ([= ->] & Hv & Hp). destruct Hc; congruence.
  - apply Decidable.not_or in Hc as [Hv Hp]. apply dec_stable in Hp.
    destruct (key_is_valid k') eqn:Ek; naive_solver.
Qed.

(** An input cannot be read both as a carrier and as a P2WPKH spend: the two prevout programs
    have different lengths. *)
Lemma p2wpkh_not_carrier i k p :
  p2wpkh_revealed_key i = Some k -> prevout_script i <> carrier_script p.
Proof.
  intros (_ & _ & H22 & _)%p2wpkh_revealed_key_Some E. rewrite E, carrier_script_length in H22.
  done.
Qed.
End CarrierScripts.

Section HexText.
Context {X : HexCodec}.

Lemma from_to_hex h : from_hex (to_hex h) = Some h.
Proof. unfold from_hex, to_hex. rewrite hex_decode_encode. simpl. apply arr_of_bytes. Qed.

Lemma key_from_to_hex k : key_from_hex (key_to_hex k) = Some k.
Proof. unfold key_from_hex, key_to_hex. rewrite hex_decode_encode. simpl. apply arr_of_bytes. Qed.

Lemma hex_encode_inj l1 l2 : hex_encode l1 = hex_encode l2 -> l1 = l2.
Proof.
  intros E. pose proof (hex_decode_encode l1) as H1. rewrite E, hex_decode_encode in H1. congruence.
Qed.

Lemma to_hex_inj h1 h2 : to_hex h1 = to_hex h2 -> h1 = h2.
Proof. intros E%hex_encode_inj. by apply arr_eq. Qed.

(** Display order and wire order are inverse: [wire_hash] reads back what [display_hash]
    prints, so no digest is lost or reordered between the two conventions. *)
Lemma wire_display h : wire_hash (display_hash h) = Some h.
Proof.
  unfold wire_hash, display_hash, from_hex. rewrite hex_decode_encode.
  cbn [mbind option_bind]. rewrite arr_of_bytes. cbn [mbind option_bind]. by rewrite arr_reverse_involutive.
Qed.

Lemma display_hash_inj h1 h2 : display_hash h1 = display_hash h2 -> h1 = h2.
Proof.
  intros E%hex_encode_inj%arr_eq. apply (f_equal arr_reverse) in E.
  by rewrite !arr_reverse_involutive in E.
Qed.
End HexText.

(** ** Protocol identifier and the active-carrier map *)

Section Identity.
Context {X : HexCodec}.

Lemma string_app_inj_l (a s1 s2 : string) : (a ++ s1 = a ++ s2)%string -> s1 = s2.
Proof. induction a as [|c a IH]; simpl; [done|]. intros [= E]. auto. Qed.

Lemma label_app_inj n1 n2 s1 s2 :
  (network_label n1 ++ ":" ++ s1 = network_label n2 ++ ":" ++ s2)%string -> n1 = n2 /\ s1 = s2.
Proof. destruct n1, n2; simpl; intros [=]; done. Qed.

(** The protocol identifier determines the network and the INIT txid, so two deployments
    that differ in either never share an identifier. *)
Lemma protocol_id_injective b1 b2 :
  protocol_id b1 = protocol_id b2 -> network b1 = network b2 /\ init_txid b1 = init_txid b2.
Proof.
  unfold protocol_id. intros E%string_app_inj_l%label_app_inj. destruct E as [En Ed].
  split; [done|]. by apply display_hash_inj.
Qed.
End Identity.

Lemma network_from_label n : network_from_str (network_label n) = Some n.
Proof. by destruct n. Qed.

Lemma foldl_insert_reverse {K V} `{Countable K} (m : gmap K V) (pairs : list (K * V)) :
  foldl (fun m p => <[p.1 := p.2]> m) m pairs = list_to_map (reverse pairs) ∪ m.
Proof.
  revert m. induction pairs as [|[k v] pairs IH]; intros m; simpl.
  - by rewrite map_empty_union.
  - rewrite IH, reverse_cons, list_to_map_app, <- map_union_assoc. f_equal.
    simpl. by rewrite <- insert_union_l, map_empty_union.
Qed.

(** Collecting the entries of a map, in whatever order, gives the map. *)
Lemma foldl_insert_entries {K V} `{Countable K, !KeyOrd K} (m : gmap K V) (entries : list (K * V)) :
  entries ≡ₚ bt_entries m -> foldl (fun m p => <[p.1 := p.2]> m) ∅ entries = m.
Proof.
  intros He. rewrite foldl_insert_reverse, map_union_empty, <- (bt_entries_to_map m) at 1.
  apply list_to_map_proper; rewrite reverse_Permutation, He; [apply bt_entries_NoDup|done].
Qed.

Lemma size_list_to_map_le (l : list (OutPointRef * Hash32)) :
  (size (list_to_map (M := gmap OutPointRef Hash32) l) <= length l)%nat.
Proof.
  induction l as [|[k v] l IH]; simpl; [by rewrite map_size_empty|].
  rewrite map_size_insert. destruct (_ !! k); unfold id; lia.
Qed.

Lemma size_list_to_map_NoDup (l : list (OutPointRef * Hash32)) :
  size (list_to_map (M := gmap OutPointRef Hash32) l) = length l -> NoDup l.*1.
Proof.
  induction l as [|[k v] l IH]; simpl; intros E; [constructor|].
  rewrite map_size_insert in E. pose proof (size_list_to_map_le l).
  destruct (list_to_map l !! k) eqn:Ek; unfold id in E; [lia|]. apply NoDup_cons. split; [|auto].
  by apply not_elem_of_list_to_map.
Qed.

Lemma outpoint_map_deserialize_Some pairs m :
  outpoint_map_deserialize pairs = Some m <-> NoDup pairs.*1 /\ m = list_to_map pairs.
Proof.
  unfold outpoint_map_deserialize. rewrite foldl_insert_reverse, map_union_empty.
  assert (Hperm : NoDup pairs.*1 -> list_to_map (M := gmap OutPointRef Hash32) (reverse pairs)
            = list_to_map pairs).
  { intros Hnd. apply list_to_map_proper; [|apply reverse_Permutation].
    by rewrite reverse_Permutation. }
  rewrite <- (length_reverse pairs). case_decide as Hs.
  - split; [done|]. intros [Hnd _]. destruct Hs.
    rewrite <- length_map_to_list, map_to_list_to_map; [done|]. by rewrite reverse_Permutation.
  - apply size_list_to_map_NoDup in Hs.
    rewrite reverse_Permutation in Hs. rewrite Hperm by done. naive_solver.
Qed.

(** The persisted form of the active-carrier index loses nothing: deserializing what
    [outpoint_map::serialize] writes gives the same map back. *)
Lemma outpoint_map_roundtrip m :
  outpoint_map_deserialize (outpoint_map_serialize m) = Some m.
Proof.
  apply outpoint_map_deserialize_Some. split; [apply bt_entries_NoDup|].
  symmetry. apply bt_entries_to_map.
Qed.

