(* ===== verification/Marker.v ===== *)
(** * Marker detection and parsing (crates/tandem-core/src/marker.rs)

    Broad candidate detection over raw output scripts, the strict parser, and the fixed-field
    accessors of a parsed marker.  Indexing that would panic in Rust is [Panic] here. *)

From S2P Require Import Prelude Types.

(** ** Candidates *)

Record MarkerCandidate := mkCandidate {
  mc_vout : Z;
  declared_len : Z;
  mc_payload : list byte;
  prefix_complete : bool;
  payload_complete : bool;
  no_trailing_bytes : bool;
  minimal_push : bool;
}.

Record ParsedMarker := mkMarker {
  pm_vout : Z;
  pm_version : byte;
  pm_network : byte;
  pm_opcode_byte : byte;
  pm_opcode : option Opcode;
  pm_payload : list byte;
}.

Definition opcode_byte (c : MarkerCandidate) : option byte := mc_payload c !! 6%nat.

Definition is_init_candidate (c : MarkerCandidate) : bool :=
  bool_decide (opcode_byte c = Some x00).

(** [MarkerCandidate::parse]; [MarkerError] only wraps its reason. *)
Definition parse (c : MarkerCandidate) : res Reason ParsedMarker :=
  fail_if (prefix_complete c = false \/ ¬ (7 <= declared_len c <= 80)
           \/ payload_complete c = false \/ no_trailing_bytes c = false
           \/ minimal_push c = false) with BadMarkerEncodingOrLength;
  let? version := index (mc_payload c) 4 in
  let? net := index (mc_payload c) 5 in
  let? opb := index (mc_payload c) 6 in
  let opcode := opcode_from_byte opb in
  fail_if (is_some_and opcode (fun o => payload_len o <> len (mc_payload c)))
    with BadMarkerEncodingOrLength;
  Ok (mkMarker (mc_vout c) version net opb opcode (mc_payload c)).

(** The push prefix after [OP_RETURN]: declared length, prefix length, completeness and
    minimality, [None] when the script is too short or the opcode is not a push.  [usize] is at
    least 32 bits wide, so [usize::try_from] of a 32-bit length succeeds. *)
Definition push_prefix (script : list byte) : option (Z * nat * bool * bool) :=
  opcode ← script !! 1%nat;
  if decide (1 <= bval opcode <= 75) then Some (bval opcode, 2%nat, true, true)
  else if decide (opcode = x4c) then
    length ← script !! 2%nat;
    Some (bval length, 3%nat, true, bool_decide (76 <= bval length))
  else if decide (opcode = x4d) then
    bytes ← get_range 2 4 script;
    let length := of_le bytes in
    Some (length, 4%nat, true, bool_decide (255 < length))
  else if decide (opcode = x4e) then
    bytes ← get_range 2 6 script;
    let length := of_le bytes in
    Some (length, 6%nat, true, bool_decide (65535 < length))
  else None.

(** [find_marker_candidate]. *)
Definition find_marker_candidate (script : list byte) (vout : Z) : option MarkerCandidate :=
  if decide (head script <> Some x6a) then None else
  '(dlen, prefix_len, prefix_ok, minimal) ← push_prefix script;
  if decide (prefix_ok = false \/ dlen < 4) then None else
  let available := (length script - prefix_len)%nat in
  if decide ((available < 4)%nat \/ get_range prefix_len (prefix_len + 4) script <> Some MAGIC)
  then None else
  let physical_len := Z.to_nat (Z.min dlen (Z.of_nat available)) in
  Some {|
    mc_vout := vout;
    declared_len := dlen;
    mc_payload := take physical_len (drop prefix_len script);
    prefix_complete := prefix_ok;
    payload_complete := bool_decide (dlen <= Z.of_nat available);
    no_trailing_bytes := bool_decide (Z.of_nat available = dlen);
    minimal_push := minimal;
  |}.

(** ** Parsed fields *)

(** [ParsedMarker::u32_at], [u64_at] and [hash_at]: a slice out of range panics. *)
Definition u32_at {E} (m : ParsedMarker) (start : nat) : res E Z :=
  let? b := slice start (start + 4) (pm_payload m) in Ok (of_le b).

Definition u64_at {E} (m : ParsedMarker) (start : nat) : res E Z :=
  let? b := slice start (start + 8) (pm_payload m) in Ok (of_le b).

Definition hash_at {E} (m : ParsedMarker) (start : nat) : res E Hash32 :=
  let? b := slice start (start + 32) (pm_payload m) in expect (arr_of 32 b).

(** [ParsedMarker::observed_namespace]. *)
Definition observed_namespace {E} (m : ParsedMarker) : res E (option Hash32) :=
  if decide (pm_version m = x01 /\
             is_some_and (pm_opcode m) (fun o => o <> OpInit))
  then let? h := hash_at m 8 in Ok (Some h)
  else Ok None.

(** The canonical encoder of the reducer's tests: [OP_RETURN] and the shortest push, for payloads
    of at most 255 bytes. *)
Definition marker_script (payload : list byte) : list byte :=
  x6a :: (if decide (len payload <= 75) then [byte_of_Z (len payload)]
          else [x4c; byte_of_Z (len payload)]) ++ payload.

(** ** Well-formed payloads *)

(** What a successful parse guarantees of the payload bytes. *)
Definition payload_ok (p : list byte) : Prop :=
  7 <= len p <= 80 /\ take 4 p = MAGIC /\
  (forall b o, p !! 6%nat = Some b -> opcode_from_byte b = Some o -> payload_len o = len p).

(** The marker that a payload stands for. *)
Definition marker_of (vout : Z) (p : list byte) (m : ParsedMarker) : Prop :=
  pm_vout m = vout /\ pm_payload m = p /\
  p !! 4%nat = Some (pm_version m) /\ p !! 5%nat = Some (pm_network m) /\
  p !! 6%nat = Some (pm_opcode_byte m) /\ pm_opcode m = opcode_from_byte (pm_opcode_byte m).

Lemma parse_Ok c m :
  parse c = Ok m <->
  prefix_complete c = true /\ 7 <= declared_len c <= 80 /\ payload_complete c = true /\
  no_trailing_bytes c = true /\ minimal_push c = true /\
  marker_of (mc_vout c) (mc_payload c) m /\
  (forall o, pm_opcode m = Some o -> payload_len o = len (mc_payload c)).
Proof.
  unfold parse, marker_of. split.
  - intros H. res_inv. simpl. destruct (prefix_complete c), (payload_complete c),
      (no_trailing_bytes c), (minimal_push c); try (by destruct Hn; auto 10).
    assert (7 <= declared_len c <= 80) by (destruct (decide (7 <= declared_len c <= 80)); [done|];
      destruct Hn; auto).
    repeat split; try done; try lia. intros o Ho. rewrite Ho in Hn0. simpl in Hn0. lia.
  - intros (Hp & Hd & Hc & Ht & Hm & (Hv & Hpl & H4 & H5 & H6 & Ho) & Hlen).
    rewrite decide_False by (rewrite Hp, Hc, Ht, Hm; naive_solver).
    unfold index. rewrite H4, H5, H6. simpl. rewrite decide_False.
    + destruct m; simpl in *. by subst.
    + rewrite <- Ho. destruct (pm_opcode m) eqn:E; [|by auto]. intros Hx. simpl in Hx. by apply Hx, Hlen.
Qed.

Lemma parse_Err c r : parse c = Err r -> r = BadMarkerEncodingOrLength.
Proof.
  unfold parse, index. case_decide; [by intros [= <-]|].
  destruct (mc_payload c !! 4%nat); simpl; [|done].
  destruct (mc_payload c !! 5%nat); simpl; [|done].
  destruct (mc_payload c !! 6%nat); simpl; [|done]. by case_decide; [intros [= <-]|].
Qed.

(** ** Detection *)

Lemma get_range_MAGIC pl (script : list byte) :
  (4 <= length script - pl)%nat ->
  get_range pl (pl + 4) script = Some MAGIC <-> take 4 (drop pl script) = MAGIC.
Proof.
  intros Hl. rewrite get_range_Some. replace (pl + 4 - pl)%nat with 4%nat by lia.
  split; [by intros [_ ->]|]. intros ->. split; [lia|done].
Qed.

(** The candidate found at a push prefix of [pl] bytes that declares [dlen] bytes. *)
Lemma find_marker_candidate_Some script vout c :
  find_marker_candidate script vout = Some c <->
  head script = Some x6a /\
  exists dlen pl minimal,
    push_prefix script = Some (dlen, pl, true, minimal) /\ 4 <= dlen /\
    (4 <= length script - pl)%nat /\ take 4 (drop pl script) = MAGIC /\
    let available := Z.of_nat (length script - pl) in
    c = mkCandidate vout dlen (take (Z.to_nat (Z.min dlen available)) (drop pl script)) true
          (bool_decide (dlen <= available)) (bool_decide (available = dlen)) minimal.
Proof.
  unfold find_marker_candidate. split.
  - case_decide as Hh; [done|].
    destruct (push_prefix script) as [[[[dlen pl] ok] minimal]|] eqn:Ep; simpl; [|done].
    case_decide as Hd; [done|]. case_decide as Ha; [done|]. intros [= <-].
    destruct ok; [|by destruct Hd; left].
    split; [done|]. exists dlen, pl, minimal.
    apply Decidable.not_or in Ha as [Ha1 Ha2]. apply dec_stable in Ha2.
    rewrite get_range_MAGIC in Ha2 by lia. split_and!; [done| |lia|done|done].
    destruct (decide (dlen < 4)); [by destruct Hd; right|lia].
  - intros (Hh & dlen & pl & minimal & Ep & Hd & Ha & Hm & ->).
    rewrite decide_False by (by intros []). rewrite Ep. simpl.
    rewrite decide_False by (intros [?|?]; [done|lia]).
    rewrite decide_False; [done|]. intros [?|Hn]; [lia|]. apply Hn. by apply get_range_MAGIC.
Qed.

(** The two prefixes a strict parse can accept. *)
Lemma push_prefix_short b p :
  1 <= bval b <= 75 -> push_prefix (x6a :: b :: p) = Some (bval b, 2%nat, true, true).
Proof. intros Hb. unfold push_prefix. simpl. by rewrite decide_True. Qed.

Lemma push_prefix_pushdata1 b p :
  push_prefix (x6a :: x4c :: b :: p) = Some (bval b, 3%nat, true, bool_decide (76 <= bval b)).
Proof. reflexivity. Qed.

Lemma push_prefix_inv script dlen pl :
  push_prefix script = Some (dlen, pl, true, true) -> dlen <= 80 ->
  (exists b, script !! 1%nat = Some b /\ dlen = bval b /\ dlen <= 75 /\ pl = 2%nat) \/
  (exists b, script !! 1%nat = Some x4c /\ script !! 2%nat = Some b /\ dlen = bval b /\
     76 <= dlen /\ pl = 3%nat).
Proof.
  unfold push_prefix. destruct (script !! 1%nat) as [op|]; simpl; [|done].
  case_decide; [intros [= <- <-] _; left; exists op; split_and!; auto; lia|].
  case_decide; [|case_decide; [|case_decide; [|done]]]; subst.
  - destruct (script !! 2%nat) as [b|]; simpl; [|done]. intros [= <- <- Hm] _.
    apply bool_decide_eq_true in Hm. right. by exists b.
  - destruct (get_range 2 4 script); simpl; [|done]. intros [= <- <- Hm]. 
    apply bool_decide_eq_true in Hm. lia.
  - destruct (get_range 2 6 script); simpl; [|done]. intros [= <- <- Hm].
    apply bool_decide_eq_true in Hm. lia.
Qed.

Lemma bval_of_len (p : list byte) : len p <= 80 -> bval (byte_of_Z (len p)) = len p.
Proof. intros H. rewrite bval_of_Z. apply Z.mod_small. unfold len in *. lia. Qed.

Lemma byte_of_len b (p : list byte) : len p = bval b -> byte_of_Z (len p) = b.
Proof. intros ->. apply byte_of_bval. Qed.

(** C37: strict parsing accepts exactly the canonical encodings: a script yields a marker if and
    only if it is [OP_RETURN] followed by the shortest push of a payload of 7 to 80 bytes that
    starts with the magic and has the exact length of its opcode, and the marker's fields are
    then the payload's bytes.  So parsing inverts the encoder and no two scripts carry the same
    payload. *)
Theorem marker_parse_exact script vout m :
  (exists c, find_marker_candidate script vout = Some c /\ parse c = Ok m) <->
  (exists p, script = marker_script p /\ payload_ok p /\ marker_of vout p m).
Proof.
  split.
  - intros (c & Hf & Hp). apply find_marker_candidate_Some in Hf
      as (Hh & dlen & pl & mi & Epp & Hd & Ha & Hm & ->).
    apply parse_Ok in Hp as (_ & Hd80 & _ & Ht & Hmi & Hmo & Hlen). simpl in *. subst mi.
    apply bool_decide_eq_true in Ht.
    rewrite Ht, Z.min_id, take_ge in Hmo, Hlen by (rewrite length_drop; lia).
    exists (drop pl script).
    assert (Hdl : len (drop pl script) = dlen) by (unfold len; rewrite length_drop; lia).
    assert (Hok : payload_ok (drop pl script)).
    { split; [lia|]. split; [done|]. intros b o Hb Ho. apply Hlen.
      destruct Hmo as (_ & _ & _ & _ & H6 & ->). congruence. }
    split; [|done]. unfold marker_script. rewrite Hdl.
    destruct script as [|s0 script]; [done|]. injection Hh as ->. f_equal.
    apply push_prefix_inv in Epp as [(b & Hb & Hdb & H75 & ->)|(b & Hb & Hb2 & Hdb & H76 & ->)];
      [| |lia].
    + rewrite decide_True by done. destruct script as [|s1 script]; [done|].
      injection Hb as ->. simpl. f_equal. rewrite Hdb. symmetry. apply byte_of_bval.
    + rewrite decide_False by lia. destruct script as [|s1 [|s2 script]]; [done..|].
      injection Hb as ->. injection Hb2 as ->. simpl. f_equal. f_equal. rewrite Hdb.
      symmetry. apply byte_of_bval.
  - intros (p & -> & (Hlen & Hmg & Hop) & Hm).
    assert (Hlm : (4 <= length p)%nat) by (unfold len in Hlen; lia).
    set (minimal := true).
    exists (mkCandidate vout (len p) p true true true minimal). split.
    + apply find_marker_candidate_Some. split; [done|]. unfold marker_script.
      exists (len p), (if decide (len p <= 75) then 2%nat else 3%nat), true.
      pose proof (bval_of_len p ltac:(lia)) as Hb. case_decide.
      * simpl app. rewrite push_prefix_short by lia. rewrite Hb.
        change (drop 2 (x6a :: byte_of_Z (len p) :: p)) with p. simpl length. unfold len in *.
        replace (S (S (length p)) - 2)%nat with (length p) by lia.
        rewrite Z.min_id, Nat2Z.id, firstn_all.
        rewrite !bool_decide_eq_true_2 by lia. split_and!; done || lia.
      * simpl app. rewrite push_prefix_pushdata1, Hb.
        change (drop 3 (x6a :: x4c :: byte_of_Z (len p) :: p)) with p. simpl length. unfold len in *.
        replace (S (S (S (length p))) - 3)%nat with (length p) by lia.
        rewrite Z.min_id, Nat2Z.id, firstn_all.
        rewrite !bool_decide_eq_true_2 by lia. split_and!; done || lia.
    + apply parse_Ok. simpl. split_and!; try done; try lia. intros o Ho.
      destruct Hm as (_ & _ & _ & _ & H6 & Hpo). rewrite Hpo in Ho. by eapply Hop.
Qed.

Lemma parse_no_panic script vout c : find_marker_candidate script vout = Some c -> parse c <> Panic.
Proof.
  intros (Hh & dlen & pl & mi & Epp & Hd & Ha & Hm & ->)%find_marker_candidate_Some.
  unfold parse. simpl. case_decide as Hg; [done|].
  assert (Hav : Z.of_nat (length script - pl) = dlen).
  { destruct (decide (Z.of_nat (length script - pl) = dlen)) as [E|E]; [done|].
    destruct Hg. right; right; right; left. by apply bool_decide_eq_false. }
  assert (H7 : 7 <= dlen) by (destruct (decide (7 <= dlen <= 80)); [lia|destruct Hg; auto]).
  rewrite Hav, Z.min_id, take_ge by (rewrite length_drop; lia).
  assert (Hl : (7 <= length (drop pl script))%nat) by (rewrite length_drop; lia).
  revert Hl. generalize (drop pl script). intros p Hl.
  destruct p as [|? [|? [|? [|? [|? [|? [|? p]]]]]]]; simpl in Hl; try lia.
  unfold index. cbn [lookup list_lookup expect rbind]. destruct (decide _); discriminate.
Qed.

(** ** Field accessors on parsed markers *)

Lemma slice_ok {E A} (a b : nat) (l : list A) :
  (a <= b)%nat -> (b <= length l)%nat -> slice (E := E) a b l = Ok (take (b - a) (drop a l)).
Proof. intros ? ?. unfold slice, get_range. by rewrite decide_True. Qed.

Lemma u32_at_ok {E} m start :
  (start + 4 <= length (pm_payload m))%nat ->
  exists z, u32_at (E := E) m start = Ok z /\ is_u32 z.
Proof.
  intros Hl. unfold u32_at. rewrite slice_ok by lia. simpl. eexists. split; [done|].
  pose proof (of_le_range (take (start + 4 - start) (drop start (pm_payload m)))) as Hr.
  unfold len in Hr. rewrite length_take, length_drop, Nat.min_l in Hr by lia.
  replace (start + 4 - start)%nat with 4%nat in * by lia. unfold is_u32, u32_max.
  change (256 ^ Z.of_nat 4) with 4294967296 in Hr. lia.
Qed.

Lemma u64_at_ok {E} m start :
  (start + 8 <= length (pm_payload m))%nat -> exists z, u64_at (E := E) m start = Ok z.
Proof. intros Hl. unfold u64_at. rewrite slice_ok by lia. simpl. eauto. Qed.

Lemma hash_at_ok {E} m start :
  (start + 32 <= length (pm_payload m))%nat -> exists h, hash_at (E := E) m start = Ok h.
Proof.
  intros Hl. unfold hash_at. rewrite slice_ok by lia. simpl.
  destruct (arr_of_is_Some 32 (take (start + 32 - start) (drop start (pm_payload m))))
    as (a & -> & _); [|by exists a].
  rewrite length_take, length_drop. lia.
Qed.

(** A marker as the reducer receives it: its payload has the exact length of its opcode. *)
Definition marker_sized (m : ParsedMarker) : Prop :=
  (7 <= length (pm_payload m))%nat /\
  forall o, pm_opcode m = Some o -> len (pm_payload m) = payload_len o.

Lemma parse_sized script vout c m :
  find_marker_candidate script vout = Some c -> parse c = Ok m -> marker_sized m.
Proof.
  intros (Hh & dlen & pl & mi & Epp & Hd & Ha & Hm & ->)%find_marker_candidate_Some
    (_ & Hd80 & _ & Ht & _ & Hmo & Hlen)%parse_Ok. simpl in *.
  apply bool_decide_eq_true in Ht. unfold marker_sized. destruct Hmo as (_ & -> & _). split.
  - rewrite Ht, Z.min_id, length_take, length_drop. lia.
  - intros o Ho. symmetry. by apply Hlen.
Qed.
