(* ===== verification/Roots.v ===== *)
(** * Event, object and chained roots (crates/tandem-core/src/roots.rs)

    The leaf preimages, the Merkle reduction as the loop the code runs, and the chained block
    root.  The theorems of this file show that the reduction terminates and computes the root of
    a tree defined from the top down; what the roots commit to is in [RootBinding]. *)

From Stdlib Require Import String.
From stdpp Require Import strings.
From S2P Require Import Prelude Types.

(** The widths of the fields that the leaves encode. *)
Record event_wf (e : Event) : Prop := {
  ewf_height : is_u64 (ev_height e);
  ewf_tx_index : is_u32 (tx_index e);
  ewf_event_index : is_u32 (event_index e);
  ewf_sub_index : is_u32 (sub_index e);
  ewf_state_seq : is_u32 (ev_state_seq e);
  ewf_predecessor : is_u32 (op_vout (predecessor e));
  ewf_successor : is_u32 (op_vout (successor e));
}.

Record object_wf (o : ObjectState) : Prop := {
  owf_create_height : is_u64 (create_height o);
  owf_state_seq : is_u32 (state_seq o);
  owf_vout : is_u32 (op_vout (current_outpoint o));
  owf_chapter_count : is_u32 (chapter_count o);
}.

(** ** Leaves *)

Definition event_preimage (e : Event) : list byte :=
  domain "TANDEM/EVENT"
  ++ arr_bytes (ev_namespace e) ++ arr_bytes (ev_block_hash e)
  ++ to_le 8 (ev_height e) ++ to_le 4 (tx_index e) ++ to_le 4 (event_index e)
  ++ to_le 4 (sub_index e)
  ++ [byte_of_Z (event_type_code (event_type e))]
  ++ [byte_of_Z (validity_code (validity_class e))]
  ++ to_le 2 (reason_code (ev_reason e))
  ++ arr_bytes (ev_txid e) ++ arr_bytes (ev_wtxid e) ++ arr_bytes (ev_object_key e)
  ++ to_le 4 (ev_state_seq e)
  ++ wire_bytes (predecessor e) ++ wire_bytes (successor e)
  ++ arr_bytes (ev_key0 e) ++ arr_bytes (ev_key1 e) ++ arr_bytes (commitment e).

(** The outpoint and the terminal txid that a snapshot leaf commits to. *)
Definition leaf_outpoint (o : ObjectState) : OutPointRef :=
  if decide (status o = Active) then current_outpoint o else outpoint_zero.
Definition leaf_terminal (o : ObjectState) : Hash32 :=
  if decide (status o = Active) then hash_zero else terminal_txid o.

Definition object_preimage (o : ObjectState) : list byte :=
  domain "TANDEM/OBJECT-STATE"
  ++ arr_bytes (object_key o)
  ++ [if founding o then x01 else x00]
  ++ [byte_of_Z (status_code (status o))]
  ++ to_le 8 (create_height o) ++ to_le 4 (state_seq o)
  ++ wire_bytes (leaf_outpoint o)
  ++ arr_bytes (key0 (keys o)) ++ arr_bytes (key1 (keys o))
  ++ arr_bytes (leaf_terminal o)
  ++ to_le 4 (chapter_count o).

(** The sort key of [event_root]: [(tx_index, event_index, sub_index)]. *)
Definition event_key (e : Event) : Z * Z * Z := (tx_index e, event_index e, sub_index e).

Definition block_preimage (ns prev_root block_hash : Hash32) (height : Z)
    (ev_root obj_root : Hash32) (c : Counters) : list byte :=
  domain "TANDEM/BLOCKROOT"
  ++ arr_bytes ns ++ arr_bytes prev_root ++ arr_bytes block_hash
  ++ to_le 8 height ++ arr_bytes ev_root ++ arr_bytes obj_root
  ++ to_le 8 (founding_created c) ++ to_le 8 (all_objects c) ++ to_le 8 (active_objects c).

(** One level of the reduction: duplicate an odd last leaf, then hash adjacent pairs. *)
Definition merkle_pad (leaves : list Hash32) : list Hash32 :=
  if Nat.odd (length leaves)
  then match last leaves with Some x => leaves ++ [x] | None => leaves end
  else leaves.

Definition node_preimage (dom : list byte) (l r : Hash32) : list byte :=
  dom ++ arr_bytes l ++ arr_bytes r.

Section Roots.
Context {P : Primitives}.

(** [event_leaf], [object_state_leaf] and [block_root]. *)
Definition event_leaf (e : Event) : Hash32 := sha256 (event_preimage e).

Definition object_state_leaf (o : ObjectState) : Hash32 := sha256 (object_preimage o).

Definition block_root (ns prev_root block_hash : Hash32) (height : Z)
    (ev_root obj_root : Hash32) (c : Counters) : Hash32 :=
  sha256 (block_preimage ns prev_root block_hash height ev_root obj_root c).

(** [chunks_exact(2)] with the node hash. *)
Fixpoint merkle_pairs (dom : list byte) (l : list Hash32) : list Hash32 :=
  match l with
  | a :: b :: l' => sha256 (node_preimage dom a b) :: merkle_pairs dom l'
  | _ => []
  end.

Definition merkle_level (dom : list byte) (l : list Hash32) : list Hash32 :=
  merkle_pairs dom (merkle_pad l).

(** [while leaves.len() > 1]: [None] when the fuel runs out. *)
Fixpoint merkle_loop (fuel : nat) (dom : list byte) (leaves : list Hash32) : option (list Hash32) :=
  if decide (1 < length leaves)%nat then
    match fuel with
    | O => None
    | S fuel' => merkle_loop fuel' dom (merkle_level dom leaves)
    end
  else Some leaves.

(** [merkle], with as much fuel as there are leaves; [leaves[0]] panics on an empty list. *)
Definition merkle {E} (leaves : list Hash32) (dom : list byte) : res E Hash32 :=
  let? l := expect (merkle_loop (length leaves) dom leaves) in index l 0.

(** [event_root]. *)
Definition event_root {E} (ns : Hash32) (events : list Event) : res E Hash32 :=
  match events with
  | [] => Ok (sha256 (domain "TANDEM/EVENT-EMPTY" ++ arr_bytes ns))
  | _ => merkle (event_leaf <$> sort_by_key event_key events) (domain "TANDEM/EVENT-NODE")
  end.

(** [object_state_root]: leaves paired with their keys, sorted by key. *)
Definition object_state_root {E} (ns : Hash32) (objs : list ObjectState) : res E Hash32 :=
  let leaves := (fun o => (object_key o, object_state_leaf o)) <$> objs in
  match leaves with
  | [] => Ok (sha256 (domain "TANDEM/OBJECT-EMPTY" ++ arr_bytes ns))
  | _ => merkle (snd <$> sort_by_key fst leaves) (domain "TANDEM/OBJECT-NODE")
  end.

(** ** The tree, defined from the root down *)

(** The root of a tree of height [d] over [l]: split after [2^d] leaves and, where the right
    half is missing, use the left root twice. *)
Fixpoint tree_root (dom : list byte) (d : nat) (l : list Hash32) : Hash32 :=
  match d with
  | O => default hash_zero (head l)
  | S d' =>
      let left := tree_root dom d' (take (2 ^ d') l) in
      let right := match drop (2 ^ d') l with [] => left | r => tree_root dom d' r end in
      sha256 (node_preimage dom left right)
  end.

(** ** The reduction terminates *)

Lemma merkle_pairs_length dom l : length (merkle_pairs dom l) = (length l / 2)%nat.
Proof.
  induction l as [l IH] using (induction_ltof1 _ (@length _)); unfold ltof in IH.
  destruct l as [|a [|b l]]; [done..|]. simpl length at 1. rewrite IH by (simpl; lia).
  change (length (a :: b :: l)) with (2 + length l)%nat.
  replace (2 + length l)%nat with (length l + 1 * 2)%nat by lia. rewrite Nat.div_add by lia. lia.
Qed.

Lemma merkle_pad_length l : (length (merkle_pad l) = 2 * ((length l + 1) / 2))%nat.
Proof.
  unfold merkle_pad. pose proof (Nat.div_mod_eq (length l) 2) as Hd.
  destruct (Nat.odd (length l)) eqn:E.
  - apply Nat.odd_spec in E as [k Hk]. destruct (last l) as [x|] eqn:El.
    + rewrite length_app. simpl length. rewrite Hk. replace (2 * k + 1 + 1)%nat with ((k + 1) * 2)%nat by lia.
      rewrite Nat.div_mul by lia. lia.
    + apply last_None in El. subst. simpl in Hk. lia.
  - rewrite <- Nat.negb_even in E. apply negb_false_iff, Nat.even_spec in E as [k Hk].
    rewrite Hk. replace (2 * k + 1)%nat with (1 + k * 2)%nat by lia. rewrite Nat.div_add by lia.
    simpl. lia.
Qed.

Lemma merkle_level_length dom l : (length (merkle_level dom l) = (length l + 1) / 2)%nat.
Proof.
  unfold merkle_level. rewrite merkle_pairs_length, merkle_pad_length.
  rewrite Nat.mul_comm. by apply Nat.div_mul.
Qed.

Lemma merkle_level_decreases dom l :
  (1 < length l)%nat -> (1 <= length (merkle_level dom l) < length l)%nat.
Proof.
  intros H. rewrite merkle_level_length. split.
  - apply Nat.div_le_lower_bound; lia.
  - apply Nat.Div0.div_lt_upper_bound; lia.
Qed.

Lemma merkle_loop_total fuel dom l :
  l <> [] -> (length l <= S fuel)%nat -> exists h, merkle_loop fuel dom l = Some [h].
Proof.
  revert l. induction fuel as [|fuel IH]; intros l Hne Hl; simpl.
  - rewrite decide_False by lia. destruct l as [|h [|]]; [done| |simpl in Hl; lia]. by exists h.
  - case_decide as H1.
    + pose proof (merkle_level_decreases dom l H1). apply IH; [|lia].
      intros E. rewrite E in *. simpl in *. lia.
    + destruct l as [|h [|]]; [done| |simpl in H1; lia]. by exists h.
Qed.

Lemma merkle_total {E} l dom : l <> [] -> exists h, merkle (E := E) l dom = Ok h.
Proof.
  intros Hne. destruct (merkle_loop_total (length l) dom l Hne) as [h Hh]; [lia|].
  exists h. unfold merkle. by rewrite Hh.
Qed.

Lemma event_root_total {E} ns evs : exists h, event_root (E := E) ns evs = Ok h.
Proof.
  destruct evs as [|e evs]; [by eexists|]. unfold event_root. apply merkle_total.
  intros Hn. apply (f_equal length) in Hn. rewrite length_fmap, sort_by_key_perm in Hn. done.
Qed.

Lemma object_state_root_total {E} ns objs : exists h, object_state_root (E := E) ns objs = Ok h.
Proof.
  destruct objs as [|o objs]; [by eexists|]. apply merkle_total.
  intros Hn. apply (f_equal length) in Hn. rewrite length_fmap, sort_by_key_perm in Hn. done.
Qed.

(** ** The loop computes the tree *)

Lemma merkle_pairs_take dom k l :
  take k (merkle_pairs dom l) = merkle_pairs dom (take (2 * k) l).
Proof.
  revert l. induction k as [|k IH]; intros l; [done|].
  replace (2 * S k)%nat with (S (S (2 * k))) by lia.
  destruct l as [|a [|b l]]; [done..|]. cbn [merkle_pairs take]. by rewrite IH.
Qed.

Lemma merkle_pairs_drop dom k l :
  drop k (merkle_pairs dom l) = merkle_pairs dom (drop (2 * k) l).
Proof.
  revert l. induction k as [|k IH]; intros l; [done|].
  replace (2 * S k)%nat with (S (S (2 * k))) by lia.
  destruct l as [|a [|b l]]; [by rewrite ?drop_nil..|]. cbn [merkle_pairs drop]. by rewrite IH.
Qed.

Lemma merkle_pad_odd l x : Nat.odd (length l) = true -> last l = Some x -> merkle_pad l = l ++ [x].
Proof. intros H1 H2. unfold merkle_pad. by rewrite H1, H2. Qed.

Lemma merkle_pad_even l : Nat.odd (length l) = false -> merkle_pad l = l.
Proof. intros H. unfold merkle_pad. by rewrite H. Qed.

Lemma odd_sub_even n k : (2 * k <= n)%nat -> Nat.odd (n - 2 * k) = Nat.odd n.
Proof.
  intros H. replace (Nat.odd n) with (Nat.odd ((n - 2 * k) + 2 * k)) by (f_equal; lia).
  rewrite Nat.odd_add_mul_2. done.
Qed.

Lemma last_drop_lt {A} k (l : list A) : (k < length l)%nat -> last (drop k l) = last l.
Proof. intros H. rewrite !last_lookup, lookup_drop, length_drop. f_equal. lia. Qed.

Lemma merkle_level_take dom k l :
  take k (merkle_level dom l) = merkle_level dom (take (2 * k) l).
Proof.
  unfold merkle_level. rewrite merkle_pairs_take.
  destruct (decide (2 * k <= length l)%nat) as [Hk|Hk].
  - rewrite (merkle_pad_even (take _ l)).
    + f_equal. unfold merkle_pad. destruct (Nat.odd _); [|done]. destruct (last l); [|done].
      by rewrite take_app_le.
    + rewrite length_take, Nat.min_l by lia. rewrite Nat.odd_mul. done.
  - rewrite (take_ge l) by lia. apply f_equal, take_ge. rewrite merkle_pad_length.
    apply Nat.mul_le_mono_l. apply Nat.lt_succ_r, Nat.Div0.div_lt_upper_bound; lia.
Qed.

Lemma merkle_level_drop dom k l :
  drop k (merkle_level dom l) = merkle_level dom (drop (2 * k) l).
Proof.
  unfold merkle_level. rewrite merkle_pairs_drop.
  destruct (decide (2 * k < length l)%nat) as [Hk|Hk].
  - f_equal. unfold merkle_pad. rewrite length_drop, odd_sub_even by lia.
    destruct (Nat.odd (length l)); [|done].
    destruct (last l) as [x|] eqn:El; [|apply last_None in El; subst; simpl in Hk; lia].
    assert (last (drop (2 * k) l) = Some x) as ->.
    { by rewrite last_drop_lt. }
    by rewrite drop_app_le by lia.
  - rewrite (drop_ge l) by lia. rewrite drop_ge; [done|]. rewrite merkle_pad_length.
    apply Nat.mul_le_mono_l. apply Nat.lt_succ_r, Nat.Div0.div_lt_upper_bound; lia.
Qed.

Lemma tree_root_level dom d l :
  (1 <= length l)%nat -> tree_root dom (S d) l = tree_root dom d (merkle_level dom l).
Proof.
  revert l. induction d as [|d IH]; intros l Hl.
  - destruct l as [|a [|b l]]; [simpl in Hl; lia|done|].
    cbn [tree_root]. change (2 ^ 0)%nat with 1%nat. unfold merkle_level, merkle_pad.
    destruct (Nat.odd _); [|done]. simpl last. destruct (last (b :: l)); done.
  - cbn [tree_root] in *. rewrite merkle_level_take, merkle_level_drop.
    change (2 * 2 ^ d)%nat with (2 ^ S d)%nat.
    assert (Ht : (1 <= length (take (2 ^ S d) l))%nat).
    { rewrite length_take. pose proof (Nat.pow_nonzero 2 (S d)). lia. }
    rewrite <- (IH _ Ht). do 3 f_equal.
    destruct (drop (2 ^ S d) l) as [|x r] eqn:Ed; [done|].
    rewrite (IH (x :: r)) by (simpl; lia).
    assert (Hm : (1 <= length (merkle_level dom (x :: r)))%nat).
    { rewrite merkle_level_length. apply Nat.div_le_lower_bound; simpl; lia. }
    destruct (merkle_level dom (x :: r)); [simpl in Hm; lia|done].
Qed.

Lemma log2_up_half n : (1 < n)%nat -> Nat.log2_up n = S (Nat.log2_up ((n + 1) / 2)).
Proof.
  intros Hn. destruct (Nat.Even_or_Odd n) as [[k ->]|[k ->]].
  - replace (2 * k + 1)%nat with (1 + k * 2)%nat by lia. rewrite Nat.div_add by lia.
    simpl (1 / 2)%nat. rewrite Nat.log2_up_double by lia. done.
  - replace (2 * k + 1 + 1)%nat with ((k + 1) * 2)%nat by lia. rewrite Nat.div_mul by lia.
    rewrite Nat.log2_up_succ_double, (Nat.log2_up_eqn (k + 1)) by lia.
    replace (pred (k + 1)) with k by lia. done.
Qed.

Lemma merkle_loop_tree fuel dom l :
  l <> [] -> (length l <= S fuel)%nat ->
  merkle_loop fuel dom l = Some [tree_root dom (Nat.log2_up (length l)) l].
Proof.
  revert l. induction fuel as [|fuel IH]; intros l Hne Hl; simpl.
  - rewrite decide_False by lia. destruct l as [|h [|]]; [done|done|simpl in Hl; lia].
  - case_decide as H1.
    + pose proof (merkle_level_decreases dom l H1) as Hm.
      rewrite IH by (lia || by intros E; rewrite E in Hm; simpl in Hm; lia).
      rewrite (log2_up_half (length l)), merkle_level_length, tree_root_level by lia. done.
    + destruct l as [|h [|]]; [done|done|simpl in H1; lia].
Qed.

(** C39: the reduction loop of [merkle] terminates on every nonempty list of leaves within as many
    rounds as there are leaves, never panics, and returns the root of the tree of height
    [ceil(log2 n)] defined from the top down: split after a power of two, and reuse the left
    subtree's root where the right one is missing. *)
Theorem merkle_is_tree {E} (l : list Hash32) dom :
  l <> [] -> merkle (E := E) l dom = Ok (tree_root dom (Nat.log2_up (length l)) l).
Proof. intros Hne. unfold merkle. rewrite merkle_loop_tree by (done || lia). done. Qed.
End Roots.
