(* ===== verification/Reducer.v ===== *)
(** * The block reducer (crates/tandem-core/src/reducer.rs)

    [apply_block] and everything it calls, as the code runs it: validators are [res Reason]
    computations whose guards come in source order, the functions that take [&mut ChainState]
    are [st ChainState ReducerError] computations, and every index, [expect] and [unreachable!]
    is a possible [Panic].  The theorems are in the files that follow. *)

From S2P Require Import Prelude Types Marker Roots.

Inductive ReducerError :=
| ConfiguredInitAbsent
| NonconsecutiveHeight (expected actual : Z)
| ParentMismatch
| DisconnectMismatch
| TransactionIndexOverflow.

Record BlockDelta := mkDelta {
  bd_before : ChainState;
  bd_block_hash : Hash32;
  bd_previous_hash : Hash32;
  bd_height : Z;
  bd_events : list Event;
  bd_roots : HeightRoots;
}.

Record InitParams := mkInitParams {
  ip_h_open : Z;
  ip_h_close : Z;
}.

Inductive ValidatedOperation :=
| VCreate (keys : KeyPair)
| VMark (object : ObjectState) (sequence : Z) (commitment : Hash32)
| VRotate (object : ObjectState) (sequence : Z) (keys : KeyPair)
| VClose (object : ObjectState) (sequence : Z) (commitment : Hash32).

(** ** Field updates *)

Definition set_status (p : ProtocolStatus) (s : ChainState) : ChainState :=
  mkState (binding s) p (tip_height s) (tip_hash s) (chained_root s) (objects s) (active s).

Definition set_maps (objs : gmap Hash32 ObjectState) (act : gmap OutPointRef Hash32)
    (s : ChainState) : ChainState :=
  mkState (binding s) (protocol_status s) (tip_height s) (tip_hash s) (chained_root s) objs act.

Definition set_tip (height : Z) (hash root : Hash32) (s : ChainState) : ChainState :=
  mkState (binding s) (protocol_status s) (Some height) (Some hash) root (objects s) (active s).

(** The three fields [terminate_object] writes. *)
Definition terminated (st : ObjectStatus) (txid : Hash32) (o : ObjectState) : ObjectState :=
  mkObject (object_key o) (genesis o) (founding o) st (create_height o) (state_seq o)
    outpoint_zero (keys o) txid (chapter_count o).

Definition with_state_seq (seq : Z) (o : ObjectState) : ObjectState :=
  mkObject (object_key o) (genesis o) (founding o) (status o) (create_height o) seq
    (current_outpoint o) (keys o) (terminal_txid o) (chapter_count o).

(** ** Shape checks *)

Definition is_op_return (script : list byte) : bool := bool_decide (head script = Some x6a).

Definition has_other_op_return (tx : TxView) (marker_vout : Z) : bool :=
  existsb id
    (imap (fun i o => bool_decide (try_from u32_max (Z.of_nat i) <> Some marker_vout)
                      && is_op_return (script_pubkey o))
       (outputs tx)).

Definition check_tx_header (tx : TxView) : res Reason unit :=
  if decide (tx_version tx = 2 /\ lock_time tx = 0) then Ok tt else Err BadTxVersionOrLocktime.

Definition check_output_shape (tx : TxView) (m : ParsedMarker) (count : nat) : res Reason unit :=
  if decide (length (outputs tx) = count /\ pm_vout m = 0 /\ has_other_op_return tx 0 = false)
  then Ok tt else Err BadOutputCountOrOrder.

Definition check_provenance (tx : TxView) (block_height : Z) : res Reason unit :=
  if decide (Forall (fun i => has_earlier_confirmation i block_height = true) (inputs tx))
  then Ok tt else Err UnconfirmedOrSameBlockPrevout.

Definition check_signatures (tx : TxView) : res Reason unit :=
  if decide (Forall (fun i => signatures_valid i = true) (inputs tx))
  then Ok tt else Err BadSignatureOrSighash.

(** [indexes.iter().any(|index| f(&tx.inputs[*index]))]. *)
Fixpoint any_input (f : InputView -> bool) (tx : TxView) (indexes : list nat) : res Reason bool :=
  match indexes with
  | [] => Ok false
  | i :: rest =>
      let? input := index (inputs tx) i in
      if f input then Ok true else any_input f tx rest
  end.

Definition check_transition_input_scripts (tx : TxView) (carrier_indexes p2wpkh_indexes : list nat) :
  res Reason unit :=
  let? bad_carrier := any_input (fun i => bool_decide (carrier_revealed_keys i = None)) tx carrier_indexes in
  fail_if (bad_carrier = true) with BadInputScript;
  let? bad_p2wpkh := any_input (fun i => bool_decide (p2wpkh_revealed_key i = None)) tx p2wpkh_indexes in
  fail_if (bad_p2wpkh = true) with BadInputScript;
  Ok tt.

(** ** Detection *)

Section Detection.
Context {P : Primitives}.

Definition marker_candidates (tx : TxView) (b : Binding) : list MarkerCandidate :=
  omap id
    (imap (fun i o =>
             vout ← try_from u32_max (Z.of_nat i);
             c ← find_marker_candidate (script_pubkey o) vout;
             if decide (is_init_candidate c = true /\ tx_txid tx <> init_txid b)
             then None else Some c)
       (outputs tx)).

Definition carrier_spends (s : ChainState) (tx : TxView) : list (nat * ObjectState) :=
  omap id
    (imap (fun i input =>
             key ← active s !! prevout input;
             object ← objects s !! key;
             Some (i, object))
       (inputs tx)).

Definition attempted_event_type (c : MarkerCandidate) : EventType :=
  if decide (mc_payload c !! 4%nat = Some VERSION) then
    match opcode_byte c ≫= opcode_from_byte with
    | Some o => event_type_of_opcode o
    | None => EvInvalid
    end
  else EvInvalid.

(** The indices are within the 40 bytes the first test requires. *)
Definition population_namespace (c : MarkerCandidate) : option Hash32 :=
  if decide (payload_complete c = false \/ len (mc_payload c) < 40) then None else
  opcode ← opcode_byte c ≫= opcode_from_byte;
  if decide (mc_payload c !! 4%nat <> Some VERSION \/ opcode = OpInit
             \/ len (mc_payload c) <> payload_len opcode) then None else
  arr_of 32 (take 32 (drop 8 (mc_payload c))).

(** [candidates.iter().map(|c| c.vout).min().unwrap_or(u32::MAX)]. *)
Definition min_vout (cs : list MarkerCandidate) : Z :=
  match cs with
  | [] => u32_max
  | c :: rest => foldl Z.min (mc_vout c) (mc_vout <$> rest)
  end.

Definition first_vout (cs : list MarkerCandidate) : Z :=
  match cs with [] => u32_max | c :: _ => mc_vout c end.
End Detection.

(** ** Validation *)

Section Validation.
Context {P : Primitives}.

Definition validate_marker_header (m : ParsedMarker) (b : Binding) (required_opcode : Opcode) :
  res Reason unit :=
  fail_if (pm_version m <> VERSION) with UnknownVersion;
  fail_if (pm_network m <> network_code (network b)) with WrongNetwork;
  let? opcode := ok_or UnknownOpcode (pm_opcode m) in
  fail_if (opcode <> required_opcode) with UnsupportedOrReservedField;
  if decide (opcode <> OpInit) then
    let? h := hash_at m 8 in
    fail_if (h <> namespace b) with WrongNamespace;
    Ok tt
  else Ok tt.

Definition validate_configured_init (b : Binding) (block_height : Z) (tx : TxView) :
  res Reason InitParams :=
  let candidates := marker_candidates tx b in
  fail_if (length candidates <> 1%nat)
    with (if decide (1 < length candidates)%nat then MultipleMarkers else BadMarkerEncodingOrLength);
  let? c := index candidates 0 in
  let? m := parse c in
  let? _ := validate_marker_header m b OpInit in
  let? h_open := u32_at m 7 in
  let? h_close := u32_at m 11 in
  let? carrier_value := u64_at m 15 in
  fail_if (carrier_value <> CARRIER_VALUE) with UnsupportedOrReservedField;
  let? delay := u32_at m 23 in
  fail_if (delay <> REFUND_DELAY) with UnsupportedOrReservedField;
  let? spec := hash_at m 27 in
  fail_if (spec <> spec_hash b) with UnsupportedOrReservedField;
  fail_if (tx_version tx <> 2 \/ lock_time tx <> 0) with BadTxVersionOrLocktime;
  fail_if (length (inputs tx) <> 1%nat) with BadInputCountOrOrder;
  let? input := index (inputs tx) 0 in
  fail_if (sequence input <> u32_max) with BadInputCountOrOrder;
  fail_if (length (outputs tx) <> 2%nat \/ pm_vout m <> 0 \/ has_other_op_return tx 0 = true)
    with BadOutputCountOrOrder;
  fail_if (has_earlier_confirmation input block_height = false) with UnconfirmedOrSameBlockPrevout;
  fail_if (p2wpkh_revealed_key input = None) with BadInputScript;
  let? key := ok_or BadKeyOrderOrBinding (p2wpkh_key input) in
  fail_if (signatures_valid input = false) with BadSignatureOrSighash;
  let? out0 := index (outputs tx) 0 in
  fail_if (value out0 <> 0) with BadOutputScriptOrValue;
  let? out1 := index (outputs tx) 1 in
  fail_if (script_pubkey out1 <> p2wpkh_script key) with BadOutputScriptOrValue;
  let? _ := ok_or NonpositiveOrInvalidFee
              (filter_positive (checked_sub (prevout_value input) (value out1))) in
  fail_if (value out1 < CHANGE_FLOOR) with BadFeeSplitOrChange;
  let? expected_close := ok_or BadHeightOrPhase (checked_add u32_max h_open FOUNDING_WINDOW) in
  let? init_height := ok_or BadHeightOrPhase (try_from u32_max block_height) in
  let? earliest_open := ok_or BadHeightOrPhase (checked_add u32_max init_height INIT_LEAD) in
  fail_if (expected_close <> h_close \/ h_open < earliest_open) with BadHeightOrPhase;
  Ok (mkInitParams h_open h_close).

(** [validate_create]; the output indices follow the shape check. *)
Definition validate_create (s : ChainState) (block_height : Z) (tx : TxView) (m : ParsedMarker) :
  res Reason ValidatedOperation :=
  let? tag := index (pm_payload m) 7 in
  fail_if (tag <> x01) with UnsupportedOrReservedField;
  let? _ := check_tx_header tx in
  fail_if (length (inputs tx) <> 2%nat
           \/ Exists (fun i => sequence i <> RBF_SEQUENCE) (inputs tx)) with BadInputCountOrOrder;
  let? _ := check_output_shape tx m 4 in
  let? _ := check_provenance tx block_height in
  fail_if (Exists (fun i => p2wpkh_revealed_key i = None) (inputs tx)) with BadInputScript;
  let? in0 := index (inputs tx) 0 in
  let? k0 := ok_or BadKeyOrderOrBinding (p2wpkh_key in0) in
  let? in1 := index (inputs tx) 1 in
  let? k1 := ok_or BadKeyOrderOrBinding (p2wpkh_key in1) in
  let? kp := ok_or BadKeyOrderOrBinding (keypair_checked k0 k1) in
  let? _ := check_signatures tx in
  let? out0 := index (outputs tx) 0 in
  let? out1 := index (outputs tx) 1 in
  let? out2 := index (outputs tx) 2 in
  let? out3 := index (outputs tx) 3 in
  fail_if (value out0 <> 0 \/ value out1 <> CARRIER_VALUE
           \/ script_pubkey out1 <> carrier_script kp
           \/ script_pubkey out2 <> p2wpkh_script k0
           \/ script_pubkey out3 <> p2wpkh_script k1) with BadOutputScriptOrValue;
  let? debit0 := ok_or NonpositiveOrInvalidFee (checked_sub (prevout_value in0) (value out2)) in
  let? debit1 := ok_or NonpositiveOrInvalidFee (checked_sub (prevout_value in1) (value out3)) in
  let? total := ok_or NonpositiveOrInvalidFee (checked_add u64_max debit0 debit1) in
  let? fee := ok_or NonpositiveOrInvalidFee (filter_positive (checked_sub total CARRIER_VALUE)) in
  let ceil_half := fee / 2 + fee mod 2 in
  fail_if (debit0 <> 10000 + ceil_half \/ debit1 <> 10000 + fee / 2
           \/ value out2 < CHANGE_FLOOR \/ value out3 < CHANGE_FLOOR) with BadFeeSplitOrChange;
  match protocol_status s with
  | PActive _ h_open _ =>
      fail_if (block_height < h_open) with BadHeightOrPhase;
      Ok (VCreate kp)
  | _ => Err BadHeightOrPhase
  end.

Definition validate_mark (block_height : Z) (tx : TxView) (m : ParsedMarker)
    (carrier : option (nat * ObjectState)) : res Reason ValidatedOperation :=
  let? tag := index (pm_payload m) 7 in
  fail_if (tag <> x01) with UnsupportedOrReservedField;
  let? kind := index (pm_payload m) 44 in
  fail_if (5 < bval kind) with UnsupportedOrReservedField;
  let? reserved := index (pm_payload m) 45 in
  fail_if (reserved <> x00) with UnsupportedOrReservedField;
  let? _ := check_tx_header tx in
  fail_if (length (inputs tx) <> 2%nat
           \/ Exists (fun i => sequence i <> RBF_SEQUENCE) (inputs tx)
           \/ is_some_and carrier (fun c => c.1 <> 0%nat)) with BadInputCountOrOrder;
  let? _ := check_output_shape tx m 3 in
  let? _ := check_provenance tx block_height in
  let? _ := check_transition_input_scripts tx [0%nat] [1%nat] in
  let? in0 := index (inputs tx) 0 in
  let? ckeys := ok_or BadKeyOrderOrBinding (carrier_keys in0) in
  let? in1 := index (inputs tx) 1 in
  let? sponsor := ok_or BadKeyOrderOrBinding (p2wpkh_key in1) in
  let object := snd <$> carrier in
  fail_if (is_some_and object (fun o => keys o <> ckeys \/ keypair_contains (keys o) sponsor = false)
           \/ (object = None /\ keypair_contains ckeys sponsor = false)) with BadKeyOrderOrBinding;
  let? _ := check_signatures tx in
  let? out0 := index (outputs tx) 0 in
  let? out1 := index (outputs tx) 1 in
  let? out2 := index (outputs tx) 2 in
  fail_if (value out0 <> 0 \/ value out1 <> CARRIER_VALUE
           \/ script_pubkey out2 <> p2wpkh_script sponsor) with BadOutputScriptOrValue;
  let? _ := ok_or NonpositiveOrInvalidFee
              (filter_positive (checked_sub (prevout_value in1) (value out2))) in
  fail_if (value out2 < CHANGE_FLOOR) with BadFeeSplitOrChange;
  let? object := ok_or PredecessorNotActive object in
  fail_if (prevout in0 <> current_outpoint object) with PredecessorNotActive;
  let? seq := u32_at m 40 in
  fail_if (checked_add u32_max (state_seq object) 1 <> Some seq) with BadStateSequence;
  fail_if (script_pubkey out1 <> carrier_script (keys object)) with BadSuccessor;
  let? commit := hash_at m 46 in
  fail_if (is_zero commit = true) with BadCommitment;
  Ok (VMark object seq commit).

Definition validate_rotate (block_height : Z) (tx : TxView) (m : ParsedMarker)
    (carrier : option (nat * ObjectState)) : res Reason ValidatedOperation :=
  let? tag := index (pm_payload m) 7 in
  fail_if (tag <> x01) with UnsupportedOrReservedField;
  let? _ := check_tx_header tx in
  fail_if (length (inputs tx) <> 3%nat
           \/ Exists (fun i => sequence i <> RBF_SEQUENCE) (inputs tx)
           \/ is_some_and carrier (fun c => c.1 <> 0%nat)) with BadInputCountOrOrder;
  let? _ := check_output_shape tx m 4 in
  let? _ := check_provenance tx block_height in
  let? _ := check_transition_input_scripts tx [0%nat] [1%nat; 2%nat] in
  let? in0 := index (inputs tx) 0 in
  let? old_keys := ok_or BadKeyOrderOrBinding (carrier_keys in0) in
  let? in1 := index (inputs tx) 1 in
  let? k0 := ok_or BadKeyOrderOrBinding (p2wpkh_key in1) in
  let? in2 := index (inputs tx) 2 in
  let? k1 := ok_or BadKeyOrderOrBinding (p2wpkh_key in2) in
  let? kp := ok_or BadKeyOrderOrBinding (keypair_checked k0 k1) in
  let object := snd <$> carrier in
  fail_if (is_some_and object (fun o => keys o <> old_keys \/ keys o = kp)
           \/ (object = None /\ old_keys = kp)) with BadKeyOrderOrBinding;
  let? _ := check_signatures tx in
  let? out0 := index (outputs tx) 0 in
  let? out1 := index (outputs tx) 1 in
  let? out2 := index (outputs tx) 2 in
  let? out3 := index (outputs tx) 3 in
  fail_if (value out0 <> 0 \/ value out1 <> CARRIER_VALUE
           \/ script_pubkey out2 <> p2wpkh_script k0
           \/ script_pubkey out3 <> p2wpkh_script k1) with BadOutputScriptOrValue;
  let? debit0 := ok_or NonpositiveOrInvalidFee (checked_sub (prevout_value in1) (value out2)) in
  let? debit1 := ok_or NonpositiveOrInvalidFee (checked_sub (prevout_value in2) (value out3)) in
  let? fee := ok_or NonpositiveOrInvalidFee (filter_positive (checked_add u64_max debit0 debit1)) in
  fail_if (debit0 <> fee / 2 + fee mod 2 \/ debit1 <> fee / 2
           \/ value out2 < CHANGE_FLOOR \/ value out3 < CHANGE_FLOOR) with BadFeeSplitOrChange;
  let? object := ok_or PredecessorNotActive object in
  fail_if (prevout in0 <> current_outpoint object) with PredecessorNotActive;
  let? seq := u32_at m 40 in
  fail_if (checked_add u32_max (state_seq object) 1 <> Some seq) with BadStateSequence;
  fail_if (script_pubkey out1 <> carrier_script kp) with BadSuccessor;
  Ok (VRotate object seq kp).

Definition validate_close (block_height : Z) (tx : TxView) (m : ParsedMarker)
    (carrier : option (nat * ObjectState)) : res Reason ValidatedOperation :=
  let? tag := index (pm_payload m) 7 in
  fail_if (tag <> xff) with UnsupportedOrReservedField;
  let? kind := index (pm_payload m) 44 in
  fail_if (3 < bval kind) with UnsupportedOrReservedField;
  let? reserved := slice 45 48 (pm_payload m) in
  fail_if (reserved <> [x00; x00; x00]) with UnsupportedOrReservedField;
  let? _ := check_tx_header tx in
  fail_if (length (inputs tx) <> 1%nat) with BadInputCountOrOrder;
  let? in0 := index (inputs tx) 0 in
  fail_if (sequence in0 <> RBF_SEQUENCE
           \/ is_some_and carrier (fun c => c.1 <> 0%nat)) with BadInputCountOrOrder;
  let? _ := check_output_shape tx m 3 in
  let? _ := check_provenance tx block_height in
  let? _ := check_transition_input_scripts tx [0%nat] [] in
  let? kp := ok_or BadKeyOrderOrBinding (carrier_keys in0) in
  let object := snd <$> carrier in
  fail_if (is_some_and object (fun o => keys o <> kp)) with BadKeyOrderOrBinding;
  let? _ := check_signatures tx in
  let? out0 := index (outputs tx) 0 in
  let? out1 := index (outputs tx) 1 in
  let? out2 := index (outputs tx) 2 in
  fail_if (value out0 <> 0 \/ script_pubkey out1 <> p2wpkh_script (key0 kp)
           \/ script_pubkey out2 <> p2wpkh_script (key1 kp)) with BadOutputScriptOrValue;
  let? outs := ok_or NonpositiveOrInvalidFee (checked_add u64_max (value out1) (value out2)) in
  let? _ := ok_or NonpositiveOrInvalidFee (filter_positive (checked_sub CARRIER_VALUE outs)) in
  fail_if (value out1 = 0 \/ value out1 <> value out2) with BadFeeSplitOrChange;
  let? object := ok_or PredecessorNotActive object in
  fail_if (prevout in0 <> current_outpoint object) with PredecessorNotActive;
  let? seq := u32_at m 40 in
  fail_if (checked_add u32_max (state_seq object) 1 <> Some seq) with BadStateSequence;
  let? commit := hash_at m 48 in
  Ok (VClose object seq commit).

(** [Option<u64>] is ordered with [None] first, so [checked_add(..) > Some(h)] is false when the
    addition overflows. *)
Definition validate_refund (block_height : Z) (tx : TxView) (object : ObjectState) :
  res Reason unit :=
  fail_if (tx_version tx <> 2 \/ lock_time tx <> 0 \/ length (inputs tx) <> 1%nat
           \/ length (outputs tx) <> 2%nat
           \/ Exists (fun o => is_op_return (script_pubkey o) = true) (outputs tx))
    with BadRefundShapeOrMaturity;
  let? input := index (inputs tx) 0 in
  fail_if (sequence input <> REFUND_DELAY \/ prevout input <> current_outpoint object
           \/ has_earlier_confirmation input block_height = false
           \/ carrier_keys input <> Some (keys object)
           \/ signatures_valid input = false) with BadRefundShapeOrMaturity;
  let? confirmed_height := ok_or BadRefundShapeOrMaturity (prevout_height input) in
  fail_if (is_some_and (checked_add u64_max confirmed_height REFUND_DELAY)
             (fun mature => block_height < mature)) with BadRefundShapeOrMaturity;
  let? out0 := index (outputs tx) 0 in
  let? out1 := index (outputs tx) 1 in
  fail_if (script_pubkey out0 <> p2wpkh_script (key0 (keys object))
           \/ script_pubkey out1 <> p2wpkh_script (key1 (keys object))
           \/ value out0 = 0 \/ value out0 <> value out1) with BadRefundShapeOrMaturity;
  let? output_sum := ok_or BadRefundShapeOrMaturity (checked_add u64_max (value out0) (value out1)) in
  let? _ := ok_or BadRefundShapeOrMaturity (filter_positive (checked_sub CARRIER_VALUE output_sum)) in
  Ok tt.

Definition validate_single (s : ChainState) (block_height : Z) (tx : TxView) (m : ParsedMarker)
    (carrier : option (nat * ObjectState)) : res Reason ValidatedOperation :=
  fail_if (pm_version m <> VERSION) with UnknownVersion;
  fail_if (pm_network m <> network_code (network (binding s))) with WrongNetwork;
  let? opcode := ok_or UnknownOpcode (pm_opcode m) in
  let? _ := (if decide (opcode <> OpInit) then
               let? h := hash_at m 8 in
               fail_if (h <> namespace (binding s)) with WrongNamespace; Ok tt
             else Ok tt) in
  match opcode with
  | OpInit => Err UnsupportedOrReservedField
  | OpCreate => validate_create s block_height tx m
  | OpMark => validate_mark block_height tx m carrier
  | OpRotate => validate_rotate block_height tx m carrier
  | OpClose => validate_close block_height tx m carrier
  end.
End Validation.

(** ** Events *)

Section Events.
Context {P : Primitives}.

Definition valid_event_base (s : ChainState) (block : BlockView) (tx : TxView) (txi evi : Z)
    (ty : EventType) (key : Hash32) (seq : Z) (pred succ : OutPointRef) (kp : KeyPair)
    (commit : Hash32) : Event := {|
  ev_namespace := namespace (binding s);
  ev_block_hash := blk_hash block;
  ev_height := blk_height block;
  tx_index := txi;
  event_index := evi;
  sub_index := 0;
  event_type := ty;
  validity_class := ValidOperation;
  ev_reason := Valid;
  ev_txid := tx_txid tx;
  ev_wtxid := tx_wtxid tx;
  ev_object_key := key;
  ev_state_seq := seq;
  predecessor := pred;
  successor := succ;
  ev_key0 := key0 kp;
  ev_key1 := key1 kp;
  commitment := commit;
|}.

Definition valid_init_event (s : ChainState) (block : BlockView) (tx : TxView) (txi : Z) : Event := {|
  ev_namespace := namespace (binding s);
  ev_block_hash := blk_hash block;
  ev_height := blk_height block;
  tx_index := txi;
  event_index := first_vout (marker_candidates tx (binding s));
  sub_index := 0;
  event_type := EvInit;
  validity_class := ValidOperation;
  ev_reason := Valid;
  ev_txid := tx_txid tx;
  ev_wtxid := tx_wtxid tx;
  ev_object_key := hash_zero;
  ev_state_seq := u32_max;
  predecessor := outpoint_zero;
  successor := outpoint_zero;
  ev_key0 := key_zero;
  ev_key1 := key_zero;
  commitment := spec_hash (binding s);
|}.

Definition valid_refund_event (s : ChainState) (block : BlockView) (tx : TxView) (txi : Z)
    (object : ObjectState) : Event :=
  valid_event_base s block tx txi u32_max EvRefund (object_key object) (state_seq object)
    (current_outpoint object) outpoint_zero (keys object) hash_zero.

Definition bare_invalid_event (block : BlockView) (tx : TxView) (txi evi : Z) (ty : EventType)
    (reason : Reason) (ns : Hash32) : Event := {|
  ev_namespace := ns;
  ev_block_hash := blk_hash block;
  ev_height := blk_height block;
  tx_index := txi;
  event_index := evi;
  sub_index := 0;
  event_type := ty;
  validity_class := InvalidNoState;
  ev_reason := reason;
  ev_txid := tx_txid tx;
  ev_wtxid := tx_wtxid tx;
  ev_object_key := hash_zero;
  ev_state_seq := u32_max;
  predecessor := outpoint_zero;
  successor := outpoint_zero;
  ev_key0 := key_zero;
  ev_key1 := key_zero;
  commitment := hash_zero;
|}.

Definition invalid_event (b : Binding) (block : BlockView) (tx : TxView) (txi : Z)
    (reason : Reason) (configured_init : bool) : Event :=
  let candidates := marker_candidates tx b in
  let evi := match candidates with
             | [] => u32_max
             | [c] => mc_vout c
             | cs => min_vout cs
             end in
  let ty := match candidates with [c] => attempted_event_type c | _ => EvInvalid end in
  let ns := if configured_init then namespace b
            else match candidates with
                 | [c] => default hash_zero (population_namespace c)
                 | _ => hash_zero
                 end in
  bare_invalid_event block tx txi evi ty reason ns.

(** The event of one terminated carrier. *)
Definition exit_event (block : BlockView) (tx : TxView) (txi evi sub : Z) (reason : Reason)
    (ns : Hash32) (object : ObjectState) : Event := {|
  ev_namespace := ns;
  ev_block_hash := blk_hash block;
  ev_height := blk_height block;
  tx_index := txi;
  event_index := evi;
  sub_index := sub;
  event_type := EvExitedNoncanonical;
  validity_class := TerminalNoncanonical;
  ev_reason := reason;
  ev_txid := tx_txid tx;
  ev_wtxid := tx_wtxid tx;
  ev_object_key := object_key object;
  ev_state_seq := state_seq object;
  predecessor := current_outpoint object;
  successor := outpoint_zero;
  ev_key0 := key0 (keys object);
  ev_key1 := key1 (keys object);
  commitment := hash_zero;
|}.
End Events.

(** ** State updates *)

Section Updates.
Context {P : Primitives}.

Definition terminate_object (object : ObjectState) (st : ObjectStatus) (txid : Hash32)
    (s : ChainState) : ChainState :=
  set_maps (alter (terminated st txid) (object_key object) (objects s))
    (delete (current_outpoint object) (active s)) s.

(** The closure of [terminate_carriers] over the enumerated carriers. *)
Fixpoint terminate_loop (block : BlockView) (tx : TxView) (txi evi : Z) (reason : Reason)
    (ns : Hash32) (sub : nat) (carriers : list (nat * ObjectState)) :
  st ChainState ReducerError (list Event) :=
  match carriers with
  | [] => st_ret []
  | (_, object) :: rest =>
      do sub_index <- st_lift (expect (try_from u32_max (Z.of_nat sub)));
      run st_modify (terminate_object object ExitedNoncanonical (tx_txid tx));
      do events <- terminate_loop block tx txi evi reason ns (S sub) rest;
      st_ret (exit_event block tx txi evi sub_index reason ns object :: events)
  end.

Definition terminate_carriers (block : BlockView) (tx : TxView) (txi evi : Z) (reason : Reason)
    (ns : Hash32) (carriers : list (nat * ObjectState)) :
  st ChainState ReducerError (list Event) :=
  terminate_loop block tx txi evi reason ns 0
    (sort_by_key (fun c => object_key c.2) carriers).

(** The successor carrier of a transaction is always its output 1. *)
Definition successor_of (tx : TxView) : OutPointRef := OutPoint (tx_txid tx) 1.

(** The object a CREATE stores. *)
Definition created_object (key : Hash32) (tx : TxView) (height h_open h_close : Z) (kp : KeyPair) :
  ObjectState :=
  mkObject key (successor_of tx) (bool_decide (h_open <= height /\ height < h_close)) Active height 0
    (successor_of tx) kp hash_zero 0.

(** An object advanced to its successor carrier. *)
Definition advanced (o : ObjectState) (succ : OutPointRef) (seq : Z) (kp : KeyPair) (chapters : Z) :
  ObjectState :=
  mkObject (object_key o) (genesis o) (founding o) (status o) (create_height o) seq succ kp
    (terminal_txid o) chapters.

Definition apply_valid_operation (block : BlockView) (tx : TxView) (txi evi : Z)
    (operation : ValidatedOperation) : st ChainState ReducerError Event :=
  match operation with
  | VCreate kp =>
      do s <- st_get;
      let key := derive_object_key (namespace (binding s)) (tx_txid tx) in
      match protocol_status s with
      | PActive _ h_open h_close =>
          let object := created_object key tx (blk_height block) h_open h_close kp in
          run st_modify (fun s => set_maps (<[key := object]> (objects s))
                                    (<[successor_of tx := key]> (active s)) s);
          st_ret (valid_event_base s block tx txi evi EvCreate key 0 outpoint_zero
                    (successor_of tx) kp hash_zero)
      | _ => st_lift Panic
      end
  | VMark object seq commit =>
      do chapters <- st_lift (expect (checked_add u32_max (chapter_count object) 1));
      let object' := advanced object (successor_of tx) seq (keys object) chapters in
      run st_modify (fun s =>
        set_maps (<[object_key object := object']> (objects s))
          (<[successor_of tx := object_key object]> (delete (current_outpoint object) (active s))) s);
      do s <- st_get;
      st_ret (valid_event_base s block tx txi evi EvMark (object_key object) seq
                (current_outpoint object) (successor_of tx) (keys object) commit)
  | VRotate object seq kp =>
      let object' := advanced object (successor_of tx) seq kp (chapter_count object) in
      run st_modify (fun s =>
        set_maps (<[object_key object := object']> (objects s))
          (<[successor_of tx := object_key object]> (delete (current_outpoint object) (active s))) s);
      do s <- st_get;
      st_ret (valid_event_base s block tx txi evi EvRotate (object_key object) seq
                (current_outpoint object) (successor_of tx) kp hash_zero)
  | VClose object seq commit =>
      run st_modify (terminate_object object Closed (tx_txid tx));
      run st_modify (fun s =>
        set_maps (alter (with_state_seq seq) (object_key object) (objects s)) (active s) s);
      do s <- st_get;
      st_ret (valid_event_base s block tx txi evi EvClose (object_key object) seq
                (current_outpoint object) outpoint_zero (keys object) commit)
  end.

(** [process_transaction]. *)
Definition process_transaction (block : BlockView) (tx : TxView) (txi : Z) :
  st ChainState ReducerError (list Event) :=
  do s <- st_get;
  let candidates := marker_candidates tx (binding s) in
  let carriers := carrier_spends s tx in
  if decide (1 < length candidates)%nat then
    let evi := min_vout candidates in
    match carriers with
    | [] => st_ret [bare_invalid_event block tx txi evi EvInvalid MultipleMarkers hash_zero]
    | _ => terminate_carriers block tx txi evi MultipleMarkers hash_zero carriers
    end
  else if decide (1 < length carriers)%nat then
    let ns := match candidates with
              | [] => namespace (binding s)
              | c :: _ => default hash_zero (population_namespace c)
              end in
    terminate_carriers block tx txi (first_vout candidates) MultipleCarriers ns carriers
  else
    match candidates with
    | [] =>
        match carriers with
        | [] => st_ret []
        | (_, object) :: _ =>
            if decide (length (inputs tx) = 1%nat /\ length (outputs tx) = 2%nat) then
              match validate_refund (blk_height block) tx object with
              | Ok _ =>
                  run st_modify (terminate_object object Refunded (tx_txid tx));
                  st_ret [valid_refund_event s block tx txi object]
              | Err _ =>
                  terminate_carriers block tx txi u32_max BadRefundShapeOrMaturity
                    (namespace (binding s)) carriers
              | Panic => st_lift Panic
              end
            else
              terminate_carriers block tx txi u32_max UnmarkedCarrierSpend
                (namespace (binding s)) carriers
        end
    | candidate :: _ =>
        let validation :=
          let? m := parse candidate in
          validate_single s (blk_height block) tx m (head carriers) in
        match validation with
        | Ok operation =>
            do event <- apply_valid_operation block tx txi (mc_vout candidate) operation;
            st_ret [event]
        | Err reason =>
            let ns := default hash_zero (population_namespace candidate) in
            match carriers with
            | [] => st_ret [bare_invalid_event block tx txi (mc_vout candidate)
                              (attempted_event_type candidate) reason ns]
            | _ => terminate_carriers block tx txi (mc_vout candidate) reason ns carriers
            end
        | Panic => st_lift Panic
        end
    end.

(** The two transaction loops of [apply_block]. *)
Fixpoint init_block_loop (block : BlockView) (i : nat) (txs : list TxView) :
  st ChainState ReducerError (list Event) :=
  match txs with
  | [] => st_ret []
  | tx :: rest =>
      do txi <- st_lift (ok_or TransactionIndexOverflow (try_from u32_max (Z.of_nat i)));
      do s <- st_get;
      do events <- (if decide (tx_txid tx = init_txid (binding s))
                    then st_ret [valid_init_event s block tx txi]
                    else process_transaction block tx txi);
      do more <- init_block_loop block (S i) rest;
      st_ret (events ++ more)
  end.

Fixpoint active_block_loop (block : BlockView) (i : nat) (txs : list TxView) :
  st ChainState ReducerError (list Event) :=
  match txs with
  | [] => st_ret []
  | tx :: rest =>
      do txi <- st_lift (ok_or TransactionIndexOverflow (try_from u32_max (Z.of_nat i)));
      do events <- process_transaction block tx txi;
      do more <- active_block_loop block (S i) rest;
      st_ret (events ++ more)
  end.

Definition validate_linkage (s : ChainState) (block : BlockView) : res ReducerError unit :=
  match tip_height s with
  | None => Ok tt
  | Some height =>
      let? expected := ok_or (NonconsecutiveHeight u64_max (blk_height block))
                         (checked_add u64_max height 1) in
      fail_if (blk_height block <> expected)
        with (NonconsecutiveHeight expected (blk_height block));
      fail_if (tip_hash s <> Some (previous_hash block)) with ParentMismatch;
      Ok tt
  end.

(** The [match state.protocol_status] of [apply_block]. *)
Definition block_events (block : BlockView) : st ChainState ReducerError (list Event) :=
  do s <- st_get;
  match protocol_status s with
  | AwaitingInit =>
      match list_find (fun tx => tx_txid tx = init_txid (binding s)) (transactions block) with
      | None => st_lift (Err ConfiguredInitAbsent)
      | Some (i, init_tx) =>
          do init_index <- st_lift (ok_or TransactionIndexOverflow (try_from u32_max (Z.of_nat i)));
          match validate_configured_init (binding s) (blk_height block) init_tx with
          | Ok params =>
              run st_modify (set_status (PActive (blk_height block) (ip_h_open params)
                                           (ip_h_close params)));
              init_block_loop block 0 (transactions block)
          | Err reason =>
              run st_modify (set_status (FailedInit reason (blk_height block)));
              st_ret [invalid_event (binding s) block init_tx init_index reason true]
          | Panic => st_lift Panic
          end
      end
  | PActive _ _ _ => active_block_loop block 0 (transactions block)
  | FailedInit _ _ => st_ret []
  end.

(** [apply_block]. *)
Definition apply_block (block : BlockView) : st ChainState ReducerError BlockDelta :=
  do before <- st_get;
  run st_lift (validate_linkage before block);
  if decide (u32_max < len (transactions block))
  then st_lift (Err TransactionIndexOverflow)
  else
    let ns := namespace (binding before) in
    do events <- block_events block;
    do s <- st_get;
    do event_root_value <- st_lift (event_root ns events);
    do object_root_value <- st_lift (object_state_root ns (bt_values (objects s)));
    let root := block_root ns (chained_root s) (blk_hash block) (blk_height block)
                  event_root_value object_root_value (counters s) in
    run st_modify (set_tip (blk_height block) (blk_hash block) root);
    st_ret {|
      bd_before := before;
      bd_block_hash := blk_hash block;
      bd_previous_hash := previous_hash block;
      bd_height := blk_height block;
      bd_events := events;
      bd_roots := {|
        hr_height := blk_height block;
        hr_block_hash := blk_hash block;
        hr_event_root := event_root_value;
        hr_object_state_root := object_root_value;
        hr_chained_root := root;
        hr_counters := counters s;
      |};
    |}.

(** [disconnect_block]. *)
Definition disconnect_block (delta : BlockDelta) : st ChainState ReducerError unit :=
  do s <- st_get;
  if decide (tip_hash s <> Some (bd_block_hash delta) \/ tip_height s <> Some (bd_height delta))
  then st_lift (Err DisconnectMismatch)
  else st_put (bd_before delta).
End Updates.
