(* ===== verification/Validators.v ===== *)
(** * What the validators accept

    A declarative rule for each operation, and the proof that the validator of [reducer.rs] with
    its sequence of guards accepts exactly the transactions that satisfy the rule; that no
    validator panics on a marker as the parser delivers it; and what the rules imply for the
    money that moves. *)

From S2P Require Import Prelude Types Marker Roots Reducer.

(** ** Lists of known length *)

Lemma list1_inv {A} (l : list A) a : length l = 1%nat -> l !! 0%nat = Some a -> l = [a].
Proof. destruct l as [|? [|]]; naive_solver. Qed.
Lemma list2_inv {A} (l : list A) a b :
  length l = 2%nat -> l !! 0%nat = Some a -> l !! 1%nat = Some b -> l = [a; b].
Proof. destruct l as [|? [|? [|]]]; naive_solver. Qed.
Lemma list3_inv {A} (l : list A) a b c :
  length l = 3%nat -> l !! 0%nat = Some a -> l !! 1%nat = Some b -> l !! 2%nat = Some c ->
  l = [a; b; c].
Proof. destruct l as [|? [|? [|? [|]]]]; naive_solver. Qed.
Lemma list4_inv {A} (l : list A) a b c d :
  length l = 4%nat -> l !! 0%nat = Some a -> l !! 1%nat = Some b -> l !! 2%nat = Some c ->
  l !! 3%nat = Some d -> l = [a; b; c; d].
Proof. destruct l as [|? [|? [|? [|? [|]]]]]; naive_solver. Qed.

(** ** The rules *)

(** Only output 0 may be an [OP_RETURN]. *)
Definition only_marker (tx : TxView) : Prop :=
  Forall (fun o => is_op_return (script_pubkey o) = false) (tail (outputs tx)).

(** An input of a marked transition: replaceable, confirmed in an earlier block, well signed. *)
Definition input_ready (h : Z) (i : InputView) : Prop :=
  sequence i = RBF_SEQUENCE /\ has_earlier_confirmation i h = true /\ signatures_valid i = true.

(** What every marked transition requires. *)
Record transition_shape (h : Z) (tx : TxView) (m : ParsedMarker) : Prop := mkShape {
  ts_version : tx_version tx = 2;
  ts_lock_time : lock_time tx = 0;
  ts_vout : pm_vout m = 0;
  ts_only_marker : only_marker tx;
  ts_inputs : Forall (input_ready h) (inputs tx);
}.

Section Rules.
Context {P : Primitives}.

Definition init_rule (b : Binding) (h : Z) (tx : TxView) (p : InitParams) : Prop :=
  exists c m input out0 out1 key,
    marker_candidates tx b = [c] /\ parse c = Ok m /\
    pm_version m = VERSION /\ pm_network m = network_code (network b) /\
    pm_opcode m = Some OpInit /\ pm_vout m = 0 /\
    u32_at (E := Reason) m 7 = Ok (ip_h_open p) /\ u32_at (E := Reason) m 11 = Ok (ip_h_close p) /\
    u64_at (E := Reason) m 15 = Ok CARRIER_VALUE /\ u32_at (E := Reason) m 23 = Ok REFUND_DELAY /\
    hash_at (E := Reason) m 27 = Ok (spec_hash b) /\
    tx_version tx = 2 /\ lock_time tx = 0 /\ inputs tx = [input] /\ outputs tx = [out0; out1] /\
    only_marker tx /\ sequence input = u32_max /\ has_earlier_confirmation input h = true /\
    p2wpkh_key input = Some key /\ signatures_valid input = true /\
    value out0 = 0 /\ script_pubkey out1 = p2wpkh_script key /\
    CHANGE_FLOOR <= value out1 < prevout_value input /\
    h <= u32_max /\ ip_h_close p = ip_h_open p + FOUNDING_WINDOW /\ ip_h_close p <= u32_max /\
    h + INIT_LEAD <= ip_h_open p.

Definition create_rule (s : ChainState) (h : Z) (tx : TxView) (m : ParsedMarker) (kp : KeyPair) :
  Prop :=
  exists in0 in1 out0 out1 out2 out3 k0 k1 fee i_h h_open h_close,
    transition_shape h tx m /\ pm_payload m !! 7%nat = Some x01 /\
    inputs tx = [in0; in1] /\ outputs tx = [out0; out1; out2; out3] /\
    p2wpkh_key in0 = Some k0 /\ p2wpkh_key in1 = Some k1 /\ keypair_checked k0 k1 = Some kp /\
    value out0 = 0 /\ out1 = mkOutput CARRIER_VALUE (carrier_script kp) /\
    script_pubkey out2 = p2wpkh_script k0 /\ script_pubkey out3 = p2wpkh_script k1 /\
    0 < fee /\ CARRIER_VALUE + fee <= u64_max /\
    prevout_value in0 = value out2 + 10000 + (fee / 2 + fee mod 2) /\
    prevout_value in1 = value out3 + 10000 + fee / 2 /\
    CHANGE_FLOOR <= value out2 /\ CHANGE_FLOOR <= value out3 /\
    protocol_status s = PActive i_h h_open h_close /\ h_open <= h.

Definition mark_rule (h : Z) (tx : TxView) (m : ParsedMarker) (o : ObjectState) (seq : Z)
    (commit : Hash32) : Prop :=
  exists in0 in1 out0 out1 out2 sponsor kind,
    transition_shape h tx m /\ pm_payload m !! 7%nat = Some x01 /\
    pm_payload m !! 44%nat = Some kind /\ bval kind <= 5 /\ pm_payload m !! 45%nat = Some x00 /\
    inputs tx = [in0; in1] /\ outputs tx = [out0; out1; out2] /\
    prevout in0 = current_outpoint o /\ carrier_keys in0 = Some (keys o) /\
    p2wpkh_key in1 = Some sponsor /\ keypair_contains (keys o) sponsor = true /\
    value out0 = 0 /\ out1 = mkOutput CARRIER_VALUE (carrier_script (keys o)) /\
    script_pubkey out2 = p2wpkh_script sponsor /\
    CHANGE_FLOOR <= value out2 < prevout_value in1 /\
    u32_at (E := Reason) m 40 = Ok seq /\ seq = state_seq o + 1 /\ seq <= u32_max /\
    hash_at (E := Reason) m 46 = Ok commit /\ commit <> hash_zero.

Definition rotate_rule (h : Z) (tx : TxView) (m : ParsedMarker) (o : ObjectState) (seq : Z)
    (kp : KeyPair) : Prop :=
  exists in0 in1 in2 out0 out1 out2 out3 k0 k1 fee,
    transition_shape h tx m /\ pm_payload m !! 7%nat = Some x01 /\
    inputs tx = [in0; in1; in2] /\ outputs tx = [out0; out1; out2; out3] /\
    prevout in0 = current_outpoint o /\ carrier_keys in0 = Some (keys o) /\
    p2wpkh_key in1 = Some k0 /\ p2wpkh_key in2 = Some k1 /\ keypair_checked k0 k1 = Some kp /\
    keys o <> kp /\
    value out0 = 0 /\ out1 = mkOutput CARRIER_VALUE (carrier_script kp) /\
    script_pubkey out2 = p2wpkh_script k0 /\ script_pubkey out3 = p2wpkh_script k1 /\
    0 < fee <= u64_max /\
    prevout_value in1 = value out2 + (fee / 2 + fee mod 2) /\
    prevout_value in2 = value out3 + fee / 2 /\
    CHANGE_FLOOR <= value out2 /\ CHANGE_FLOOR <= value out3 /\
    u32_at (E := Reason) m 40 = Ok seq /\ seq = state_seq o + 1 /\ seq <= u32_max.

Definition close_rule (h : Z) (tx : TxView) (m : ParsedMarker) (o : ObjectState) (seq : Z)
    (commit : Hash32) : Prop :=
  exists in0 out0 out1 out2 kind,
    transition_shape h tx m /\ pm_payload m !! 7%nat = Some xff /\
    pm_payload m !! 44%nat = Some kind /\ bval kind <= 3 /\
    slice (E := Reason) 45 48 (pm_payload m) = Ok [x00; x00; x00] /\
    inputs tx = [in0] /\ outputs tx = [out0; out1; out2] /\
    prevout in0 = current_outpoint o /\ carrier_keys in0 = Some (keys o) /\
    value out0 = 0 /\
    script_pubkey out1 = p2wpkh_script (key0 (keys o)) /\
    script_pubkey out2 = p2wpkh_script (key1 (keys o)) /\
    value out1 = value out2 /\ value out1 <> 0 /\ value out1 + value out2 < CARRIER_VALUE /\
    u32_at (E := Reason) m 40 = Ok seq /\ seq = state_seq o + 1 /\ seq <= u32_max /\
    hash_at (E := Reason) m 48 = Ok commit.

(** The refund rule as the code has it: an overflowing maturity height counts as mature. *)
Definition refund_rule (h : Z) (tx : TxView) (o : ObjectState) : Prop :=
  exists input out0 out1 confirmed,
    tx_version tx = 2 /\ lock_time tx = 0 /\ inputs tx = [input] /\ outputs tx = [out0; out1] /\
    Forall (fun o => is_op_return (script_pubkey o) = false) (outputs tx) /\
    sequence input = REFUND_DELAY /\ prevout input = current_outpoint o /\
    carrier_keys input = Some (keys o) /\ signatures_valid input = true /\
    prevout_height input = Some confirmed /\ confirmed < h /\
    (confirmed + REFUND_DELAY <= h \/ u64_max < confirmed + REFUND_DELAY) /\
    script_pubkey out0 = p2wpkh_script (key0 (keys o)) /\
    script_pubkey out1 = p2wpkh_script (key1 (keys o)) /\
    value out0 = value out1 /\ value out0 <> 0 /\ value out0 + value out1 < CARRIER_VALUE.
End Rules.

(** ** Guards and checks *)

Lemma check_tx_header_Ok tx u : check_tx_header tx = Ok u <-> tx_version tx = 2 /\ lock_time tx = 0.
Proof. unfold check_tx_header. destruct u. case_decide; naive_solver. Qed.

Lemma only_marker_tail k (l : list OutputView) :
  existsb id (imap (fun i o => bool_decide (try_from u32_max (Z.of_nat (S k + i)) <> Some 0)
                               && is_op_return (script_pubkey o)) l) = false <->
  Forall (fun o => is_op_return (script_pubkey o) = false) l.
Proof.
  revert k. induction l as [|x l IH]; intros k; [by split; [constructor|]|].
  rewrite imap_cons. cbn [existsb]. rewrite orb_false_iff, Forall_cons, <- (IH (S k)).
  rewrite bool_decide_eq_true_2; [|unfold try_from; case_decide; [intros [= E]; lia|done]].
  unfold id at 1. rewrite andb_true_l. apply and_iff_compat_l.
  erewrite imap_ext; [done|]. intros i y _. unfold compose.
  by replace (S k + S i)%nat with (S (S k) + i)%nat by lia.
Qed.

Lemma only_marker_iff tx : has_other_op_return tx 0 = false <-> only_marker tx.
Proof.
  unfold has_other_op_return, only_marker. destruct (outputs tx) as [|o l]; [done|].
  rewrite imap_cons. cbn [existsb tail].
  rewrite bool_decide_eq_false_2 by (intros Hn; by apply Hn). apply (only_marker_tail 0).
Qed.

Lemma check_output_shape_Ok tx m n u :
  check_output_shape tx m n = Ok u <-> length (outputs tx) = n /\ pm_vout m = 0 /\ only_marker tx.
Proof. unfold check_output_shape. destruct u. rewrite <- only_marker_iff. case_decide; naive_solver. Qed.

Lemma check_provenance_Ok tx h u :
  check_provenance tx h = Ok u <->
  Forall (fun i => has_earlier_confirmation i h = true) (inputs tx).
Proof. unfold check_provenance. destruct u. case_decide; naive_solver. Qed.

Lemma check_signatures_Ok tx u :
  check_signatures tx = Ok u <-> Forall (fun i => signatures_valid i = true) (inputs tx).
Proof. unfold check_signatures. destruct u. case_decide; naive_solver. Qed.

Lemma any_input_false f tx l :
  any_input f tx l = Ok false <-> Forall (fun i => exists inp, inputs tx !! i = Some inp /\ f inp = false) l.
Proof.
  induction l as [|i l IH]; simpl; [by split; [constructor|]|].
  rewrite Forall_cons, <- IH, rbind_Ok. setoid_rewrite index_Ok. split.
  - intros (inp & Hi & Hf). destruct (f inp) eqn:E; [done|]. eauto.
  - intros [(inp & Hi & Hf) Hl]. exists inp. by rewrite Hf.
Qed.

Lemma check_transition_input_scripts_Ok tx cs ps u :
  check_transition_input_scripts tx cs ps = Ok u <->
  Forall (fun i => exists inp, inputs tx !! i = Some inp /\ carrier_revealed_keys inp <> None) cs /\
  Forall (fun i => exists inp, inputs tx !! i = Some inp /\ p2wpkh_revealed_key inp <> None) ps.
Proof.
  destruct u. unfold check_transition_input_scripts.
  assert (Hb : forall (Q : InputView -> Prop) `{forall i, Decision (Q i)} l,
    any_input (fun i => bool_decide (Q i)) tx l = Ok false <->
    Forall (fun i => exists inp, inputs tx !! i = Some inp /\ ¬ Q inp) l).
  { intros Q ? l. rewrite any_input_false. apply Forall_iff. intros i.
    setoid_rewrite bool_decide_eq_false. reflexivity. }
  rewrite <- (Hb (fun i => carrier_revealed_keys i = None) _ cs),
    <- (Hb (fun i => p2wpkh_revealed_key i = None) _ ps), rbind_Ok. setoid_rewrite fail_if_Ok. setoid_rewrite rbind_Ok.
  setoid_rewrite fail_if_Ok. split.
  - intros (b1 & Hb1 & Hf1 & b2 & Hb2 & Hf2 & _). by apply not_true_is_false in Hf1 as ->, Hf2 as ->.
  - intros [H1 H2]. exists false. split_and!; [done..|]. exists false. done.
Qed.

(** Turn the refuted guards of a successful run into facts. *)
Ltac guard_step :=
  match goal with
  | H : ¬ (_ \/ _) |- _ => apply Decidable.not_or in H; destruct H
  | H : ¬ (_ <> _) |- _ => apply dec_stable in H
  | H : ¬ (_ = false) |- _ => apply not_false_is_true in H
  | H : ¬ (_ = true) |- _ => apply not_true_is_false in H
  | H : ¬ Exists _ _ |- _ => apply Forall_Exists_neg in H
  | H : check_tx_header _ = Ok _ |- _ => apply check_tx_header_Ok in H; destruct H
  | H : check_output_shape _ _ _ = Ok _ |- _ => apply check_output_shape_Ok in H; destruct H as (? & ? & ?)
  | H : check_provenance _ _ = Ok _ |- _ => apply check_provenance_Ok in H
  | H : check_signatures _ = Ok _ |- _ => apply check_signatures_Ok in H
  | H : check_transition_input_scripts _ _ _ = Ok _ |- _ =>
      apply check_transition_input_scripts_Ok in H; destruct H
  | H : filter_positive _ = Some _ |- _ => apply filter_positive_Some in H; destruct H
  | H : checked_sub _ _ = Some _ |- _ => apply checked_sub_Some in H; destruct H as [? ?]
  | H : checked_add _ _ _ = Some _ |- _ => apply checked_add_Some in H; destruct H as [? ?]
  | H : length ?l = 1%nat, H0 : ?l !! 0%nat = Some _ |- _ =>
      pose proof (list1_inv _ _ H H0); clear H
  | H : length ?l = 2%nat, H0 : ?l !! 0%nat = Some _, H1 : ?l !! 1%nat = Some _ |- _ =>
      pose proof (list2_inv _ _ _ H H0 H1); clear H
  | H : length ?l = 3%nat, H0 : ?l !! 0%nat = Some _, H1 : ?l !! 1%nat = Some _,
      H2 : ?l !! 2%nat = Some _ |- _ =>
      pose proof (list3_inv _ _ _ _ H H0 H1 H2); clear H
  | H : length ?l = 4%nat, H0 : ?l !! 0%nat = Some _, H1 : ?l !! 1%nat = Some _,
      H2 : ?l !! 2%nat = Some _, H3 : ?l !! 3%nat = Some _ |- _ =>
      pose proof (list4_inv _ _ _ _ _ H H0 H1 H2 H3); clear H
  end.
Ltac guards := repeat (res_step || guard_step).

Lemma input_ready_Forall h l :
  Forall (fun i => ¬ sequence i <> RBF_SEQUENCE) l ->
  Forall (fun i => has_earlier_confirmation i h = true) l ->
  Forall (fun i => signatures_valid i = true) l -> Forall (input_ready h) l.
Proof.
  rewrite !Forall_forall. unfold input_ready. intros H1 H2 H3 i Hi.
  specialize (H1 i Hi). apply dec_stable in H1. auto.
Qed.

(** Replay a run guard by guard from the facts of a rule. *)
Lemma not_or_intro (A B : Prop) : ¬ A -> ¬ B -> ¬ (A \/ B).
Proof. tauto. Qed.

Ltac guard_solve :=
  repeat (apply not_or_intro); cbn [fst snd];
  try match goal with |- ¬ Exists _ _ => apply Forall_Exists_neg end;
  first [ done | lia | congruence | intros Hg; by apply Hg | assumption
        | intros [Hg ?]; done
        | naive_solver ].
Ltac run_solve :=
  first
    [ reflexivity | eassumption
    | apply index_Ok; first [reflexivity | eassumption]
    | apply ok_or_Ok; eassumption
    | apply (check_tx_header_Ok _ tt); auto
    | apply (check_output_shape_Ok _ _ _ tt); by split_and!
    | apply (check_provenance_Ok _ _ tt); assumption
    | apply (check_signatures_Ok _ tt); assumption
    | apply (check_transition_input_scripts_Ok _ _ _ tt); split; assumption ].
Ltac run_step :=
  match goal with
  | |- rbind _ _ = Ok _ => apply rbind_Ok; eexists; split; [solve [run_solve]|]
  | |- (if decide _ then Err _ else _) = Ok _ => apply fail_if_Ok; split; [solve [guard_solve]|]
  | |- Ok _ = Ok _ => reflexivity
  end.

Lemma input_ready_inv h l :
  Forall (input_ready h) l ->
  Forall (fun i => ¬ sequence i <> RBF_SEQUENCE) l /\
  Forall (fun i => has_earlier_confirmation i h = true) l /\
  Forall (fun i => signatures_valid i = true) l.
Proof. rewrite !Forall_forall. unfold input_ready. naive_solver. Qed.

Lemma output_eq o v scr : value o = v -> script_pubkey o = scr -> o = mkOutput v scr.
Proof. destruct o; simpl; congruence. Qed.

(** The fee split: the two halves, the larger first, add up to the fee. *)
Lemma fee_halves fee :
  0 < fee -> 0 <= fee / 2 /\ 0 <= fee mod 2 <= 1 /\ fee = (fee / 2 + fee mod 2) + fee / 2.
Proof.
  intros H. pose proof (Z.div_mod fee 2). pose proof (Z.mod_pos_bound fee 2).
  pose proof (Z.div_pos fee 2). lia.
Qed.

Ltac rule_solve :=
  split_and!;
  first [ by apply mkShape; auto using input_ready_Forall | by apply output_eq | eassumption
        | lia | done | congruence | idtac ].

Section Exact.
Context {P : Primitives}.

Lemma create_rule_sound s h tx m op :
  validate_create s h tx m = Ok op -> exists kp, op = VCreate kp /\ create_rule s h tx m kp.
Proof.
  unfold validate_create. intros H. guards. destruct (protocol_status s) eqn:Es; try done.
  guards. eexists. split; [done|]. do 12 eexists. rule_solve.
Qed.

Lemma create_rule_complete s h tx m kp :
  create_rule s h tx m kp -> validate_create s h tx m = Ok (VCreate kp).
Proof.
  intros (in0 & in1 & out0 & out1 & out2 & out3 & k0 & k1 & fee & ih & ho & hc & [Hv Hl Hvo Hom Hi]
    & Htag & Ein & Eout & Hk0 & Hk1 & Hkp & Hval0 & -> & Hs2 & Hs3 & Hfee & Hmax & Hp0 & Hp1
    & Hc2 & Hc3 & Est & Hh).
  apply input_ready_inv in Hi as (Hseq & Hprov & Hsig). pose proof (fee_halves fee Hfee).
  assert (Hd0 : checked_sub (prevout_value in0) (value out2) = Some (10000 + (fee / 2 + fee mod 2)))
    by (apply checked_sub_Some; lia).
  assert (Hd1 : checked_sub (prevout_value in1) (value out3) = Some (10000 + fee / 2))
    by (apply checked_sub_Some; lia).
  assert (Ht : checked_add u64_max (10000 + (fee / 2 + fee mod 2)) (10000 + fee / 2)
               = Some (CARRIER_VALUE + fee)).
  { apply checked_add_Some. unfold CARRIER_VALUE in *. lia. }
  assert (Hf : filter_positive (checked_sub (CARRIER_VALUE + fee) CARRIER_VALUE) = Some fee).
  { apply filter_positive_Some. split; [apply checked_sub_Some; unfold CARRIER_VALUE; lia|done]. }
  assert (Hlen : length (outputs tx) = 4%nat) by by rewrite Eout.
  assert (Hrev : Forall (fun i => p2wpkh_revealed_key i <> None) (inputs tx)).
  { rewrite Ein. apply p2wpkh_key_Some in Hk0 as [? _], Hk1 as [? _].
    repeat constructor; congruence. }
  unfold validate_create. rewrite Ein in Hrev, Hseq. rewrite Ein, Eout.
  repeat run_step. rewrite Est. repeat run_step.
Qed.

Lemma carrier_keys_revealed i kp : carrier_keys i = Some kp -> carrier_revealed_keys i <> None.
Proof. intros (-> & _)%carrier_keys_Some. done. Qed.

Lemma p2wpkh_key_revealed i k : p2wpkh_key i = Some k -> p2wpkh_revealed_key i <> None.
Proof. intros (-> & _)%p2wpkh_key_Some. done. Qed.

Lemma checked_sub_fee a b : b < a -> filter_positive (checked_sub a b) = Some (a - b).
Proof. intros H. apply filter_positive_Some. split; [apply checked_sub_Some; lia|lia]. Qed.

Lemma next_seq_Some o seq :
  checked_add u32_max (state_seq o) 1 = Some seq <-> seq = state_seq o + 1 /\ seq <= u32_max.
Proof. rewrite checked_add_Some. naive_solver. Qed.

Lemma is_zero_false h : is_zero h = false <-> h <> hash_zero.
Proof. unfold is_zero. by rewrite bool_decide_eq_false. Qed.

Lemma mark_rule_sound h tx m carrier op :
  validate_mark h tx m carrier = Ok op ->
  exists o seq c, carrier = Some (0%nat, o) /\ op = VMark o seq c /\ mark_rule h tx m o seq c.
Proof.
  unfold validate_mark. intros H. guards. destruct carrier as [[i o]|]; [|done].
  simplify_option_eq. guards. subst. do 3 eexists. split; [done|]. split; [done|].
  do 7 eexists. rule_solve. by apply is_zero_false.
Qed.

Lemma mark_rule_complete h tx m o seq c :
  mark_rule h tx m o seq c -> validate_mark h tx m (Some (0%nat, o)) = Ok (VMark o seq c).
Proof.
  intros (in0 & in1 & out0 & out1 & out2 & sponsor & kind & [Hv Hl Hvo Hom Hi] & Htag & Hk44 & Hk5
    & H45 & Ein & Eout & Hprev & Hck & Hsp & Hcont & Hval0 & -> & Hs2 & Hc2 & Hseq & Hnext1 & Hnext2
    & Hcom & Hnz).
  apply input_ready_inv in Hi as (Hrbf & Hprov & Hsig).
  pose proof (checked_sub_fee (prevout_value in1) (value out2) ltac:(lia)) as Hfee.
  assert (Hlen : length (outputs tx) = 3%nat) by by rewrite Eout.
  assert (Hn : checked_add u32_max (state_seq o) 1 = Some seq) by by apply next_seq_Some.
  assert (Hz : is_zero c = false) by by apply is_zero_false.
  assert (Hr0 : Forall (fun i => exists inp, inputs tx !! i = Some inp /\
             carrier_revealed_keys inp <> None) [0%nat]).
  { rewrite Ein. repeat constructor; eauto using carrier_keys_revealed. }
  assert (Hr1 : Forall (fun i => exists inp, inputs tx !! i = Some inp /\
             p2wpkh_revealed_key inp <> None) [1%nat]).
  { rewrite Ein. repeat constructor; eauto using p2wpkh_key_revealed. }
  unfold validate_mark. rewrite Ein in Hrbf. rewrite Ein, Eout. repeat run_step.
Qed.

Lemma rotate_rule_sound h tx m carrier op :
  validate_rotate h tx m carrier = Ok op ->
  exists o seq kp, carrier = Some (0%nat, o) /\ op = VRotate o seq kp /\ rotate_rule h tx m o seq kp.
Proof.
  unfold validate_rotate. intros H. guards. destruct carrier as [[i o]|]; [|done].
  simplify_option_eq. guards. subst. do 3 eexists. split; [done|]. split; [done|].
  do 10 eexists. rule_solve.
Qed.

Lemma rotate_rule_complete h tx m o seq kp :
  rotate_rule h tx m o seq kp -> validate_rotate h tx m (Some (0%nat, o)) = Ok (VRotate o seq kp).
Proof.
  intros (in0 & in1 & in2 & out0 & out1 & out2 & out3 & k0 & k1 & fee & [Hv Hl Hvo Hom Hi] & Htag
    & Ein & Eout & Hprev & Hck & Hk0 & Hk1 & Hkp & Hne & Hval0 & -> & Hs2 & Hs3 & Hfee & Hp0 & Hp1
    & Hc2 & Hc3 & Hseq & Hnext1 & Hnext2).
  apply input_ready_inv in Hi as (Hrbf & Hprov & Hsig). pose proof (fee_halves fee ltac:(lia)).
  assert (Hd0 : checked_sub (prevout_value in1) (value out2) = Some (fee / 2 + fee mod 2))
    by (apply checked_sub_Some; lia).
  assert (Hd1 : checked_sub (prevout_value in2) (value out3) = Some (fee / 2))
    by (apply checked_sub_Some; lia).
  assert (Hf : filter_positive (checked_add u64_max (fee / 2 + fee mod 2) (fee / 2)) = Some fee).
  { apply filter_positive_Some. split; [apply checked_add_Some; lia|lia]. }
  assert (Hlen : length (outputs tx) = 4%nat) by by rewrite Eout.
  assert (Hn : checked_add u32_max (state_seq o) 1 = Some seq) by by apply next_seq_Some.
  assert (Hr0 : Forall (fun i => exists inp, inputs tx !! i = Some inp /\
             carrier_revealed_keys inp <> None) [0%nat]).
  { rewrite Ein. repeat constructor; eauto using carrier_keys_revealed. }
  assert (Hr1 : Forall (fun i => exists inp, inputs tx !! i = Some inp /\
             p2wpkh_revealed_key inp <> None) [1%nat; 2%nat]).
  { rewrite Ein. repeat constructor; eauto using p2wpkh_key_revealed. }
  unfold validate_rotate. rewrite Ein in Hrbf. rewrite Ein, Eout. repeat run_step.
Qed.

Lemma close_rule_sound h tx m carrier op :
  validate_close h tx m carrier = Ok op ->
  exists o seq c, carrier = Some (0%nat, o) /\ op = VClose o seq c /\ close_rule h tx m o seq c.
Proof.
  unfold validate_close. intros H. guards. destruct carrier as [[i o]|]; [|done].
  simplify_option_eq. guards. subst. do 3 eexists. split; [done|]. split; [done|].
  do 5 eexists. rule_solve. match goal with E : inputs tx = [_] |- _ => rename E into Ein end.
  apply mkShape; [done..|]. apply input_ready_Forall; [|done..]. rewrite Ein.
  repeat constructor. intros Hs. by apply Hs.
Qed.

Lemma close_rule_complete h tx m o seq c :
  close_rule h tx m o seq c -> validate_close h tx m (Some (0%nat, o)) = Ok (VClose o seq c).
Proof.
  intros (in0 & out0 & out1 & out2 & kind & [Hv Hl Hvo Hom Hi] & Htag & Hk44 & Hk3 & Hsl
    & Ein & Eout & Hprev & Hck & Hval0 & Hs1 & Hs2 & Heq & Hnz & Hsum & Hseq & Hnext1 & Hnext2 & Hcom).
  apply input_ready_inv in Hi as (Hrbf & Hprov & Hsig).
  assert (Hf : filter_positive (checked_sub CARRIER_VALUE (value out1 + value out2)) =
            Some (CARRIER_VALUE - (value out1 + value out2))) by (apply checked_sub_fee; lia).
  assert (Ha : checked_add u64_max (value out1) (value out2) = Some (value out1 + value out2)).
  { apply checked_add_Some. unfold CARRIER_VALUE, u64_max in *. lia. }
  assert (Hlen : length (outputs tx) = 3%nat) by by rewrite Eout.
  assert (Hn : checked_add u32_max (state_seq o) 1 = Some seq) by by apply next_seq_Some.
  assert (Hr0 : Forall (fun i => exists inp, inputs tx !! i = Some inp /\
             carrier_revealed_keys inp <> None) [0%nat]).
  { rewrite Ein. repeat constructor; eauto using carrier_keys_revealed. }
  assert (Hr1 : Forall (fun i => exists inp, inputs tx !! i = Some inp /\
             p2wpkh_revealed_key inp <> None) []) by constructor.
  rewrite Ein in Hrbf. apply Forall_singleton, dec_stable in Hrbf.
  unfold validate_close. rewrite Ein, Eout. repeat run_step.
Qed.

Lemma not_op_return_Forall (l : list OutputView) :
  Forall (fun o => ¬ is_op_return (script_pubkey o) = true) l <->
  Forall (fun o => is_op_return (script_pubkey o) = false) l.
Proof. apply Forall_iff. intros o. apply not_true_iff_false. Qed.

Lemma refund_rule_sound h tx o u : validate_refund h tx o = Ok u -> refund_rule h tx o.
Proof.
  unfold validate_refund. intros H. guards. do 4 eexists.
  match goal with
  | Hc : has_earlier_confirmation ?i _ = true, Hp : prevout_height ?i = Some _ |- _ =>
      unfold has_earlier_confirmation in Hc; rewrite Hp in Hc
  end.
  match goal with Ho : Forall _ (outputs tx) |- _ => apply not_op_return_Forall in Ho end.
  rule_solve. unfold checked_add in *. case_decide; simpl in *; lia.
Qed.

Lemma refund_rule_complete h tx o : refund_rule h tx o -> validate_refund h tx o = Ok tt.
Proof.
  intros (input & out0 & out1 & c & Hv & Hl & Ein & Eout & Hop & Hseq & Hprev & Hck & Hsig & Hph & Hc
    & Hm & Hs0 & Hs1 & Heq & Hnz & Hsum).
  assert (Hf : filter_positive (checked_sub CARRIER_VALUE (value out0 + value out1)) =
            Some (CARRIER_VALUE - (value out0 + value out1))) by (apply checked_sub_fee; lia).
  assert (Ha : checked_add u64_max (value out0) (value out1) = Some (value out0 + value out1)).
  { apply checked_add_Some. unfold CARRIER_VALUE, u64_max in *. lia. }
  assert (Hconf : has_earlier_confirmation input h = true).
  { unfold has_earlier_confirmation. rewrite Hph. lia. }
  assert (Hmat : ¬ is_some_and (checked_add u64_max c REFUND_DELAY) (fun x => h < x)).
  { unfold checked_add. case_decide; simpl; lia. }
  apply not_op_return_Forall in Hop. rewrite Eout in Hop.
  unfold validate_refund. rewrite Ein, Eout. repeat run_step.
Qed.

Lemma try_from_Some max z y : try_from max z = Some y <-> y = z /\ z <= max.
Proof. unfold try_from. case_decide; naive_solver. Qed.

Lemma init_rule_sound b h tx p : validate_configured_init b h tx = Ok p -> init_rule b h tx p.
Proof.
  unfold validate_configured_init, validate_marker_header. intros H. guards.
  match goal with Ht : try_from _ _ = Some _ |- _ => apply try_from_Some in Ht as [? ?] end.
  match goal with Ho : has_other_op_return _ _ = false |- _ => apply only_marker_iff in Ho end.
  subst. do 6 eexists. cbn [ip_h_open ip_h_close]. unfold INIT_LEAD in *. rule_solve.
Qed.

Lemma init_rule_complete b h tx p : init_rule b h tx p -> validate_configured_init b h tx = Ok p.
Proof.
  intros (c & m & input & out0 & out1 & key & Ec & Hp & Hver & Hnet & Hopc & Hvo & Hopen & Hclose
    & Hcv & Hdelay & Hspec & Hv & Hl & Ein & Eout & Hom & Hseq & Hconf & Hkey & Hsig & Hval0 & Hs1
    & Hfee & Hh & Hc1 & Hc2 & Hlead).
  pose proof (checked_sub_fee (prevout_value input) (value out1) ltac:(lia)) as Hf.
  assert (Hec : checked_add u32_max (ip_h_open p) FOUNDING_WINDOW = Some (ip_h_close p)).
  { apply checked_add_Some. lia. }
  assert (Hih : try_from u32_max h = Some h) by by apply try_from_Some.
  assert (Heo : checked_add u32_max h INIT_LEAD = Some (h + INIT_LEAD)).
  { apply checked_add_Some. unfold FOUNDING_WINDOW, INIT_LEAD in *. lia. }
  assert (Hhdr : validate_marker_header m b OpInit = Ok tt).
  { unfold validate_marker_header. repeat run_step. by rewrite decide_False by (intros Hx; by apply Hx). }
  pose proof (p2wpkh_key_revealed _ _ Hkey) as Hrev. apply only_marker_iff in Hom.
  destruct p as [ho hc]. unfold validate_configured_init. rewrite Ec, Ein, Eout. simpl in *.
  repeat run_step.
Qed.

(** The header every marker needs outside the INIT transaction. *)
Definition header_rule (s : ChainState) (m : ParsedMarker) : Prop :=
  pm_version m = VERSION /\ pm_network m = network_code (network (binding s)) /\
  hash_at (E := Reason) m 8 = Ok (namespace (binding s)).

(** The rule of each validated operation; a transition's object is the carrier spent by input 0. *)
Definition operation_rule (s : ChainState) (h : Z) (tx : TxView) (m : ParsedMarker)
    (carrier : option (nat * ObjectState)) (op : ValidatedOperation) : Prop :=
  header_rule s m /\
  match op with
  | VCreate kp => pm_opcode m = Some OpCreate /\ create_rule s h tx m kp
  | VMark o seq c =>
      pm_opcode m = Some OpMark /\ carrier = Some (0%nat, o) /\ mark_rule h tx m o seq c
  | VRotate o seq kp =>
      pm_opcode m = Some OpRotate /\ carrier = Some (0%nat, o) /\ rotate_rule h tx m o seq kp
  | VClose o seq c =>
      pm_opcode m = Some OpClose /\ carrier = Some (0%nat, o) /\ close_rule h tx m o seq c
  end.

Lemma operation_rule_sound s h tx m carrier op :
  validate_single s h tx m carrier = Ok op -> operation_rule s h tx m carrier op.
Proof.
  unfold validate_single, operation_rule, header_rule. intros H. guards.
  destruct a; [done| | | |]; match goal with Hh : (if decide _ then _ else _) = _ |- _ =>
    rewrite decide_True in Hh by done end; guards; subst.
  - by apply create_rule_sound in H as (kp & -> & ?).
  - by apply mark_rule_sound in H as (o & seq & c & -> & -> & ?).
  - by apply rotate_rule_sound in H as (o & seq & kp & -> & -> & ?).
  - by apply close_rule_sound in H as (o & seq & c & -> & -> & ?).
Qed.

Lemma namespace_guard m ns o :
  o <> OpInit -> hash_at (E := Reason) m 8 = Ok ns ->
  (if decide (o <> OpInit) then
     let? h := hash_at m 8 in fail_if (h <> ns) with WrongNamespace; Ok tt
   else Ok tt) = Ok tt.
Proof. intros Ho Hh. rewrite decide_True by done. repeat run_step. Qed.

Lemma operation_rule_complete s h tx m carrier op :
  operation_rule s h tx m carrier op -> validate_single s h tx m carrier = Ok op.
Proof.
  intros [(Hv & Hn & Hns) Hop]. unfold validate_single.
  destruct op; [destruct Hop as (Ho & Hr)|destruct Hop as (Ho & -> & Hr)..];
    repeat run_step; rewrite namespace_guard by done; simpl rbind;
    auto using create_rule_complete, mark_rule_complete, rotate_rule_complete, close_rule_complete.
Qed.

(** The guard sequence of [validate_single] (CREATE, MARK, ROTATE, CLOSE with the marker
    header) accepts a transaction with a given operation exactly when the declarative rule of
    that operation holds: nothing outside the rules is accepted and nothing inside is refused. *)
Lemma validate_single_exact s h tx m carrier op :
  validate_single s h tx m carrier = Ok op <-> operation_rule s h tx m carrier op.
Proof. split; [apply operation_rule_sound|apply operation_rule_complete]. Qed.

(** [validate_configured_init] accepts exactly the INIT transactions of the rule: one marker,
    the binding's constants and spec hash, a single confirmed P2WPKH input whose change returns
    to its own key, and a founding window of the fixed length that opens after the lead time. *)
Lemma validate_init_exact b h tx p :
  validate_configured_init b h tx = Ok p <-> init_rule b h tx p.
Proof. split; [apply init_rule_sound|apply init_rule_complete]. Qed.

(** [validate_refund] accepts exactly the unmarked two-output spends of the current carrier
    whose input matured, with equal nonzero payouts to the two keys and a positive fee; a
    maturity height beyond 64 bits counts as reached. *)
Lemma validate_refund_exact h tx o : validate_refund h tx o = Ok tt <-> refund_rule h tx o.
Proof. split; [apply refund_rule_sound|apply refund_rule_complete]. Qed.

(** C26: every validator decides exactly its rule: the guard sequences of CREATE, MARK, ROTATE and
    CLOSE with the marker header, of the configured INIT and of the unmarked refund accept a
    transaction, with a given outcome, exactly when the declarative rule holds; nothing outside the
    rules is accepted and nothing inside is refused.  The refund rule counts a maturity height
    beyond 64 bits as reached, as the code does. *)
Theorem validators_exact b s h tx m carrier op p o :
  (validate_single s h tx m carrier = Ok op <-> operation_rule s h tx m carrier op) /\
  (validate_configured_init b h tx = Ok p <-> init_rule b h tx p) /\
  (validate_refund h tx o = Ok tt <-> refund_rule h tx o).
Proof.
  split; [apply validate_single_exact|]. split; [apply validate_init_exact|apply validate_refund_exact].
Qed.
End Exact.

(** ** Money *)

Definition total_in (tx : TxView) : Z := foldr Z.add 0 (prevout_value <$> inputs tx).
Definition total_out (tx : TxView) : Z := foldr Z.add 0 (value <$> outputs tx).

(** The two debits [d0], [d1] share [total] evenly, the first party paying the odd satoshi. *)
Definition even_split (d0 d1 total : Z) : Prop := d0 + d1 = total /\ 0 <= d0 - d1 <= 1.

Section Money.
Context {P : Primitives}.

(** What a transaction of an operation does with money: a CREATE funds the carrier and the fee half
    and half from the two parties; a MARK rolls the carrier over at its full value with the sponsor
    alone paying the fee; a ROTATE rolls it over with the fee split between the new parties; a CLOSE
    pays the carrier less the fee in two equal nonzero parts. *)
Definition fee_of (tx : TxView) : Z := total_in tx - total_out tx.

Definition money_rule (tx : TxView) (op : ValidatedOperation) : Prop :=
  match op with
  | VCreate _ =>
      exists in0 in1 out0 out1 out2 out3,
        inputs tx = [in0; in1] /\ outputs tx = [out0; out1; out2; out3] /\ value out1 = CARRIER_VALUE /\
        even_split (prevout_value in0 - value out2) (prevout_value in1 - value out3) (CARRIER_VALUE + fee_of tx)
  | VMark _ _ _ =>
      exists in0 in1 out0 out1 out2,
        inputs tx = [in0; in1] /\ outputs tx = [out0; out1; out2] /\ value out1 = CARRIER_VALUE /\
        prevout_value in1 - value out2 = fee_of tx
  | VRotate _ _ _ =>
      exists in0 in1 in2 out0 out1 out2 out3,
        inputs tx = [in0; in1; in2] /\ outputs tx = [out0; out1; out2; out3] /\
        value out1 = CARRIER_VALUE /\
        even_split (prevout_value in1 - value out2) (prevout_value in2 - value out3) (fee_of tx)
  | VClose _ _ _ =>
      exists in0 out0 out1 out2,
        inputs tx = [in0] /\ outputs tx = [out0; out1; out2] /\ value out1 = value out2 /\
        value out1 <> 0 /\ value out1 + value out2 + fee_of tx = CARRIER_VALUE
  end.

(** The accepted operations pay so, with a positive fee, over a carrier of the carrier value. *)
Lemma accepted_money s h tx m carrier op :
  validate_single s h tx m carrier = Ok op ->
  (forall o i, carrier = Some (0%nat, o) -> inputs tx !! 0%nat = Some i ->
     prevout_value i = CARRIER_VALUE) ->
  0 < fee_of tx /\ money_rule tx op.
Proof.
  intros [_ Hop]%operation_rule_sound Hcv. unfold money_rule, fee_of, total_in, total_out, even_split.
  destruct op as [kp|o seq c|o seq kp|o seq c].
  - destruct Hop as (_ & in0 & in1 & out0 & out1 & out2 & out3 & ? & ? & fee & ? & ? & ? & _ & _ & Ein & Eout
      & _ & _ & _ & H0 & -> & _ & _ & Hfee & _ & Hp0 & Hp1 & _).
    pose proof (fee_halves fee Hfee). rewrite Ein, Eout. unfold CARRIER_VALUE. simpl.
    split; [lia|]. do 6 eexists. split_and!; [done|done|done|lia..].
  - destruct Hop as (_ & Hc & in0 & in1 & out0 & out1 & out2 & ? & ? & _ & _ & _ & _ & _ & Ein & Eout
      & _ & _ & _ & _ & H0 & -> & _ & Hf & _).
    specialize (Hcv o in0 Hc). rewrite Ein, Eout in *. specialize (Hcv eq_refl). simpl in *.
    split; [lia|]. do 5 eexists. split_and!; [done|done|done|lia].
  - destruct Hop as (_ & Hc & in0 & in1 & in2 & out0 & out1 & out2 & out3 & ? & ? & fee & _ & _ & Ein & Eout
      & _ & _ & _ & _ & _ & _ & H0 & -> & _ & _ & Hfee & Hp0 & Hp1 & _).
    pose proof (fee_halves fee ltac:(lia)).
    specialize (Hcv o in0 Hc). rewrite Ein, Eout in *. specialize (Hcv eq_refl). simpl in *.
    split; [lia|]. do 7 eexists. split_and!; [done|done|done|lia..].
  - destruct Hop as (_ & Hc & in0 & out0 & out1 & out2 & ? & _ & _ & _ & _ & _ & Ein & Eout
      & _ & _ & H0 & _ & _ & Heq & Hnz & Hsum & _).
    specialize (Hcv o in0 Hc). rewrite Ein, Eout in *. specialize (Hcv eq_refl). simpl in *.
    split; [lia|]. do 4 eexists. split_and!; [done|done|done|done|lia].
Qed.
End Money.

(** ** No panic *)

(** Walk a validator and discharge every index from the length tests before it. *)
Ltac np_len := repeat match goal with
  | H : ¬ (_ \/ _) |- _ => apply Decidable.not_or in H; destruct H
  | H : ¬ (_ <> _) |- _ => apply dec_stable in H
  end; lia.
Ltac np_step :=
  match goal with
  | |- returns (Ok _) _ => exact I
  | |- returns (Err _) _ => exact I
  | |- returns (if decide _ then Err _ else _) _ => apply returns_fail_if; intros ?
  | |- returns (rbind (index ?l ?i) _) _ =>
      apply (returns_bind _ _ (fun _ => True));
      [ apply returns_index; [np_len|done] | intros ? _ _ ]
  | |- returns (rbind (slice _ _ _) _) _ =>
      apply (returns_bind _ _ (fun _ => True)); [ apply returns_slice; np_len || done | intros ? _ _ ]
  | |- returns (rbind (ok_or _ _) _) _ =>
      apply (returns_bind _ _ (fun _ => True)); [ by apply returns_ok_or | intros ? _ _ ]
  | |- returns (rbind (u32_at ?m ?i) _) _ =>
      destruct (u32_at_ok (E := Reason) m i) as (? & -> & _); [np_len|cbn [rbind]]
  | |- returns (rbind (u64_at ?m ?i) _) _ =>
      destruct (u64_at_ok (E := Reason) m i) as (? & ->); [np_len|cbn [rbind]]
  | |- returns (rbind (hash_at ?m ?i) _) _ =>
      destruct (hash_at_ok (E := Reason) m i) as (? & ->); [np_len|cbn [rbind]]
  | |- returns (rbind (check_output_shape ?tx ?m ?n) _) _ =>
      apply (returns_bind _ _ (fun _ => length (outputs tx) = n));
      [ unfold check_output_shape; case_decide; naive_solver | intros ? _ ? ]
  | |- returns (rbind (check_transition_input_scripts _ _ _) _) _ =>
      apply (returns_bind _ _ (fun _ => True));
      [ unfold check_transition_input_scripts; cbn [any_input] | intros ? _ _ ]
  | |- returns (rbind (rbind _ _) _) _ => apply (returns_bind _ _ (fun _ => True)); [|intros ? _ _]
  | |- returns (rbind (if ?b then Ok _ else _) _) _ => destruct b; cbn [rbind]
  | |- returns (if ?b then Ok _ else _) _ => destruct b
  | |- returns (rbind (Ok _) _) _ => cbn [rbind]
  | |- returns (rbind _ _) _ =>
      apply (returns_bind _ _ (fun _ => True));
      [ unfold check_tx_header, check_provenance, check_signatures; by case_decide | intros ? _ _ ]
  end.

Section NoPanic.
Context {P : Primitives}.

Lemma validate_create_returns s h tx m :
  (40 <= length (pm_payload m))%nat -> returns (validate_create s h tx m) (fun _ => True).
Proof.
  intros Hm. unfold validate_create. repeat np_step. destruct (protocol_status s); repeat np_step.
Qed.

Lemma validate_mark_returns h tx m c :
  (78 <= length (pm_payload m))%nat -> returns (validate_mark h tx m c) (fun _ => True).
Proof. intros Hm. unfold validate_mark. repeat np_step. Qed.

Lemma validate_rotate_returns h tx m c :
  (44 <= length (pm_payload m))%nat -> returns (validate_rotate h tx m c) (fun _ => True).
Proof. intros Hm. unfold validate_rotate. repeat np_step. Qed.

Lemma validate_close_returns h tx m c :
  (80 <= length (pm_payload m))%nat -> returns (validate_close h tx m c) (fun _ => True).
Proof. intros Hm. unfold validate_close. repeat np_step. Qed.

Lemma validate_refund_returns h tx o : returns (validate_refund h tx o) (fun _ => True).
Proof. unfold validate_refund. repeat np_step. Qed.

Lemma marker_sized_length m o :
  marker_sized m -> pm_opcode m = Some o -> length (pm_payload m) = Z.to_nat (payload_len o).
Proof. intros [_ Hs] Ho. apply Hs in Ho. unfold len in Ho. lia. Qed.

Lemma validate_single_returns s h tx m c :
  marker_sized m -> returns (validate_single s h tx m c) (fun _ => True).
Proof.
  intros Hm. unfold validate_single. do 2 np_step.
  destruct (pm_opcode m) as [o|] eqn:Eo; [cbn [ok_or rbind]|exact I].
  pose proof (marker_sized_length m o Hm Eo) as Hl.
  destruct o; cbn [payload_len] in Hl; [exact I|..]; rewrite decide_True by done;
    repeat np_step; auto using validate_create_returns, validate_mark_returns,
      validate_rotate_returns, validate_close_returns with lia.
Qed.

Lemma marker_candidates_elem tx b c :
  c ∈ marker_candidates tx b -> exists script vout, find_marker_candidate script vout = Some c.
Proof.
  unfold marker_candidates. intros (oc & (i & o & -> & _)%elem_of_lookup_imap & Hc)%list_elem_of_omap.
  unfold id in Hc. simplify_option_eq. eauto.
Qed.

Lemma parse_returns c script vout :
  find_marker_candidate script vout = Some c -> returns (parse c) marker_sized.
Proof.
  intros Hc. destruct (parse c) as [m|r|] eqn:Ep; [by eapply parse_sized|exact I|].
  by destruct (parse_no_panic _ _ _ Hc).
Qed.

Lemma validate_marker_header_init_returns m b :
  returns (validate_marker_header m b OpInit) (fun _ => pm_opcode m = Some OpInit).
Proof.
  unfold validate_marker_header. do 2 (apply returns_fail_if; intros _).
  destruct (pm_opcode m) as [o|]; [cbn [ok_or rbind]|exact I].
  apply returns_fail_if. intros ->%dec_stable. by rewrite decide_False by (intros Hn; by apply Hn).
Qed.

Lemma validate_configured_init_returns b h tx :
  returns (validate_configured_init b h tx) (fun _ => True).
Proof.
  unfold validate_configured_init. apply returns_fail_if. intros Hl%dec_stable.
  destruct (marker_candidates tx b) as [|c [|]] eqn:Ec; [done| |done]. unfold index at 1.
  cbn [lookup list_lookup expect rbind].
  destruct (marker_candidates_elem tx b c) as (scr & vout & Hc); [rewrite Ec; by constructor|].
  eapply returns_bind; [by eapply parse_returns|]. intros m _ Hm.
  eapply returns_bind; [apply validate_marker_header_init_returns|]. intros u _ Ho.
  pose proof (marker_sized_length m _ Hm Ho) as Hlen. cbn [payload_len] in Hlen.
  repeat np_step.
Qed.

(** Validation never panics: for every transaction, the parse of its marker candidate
    followed by [validate_single] either succeeds or gives a reason, [validate_configured_init]
    and [validate_refund] likewise; every index they take is in range. *)
Lemma validators_never_panic b s h tx c o carrier :
  c ∈ marker_candidates tx b ->
  (let? m := parse c in validate_single s h tx m carrier) <> Panic /\
  validate_configured_init b h tx <> Panic /\ validate_refund h tx o <> Panic.
Proof.
  intros (scr & vout & Hc)%marker_candidates_elem. split_and!; eapply returns_no_panic.
  - eapply returns_bind; [by eapply parse_returns|]. intros m _ Hm. by apply validate_single_returns.
  - apply validate_configured_init_returns.
  - apply validate_refund_returns.
Qed.
End NoPanic.

(** ** Reasons *)

(** A refusal always has a reason other than [Valid]. *)
Definition proper {A} (m : res Reason A) : Prop :=
  match m with Err r => r <> Valid | _ => True end.

Lemma proper_bind {A B} (m : res Reason A) (f : A -> res Reason B) :
  proper m -> (forall a, proper (f a)) -> proper (rbind m f).
Proof. destruct m; simpl; auto. Qed.
Lemma proper_fail_if {A} (Q : Prop) `{Decision Q} r (m : res Reason A) :
  r <> Valid -> proper m -> proper (fail_if Q with r; m).
Proof. by case_decide. Qed.
Lemma proper_check (Q : Prop) `{Decision Q} {A} (a : A) r :
  r <> Valid -> proper (if decide Q then Ok a else Err r).
Proof. by case_decide. Qed.
Lemma proper_ok_or {A} (o : option A) r : r <> Valid -> proper (ok_or r o).
Proof. by destruct o. Qed.
Lemma proper_expect {A} (o : option A) : proper (expect (E := Reason) o).
Proof. by destruct o. Qed.
Lemma proper_any f tx l : proper (any_input f tx l).
Proof.
  induction l as [|i l IH]; simpl; [done|]. apply proper_bind; [apply proper_expect|].
  intros a. by destruct (f a).
Qed.

Ltac proper_step :=
  first
    [ apply proper_expect | apply proper_check; done | apply proper_ok_or; done | apply proper_any
    | apply proper_bind; [|intros ?] | apply proper_fail_if; [done|] | exact I
    | match goal with |- proper (if ?b then _ else _) => destruct b end
    | match goal with |- proper (match ?b with _ => _ end) => destruct b end
    | discriminate ].

Lemma parse_proper c : proper (parse c).
Proof. destruct (parse c) eqn:E; simpl; [done| |done]. by rewrite (parse_Err _ _ E). Qed.

Lemma validate_single_proper {P : Primitives} s h tx m c : proper (validate_single s h tx m c).
Proof.
  unfold validate_single, validate_create, validate_mark, validate_rotate, validate_close,
    check_tx_header, check_output_shape, check_provenance, check_signatures,
    check_transition_input_scripts, hash_at, u32_at, slice.
  repeat proper_step.
Qed.

Lemma validate_configured_init_proper {P : Primitives} b h tx : proper (validate_configured_init b h tx).
Proof.
  unfold validate_configured_init, validate_marker_header, hash_at, u32_at, u64_at, slice.
  apply proper_fail_if; [by case_decide|].
  apply proper_bind; [apply proper_expect|intros c]. apply proper_bind; [apply parse_proper|intros m].
  repeat proper_step.
Qed.

(** ** Candidate positions *)

Lemma marker_candidates_vout {P : Primitives} tx b c : c ∈ marker_candidates tx b -> is_u32 (mc_vout c).
Proof.
  unfold marker_candidates. intros (oc & (i & o & -> & _)%elem_of_lookup_imap & Hc)%list_elem_of_omap.
  unfold id, try_from in Hc. simplify_option_eq.
  match goal with H : find_marker_candidate _ _ = Some _ |- _ =>
    apply find_marker_candidate_Some in H as (_ & ? & ? & ? & _ & _ & _ & _ & ->) end.
  unfold is_u32. simpl. lia.
Qed.

Lemma min_vout_u32 cs : Forall (fun c => is_u32 (mc_vout c)) cs -> is_u32 (min_vout cs).
Proof.
  destruct cs as [|c cs]; [unfold is_u32, min_vout, u32_max; lia|]. simpl.
  intros [Hc Hcs]%Forall_cons. revert Hc. generalize (mc_vout c).
  induction Hcs as [|c' cs Hc' _ IH]; intros z Hz; simpl; [done|]. apply IH.
  unfold is_u32 in *. lia.
Qed.

Lemma first_vout_u32 cs : Forall (fun c => is_u32 (mc_vout c)) cs -> is_u32 (first_vout cs).
Proof. destruct 1; simpl; [unfold is_u32, u32_max; lia|done]. Qed.
