(* ===== verification/Steps.v ===== *)
(** * Transactions as steps of a relation

    [tx_step] says what a transaction may do to the state, one constructor per outcome, with the
    declarative rules of [Validators] as premises.  [process_transaction_step] shows that the
    code takes exactly such a step on every transaction: it returns (no panic, no error) and the
    state and events it returns are related to the state before.  The invariants of the later
    files are proved on the relation. *)

From S2P Require Import Prelude Types Marker Roots Reducer Validators.

Section Steps.
Context {P : Primitives}.

(** The carriers a transaction spends, in the order their exits are recorded. *)
Definition sorted_carriers (s : ChainState) (tx : TxView) : list (nat * ObjectState) :=
  sort_by_key (fun c => object_key c.2) (carrier_spends s tx).

Definition exit_all (txid : Hash32) (carriers : list (nat * ObjectState)) (s : ChainState) :
  ChainState :=
  foldl (fun s c => terminate_object c.2 ExitedNoncanonical txid s) s carriers.

Definition exit_events (block : BlockView) (tx : TxView) (txi evi : Z) (reason : Reason)
    (ns : Hash32) (sub : nat) (carriers : list (nat * ObjectState)) : list Event :=
  imap (fun i c => exit_event block tx txi evi (Z.of_nat (sub + i)) reason ns c.2) carriers.

(** The state after a validated operation. *)
Definition op_state (block : BlockView) (tx : TxView) (op : ValidatedOperation) (s : ChainState) :
  ChainState :=
  match op with
  | VCreate kp =>
      let key := derive_object_key (namespace (binding s)) (tx_txid tx) in
      match protocol_status s with
      | PActive _ h_open h_close =>
          set_maps (<[key := created_object key tx (blk_height block) h_open h_close kp]> (objects s))
            (<[successor_of tx := key]> (active s)) s
      | _ => s
      end
  | VMark o seq _ =>
      set_maps
        (<[object_key o := advanced o (successor_of tx) seq (keys o) (chapter_count o + 1)]> (objects s))
        (<[successor_of tx := object_key o]> (delete (current_outpoint o) (active s))) s
  | VRotate o seq kp =>
      set_maps (<[object_key o := advanced o (successor_of tx) seq kp (chapter_count o)]> (objects s))
        (<[successor_of tx := object_key o]> (delete (current_outpoint o) (active s))) s
  | VClose o seq _ =>
      set_maps (alter (with_state_seq seq ∘ terminated Closed (tx_txid tx)) (object_key o) (objects s))
        (delete (current_outpoint o) (active s)) s
  end.

Definition op_event (s : ChainState) (block : BlockView) (tx : TxView) (txi evi : Z)
    (op : ValidatedOperation) : Event :=
  match op with
  | VCreate kp =>
      valid_event_base s block tx txi evi EvCreate
        (derive_object_key (namespace (binding s)) (tx_txid tx)) 0 outpoint_zero
        (successor_of tx) kp hash_zero
  | VMark o seq c =>
      valid_event_base s block tx txi evi EvMark (object_key o) seq (current_outpoint o)
        (successor_of tx) (keys o) c
  | VRotate o seq kp =>
      valid_event_base s block tx txi evi EvRotate (object_key o) seq (current_outpoint o)
        (successor_of tx) kp hash_zero
  | VClose o seq c =>
      valid_event_base s block tx txi evi EvClose (object_key o) seq (current_outpoint o)
        outpoint_zero (keys o) c
  end.

Inductive tx_step (block : BlockView) (tx : TxView) (txi : Z) (s : ChainState) :
  ChainState -> list Event -> Prop :=
| step_silent :
    carrier_spends s tx = [] -> marker_candidates tx (binding s) = [] ->
    tx_step block tx txi s s []
| step_rejected evi ty reason ns :
    carrier_spends s tx = [] -> marker_candidates tx (binding s) <> [] ->
    is_u32 evi -> reason <> Valid ->
    tx_step block tx txi s s [bare_invalid_event block tx txi evi ty reason ns]
| step_exited evi reason ns :
    carrier_spends s tx <> [] -> is_u32 evi -> reason <> Valid ->
    tx_step block tx txi s (exit_all (tx_txid tx) (sorted_carriers s tx) s)
      (exit_events block tx txi evi reason ns 0 (sorted_carriers s tx))
| step_refunded i o :
    carrier_spends s tx = [(i, o)] -> marker_candidates tx (binding s) = [] ->
    refund_rule (blk_height block) tx o ->
    tx_step block tx txi s (terminate_object o Refunded (tx_txid tx) s)
      [valid_refund_event s block tx txi o]
| step_applied c m op :
    marker_candidates tx (binding s) = [c] -> parse c = Ok m ->
    (length (carrier_spends s tx) <= 1)%nat ->
    operation_rule s (blk_height block) tx m (head (carrier_spends s tx)) op ->
    tx_step block tx txi s (op_state block tx op s) [op_event s block tx txi (mc_vout c) op].

(** ** Running the state updates *)

Lemma terminate_loop_run block tx txi evi r ns sub carriers s :
  Z.of_nat (sub + length carriers) <= u32_max + 1 ->
  terminate_loop block tx txi evi r ns sub carriers s =
  (exit_all (tx_txid tx) carriers s, Ok (exit_events block tx txi evi r ns sub carriers)).
Proof.
  revert sub s. induction carriers as [|[i o] carriers IH]; intros sub s Hl; [done|].
  cbn [terminate_loop length] in *. unfold st_bind at 1, st_lift.
  assert (try_from u32_max (Z.of_nat sub) = Some (Z.of_nat sub)) as ->.
  { apply try_from_Some. lia. }
  cbn [expect].
  unfold st_bind at 1, st_modify. unfold st_bind at 1. rewrite IH by lia. unfold st_ret. f_equal. f_equal.
  unfold exit_events. rewrite imap_cons. f_equal.
  - f_equal. lia.
  - apply imap_ext. intros j c _. simpl. f_equal. lia.
Qed.

Lemma omap_length_le {A B} (f : A -> option B) (l : list A) : (length (omap f l) <= length l)%nat.
Proof. induction l as [|x l IH]; csimpl; [done|]. destruct (f x); csimpl; lia. Qed.

Lemma carrier_spends_length s tx : (length (carrier_spends s tx) <= length (inputs tx))%nat.
Proof. unfold carrier_spends. rewrite omap_length_le. by rewrite length_imap. Qed.

Lemma terminate_carriers_run block tx txi evi r ns s :
  len (inputs tx) <= u32_max + 1 ->
  terminate_carriers block tx txi evi r ns (carrier_spends s tx) s =
  (exit_all (tx_txid tx) (sorted_carriers s tx) s,
   Ok (exit_events block tx txi evi r ns 0 (sorted_carriers s tx))).
Proof.
  intros Hl. apply terminate_loop_run. unfold sorted_carriers. rewrite sort_by_key_perm.
  pose proof (carrier_spends_length s tx). unfold len in Hl. lia.
Qed.

Lemma elem_of_carrier_spends s tx i o :
  (i, o) ∈ carrier_spends s tx <->
  exists inp k, inputs tx !! i = Some inp /\ active s !! prevout inp = Some k /\ objects s !! k = Some o.
Proof.
  unfold carrier_spends. rewrite list_elem_of_omap. setoid_rewrite elem_of_lookup_imap. split.
  - intros (oc & (j & inp & -> & Hi) & Hc). unfold id in Hc. simplify_option_eq. eauto.
  - intros (inp & k & Hi & Ha & Ho). eexists. split; [by exists i, inp|].
    unfold id. rewrite Ha. simpl. by rewrite Ho.
Qed.

Lemma apply_valid_operation_run block tx txi evi op s m h carrier :
  operation_rule s h tx m carrier op ->
  (forall o i, carrier = Some (i, o) -> chapter_count o <= state_seq o) ->
  apply_valid_operation block tx txi evi op s =
  (op_state block tx op s, Ok (op_event s block tx txi evi op)).
Proof.
  intros [_ Hop] Hc. destruct op as [kp|o seq c|o seq kp|o seq c].
  - destruct Hop as (_ & (? & ? & ? & ? & ? & ? & ? & ? & ? & ? & ? & ? & Hr)).
    destruct Hr as (_ & _ & _ & _ & _ & _ & _ & _ & _ & _ & _ & _ & _ & _ & _ & _ & _ & Es & _).
    unfold apply_valid_operation, op_state, st_bind, st_get. by rewrite Es.
  - destruct Hop as (_ & Ec & (? & ? & ? & ? & ? & ? & ? & Hr)).
    destruct Hr as (_ & _ & _ & _ & _ & _ & _ & _ & _ & _ & _ & _ & _ & _ & _ & _ & Hs & Hm & _).
    specialize (Hc o 0%nat Ec). unfold apply_valid_operation, st_bind at 1, st_lift.
    assert (checked_add u32_max (chapter_count o) 1 = Some (chapter_count o + 1)) as ->.
    { apply checked_add_Some. lia. }
    done.
  - done.
  - unfold apply_valid_operation, st_bind, st_modify, st_get, terminate_object, op_state, set_maps.
    simpl. by rewrite alter_alter_eq.
Qed.

(** Every object's chapters are bounded by its sequence, so the chapter counter cannot overflow
    before the sequence does. *)
Definition chapters_bounded (s : ChainState) : Prop :=
  forall k o, objects s !! k = Some o -> chapter_count o <= state_seq o.

Lemma carrier_spends_object s tx i o :
  (i, o) ∈ carrier_spends s tx -> exists k, objects s !! k = Some o.
Proof. intros (inp & k & _ & _ & Ho)%elem_of_carrier_spends. eauto. Qed.

Lemma head_elem {A} (l : list A) x : head l = Some x -> x ∈ l.
Proof. destruct l; [done|]. intros [= ->]. constructor. Qed.

Lemma process_transaction_step block tx txi s :
  len (inputs tx) <= u32_max + 1 -> chapters_bounded s ->
  exists s' evs, process_transaction block tx txi s = (s', Ok evs) /\ tx_step block tx txi s s' evs.
Proof.
  intros Hin Hch. unfold process_transaction, st_bind at 1, st_get.
  assert (Hexit : forall evi r ns, carrier_spends s tx <> [] -> is_u32 evi -> r <> Valid ->
    exists s' evs, terminate_carriers block tx txi evi r ns (carrier_spends s tx) s = (s', Ok evs) /\
                   tx_step block tx txi s s' evs).
  { intros evi r ns Hne Hevi Hr. do 2 eexists. split; [by apply terminate_carriers_run|by constructor]. }
  assert (Hvout : Forall (fun c => is_u32 (mc_vout c)) (marker_candidates tx (binding s))).
  { apply Forall_forall. intros c. apply marker_candidates_vout. }
  assert (Hmax : is_u32 u32_max) by (unfold is_u32, u32_max; lia).
  case_decide as H1.
  { pose proof (min_vout_u32 _ Hvout).
    destruct (carrier_spends s tx) eqn:Ec; [|rewrite <- Ec in *; apply Hexit; [by rewrite Ec|done..]].
    do 2 eexists. split; [done|]. constructor; [done| |done..].
    by intros E; rewrite E in H1; simpl in H1; lia. }
  case_decide as H2.
  { apply Hexit; [|by apply first_vout_u32|done]. intros E. rewrite E in H2. simpl in H2. lia. }
  destruct (marker_candidates tx (binding s)) as [|c [|]] eqn:Em; [| |simpl in H1; lia].
  - destruct (carrier_spends s tx) as [|[i o] [|]] eqn:Ec; [| |simpl in H2; lia].
    { do 2 eexists. split; [done|]. by constructor. }
    rewrite <- Ec in *. case_decide; [|apply Hexit; [by rewrite Ec|done..]].
    pose proof (validate_refund_returns (blk_height block) tx o) as Hr.
    destruct (validate_refund _ tx o) as [u|r|] eqn:Er; [|apply Hexit; [by rewrite Ec|done..]|done].
    do 2 eexists. split; [done|]. eapply step_refunded; [done..|]. by eapply refund_rule_sound.
  - apply Forall_cons in Hvout as [Hvout _].
    destruct (marker_candidates_elem tx (binding s) c) as (scr & vout & Hc).
    { rewrite Em. constructor. }
    assert (Hv : returns (let? m := parse c in
        validate_single s (blk_height block) tx m (head (carrier_spends s tx))) (fun _ => True)).
    { eapply returns_bind; [by eapply parse_returns|]. intros m _ Hm. by apply validate_single_returns. }
    assert (Hpr : proper (let? m := parse c in
        validate_single s (blk_height block) tx m (head (carrier_spends s tx)))).
    { apply proper_bind; [apply parse_proper|]. intros m. apply validate_single_proper. }
    destruct (rbind (parse c) _) as [op|r|] eqn:Ev; [|clear Hv|done].
    + apply rbind_Ok in Ev as (m & Hp & Hs%operation_rule_sound).
      unfold st_bind. erewrite apply_valid_operation_run; [|done|].
      * do 2 eexists. split; [done|]. eapply step_applied; [done..|lia|done].
      * intros o i Hh%head_elem. apply carrier_spends_object in Hh as [k Hk]. eauto.
    + simpl in Hpr. destruct (carrier_spends s tx) eqn:Ec; [|rewrite <- Ec in *; apply Hexit; [by rewrite Ec|done..]].
      do 2 eexists. split; [done|]. constructor; [done|by rewrite Em|done..].
Qed.
End Steps.
