(* ===== verification/Invariant.v ===== *)
(** * The reducer's invariant and the coins behind it

    The two maps of [ChainState] describe the same set of live carriers, every object is well
    formed, and, against a ledger of the transaction outputs the chain has created and not yet
    spent, every live carrier is an unspent output of exactly the carrier value that pays to the
    object's keys.  The ledger is not part of the program: it is what the resolved views of the
    blocks are supposed to describe, and [tx_ok] says that they do. *)

From S2P Require Import Prelude Types Marker Roots Reducer Validators Steps.

(** ** The ledger *)

Record Ledger := mkLedger {
  seen : gset Hash32;
  coins : gmap OutPointRef OutputView;
}.

Definition empty_ledger : Ledger := mkLedger ∅ ∅.

Definition created_coins (tx : TxView) : gmap OutPointRef OutputView :=
  list_to_map (imap (fun i o => (OutPoint (tx_txid tx) (Z.of_nat i), o)) (outputs tx)).

Definition spend_coins (tx : TxView) (m : gmap OutPointRef OutputView) :
  gmap OutPointRef OutputView :=
  foldr (fun i m => delete (prevout i) m) m (inputs tx).

Definition ledger_tx (tx : TxView) (g : Ledger) : Ledger :=
  mkLedger ({[tx_txid tx]} ∪ seen g) (created_coins tx ∪ spend_coins tx (coins g)).

Definition ledger_wf (g : Ledger) : Prop :=
  forall op out, coins g !! op = Some out -> op_txid op ∈ seen g.

Section Invariant.
Context {P : Primitives}.

(** What Bitcoin consensus and a faithful resolution of inputs promise of the next transaction:
    its txid is new, the previous output of an input is the coin it spends, and the object key
    derived from its txid does not collide with one derived from an earlier txid. *)
Record tx_ok (ns : Hash32) (g : Ledger) (tx : TxView) : Prop := {
  tok_fresh : tx_txid tx ∉ seen g;
  tok_resolved : forall i out, i ∈ inputs tx -> coins g !! prevout i = Some out ->
    prevout_script i = script_pubkey out /\ prevout_value i = value out;
  tok_keys : forall t, t ∈ seen g ->
    derive_object_key ns t <> derive_object_key ns (tx_txid tx);
  tok_inputs : len (inputs tx) <= u32_max + 1;
}.

(** ** Invariants *)

Record object_ok (ps : ProtocolStatus) (ns : Hash32) (o : ObjectState) : Prop := {
  oo_chapters : 0 <= chapter_count o <= state_seq o;
  oo_seq : state_seq o <= u32_max;
  oo_keys : keypair_checked (key0 (keys o)) (key1 (keys o)) = Some (keys o);
  oo_genesis : object_key o = derive_object_key ns (op_txid (genesis o)) /\ op_vout (genesis o) = 1;
  oo_active : status o = Active -> terminal_txid o = hash_zero /\ op_vout (current_outpoint o) = 1;
  oo_terminal : status o <> Active -> current_outpoint o = outpoint_zero;
  oo_phase : exists ih h_open h_close, ps = PActive ih h_open h_close /\ h_open <= create_height o /\
    founding o = bool_decide (h_open <= create_height o /\ create_height o < h_close);
}.

(** The object map and the carrier index. *)
Record index_ok (txids : gset Hash32) (s : ChainState) : Prop := {
  ix_object : forall k o, objects s !! k = Some o ->
    object_key o = k /\ object_ok (protocol_status s) (namespace (binding s)) o /\
    op_txid (genesis o) ∈ txids;
  ix_active : forall op k, active s !! op = Some k <->
    exists o, objects s !! k = Some o /\ status o = Active /\ current_outpoint o = op;
}.

(** Every live carrier is an unspent coin worth the carrier value and locked to the object's keys. *)
Definition backed (m : gmap OutPointRef OutputView) (s : ChainState) : Prop :=
  forall op k o, active s !! op = Some k -> objects s !! k = Some o ->
    m !! op = Some (mkOutput CARRIER_VALUE (carrier_script (keys o))).

Record state_inv (g : Ledger) (s : ChainState) : Prop := {
  si_ledger : ledger_wf g;
  si_index : index_ok (seen g) s;
  si_backed : backed (coins g) s;
}.

Lemma index_chapters txids s : index_ok txids s -> chapters_bounded s.
Proof. intros [Ho _] k o Hk. apply Ho in Hk as (_ & [Hc _ _ _ _ _ _] & _). lia. Qed.

Lemma index_active_object txids s op k :
  index_ok txids s -> active s !! op = Some k ->
  exists o, objects s !! k = Some o /\ object_key o = k /\ status o = Active /\ current_outpoint o = op.
Proof.
  intros [Ho Ha] (o & Hk & Hs & Hc)%Ha. exists o. split_and!; [done| |done..]. by apply Ho in Hk as [? _].
Qed.

(** ** Ledger lemmas *)

Lemma created_coins_txid tx op out : created_coins tx !! op = Some out -> op_txid op = tx_txid tx.
Proof.
  intros (i & o & [= -> ->] & _)%elem_of_list_to_map_2%elem_of_lookup_imap. done.
Qed.

Lemma created_coins_NoDup (txid : Hash32) (l : list OutputView) :
  NoDup (imap (fun i o => (OutPoint txid (Z.of_nat i), o)) l).*1.
Proof.
  rewrite fmap_imap. apply NoDup_alt. intros i j op Hi Hj.
  rewrite list_lookup_imap in Hi, Hj.
  destruct (l !! i), (l !! j); simplify_eq/=. by simplify_eq.
Qed.

Lemma created_coins_lookup tx (i : nat) out :
  outputs tx !! i = Some out -> created_coins tx !! OutPoint (tx_txid tx) (Z.of_nat i) = Some out.
Proof.
  intros Hi. apply elem_of_list_to_map_1; [apply created_coins_NoDup|].
  apply elem_of_lookup_imap. eauto.
Qed.

Lemma spend_coins_Some tx m op out :
  spend_coins tx m !! op = Some out <-> m !! op = Some out /\ op ∉ (prevout <$> inputs tx).
Proof.
  unfold spend_coins. induction (inputs tx) as [|i l IH]; simpl; [set_solver|].
  rewrite lookup_delete_Some, IH, not_elem_of_cons. naive_solver.
Qed.

Lemma ledger_tx_old g tx op out :
  ledger_wf g -> tx_txid tx ∉ seen g -> coins g !! op = Some out -> op ∉ (prevout <$> inputs tx) ->
  coins (ledger_tx tx g) !! op = Some out.
Proof.
  intros Hwf Hf Hop Hn. simpl. apply lookup_union_Some_raw. right. split; [|by apply spend_coins_Some].
  destruct (created_coins tx !! op) eqn:E; [|done]. apply created_coins_txid in E.
  apply Hwf in Hop. by rewrite E in Hop.
Qed.

Lemma ledger_tx_new g tx (i : nat) out :
  outputs tx !! i = Some out ->
  coins (ledger_tx tx g) !! OutPoint (tx_txid tx) (Z.of_nat i) = Some out.
Proof. intros Hi. simpl. apply lookup_union_Some_l. by apply created_coins_lookup. Qed.

Lemma ledger_tx_wf g tx : ledger_wf g -> ledger_wf (ledger_tx tx g).
Proof.
  intros Hwf op out. simpl. intros [Hc|[_ Hs]]%lookup_union_Some_raw.
  - apply created_coins_txid in Hc. set_solver.
  - apply spend_coins_Some in Hs as [Hs _]. apply Hwf in Hs. set_solver.
Qed.

(** ** The index under the two kinds of update *)

Lemma index_ok_mono t1 t2 s : t1 ⊆ t2 -> index_ok t1 s -> index_ok t2 s.
Proof.
  intros Ht [Ho Ha]. split; [|done]. intros k o (? & ? & ?)%Ho. split_and!; [done..|set_solver].
Qed.

(** An update that ends an object's life. *)
Record retires (f : ObjectState -> ObjectState) : Prop := {
  rt_key : forall o, object_key (f o) = object_key o;
  rt_genesis : forall o, genesis (f o) = genesis o;
  rt_status : forall o, status (f o) <> Active;
}.

Lemma index_ok_retire txids s f key op :
  index_ok txids s -> retires f ->
  (forall o, objects s !! key = Some o ->
     object_ok (protocol_status s) (namespace (binding s)) o ->
     object_ok (protocol_status s) (namespace (binding s)) (f o) /\
     (status o = Active -> current_outpoint o = op)) ->
  (forall k, active s !! op = Some k -> k = key) ->
  index_ok txids (set_maps (alter f key (objects s)) (delete op (active s)) s).
Proof.
  intros [Ho Ha] [Hfk Hfg Hfs] Hf Hop. split; simpl.
  - intros k o. rewrite lookup_alter_Some. intros [(-> & o1 & H1 & ->)|[Hne Hk]]; [|by apply Ho].
    apply Ho in H1 as Hok. destruct Hok as (E & Hok & Hg). rewrite Hfk, Hfg.
    split_and!; [done|by apply Hf|done].
  - intros op' k. rewrite lookup_delete_Some. split.
    + intros [Hne (o & Hk & Hs & Hc)%Ha]. exists o. split_and!; [|done..].
      rewrite lookup_alter_ne; [done|]. intros ->. destruct Hne.
      apply Ho in Hk as Hok. destruct Hok as (_ & Hok & _).
      destruct (Hf o Hk Hok) as [_ Hcur]. by rewrite <- Hcur, Hc.
    + intros (o & Hk & Hs & Hc). apply lookup_alter_Some in Hk as [(-> & o1 & _ & ->)|[Hne Hk]].
      * by apply Hfs in Hs.
      * assert (Hact : active s !! op' = Some k) by (apply Ha; eauto).
        split; [|done]. intros ->. apply Hop in Hact. congruence.
Qed.

(** An update that installs a live object at a new carrier. *)
Lemma index_ok_put txids s key o' old :
  index_ok txids s ->
  active s !! current_outpoint o' = None ->
  object_key o' = key -> op_txid (genesis o') ∈ txids -> status o' = Active ->
  object_ok (protocol_status s) (namespace (binding s)) o' ->
  (objects s !! key = None /\ old = active s) \/
  (exists o, objects s !! key = Some o /\ status o = Active /\
     old = delete (current_outpoint o) (active s)) ->
  index_ok txids (set_maps (<[key := o']> (objects s)) (<[current_outpoint o' := key]> old) s).
Proof.
  intros [Ho Ha] Hnew Hkey Hg Hst Hok Hold. split; simpl.
  - intros k o. rewrite lookup_insert_Some. intros [[<- <-]|[_ Hk]]; [done|by apply Ho].
  - assert (Hrest : forall op k, old !! op = Some k <-> active s !! op = Some k /\ k <> key).
    { intros op k. destruct Hold as [[Hn ->]|(o & Hk & Hs & ->)].
      - split; [|naive_solver]. intros Hop. split; [done|]. intros ->.
        apply Ha in Hop as (o & ? & _). congruence.
      - rewrite lookup_delete_Some. split.
        + intros [H1 H2]. split; [done|]. intros ->. by apply Ha in H2 as (o1 & ? & ? & ?); simplify_eq.
        + intros [H1 H2]. split; [|done]. intros <-.
          assert (active s !! current_outpoint o = Some key) by (apply Ha; eauto). congruence. }
    intros op k. rewrite lookup_insert_Some, Hrest. split.
    + intros [[<- <-]|[Hne [(o & Hk & Hs & Hc)%Ha Hkk]]].
      * exists o'. by rewrite lookup_insert_eq.
      * exists o. by rewrite lookup_insert_ne.
    + intros (o & Hk & Hs & Hc). apply lookup_insert_Some in Hk as [[<- <-]|[Hkk Hk]]; [by left|].
      assert (Hact : active s !! op = Some k) by (apply Ha; eauto). right.
      split; [|done]. intros <-. congruence.
Qed.

Lemma retires_terminated st txid : st <> Active -> retires (terminated st txid).
Proof. by split. Qed.

Lemma retires_closed txid seq : retires (with_state_seq seq ∘ terminated Closed txid).
Proof. by split. Qed.

Lemma object_ok_terminated ps ns st txid o :
  st <> Active -> object_ok ps ns o -> object_ok ps ns (terminated st txid o).
Proof. intros Hst []. by split. Qed.

(** ** Forced exits *)

Lemma exit_all_cons txid c cs s :
  exit_all txid (c :: cs) s = exit_all txid cs (terminate_object c.2 ExitedNoncanonical txid s).
Proof. done. Qed.

Lemma exit_all_active txid cs s op :
  active (exit_all txid cs s) !! op =
  if decide (op ∈ (fun c => current_outpoint c.2) <$> cs) then None else active s !! op.
Proof.
  revert s. induction cs as [|c cs IH]; intros s; [done|].
  rewrite exit_all_cons, IH. cbn [active objects terminate_object set_maps]. rewrite fmap_cons. destruct (decide (op = current_outpoint c.2)) as [->|Hne].
  - rewrite lookup_delete_eq. rewrite (decide_True (P := _ ∈ _ :: _)) by constructor. by case_decide.
  - rewrite lookup_delete_ne by done.
    destruct (decide (op ∈ (fun c => current_outpoint c.2) <$> cs)).
    + by rewrite decide_True by (by constructor).
    + rewrite decide_False; [done|]. by intros [?|?]%elem_of_cons.
Qed.

Lemma exit_all_objects txid cs s k :
  objects (exit_all txid cs s) !! k =
  if decide (k ∈ (fun c => object_key c.2) <$> cs)
  then terminated ExitedNoncanonical txid <$> objects s !! k else objects s !! k.
Proof.
  revert s. induction cs as [|c cs IH]; intros s; [done|].
  rewrite exit_all_cons, IH. cbn [active objects terminate_object set_maps]. rewrite fmap_cons. destruct (decide (k = object_key c.2)) as [->|Hne].
  - rewrite lookup_alter_eq. rewrite (decide_True (P := _ ∈ _ :: _)) by constructor.
    case_decide; [|done]. by destruct (objects s !! object_key c.2).
  - rewrite lookup_alter_ne by done.
    destruct (decide (k ∈ (fun c => object_key c.2) <$> cs)).
    + by rewrite decide_True by (by constructor).
    + rewrite decide_False; [done|]. by intros [?|?]%elem_of_cons.
Qed.

Lemma exit_all_frame txid cs s :
  binding (exit_all txid cs s) = binding s /\ protocol_status (exit_all txid cs s) = protocol_status s /\
  tip_height (exit_all txid cs s) = tip_height s /\ tip_hash (exit_all txid cs s) = tip_hash s /\
  chained_root (exit_all txid cs s) = chained_root s.
Proof. revert s. induction cs as [|c cs IH]; intros s; [done|]. apply (IH (terminate_object _ _ _ _)). Qed.

(** The carriers of a transaction are live objects of the state. *)
Definition live (s : ChainState) (o : ObjectState) : Prop :=
  objects s !! object_key o = Some o /\ status o = Active /\
  active s !! current_outpoint o = Some (object_key o).

Lemma carrier_spends_live txids s tx i o :
  index_ok txids s -> (i, o) ∈ carrier_spends s tx ->
  live s o /\ exists inp, inputs tx !! i = Some inp /\ prevout inp = current_outpoint o.
Proof.
  intros Hix (inp & k & Hi & Ha & Ho)%elem_of_carrier_spends.
  destruct (index_active_object _ _ _ _ Hix Ha) as (o' & Ho' & Hk & Hs & Hc).
  simplify_eq. unfold live. rewrite Hc. split; [done|]. by exists inp.
Qed.

(** Every spent live carrier is among them. *)
Lemma spent_carrier txids s tx inp k :
  index_ok txids s -> inp ∈ inputs tx -> active s !! prevout inp = Some k ->
  exists i o, (i, o) ∈ carrier_spends s tx /\ object_key o = k /\ current_outpoint o = prevout inp.
Proof.
  intros Hix [i Hi]%list_elem_of_lookup Ha.
  destruct (index_active_object _ _ _ _ Hix Ha) as (o & Ho & Hk & Hs & Hc).
  exists i, o. split; [|done]. apply elem_of_carrier_spends. eauto.
Qed.

Lemma index_ok_exit txids s txid cs :
  index_ok txids s -> (forall c, c ∈ cs -> live s c.2) -> index_ok txids (exit_all txid cs s).
Proof.
  intros [Ho Ha] Hcs. destruct (exit_all_frame txid cs s) as (Eb & Ep & _). split.
  - intros k o. rewrite exit_all_objects, Eb, Ep. case_decide as Hk; [|apply Ho].
    destruct (objects s !! k) as [o1|] eqn:E; [|done]. intros [= <-].
    apply Ho in E as (? & ? & ?). split_and!; [done|by apply object_ok_terminated|done].
  - intros op k. rewrite exit_all_active, exit_all_objects. split.
    + case_decide as Hop; [done|]. intros (o & Hk & Hs & Hc)%Ha. exists o. split_and!; [|done..].
      rewrite decide_False; [done|]. intros (c & -> & Hin)%list_elem_of_fmap. destruct Hop.
      apply list_elem_of_fmap. exists c. split; [|done]. destruct (Hcs c Hin) as (? & _). congruence.
    + intros (o & Hk & Hs & Hc). case_decide as Hkey.
      { destruct (objects s !! k); [|done]. by injection Hk as <-. }
      assert (Hact : active s !! op = Some k) by (apply Ha; eauto). rewrite decide_False; [done|].
      intros (c & -> & Hin)%list_elem_of_fmap. destruct Hkey. apply list_elem_of_fmap. exists c.
      split; [|done]. destruct (Hcs c Hin) as (_ & _ & ?). congruence.
Qed.

(** ** One step *)

Lemma sorted_carriers_elem s tx c : c ∈ sorted_carriers s tx <-> c ∈ carrier_spends s tx.
Proof. unfold sorted_carriers. by rewrite sort_by_key_perm. Qed.

Lemma successor_not_active g s tx :
  ledger_wf g -> index_ok (seen g) s -> backed (coins g) s -> tx_txid tx ∉ seen g ->
  active s !! successor_of tx = None.
Proof.
  intros Hwf Hix Hb Hf. destruct (active s !! successor_of tx) as [k|] eqn:E; [|done].
  destruct (index_active_object _ _ _ _ Hix E) as (o & Ho & _).
  specialize (Hb _ _ _ E Ho). by apply Hwf in Hb.
Qed.

(** A CREATE spends no carrier: its inputs pay to key hashes, a carrier pays to a script. *)
Lemma create_spends_no_carrier g s h tx m kp :
  index_ok (seen g) s -> backed (coins g) s -> tx_ok (namespace (binding s)) g tx ->
  create_rule s h tx m kp -> carrier_spends s tx = [].
Proof.
  intros Hix Hb [_ Hres _ _] (in0 & in1 & ? & ? & ? & ? & k0 & k1 & ? & ? & ? & ? & _ & _ & Ein & _ & H0 & H1 & _).
  destruct (carrier_spends s tx) as [|[i o] l] eqn:Ec; [done|].
  destruct (carrier_spends_live _ s tx i o Hix) as [(Ho & Hs & Ha) (inp & Hi & Hp)].
  { rewrite Ec. constructor. }
  specialize (Hb _ _ _ Ha Ho). rewrite <- Hp in Hb.
  assert (Hin : inp ∈ inputs tx) by by eapply list_elem_of_lookup_2.
  apply (Hres inp) in Hb as [Hscr _]; [|done]. simpl in Hscr.
  rewrite Ein in Hin. apply elem_of_cons in Hin as [->|[->|Hin]%elem_of_cons]; [| |by apply elem_of_nil in Hin].
  - apply p2wpkh_key_Some in H0 as (Hr & _). by destruct (p2wpkh_not_carrier _ _ (keys o) Hr).
  - apply p2wpkh_key_Some in H1 as (Hr & _). by destruct (p2wpkh_not_carrier _ _ (keys o) Hr).
Qed.

(** What the ledger must still hold for the carriers of the new state. *)
Lemma backed_step g s s' tx :
  ledger_wf g -> backed (coins g) s -> tx_txid tx ∉ seen g ->
  (forall op k o', active s' !! op = Some k -> objects s' !! k = Some o' ->
     ((op ∉ (prevout <$> inputs tx)) /\ active s !! op = Some k /\
        exists o, objects s !! k = Some o /\ keys o = keys o') \/
     (op = successor_of tx /\
        outputs tx !! 1%nat = Some (mkOutput CARRIER_VALUE (carrier_script (keys o'))))) ->
  backed (coins (ledger_tx tx g)) s'.
Proof.
  intros Hwf Hb Hf Hs op k o' Ha Ho.
  destruct (Hs op k o' Ha Ho) as [(Hn & Ha' & o & Ho' & Ek)|[-> Hout]].
  - apply ledger_tx_old; [done..| |done]. rewrite <- Ek. by eapply Hb.
  - by apply (ledger_tx_new g tx 1).
Qed.

Lemma unspent_active txids s tx op k (cs : list (nat * ObjectState)) :
  index_ok txids s -> active s !! op = Some k ->
  (forall c, c ∈ carrier_spends s tx -> current_outpoint c.2 <> op) ->
  op ∉ (prevout <$> inputs tx).
Proof.
  intros Hix Ha Hcs (inp & -> & Hin)%list_elem_of_fmap.
  destruct (spent_carrier _ _ _ _ _ Hix Hin Ha) as (i & o & Hc & _ & Hcur). by apply (Hcs _ Hc).
Qed.

Lemma step_inv_quiet g s tx :
  state_inv g s -> tx_ok (namespace (binding s)) g tx -> carrier_spends s tx = [] ->
  state_inv (ledger_tx tx g) s.
Proof.
  intros [Hwf Hix Hb] [Hf _ _ _] Hc. split; [by apply ledger_tx_wf| |].
  - eapply index_ok_mono; [|done]. simpl. set_solver.
  - eapply backed_step; [done..|]. intros op k o Ha Ho. left. split; [|eauto].
    eapply (unspent_active _ _ _ _ _ []); [done..|]. rewrite Hc. by intros c ?%elem_of_nil.
Qed.

Lemma step_inv_exit g s tx :
  state_inv g s -> tx_ok (namespace (binding s)) g tx ->
  state_inv (ledger_tx tx g) (exit_all (tx_txid tx) (sorted_carriers s tx) s).
Proof.
  intros [Hwf Hix Hb] [Hf _ _ _].
  assert (Hlive : forall c, c ∈ sorted_carriers s tx -> live s c.2).
  { intros [i o] Hc%sorted_carriers_elem. by apply (carrier_spends_live _ s tx i o Hix). }
  split; [by apply ledger_tx_wf| |].
  - eapply index_ok_mono; [|by apply index_ok_exit]. simpl. set_solver.
  - eapply backed_step; [done..|]. intros op k o. rewrite exit_all_active, exit_all_objects.
    case_decide as Hop; [done|]. intros Ha Ho. left. split; [|split; [done|]].
    + eapply (unspent_active _ _ _ _ _ []); [done..|]. intros c Hc Ec. apply Hop.
      apply list_elem_of_fmap. exists c. split; [done|]. by apply sorted_carriers_elem.
    + case_decide; [|eauto]. destruct (objects s !! k) as [o1|]; [|done]. injection Ho as <-. eauto.
Qed.

(** The single carrier of a transition or refund retires or moves on. *)
Lemma single_carrier_unspent txids s tx i o op k :
  index_ok txids s -> carrier_spends s tx = [(i, o)] -> active s !! op = Some k ->
  op <> current_outpoint o -> op ∉ (prevout <$> inputs tx).
Proof.
  intros Hix Hc Ha Hne. eapply (unspent_active _ _ _ _ _ []); [done..|].
  rewrite Hc. intros c ->%list_elem_of_singleton. by apply not_eq_sym.
Qed.

Lemma step_inv_retire g s tx f i o :
  state_inv g s -> tx_ok (namespace (binding s)) g tx -> carrier_spends s tx = [(i, o)] -> retires f ->
  object_ok (protocol_status s) (namespace (binding s)) (f o) ->
  state_inv (ledger_tx tx g)
    (set_maps (alter f (object_key o) (objects s)) (delete (current_outpoint o) (active s)) s).
Proof.
  intros [Hwf Hix Hb] [Hf _ _ _] Hc Hr Hok.
  destruct (carrier_spends_live _ s tx i o Hix) as [(Ho & Hs & Ha) _]; [rewrite Hc; constructor|].
  split; [by apply ledger_tx_wf| |].
  - eapply index_ok_mono; [|apply index_ok_retire; [done|done| |]]; [simpl; set_solver| |].
    + intros o1 Ho1. simplify_eq. done.
    + intros k Hk. congruence.
  - eapply backed_step; [done..|]. simpl. intros op k o1 [Hne Hop]%lookup_delete_Some Ho1.
    left. split; [by eapply single_carrier_unspent|]. split; [done|].
    apply lookup_alter_Some in Ho1 as [(<- & o2 & ? & ->)|[? ?]]; [|eauto].
    destruct Hne. destruct (index_active_object _ _ _ _ Hix Hop) as (o3 & ? & ? & ? & ?). congruence.
Qed.

Lemma step_inv_advance g s tx i o o' :
  state_inv g s -> tx_ok (namespace (binding s)) g tx -> carrier_spends s tx = [(i, o)] ->
  object_key o' = object_key o -> genesis o' = genesis o -> status o' = Active ->
  current_outpoint o' = successor_of tx ->
  object_ok (protocol_status s) (namespace (binding s)) o' ->
  outputs tx !! 1%nat = Some (mkOutput CARRIER_VALUE (carrier_script (keys o'))) ->
  state_inv (ledger_tx tx g)
    (set_maps (<[object_key o := o']> (objects s))
       (<[successor_of tx := object_key o]> (delete (current_outpoint o) (active s))) s).
Proof.
  intros [Hwf Hix Hb] [Hf _ _ _] Hc Ek Eg Es Ecur Hok Hout.
  destruct (carrier_spends_live _ s tx i o Hix) as [(Ho & Hs & Ha) _]; [rewrite Hc; constructor|].
  split; [by apply ledger_tx_wf| |].
  - rewrite <- Ecur. apply index_ok_put; try done.
    + eapply index_ok_mono; [|done]. simpl. set_solver.
    + rewrite Ecur. by eapply successor_not_active.
    + rewrite Eg. destruct Hix as [Hobj _]. apply Hobj in Ho as (_ & _ & ?). simpl. set_solver.
    + right. eauto.
  - eapply backed_step; [done..|]. simpl. intros op k o1.
    rewrite !lookup_insert_Some, lookup_delete_Some.
    intros [[<- <-]|[Hne [Hne' Hop]]] [[Hk <-]|[Hk Ho1]]; try done; [by right| |].
    + subst k. destruct (index_active_object _ _ _ _ Hix Hop) as (o3 & ? & ? & ? & ?). congruence.
    + left. split; [by eapply single_carrier_unspent|]. eauto.
Qed.

Lemma create_key_fresh g s tx :
  index_ok (seen g) s -> tx_ok (namespace (binding s)) g tx ->
  objects s !! derive_object_key (namespace (binding s)) (tx_txid tx) = None.
Proof.
  intros [Ho _] [_ _ Hk _]. destruct (objects s !! _) as [o|] eqn:E; [|done].
  apply Ho in E as (Ek & [_ _ _ [Eg _] _ _ _] & Hg). by destruct (Hk _ Hg); congruence.
Qed.

Lemma step_inv_create g s tx block h m kp :
  state_inv g s -> tx_ok (namespace (binding s)) g tx -> h = blk_height block ->
  create_rule s h tx m kp -> state_inv (ledger_tx tx g) (op_state block tx (VCreate kp) s).
Proof.
  intros Hinv Hok -> Hr. destruct Hinv as [Hwf Hix Hb].
  pose proof (create_spends_no_carrier _ _ _ _ _ _ Hix Hb Hok Hr) as Hnc.
  pose proof (create_key_fresh _ _ _ Hix Hok) as Hkf. destruct Hok as [Hf _ _ _].
  destruct Hr as (in0 & in1 & out0 & out1 & out2 & out3 & k0 & k1 & fee & ih & ho & hc & _ & _ & _ & Eout
    & _ & _ & Hkp & _ & -> & _ & _ & _ & _ & _ & _ & _ & _ & Es & Hh).
  pose proof (successor_not_active _ _ _ Hwf Hix Hb Hf) as Hsn.
  apply keypair_checked_Some in Hkp as Hkp'. destruct Hkp' as (-> & _).
  unfold op_state. rewrite Es. split; [by apply ledger_tx_wf| |].
  - set (key := derive_object_key _ _). set (o' := created_object key _ _ _ _ _).
    change (successor_of tx) with (current_outpoint o') at 1. apply index_ok_put; try done; [| | |by left].
    + eapply index_ok_mono; [|done]. simpl. set_solver.
    + simpl. set_solver.
    + split; simpl; try done; try (unfold u32_max; lia). exists ih, ho, hc. done.
  - eapply backed_step; [done..|]. simpl. intros op k o1. rewrite !lookup_insert_Some.
    intros [[<- <-]|[Hne Hop]] [[Hk <-]|[Hk Ho1]]; try done; [by right; rewrite Eout| |].
    + subst k. destruct (index_active_object _ _ _ _ Hix Hop) as (o3 & ? & _). congruence.
    + left. split; [|eauto]. eapply (unspent_active _ _ _ _ _ []); [done..|].
      rewrite Hnc. by intros c ?%elem_of_nil.
Qed.

(** The object that input 0 of a validated transition spends is the only carrier. *)
Lemma transition_carrier s tx o :
  (length (carrier_spends s tx) <= 1)%nat -> head (carrier_spends s tx) = Some (0%nat, o) ->
  carrier_spends s tx = [(0%nat, o)].
Proof. destruct (carrier_spends s tx) as [|c [|]]; simpl; naive_solver lia. Qed.

Lemma carrier_object_ok txids s tx i o :
  index_ok txids s -> carrier_spends s tx = [(i, o)] ->
  object_ok (protocol_status s) (namespace (binding s)) o /\ status o = Active.
Proof.
  intros Hix Hc. destruct (carrier_spends_live _ s tx i o Hix) as [(Ho & Hs & _) _].
  { rewrite Hc. constructor. }
  destruct Hix as [Hobj _]. by apply Hobj in Ho as (_ & ? & _).
Qed.

Lemma tx_step_inv g s block tx txi s' evs :
  state_inv g s -> tx_ok (namespace (binding s)) g tx -> tx_step block tx txi s s' evs ->
  state_inv (ledger_tx tx g) s'.
Proof.
  intros Hinv Hok Hstep. pose proof (si_index _ _ Hinv) as Hix.
  destruct Hstep as [Hc _|evi ty r ns Hc _ _ _|evi r ns Hne _ _|i o Hc _ Hr|c m op Em Hp Hl [Hhd Hop]].
  - by apply step_inv_quiet.
  - by apply step_inv_quiet.
  - by apply step_inv_exit.
  - eapply step_inv_retire; [done..|by apply retires_terminated|].
    apply object_ok_terminated; [done|]. by eapply carrier_object_ok.
  - destruct op as [kp|o seq com|o seq kp|o seq com].
    + eapply step_inv_create; [done..|apply Hop].
    + destruct Hop as (_ & Hh & (? & ? & ? & ? & ? & ? & ? & Hr)).
      destruct Hr as (_ & _ & _ & _ & _ & _ & Eout & _ & _ & _ & _ & _ & -> & _ & _ & _ & Hseq & Hmax & _).
      apply transition_carrier in Hh; [|done].
      destruct (carrier_object_ok _ _ _ _ _ Hix Hh) as [[Hch Hsq Hks Hg Ha Ht Hph] Hs].
      eapply step_inv_advance; [done..| |by rewrite Eout]. split; simpl; try done; try lia.
      intros _. split; [by apply Ha|done].
    + destruct Hop as (_ & Hh & (? & ? & ? & ? & ? & ? & ? & k0 & k1 & ? & Hr)).
      destruct Hr as (_ & _ & _ & Eout & _ & _ & _ & _ & Hkp & _ & _ & -> & _ & _ & _ & _ & _ & _ & _ & _ & Hseq & Hmax).
      apply transition_carrier in Hh; [|done].
      destruct (carrier_object_ok _ _ _ _ _ Hix Hh) as [[Hch Hsq Hks Hg Ha Ht Hph] Hs].
      apply keypair_checked_Some in Hkp as Hkp'. destruct Hkp' as (-> & _).
      eapply step_inv_advance; [done..| |by rewrite Eout]. split; simpl; try done; try lia.
      intros _. split; [by apply Ha|done].
    + destruct Hop as (_ & Hh & (? & ? & ? & ? & ? & Hr)).
      destruct Hr as (_ & _ & _ & _ & _ & _ & _ & _ & _ & _ & _ & _ & _ & _ & _ & _ & Hseq & Hmax & _).
      apply transition_carrier in Hh; [|done].
      destruct (carrier_object_ok _ _ _ _ _ Hix Hh) as [[Hch Hsq Hks Hg Ha Ht Hph] Hs].
      eapply step_inv_retire; [done..|apply retires_closed|]. split; simpl; try done; lia.
Qed.
End Invariant.
