(* ===== verification/Chain.v ===== *)
(** * Blocks and chains of blocks

    [apply_block] and [disconnect_block] as a whole: when they fail, with what a linked block is
    said of the heights and hashes themselves ([extends], [unlinked]), that they fail without a
    trace, and that disconnecting is the exact inverse of connecting. *)

From S2P Require Import Prelude Types Marker Roots Reducer Validators Steps Invariant.

(** ** Errors *)

Section Errors.
Context {P : Primitives}.

(** A computation that never returns an error (it may still panic). *)
Definition no_err {A} (m : st ChainState ReducerError A) : Prop :=
  forall s e, snd (m s) <> Err e.

Lemma no_err_ret {A} (a : A) : no_err (st_ret a).
Proof. by intros s e. Qed.
Lemma no_err_modify f : no_err (st_modify f).
Proof. by intros s e. Qed.
Lemma no_err_expect {A} (o : option A) : no_err (st_lift (expect o)).
Proof. intros s e. by destruct o. Qed.
Lemma no_err_bind {A B} (m : st ChainState ReducerError A) (f : A -> st ChainState ReducerError B) :
  no_err m -> (forall a, no_err (f a)) -> no_err (st_bind m f).
Proof.
  intros Hm Hf s e. unfold st_bind. specialize (Hm s). destruct (m s) as [s1 [a|e'|]]; simpl in *.
  - apply Hf.
  - by destruct (Hm e').
  - done.
Qed.
Lemma no_err_get {A} (f : ChainState -> st ChainState ReducerError A) :
  (forall s, no_err (f s)) -> no_err (st_bind st_get f).
Proof. intros Hf s e. apply Hf. Qed.

#[local] Hint Resolve no_err_ret no_err_modify no_err_expect no_err_bind no_err_get : tandem.

Lemma terminate_loop_no_err block tx txi evi r ns sub cs :
  no_err (terminate_loop block tx txi evi r ns sub cs).
Proof. revert sub. induction cs as [|[i o] cs IH]; intros sub; simpl; auto 10 with tandem. Qed.

Lemma apply_valid_operation_no_err block tx txi evi op :
  no_err (apply_valid_operation block tx txi evi op).
Proof.
  destruct op; simpl; auto 10 with tandem. apply no_err_get. intros s.
  destruct (protocol_status s); auto 10 with tandem; by intros s' e.
Qed.

Lemma process_transaction_no_err block tx txi : no_err (process_transaction block tx txi).
Proof.
  apply no_err_get. intros s. unfold terminate_carriers. cbv zeta.
  repeat first [ apply no_err_ret | apply terminate_loop_no_err | apply no_err_bind; [|intros ?]
    | apply apply_valid_operation_no_err | apply no_err_modify | case_decide
    | match goal with |- no_err (match ?x with _ => _ end) => destruct x end ].
  all: by intros ? ?.
Qed.

Lemma block_loop_no_err block i txs :
  Z.of_nat (i + length txs) <= u32_max + 1 ->
  no_err (active_block_loop block i txs) /\ no_err (init_block_loop block i txs).
Proof.
  revert i. induction txs as [|tx txs IH]; intros i Hl; simpl in *; [auto with tandem|].
  destruct (IH (S i)) as [IH1 IH2]; [lia|].
  assert (try_from u32_max (Z.of_nat i) = Some (Z.of_nat i)) as -> by (apply try_from_Some; lia).
  split; (apply no_err_bind; [by intros ? ?|intros txi]).
  - apply no_err_bind; [apply process_transaction_no_err|]. auto with tandem.
  - apply no_err_get. intros s. apply no_err_bind; [|auto with tandem].
    case_decide; [auto with tandem|apply process_transaction_no_err].
Qed.

(** The one error of the dispatch is an INIT that is not there. *)
Lemma block_events_err block s e :
  len (transactions block) <= u32_max -> snd (block_events block s) = Err e ->
  e = ConfiguredInitAbsent /\ block_events block s = (s, Err e) /\ protocol_status s = AwaitingInit /\
  Forall (fun tx => tx_txid tx <> init_txid (binding s)) (transactions block).
Proof.
  intros Hl. destruct (block_loop_no_err block 0 (transactions block)) as [Ha Hi].
  { unfold len in Hl. simpl. lia. }
  unfold block_events, st_bind at 1 3, st_get. destruct (protocol_status s) eqn:Eps.
  - destruct (list_find _ _) as [[i tx]|] eqn:Ef.
    + apply list_find_Some in Ef as (Hlk & _ & _). apply lookup_lt_Some in Hlk. unfold len in Hl.
      assert (try_from u32_max (Z.of_nat i) = Some (Z.of_nat i)) as -> by (apply try_from_Some; lia).
      unfold st_bind, st_lift, st_modify, ok_or.
      destruct (validate_configured_init _ _ _) as [p|r|]; try done.
      intros H. by apply Hi in H.
    + intros [= <-]. split_and!; [done| |done|by apply list_find_None in Ef].
      unfold st_bind. by rewrite Eps, Ef.
  - intros H. by apply Ha in H.
  - done.
Qed.
End Errors.

(** ** One block *)

Section Block.
Context {P : Primitives}.

(** The journal entry of a block whose dispatch ended in [s] with these events and roots. *)
Definition delta_of (before : ChainState) (block : BlockView) (s : ChainState) (events : list Event)
    (er orr : Hash32) : BlockDelta :=
  let root := block_root (namespace (binding before)) (chained_root s) (blk_hash block)
                (blk_height block) er orr (counters s) in
  mkDelta before (blk_hash block) (previous_hash block) (blk_height block) events
    (mkRoots (blk_height block) (blk_hash block) er orr root (counters s)).

Lemma apply_block_unfold block s :
  validate_linkage s block = Ok tt -> len (transactions block) <= u32_max ->
  apply_block block s =
  match block_events block s with
  | (s1, Ok events) =>
      match event_root (E := ReducerError) (namespace (binding s)) events,
            object_state_root (E := ReducerError) (namespace (binding s)) (bt_values (objects s1)) with
      | Ok er, Ok orr =>
          let d := delta_of s block s1 events er orr in
          (set_tip (blk_height block) (blk_hash block) (hr_chained_root (bd_roots d)) s1, Ok d)
      | _, _ => (s1, Panic)
      end
  | (s1, Err e) => (s1, Err e)
  | (s1, Panic) => (s1, Panic)
  end.
Proof.
  intros Hlink Hlen. unfold apply_block, st_bind at 1, st_get. unfold st_bind at 1, st_lift.
  rewrite Hlink, decide_False by lia. unfold st_bind at 1.
  destruct (block_events block s) as [s1 [evs|e|]]; [|done..].
  destruct (event_root_total (E := ReducerError) (namespace (binding s)) evs) as [er Her].
  destruct (object_state_root_total (E := ReducerError) (namespace (binding s)) (bt_values (objects s1)))
    as [orr Hor].
  unfold st_bind, st_modify, st_ret, st_lift. by rewrite Her, Hor.
Qed.

Lemma apply_block_Ok block s s' d :
  apply_block block s = (s', Ok d) <->
  validate_linkage s block = Ok tt /\ len (transactions block) <= u32_max /\
  exists s1 events er orr,
    block_events block s = (s1, Ok events) /\
    event_root (E := ReducerError) (namespace (binding s)) events = Ok er /\
    object_state_root (E := ReducerError) (namespace (binding s)) (bt_values (objects s1)) = Ok orr /\
    d = delta_of s block s1 events er orr /\
    s' = set_tip (blk_height block) (blk_hash block) (hr_chained_root (bd_roots d)) s1.
Proof.
  split.
  - destruct (validate_linkage s block) as [[]|e|] eqn:Hlink.
    2,3: unfold apply_block, st_bind, st_get, st_lift; by rewrite Hlink.
    destruct (decide (u32_max < len (transactions block))) as [Hl|Hl].
    { unfold apply_block, st_bind, st_get, st_lift. by rewrite Hlink, decide_True. }
    rewrite apply_block_unfold by (done || lia).
    destruct (block_events block s) as [s1 [evs|e|]]; [|done..].
    destruct (event_root _ evs) as [er| |] eqn:Her; [|done..].
    destruct (object_state_root _ _) as [orr| |] eqn:Hor; [|done..].
    intros [= <- <-]. split_and!; [done|lia|]. by exists s1, evs, er, orr.
  - intros (Hlink & Hlen & s1 & evs & er & orr & He & Her & Hor & -> & ->).
    by rewrite apply_block_unfold, He, Her, Hor.
Qed.

Lemma validate_linkage_no_panic s block : validate_linkage s block <> Panic.
Proof.
  unfold validate_linkage, checked_add. destruct (tip_height s); [|done].
  case_decide; simpl; [|done]. by repeat case_decide.
Qed.

Lemma apply_block_error block s s' e :
  apply_block block s = (s', Err e) <->
  s' = s /\
  (validate_linkage s block = Err e \/
   validate_linkage s block = Ok tt /\
   (u32_max < len (transactions block) /\ e = TransactionIndexOverflow \/
    len (transactions block) <= u32_max /\ e = ConfiguredInitAbsent /\
    protocol_status s = AwaitingInit /\
    Forall (fun tx => tx_txid tx <> init_txid (binding s)) (transactions block))).
Proof.
  destruct (validate_linkage s block) as [[]|e'|] eqn:Hlink.
  - destruct (decide (u32_max < len (transactions block))) as [Hl|Hl].
    { unfold apply_block, st_bind, st_get, st_lift. rewrite Hlink, decide_True by done.
      split; [naive_solver|]. intros [-> [?|[_ [[_ ->]|[? _]]]]]; [done|done|lia]. }
    rewrite apply_block_unfold by (done || lia). split.
    + pose proof (block_events_err block s) as Hbe.
      destruct (block_events block s) as [s1 [evs|e'|]]; [| |done].
      * destruct (event_root _ evs); [|done..]. by destruct (object_state_root _ _).
      * intros [= -> ->]. destruct (Hbe e) as (-> & [= <-] & ? & ?); [lia|done|].
        split; [done|]. right. split; [done|]. right. split; [lia|done].
    + intros [-> [?|[_ [[? _]|(_ & -> & Hs & Hf)]]]]; [done|lia|].
      unfold block_events, st_bind, st_get. rewrite Hs.
      by rewrite (proj2 (list_find_None _ _) Hf).
  - unfold apply_block, st_bind, st_get, st_lift. rewrite Hlink. naive_solver.
  - by apply validate_linkage_no_panic in Hlink.
Qed.

(** ** Linkage, on heights and hashes *)

(** The block continues the tip: its height is one above the tip's, a 64-bit number, and its parent
    is the tip.  Every block continues a state without a tip. *)
Definition extends (s : ChainState) (block : BlockView) : Prop :=
  forall h, tip_height s = Some h ->
    blk_height block = h + 1 /\ h + 1 <= u64_max /\ tip_hash s = Some (previous_hash block).

(** What is wrong with a block that does not, the height before the parent. *)
Inductive unlinked (s : ChainState) (block : BlockView) : ReducerError -> Prop :=
| no_next_height h :
    tip_height s = Some h -> u64_max < h + 1 ->
    unlinked s block (NonconsecutiveHeight u64_max (blk_height block))
| wrong_height h :
    tip_height s = Some h -> h + 1 <= u64_max -> blk_height block <> h + 1 ->
    unlinked s block (NonconsecutiveHeight (h + 1) (blk_height block))
| wrong_parent h :
    tip_height s = Some h -> h + 1 <= u64_max -> blk_height block = h + 1 ->
    tip_hash s <> Some (previous_hash block) -> unlinked s block ParentMismatch.

(** A block links exactly when there is no tip yet, or its height is one above the tip's
    without overflowing 64 bits and its parent is the tip. *)
Lemma validate_linkage_exact s block : validate_linkage s block = Ok tt <-> extends s block.
Proof.
  unfold validate_linkage, extends. destruct (tip_height s) as [h|]; [|naive_solver].
  rewrite rbind_Ok. setoid_rewrite ok_or_Ok. setoid_rewrite checked_add_Some. split.
  - intros (x & [-> Hm] & H) h' [= <-]. guards. done.
  - intros H. destruct (H h eq_refl) as (-> & Hm & ->). exists (h + 1). split; [done|].
    by rewrite !decide_False by (intros Hn; by apply Hn).
Qed.

Lemma validate_linkage_refused s block e : validate_linkage s block = Err e <-> unlinked s block e.
Proof.
  unfold validate_linkage, checked_add. split.
  - destruct (tip_height s) as [h|] eqn:Et; [|done]. case_decide as Hh; cbn [ok_or rbind].
    + case_decide as Hb; [intros [= <-]; by eapply wrong_height|].
      case_decide as Hp; [|done]. intros [= <-]. by eapply wrong_parent.
    + intros [= <-]. eapply no_next_height; [done|lia].
  - destruct 1 as [h Et Hh|h Et Hh Hb|h Et Hh Hb Hp]; rewrite Et.
    + by rewrite decide_False by lia.
    + rewrite decide_True by done. cbn [ok_or rbind]. by rewrite decide_True.
    + rewrite decide_True by done. cbn [ok_or rbind]. rewrite decide_False by (intros Hn; by apply Hn).
      by rewrite decide_True.
Qed.

(** C24: [apply_block] fails exactly when the block is not the tip's successor, by height or by
    parent, or has more transactions than a 32-bit index, or is the first block and lacks the
    configured INIT, each with its own error; and a failing call leaves the state it was given
    untouched, so there is no partial block. *)
Theorem apply_block_error_exact block s s' e :
  apply_block block s = (s', Err e) <->
  s' = s /\
  (unlinked s block e \/
   extends s block /\
   (u32_max < len (transactions block) /\ e = TransactionIndexOverflow \/
    len (transactions block) <= u32_max /\ e = ConfiguredInitAbsent /\
    protocol_status s = AwaitingInit /\
    Forall (fun tx => tx_txid tx <> init_txid (binding s)) (transactions block))).
Proof. rewrite <- validate_linkage_refused, <- validate_linkage_exact. apply apply_block_error. Qed.

Lemma disconnect_apply block s s' d :
  apply_block block s = (s', Ok d) -> disconnect_block d s' = (s, Ok tt).
Proof.
  intros (_ & _ & s1 & evs & er & orr & _ & _ & _ & -> & ->)%apply_block_Ok.
  unfold disconnect_block, st_bind, st_get. rewrite decide_False; [done|].
  simpl. by intros [Hn|Hn].
Qed.

(** A journal entry only undoes the block it came from. *)
Lemma disconnect_other d s :
  tip_hash s <> Some (bd_block_hash d) \/ tip_height s <> Some (bd_height d) ->
  disconnect_block d s = (s, Err DisconnectMismatch).
Proof. intros H. unfold disconnect_block, st_bind, st_get. by rewrite decide_True. Qed.

(** ** Chains *)

Fixpoint connect_all (blocks : list BlockView) : st ChainState ReducerError (list BlockDelta) :=
  match blocks with
  | [] => st_ret []
  | block :: rest =>
      do d <- apply_block block;
      do ds <- connect_all rest;
      st_ret (d :: ds)
  end.

(** Undo the latest block first. *)
Fixpoint disconnect_all (journal : list BlockDelta) : st ChainState ReducerError unit :=
  match journal with
  | [] => st_ret tt
  | d :: rest => run disconnect_block d; disconnect_all rest
  end.

Lemma connect_all_cons block rest s s' ds :
  connect_all (block :: rest) s = (s', Ok ds) <->
  exists s1 d ds', apply_block block s = (s1, Ok d) /\ connect_all rest s1 = (s', Ok ds') /\ ds = d :: ds'.
Proof.
  simpl. rewrite st_bind_Ok. setoid_rewrite st_bind_Ok. unfold st_ret. naive_solver.
Qed.

Lemma disconnect_all_app j1 j2 s s1 s2 u :
  disconnect_all j1 s = (s1, Ok tt) -> disconnect_all j2 s1 = (s2, Ok u) ->
  disconnect_all (j1 ++ j2) s = (s2, Ok u).
Proof.
  revert s. induction j1 as [|d j1 IH]; intros s; simpl; [by intros [= ->]|].
  rewrite !st_bind_Ok. intros (s3 & u3 & Hd & Hj) H2. exists s3, u3. eauto.
Qed.

(** C23: disconnecting is the exact inverse of connecting: after any sequence of blocks is
    applied, undoing its journal from the tip down succeeds at every step and restores the
    original state bit for bit, so a reorganisation replays from exactly the fork state. *)
Theorem disconnect_inverts_connect blocks s s' ds :
  connect_all blocks s = (s', Ok ds) -> disconnect_all (reverse ds) s' = (s, Ok tt).
Proof.
  revert s ds. induction blocks as [|b blocks IH]; intros s ds; [by intros [= -> <-]|].
  intros (s1 & d & ds' & Ha & Hc & ->)%connect_all_cons. rewrite reverse_cons.
  eapply disconnect_all_app; [by eapply IH|]. simpl. apply st_bind_Ok.
  exists s, tt. split; [by eapply disconnect_apply|done].
Qed.
End Block.
