(* ===== verification/Reach.v ===== *)
(** * Reachable states

    The dispatch of a whole block as steps of the relation, the block-level refinement of the
    code to it, and the invariant of every state that a canonical chain reaches.  The theorems
    say that on such a chain the two maps of the reducer stay in agreement with each other and
    with the coins of the chain. *)

From S2P Require Import Prelude Types Marker Roots Reducer Validators Steps Invariant Chain.

Definition ledger_txs (txs : list TxView) (g : Ledger) : Ledger :=
  foldl (fun g tx => ledger_tx tx g) g txs.

Section Reach.
Context {P : Primitives}.

Fixpoint txs_ok (ns : Hash32) (g : Ledger) (txs : list TxView) : Prop :=
  match txs with
  | [] => True
  | tx :: rest => tx_ok ns g tx /\ txs_ok ns (ledger_tx tx g) rest
  end.

(** The configured INIT itself changes no object and is recorded as an event. *)
Inductive block_step (block : BlockView) (txi : Z) (tx : TxView) (s : ChainState) :
  ChainState -> list Event -> Prop :=
| bs_tx s' evs : tx_step block tx txi s s' evs -> block_step block txi tx s s' evs
| bs_init :
    tx_txid tx = init_txid (binding s) -> carrier_spends s tx = [] ->
    block_step block txi tx s s [valid_init_event s block tx txi].

Inductive txs_steps (block : BlockView) : Z -> list TxView -> ChainState -> ChainState ->
  list Event -> Prop :=
| txs_nil i s : txs_steps block i [] s s []
| txs_cons i tx txs s s1 s2 e1 e2 :
    block_step block i tx s s1 e1 -> txs_steps block (i + 1) txs s1 s2 e2 ->
    txs_steps block i (tx :: txs) s s2 (e1 ++ e2).

(** What a block does before its roots are computed. *)
Inductive dispatch (block : BlockView) (s : ChainState) : ChainState -> list Event -> Prop :=
| d_active s1 evs ih h_open h_close :
    protocol_status s = PActive ih h_open h_close ->
    txs_steps block 0 (transactions block) s s1 evs -> dispatch block s s1 evs
| d_init i tx p evs :
    protocol_status s = AwaitingInit ->
    transactions block !! i = Some tx -> tx_txid tx = init_txid (binding s) ->
    init_rule (binding s) (blk_height block) tx p ->
    let s0 := set_status (PActive (blk_height block) (ip_h_open p) (ip_h_close p)) s in
    txs_steps block 0 (transactions block) s0 s0 evs -> dispatch block s s0 evs
| d_failed i tx reason :
    protocol_status s = AwaitingInit ->
    transactions block !! i = Some tx -> tx_txid tx = init_txid (binding s) ->
    validate_configured_init (binding s) (blk_height block) tx = Err reason ->
    dispatch block s (set_status (FailedInit reason (blk_height block)) s)
      [invalid_event (binding s) block tx (Z.of_nat i) reason true]
| d_inert reason ih :
    protocol_status s = FailedInit reason ih -> dispatch block s s [].

(** ** What a step leaves alone *)

Definition same_frame (s s' : ChainState) : Prop :=
  binding s' = binding s /\ protocol_status s' = protocol_status s /\
  tip_height s' = tip_height s /\ tip_hash s' = tip_hash s /\ chained_root s' = chained_root s.

Lemma tx_step_frame block tx txi s s' evs : tx_step block tx txi s s' evs -> same_frame s s'.
Proof.
  destruct 1 as [| | |i o|c m op]; try done; [apply exit_all_frame|].
  destruct op; simpl; try done. by destruct (protocol_status s) eqn:E; unfold same_frame; simpl.
Qed.

Lemma block_step_frame block tx txi s s' evs : block_step block txi tx s s' evs -> same_frame s s'.
Proof. destruct 1; [by eapply tx_step_frame|done]. Qed.

Lemma txs_steps_frame block i txs s s' evs : txs_steps block i txs s s' evs -> same_frame s s'.
Proof.
  unfold same_frame. induction 1 as [|i tx txs s s1 s2 e1 e2 H1 _ IH]; [done|].
  apply block_step_frame in H1. unfold same_frame in H1. intuition congruence.
Qed.

Lemma block_step_inv g s block tx txi s' evs :
  state_inv g s -> tx_ok (namespace (binding s)) g tx -> block_step block txi tx s s' evs ->
  state_inv (ledger_tx tx g) s'.
Proof. intros Hi Ho [s1 evs1 Hs|? ?]; [by eapply tx_step_inv|by apply step_inv_quiet]. Qed.

(** ** The code takes these steps *)

Lemma try_index (i : nat) (n : nat) :
  Z.of_nat (i + S n) <= u32_max + 1 -> try_from u32_max (Z.of_nat i) = Some (Z.of_nat i).
Proof. intros H. apply try_from_Some. lia. Qed.

Lemma active_block_loop_steps block txs i g s :
  state_inv g s -> txs_ok (namespace (binding s)) g txs ->
  Z.of_nat (i + length txs) <= u32_max + 1 ->
  exists s' evs, active_block_loop block i txs s = (s', Ok evs) /\
    txs_steps block (Z.of_nat i) txs s s' evs.
Proof.
  revert i g s. induction txs as [|tx txs IH]; intros i g s Hinv Hok Hl.
  { do 2 eexists. split; [done|constructor]. }
  destruct Hok as [Htx Hok]. cbn [active_block_loop length] in *.
  rewrite (try_index _ (length txs)) by done. unfold st_bind at 1, st_lift, ok_or.
  destruct (process_transaction_step block tx (Z.of_nat i) s) as (s1 & e1 & Hp & Hs);
    [apply Htx|by eapply index_chapters, si_index|].
  unfold st_bind at 1. rewrite Hp.
  destruct (tx_step_frame _ _ _ _ _ _ Hs) as (Eb & _).
  destruct (IH (S i) (ledger_tx tx g) s1) as (s2 & e2 & Hl2 & Hs2).
  { by eapply tx_step_inv. }
  { by rewrite Eb. }
  { lia. }
  unfold st_bind. rewrite Hl2. do 2 eexists. split; [done|].
  econstructor; [by constructor|]. by replace (Z.of_nat i + 1) with (Z.of_nat (S i)) by lia.
Qed.

(** Before the opening height nothing can be created, so the INIT block leaves the maps empty. *)
Definition nothing_yet (h : Z) (s : ChainState) : Prop :=
  objects s = ∅ /\ active s = ∅ /\
  forall ih h_open h_close, protocol_status s = PActive ih h_open h_close -> h < h_open.

Lemma empty_carrier_spends s tx : active s = ∅ -> carrier_spends s tx = [].
Proof.
  intros Ha. destruct (carrier_spends s tx) as [|[i o] l] eqn:E; [done|].
  assert (Hin : (i, o) ∈ carrier_spends s tx) by (rewrite E; constructor).
  apply elem_of_carrier_spends in Hin as (inp & k & _ & Hk & _). by rewrite Ha in Hk.
Qed.

Lemma tx_step_nothing block tx txi s s' evs :
  nothing_yet (blk_height block) s -> tx_step block tx txi s s' evs -> s' = s.
Proof.
  intros (Ho & Ha & Hh). pose proof (empty_carrier_spends s tx Ha) as Hc.
  destruct 1 as [| | |i o Hc' |c m op Em Hp Hl [_ Hop]]; try done; rewrite Hc in *; [done|].
  destruct op; [|by destruct Hop as (_ & ? & _)..].
  destruct Hop as (_ & (? & ? & ? & ? & ? & ? & ? & ? & ? & ih & ho & hc & Hr)).
  destruct Hr as (_ & _ & _ & _ & _ & _ & _ & _ & _ & _ & _ & _ & _ & _ & _ & _ & _ & Es & Hge).
  apply Hh in Es. lia.
Qed.

Lemma init_block_loop_steps block txs i g s :
  nothing_yet (blk_height block) s -> state_inv g s -> txs_ok (namespace (binding s)) g txs ->
  Z.of_nat (i + length txs) <= u32_max + 1 ->
  exists evs, init_block_loop block i txs s = (s, Ok evs) /\
    txs_steps block (Z.of_nat i) txs s s evs.
Proof.
  intros Hn. revert i g. induction txs as [|tx txs IH]; intros i g Hinv Hok Hl.
  { eexists. split; [done|constructor]. }
  destruct Hok as [Htx Hok]. cbn [init_block_loop length] in *.
  rewrite (try_index _ (length txs)) by done. unfold st_bind at 1, st_lift, ok_or.
  unfold st_bind at 1, st_get.
  assert (Hone : exists e1, (if decide (tx_txid tx = init_txid (binding s))
      then st_ret [valid_init_event s block tx (Z.of_nat i)]
      else process_transaction block tx (Z.of_nat i)) s = (s, Ok e1) /\
      block_step block (Z.of_nat i) tx s s e1).
  { case_decide as Hi.
    - eexists. split; [done|]. apply bs_init; [done|]. apply empty_carrier_spends, Hn.
    - destruct (process_transaction_step block tx (Z.of_nat i) s) as (s1 & e1 & Hp & Hs);
        [apply Htx|by eapply index_chapters, si_index|].
      pose proof (tx_step_nothing _ _ _ _ _ _ Hn Hs) as ->. eexists. split; [done|by apply bs_tx]. }
  destruct Hone as (e1 & He & Hs1). unfold st_bind at 1. rewrite He.
  destruct (IH (S i) (ledger_tx tx g)) as (e2 & Hl2 & Hs2); [by eapply block_step_inv|done|lia|].
  unfold st_bind. rewrite Hl2. eexists. split; [done|].
  econstructor; [done|]. by replace (Z.of_nat i + 1) with (Z.of_nat (S i)) by lia.
Qed.

(** ** Dispatch *)

Lemma awaiting_empty txids s :
  index_ok txids s -> (forall ih ho hc, protocol_status s <> PActive ih ho hc) ->
  objects s = ∅ /\ active s = ∅.
Proof.
  intros Hix Hs.
  assert (Ho : objects s = ∅).
  { apply map_empty. intros k. destruct (objects s !! k) as [o|] eqn:E; [|done].
    apply Hix in E as (_ & [_ _ _ _ _ _ (ih & ho & hc & Ep & _)] & _). by destruct (Hs ih ho hc). }
  split; [done|]. apply map_empty. intros op. destruct (active s !! op) as [k|] eqn:E; [|done].
  apply Hix in E as (o & Hk & _). by rewrite Ho in Hk.
Qed.

Lemma state_inv_set_status g s ps :
  state_inv g s -> objects s = ∅ -> active s = ∅ -> state_inv g (set_status ps s).
Proof.
  intros [Hwf Hix Hb] Ho Ha. split; [done| |].
  - split; simpl; [intros k o Hk; by rewrite Ho in Hk|].
    intros op k. rewrite Ha. split; [done|]. intros (o & Hk & _). by rewrite Ho in Hk.
  - intros op k o. simpl. by rewrite Ha.
Qed.

Lemma txs_steps_inv g s block i txs s' evs :
  state_inv g s -> txs_ok (namespace (binding s)) g txs -> txs_steps block i txs s s' evs ->
  state_inv (ledger_txs txs g) s'.
Proof.
  intros Hinv Hok Hs. revert g Hinv Hok. induction Hs as [|i tx txs s s1 s2 e1 e2 H1 _ IH];
    intros g Hinv Hok; [done|]. destruct Hok as [Htx Hok]. apply IH; [by eapply block_step_inv|].
  apply block_step_frame in H1 as (Eb & _). by rewrite Eb.
Qed.

Lemma dispatch_inv g s block s1 evs :
  state_inv g s -> txs_ok (namespace (binding s)) g (transactions block) ->
  dispatch block s s1 evs -> state_inv (ledger_txs (transactions block) g) s1.
Proof.
  intros Hinv Hok Hd.
  assert (Hquiet : forall s', state_inv g s' -> binding s' = binding s -> active s' = ∅ ->
    state_inv (ledger_txs (transactions block) g) s').
  { clear Hinv Hd. intros s' Hinv Eb Ha. rewrite <- Eb in Hok. revert g Hinv Hok.
    induction (transactions block) as [|tx txs IH]; intros g Hinv Hok; [done|].
    destruct Hok as [Htx Hok]. apply IH; [|done]. apply step_inv_quiet; [done..|].
    by apply empty_carrier_spends. }
  destruct Hd as [s1 evs ih ho hc Es Hs|i tx p evs Es Hi Ht Hr s0 Hs|i tx r Es Hi Ht He|r ih Es].
  - by eapply txs_steps_inv.
  - destruct (awaiting_empty _ _ (si_index _ _ Hinv)) as [Ho Ha]; [by rewrite Es|].
    apply Hquiet; [by apply state_inv_set_status|done..].
  - destruct (awaiting_empty _ _ (si_index _ _ Hinv)) as [Ho Ha]; [by rewrite Es|].
    apply Hquiet; [by apply state_inv_set_status|done..].
  - destruct (awaiting_empty _ _ (si_index _ _ Hinv)) as [Ho Ha]; [by rewrite Es|]. by apply Hquiet.
Qed.

(** The code dispatches every block of a canonical chain, with no panic and no error but the
    missing INIT. *)
Lemma block_events_dispatch g s block :
  state_inv g s -> txs_ok (namespace (binding s)) g (transactions block) ->
  len (transactions block) <= u32_max ->
  (protocol_status s = AwaitingInit ->
     Exists (fun tx => tx_txid tx = init_txid (binding s)) (transactions block)) ->
  exists s1 evs, block_events block s = (s1, Ok evs) /\ dispatch block s s1 evs.
Proof.
  intros Hinv Hok Hl Hinit. unfold block_events, st_bind at 1, st_get.
  destruct (protocol_status s) as [|ih ho hc|r ih] eqn:Es.
  - destruct (awaiting_empty _ _ (si_index _ _ Hinv)) as [Ho Ha]; [by rewrite Es|].
    destruct (list_find _ _) as [[i tx]|] eqn:Ef.
    2: { apply list_find_None in Ef. apply Forall_Exists_neg in Ef. destruct Ef. by apply Hinit. }
    apply list_find_Some in Ef as (Hlk & Ht & _). pose proof (lookup_lt_Some _ _ _ Hlk).
    assert (try_from u32_max (Z.of_nat i) = Some (Z.of_nat i)) as ->
      by (apply try_from_Some; unfold len in Hl; lia).
    unfold st_bind at 1, st_lift, ok_or.
    pose proof (validate_configured_init_returns (binding s) (blk_height block) tx) as Hret.
    destruct (validate_configured_init _ _ tx) as [p|r|] eqn:Ev; [| |done].
    + apply init_rule_sound in Ev.
      assert (Hlead : blk_height block < ip_h_open p).
      { destruct Ev as (? & ? & ? & ? & ? & ? & Hr). unfold INIT_LEAD in Hr. intuition lia. }
      unfold st_bind, st_modify.
      destruct (init_block_loop_steps block (transactions block) 0 g
        (set_status (PActive (blk_height block) (ip_h_open p) (ip_h_close p)) s))
        as (evs & He & Hs).
      { split_and!; [done..|]. intros ih' ho' hc' [= <- <- <-]. done. }
      { by apply state_inv_set_status. }
      { done. }
      { unfold len in Hl. lia. }
      do 2 eexists. split; [exact He|]. by eapply d_init.
    + do 2 eexists. split; [done|]. by eapply d_failed.
  - destruct (active_block_loop_steps block (transactions block) 0 g s) as (s1 & evs & He & Hs);
      [done..|unfold len in Hl; lia|].
    do 2 eexists. split; [done|]. by eapply d_active.
  - do 2 eexists. split; [done|]. by eapply d_inert.
Qed.

(** ** Canonical chains *)

Inductive reachable (b : Binding) : Ledger -> ChainState -> Prop :=
| reach_new : reachable b empty_ledger (new_state b)
| reach_block g s block s' d :
    reachable b g s -> txs_ok (namespace b) g (transactions block) ->
    apply_block block s = (s', Ok d) ->
    reachable b (ledger_txs (transactions block) g) s'.

Lemma state_inv_new b : state_inv empty_ledger (new_state b).
Proof.
  split; [by intros op out| |by intros op k o].
  split; [by intros k o|]. intros op k. split; [done|]. by intros (o & ? & _).
Qed.

Lemma state_inv_set_tip g s h hash root : state_inv g s -> state_inv g (set_tip h hash root s).
Proof. intros [Hwf Hix Hb]. split; [done| |done]. destruct Hix as [Ho Ha]. by split. Qed.

Lemma dispatch_binding block s s1 evs : dispatch block s s1 evs -> binding s1 = binding s.
Proof. destruct 1 as [s1 evs ih ho hc _ Hs| | |]; [|done..]. by apply txs_steps_frame in Hs as (? & _). Qed.

Lemma dispatch_chained_root block s s1 evs : dispatch block s s1 evs -> chained_root s1 = chained_root s.
Proof.
  destruct 1 as [s1 evs ih ho hc _ Hs| | |]; [|done..].
  by apply txs_steps_frame in Hs as (_ & _ & _ & _ & ?).
Qed.

Lemma apply_block_dispatch g s block s' d :
  state_inv g s -> txs_ok (namespace (binding s)) g (transactions block) ->
  apply_block block s = (s', Ok d) ->
  exists s1 evs er orr,
    dispatch block s s1 evs /\ d = delta_of s block s1 evs er orr /\
    s' = set_tip (blk_height block) (blk_hash block) (hr_chained_root (bd_roots d)) s1 /\
    event_root (E := ReducerError) (namespace (binding s)) evs = Ok er /\
    object_state_root (E := ReducerError) (namespace (binding s)) (bt_values (objects s1)) = Ok orr.
Proof.
  intros Hinv Hok (Hlink & Hl & s1 & evs & er & orr & He & Her & Hor & Hd & Hs')%apply_block_Ok.
  destruct (block_events_dispatch g s block) as (s2 & evs2 & He2 & Hdis); [done..| |].
  { intros Es. destruct (decide (Exists (fun tx => tx_txid tx = init_txid (binding s)) (transactions block)))
      as [|Hn]; [done|]. apply Forall_Exists_neg in Hn.
    unfold block_events, st_bind, st_get in He. rewrite Es in He.
    by rewrite (proj2 (list_find_None _ _) Hn) in He. }
  assert (s2 = s1 /\ evs2 = evs) as [-> ->] by by (rewrite He in He2; simplify_eq).
  by exists s1, evs, er, orr.
Qed.

Lemma reachable_state_inv b g s : reachable b g s -> state_inv g s /\ binding s = b.
Proof.
  induction 1 as [|g s block s' d _ [Hinv <-] Hok Ha]; [split; [apply state_inv_new|done]|].
  destruct (apply_block_dispatch _ _ _ _ _ Hinv Hok Ha) as (s1 & evs & er & orr & Hd & -> & -> & _).
  split.
  - apply state_inv_set_tip. by eapply dispatch_inv.
  - simpl. by eapply dispatch_binding.
Qed.

(** C2: on every state that a canonical chain reaches, the object map and the active-carrier
    index describe the same live objects: an outpoint is indexed to a key exactly when the
    object stored under that key is Active and currently carried by that outpoint; and every
    stored object is well formed (its key derives from its creating transaction, its keys are a
    checked pair, chapters never exceed the sequence, a terminal object holds no outpoint, the
    founding flag is the window test of its creation height). *)
Theorem reachable_index b g s :
  reachable b g s ->
  (forall op k, active s !! op = Some k <->
     exists o, objects s !! k = Some o /\ status o = Active /\ current_outpoint o = op) /\
  (forall k o, objects s !! k = Some o ->
     object_key o = k /\ object_ok (protocol_status s) (namespace b) o).
Proof.
  intros Hr. destruct (reachable_state_inv _ _ _ Hr) as [[_ [Ho Ha] _] <-].
  split; [done|]. intros k o Hk. by apply Ho in Hk as (? & ? & _).
Qed.

(** C1: every live carrier of a reachable state is a real coin: the outpoint in the index is an
    output that the chain created and has not spent, worth exactly the carrier value and locked
    to the 2-of-2 script of the keys stored in the object.  In particular no spent carrier is
    ever left active. *)
Theorem reachable_backed b g s op k o :
  reachable b g s -> active s !! op = Some k -> objects s !! k = Some o ->
  coins g !! op = Some (mkOutput CARRIER_VALUE (carrier_script (keys o))).
Proof. intros Hr. destruct (reachable_state_inv _ _ _ Hr) as [[_ _ Hb] _]. apply Hb. Qed.

(** ** Money *)

(** The carrier a transaction spends is worth the carrier value. *)
Lemma spent_carrier_value g s tx i o inp :
  state_inv g s -> tx_ok (namespace (binding s)) g tx -> (i, o) ∈ carrier_spends s tx ->
  inputs tx !! i = Some inp -> prevout_value inp = CARRIER_VALUE.
Proof.
  intros [_ Hix Hb] Hok Hc Hi. destruct (carrier_spends_live _ s tx i o Hix Hc) as [(Ho & _ & Ha) (inp' & Hi' & Hp)].
  rewrite Hi in Hi'. injection Hi' as <-. rewrite <- Hp in Ha.
  by destruct (tok_resolved _ _ _ Hok inp _ (list_elem_of_lookup_2 _ _ _ Hi) (Hb _ _ _ Ha Ho)) as [_ ->].
Qed.

(** C22: operations and money.  In every state of a canonical chain (between two transactions the
    reducer keeps [state_inv]), a transaction that is accepted with the carrier it spends pays a
    positive fee and moves money as its operation prescribes: the parties of a CREATE and of a
    ROTATE share evenly to the satoshi, the sponsor of a MARK pays alone and the successor carrier
    keeps the full value, and the parties of a CLOSE, like those of a refund, get equal
    nonzero parts of the carrier less the fee. *)
Theorem operations_pay g s h tx :
  state_inv g s -> tx_ok (namespace (binding s)) g tx ->
  (forall m op, validate_single s h tx m (head (carrier_spends s tx)) = Ok op -> 0 < fee_of tx /\ money_rule tx op) /\
  (forall i o, (i, o) ∈ carrier_spends s tx -> validate_refund h tx o = Ok tt ->
     0 < fee_of tx /\ exists input out0 out1, inputs tx = [input] /\ outputs tx = [out0; out1] /\
       value out0 = value out1 /\ value out0 <> 0 /\ value out0 + value out1 + fee_of tx = CARRIER_VALUE).
Proof.
  intros Hinv Hok. split.
  - intros m op Ha. apply (accepted_money _ _ _ _ _ _ Ha). intros o i Hc Hi.
    eapply (spent_carrier_value g s tx); [done|done| |exact Hi]. by apply head_Some_elem_of in Hc.
  - intros i o Hc Hv. apply refund_rule_sound in Hv as (input & out0 & out1 & confirmed & _ & _ & Ein & Eout & Hrest).
    destruct Hrest as (_ & _ & _ & _ & _ & _ & _ & _ & _ & _ & Heq & Hnz & Hlt).
    assert (Hv : prevout_value input = CARRIER_VALUE).
    { destruct (carrier_spends_live _ s tx i o (si_index _ _ Hinv) Hc) as [_ (inp & Hi & _)].
      assert (inp = input) as -> by (rewrite Ein in Hi; apply list_lookup_singleton_Some in Hi as [_ ?]; done).
      by eapply spent_carrier_value. }
    unfold fee_of, total_in, total_out. rewrite Ein, Eout. cbn. split; [lia|]. do 3 eexists. split_and!; [done..|lia].
Qed.

(** A linked block of a canonical chain is applied. *)
Lemma reachable_advance b g s block :
  reachable b g s -> txs_ok (namespace b) g (transactions block) ->
  validate_linkage s block = Ok tt -> len (transactions block) <= u32_max ->
  (protocol_status s = AwaitingInit ->
     Exists (fun tx => tx_txid tx = init_txid b) (transactions block)) ->
  exists s' d, apply_block block s = (s', Ok d) /\
    reachable b (ledger_txs (transactions block) g) s'.
Proof.
  intros Hr Hok Hlink Hl Hinit. destruct (reachable_state_inv _ _ _ Hr) as [Hinv Eb].
  destruct (block_events_dispatch g s block) as (s1 & evs & He & _); [by rewrite ?Eb..|].
  destruct (event_root_total (E := ReducerError) (namespace (binding s)) evs) as [er Her].
  destruct (object_state_root_total (E := ReducerError) (namespace (binding s)) (bt_values (objects s1)))
    as [orr Hor].
  assert (Ha : exists s' d, apply_block block s = (s', Ok d)).
  { do 2 eexists. apply apply_block_Ok. split_and!; [done..|]. by exists s1, evs, er, orr. }
  destruct Ha as (s' & d & Ha). exists s', d. split; [done|]. by eapply reach_block.
Qed.
End Reach.
