(* ===== verification/Lifecycle.v ===== *)
(** * Object lifecycles

    An abstract state machine for one object, and the proof that the reducer refines it: every
    transaction moves every object along at most one edge of the machine, so that over a whole
    chain objects keep their identity, counters only grow and terminal objects are final. *)

From S2P Require Import Prelude Types Marker Roots Reducer Validators Steps Invariant Chain Reach.

(** ** The abstract machine *)

(** What never changes in an object's life. *)
Definition same_identity (o o' : ObjectState) : Prop :=
  object_key o' = object_key o /\ genesis o' = genesis o /\ founding o' = founding o /\
  create_height o' = create_height o.

Inductive life : option ObjectState -> option ObjectState -> Prop :=
| life_stay x : life x x
| life_created o :
    status o = Active -> state_seq o = 0 -> chapter_count o = 0 ->
    current_outpoint o = genesis o -> life None (Some o)
| life_marked o o' :
    same_identity o o' -> status o = Active -> status o' = Active ->
    state_seq o' = state_seq o + 1 -> chapter_count o' = chapter_count o + 1 ->
    keys o' = keys o -> life (Some o) (Some o')
| life_rotated o o' :
    same_identity o o' -> status o = Active -> status o' = Active ->
    state_seq o' = state_seq o + 1 -> chapter_count o' = chapter_count o ->
    keys o' <> keys o -> life (Some o) (Some o')
| life_closed o o' :
    same_identity o o' -> status o = Active -> status o' = Closed ->
    state_seq o' = state_seq o + 1 -> chapter_count o' = chapter_count o ->
    keys o' = keys o -> life (Some o) (Some o')
| life_ended o o' :
    same_identity o o' -> status o = Active -> status o' = Refunded \/ status o' = ExitedNoncanonical ->
    state_seq o' = state_seq o -> chapter_count o' = chapter_count o ->
    keys o' = keys o -> life (Some o) (Some o').

(** The order that the machine respects: an object is never lost or renamed, its counters only
    grow, and a terminal object is final. *)
Definition evolves (x x' : option ObjectState) : Prop :=
  match x, x' with
  | None, _ => True
  | Some _, None => False
  | Some o, Some o' =>
      same_identity o o' /\ state_seq o <= state_seq o' /\ chapter_count o <= chapter_count o' /\
      (status o <> Active -> o' = o)
  end.

Lemma evolves_refl x : evolves x x.
Proof. destruct x; [|done]. repeat split; lia || done. Qed.

#[global] Instance evolves_preorder : PreOrder evolves.
Proof.
  split; [exact evolves_refl|]. intros [o1|] [o2|] [o3|]; simpl; try done.
  intros ((?&?&?&?) & ? & ? & H12) ((?&?&?&?) & ? & ? & H23). unfold same_identity.
  split_and!; try congruence; try lia. intros Hs. specialize (H12 Hs). subst. auto.
Qed.

Lemma life_evolves x x' : life x x' -> evolves x x'.
Proof.
  destruct 1; [apply evolves_refl|done|..]; simpl; split_and!; try done; try lia; by intros Hn.
Qed.

Section Lifecycle.
Context {P : Primitives}.

(** ** Every transaction follows the machine *)

Lemma life_insert s key (o o' : ObjectState) k :
  objects s !! key = Some o -> life (Some o) (Some o') ->
  life (objects s !! k) (<[key := o']> (objects s) !! k).
Proof.
  intros Ho Hl. destruct (decide (k = key)) as [->|Hne].
  - by rewrite lookup_insert_eq, Ho.
  - rewrite lookup_insert_ne by done. constructor.
Qed.

Lemma life_alter s key f (o : ObjectState) k :
  objects s !! key = Some o -> life (Some o) (Some (f o)) ->
  life (objects s !! k) (alter f key (objects s) !! k).
Proof.
  intros Ho Hl. destruct (decide (k = key)) as [->|Hne].
  - by rewrite lookup_alter_eq, Ho.
  - rewrite lookup_alter_ne by done. constructor.
Qed.

Lemma life_terminated st txid o :
  status o = Active -> st = Refunded \/ st = ExitedNoncanonical ->
  life (Some o) (Some (terminated st txid o)).
Proof. intros Hs Hst. by apply life_ended. Qed.

Lemma tx_step_life g s block tx txi s' evs k :
  state_inv g s -> tx_ok (namespace (binding s)) g tx -> tx_step block tx txi s s' evs ->
  life (objects s !! k) (objects s' !! k).
Proof.
  intros Hinv Hok Hstep. pose proof (si_index _ _ Hinv) as Hix.
  assert (Hlive : forall i o, carrier_spends s tx = [(i, o)] ->
    objects s !! object_key o = Some o /\ status o = Active).
  { intros i o Hc. destruct (carrier_spends_live _ s tx i o Hix) as [(? & ? & _) _]; [|done].
    rewrite Hc. constructor. }
  destruct Hstep as [Hc _|evi ty r ns Hc _ _ _|evi r ns Hne _ _|i o Hc _ Hr|c m op Em Hp Hl [Hhd Hop]].
  - constructor.
  - constructor.
  - rewrite exit_all_objects. case_decide as Hk; [|constructor].
    apply list_elem_of_fmap in Hk as ([i o] & -> & Hin%sorted_carriers_elem).
    destruct (carrier_spends_live _ s tx i o Hix Hin) as [(Ho & Hs & _) _].
    cbn [snd]. rewrite Ho. apply life_terminated; auto.
  - apply Hlive in Hc as [Ho Hs]. eapply life_alter; [done|]. apply life_terminated; auto.
  - destruct op as [kp|o seq com|o seq kp|o seq com].
    + destruct Hop as (_ & (? & ? & ? & ? & ? & ? & ? & ? & ? & ih & ho & hc & Hr)).
      destruct Hr as (_ & _ & _ & _ & _ & _ & _ & _ & _ & _ & _ & _ & _ & _ & _ & _ & _ & Es & _).
      unfold op_state. rewrite Es. cbn [objects set_maps].
      destruct (decide (k = derive_object_key (namespace (binding s)) (tx_txid tx))) as [->|Hne].
      * rewrite lookup_insert_eq, (create_key_fresh _ _ _ Hix Hok). by apply life_created.
      * rewrite lookup_insert_ne by done. constructor.
    + destruct Hop as (_ & Hh & (? & ? & ? & ? & ? & ? & ? & Hr)).
      destruct Hr as (_ & _ & _ & _ & _ & _ & _ & _ & _ & _ & _ & _ & _ & _ & _ & _ & Hseq & _).
      apply transition_carrier in Hh; [|done]. apply Hlive in Hh as [Ho Hs].
      eapply life_insert; [done|]. by apply life_marked.
    + destruct Hop as (_ & Hh & (? & ? & ? & ? & ? & ? & ? & ? & ? & ? & Hr)).
      destruct Hr as (_ & _ & _ & _ & _ & _ & _ & _ & _ & Hne & _ & _ & _ & _ & _ & _ & _ & _ & _ & _ & Hseq & _).
      apply transition_carrier in Hh; [|done]. apply Hlive in Hh as [Ho Hs].
      eapply life_insert; [done|]. by apply life_rotated.
    + destruct Hop as (_ & Hh & (? & ? & ? & ? & ? & Hr)).
      destruct Hr as (_ & _ & _ & _ & _ & _ & _ & _ & _ & _ & _ & _ & _ & _ & _ & _ & Hseq & _).
      apply transition_carrier in Hh; [|done]. apply Hlive in Hh as [Ho Hs].
      eapply (life_alter s _ (with_state_seq seq ∘ terminated Closed (tx_txid tx))); [done|].
      by apply life_closed.
Qed.

(** Chains of life steps, object by object, over a block. *)
Definition lives (s s' : ChainState) : Prop :=
  forall k, rtc life (objects s !! k) (objects s' !! k).

Lemma txs_steps_lives g s block i txs s' evs :
  state_inv g s -> txs_ok (namespace (binding s)) g txs -> txs_steps block i txs s s' evs ->
  lives s s'.
Proof.
  intros Hinv Hok Hs. revert g Hinv Hok. induction Hs as [|i tx txs s s1 s2 e1 e2 H1 _ IH];
    intros g Hinv Hok; [by intros k|]. destruct Hok as [Htx Hok].
  assert (H2 : lives s1 s2).
  { eapply IH; [by eapply block_step_inv|]. apply block_step_frame in H1 as (Eb & _). by rewrite Eb. }
  intros k. destruct H1 as [s1 evs Ht|Hi Hc]; [|apply H2].
  eapply rtc_l; [by eapply tx_step_life|apply H2].
Qed.

Lemma dispatch_lives g s block s1 evs :
  state_inv g s -> txs_ok (namespace (binding s)) g (transactions block) ->
  dispatch block s s1 evs -> lives s s1.
Proof.
  intros Hinv Hok. destruct 1 as [s1 evs ih ho hc Es Hs| | |]; [by eapply txs_steps_lives|intros k; apply rtc_refl..].
Qed.

(** C3: the reducer refines the object state machine: over any block of a canonical chain, every
    object key follows a path of the machine, absent to Active, Active to Active by one MARK or
    one ROTATE step, Active to Closed, Refunded or ExitedNoncanonical; no other change of an
    object is possible. *)
Theorem apply_block_lives b g s block s' d k :
  reachable b g s -> txs_ok (namespace b) g (transactions block) ->
  apply_block block s = (s', Ok d) -> rtc life (objects s !! k) (objects s' !! k).
Proof.
  intros Hr Hok Ha. destruct (reachable_state_inv _ _ _ Hr) as [Hinv <-].
  destruct (apply_block_dispatch _ _ _ _ _ Hinv Hok Ha) as (s1 & evs & er & orr & Hd & _ & -> & _).
  by eapply (dispatch_lives _ _ _ _ _ Hinv Hok Hd).
Qed.

(** ** Histories *)

Inductive continues (b : Binding) (g : Ledger) (s : ChainState) : Ledger -> ChainState -> Prop :=
| cont_here : continues b g s g s
| cont_block g1 s1 block s2 d :
    continues b g s g1 s1 -> txs_ok (namespace b) g1 (transactions block) ->
    apply_block block s1 = (s2, Ok d) ->
    continues b g s (ledger_txs (transactions block) g1) s2.

Lemma continues_reachable b g s g' s' :
  reachable b g s -> continues b g s g' s' -> reachable b g' s'.
Proof. intros Hr. induction 1; [done|]. by eapply reach_block. Qed.

Lemma rtc_life_evolves x x' : rtc life x x' -> evolves x x'.
Proof.
  induction 1 as [|x y z H1 _ IH]; [apply evolves_refl|]. etrans; [by apply life_evolves|done].
Qed.

(** Along any continuation of a canonical chain an object is never deleted and never changes
    its key, genesis, founding flag or creation height; its sequence and chapter counters never
    decrease; and once it is Closed, Refunded or ExitedNoncanonical it never changes again. *)
Lemma objects_evolve b g s g' s' k o :
  reachable b g s -> continues b g s g' s' -> objects s !! k = Some o ->
  exists o', objects s' !! k = Some o' /\ same_identity o o' /\
    state_seq o <= state_seq o' /\ chapter_count o <= chapter_count o' /\
    (status o <> Active -> o' = o).
Proof.
  intros Hr Hc Ho. assert (He : evolves (objects s !! k) (objects s' !! k)).
  { induction Hc as [|g1 s1 block s2 d Hc IH Hok Ha]; [apply evolves_refl|].
    etrans; [exact IH|]. pose proof (continues_reachable _ _ _ _ _ Hr Hc) as Hr1.
    destruct (reachable_state_inv _ _ _ Hr1) as [Hinv <-].
    destruct (apply_block_dispatch _ _ _ _ _ Hinv Hok Ha) as (s3 & evs & er & orr & Hd & _ & -> & _).
    apply rtc_life_evolves. by eapply (dispatch_lives _ _ _ _ _ Hinv Hok Hd). }
  rewrite Ho in He. simpl in He. destruct (objects s' !! k) as [o'|]; [|done]. by exists o'.
Qed.
End Lifecycle.
