(* ===== verification/Counting.v ===== *)
(** * What the counters count

    The counters that enter every block root, as numbers of the carrier index and the ledger. *)

From S2P Require Import Prelude Types Marker Roots Reducer Validators Steps Invariant Chain Reach.

Section Counting.
Context {P : Primitives}.

Lemma values_keys txids s : index_ok txids s -> object_key <$> bt_values (objects s) = fst <$> bt_entries (objects s).
Proof.
  intros [Ho _]. unfold bt_values. rewrite <- list_fmap_compose. apply list_fmap_ext.
  intros i [k o] Hi. apply list_elem_of_lookup_2, elem_of_bt_entries, Ho in Hi. by destruct Hi as (Hk & _).
Qed.

Definition active_list (s : ChainState) : list ObjectState :=
  filter (fun o => status o = Active) (bt_values (objects s)).

Lemma elem_of_values s o : o ∈ bt_values (objects s) <-> exists k, objects s !! k = Some o.
Proof.
  unfold bt_values. rewrite list_elem_of_fmap. setoid_rewrite <- elem_of_bt_entries. split.
  - intros ([k o'] & -> & Hin). by exists k.
  - intros [k Hin]. by exists (k, o).
Qed.

(** The carrier index lists the active objects, one entry each. *)
Lemma active_index_list txids s :
  index_ok txids s -> map_to_list (active s) ≡ₚ (fun o => (current_outpoint o, object_key o)) <$> active_list s.
Proof.
  intros Hix. apply NoDup_Permutation; [apply NoDup_map_to_list| |].
  - apply (NoDup_fmap_1 snd). rewrite <- list_fmap_compose. unfold active_list.
    apply (sublist_NoDup _ (object_key <$> bt_values (objects s))).
    + rewrite (values_keys _ _ Hix). apply bt_entries_NoDup.
    + apply fmap_sublist, sublist_filter.
  - intros [op k]. rewrite elem_of_map_to_list, list_elem_of_fmap. destruct Hix as [Ho Ha]. rewrite Ha.
    unfold active_list. setoid_rewrite list_elem_of_filter. setoid_rewrite elem_of_values. split.
    + intros (o & Hk & Hs & <-). exists o. apply Ho in Hk as Hk'. destruct Hk' as (-> & _). eauto.
    + intros (o & [= -> ->] & Hs & k1 & Hk). apply Ho in Hk as Hk'. destruct Hk' as (<- & _). eauto.
Qed.

(** The counters of a reachable state are sizes, and bounded by the number of transactions. *)
Lemma counters_bound b g s :
  reachable b g s ->
  active_objects (counters s) = Z.of_nat (size (active s)) /\
  0 <= founding_created (counters s) <= all_objects (counters s) /\
  0 <= active_objects (counters s) <= all_objects (counters s) /\
  all_objects (counters s) <= Z.of_nat (size (seen g)).
Proof.
  intros Hr. destruct (reachable_state_inv _ _ _ Hr) as [[_ Hix _] _].
  assert (Hall : length (bt_values (objects s)) = size (objects s)).
  { unfold bt_values. by rewrite length_fmap, bt_entries_perm, length_map_to_list. }
  unfold counters, len. cbn [active_objects founding_created all_objects]. split_and!.
  - f_equal. rewrite <- length_map_to_list, (active_index_list _ _ Hix), length_fmap. done.
  - lia.
  - rewrite <- Hall. apply inj_le, length_filter.
  - lia.
  - rewrite <- Hall. apply inj_le, length_filter.
  - rewrite <- Hall. apply inj_le.
    set (txids := (fun o => op_txid (genesis o)) <$> bt_values (objects s)).
    assert (Hin : txids ⊆ elements (seen g)).
    { intros t (o & -> & [k Hk]%elem_of_values)%list_elem_of_fmap. apply Hix in Hk as (_ & _ & Hs).
      by apply elem_of_elements. }
    assert (Hnd : NoDup txids).
    { apply (NoDup_fmap_1 (derive_object_key (namespace (binding s)))). unfold txids.
      rewrite <- list_fmap_compose. erewrite list_fmap_ext; [by rewrite (values_keys _ _ Hix); apply bt_entries_NoDup|].
      intros i o Hi. apply list_elem_of_lookup_2, elem_of_values in Hi as [k Hk].
      apply Hix in Hk as (_ & [_ _ _ [Hg _] _ _ _] & _). done. }
    transitivity (length txids); [unfold txids; by rewrite length_fmap|].
    change (size (seen g)) with (length (elements (seen g))). apply submseteq_length.
    apply NoDup_submseteq; [done|]. intros t. apply Hin.
Qed.

(** C40: bounds of the counters: on a canonical chain the number of active objects is the size of
    the carrier index, founding and active objects are among all objects, and there are at most
    as many objects as transactions the chain has had, so that none of the three 64-bit counters
    of a block root can overflow before the chain has 2^64 transactions. *)
Theorem counters_bounded b g s :
  reachable b g s ->
  active_objects (counters s) = Z.of_nat (size (active s)) /\
  0 <= founding_created (counters s) <= all_objects (counters s) /\
  0 <= active_objects (counters s) <= all_objects (counters s) /\
  all_objects (counters s) <= Z.of_nat (size (seen g)).
Proof. apply counters_bound. Qed.
End Counting.
