(* ===== verification/EventLog.v ===== *)
(** * The event log

    A second view of the reducer's history.  The events of a block are strictly ordered by the
    key the database and the event root sort them by, every event is labelled consistently and
    fits its fixed-width encoding, and folding the log over the object map reproduces the
    reducer's objects: an observer who has only the events knows the whole object state. *)

From S2P Require Import Prelude Types Marker Roots Reducer Validators Steps Invariant Chain Reach.

(** ** Replaying events *)

(** The founding flag of an object created at [height]. *)
Definition founding_at (ps : ProtocolStatus) (height : Z) : bool :=
  match ps with
  | PActive _ h_open h_close => bool_decide (h_open <= height /\ height < h_close)
  | _ => false
  end.

(** What one event says about the objects. *)
Definition replay_event (ps : ProtocolStatus) (m : gmap Hash32 ObjectState) (e : Event) :
  gmap Hash32 ObjectState :=
  let k := ev_object_key e in
  let kp := mkKeyPair (ev_key0 e) (ev_key1 e) in
  match validity_class e, event_type e with
  | ValidOperation, EvCreate =>
      <[k := mkObject k (successor e) (founding_at ps (ev_height e)) Active (ev_height e) 0
               (successor e) kp hash_zero 0]> m
  | ValidOperation, EvMark =>
      alter (fun o => advanced o (successor e) (ev_state_seq e) kp (chapter_count o + 1)) k m
  | ValidOperation, EvRotate =>
      alter (fun o => advanced o (successor e) (ev_state_seq e) kp (chapter_count o)) k m
  | ValidOperation, EvClose =>
      alter (with_state_seq (ev_state_seq e) ∘ terminated Closed (ev_txid e)) k m
  | ValidOperation, EvRefund => alter (terminated Refunded (ev_txid e)) k m
  | TerminalNoncanonical, _ => alter (terminated ExitedNoncanonical (ev_txid e)) k m
  | _, _ => m
  end.

Definition replay (ps : ProtocolStatus) (m : gmap Hash32 ObjectState) (evs : list Event) :
  gmap Hash32 ObjectState :=
  foldl (replay_event ps) m evs.

Lemma insert_alter (m : gmap Hash32 ObjectState) k o f :
  m !! k = Some o -> <[k := f o]> m = alter f k m.
Proof.
  intros Hk. apply map_eq. intros j. destruct (decide (j = k)) as [->|Hne].
  - by rewrite lookup_insert_eq, lookup_alter_eq, Hk.
  - by rewrite lookup_insert_ne, lookup_alter_ne.
Qed.

Lemma keypair_eta kp : mkKeyPair (key0 kp) (key1 kp) = kp.
Proof. by destruct kp. Qed.

Section EventLog.
Context {P : Primitives}.

Lemma replay_exits ps block tx txi evi r ns sub cs s :
  replay ps (objects s) (exit_events block tx txi evi r ns sub cs) =
  objects (exit_all (tx_txid tx) cs s).
Proof.
  revert sub s. induction cs as [|c cs IH]; intros sub s; [done|].
  unfold exit_events. rewrite imap_cons, exit_all_cons. cbn [replay foldl].
  rewrite <- (IH (S sub)). unfold replay, exit_events. f_equal.
  apply imap_ext. intros i x _. simpl. f_equal. lia.
Qed.

Lemma tx_step_replay g s block tx txi s' evs :
  state_inv g s -> tx_step block tx txi s s' evs ->
  objects s' = replay (protocol_status s) (objects s) evs.
Proof.
  intros Hinv Hstep. pose proof (si_index _ _ Hinv) as Hix.
  assert (Hlive : forall i o, carrier_spends s tx = [(i, o)] -> objects s !! object_key o = Some o).
  { intros i o Hc. destruct (carrier_spends_live _ s tx i o Hix) as [(? & _) _]; [|done].
    rewrite Hc. constructor. }
  destruct Hstep as [Hc _|evi ty r ns Hc _ _ _|evi r ns Hne _ _|i o Hc _ Hr|c m op Em Hp Hl [Hhd Hop]];
    [done|done|by rewrite replay_exits|done|].
  destruct op as [kp|o seq com|o seq kp|o seq com].
  - destruct Hop as (_ & (? & ? & ? & ? & ? & ? & ? & ? & ? & ih & ho & hc & Hr)).
    destruct Hr as (_ & _ & _ & _ & _ & _ & _ & _ & _ & _ & _ & _ & _ & _ & _ & _ & _ & Es & _).
    cbn. rewrite Es. cbn. by rewrite keypair_eta.
  - destruct Hop as (_ & Hh & _). apply transition_carrier, Hlive in Hh; [|done].
    cbn. rewrite keypair_eta. by rewrite <- (insert_alter _ _ o).
  - destruct Hop as (_ & Hh & _). apply transition_carrier, Hlive in Hh; [|done].
    cbn. rewrite keypair_eta. by rewrite <- (insert_alter _ _ o).
  - done.
Qed.

Lemma replay_app ps m e1 e2 : replay ps m (e1 ++ e2) = replay ps (replay ps m e1) e2.
Proof. apply foldl_app. Qed.

Lemma txs_steps_replay g s block i txs s' evs :
  state_inv g s -> txs_ok (namespace (binding s)) g txs -> txs_steps block i txs s s' evs ->
  objects s' = replay (protocol_status s) (objects s) evs.
Proof.
  intros Hinv Hok Hs. revert g Hinv Hok. induction Hs as [|i tx txs s s1 s2 e1 e2 H1 _ IH];
    intros g Hinv Hok; [done|]. destruct Hok as [Htx Hok].
  destruct (block_step_frame _ _ _ _ _ _ H1) as (Eb & Ep & _).
  rewrite replay_app, <- Ep. rewrite (IH (ledger_tx tx g)); [|by eapply block_step_inv|by rewrite Eb].
  f_equal. destruct H1 as [s1 evs Ht|Hi Hc]; [|done]. rewrite Ep. by eapply tx_step_replay.
Qed.

Lemma apply_block_replay b g s block s' d :
  reachable b g s -> txs_ok (namespace b) g (transactions block) ->
  apply_block block s = (s', Ok d) ->
  objects s' = replay (protocol_status s') (objects s) (bd_events d).
Proof.
  intros Hr Hok Ha. destruct (reachable_state_inv _ _ _ Hr) as [Hinv <-].
  destruct (apply_block_dispatch _ _ _ _ _ Hinv Hok Ha) as (s1 & evs & er & orr & Hd & -> & -> & _).
  cbn. destruct Hd as [s1 evs ih ho hc Es Hs|i tx p evs Es Hi Ht Hru s0 Hs|i tx r Es Hi Ht He|r ih Es];
    try done.
  - destruct (txs_steps_frame _ _ _ _ _ _ Hs) as (_ & -> & _). by eapply txs_steps_replay.
  - destruct (awaiting_empty _ _ (si_index _ _ Hinv)) as [Ho Hact]; [by rewrite Es|].
    by eapply (txs_steps_replay g s0); [apply state_inv_set_status|..].
Qed.

(** An object on record was there before or was created at the height of its event. *)
Lemma replay_create_height ps m evs h k o :
  Forall (fun e => ev_height e = h) evs -> replay ps m evs !! k = Some o ->
  create_height o = h \/ exists o0, m !! k = Some o0 /\ create_height o0 = create_height o.
Proof.
  intros Hh. revert m. induction Hh as [|e evs He _ IH]; intros m Hk; [right; by exists o|].
  apply IH in Hk as [Hk|(o0 & Hk & E)]; [by left|].
  assert (Halter : forall f, (forall x, create_height (f x) = create_height x) ->
    alter f (ev_object_key e) m !! k = Some o0 ->
    exists o1, m !! k = Some o1 /\ create_height o1 = create_height o).
  { intros f Hf Ha. apply lookup_alter_Some in Ha as [(<- & x & Hx & ->)|[_ Ha]]; [|eauto].
    exists x. split; [done|]. by rewrite <- E, Hf. }
  unfold replay_event in Hk. destruct (validity_class e), (event_type e);
    try (right; eapply Halter; [|exact Hk]; by intros ?); try (right; by exists o0).
  apply lookup_insert_Some in Hk as [[_ <-]|[_ Hk]]; [left; by rewrite <- E|right; by exists o0].
Qed.

(** C15: the event log is complete: on a canonical chain, folding the events of a block over the
    object map before it gives the object map after it, every field of every object included.
    Nothing happens to an object without an event, and no event lies about what happened. *)
Theorem events_reconstruct b g s block s' d :
  reachable b g s -> txs_ok (namespace b) g (transactions block) ->
  apply_block block s = (s', Ok d) ->
  objects s' = replay (protocol_status s') (objects s) (bd_events d).
Proof. apply apply_block_replay. Qed.
End EventLog.

(** ** Order *)

Lemma Z_key_ltb (a b : Z) : key_ltb a b = true <-> a < b.
Proof. unfold key_ltb. cbn. lia. Qed.

Lemma pair_key_ltb {A B} `{!KeyOrd A, !KeyOrd B} (p q : A * B) :
  key_ltb p q = true <-> key_ltb p.1 q.1 = true \/ p.1 = q.1 /\ key_ltb p.2 q.2 = true.
Proof.
  unfold key_ltb at 1. cbn. unfold pair_leb.
  destruct (key_ltb q.1 p.1) eqn:E1.
  - split; [done|]. intros [H|[H _]]; [|by rewrite H, key_ltb_irrefl in E1].
    pose proof (key_leb_ltb_trans _ _ _ (key_ltb_leb _ _ E1) H) as Hc.
    by rewrite key_ltb_irrefl in Hc.
  - destruct (key_ltb p.1 q.1) eqn:E2; [naive_solver|]. unfold key_ltb in E1, E2.
    rewrite negb_false_iff in E1, E2. rewrite (key_leb_antisym p.1 q.1) by done.
    split; [by right|]. by intros [?|[_ ?]].
Qed.

(** Strictly later in the order [event_root] and the database use. *)
Lemma event_lt_iff e e' :
  key_lt event_key e e' <->
  tx_index e < tx_index e' \/
  tx_index e = tx_index e' /\
    (event_index e < event_index e' \/ event_index e = event_index e' /\ sub_index e < sub_index e').
Proof.
  unfold key_lt, event_key. rewrite pair_key_ltb. cbn [fst snd]. rewrite pair_key_ltb. cbn [fst snd].
  rewrite !Z_key_ltb. split.
  - intros [[?|[? ?]]|[E ?]]; [auto..|]. injection E as E1 E2. auto.
  - intros [?|[E1 [?|[E2 ?]]]]; [auto..|]. right. by rewrite E1, E2.
Qed.

Lemma StronglySorted_app_lt {A} (R : A -> A -> Prop) l1 l2 :
  StronglySorted R l1 -> StronglySorted R l2 -> (forall x y, x ∈ l1 -> y ∈ l2 -> R x y) ->
  StronglySorted R (l1 ++ l2).
Proof.
  induction 1 as [|x l1 Hl IH Hx]; intros H2 H12; simpl; [done|]. constructor.
  - apply IH; [done|]. intros a b Ha. apply H12. by constructor.
  - apply Forall_app. split; [done|]. apply Forall_forall. intros y Hy. apply H12; [constructor|done].
Qed.

(** ** Labels and widths *)

(** What every event of a block satisfies: it carries the block's identity and the ids of the
    transaction at its index, it is labelled [Valid] exactly when it is a valid operation, and
    its fields fit the leaf encoding. *)
Record event_ok (block : BlockView) (e : Event) : Prop := {
  eo_block : ev_block_hash e = blk_hash block /\ ev_height e = blk_height block;
  eo_tx : exists tx, transactions block !! Z.to_nat (tx_index e) = Some tx /\
            ev_txid e = tx_txid tx /\ ev_wtxid e = tx_wtxid tx;
  eo_label : ev_reason e = Valid <-> validity_class e = ValidOperation;
  eo_wf : event_wf e;
}.

(** The same relative to the transaction. *)
Record tx_event_ok (block : BlockView) (tx : TxView) (txi : Z) (e : Event) : Prop := {
  te_block : ev_block_hash e = blk_hash block /\ ev_height e = blk_height block;
  te_tx : tx_index e = txi /\ ev_txid e = tx_txid tx /\ ev_wtxid e = tx_wtxid tx;
  te_label : ev_reason e = Valid <-> validity_class e = ValidOperation;
  te_wf : event_wf e;
}.

Section Order.
Context {P : Primitives}.

Lemma exit_events_sorted block tx txi evi r ns sub cs :
  StronglySorted (key_lt event_key) (exit_events block tx txi evi r ns sub cs).
Proof.
  revert sub. induction cs as [|c cs IH]; intros sub; unfold exit_events; [constructor|].
  rewrite imap_cons. constructor.
  - specialize (IH (S sub)). unfold exit_events in IH. erewrite imap_ext; [exact IH|].
    intros i x _. simpl. f_equal. lia.
  - apply Forall_forall. intros e (i & x & -> & _)%elem_of_lookup_imap.
    apply event_lt_iff. simpl. lia.
Qed.

Lemma u32_0 : is_u32 0. Proof. unfold is_u32, u32_max. lia. Qed.
Lemma u32_1 : is_u32 1. Proof. unfold is_u32, u32_max. lia. Qed.
Lemma u32_max_u32 : is_u32 u32_max. Proof. unfold is_u32, u32_max. lia. Qed.
#[local] Hint Resolve u32_0 u32_1 u32_max_u32 : tandem.

Lemma live_widths txids s tx i o :
  index_ok txids s -> (i, o) ∈ carrier_spends s tx ->
  is_u32 (state_seq o) /\ is_u32 (op_vout (current_outpoint o)).
Proof.
  intros Hix Hc. destruct (carrier_spends_live _ s tx i o Hix Hc) as [(Ho & Hs & _) _].
  apply Hix in Ho as (_ & [Hch Hsq _ _ Ha _ _] & _). destruct (Ha Hs) as [_ ->].
  split; [unfold is_u32; lia|apply u32_1].
Qed.

Lemma tx_step_events g s block tx txi s' evs :
  state_inv g s -> tx_ok (namespace (binding s)) g tx -> is_u32 txi -> is_u64 (blk_height block) ->
  tx_step block tx txi s s' evs ->
  Forall (tx_event_ok block tx txi) evs /\ StronglySorted (key_lt event_key) evs.
Proof.
  intros Hinv Hok Hi Hh Hstep. pose proof (si_index _ _ Hinv) as Hix.
  assert (Hone : forall e, tx_event_ok block tx txi e ->
    Forall (tx_event_ok block tx txi) [e] /\ StronglySorted (key_lt event_key) [e]).
  { intros e He. split; repeat constructor; apply He. }
  destruct Hstep as [Hc _|evi ty r ns Hc _ He Hr|evi r ns Hne He Hr|i o Hc _ Hr|c m op Em Hp Hl [Hhd Hop]].
  - split; constructor.
  - apply Hone. split; [done|done|done|]. split; simpl; auto with tandem.
  - split; [|apply exit_events_sorted]. apply Forall_forall.
    intros e (i & [j o] & -> & Hlk)%elem_of_lookup_imap.
    assert (Hin : (j, o) ∈ carrier_spends s tx) by by eapply sorted_carriers_elem, list_elem_of_lookup_2.
    destruct (live_widths _ _ _ _ _ Hix Hin). split; [done|done|done|]. split; simpl; auto with tandem.
    apply lookup_lt_Some in Hlk. unfold sorted_carriers in Hlk. rewrite sort_by_key_perm in Hlk.
    pose proof (carrier_spends_length s tx). destruct Hok as [_ _ _ Hin32]. unfold len in Hin32.
    unfold is_u32. lia.
  - destruct (live_widths _ s tx i o Hix); [rewrite Hc; constructor|].
    apply Hone. split; [done|done|done|]. split; simpl; auto with tandem.
  - assert (Hv : is_u32 (mc_vout c)) by (eapply marker_candidates_vout; rewrite Em; constructor).
    assert (Hw : forall o, head (carrier_spends s tx) = Some (0%nat, o) ->
      is_u32 (state_seq o) /\ is_u32 (op_vout (current_outpoint o))).
    { intros o Hh'. eapply live_widths; [done|by apply head_elem]. }
    apply Hone. destruct op as [kp|o seq com|o seq kp|o seq com].
    + split; [done|done|done|]. split; simpl; auto with tandem.
    + destruct Hop as (_ & Hh' & (? & ? & ? & ? & ? & ? & ? & Hr)).
      destruct Hr as (_ & _ & _ & _ & _ & _ & _ & _ & _ & _ & _ & _ & _ & _ & _ & _ & Hseq & Hmx & _).
      destruct (Hw o Hh') as [[? ?] ?]. split; [done|done|done|]. split; simpl; auto with tandem.
      unfold is_u32; lia.
    + destruct Hop as (_ & Hh' & (? & ? & ? & ? & ? & ? & ? & ? & ? & ? & Hr)).
      destruct Hr as (_ & _ & _ & _ & _ & _ & _ & _ & _ & _ & _ & _ & _ & _ & _ & _ & _ & _ & _ & _ & Hseq & Hmx).
      destruct (Hw o Hh') as [[? ?] ?]. split; [done|done|done|]. split; simpl; auto with tandem.
      unfold is_u32; lia.
    + destruct Hop as (_ & Hh' & (? & ? & ? & ? & ? & Hr)).
      destruct Hr as (_ & _ & _ & _ & _ & _ & _ & _ & _ & _ & _ & _ & _ & _ & _ & _ & Hseq & Hmx & _).
      destruct (Hw o Hh') as [[? ?] ?]. split; [done|done|done|]. split; simpl; auto with tandem.
      unfold is_u32; lia.
Qed.

Lemma valid_init_event_ok s block tx txi :
  is_u32 txi -> is_u64 (blk_height block) ->
  tx_event_ok block tx txi (valid_init_event s block tx txi).
Proof.
  intros Hi Hh. split; [done|done|done|]. split; simpl; auto with tandem.
  apply first_vout_u32, Forall_forall. intros c. apply marker_candidates_vout.
Qed.

Lemma txs_steps_events g s block i txs s' evs :
  state_inv g s -> txs_ok (namespace (binding s)) g txs -> is_u64 (blk_height block) ->
  0 <= i -> i + len txs <= u32_max + 1 -> txs_steps block i txs s s' evs ->
  Forall (fun e => exists (j : nat) tx, txs !! j = Some tx /\ tx_event_ok block tx (i + Z.of_nat j) e) evs /\
  StronglySorted (key_lt event_key) evs.
Proof.
  intros Hinv Hok Hh Hi Hl Hs. revert g Hinv Hok Hi Hl.
  induction Hs as [|i tx txs s s1 s2 e1 e2 H1 _ IH]; intros g Hinv Hok Hi Hl; [split; constructor|].
  destruct Hok as [Htx Hok]. unfold len in Hl. cbn [length] in Hl.
  assert (H1' : Forall (tx_event_ok block tx i) e1 /\ StronglySorted (key_lt event_key) e1).
  { destruct H1 as [s1 evs Ht|? ?].
    - eapply tx_step_events; [done..| |done|done]. unfold is_u32. lia.
    - split; [|repeat constructor]. constructor; [|constructor].
      apply valid_init_event_ok; [unfold is_u32; lia|done]. }
  destruct H1' as [Hf1 Hs1]. destruct (block_step_frame _ _ _ _ _ _ H1) as (Eb & _).
  destruct (IH (ledger_tx tx g)) as [Hf2 Hs2];
    [by eapply block_step_inv|by rewrite Eb|lia|unfold len; lia|].
  split.
  - apply Forall_app. split.
    + eapply Forall_impl; [exact Hf1|]. intros e He. exists 0%nat, tx. split; [done|].
      by rewrite Z.add_0_r.
    + eapply Forall_impl; [exact Hf2|]. intros e (j & tx' & Hj & He). exists (S j), tx'.
      split; [done|]. by replace (i + Z.of_nat (S j)) with (i + 1 + Z.of_nat j) by lia.
  - apply StronglySorted_app_lt; [done..|]. intros x y Hx Hy. apply event_lt_iff. left.
    rewrite Forall_forall in Hf1, Hf2. apply Hf1 in Hx as [_ (-> & _) _ _].
    apply Hf2 in Hy as (j & tx' & _ & [_ (-> & _) _ _]). lia.
Qed.

Lemma tx_event_ok_block block tx (j : nat) e :
  transactions block !! j = Some tx -> tx_event_ok block tx (0 + Z.of_nat j) e -> event_ok block e.
Proof.
  intros Hj [Hb (Hi & Ht & Hw) Hl Hwf]. split; [done| |done|done]. exists tx. rewrite Hi.
  by replace (Z.to_nat (0 + Z.of_nat j)) with j by lia.
Qed.

Lemma invalid_event_ok b block tx (i : nat) r cfg :
  transactions block !! i = Some tx -> len (transactions block) <= u32_max ->
  is_u64 (blk_height block) -> r <> Valid ->
  event_ok block (invalid_event b block tx (Z.of_nat i) r cfg).
Proof.
  intros Hi Hl Hh Hr. pose proof (lookup_lt_Some _ _ _ Hi). unfold len in Hl.
  assert (Hvout : Forall (fun c => is_u32 (mc_vout c)) (marker_candidates tx b)).
  { apply Forall_forall. intros c. apply marker_candidates_vout. }
  apply (tx_event_ok_block _ tx i); [done|]. split; [done|split; [simpl; lia|done]|done|].
  split; simpl; auto with tandem; [unfold is_u32; lia|].
  destruct (marker_candidates tx b) as [|c [|c' cs]]; [apply u32_max_u32| |by apply min_vout_u32].
  by apply Forall_cons in Hvout as [? _].
Qed.

Lemma events_facts b g s block s' d :
  reachable b g s -> txs_ok (namespace b) g (transactions block) -> is_u64 (blk_height block) ->
  apply_block block s = (s', Ok d) ->
  StronglySorted (key_lt event_key) (bd_events d) /\ Forall (event_ok block) (bd_events d).
Proof.
  intros Hr Hok Hh Ha. destruct (reachable_state_inv _ _ _ Hr) as [Hinv <-].
  destruct (proj1 (apply_block_Ok _ _ _ _) Ha) as (_ & Hl & _).
  destruct (apply_block_dispatch _ _ _ _ _ Hinv Hok Ha) as (s1 & evs & er & orr & Hd & -> & _ & _).
  cbn [bd_events delta_of].
  assert (Hsteps : forall s0 s2, state_inv g s0 -> binding s0 = binding s ->
    txs_steps block 0 (transactions block) s0 s2 evs ->
    StronglySorted (key_lt event_key) evs /\ Forall (event_ok block) evs).
  { intros s0 s2 Hi0 Eb Hs. rewrite <- Eb in Hok.
    destruct (txs_steps_events g s0 block 0 (transactions block) s2 evs) as [Hf Hst];
      [done..|lia|lia|done|]. split; [done|].
    eapply Forall_impl; [exact Hf|]. intros e (j & tx & Hj & He). by eapply tx_event_ok_block. }
  destruct Hd as [s1 evs ih ho hc Es Hs|i tx p evs Es Hi Ht Hru s0 Hs|i tx r Es Hi Ht He|r ih Es].
  - by eapply Hsteps.
  - destruct (awaiting_empty _ _ (si_index _ _ Hinv)) as [Ho Hact]; [by rewrite Es|].
    by eapply (Hsteps s0); [apply state_inv_set_status|..].
  - pose proof (validate_configured_init_proper (binding s) (blk_height block) tx) as Hpr.
    rewrite He in Hpr. split; [repeat constructor|]. constructor; [|constructor].
    by apply invalid_event_ok.
  - split; constructor.
Qed.

Lemma events_sorted_wf b g s block s' d :
  reachable b g s -> txs_ok (namespace b) g (transactions block) -> is_u64 (blk_height block) ->
  apply_block block s = (s', Ok d) ->
  StronglySorted (key_lt event_key) (bd_events d) /\ Forall event_wf (bd_events d).
Proof.
  intros Hr Hok Hh Ha. destruct (events_facts _ _ _ _ _ _ Hr Hok Hh Ha) as [Hs Hf]. split; [done|].
  eapply Forall_impl; [exact Hf|]. by intros e [].
Qed.

(** C29: the events of every block of a canonical chain are strictly increasing in (transaction,
    output, sub-index), the key under which they are stored and sorted, so no two events collide
    and the sort inside [event_root] keeps the log's own order; and every event carries its
    block and transaction ids, has reason [Valid] exactly when it is a valid operation, and has
    every integer within the width its leaf encodes. *)
Theorem events_ordered b g s block s' d :
  reachable b g s -> txs_ok (namespace b) g (transactions block) -> is_u64 (blk_height block) ->
  apply_block block s = (s', Ok d) ->
  StronglySorted (key_lt event_key) (bd_events d) /\
  sort_by_key event_key (bd_events d) = bd_events d /\
  Forall (event_ok block) (bd_events d).
Proof.
  intros Hr Hok Hh Ha. destruct (events_facts _ _ _ _ _ _ Hr Hok Hh Ha) as [Hs Hf].
  split_and!; [done| |done]. by apply sort_by_key_id, key_lt_le.
Qed.
End Order.
