(* ===== verification/RootBinding.v ===== *)
(** * What the roots commit to

    Preimages are injective encodings, the three kinds of preimage of a tree have different
    lengths, and therefore two trees with the same root have the same leaves unless the hash
    function collides on one of the finitely many strings hashed to compute them.  Collision
    freedom is stated for exactly those strings, so the hypothesis can hold of a real digest.
    The last theorem lifts this to whole histories: equal chained roots mean the same blocks,
    the same events and the same committed objects at every height. *)

From Stdlib Require Import String.
From stdpp Require Import strings.
From S2P Require Import Prelude Types Marker Roots Reducer Validators Steps Invariant Chain Reach EventLog.

(** ** Preimages *)

Lemma byte_code_inj c1 c2 :
  0 <= c1 < 256 -> 0 <= c2 < 256 -> byte_of_Z c1 = byte_of_Z c2 -> c1 = c2.
Proof.
  intros H1 H2 E. apply (f_equal bval) in E. rewrite !bval_of_Z in E. by rewrite !Z.mod_small in E.
Qed.

Lemma event_type_code_range t : 0 <= event_type_code t < 256.
Proof. destruct t; simpl; lia. Qed.
Lemma validity_code_range v : 0 <= validity_code v < 256.
Proof. destruct v; simpl; lia. Qed.
Lemma status_code_range s : 0 <= status_code s < 256.
Proof. destruct s; simpl; lia. Qed.

Lemma app_wire_inv o1 o2 l1 l2 :
  wire_bytes o1 ++ l1 = wire_bytes o2 ++ l2 -> wire_bytes o1 = wire_bytes o2 /\ l1 = l2.
Proof. intros H. apply app_inj_1 in H; [done|]. by rewrite !wire_bytes_length. Qed.

Lemma app_byte_inv (a b : byte) l1 l2 : [a] ++ l1 = [b] ++ l2 -> a = b /\ l1 = l2.
Proof. by intros [= -> ->]. Qed.

(** Peel equal encodings field by field. *)
Ltac peel :=
  match goal with
  | H : arr_bytes _ ++ _ = arr_bytes _ ++ _ |- _ => apply app_arr_inv in H as [? H]
  | H : to_le ?n _ ++ _ = to_le ?n _ ++ _ |- _ =>
      let H' := fresh "Hle" in apply app_le_inv in H as [H' H]
  | H : wire_bytes _ ++ _ = wire_bytes _ ++ _ |- _ =>
      let H' := fresh "Hw" in apply app_wire_inv in H as [H' H]
  | H : [?a] ++ _ = [?b] ++ _ |- _ => let H' := fresh "Hb" in apply app_byte_inv in H as [H' H]
  end.

Lemma event_preimage_inj e1 e2 :
  event_wf e1 -> event_wf e2 -> event_preimage e1 = event_preimage e2 -> e1 = e2.
Proof.
  intros W1 W2 H. unfold event_preimage in H. apply app_inv_head in H. repeat peel.
  apply arr_eq in H.
  apply byte_code_inj in Hb; auto using event_type_code_range.
  apply byte_code_inj in Hb0; auto using validity_code_range.
  apply to_le_inj_u64 in Hle; [|apply W1|apply W2].
  apply to_le_inj_u32 in Hle0; [|apply W1|apply W2].
  apply to_le_inj_u32 in Hle1; [|apply W1|apply W2].
  apply to_le_inj_u32 in Hle2; [|apply W1|apply W2].
  apply to_le_inj_u16 in Hle3; auto using reason_code_u16.
  apply to_le_inj_u32 in Hle4; [|apply W1|apply W2].
  apply wire_bytes_inj in Hw; [|apply W1|apply W2].
  apply wire_bytes_inj in Hw0; [|apply W1|apply W2].
  apply event_type_code_inj in Hb. apply validity_code_inj in Hb0. apply reason_code_inj in Hle3.
  destruct e1, e2; simpl in *. by subst.
Qed.

(** The fields of an object that its leaf commits to. *)
Definition committed (o : ObjectState) :=
  (object_key o, founding o, status o, create_height o, state_seq o, leaf_outpoint o, keys o,
   leaf_terminal o, chapter_count o).

Lemma leaf_outpoint_u32 o : object_wf o -> is_u32 (op_vout (leaf_outpoint o)).
Proof.
  intros [_ _ Hv _]. unfold leaf_outpoint. case_decide; [done|]. unfold is_u32, u32_max. simpl. lia.
Qed.

Lemma object_preimage_committed o1 o2 :
  object_wf o1 -> object_wf o2 -> object_preimage o1 = object_preimage o2 ->
  committed o1 = committed o2.
Proof.
  intros W1 W2 H. unfold object_preimage in H. apply app_inv_head in H. repeat peel.
  pose proof (leaf_outpoint_u32 _ W1). pose proof (leaf_outpoint_u32 _ W2).
  apply byte_code_inj in Hb0; auto using status_code_range. apply status_code_inj in Hb0.
  apply to_le_inj_u64 in Hle; [|apply W1|apply W2].
  apply to_le_inj_u32 in Hle0; [|apply W1|apply W2].
  apply to_le_inj_u32 in H; [|apply W1|apply W2].
  apply wire_bytes_inj in Hw; [|done..].
  assert (founding o1 = founding o2) by by destruct (founding o1), (founding o2).
  assert (keys o1 = keys o2) by (destruct (keys o1), (keys o2); simpl in *; congruence).
  unfold committed. congruence.
Qed.

Record counters_wf (c : Counters) : Prop := {
  cwf_founding : is_u64 (founding_created c);
  cwf_all : is_u64 (all_objects c);
  cwf_active : is_u64 (active_objects c);
}.

Lemma block_preimage_inj ns1 p1 b1 h1 e1 o1 c1 ns2 p2 b2 h2 e2 o2 c2 :
  is_u64 h1 -> is_u64 h2 -> counters_wf c1 -> counters_wf c2 ->
  block_preimage ns1 p1 b1 h1 e1 o1 c1 = block_preimage ns2 p2 b2 h2 e2 o2 c2 ->
  ns1 = ns2 /\ p1 = p2 /\ b1 = b2 /\ h1 = h2 /\ e1 = e2 /\ o1 = o2 /\ c1 = c2.
Proof.
  intros Hh1 Hh2 W1 W2 H. unfold block_preimage in H. apply app_inv_head in H. repeat peel.
  apply to_le_inj_u64 in Hle; [|done..].
  apply to_le_inj_u64 in Hle0; [|apply W1|apply W2].
  apply to_le_inj_u64 in Hle1; [|apply W1|apply W2].
  apply to_le_inj_u64 in H; [|apply W1|apply W2].
  split_and!; try done. destruct c1, c2; simpl in *. by subst.
Qed.

(** ** Lengths keep the kinds of preimage apart *)

Lemma event_preimage_length e : length (event_preimage e) = 371%nat.
Proof. unfold event_preimage. by rewrite !length_app, !arr_length, !length_to_le, !wire_bytes_length. Qed.

Lemma object_preimage_length o : length (object_preimage o) = 204%nat.
Proof. unfold object_preimage. by rewrite !length_app, !arr_length, !length_to_le, !wire_bytes_length. Qed.

Lemma block_preimage_length ns p b h e o c : length (block_preimage ns p b h e o c) = 209%nat.
Proof. unfold block_preimage. by rewrite !length_app, !arr_length, !length_to_le. Qed.

Lemma node_preimage_length dom l r :
  length (node_preimage dom l r) = (length dom + 64)%nat.
Proof. unfold node_preimage. rewrite !length_app, !arr_length. lia. Qed.

Lemma node_preimage_inj dom l1 r1 l2 r2 :
  node_preimage dom l1 r1 = node_preimage dom l2 r2 -> l1 = l2 /\ r1 = r2.
Proof.
  unfold node_preimage. intros H%app_inv_head. apply app_arr_inv in H as [-> H]. split; [done|].
  by apply arr_eq.
Qed.

(** ** Trees *)

Section Trees.
Context {P : Primitives}.

(** No two of these strings collide. *)
Definition collision_free (xs : list (list byte)) : Prop :=
  forall x y, x ∈ xs -> y ∈ xs -> sha256 x = sha256 y -> x = y.

Lemma collision_free_mono xs ys : xs ⊆ ys -> collision_free ys -> collision_free xs.
Proof. intros Hs Hc x y Hx Hy. apply Hc; by apply Hs. Qed.

(** The strings hashed by one level, and by the whole reduction. *)
Fixpoint pair_preimages (dom : list byte) (l : list Hash32) : list (list byte) :=
  match l with
  | a :: b :: l' => node_preimage dom a b :: pair_preimages dom l'
  | _ => []
  end.

Definition level_preimages (dom : list byte) (l : list Hash32) : list (list byte) :=
  pair_preimages dom (merkle_pad l).

Fixpoint trace_preimages (dom : list byte) (rounds : nat) (l : list Hash32) : list (list byte) :=
  match rounds with
  | O => []
  | S r => level_preimages dom l ++ trace_preimages dom r (merkle_level dom l)
  end.

Definition merkle_preimages (dom : list byte) (l : list Hash32) : list (list byte) :=
  trace_preimages dom (Nat.log2_up (length l)) l.

Fixpoint levels (dom : list byte) (n : nat) (l : list Hash32) : list Hash32 :=
  match n with O => l | S n' => levels dom n' (merkle_level dom l) end.

Lemma merkle_pairs_map dom l : merkle_pairs dom l = sha256 <$> pair_preimages dom l.
Proof.
  induction l as [l IH] using (induction_ltof1 _ (@length _)); unfold ltof in IH.
  destruct l as [|a [|b l]]; [done..|]. simpl. f_equal. apply IH. simpl. lia.
Qed.

Lemma levels_snoc dom n l : levels dom (S n) l = merkle_level dom (levels dom n l).
Proof. revert l. induction n as [|n IH]; intros l; [done|]. simpl. apply IH. Qed.

Lemma pair_preimages_inj dom l1 l2 :
  Nat.Even (length l1) -> Nat.Even (length l2) ->
  pair_preimages dom l1 = pair_preimages dom l2 -> l1 = l2.
Proof.
  revert l2. induction l1 as [l1 IH] using (induction_ltof1 _ (@length _)); unfold ltof in IH.
  intros l2 [n1 E1] [n2 E2] H.
  destruct l1 as [|a1 [|b1 l1]], l2 as [|a2 [|b2 l2]]; simpl in *; try done; try lia.
  injection H as Hn Hr. apply node_preimage_inj in Hn as [-> ->]. f_equal; f_equal.
  apply IH; [lia|exists (n1 - 1)%nat; lia|exists (n2 - 1)%nat; lia|done].
Qed.

Lemma merkle_pad_even_length l : Nat.Even (length (merkle_pad l)).
Proof. exists ((length l + 1) / 2)%nat. apply merkle_pad_length. Qed.

(** Duplicating the odd last leaf is injective on lists without repetitions. *)
Lemma merkle_pad_inj l1 l2 : NoDup l1 -> NoDup l2 -> merkle_pad l1 = merkle_pad l2 -> l1 = l2.
Proof.
  assert (Hdup : forall (l l' : list Hash32) x, NoDup l' -> last l = Some x -> l' <> l ++ [x]).
  { intros l l' x Hn Hl ->. apply NoDup_app in Hn as (_ & Hd & _).
    apply (Hd x); [by apply last_Some_elem_of|constructor]. }
  intros H1 H2. unfold merkle_pad.
  destruct (Nat.odd (length l1)) eqn:O1, (Nat.odd (length l2)) eqn:O2; [| | |done].
  - destruct (last l1) eqn:E1; [|apply last_None in E1; by subst].
    destruct (last l2) eqn:E2; [|apply last_None in E2; by subst].
    by intros [? _]%app_inj_tail.
  - destruct (last l1) eqn:E1; [|done]. intros E. by destruct (Hdup l1 l2 h).
  - destruct (last l2) eqn:E2; [|done]. intros E. by destruct (Hdup l2 l1 h).
Qed.

Lemma map_sha_inj xs ys :
  collision_free (xs ++ ys) -> sha256 <$> xs = sha256 <$> ys -> xs = ys.
Proof.
  revert ys. induction xs as [|x xs IH]; intros [|y ys] Hc H; try done.
  injection H as Hx Hr. f_equal.
  - apply Hc; [set_solver|set_solver|done].
  - apply IH; [|done]. eapply collision_free_mono; [|done]. set_solver.
Qed.

Lemma map_sha_NoDup xs : collision_free xs -> NoDup xs -> NoDup (sha256 <$> xs).
Proof.
  intros Hc Hn. induction Hn as [|x xs Hx Hn IH]; simpl; constructor.
  - intros (y & E & Hy)%list_elem_of_fmap. apply Hc in E; [|set_solver..]. by subst.
  - apply IH. eapply collision_free_mono; [|done]. set_solver.
Qed.

Lemma merkle_level_inj dom l1 l2 :
  collision_free (level_preimages dom l1 ++ level_preimages dom l2) -> NoDup l1 -> NoDup l2 ->
  merkle_level dom l1 = merkle_level dom l2 -> l1 = l2.
Proof.
  intros Hc H1 H2. unfold merkle_level. rewrite !merkle_pairs_map.
  intros H%map_sha_inj; [|done]. apply pair_preimages_inj in H; [|apply merkle_pad_even_length..].
  by apply merkle_pad_inj.
Qed.

Lemma merkle_pad_cons2 (a b : Hash32) l : merkle_pad (a :: b :: l) = a :: b :: merkle_pad l.
Proof.
  unfold merkle_pad. change (length (a :: b :: l)) with (S (S (length l))).
  rewrite Nat.odd_succ, Nat.even_succ. destruct (Nat.odd (length l)) eqn:E; [|done].
  destruct l as [|c l]; [done|]. change (last (a :: b :: c :: l)) with (last (c :: l)).
  by destruct (last (c :: l)).
Qed.

Lemma elem_of_merkle_pad (x : Hash32) l : x ∈ merkle_pad l -> x ∈ l.
Proof.
  unfold merkle_pad. destruct (Nat.odd _); [|done]. destruct (last l) as [y|] eqn:E; [|done].
  intros [?|Hx%list_elem_of_singleton]%elem_of_app; [done|]. subst. by apply last_Some_elem_of.
Qed.

Lemma elem_of_pair_preimages dom l x :
  x ∈ pair_preimages dom l -> exists a b, x = node_preimage dom a b /\ a ∈ l.
Proof.
  induction l as [l IH] using (induction_ltof1 _ (@length _)); unfold ltof in IH.
  destruct l as [|a [|b l]]; [by intros ?%elem_of_nil..|]. simpl.
  intros [->|Hx]%elem_of_cons; [exists a, b; split; [done|constructor]|].
  apply IH in Hx as (a' & b' & -> & Ha); [|simpl; lia]. exists a', b'. split; [done|].
  by do 2 constructor.
Qed.

Lemma level_preimages_NoDup dom l : NoDup l -> NoDup (level_preimages dom l).
Proof.
  unfold level_preimages.
  induction l as [l IH] using (induction_ltof1 _ (@length _)); unfold ltof in IH. intros Hn.
  destruct l as [|a [|b l]]; [constructor|repeat constructor; by intros ?%elem_of_nil|].
  rewrite merkle_pad_cons2. simpl. apply NoDup_cons in Hn as [Ha Hn]. constructor.
  - intros (a' & b' & E & Hin)%elem_of_pair_preimages. apply node_preimage_inj in E as [-> _].
    apply elem_of_merkle_pad in Hin. apply Ha. by constructor.
  - apply IH; [simpl; lia|]. by apply NoDup_cons in Hn as [_ ?].
Qed.

Lemma merkle_level_NoDup dom l :
  collision_free (level_preimages dom l) -> NoDup l -> NoDup (merkle_level dom l).
Proof.
  intros Hc Hn. unfold merkle_level. rewrite merkle_pairs_map. apply map_sha_NoDup; [done|].
  by apply level_preimages_NoDup.
Qed.

Lemma levels_trace dom n m l :
  (m < n)%nat -> level_preimages dom (levels dom m l) ⊆ trace_preimages dom n l.
Proof.
  revert m l. induction n as [|n IH]; intros m l Hm; [lia|]. simpl. destruct m as [|m]; simpl; [set_solver|].
  pose proof (IH m (merkle_level dom l) ltac:(lia)). set_solver.
Qed.

Lemma levels_NoDup dom n m l :
  (m <= n)%nat -> collision_free (trace_preimages dom n l) -> NoDup l -> NoDup (levels dom m l).
Proof.
  intros Hm Hc Hn. induction m as [|m IH]; [done|]. rewrite levels_snoc.
  apply merkle_level_NoDup; [|apply IH; lia].
  eapply collision_free_mono; [|exact Hc]. apply levels_trace. lia.
Qed.

(** If [l1] reduces in [n1] rounds to what [l2] reduces to in [n1 + k], then [l1] is the [k]-th
    level of [l2]. *)
Lemma levels_meet dom n1 k l1 l2 :
  collision_free (trace_preimages dom n1 l1 ++ trace_preimages dom (n1 + k) l2) ->
  NoDup l1 -> NoDup l2 -> levels dom n1 l1 = levels dom (n1 + k) l2 -> l1 = levels dom k l2.
Proof.
  intros Hc H1 H2 E.
  assert (Hi : forall i, (i <= n1)%nat -> levels dom (n1 - i) l1 = levels dom (n1 + k - i) l2).
  { induction i as [|i IH]; intros Hi; [by rewrite !Nat.sub_0_r|].
    specialize (IH ltac:(lia)).
    replace (n1 - i)%nat with (S (n1 - S i)) in IH by lia.
    replace (n1 + k - i)%nat with (S (n1 + k - S i)) in IH by lia.
    rewrite !levels_snoc in IH. apply merkle_level_inj in IH; [done|..].
    - eapply collision_free_mono; [|exact Hc].
      pose proof (levels_trace dom n1 (n1 - S i) l1 ltac:(lia)).
      pose proof (levels_trace dom (n1 + k) (n1 + k - S i) l2 ltac:(lia)). set_solver.
    - eapply (levels_NoDup _ n1); [|eapply collision_free_mono; [|exact Hc]; set_solver|done]. lia.
    - eapply (levels_NoDup _ (n1 + k)); [|eapply collision_free_mono; [|exact Hc]; set_solver|done]. lia. }
  specialize (Hi n1 ltac:(lia)). rewrite Nat.sub_diag in Hi.
  by replace (n1 + k - n1)%nat with k in Hi by lia.
Qed.

(** The number of rounds of the loop is the height of the tree. *)
Lemma merkle_levels {E} l dom h :
  l <> [] -> merkle (E := E) l dom = Ok h -> levels dom (Nat.log2_up (length l)) l = [h].
Proof.
  unfold merkle. intros Hne Hm.
  assert (Hgen : forall fuel l, l <> [] -> (length l <= S fuel)%nat ->
    merkle_loop fuel dom l = Some (levels dom (Nat.log2_up (length l)) l)).
  { clear. induction fuel as [|fuel IH]; intros l Hne Hl; simpl.
    - rewrite decide_False by lia. destruct l as [|h [|]]; [done|done|simpl in Hl; lia].
    - case_decide as H1; [|destruct l as [|h [|]]; [done|done|simpl in H1; lia]].
      pose proof (merkle_level_decreases dom l H1) as Hd.
      rewrite IH by (lia || by intros E; rewrite E in Hd; simpl in Hd; lia).
      rewrite (log2_up_half (length l)), merkle_level_length by lia. done. }
  rewrite Hgen in Hm by (done || lia). simpl in Hm.
  destruct (merkle_loop_total (length l) dom l Hne) as [h' Hh']; [lia|].
  rewrite Hgen in Hh' by (done || lia). injection Hh' as Hh'. rewrite Hh' in *. by injection Hm as ->.
Qed.

(** A positive level of a nonempty list contains node digests. *)
Lemma levels_node dom k l x :
  x ∈ levels dom (S k) l ->
  exists a b, x = sha256 (node_preimage dom a b) /\ node_preimage dom a b ∈ trace_preimages dom (S k) l.
Proof.
  rewrite levels_snoc. unfold merkle_level. rewrite merkle_pairs_map.
  intros (p & -> & Hp)%list_elem_of_fmap.
  pose proof (levels_trace dom (S k) k l ltac:(lia)) as Ht.
  destruct (elem_of_pair_preimages _ _ _ Hp) as (a & b & -> & _). exists a, b. split; [done|].
  by apply Ht.
Qed.

Lemma trace_preimages_mono dom n m l : (n <= m)%nat -> trace_preimages dom n l ⊆ trace_preimages dom m l.
Proof.
  revert m l. induction n as [|n IH]; intros [|m] l Hm; simpl; [set_solver|set_solver|lia|].
  pose proof (IH m (merkle_level dom l) ltac:(lia)). set_solver.
Qed.

(** Two trees over leaf digests, with leaf and node preimages of different lengths. *)
Lemma merkle_binding_le {E} dom (ps1 ps2 : list (list byte)) h :
  (forall p a b, p ∈ ps1 -> p <> node_preimage dom a b) ->
  ps1 <> [] -> ps2 <> [] -> NoDup ps1 -> NoDup ps2 ->
  (Nat.log2_up (length ps1) <= Nat.log2_up (length ps2))%nat ->
  collision_free (ps1 ++ merkle_preimages dom (sha256 <$> ps1) ++
                  ps2 ++ merkle_preimages dom (sha256 <$> ps2)) ->
  merkle (E := E) (sha256 <$> ps1) dom = Ok h -> merkle (E := E) (sha256 <$> ps2) dom = Ok h ->
  ps1 = ps2.
Proof.
  intros Hnode Hne1 Hne2 Hn1 Hn2 Hle Hc Hm1 Hm2. unfold merkle_preimages in Hc.
  apply merkle_levels in Hm1; [|by destruct ps1]. apply merkle_levels in Hm2; [|by destruct ps2].
  rewrite !length_fmap in *. set (n1 := Nat.log2_up (length ps1)) in *.
  destruct (Nat.le_exists_sub _ _ Hle) as (k & Ek & _). rewrite Nat.add_comm in Ek.
  rewrite Ek in *. assert (Heq : sha256 <$> ps1 = levels dom k (sha256 <$> ps2)).
  { apply (levels_meet dom n1).
    - eapply collision_free_mono; [|exact Hc]. set_solver.
    - apply map_sha_NoDup; [|done]. eapply collision_free_mono; [|exact Hc]. set_solver.
    - apply map_sha_NoDup; [|done]. eapply collision_free_mono; [|exact Hc]. set_solver.
    - congruence. }
  destruct k as [|k].
  - simpl in Heq. apply map_sha_inj in Heq; [done|]. eapply collision_free_mono; [|exact Hc]. set_solver.
  - exfalso. destruct ps1 as [|p ps1]; [done|].
    assert (Hin : sha256 p ∈ levels dom (S k) (sha256 <$> ps2)) by (rewrite <- Heq; constructor).
    apply levels_node in Hin as (a & b & Eh & Hp). apply Hc in Eh.
    + by destruct (Hnode p a b); [constructor|].
    + set_solver.
    + pose proof (trace_preimages_mono dom (S k) (n1 + S k) (sha256 <$> ps2) ltac:(lia)). set_solver.
Qed.

(** The common shape of [event_root] and [object_state_root]: a digest of its own for no leaves,
    otherwise the reduction of the leaf digests. *)
Definition tree_digest {E} (empty dom : list byte) (ps : list (list byte)) : res E Hash32 :=
  match ps with [] => Ok (sha256 empty) | _ => merkle (sha256 <$> ps) dom end.

Definition tree_preimages (empty dom : list byte) (ps : list (list byte)) : list (list byte) :=
  match ps with [] => [empty] | _ => ps ++ merkle_preimages dom (sha256 <$> ps) end.

(** Leaves all have length [n], and no leaf, node or empty preimage shares a length. *)
Definition separated (n : nat) (empty dom : list byte) : Prop :=
  n <> (length dom + 64)%nat /\ length empty <> n /\ length empty <> (length dom + 64)%nat.

Lemma tree_preimages_nonempty empty dom ps :
  ps <> [] -> tree_preimages empty dom ps = ps ++ merkle_preimages dom (sha256 <$> ps).
Proof. by destruct ps. Qed.

Lemma empty_is_no_tree {E} n empty dom ps h :
  separated n empty dom -> Forall (fun p => length p = n) ps -> ps <> [] ->
  collision_free (empty :: tree_preimages empty dom ps) ->
  merkle (E := E) (sha256 <$> ps) dom = Ok h -> h <> sha256 empty.
Proof.
  intros (Hs1 & Hs2 & Hs3) Hl Hne Hc Hm ->. rewrite tree_preimages_nonempty in Hc by done.
  apply merkle_levels in Hm; [|by destruct ps]. rewrite length_fmap in Hm.
  unfold merkle_preimages in Hc. rewrite length_fmap in Hc.
  destruct (Nat.log2_up (length ps)) as [|r].
  - simpl in Hm. destruct ps as [|p [|]]; [done| |done]. injection Hm as Hm.
    apply Hc in Hm; [|set_solver..]. apply Forall_cons in Hl as [Hl _]. subst. done.
  - assert (Hin : sha256 empty ∈ levels dom (S r) (sha256 <$> ps)) by (rewrite Hm; constructor).
    apply levels_node in Hin as (a & b & Eh & Hp). apply Hc in Eh; [|set_solver..].
    subst. by rewrite node_preimage_length in Hs3.
Qed.

Lemma tree_binding {E} n empty dom ps1 ps2 h :
  separated n empty dom -> Forall (fun p => length p = n) ps1 -> Forall (fun p => length p = n) ps2 ->
  NoDup ps1 -> NoDup ps2 ->
  collision_free (tree_preimages empty dom ps1 ++ tree_preimages empty dom ps2) ->
  tree_digest (E := E) empty dom ps1 = Ok h -> tree_digest (E := E) empty dom ps2 = Ok h -> ps1 = ps2.
Proof.
  intros Hsep Hl1 Hl2 Hn1 Hn2 Hc.
  assert (Hleaf : forall ps, Forall (fun p => length p = n) ps -> forall p a b, p ∈ ps ->
    p <> node_preimage dom a b).
  { intros ps Hl p a b Hp ->. rewrite Forall_forall in Hl. apply Hl in Hp.
    rewrite node_preimage_length in Hp. by destruct Hsep. }
  destruct (decide (ps1 = [])) as [->|He1], (decide (ps2 = [])) as [->|He2]; [done|..].
  - intros [= <-]. unfold tree_digest. destruct ps2; [done|]. intros Hm.
    by eapply empty_is_no_tree in Hm.
  - intros Hm [= <-]. unfold tree_digest in Hm. destruct ps1; [done|].
    eapply empty_is_no_tree in Hm; [done..|]. eapply collision_free_mono; [|exact Hc]. set_solver.
  - rewrite !tree_preimages_nonempty in Hc by done. unfold tree_digest.
    intros Hm1 Hm2. assert (merkle (E := E) (sha256 <$> ps1) dom = Ok h) by by destruct ps1.
    assert (merkle (E := E) (sha256 <$> ps2) dom = Ok h) by by destruct ps2. clear Hm1 Hm2.
    destruct (Nat.le_ge_cases (Nat.log2_up (length ps1)) (Nat.log2_up (length ps2))).
    + eapply merkle_binding_le; [eapply Hleaf; exact Hl1|done..| |done|done].
      eapply collision_free_mono; [|exact Hc]. set_solver.
    + symmetry. eapply merkle_binding_le; [eapply Hleaf; exact Hl2|done..| |done|done].
      eapply collision_free_mono; [|exact Hc]. set_solver.
Qed.
End Trees.

(** ** Event and object roots *)

Section RootBinding.
Context {P : Primitives}.

Definition event_empty (ns : Hash32) : list byte := domain "TANDEM/EVENT-EMPTY" ++ arr_bytes ns.
Definition object_empty (ns : Hash32) : list byte := domain "TANDEM/OBJECT-EMPTY" ++ arr_bytes ns.

(** The strings hashed for the event root and for the object root. *)
Definition event_root_preimages (ns : Hash32) (evs : list Event) : list (list byte) :=
  tree_preimages (event_empty ns) (domain "TANDEM/EVENT-NODE") (event_preimage <$> evs).
Definition object_root_preimages (ns : Hash32) (objs : list ObjectState) : list (list byte) :=
  tree_preimages (object_empty ns) (domain "TANDEM/OBJECT-NODE") (object_preimage <$> objs).

Lemma event_separated ns : separated 371 (event_empty ns) (domain "TANDEM/EVENT-NODE").
Proof. unfold separated, event_empty. by rewrite length_app, arr_length. Qed.
Lemma object_separated ns : separated 204 (object_empty ns) (domain "TANDEM/OBJECT-NODE").
Proof. unfold separated, object_empty. by rewrite length_app, arr_length. Qed.

Lemma event_root_tree {E} ns evs :
  StronglySorted (key_lt event_key) evs ->
  event_root (E := E) ns evs =
  tree_digest (event_empty ns) (domain "TANDEM/EVENT-NODE") (event_preimage <$> evs).
Proof.
  intros Hs. unfold event_root. destruct evs as [|e evs]; [done|].
  rewrite sort_by_key_id by by apply key_lt_le. cbn [tree_digest fmap list_fmap].
  f_equal. cbn [fmap list_fmap]. f_equal. unfold event_leaf. by rewrite <- list_fmap_compose.
Qed.

Lemma events_wf_NoDup evs :
  Forall event_wf evs -> StronglySorted (key_lt event_key) evs -> NoDup (event_preimage <$> evs).
Proof.
  intros Hw Hs. apply key_lt_NoDup in Hs. apply NoDup_fmap_1 in Hs.
  apply NoDup_fmap_2_strong; [|done]. intros e1 e2 H1 H2. rewrite Forall_forall in Hw.
  apply event_preimage_inj; by apply Hw.
Qed.

Lemma fmap_transfer {A B C} (f : A -> B) (g : A -> C) (Q : A -> Prop) l1 l2 :
  (forall a b, Q a -> Q b -> f a = f b -> g a = g b) -> Forall Q l1 -> Forall Q l2 ->
  f <$> l1 = f <$> l2 -> g <$> l1 = g <$> l2.
Proof.
  intros Hf H1. revert l2. induction H1 as [|a l1 Ha _ IH]; intros l2 H2 E.
  - by destruct l2.
  - destruct H2 as [|b l2 Hb H2]; [done|]. injection E as E1 E2. simpl.
    f_equal; [by apply Hf|by apply IH].
Qed.

Lemma fmap_inj_Forall {A B} (f : A -> B) (Q : A -> Prop) l1 l2 :
  (forall a b, Q a -> Q b -> f a = f b -> a = b) -> Forall Q l1 -> Forall Q l2 ->
  f <$> l1 = f <$> l2 -> l1 = l2.
Proof.
  intros Hf H1 H2 E. rewrite <- (list_fmap_id l1), <- (list_fmap_id l2). by eapply fmap_transfer.
Qed.

Lemma event_root_inj ns evs1 evs2 :
  Forall event_wf evs1 -> Forall event_wf evs2 ->
  StronglySorted (key_lt event_key) evs1 -> StronglySorted (key_lt event_key) evs2 ->
  collision_free (event_root_preimages ns evs1 ++ event_root_preimages ns evs2) ->
  event_root (E := ReducerError) ns evs1 = event_root (E := ReducerError) ns evs2 -> evs1 = evs2.
Proof.
  intros W1 W2 S1 S2 Hc He. rewrite !event_root_tree in He by done.
  apply (fmap_inj_Forall event_preimage event_wf); [apply event_preimage_inj|done..|].
  destruct (event_root_total (E := ReducerError) ns evs2) as [h Hh].
  rewrite event_root_tree in Hh by done. rewrite Hh in He.
  eapply tree_binding; [apply event_separated| | | | |exact Hc|exact He|exact Hh].
  1,2: apply Forall_fmap, Forall_true; intros; apply event_preimage_length.
  all: by apply events_wf_NoDup.
Qed.

(** An object map whose entries are stored under their own keys, with encodable fields. *)
Definition objects_fit (m : gmap Hash32 ObjectState) : Prop :=
  forall k o, m !! k = Some o -> object_key o = k /\ object_wf o.

Lemma bt_values_wf m : objects_fit m -> Forall object_wf (bt_values m).
Proof. intros Hf. apply Forall_forall. intros o [k Hk]%elem_of_bt_values. by apply Hf in Hk as [_ ?]. Qed.

Lemma bt_values_sorted m : objects_fit m -> StronglySorted (key_lt object_key) (bt_values m).
Proof.
  intros Hf. pose proof (bt_entries_sorted m) as Hs. unfold bt_values.
  assert (Hk : forall p, p ∈ bt_entries m -> object_key p.2 = p.1).
  { intros [k o] Hp%elem_of_bt_entries. by apply Hf in Hp as [? _]. }
  induction Hs as [|p l Hl IH Hp]; simpl; [constructor|]. constructor.
  - apply IH. intros q Hq. apply Hk. by constructor.
  - apply Forall_fmap, Forall_forall. intros q Hq.
    rewrite Forall_forall in Hp. specialize (Hp q Hq). unfold key_lt in *. simpl.
    rewrite (Hk p), (Hk q); [done|by constructor|constructor].
Qed.

Lemma object_root_tree {E} ns m :
  objects_fit m ->
  object_state_root (E := E) ns (bt_values m) =
  tree_digest (object_empty ns) (domain "TANDEM/OBJECT-NODE") (object_preimage <$> bt_values m).
Proof.
  intros Hf. pose proof (bt_values_sorted m Hf) as Hs. unfold object_state_root.
  assert (Hsort : forall l, StronglySorted (key_lt object_key) l ->
    sort_by_key fst ((fun o => (object_key o, object_state_leaf o)) <$> l) =
    (fun o => (object_key o, object_state_leaf o)) <$> l).
  { intros l Hl. apply sort_by_key_id. induction Hl as [|o l Hl IH Ho]; simpl; constructor; [done|].
    apply Forall_fmap. eapply Forall_impl; [exact Ho|]. intros o' Ho'. by apply key_ltb_leb in Ho'. }
  destruct (bt_values m) as [|o l] eqn:Ev; [done|].
  change (((fun o => (object_key o, object_state_leaf o)) <$> o :: l))
    with ((object_key o, object_state_leaf o) :: ((fun o => (object_key o, object_state_leaf o)) <$> l)).
  cbv beta iota. change ((object_key o, object_state_leaf o) :: ?r)
    with ((fun o => (object_key o, object_state_leaf o)) <$> o :: l).
  rewrite Hsort by done. cbn [tree_digest fmap list_fmap]. f_equal.
  change (list_fmap _ _ ?f ?l) with (f <$> l). f_equal.
  rewrite <- !list_fmap_compose. done.
Qed.

Lemma objects_fit_NoDup m : objects_fit m -> NoDup (object_preimage <$> bt_values m).
Proof.
  intros Hf. pose proof (key_lt_NoDup _ _ (bt_values_sorted m Hf)) as Hn.
  pose proof (bt_values_wf m Hf) as Hw. rewrite Forall_forall in Hw.
  revert Hn Hw. generalize (bt_values m). intros l Hn Hw.
  apply NoDup_fmap_2_strong; [|by eapply NoDup_fmap_1]. intros o1 o2 H1 H2 E.
  apply object_preimage_committed in E; [|by apply Hw..]. injection E as Ek _ _ _ _ _ _ _ _.
  apply list_elem_of_lookup in H1 as [i Hi], H2 as [j Hj].
  assert (i = j) as <- by (eapply NoDup_lookup; [exact Hn|rewrite list_lookup_fmap, Hi; done|];
    rewrite list_lookup_fmap, Hj; simpl; congruence).
  congruence.
Qed.

Lemma committed_list_map m1 m2 k o1 :
  objects_fit m1 -> objects_fit m2 -> committed <$> bt_values m1 = committed <$> bt_values m2 ->
  m1 !! k = Some o1 -> exists o2, m2 !! k = Some o2 /\ committed o2 = committed o1.
Proof.
  intros F1 F2 E H1. assert (Hin : o1 ∈ bt_values m1) by (apply elem_of_bt_values; eauto).
  apply (list_elem_of_fmap_2 committed) in Hin. rewrite E in Hin.
  apply list_elem_of_fmap in Hin as (o2 & Ec & [k2 H2]%elem_of_bt_values). exists o2.
  split; [|done]. apply F1 in H1 as [K1 _]. apply F2 in H2 as Hk. destruct Hk as [K2 _].
  injection Ec as Ek _ _ _ _ _ _ _ _. congruence.
Qed.

(** C36: the object-state root binds the snapshot: two object maps with the same root hold the
    same keys, and under every key objects with the same committed fields (founding, status,
    creation height, sequence, live outpoint, keys, terminal txid, chapters), unless the digest
    collides on two of the strings hashed for these roots. *)
Theorem object_root_binding ns m1 m2 :
  objects_fit m1 -> objects_fit m2 ->
  collision_free (object_root_preimages ns (bt_values m1) ++ object_root_preimages ns (bt_values m2)) ->
  object_state_root (E := ReducerError) ns (bt_values m1) =
    object_state_root (E := ReducerError) ns (bt_values m2) ->
  committed <$> m1 = committed <$> m2.
Proof.
  intros F1 F2 Hc He. destruct (object_state_root_total (E := ReducerError) ns (bt_values m2)) as [h Hh].
  rewrite Hh in He. rewrite object_root_tree in He, Hh by done.
  assert (Hp : object_preimage <$> bt_values m1 = object_preimage <$> bt_values m2).
  { eapply tree_binding; [apply object_separated| | | | |exact Hc|exact He|exact Hh].
    1,2: apply Forall_fmap, Forall_true; intros; apply object_preimage_length.
    all: by apply objects_fit_NoDup. }
  assert (Hl : committed <$> bt_values m1 = committed <$> bt_values m2).
  { eapply (fmap_transfer object_preimage); [apply object_preimage_committed|..|exact Hp];
      by apply bt_values_wf. }
  apply map_eq. intros k. rewrite !lookup_fmap. destruct (m1 !! k) as [o1|] eqn:E1.
  - destruct (committed_list_map m1 m2 k o1) as (o2 & -> & Ec); [done..|]. simpl. by rewrite Ec.
  - destruct (m2 !! k) as [o2|] eqn:E2; [|done].
    destruct (committed_list_map m2 m1 k o2) as (o1 & ? & _); [done..|]. congruence.
Qed.

(** ** Histories *)

(** A canonical chain with its journal, latest block first. *)
Inductive history (b : Binding) : Ledger -> ChainState -> list BlockDelta -> Prop :=
| hist_new : history b empty_ledger (new_state b) []
| hist_block g s ds block s' d :
    history b g s ds -> txs_ok (namespace b) g (transactions block) -> is_u64 (blk_height block) ->
    apply_block block s = (s', Ok d) ->
    history b (ledger_txs (transactions block) g) s' (d :: ds).

Lemma history_reachable b g s ds : history b g s ds -> reachable b g s.
Proof. induction 1; [constructor|]. by eapply reach_block. Qed.

Definition state_empty (b : Binding) : list byte :=
  domain "TANDEM/STATE-EMPTY" ++ arr_bytes (namespace b).

Lemma state_empty_length b : length (state_empty b) = 51%nat.
Proof. unfold state_empty. by rewrite length_app, arr_length. Qed.

Definition delta_preimage (ns : Hash32) (d : BlockDelta) : list byte :=
  block_preimage ns (chained_root (bd_before d)) (bd_block_hash d) (bd_height d)
    (hr_event_root (bd_roots d)) (hr_object_state_root (bd_roots d)) (hr_counters (bd_roots d)).

(** Every string hashed for the chained root and the event roots of a history. *)
Definition history_preimages (b : Binding) (ds : list BlockDelta) : list (list byte) :=
  state_empty b ::
  concat ((fun d => delta_preimage (namespace b) d :: event_root_preimages (namespace b) (bd_events d)) <$> ds).

(** What two observers agree on about one block. *)
Definition same_block (d1 d2 : BlockDelta) : Prop :=
  bd_block_hash d1 = bd_block_hash d2 /\ bd_height d1 = bd_height d2 /\
  bd_events d1 = bd_events d2 /\ bd_roots d1 = bd_roots d2.

(** The facts about the latest block that the agreement proof uses. *)
Lemma history_block b g s ds block s' d :
  history b g s ds -> txs_ok (namespace b) g (transactions block) -> is_u64 (blk_height block) ->
  apply_block block s = (s', Ok d) ->
  chained_root s' = sha256 (delta_preimage (namespace b) d) /\
  chained_root (bd_before d) = chained_root s /\
  is_u64 (bd_height d) /\ hr_chained_root (bd_roots d) = chained_root s' /\
  hr_height (bd_roots d) = bd_height d /\ hr_block_hash (bd_roots d) = bd_block_hash d /\
  event_root (E := ReducerError) (namespace b) (bd_events d) = Ok (hr_event_root (bd_roots d)) /\
  StronglySorted (key_lt event_key) (bd_events d) /\ Forall event_wf (bd_events d).
Proof.
  intros Hh Hok Hu Ha. pose proof (history_reachable _ _ _ _ Hh) as Hr.
  destruct (events_sorted_wf _ _ _ _ _ _ Hr Hok Hu Ha) as (Hs & Hw).
  destruct (reachable_state_inv _ _ _ Hr) as [Hinv <-].
  destruct (apply_block_dispatch _ _ _ _ _ Hinv Hok Ha) as (s1 & evs & er & orr & Hd & -> & -> & Her & _).
  pose proof (dispatch_chained_root _ _ _ _ Hd) as Hcr.
  unfold delta_preimage, delta_of. cbn. unfold block_root. rewrite Hcr. by split_and!.
Qed.

(** Equal chained roots mean equal histories. *)
Lemma equal_roots b g1 s1 ds1 g2 s2 ds2 :
  history b g1 s1 ds1 -> history b g2 s2 ds2 ->
  Forall (fun d => counters_wf (hr_counters (bd_roots d))) (ds1 ++ ds2) ->
  collision_free (history_preimages b ds1 ++ history_preimages b ds2) ->
  chained_root s1 = chained_root s2 -> Forall2 same_block ds1 ds2.
Proof.
  intros H1. revert g2 s2 ds2. induction H1 as [|g s ds block s' d Hh IH Hok Hu Ha]; intros g2 s2 ds2 H2 Hw Hc Hr.
  - destruct H2 as [|g2 s2 ds2 block2 s2' d2 Hh2 Hok2 Hu2 Ha2]; [constructor|]. exfalso.
    destruct (history_block _ _ _ _ _ _ _ Hh2 Hok2 Hu2 Ha2) as (Ecr & _). rewrite Ecr in Hr.
    change (chained_root (new_state b)) with (sha256 (state_empty b)) in Hr.
    apply Hc in Hr; [|unfold history_preimages; set_solver..].
    apply (f_equal length) in Hr. by rewrite state_empty_length in Hr;
      unfold delta_preimage in Hr; rewrite block_preimage_length in Hr.
  - destruct (history_block _ _ _ _ _ _ _ Hh Hok Hu Ha) as (Ecr & Eb & Eu & Eh & E1 & E2 & Eer & Es & Ew).
    destruct H2 as [|g2 s2 ds2 block2 s2' d2 Hh2 Hok2 Hu2 Ha2].
    { exfalso. rewrite Ecr in Hr. change (chained_root (new_state b)) with (sha256 (state_empty b)) in Hr.
      apply Hc in Hr; [|unfold history_preimages; set_solver..].
      apply (f_equal length) in Hr. by rewrite state_empty_length in Hr;
        unfold delta_preimage in Hr; rewrite block_preimage_length in Hr. }
    destruct (history_block _ _ _ _ _ _ _ Hh2 Hok2 Hu2 Ha2)
      as (Fcr & Fb & Fu & Fh & F1 & F2 & Fer & Fs & Fw).
    rewrite Ecr, Fcr in Hr. pose proof Hr as Hr'.
    apply Hc in Hr'; [|unfold history_preimages; set_solver..].
    apply Forall_app in Hw as [[Hw1 Hws1]%Forall_cons [Hw2 Hws2]%Forall_cons].
    apply block_preimage_inj in Hr' as (_ & Ep & Ebh & Ehh & Ee & Eo & Ec); [|done..].
    constructor.
    + assert (Ev : bd_events d = bd_events d2).
      { apply (event_root_inj (namespace b)); [done..| |congruence].
        eapply collision_free_mono; [|exact Hc]. unfold history_preimages. set_solver. }
      split_and!; [done..|]. destruct (bd_roots d), (bd_roots d2). simpl in *. congruence.
    + eapply IH; [done| | |congruence].
      * by apply Forall_app.
      * eapply collision_free_mono; [|exact Hc]. unfold history_preimages. set_solver.
Qed.

(** C6: agreement: two verifiers of the same deployment whose chained roots are equal at their
    tips have processed the same history, the same number of blocks with pairwise equal hashes,
    heights, event lists, roots and counters, unless the digest collides on two of the strings
    hashed for these histories. *)
Theorem chained_root_agreement b g1 s1 ds1 g2 s2 ds2 :
  history b g1 s1 ds1 -> history b g2 s2 ds2 ->
  Forall (fun d => counters_wf (hr_counters (bd_roots d))) (ds1 ++ ds2) ->
  collision_free (history_preimages b ds1 ++ history_preimages b ds2) ->
  chained_root s1 = chained_root s2 -> Forall2 same_block ds1 ds2.
Proof. apply equal_roots. Qed.
End RootBinding.
