(* ===== verification/Store.v ===== *)
(** * The canonical store (crates/tandem-verifier/src/store.rs, migrations/0001_initial.sql)

    The tables of the migration as finite maps, the statements the store runs with the
    constraints that can make them fail, and its transactions: a body whose effects are kept
    only if every statement and the commit succeed.  The environment decides by an [Io] value
    whether a transaction goes through, fails, or is committed while its acknowledgement is
    lost.  [Json] is what [serde_json] and the [jsonb] columns promise: a value is read back as
    it was written. *)

From Stdlib Require Import String Ascii.
From stdpp Require Import strings.
From S2P Require Import Prelude Types Marker Roots Reducer.

(** Serialization to a JSON value, and reading it back from its column; [SerdeFacts] shows the law
    of the program's own impls, on the values whose integers fit their types. *)
Class Json (JV A : Type) := {
  to_value : A -> JV;
  from_value : JV -> option A;
  from_to_value : forall a, from_value (to_value a) = Some a;
}.

Lemma to_value_inj {JV A} `{!Json JV A} (x y : A) : to_value x = to_value y -> x = y.
Proof. intros H. apply (f_equal from_value) in H. rewrite !from_to_value in H. by simplify_eq. Qed.

Inductive StoreError :=
| DbFailure
| NoStateRow
| CorruptBinding
| CorruptState
| CorruptJournal
| BoundElsewhere
| HeightMismatch
| HashMismatch
| StateChanged
| ConstraintViolated
| HeightExceedsBigint
| NoJournal
| JournalMismatch (e : ReducerError).

(** What the environment does to a transaction. *)
Inductive Io := IoOk | IoFail | IoLost.

(** [config::ReleaseIdentity]. *)
Record ReleaseIdentity := mkRelease {
  parser_commit : string;
  indexer_commit : string;
  parser_binary_sha256 : Hash32;
  indexer_binary_sha256 : Hash32;
}.

(** The column check [~ '^[0-9a-f]{40}$']. *)
Definition is_lower_hex (c : Ascii.ascii) : bool :=
  let n := Z.of_N (N_of_ascii c) in
  bool_decide (48 <= n <= 57) || bool_decide (97 <= n <= 102).
Definition is_commit (s : string) : bool :=
  Nat.eqb (String.length s) 40 && forallb is_lower_hex (list_ascii_of_string s).

Section Tables.
Context {JV : Type}.

Record BlockRow := mkBlockRow {
  br_block_hash : Hash32;
  br_previous_hash : Hash32;
  br_event_root : Hash32;
  br_object_state_root : Hash32;
  br_chained_root : Hash32;
  br_counters : Counters;
  br_release : ReleaseIdentity;
  br_inverse_delta : JV;
}.

Record EventRow := mkEventRow {
  er_txid : Hash32;
  er_object_key : Hash32;
  er_event_type : Z;
  er_validity_class : Z;
  er_reason : Z;
  er_payload : JV;
}.

Record ObjectRow := mkObjectRow {
  or_txid : Hash32;
  or_vout : Z;
  or_status : Z;
  or_create_height : Z;
  or_state_seq : Z;
  or_payload : JV;
}.

Record ReorgRow := mkReorgRow {
  rj_height : Z;
  rj_hash : Hash32;
  rj_restored_height : option Z;
  rj_restored_hash : option Hash32;
}.

(** The primary key of [canonical_events]. *)
Definition EventKey : Type := Z * Z * Z * Z.
Definition key_height (k : EventKey) : Z := k.1.1.1.

Record Db := mkDb {
  protocol_row : option (JV * JV);
  blocks_t : gmap Z BlockRow;
  events_t : gmap EventKey EventRow;
  objects_t : gmap Hash32 ObjectRow;
  mempool_t : gmap Hash32 JV;
  reorgs_t : list ReorgRow;
}.
End Tables.
Arguments BlockRow : clear implicits.
Arguments EventRow : clear implicits.
Arguments ObjectRow : clear implicits.
Arguments Db : clear implicits.

Definition to_i64 (z : Z) : res StoreError Z := ok_or HeightExceedsBigint (try_from i64_max z).

Section Store.
Context {JV : Type} {P : Primitives}.
Context `{!Json JV Binding, !Json JV ChainState, !Json JV BlockDelta, !Json JV Event,
          !Json JV ObjectState, !Json JV TxView}.

#[local] Abbreviation dbst := (st (Db JV) StoreError).

(** [pool.begin()] to [commit()]: a failing statement or commit drops the transaction, which
    rolls it back. *)
Definition transact {A} (io : Io) (body : dbst A) : dbst A := fun db =>
  match body db with
  | (db', Ok a) =>
      match io with
      | IoOk => (db', Ok a)
      | IoFail => (db, Err DbFailure)
      | IoLost => (db', Err DbFailure)
      end
  | (_, Err e) => (db, Err e)
  | (_, Panic) => (db, Panic)
  end.

(** ** Statements *)

Definition set_protocol (row : option (JV * JV)) (db : Db JV) : Db JV :=
  mkDb row (blocks_t db) (events_t db) (objects_t db) (mempool_t db) (reorgs_t db).
Definition set_blocks (blocks : gmap Z (BlockRow JV)) (events : gmap EventKey (EventRow JV)) (db : Db JV) :
  Db JV :=
  mkDb (protocol_row db) blocks events (objects_t db) (mempool_t db) (reorgs_t db).
Definition set_objects (objs : gmap Hash32 (ObjectRow JV)) (db : Db JV) : Db JV :=
  mkDb (protocol_row db) (blocks_t db) (events_t db) objs (mempool_t db) (reorgs_t db).
Definition set_mempool (pool : gmap Hash32 JV) (db : Db JV) : Db JV :=
  mkDb (protocol_row db) (blocks_t db) (events_t db) (objects_t db) pool (reorgs_t db).
Definition set_reorgs (rows : list ReorgRow) (db : Db JV) : Db JV :=
  mkDb (protocol_row db) (blocks_t db) (events_t db) (objects_t db) (mempool_t db) rows.

(** A primary-key or unique conflict, or a failed check, is an error of the statement. *)
Definition require (Q : Prop) `{Decision Q} (e : StoreError) : dbst unit :=
  st_lift (if decide Q then Ok tt else Err e).

Definition load_state_for_update : dbst ChainState :=
  do db <- st_get;
  do row <- st_lift (ok_or NoStateRow (protocol_row db));
  st_lift (ok_or CorruptState (from_value row.2)).

Definition save_state (s : ChainState) : dbst unit :=
  st_modify (fun db => match protocol_row db with
                       | Some row => set_protocol (Some (row.1, to_value s)) db
                       | None => db
                       end).

Definition object_row (o : ObjectState) : ObjectRow JV :=
  mkObjectRow (op_txid (current_outpoint o)) (op_vout (current_outpoint o)) (status_code (status o))
    (create_height o) (state_seq o) (to_value o).

Fixpoint insert_objects (objs : list ObjectState) : dbst unit :=
  match objs with
  | [] => st_ret tt
  | o :: rest =>
      run st_lift (to_i64 (create_height o));
      do db <- st_get;
      run require (objects_t db !! object_key o = None) ConstraintViolated;
      run st_modify (fun db => set_objects (<[object_key o := object_row o]> (objects_t db)) db);
      insert_objects rest
  end.

Definition sync_objects (s : ChainState) : dbst unit :=
  run st_modify (set_objects ∅);
  insert_objects (bt_values (objects s)).

Definition event_row (e : Event) : EventRow JV :=
  mkEventRow (ev_txid e) (ev_object_key e) (event_type_code (event_type e))
    (validity_code (validity_class e)) (reason_code (ev_reason e)) (to_value e).

Definition event_pk (e : Event) : EventKey := (ev_height e, tx_index e, event_index e, sub_index e).

Fixpoint insert_events (events : list Event) : dbst unit :=
  match events with
  | [] => st_ret tt
  | e :: rest =>
      run st_lift (to_i64 (ev_height e));
      do db <- st_get;
      run require (is_Some (blocks_t db !! ev_height e)) ConstraintViolated;
      run require (events_t db !! event_pk e = None) ConstraintViolated;
      run st_modify (fun db =>
        set_blocks (blocks_t db) (<[event_pk e := event_row e]> (events_t db)) db);
      insert_events rest
  end.

Definition block_row (d : BlockDelta) (release : ReleaseIdentity) : BlockRow JV :=
  mkBlockRow (bd_block_hash d) (bd_previous_hash d) (hr_event_root (bd_roots d))
    (hr_object_state_root (bd_roots d)) (hr_chained_root (bd_roots d)) (hr_counters (bd_roots d))
    release (to_value d).

Definition release_ok (r : ReleaseIdentity) : bool :=
  is_commit (parser_commit r) && is_commit (indexer_commit r).

Definition insert_block (d : BlockDelta) (release : ReleaseIdentity) : dbst unit :=
  run st_lift (to_i64 (bd_height d));
  do db <- st_get;
  run require (blocks_t db !! bd_height d = None) ConstraintViolated;
  run require (map_Forall (fun _ row => br_block_hash row <> bd_block_hash d) (blocks_t db))
    ConstraintViolated;
  run require (release_ok release = true) ConstraintViolated;
  st_modify (fun db =>
    set_blocks (<[bd_height d := block_row d release]> (blocks_t db)) (events_t db) db).

(** ** Operations *)

(** [Store::bind_or_load]. *)
Definition bind_or_load (io : Io) (b : Binding) : dbst ChainState :=
  transact io (
    do db <- st_get;
    match protocol_row db with
    | Some row =>
        do stored_binding <- st_lift (ok_or CorruptBinding (from_value row.1));
        run require (stored_binding = b) BoundElsewhere;
        st_lift (ok_or CorruptState (from_value row.2))
    | None =>
        let s := new_state b in
        run st_modify (set_protocol (Some (to_value b, to_value s)));
        st_ret s
    end).

(** [Store::load_state]: a read outside any transaction. *)
Definition load_state (io : Io) : dbst ChainState :=
  match io with IoOk => load_state_for_update | _ => st_lift (Err DbFailure) end.

(** [Store::apply_block], the statements of its transaction first. *)
Definition apply_block_tx (post : ChainState) (d : BlockDelta) (release : ReleaseIdentity) : dbst unit :=
  do stored <- load_state_for_update;
  run require (stored = bd_before d) StateChanged;
  run insert_block d release;
  run insert_events (bd_events d);
  run sync_objects post;
  save_state post.

Definition store_apply_block (io : Io) (post : ChainState) (d : BlockDelta) (release : ReleaseIdentity) :
  dbst unit :=
  run require (tip_height post = Some (bd_height d)) HeightMismatch;
  run require (tip_hash post = Some (bd_block_hash d)) HashMismatch;
  transact io (apply_block_tx post d release).

(** [Store::rollback_tip], the statements of its transaction first; deleting a block cascades to
    its events. *)
Definition disconnect_with (d : BlockDelta) (s : ChainState) : res StoreError ChainState :=
  match disconnect_block d s with
  | (s', Ok _) => Ok s'
  | (_, Err e) => Err (JournalMismatch e)
  | (_, Panic) => Panic
  end.

Definition delete_block (h : Z) : dbst unit :=
  st_modify (fun db =>
    set_blocks (delete h (blocks_t db)) (filter (fun kv => key_height kv.1 <> h) (events_t db)) db).

(** [height.map(to_i64).transpose()?]. *)
Definition opt_i64 (height : option Z) : res StoreError (option Z) :=
  match height with
  | Some z => let? r := to_i64 z in Ok (Some r)
  | None => Ok None
  end.

Definition rollback_tx : dbst (option ChainState) :=
  do s <- load_state_for_update;
  match tip_height s with
  | None => st_ret None
  | Some tip =>
      do h <- st_lift (to_i64 tip);
      do db <- st_get;
      do row <- st_lift (ok_or NoJournal (blocks_t db !! h));
      do d <- st_lift (ok_or CorruptJournal (from_value (br_inverse_delta row)));
      do restored <- st_lift (disconnect_with d s);
      run delete_block h;
      run sync_objects restored;
      run save_state restored;
      do restored_height <- st_lift (opt_i64 (tip_height restored));
      run st_modify (fun db =>
        set_reorgs (mkReorgRow h (bd_block_hash d) restored_height (tip_hash restored)
                    :: reorgs_t db) db);
      st_ret (Some restored)
  end.

Definition rollback_tip (io : Io) : dbst (option ChainState) := transact io rollback_tx.

(** [Store::replace_mempool]. *)
Fixpoint insert_mempool (txs : list TxView) : dbst unit :=
  match txs with
  | [] => st_ret tt
  | tx :: rest =>
      do db <- st_get;
      run require (mempool_t db !! tx_txid tx = None) ConstraintViolated;
      run st_modify (fun db => set_mempool (<[tx_txid tx := to_value tx]> (mempool_t db)) db);
      insert_mempool rest
  end.

Definition replace_mempool (io : Io) (txs : list TxView) : dbst unit :=
  transact io (run st_modify (set_mempool ∅); insert_mempool txs).

(** ** Queries *)

(** [Store::roots_at]; the row's columns are the root tuple and the release. *)
Definition roots_at (db : Db JV) (height : Z) : res StoreError (option (HeightRoots * ReleaseIdentity)) :=
  let? h := to_i64 height in
  Ok ((fun row => (mkRoots height (br_block_hash row) (br_event_root row) (br_object_state_root row)
                     (br_chained_root row) (br_counters row), br_release row)) <$> blocks_t db !! h).

(** [Store::object]. *)
Definition query_object (db : Db JV) (key : Hash32) : option JV := or_payload <$> objects_t db !! key.

(** [Store::carrier]: the first row at the outpoint with status 0. *)
Definition query_carrier (db : Db JV) (txid : Hash32) (vout : Z) : option JV :=
  or_payload <$> head (filter (fun row => or_txid row = txid /\ or_vout row = vout /\ or_status row = 0)
                         (bt_values (objects_t db))).

(** The order of [Store::events] and [Store::invalid_events]: newest block first, log order
    within a block. *)
Definition newest_first (kv : EventKey * EventRow JV) : Z * Z * Z * Z :=
  let '(h, t, e, s) := kv.1 in (- h, t, e, s).

Definition query_events (db : Db JV) (height : option Z) (key : option Hash32) : res StoreError (list JV) :=
  let? h := opt_i64 height in
  let rows := filter (fun kv => (h = None \/ h = Some (key_height kv.1)) /\
                                (key = None \/ key = Some (er_object_key kv.2)))
                (map_to_list (events_t db)) in
  Ok (take 500 ((fun kv => er_payload kv.2) <$> sort_by_key newest_first rows)).

Definition query_invalid_events (db : Db JV) : list JV :=
  let rows := filter (fun kv => er_validity_class kv.2 <> 1) (map_to_list (events_t db)) in
  take 500 ((fun kv => er_payload kv.2) <$> sort_by_key newest_first rows).

(** [Store::reorgs]: newest first, bounded. *)
Definition query_reorgs (db : Db JV) : list ReorgRow := take 200 (reorgs_t db).
End Store.
