(* ===== verification/StoreInv.v ===== *)
(** * The store's invariant

    What a consistent database looks like: the state row decodes to a state, the object table is
    that state's objects, and the block and event tables are the journal of the blocks that led
    to it, each entry decoding to a delta that undoes its block.  Committing a block and rolling
    back the tip preserve it, a failed transaction changes nothing, and the two operations are
    inverse on every table they share. *)

From S2P Require Import Prelude Types Marker Roots Reducer Validators Steps Invariant Chain Reach Store.

Section StoreInv.
Context {JV : Type} {P : Primitives}.
Context `{!Json JV Binding, !Json JV ChainState, !Json JV BlockDelta, !Json JV Event,
          !Json JV ObjectState, !Json JV TxView}.

(** ** What the tables should hold *)

Definition object_rows (s : ChainState) : gmap Hash32 (ObjectRow JV) :=
  list_to_map ((fun o => (object_key o, object_row o)) <$> bt_values (objects s)).

Definition event_rows (evs : list Event) : gmap EventKey (EventRow JV) :=
  list_to_map ((fun e => (event_pk e, event_row e)) <$> evs).

(** The objects of a state can be written: distinct keys, heights within [bigint]. *)
Definition fits (s : ChainState) : Prop :=
  NoDup (object_key <$> bt_values (objects s)) /\
  Forall (fun o => create_height o <= i64_max) (bt_values (objects s)).

(** The journal of a chain, newest block first: a row for every block, decoding to the delta that
    undoes it, and a row for every event. *)
Inductive journal (b : Binding) : list BlockView -> gmap Z (BlockRow JV) ->
  gmap EventKey (EventRow JV) -> ChainState -> Prop :=
| journal_empty : journal b [] ∅ ∅ (new_state b)
| journal_tip chain blocks events block s s' d release :
    journal b chain blocks events s -> fits s ->
    apply_block block s = (s', Ok d) -> blk_height block <= i64_max ->
    NoDup (event_pk <$> bd_events d) ->
    journal b (block :: chain) (<[blk_height block := block_row d release]> blocks)
      (event_rows (bd_events d) ∪ events) s'.

(** The database of deployment [b] holds [chain], and [s] is its state. *)
Record db_ok (b : Binding) (chain : list BlockView) (db : Db JV) (s : ChainState) : Prop := {
  dk_row : exists bv sv, protocol_row db = Some (bv, sv) /\ from_value bv = Some b /\ from_value sv = Some s;
  dk_objects : objects_t db = object_rows s;
  dk_fits : fits s;
  dk_journal : journal b chain (blocks_t db) (events_t db) s;
}.

(** ** Statements *)

Lemma require_Ok (Q : Prop) `{Decision Q} e (db db' : Db JV) u :
  require Q e db = (db', Ok u) <-> Q /\ db' = db.
Proof. unfold require, st_lift. destruct u. case_decide; naive_solver. Qed.

Lemma lift_Ok {S E A} (r : res E A) (s s' : S) a :
  st_lift r s = (s', Ok a) <-> r = Ok a /\ s' = s.
Proof. unfold st_lift. naive_solver. Qed.

Lemma get_bind {S E A} (f : S -> st S E A) s : st_bind st_get f s = f s s.
Proof. done. Qed.

Lemma modify_bind {S E A} (g : S -> S) (f : unit -> st S E A) s :
  st_bind (st_modify g) f s = f tt (g s).
Proof. done. Qed.

Lemma to_i64_Ok z y : to_i64 z = Ok y <-> y = z /\ z <= i64_max.
Proof. unfold to_i64. rewrite ok_or_Ok. apply try_from_Some. Qed.

(** Inserting a list of rows with distinct new keys, in order. *)
Lemma insert_rows_swap {K V} `{Countable K} (l : list (K * V)) (m : gmap K V) k v :
  k ∉ l.*1 -> list_to_map l ∪ <[k := v]> m = list_to_map ((k, v) :: l) ∪ m.
Proof.
  intros Hk. simpl. rewrite <- insert_union_l. rewrite insert_union_r; [done|].
  by apply not_elem_of_list_to_map_1.
Qed.

Lemma insert_objects_Ok objs db db' u :
  insert_objects objs db = (db', Ok u) <->
  NoDup (object_key <$> objs) /\ Forall (fun o => objects_t db !! object_key o = None) objs /\
  Forall (fun o => create_height o <= i64_max) objs /\
  db' = set_objects (list_to_map ((fun o => (object_key o, object_row o)) <$> objs) ∪ objects_t db) db.
Proof.
  destruct u. revert db. induction objs as [|o objs IH]; intros db; cbn [insert_objects].
  - unfold st_ret. split.
    + intros [= <-]. split_and!; [constructor..|]. simpl. rewrite map_empty_union. by destruct db.
    + intros (_ & _ & _ & ->). simpl. rewrite map_empty_union. by destruct db.
  - rewrite st_bind_Ok. setoid_rewrite lift_Ok. setoid_rewrite to_i64_Ok. split.
    + intros (s1 & z & [[-> Hz] ->] & Hrest). rewrite get_bind in Hrest.
      apply st_bind_Ok in Hrest as (s2 & [] & [Hn ->]%require_Ok & Hrest).
      rewrite modify_bind in Hrest. apply IH in Hrest as (Hnd & Hf & Hh & ->). cbn in *.
      assert (Hk : object_key o ∉ object_key <$> objs).
      { intros (o' & E & Hin)%list_elem_of_fmap. rewrite Forall_forall in Hf. specialize (Hf o' Hin).
        by rewrite <- E, lookup_insert_eq in Hf. }
      split_and!; [by constructor| |by constructor|].
      * constructor; [done|]. eapply Forall_impl; [exact Hf|]. intros o' Ho'.
        by apply lookup_insert_None in Ho' as [? _].
      * unfold set_objects. cbn. f_equal. apply insert_rows_swap.
        by rewrite <- list_fmap_compose.
    + intros (Hnd & Hf & Hh & ->). apply NoDup_cons in Hnd as [Hk Hnd].
      apply Forall_cons in Hf as [Hn Hf]. apply Forall_cons in Hh as [Hz Hh].
      exists db, (create_height o). split; [done|]. rewrite get_bind. apply st_bind_Ok.
      exists db, tt. split; [by apply require_Ok|]. rewrite modify_bind. apply IH. cbn. split_and!; [done| |done|].
      * rewrite Forall_forall in *. intros o' Ho'. rewrite lookup_insert_ne; [by apply Hf|].
        intros E. apply Hk. rewrite E. by apply list_elem_of_fmap_2.
      * unfold set_objects. cbn. f_equal. symmetry. apply insert_rows_swap.
        by rewrite <- list_fmap_compose.
Qed.

Lemma sync_objects_Ok s db db' u :
  sync_objects s db = (db', Ok u) <-> fits s /\ db' = set_objects (object_rows s) db.
Proof.
  unfold sync_objects. rewrite modify_bind, insert_objects_Ok. unfold fits, object_rows. cbn.
  rewrite map_union_empty. unfold set_objects. cbn. split; [naive_solver|].
  intros [[? ?] ->]. split_and!; try done. by apply Forall_true.
Qed.

Lemma insert_events_Ok evs db db' u :
  insert_events evs db = (db', Ok u) <->
  NoDup (event_pk <$> evs) /\ Forall (fun e => events_t db !! event_pk e = None) evs /\
  Forall (fun e => is_Some (blocks_t db !! ev_height e) /\ ev_height e <= i64_max) evs /\
  db' = set_blocks (blocks_t db) (event_rows evs ∪ events_t db) db.
Proof.
  destruct u. revert db. unfold event_rows. induction evs as [|e evs IH]; intros db; cbn [insert_events].
  - unfold st_ret. split.
    + intros [= <-]. split_and!; [constructor..|]. simpl. rewrite map_empty_union. by destruct db.
    + intros (_ & _ & _ & ->). simpl. rewrite map_empty_union. by destruct db.
  - rewrite st_bind_Ok. setoid_rewrite lift_Ok. setoid_rewrite to_i64_Ok. split.
    + intros (s1 & z & [[-> Hz] ->] & Hrest). rewrite get_bind in Hrest.
      apply st_bind_Ok in Hrest as (s2 & [] & [Hb ->]%require_Ok & Hrest).
      apply st_bind_Ok in Hrest as (s2 & [] & [Hn ->]%require_Ok & Hrest).
      rewrite modify_bind in Hrest. apply IH in Hrest as (Hnd & Hf & Hh & ->). cbn in *.
      assert (Hk : event_pk e ∉ event_pk <$> evs).
      { intros (e' & E & Hin)%list_elem_of_fmap. rewrite Forall_forall in Hf. specialize (Hf e' Hin).
        by rewrite <- E, lookup_insert_eq in Hf. }
      split_and!; [by constructor| |by constructor|].
      * constructor; [done|]. eapply Forall_impl; [exact Hf|]. intros e' He'.
        by apply lookup_insert_None in He' as [? _].
      * unfold set_blocks. cbn. f_equal. apply insert_rows_swap. by rewrite <- list_fmap_compose.
    + intros (Hnd & Hf & Hh & ->). apply NoDup_cons in Hnd as [Hk Hnd].
      apply Forall_cons in Hf as [Hn Hf]. apply Forall_cons in Hh as [[Hb Hz] Hh].
      exists db, (ev_height e). split; [done|]. rewrite get_bind. apply st_bind_Ok.
      exists db, tt. split; [by apply require_Ok|]. apply st_bind_Ok.
      exists db, tt. split; [by apply require_Ok|]. rewrite modify_bind. apply IH. cbn.
      split_and!; [done| |done|].
      * rewrite Forall_forall in *. intros e' He'. rewrite lookup_insert_ne; [by apply Hf|].
        intros E. apply Hk. rewrite E. by apply list_elem_of_fmap_2.
      * unfold set_blocks. cbn. f_equal. symmetry. apply insert_rows_swap.
        by rewrite <- list_fmap_compose.
Qed.

Lemma insert_block_Ok d release db db' u :
  insert_block d release db = (db', Ok u) <->
  bd_height d <= i64_max /\ blocks_t db !! bd_height d = None /\
  map_Forall (fun _ row => br_block_hash row <> bd_block_hash d) (blocks_t db) /\
  release_ok release = true /\
  db' = set_blocks (<[bd_height d := block_row d release]> (blocks_t db)) (events_t db) db.
Proof.
  unfold insert_block. rewrite st_bind_Ok. setoid_rewrite lift_Ok. setoid_rewrite to_i64_Ok. split.
  - intros (s1 & z & [[-> Hz] ->] & Hr). rewrite get_bind in Hr.
    do 3 (apply st_bind_Ok in Hr as (? & [] & [? ->]%require_Ok & Hr)).
    unfold st_modify in Hr. by simplify_eq.
  - intros (? & ? & ? & ? & ->). exists db, (bd_height d). split; [done|]. rewrite get_bind.
    do 3 (apply st_bind_Ok; exists db, tt; split; [by apply require_Ok|]). by destruct u.
Qed.

Lemma load_state_Ok db db' s :
  load_state_for_update db = (db', Ok s) <->
  db' = db /\ exists bv sv, protocol_row db = Some (bv, sv) /\ from_value sv = Some s.
Proof.
  unfold load_state_for_update. rewrite get_bind, st_bind_Ok. setoid_rewrite lift_Ok.
  setoid_rewrite ok_or_Ok. split.
  - intros (? & [bv sv] & [? ->] & ? & ->). split; [done|]. by exists bv, sv.
  - intros (-> & bv & sv & ? & ?). by exists db, (bv, sv).
Qed.

(** ** What the reducer puts in a delta *)

Definition gives {A} (Q : A -> Prop) (m : st ChainState ReducerError A) : Prop :=
  forall s s' a, m s = (s', Ok a) -> Q a.

Lemma gives_ret {A} (Q : A -> Prop) a : Q a -> gives Q (st_ret a).
Proof. intros Ha s s' a' H. unfold st_ret in H. by simplify_eq. Qed.
Lemma gives_lift {A} (Q : A -> Prop) r : (forall a, r = Ok a -> Q a) -> gives Q (st_lift r).
Proof. intros Hr s s' a H. unfold st_lift in H. simplify_eq. by apply Hr. Qed.
Lemma gives_bind {A B} (R : A -> Prop) (Q : B -> Prop) m (f : A -> st ChainState ReducerError B) :
  gives R m -> (forall a, R a -> gives Q (f a)) -> gives Q (st_bind m f).
Proof. intros Hm Hf s s' c (s1 & a & H1 & H2)%st_bind_Ok. eapply Hf; [by eapply Hm|done]. Qed.
Lemma gives_any {A} (m : st ChainState ReducerError A) : gives (fun _ => True) m.
Proof. by intros s s' a. Qed.

Definition at_height (h : Z) (evs : list Event) : Prop := Forall (fun e => ev_height e = h) evs.

Lemma terminate_loop_height block tx txi evi r ns sub cs :
  gives (at_height (blk_height block)) (terminate_loop block tx txi evi r ns sub cs).
Proof.
  revert sub. induction cs as [|[i o] cs IH]; intros sub; simpl; [by apply gives_ret; constructor|].
  do 2 (eapply gives_bind; [apply gives_any|intros ? _]).
  eapply gives_bind; [apply IH|]. intros evs H. apply gives_ret. by constructor.
Qed.

Lemma apply_valid_operation_height block tx txi evi op :
  gives (fun e => ev_height e = blk_height block) (apply_valid_operation block tx txi evi op).
Proof.
  destruct op; simpl; repeat (eapply gives_bind; [apply gives_any|intros ? _]);
    try by apply gives_ret.
  destruct (protocol_status _); [by apply gives_lift| |by apply gives_lift].
  eapply gives_bind; [apply gives_any|intros ? _]. by apply gives_ret.
Qed.

Lemma process_transaction_height block tx txi :
  gives (at_height (blk_height block)) (process_transaction block tx txi).
Proof.
  unfold process_transaction, terminate_carriers. eapply gives_bind; [apply gives_any|]. intros s _.
  cbv zeta.
  repeat first [ apply terminate_loop_height | apply gives_ret; by repeat constructor
    | by apply gives_lift
    | eapply gives_bind; [apply apply_valid_operation_height|intros ? ?];
      apply gives_ret; by repeat constructor
    | eapply gives_bind; [apply gives_any|intros ? _] | case_decide
    | match goal with |- gives _ (match ?x with _ => _ end) => destruct x end ].
Qed.

Lemma block_loop_height block i txs :
  gives (at_height (blk_height block)) (active_block_loop block i txs) /\
  gives (at_height (blk_height block)) (init_block_loop block i txs).
Proof.
  revert i. induction txs as [|tx txs IH]; intros i; simpl; [by split; apply gives_ret; constructor|].
  destruct (IH (S i)) as [IH1 IH2].
  split; (eapply gives_bind; [apply gives_any|intros txi _]).
  - eapply gives_bind; [apply process_transaction_height|]. intros evs H1.
    eapply gives_bind; [exact IH1|]. intros more H2. apply gives_ret. by apply Forall_app.
  - eapply gives_bind; [apply gives_any|intros s _].
    eapply gives_bind; [|intros evs H1; eapply gives_bind; [exact IH2|]; intros more H2;
      apply gives_ret; by apply Forall_app].
    case_decide; [apply gives_ret; by repeat constructor|apply process_transaction_height].
Qed.

Lemma block_events_height block : gives (at_height (blk_height block)) (block_events block).
Proof.
  eapply gives_bind; [apply gives_any|intros s _]. destruct (protocol_status s).
  - destruct (list_find _ _) as [[i tx]|]; [|by apply gives_lift].
    eapply gives_bind; [apply gives_any|intros txi _].
    destruct (validate_configured_init _ _ _); [| |by apply gives_lift].
    + eapply gives_bind; [apply gives_any|intros ? _]. apply block_loop_height.
    + eapply gives_bind; [apply gives_any|intros ? _]. apply gives_ret. by repeat constructor.
  - apply block_loop_height.
  - apply gives_ret. constructor.
Qed.

(** The transaction loops leave the deployment, the phase and the tip alone. *)
Definition framed {A} (m : st ChainState ReducerError A) : Prop := forall s, same_frame s (m s).1.

Lemma framed_here {A} (r : res ReducerError A) : framed (st_lift r).
Proof. by intros s. Qed.
Lemma framed_get : framed st_get.
Proof. by intros s. Qed.
Lemma framed_modify f : (forall s, same_frame s (f s)) -> framed (st_modify f).
Proof. intros Hf s. apply Hf. Qed.
Lemma framed_bind {A B} (m : st ChainState ReducerError A) (f : A -> st ChainState ReducerError B) :
  framed m -> (forall a, framed (f a)) -> framed (st_bind m f).
Proof.
  intros Hm Hf s. unfold st_bind. specialize (Hm s). destruct (m s) as [s1 [a|e|]]; [|done..].
  specialize (Hf a s1). cbn in *. unfold same_frame in *. intuition congruence.
Qed.

Ltac framed_step := first
  [ apply framed_bind; [|intros ?] | apply framed_get | apply framed_here
  | apply framed_modify; by intros ? | by intros ? | case_decide
  | match goal with |- framed (match ?x with _ => _ end) => destruct x end ].

Lemma terminate_loop_framed block tx txi evi r ns sub cs :
  framed (terminate_loop block tx txi evi r ns sub cs).
Proof. revert sub. induction cs as [|[i o] cs IH]; intros sub; simpl; repeat (apply IH || framed_step). Qed.

Lemma process_transaction_framed block tx txi : framed (process_transaction block tx txi).
Proof.
  unfold process_transaction, terminate_carriers, apply_valid_operation. cbv zeta.
  repeat (apply terminate_loop_framed || framed_step).
Qed.

Lemma block_loop_framed block i txs :
  framed (active_block_loop block i txs) /\ framed (init_block_loop block i txs).
Proof.
  revert i. induction txs as [|tx txs IH]; intros i; [by split; intros s|].
  split; simpl; repeat (apply process_transaction_framed || apply IH || framed_step).
Qed.

(** A block that is applied settles the INIT question. *)
Lemma block_events_phase block s s1 evs :
  block_events block s = (s1, Ok evs) -> binding s1 = binding s /\ protocol_status s1 <> AwaitingInit.
Proof.
  unfold block_events, st_bind at 1, st_get. destruct (protocol_status s) eqn:Es.
  - destruct (list_find _ _) as [[i tx]|]; [|done]. intros (s2 & txi & [_ ->]%lift_Ok & H)%st_bind_Ok.
    destruct (validate_configured_init _ _ _) as [p|r|]; [| |done].
    + apply st_bind_Ok in H as (s2 & [] & [= <-] & H).
      destruct (proj2 (block_loop_framed block 0 (transactions block))
        (set_status (PActive (blk_height block) (ip_h_open p) (ip_h_close p)) s)) as (Eb & Ep & _).
      rewrite H in Eb, Ep. cbn in *. by rewrite Ep.
    + apply st_bind_Ok in H as (s2 & [] & [= <-] & H). unfold st_ret in H. by simplify_eq.
  - intros H. destruct (proj1 (block_loop_framed block 0 (transactions block)) s) as (Eb & Ep & _).
    rewrite H in Eb, Ep. cbn in *. by rewrite Ep, Es.
  - intros [= -> _]. by rewrite Es.
Qed.

(** What the store relies on in a delta of the reducer. *)
Lemma apply_block_delta block s s' d :
  apply_block block s = (s', Ok d) ->
  bd_before d = s /\ bd_height d = blk_height block /\ bd_block_hash d = blk_hash block /\
  tip_height s' = Some (blk_height block) /\ tip_hash s' = Some (blk_hash block) /\
  at_height (blk_height block) (bd_events d) /\ hr_height (bd_roots d) = blk_height block /\
  (forall h, tip_height s = Some h ->
     blk_height block = h + 1 /\ tip_hash s = Some (previous_hash block)) /\
  binding s' = binding s /\ protocol_status s' <> AwaitingInit.
Proof.
  intros (Hlink & _ & s1 & evs & er & orr & He & _ & _ & -> & ->)%apply_block_Ok.
  destruct (block_events_phase _ _ _ _ He) as [Eb Ep].
  split_and!; try done; [by eapply block_events_height|].
  intros h Hh. unfold validate_linkage in Hlink. rewrite Hh in Hlink. res_inv.
  apply checked_add_Some in Ha as [-> _]. split; by apply dec_stable.
Qed.

(** ** The journal *)

Lemma journal_bound b chain blocks events s :
  journal b chain blocks events s ->
  forall z, is_Some (blocks !! z) -> exists tip, tip_height s = Some tip /\ z <= tip.
Proof.
  induction 1 as [|chain blocks events block s s' d release _ IH _ Ha _ _]; intros z Hz.
  { by apply is_Some_None in Hz. }
  destruct (apply_block_delta _ _ _ _ Ha) as (_ & _ & _ & Ht & _ & _ & _ & Hl & _).
  exists (blk_height block). split; [done|]. apply lookup_insert_is_Some in Hz as [->|[_ Hz]]; [done|].
  apply IH in Hz as (tip & Htip & Hz). apply Hl in Htip. lia.
Qed.

Lemma journal_fresh b chain blocks events s block s' d :
  journal b chain blocks events s -> apply_block block s = (s', Ok d) ->
  blocks !! blk_height block = None.
Proof.
  intros Hj Ha. apply eq_None_not_Some. intros (tip & Ht & Hz)%(journal_bound _ _ _ _ _ Hj).
  apply apply_block_delta in Ha as (_ & _ & _ & _ & _ & _ & _ & Hl & _). apply Hl in Ht. lia.
Qed.

Lemma event_rows_height evs h k (row : EventRow JV) :
  at_height h evs -> event_rows evs !! k = Some row -> key_height k = h.
Proof.
  intros Hh Hk. apply elem_of_list_to_map_2, list_elem_of_fmap in Hk as (e & [= -> ->] & He).
  unfold at_height in Hh. rewrite Forall_forall in Hh. by apply Hh.
Qed.

Lemma journal_events b chain blocks events s :
  journal b chain blocks events s ->
  forall k row, events !! k = Some row -> is_Some (blocks !! key_height k).
Proof.
  induction 1 as [|chain blocks events block s s' d release _ IH _ Ha _ _]; intros k row Hk; [done|].
  apply apply_block_delta in Ha as (_ & _ & _ & _ & _ & Hh & _).
  apply lookup_insert_is_Some'. apply lookup_union_Some_raw in Hk as [Hk|[_ Hk]]; [|right; by eapply IH].
  left. symmetry. by eapply event_rows_height.
Qed.

(** Deleting the tip's events gives back the log before it. *)
Lemma cascade_tip (evs : list Event) (h : Z) (events : gmap EventKey (EventRow JV)) :
  at_height h evs -> (forall k row, events !! k = Some row -> key_height k <> h) ->
  filter (fun kv => key_height kv.1 <> h) (event_rows evs ∪ events) = events.
Proof.
  intros Hh He. apply map_eq. intros k. apply option_eq. intros row.
  rewrite map_lookup_filter_Some. cbn. split.
  - intros [[Hk|[_ Hk]]%lookup_union_Some_raw Hn]; [|done]. by eapply event_rows_height in Hk.
  - intros Hk. pose proof (He _ _ Hk) as Hn. split; [|done]. apply lookup_union_Some_raw. right.
    split; [|done]. apply eq_None_not_Some. intros [row' Hr]. by eapply event_rows_height in Hr.
Qed.

Lemma journal_tip_height b chain blocks events s :
  journal b chain blocks events s -> tip_height s = blk_height <$> head chain /\
  tip_hash s = blk_hash <$> head chain /\ binding s = b.
Proof.
  induction 1 as [|chain blocks events block s s' d release _ IH _ Ha _ _]; [done|].
  pose proof (apply_block_delta _ _ _ _ Ha) as (_ & _ & _ & -> & -> & _ & _ & _ & -> & _).
  destruct IH as (_ & _ & ->). done.
Qed.

End StoreInv.
