(* ===== verification/Progress.v ===== *)
(** * Progress of the reducer

    Which chains of blocks the reducer applies, judged on their heights, hashes, sizes and INIT
    alone: exactly those are processed to their last block. *)

From S2P Require Import Prelude Types Marker Roots Reducer Validators Steps Invariant Chain Reach Store StoreInv.

Section Progress.
Context {P : Primitives}.

Definition tip_of (s : ChainState) : option (Z * Hash32) :=
  h ← tip_height s; hash ← tip_hash s; Some (h, hash).

Definition name_of (block : BlockView) : Z * Hash32 := (blk_height block, blk_hash block).

(** Every block names its predecessor, the first one the tip, and has the next height. *)
Fixpoint linked (tip : option (Z * Hash32)) (blocks : list BlockView) : Prop :=
  match blocks with
  | [] => True
  | block :: rest =>
      match tip with
      | Some (h, hash) => blk_height block = h + 1 /\ h + 1 <= u64_max /\ previous_hash block = hash
      | None => True
      end /\ linked (Some (name_of block)) rest
  end.

(** What Bitcoin promises of the transactions of consecutive blocks, and the coins behind them. *)
Fixpoint blocks_ok (ns : Hash32) (g : Ledger) (blocks : list BlockView) : Prop :=
  match blocks with
  | [] => True
  | block :: rest =>
      txs_ok ns g (transactions block) /\ blocks_ok ns (ledger_txs (transactions block) g) rest
  end.

Definition coins_after (blocks : list BlockView) (g : Ledger) : Ledger :=
  foldl (fun g block => ledger_txs (transactions block) g) g blocks.

(** A chain the protocol can process from a state: linked to its tip, of indexable blocks, and
    beginning with the INIT if the deployment has not begun. *)
Record processable (s : ChainState) (blocks : list BlockView) : Prop := {
  pc_linked : linked (tip_of s) blocks;
  pc_sized : Forall (fun block => len (transactions block) <= u32_max) blocks;
  pc_init : protocol_status s = AwaitingInit -> forall block, head blocks = Some block ->
    Exists (fun tx => tx_txid tx = init_txid (binding s)) (transactions block);
}.

Lemma reachable_tip b g s :
  reachable b g s -> tip_height s = None /\ tip_of s = None \/
  exists h hash, tip_height s = Some h /\ tip_hash s = Some hash /\ tip_of s = Some (h, hash).
Proof.
  destruct 1 as [|g s block s' d _ _ (_ & _ & _ & Eh & Ex & _)%apply_block_delta]; [by left|].
  right. do 2 eexists. split; [exact Eh|]. split; [exact Ex|]. unfold tip_of. by rewrite Eh, Ex.
Qed.

Lemma extends_tip b g s block :
  reachable b g s -> extends s block <->
  match tip_of s with
  | Some (h, hash) => blk_height block = h + 1 /\ h + 1 <= u64_max /\ previous_hash block = hash
  | None => True
  end.
Proof.
  unfold extends. intros [[Eh ->]|(h & hash & -> & -> & ->)]%reachable_tip.
  - rewrite Eh. naive_solver.
  - split; [intros Hx; destruct (Hx h eq_refl) as (? & ? & [= ->]); done|].
    by intros (? & ? & <-) h' [= <-].
Qed.

Lemma applied_tip block s s' d : apply_block block s = (s', Ok d) -> tip_of s' = Some (name_of block).
Proof. intros (_ & _ & _ & Eh & Ex & _)%apply_block_delta. unfold tip_of. by rewrite Eh, Ex. Qed.

Lemma applied_sized block s s' d :
  apply_block block s = (s', Ok d) -> extends s block /\ len (transactions block) <= u32_max.
Proof. intros (Hl & Hs & _)%apply_block_Ok. split; [by apply validate_linkage_exact|done]. Qed.

(** The first block of a processable chain is applied, and the rest is processable after it. *)
Lemma processable_step b g s block rest :
  reachable b g s -> txs_ok (namespace b) g (transactions block) ->
  processable s (block :: rest) <->
  exists s' d, apply_block block s = (s', Ok d) /\
    reachable b (ledger_txs (transactions block) g) s' /\ processable s' rest.
Proof.
  intros Hr Hok. destruct (reachable_state_inv _ _ _ Hr) as [_ Eb]. split.
  - intros [[Hl Hls] [Hs Hss]%Forall_cons Hi].
    destruct (reachable_advance b g s block) as (s' & d & Ha & Hr'); [done|done| |done| |].
    { by apply validate_linkage_exact, (extends_tip b g). }
    { intros E. rewrite <- Eb. by apply Hi. }
    exists s', d. split_and!; [done..|]. split; [by rewrite (applied_tip _ _ _ _ Ha)|done|].
    intros E. by apply apply_block_delta in Ha as (_ & _ & _ & _ & _ & _ & _ & _ & _ & ?).
  - intros (s' & d & Ha & Hr' & [Hl Hs _]). destruct (applied_sized _ _ _ _ Ha) as [Hx Hz].
    rewrite (applied_tip _ _ _ _ Ha) in Hl. split; [split; [by apply (extends_tip b g)|done]|by constructor|].
    intros E x [= <-]. destruct (decide (Exists (fun tx => tx_txid tx = init_txid (binding s)) (transactions block)))
      as [|Hn%not_Exists_Forall]; [done| |intros; apply _].
    assert (He : apply_block block s = (s, Err ConfiguredInitAbsent)).
    { apply apply_block_error. split; [done|]. right. split; [by apply validate_linkage_exact|]. by right. }
    congruence.
Qed.

(** C21: the reducer makes progress on exactly the chains it should: from a reachable state and for
    transactions that spend what the ledger says, a list of blocks is applied to its end if and only
    if every block has the next height and names the block before it, none has more transactions
    than a 32-bit index, and the INIT is in the first block if the deployment has not begun.  Each
    block then has one delta, in order, and the last one is the tip. *)
Theorem chain_progress b g s blocks :
  reachable b g s -> blocks_ok (namespace b) g blocks ->
  (processable s blocks <-> exists s' ds, connect_all blocks s = (s', Ok ds)) /\
  forall s' ds, connect_all blocks s = (s', Ok ds) ->
    Forall2 (fun block d => (bd_height d, bd_block_hash d) = name_of block) blocks ds /\
    tip_of s' = match last blocks with Some block => Some (name_of block) | None => tip_of s end /\
    reachable b (coins_after blocks g) s'.
Proof.
  revert g s. induction blocks as [|block rest IH]; intros g s Hr Hok.
  { split; [split; [intros _; by exists s, []|by split; [|constructor|]]|].
    intros s' ds [= <- <-]. by split; [constructor|]. }
  destruct Hok as [Hok Hrest]. rewrite (processable_step b g) by done. split.
  - split.
    + intros (s1 & d & Ha & Hr1 & Hp). destruct (IH _ _ Hr1 Hrest) as [[Hc _] _].
      destruct (Hc Hp) as (s' & ds & Hds). exists s', (d :: ds). apply connect_all_cons. by exists s1, d, ds.
    + intros (s' & ds & (s1 & d & ds' & Ha & Hds & _)%connect_all_cons). exists s1, d.
      assert (Hr1 : reachable b (ledger_txs (transactions block) g) s1) by by eapply reach_block.
      split_and!; [done..|]. apply (IH _ _ Hr1 Hrest). by exists s', ds'.
  - intros s' ds (s1 & d & ds' & Ha & Hds & ->)%connect_all_cons.
    assert (Hr1 : reachable b (ledger_txs (transactions block) g) s1) by by eapply reach_block.
    destruct (IH _ _ Hr1 Hrest) as [_ Hc]. destruct (Hc _ _ Hds) as (Hf & Ht & Hr').
    split_and!; [|rewrite Ht, (applied_tip _ _ _ _ Ha); by rewrite last_cons; destruct (last rest)|exact Hr'].
    constructor; [|done]. by apply apply_block_delta in Ha as (_ & -> & -> & _).
Qed.
End Progress.
