(* ===== verification/Commit.v ===== *)
(** * Commits and rollbacks

    The store as an abstract stack of blocks: committing a block pushes it, rolling back the tip
    pops it, and nothing else is ever observable, whatever the environment does to a transaction.
    On a canonical chain the store accepts every block the reducer accepts. *)

From S2P Require Import Prelude Types Marker Roots Reducer Validators Steps Invariant Chain Reach EventLog Store StoreInv.

Section Commit.
Context {JV : Type} {P : Primitives}.
Context `{!Json JV Binding, !Json JV ChainState, !Json JV BlockDelta, !Json JV Event,
          !Json JV ObjectState, !Json JV TxView}.

#[local] Abbreviation DB := (Db JV).

(** What a body that commits, fails or is lost leaves behind. *)
Lemma transact_cases {A} io (body : st DB StoreError A) db db' r :
  transact io body db = (db', r) ->
  (exists d a, body db = (d, Ok a) /\
     (io = IoOk /\ db' = d /\ r = Ok a \/ io = IoFail /\ db' = db /\ r = Err DbFailure \/
      io = IoLost /\ db' = d /\ r = Err DbFailure)) \/
  (exists d e, body db = (d, Err e) /\ db' = db /\ r = Err e) \/
  (exists d, body db = (d, Panic) /\ db' = db /\ r = Panic).
Proof. unfold transact. destruct (body db) as [d [a|e|]]; destruct io; intros [= <- <-]; eauto 12. Qed.

Ltac st_exec tac := apply st_bind_Ok; do 2 eexists; split; [tac|].

Lemma apply_block_tx_Ok b chain db s block post d release db' u :
  db_ok b chain db s -> apply_block block s = (post, Ok d) ->
  apply_block_tx post d release db = (db', Ok u) <->
  (blk_height block <= i64_max /\
   map_Forall (fun _ row => br_block_hash row <> blk_hash block) (blocks_t db) /\
   release_ok release = true /\ NoDup (event_pk <$> bd_events d) /\ fits post) /\
  db' = mkDb ((fun row => (row.1, to_value post)) <$> protocol_row db)
          (<[blk_height block := block_row d release]> (blocks_t db))
          (event_rows (bd_events d) ∪ events_t db) (object_rows post) (mempool_t db) (reorgs_t db).
Proof.
  intros [(bv & sv & Er & Eb & Es) Eo Hf Hj] Ha.
  pose proof (apply_block_delta _ _ _ _ Ha) as (E0 & Eh & Ehash & _ & _ & Hev & _).
  pose proof (journal_fresh _ _ _ _ _ _ _ _ Hj Ha) as Hfresh.
  assert (Hnew : Forall (fun e => events_t db !! event_pk e = None) (bd_events d)).
  { apply Forall_forall. intros e He. unfold at_height in Hev. rewrite Forall_forall in Hev.
    apply eq_None_not_Some. intros [row Hrow]. apply (journal_events _ _ _ _ _ Hj) in Hrow.
    unfold key_height in Hrow. cbn in Hrow. rewrite Hev, Hfresh in Hrow by done.
    by apply is_Some_None in Hrow. }
  unfold apply_block_tx. rewrite st_bind_Ok. split.
  - intros (? & stored & (-> & ? & ? & ? & ?)%load_state_Ok & Hr). simplify_eq.
    apply st_bind_Ok in Hr as (? & [] & [_ ->]%require_Ok & Hr).
    apply st_bind_Ok in Hr as (? & [] & (Hi & _ & Hu & Hrel & ->)%insert_block_Ok & Hr).
    apply st_bind_Ok in Hr as (? & [] & (Hnd & _ & _ & ->)%insert_events_Ok & Hr).
    apply st_bind_Ok in Hr as (? & [] & (Hfit & ->)%sync_objects_Ok & Hr).
    unfold save_state, st_modify in Hr. cbn in Hr. rewrite Er in *. cbn in Hr. simplify_eq.
    rewrite Eh, Ehash in *. done.
  - intros ((Hi & Hu & Hrel & Hnd & Hfit) & ->). exists db, s. split.
    { apply load_state_Ok. split; [done|]. by exists bv, sv. }
    apply st_bind_Ok. eexists db, tt. split; [by apply require_Ok|].
    apply st_bind_Ok. eexists _, tt. split.
    { apply insert_block_Ok. rewrite Eh, Ehash. done. }
    apply st_bind_Ok. eexists _, tt. split.
    { apply insert_events_Ok. split_and!; [done|done| |done]. eapply Forall_impl; [exact Hev|].
      intros e ->. cbn. by rewrite lookup_insert_eq. }
    apply st_bind_Ok. eexists _, tt. split; [by apply sync_objects_Ok|].
    destruct u. unfold save_state, st_modify. cbn. by rewrite Er.
Qed.

(** No statement of the store panics. *)
Definition no_panic {A} (m : st DB StoreError A) : Prop := forall db, (m db).2 <> Panic.

Lemma no_panic_bind {A B} (m : st DB StoreError A) (f : A -> st DB StoreError B) :
  no_panic m -> (forall a, no_panic (f a)) -> no_panic (st_bind m f).
Proof.
  intros Hm Hf db. unfold st_bind. specialize (Hm db). destruct (m db) as [db1 [a|e|]]; [apply Hf|done..].
Qed.
Lemma no_panic_require (Q : Prop) `{Decision Q} e : no_panic (require Q e).
Proof. intros db. unfold require, st_lift. by case_decide. Qed.
Lemma no_panic_ok_or {A} (o : option A) e : no_panic (st_lift (ok_or e o)).
Proof. intros db. by destruct o. Qed.
Lemma no_panic_to_i64 z : no_panic (st_lift (to_i64 z)).
Proof. apply no_panic_ok_or. Qed.
Lemma no_panic_transact {A} io (m : st DB StoreError A) : no_panic m -> no_panic (transact io m).
Proof.
  intros Hm db. specialize (Hm db). unfold transact. destruct (m db) as [d [a|e|]]; [by destruct io|done..].
Qed.

Ltac no_panic_step := first
  [ apply no_panic_bind; [|intros ?] | apply no_panic_require | apply no_panic_ok_or
  | apply no_panic_to_i64 | by intros ? ].

Lemma insert_objects_no_panic objs : no_panic (insert_objects objs).
Proof. induction objs as [|o objs IH]; cbn [insert_objects]; repeat (apply IH || no_panic_step). Qed.
Lemma insert_events_no_panic evs : no_panic (insert_events evs).
Proof. induction evs as [|e evs IH]; cbn [insert_events]; repeat (apply IH || no_panic_step). Qed.

Lemma store_apply_block_no_panic io post d release : no_panic (store_apply_block io post d release).
Proof.
  unfold store_apply_block. repeat no_panic_step. apply no_panic_transact.
  unfold apply_block_tx, load_state_for_update, insert_block, sync_objects, save_state.
  repeat (apply insert_objects_no_panic || apply insert_events_no_panic || no_panic_step).
Qed.

Lemma apply_block_tx_db_ok b chain db s block post d release db' u :
  db_ok b chain db s -> apply_block block s = (post, Ok d) ->
  apply_block_tx post d release db = (db', Ok u) -> db_ok b (block :: chain) db' post.
Proof.
  intros Hdb Ha H. apply (apply_block_tx_Ok _ _ _ _ _ _ _ _ _ _ Hdb Ha) in H as [(Hi & _ & _ & Hnd & Hfit) ->].
  destruct Hdb as [(bv & sv & Er & Eb & Es) Eo Hf Hj]. split; cbn; [|done|done|by econstructor].
  rewrite Er. exists bv, (to_value post). split_and!; [done..|]. apply from_to_value.
Qed.

Lemma rollback_tx_tip b block chain db s :
  db_ok b (block :: chain) db s ->
  exists s0 db', rollback_tx db = (db', Ok (Some s0)) /\
    exists d release, apply_block block s0 = (s, Ok d) /\ db_ok b chain db' s0 /\
    blocks_t db !! blk_height block = Some (block_row d release) /\
    mempool_t db' = mempool_t db /\ blocks_t db' = delete (blk_height block) (blocks_t db) /\
    events_t db' = filter (fun kv => key_height kv.1 <> blk_height block) (events_t db) /\
    reorgs_t db' = mkReorgRow (blk_height block) (blk_hash block) (tip_height s0) (tip_hash s0) :: reorgs_t db.
Proof.
  intros [(bv & sv & Er & Eb & Es) Eo Hf Hj].
  inversion Hj as [|? blocks events ? s0 ? d release Hj0 Hf0 Ha Hi Hnd E1 Ebl Eev]; subst.
  pose proof (journal_fresh _ _ _ _ _ _ _ _ Hj0 Ha) as Hfresh.
  assert (Hdis : disconnect_with d s = Ok s0).
  { unfold disconnect_with. by rewrite (disconnect_apply _ _ _ _ Ha). }
  assert (Hopt : opt_i64 (tip_height s0) = Ok (tip_height s0)).
  { destruct (tip_height s0) as [z|] eqn:Ez; [|done]. unfold opt_i64.
    apply apply_block_delta in Ha as (_ & _ & _ & _ & _ & _ & _ & Hl & _). apply Hl in Ez as [Ez _].
    by rewrite (proj2 (to_i64_Ok z z)) by lia. }
  pose proof (apply_block_delta _ _ _ _ Ha) as (E0 & Eh & Ehash & Et & _ & Hev & _).
  exists s0. eexists. split.
  - unfold rollback_tx. apply st_bind_Ok. exists db, s. split.
    { apply load_state_Ok. split; [done|]. by exists bv, sv. }
    rewrite Et. cbv beta iota.
    st_exec ltac:(apply lift_Ok; split; [by apply to_i64_Ok|done]). rewrite get_bind, ?Eh.
    st_exec ltac:(apply lift_Ok; split; [apply ok_or_Ok; by rewrite <- Ebl, lookup_insert_eq|done]).
    st_exec ltac:(apply lift_Ok; split; [apply ok_or_Ok; apply from_to_value|done]).
    st_exec ltac:(apply lift_Ok; split; [apply Hdis|done]).
    unfold delete_block. rewrite modify_bind.
    apply st_bind_Ok. eexists _, tt. split; [by apply sync_objects_Ok|].
    unfold save_state. rewrite modify_bind. cbn. rewrite Er. cbn. rewrite Hopt. reflexivity.
  - exists d, release. cbn. rewrite Ehash. split_and!;
      [done| |by rewrite lookup_insert_eq|by rewrite ?Ebl, ?Eev..].
    split; cbn; [|done|done|].
    + exists bv, (to_value s0). split_and!; [done..|]. apply from_to_value.
    + rewrite <- Ebl, <- Eev, delete_insert_id, cascade_tip; [done|done| |done].
      intros k row Hk Ek. apply (journal_events _ _ _ _ _ Hj0) in Hk. rewrite Ek, Hfresh in Hk.
      by apply is_Some_None in Hk.
Qed.

(** The answer to a transaction whose body succeeds. *)
Definition acked {A} (io : Io) (a : A) : res StoreError A :=
  match io with IoOk => Ok a | _ => Err DbFailure end.

Lemma rollback_tx_empty b db s :
  db_ok b [] db s -> rollback_tx db = (db, Ok None).
Proof.
  intros [(bv & sv & Er & Eb & Es) Eo Hf Hj]. inversion Hj; subst.
  unfold rollback_tx. apply st_bind_Ok. exists db, (new_state b). split; [|done].
  apply load_state_Ok. split; [done|]. by exists bv, sv.
Qed.

Lemma commit_cases b chain db s block post d release io db' r :
  db_ok b chain db s -> apply_block block s = (post, Ok d) ->
  store_apply_block io post d release db = (db', r) ->
  r = Ok tt /\ io = IoOk /\ db_ok b (block :: chain) db' post \/
  (exists e, r = Err e) /\ (db' = db \/ io = IoLost /\ db_ok b (block :: chain) db' post).
Proof.
  intros Hdb Ha H.
  pose proof (store_apply_block_no_panic io post d release db) as Hp. rewrite H in Hp.
  pose proof (apply_block_delta _ _ _ _ Ha) as (_ & Eh & Ehash & Et & Eth & _).
  unfold store_apply_block, st_bind, require, st_lift in H.
  rewrite !decide_True in H by congruence.
  apply transact_cases in H as [(d' & [] & Hb & Hio)|[(d' & e & _ & -> & ->)|(d' & _ & _ & ->)]];
    [|eauto|done].
  pose proof (apply_block_tx_db_ok _ _ _ _ _ _ _ _ _ _ Hdb Ha Hb).
  destruct Hio as [(-> & -> & ->)|[(-> & -> & ->)|(-> & -> & ->)]]; eauto 10.
Qed.

(** C18: a block commit is atomic whatever the environment does: either it is acknowledged and
    the database holds the chain with the block on top, or it fails with the database untouched,
    or its acknowledgement is lost after everything was written.  In no case does the database
    hold part of a block, and the store never panics. *)
Theorem commit_atomic b chain db s block post d release io db' r :
  db_ok b chain db s -> apply_block block s = (post, Ok d) ->
  store_apply_block io post d release db = (db', r) ->
  r = Ok tt /\ io = IoOk /\ db_ok b (block :: chain) db' post \/
  (exists e, r = Err e) /\ (db' = db \/ io = IoLost /\ db_ok b (block :: chain) db' post).
Proof. apply commit_cases. Qed.

Lemma rollback_cases b chain db s io db' r :
  db_ok b chain db s -> rollback_tip io db = (db', r) ->
  match chain with
  | [] => db' = db /\ r = acked io None
  | block :: rest =>
      exists s0 d, apply_block block s0 = (s, Ok d) /\
      r = acked io (Some s0) /\
      (io = IoFail /\ db' = db \/
       io <> IoFail /\ db_ok b rest db' s0 /\ mempool_t db' = mempool_t db /\
       reorgs_t db' = mkReorgRow (blk_height block) (blk_hash block) (tip_height s0) (tip_hash s0)
                      :: reorgs_t db)
  end.
Proof.
  intros Hdb H. unfold rollback_tip, transact in H. destruct chain as [|block rest].
  - rewrite (rollback_tx_empty _ _ _ Hdb) in H. by destruct io; simplify_eq.
  - destruct (rollback_tx_tip _ _ _ _ _ Hdb) as (s0 & db1 & Hr & d & ? & Ha & Hok & _ & Hm & _ & _ & Hj). rewrite Hr in H.
    exists s0, d. split; [done|]. destruct io; simplify_eq; (split; [done|]); [right|left|right]; done.
Qed.

(** C19: rolling back the tip of a consistent database can only fail with the environment: with
    a block on top it always restores the chain and the state below that block, in every table,
    and records the reorganisation; with no block it changes nothing.  A failed rollback leaves
    the database as it was. *)
Theorem rollback_exact b chain db s io db' r :
  db_ok b chain db s -> rollback_tip io db = (db', r) ->
  match chain with
  | [] => db' = db /\ r = acked io None
  | block :: rest =>
      exists s0 d, apply_block block s0 = (s, Ok d) /\
      r = acked io (Some s0) /\
      (io = IoFail /\ db' = db \/
       io <> IoFail /\ db_ok b rest db' s0 /\ mempool_t db' = mempool_t db /\
       reorgs_t db' = mkReorgRow (blk_height block) (blk_hash block) (tip_height s0) (tip_hash s0)
                      :: reorgs_t db)
  end.
Proof. apply rollback_cases. Qed.

Lemma stale_refused b chain db s post d release io :
  db_ok b chain db s -> bd_before d <> s ->
  exists e, store_apply_block io post d release db = (db, Err e).
Proof.
  intros [(bv & sv & Er & Eb & Es) _ _ _] Hn.
  unfold store_apply_block, st_bind at 1 2, require at 1 2, st_lift.
  case_decide; [|by eexists]. case_decide; [|by eexists]. exists StateChanged.
  assert (Hb : apply_block_tx post d release db = (db, Err StateChanged)).
  { unfold apply_block_tx, st_bind at 1.
    rewrite (proj2 (load_state_Ok db db s)) by (split; [done|]; by exists bv, sv).
    unfold st_bind at 1, require, st_lift. by rewrite decide_False by congruence. }
  unfold transact. by rewrite Hb.
Qed.

(** ** Progress on a canonical chain *)

Lemma index_fits txids s :
  index_ok txids s -> (forall k o, objects s !! k = Some o -> create_height o <= i64_max) -> fits s.
Proof.
  intros [Ho _] Hh. split.
  - unfold bt_values. rewrite <- list_fmap_compose.
    replace (object_key ∘ snd <$> bt_entries (objects s)) with (fst <$> bt_entries (objects s));
      [apply bt_entries_NoDup|].
    apply list_fmap_ext. intros i [k o] Hi. apply list_elem_of_lookup_2, elem_of_bt_entries in Hi.
    apply Ho in Hi as [E _]. by cbn.
  - apply Forall_forall. intros o [k Hk]%elem_of_bt_values. by eapply Hh.
Qed.

Lemma fits_height s k o : fits s -> objects s !! k = Some o -> create_height o <= i64_max.
Proof.
  intros [_ Hf] Hk. rewrite Forall_forall in Hf. apply Hf, elem_of_bt_values. by exists k.
Qed.

Lemma events_pk_NoDup evs : StronglySorted (key_lt event_key) evs -> NoDup (event_pk <$> evs).
Proof.
  intros Hs%key_lt_NoDup. apply (NoDup_fmap_1 (fun k : EventKey => (k.1.1.2, k.1.2, k.2))).
  by rewrite <- list_fmap_compose.
Qed.

(** On a canonical chain the store accepts every block the reducer accepts: with a working
    connection, a height within [bigint], a hash that is not already stored and a well-formed
    release identity, no constraint of the schema is violated and the commit succeeds. *)
Lemma commit_accepts b g chain db s block post d release :
  db_ok b chain db s -> reachable b g s -> txs_ok (namespace b) g (transactions block) ->
  apply_block block s = (post, Ok d) ->
  0 <= blk_height block <= i64_max -> release_ok release = true ->
  map_Forall (fun _ row => br_block_hash row <> blk_hash block) (blocks_t db) ->
  exists db', store_apply_block IoOk post d release db = (db', Ok tt) /\
    db_ok b (block :: chain) db' post.
Proof.
  intros Hdb Hr Hok Ha Hh Hrel Hu.
  pose proof (apply_block_delta _ _ _ _ Ha) as (_ & Eh & Ehash & Et & Eth & Hev & _).
  destruct (events_facts _ _ _ _ _ _ Hr Hok ltac:(unfold is_u64, u64_max; unfold i64_max in Hh; lia) Ha)
    as [Hsort _].
  assert (Hfit : fits post).
  { pose proof (reach_block _ _ _ _ _ _ Hr Hok Ha) as Hr'.
    destruct (reachable_state_inv _ _ _ Hr') as [[_ Hix _] _]. apply (index_fits _ _ Hix). intros k o Hk.
    rewrite (apply_block_replay _ _ _ _ _ _ Hr Hok Ha) in Hk.
    destruct (replay_create_height _ _ _ _ _ _ Hev Hk) as [->|(o0 & Hk0 & <-)]; [lia|].
    eapply fits_height; [by apply (dk_fits _ _ _ _ Hdb)|done]. }
  assert (Hb : exists db', apply_block_tx post d release db = (db', Ok tt)).
  { eexists. apply (apply_block_tx_Ok _ _ _ _ _ _ _ _ _ _ Hdb Ha).
    split; [|done]. split_and!; [lia|done|done|by apply events_pk_NoDup|done]. }
  destruct Hb as [db' Hb]. exists db'. split; [|by eapply apply_block_tx_db_ok].
  unfold store_apply_block, st_bind, require, st_lift. rewrite !decide_True by congruence.
  unfold transact. by rewrite Hb.
Qed.

(** Committing a block and rolling it back restores the block, event and object tables row
    for row, and the state; what remains is one more entry in the reorganisation journal. *)
Lemma commit_rollback_roundtrip b chain db s block post d release db1 :
  db_ok b chain db s -> apply_block block s = (post, Ok d) ->
  store_apply_block IoOk post d release db = (db1, Ok tt) ->
  exists db2, rollback_tip IoOk db1 = (db2, Ok (Some s)) /\ load_state IoOk db2 = (db2, Ok s) /\
    blocks_t db2 = blocks_t db /\ events_t db2 = events_t db /\ objects_t db2 = objects_t db /\
    mempool_t db2 = mempool_t db /\
    reorgs_t db2 = mkReorgRow (blk_height block) (blk_hash block) (tip_height s) (tip_hash s) :: reorgs_t db.
Proof.
  intros Hdb Ha H.
  pose proof (apply_block_delta _ _ _ _ Ha) as (E0 & Eh & Ehash & Et & Eth & Hev & _).
  assert (Hb : apply_block_tx post d release db = (db1, Ok tt)).
  { unfold store_apply_block, st_bind, require, st_lift in H. rewrite !decide_True in H by congruence.
    unfold transact in H. by destruct (apply_block_tx post d release db) as [d' [[]|e|]]; simplify_eq. }
  pose proof (apply_block_tx_db_ok _ _ _ _ _ _ _ _ _ _ Hdb Ha Hb) as Hdb1.
  destruct (rollback_tx_tip _ _ _ _ _ Hdb1) as (s0 & db2 & Hr & d' & rel' & Ha' & Hok & Hrow & Hm & Hbl & Hev2 & Hj).
  apply (apply_block_tx_Ok _ _ _ _ _ _ _ _ _ _ Hdb Ha) in Hb as [_ ->]. cbn in *.
  rewrite lookup_insert_eq in Hrow. injection Hrow as _ _ _ _ _ _ _ Hd.
  apply to_value_inj in Hd as <-. apply apply_block_delta in Ha' as [<- _]. rewrite E0 in *.
  exists db2. unfold rollback_tip, transact. rewrite Hr. destruct Hdb as [_ Eo _ Hjr], Hok as [Hrow' Eo' _ _].
  split_and!; [done| | | |by rewrite Eo, Eo'|done|done].
  - apply load_state_Ok. destruct Hrow' as (bv & sv & ? & _ & ?). split; [done|]. by exists bv, sv.
  - rewrite Hbl. apply delete_insert_id. by eapply journal_fresh.
  - rewrite Hev2. apply cascade_tip; [done|]. intros k row Hk Ek.
    apply (journal_events _ _ _ _ _ Hjr) in Hk. rewrite Ek, (journal_fresh _ _ _ _ _ _ _ _ Hjr Ha) in Hk.
    by apply is_Some_None in Hk.
Qed.
End Commit.
