(* ===== verification/Queries.v ===== *)
(** * What the store's readers see

    The queries answer from the state and the log of the stored chain: the stored state is the
    reducer run over the chain, the roots and events at a height are those of the block at that
    height, and the carrier query is the reducer's own carrier index. *)

From S2P Require Import Prelude Types Marker Roots Reducer Validators Steps Invariant Chain Reach EventLog Store StoreInv Commit.

Section Queries.
Context {JV : Type} {P : Primitives}.
Context `{!Json JV Binding, !Json JV ChainState, !Json JV BlockDelta, !Json JV Event,
          !Json JV ObjectState, !Json JV TxView}.

#[local] Abbreviation DB := (Db JV).

(** ** The deployment *)

Definition empty_db : DB := mkDb None ∅ ∅ ∅ ∅ [].

Lemma fits_new b : fits (new_state b).
Proof. split; constructor. Qed.

Lemma bind_fresh b :
  exists db, bind_or_load IoOk b empty_db = (db, Ok (new_state b)) /\ db_ok b [] db (new_state b).
Proof.
  eexists. split; [reflexivity|]. split; cbn; [|done|apply fits_new|constructor].
  do 2 eexists. split; [done|]. split; apply from_to_value.
Qed.

(** A database answers only for the deployment it was bound to: a start with the same
    binding gets the stored state, a start with any other is refused, and neither changes it. *)
Lemma bind_exact b chain db s b' io :
  db_ok b chain db s ->
  bind_or_load io b' db = (db, if decide (b' = b) then acked io s else Err BoundElsewhere).
Proof.
  intros [(bv & sv & Er & Eb & Es) _ _ _].
  unfold bind_or_load, transact. rewrite get_bind, Er. cbn.
  unfold st_bind, st_lift, require. rewrite Eb. cbn. case_decide as E.
  - subst. rewrite decide_True by done. rewrite Es. by destruct io.
  - by rewrite decide_False by congruence.
Qed.

(** ** The chain *)

Lemma connect_all_snoc blocks block s s1 s2 ds d :
  connect_all blocks s = (s1, Ok ds) -> apply_block block s1 = (s2, Ok d) ->
  connect_all (blocks ++ [block]) s = (s2, Ok (ds ++ [d])).
Proof.
  revert s ds. induction blocks as [|b0 blocks IH]; intros s ds.
  - intros [= -> <-] Ha. apply connect_all_cons. by exists s2, d, [].
  - intros (s3 & d3 & ds3 & H1 & H2 & ->)%connect_all_cons Ha. apply connect_all_cons.
    exists s3, d3, (ds3 ++ [d]). split_and!; [done|by apply IH|done].
Qed.

(** What the journal holds of one block. *)
Definition recorded (blocks : gmap Z (BlockRow JV)) (events : gmap EventKey (EventRow JV))
    (d : BlockDelta) : Prop :=
  (exists release, blocks !! bd_height d = Some (block_row d release)) /\
  bd_height d <= i64_max /\ at_height (bd_height d) (bd_events d) /\
  NoDup (event_pk <$> bd_events d) /\ hr_height (bd_roots d) = bd_height d /\
  hr_block_hash (bd_roots d) = bd_block_hash d /\
  forall k row, key_height k = bd_height d -> events !! k = Some row <-> event_rows (bd_events d) !! k = Some row.

Lemma journal_deltas b chain blocks events s :
  journal b chain blocks events s ->
  exists ds, connect_all (reverse chain) (new_state b) = (s, Ok ds) /\
    Forall (recorded blocks events) ds /\
    (forall h row, blocks !! h = Some row ->
       exists d release, d ∈ ds /\ bd_height d = h /\ row = block_row d release).
Proof.
  induction 1 as [|chain blocks events block s s' d release Hj IH _ Ha Hi Hnd].
  { exists []. split_and!; [done|constructor|done]. }
  destruct IH as (ds & Hc & Hf & Hrows). exists (ds ++ [d]).
  pose proof (apply_block_delta _ _ _ _ Ha) as (_ & Eh & _ & _ & _ & Hev & Er & _).
  pose proof (journal_fresh _ _ _ _ _ _ _ _ Hj Ha) as Hfresh.
  assert (Ehash : hr_block_hash (bd_roots d) = bd_block_hash d).
  { by apply apply_block_Ok in Ha as (_ & _ & ? & ? & ? & ? & _ & _ & _ & -> & _). }
  split_and!.
  - rewrite reverse_cons. by eapply connect_all_snoc.
  - apply Forall_app. split; [|constructor; [|constructor]].
    + eapply Forall_impl; [exact Hf|]. intros d' ([rel Hb] & ? & Hh & ? & ? & ? & He).
      assert (Hne : bd_height d' <> blk_height block) by (intros E; by rewrite E, Hfresh in Hb).
      split; [exists rel; by rewrite lookup_insert_ne|]. split_and!; [done..|].
      intros k row Ek. rewrite lookup_union_r; [by apply He|].
      apply eq_None_not_Some. intros [row' Hr]. eapply event_rows_height in Hr; [|done]. congruence.
    + split; [exists release; by rewrite Eh, lookup_insert_eq|].
      rewrite Eh. split_and!; [done..|]. intros k row Ek. rewrite lookup_union_l; [done|].
      apply eq_None_not_Some. intros [row' Hr]. apply (journal_events _ _ _ _ _ Hj) in Hr.
      rewrite Ek, Hfresh in Hr. by apply is_Some_None in Hr.
  - intros h row [[<- <-]|[Hne Hr]]%lookup_insert_Some.
    + exists d, release. split_and!; [set_solver|done..].
    + apply Hrows in Hr as (d' & rel & ? & ? & ?). exists d', rel. split_and!; [set_solver|done..].
Qed.

Lemma roots_at_row (db : DB) d release :
  bd_height d <= i64_max -> hr_height (bd_roots d) = bd_height d ->
  hr_block_hash (bd_roots d) = bd_block_hash d ->
  blocks_t db !! bd_height d = Some (block_row d release) ->
  roots_at db (bd_height d) = Ok (Some (bd_roots d, release)).
Proof.
  intros Hi Hh Hb Hr. unfold roots_at.
  rewrite (proj2 (to_i64_Ok (bd_height d) (bd_height d))) by done. cbn.
  rewrite Hr. cbn. do 3 f_equal. rewrite <- Hh, <- Hb. by destruct (bd_roots d).
Qed.

Lemma roots_replay b chain db s :
  db_ok b chain db s ->
  exists ds, connect_all (reverse chain) (new_state b) = (s, Ok ds) /\
    forall h roots, (exists release, roots_at db h = Ok (Some (roots, release))) <->
      exists d, d ∈ ds /\ bd_height d = h /\ bd_roots d = roots.
Proof.
  intros [_ _ _ (ds & Hc & Hf & Hrows)%journal_deltas]. exists ds. split; [done|]. intros h roots.
  rewrite Forall_forall in Hf. split.
  - intros [release Hr]. unfold roots_at in Hr. apply rbind_Ok in Hr as (z & Hz & Hr).
    apply to_i64_Ok in Hz as [-> Hz]. injection Hr as Hr.
    apply fmap_Some in Hr as (row & Hrow & E).
    apply Hrows in Hrow as (d & rel & Hd & Eh & ->). exists d. split_and!; [done..|].
    destruct (Hf d Hd) as (_ & _ & _ & _ & E1 & E2 & _). injection E as -> _.
    rewrite <- Eh. cbn. rewrite <- E1, <- E2. by destruct (bd_roots d).
  - intros (d & Hd & <- & <-). destruct (Hf d Hd) as ([rel Hb] & Hi & _ & _ & E1 & E2 & _).
    exists rel. by apply roots_at_row.
Qed.

(** C16: the stored state is the replay of the stored chain from genesis, and the roots served
    for a height are exactly those the replay computes at that height: every block of the chain
    is served, and nothing else is. *)
Theorem stored_chain_replay b chain db s :
  db_ok b chain db s ->
  exists ds, connect_all (reverse chain) (new_state b) = (s, Ok ds) /\
    forall h roots, (exists release, roots_at db h = Ok (Some (roots, release))) <->
      exists d, d ∈ ds /\ bd_height d = h /\ bd_roots d = roots.
Proof. apply roots_replay. Qed.

(** ** Events *)

Definition stored_event (e : Event) : EventKey * EventRow JV := (event_pk e, event_row e).

(** Within one height, the order of the query is the order of the log. *)
Lemma newest_first_lt h e e' :
  ev_height e = h -> ev_height e' = h -> key_lt event_key e e' ->
  key_lt newest_first (stored_event e) (stored_event e').
Proof.
  intros E1 E2 Hlt%event_lt_iff. unfold key_lt, newest_first, stored_event, event_pk. cbn [fst].
  rewrite E1, E2, !pair_key_ltb. cbn [fst snd]. rewrite !Z_key_ltb.
  destruct Hlt as [?|[E [?|[E' ?]]]]; [left; left; right; done|left; right|right]; rewrite ?E, ?E'; done.
Qed.

Lemma sorted_stored h evs :
  at_height h evs -> NoDup (event_pk <$> evs) ->
  StronglySorted (key_lt newest_first) (stored_event <$> sort_by_key event_key evs).
Proof.
  intros Hh Hnd.
  assert (Hs : StronglySorted (key_lt event_key) (sort_by_key event_key evs)).
  { apply key_le_NoDup_lt; [apply sort_by_key_sorted|]. rewrite sort_by_key_perm.
    clear -Hh Hnd. induction Hh as [|e evs He Hh IH]; [constructor|].
    apply NoDup_cons in Hnd as [Hn Hnd]. constructor; [|by apply IH].
    intros (e' & E & Hin)%list_elem_of_fmap. apply Hn, list_elem_of_fmap. exists e'. split; [|done].
    rewrite Forall_forall in Hh. specialize (Hh _ Hin). unfold event_key in E. unfold event_pk. congruence. }
  assert (Hh' : at_height h (sort_by_key event_key evs)) by (unfold at_height; by rewrite sort_by_key_perm).
  induction Hs as [|e l Hl IH He]; [constructor|]. apply Forall_cons in Hh' as [E Hh'].
  constructor; [by apply IH|]. apply Forall_fmap. apply Forall_forall. intros e' Hin.
  unfold at_height in Hh'. rewrite Forall_forall in He, Hh'. cbn.
  apply (newest_first_lt h); [done|by apply Hh'|by apply He].
Qed.

Lemma rows_at_height (events : gmap EventKey (EventRow JV)) h evs :
  at_height h evs -> NoDup (event_pk <$> evs) ->
  (forall k row, key_height k = h -> events !! k = Some row <-> event_rows evs !! k = Some row) ->
  filter (fun kv => (Some h = None \/ Some h = Some (key_height kv.1)) /\
                    (@None Hash32 = None \/ None = Some (er_object_key kv.2))) (map_to_list events)
  ≡ₚ stored_event <$> evs.
Proof.
  intros Hh Hnd He. apply NoDup_Permutation.
  - apply NoDup_filter, NoDup_map_to_list.
  - apply (NoDup_fmap_1 fst). by rewrite <- list_fmap_compose.
  - intros [k row]. rewrite list_elem_of_filter, elem_of_map_to_list. cbn. split.
    + intros [[[?|[= Ek]] _] Hk]; [done|]. apply He in Hk; [|done].
      by apply elem_of_list_to_map_2 in Hk.
    + intros Hin. assert (Hk : event_rows evs !! k = Some row).
      { apply elem_of_list_to_map_1; [by rewrite <- list_fmap_compose|done]. }
      pose proof (event_rows_height _ _ _ _ Hh Hk) as Ek. split; [|by apply He].
      split; [right; by f_equal|by left].
Qed.

(** The event query at a height returns that block's events in log order, up to the query's
    bound. *)
Lemma events_at_height b chain (db : DB) s :
  db_ok b chain db s ->
  exists ds, connect_all (reverse chain) (new_state b) = (s, Ok ds) /\
    forall d, d ∈ ds ->
      query_events db (Some (bd_height d)) None =
      Ok (take 500 (to_value <$> sort_by_key event_key (bd_events d))).
Proof.
  intros [_ _ _ (ds & Hc & Hf & _)%journal_deltas]. exists ds. split; [done|]. intros d Hd.
  rewrite Forall_forall in Hf. destruct (Hf d Hd) as (_ & Hi & Hh & Hnd & _ & _ & He).
  unfold query_events, opt_i64. rewrite (proj2 (to_i64_Ok (bd_height d) (bd_height d))) by done. cbn [rbind].
  do 2 f_equal.
  set (rows := filter _ _).
  assert (Hp : rows ≡ₚ stored_event <$> bd_events d) by by apply rows_at_height.
  assert (Hs := sorted_stored _ _ Hh Hnd).
  assert (Hp' : stored_event <$> sort_by_key event_key (bd_events d) ≡ₚ rows).
  { by rewrite sort_by_key_perm, Hp. }
  rewrite <- (sort_by_key_proper newest_first _ _ (key_lt_NoDup _ _ Hs) Hp').
  rewrite sort_by_key_id by by apply key_lt_le. by rewrite <- list_fmap_compose.
Qed.

(** ** Carriers *)

Lemma object_rows_lookup txids s k row :
  index_ok txids s ->
  object_rows s !! k = Some row <-> exists o, objects s !! k = Some o /\ row = object_row o.
Proof.
  intros Hix. pose proof Hix as [Ho _].
  assert (E : object_rows s = object_row <$> objects s).
  { unfold object_rows. rewrite <- (bt_entries_to_map (objects s)) at 2. rewrite <- list_to_map_fmap.
    f_equal. unfold bt_values. rewrite <- list_fmap_compose. apply list_fmap_ext.
    intros i [k' o] Hi. apply list_elem_of_lookup_2, elem_of_bt_entries in Hi.
    apply Ho in Hi as [<- _]. done. }
  rewrite E, lookup_fmap, fmap_Some. naive_solver.
Qed.

Lemma status_code_active st : status_code st = 0 <-> st = Active.
Proof. by destruct st. Qed.

Lemma head_filter_unique {A} (Q : A -> Prop) `{forall x, Decision (Q x)} (l : list A) x :
  x ∈ l -> Q x -> (forall y, y ∈ l -> Q y -> y = x) -> head (filter Q l) = Some x.
Proof.
  intros Hx HQ Hu. assert (Hin : x ∈ filter Q l) by by apply list_elem_of_filter.
  destruct (filter Q l) as [|y l'] eqn:E; [by apply not_elem_of_nil in Hin|]. cbn. f_equal.
  assert (Hy : y ∈ filter Q l) by (rewrite E; apply list_elem_of_here).
  apply list_elem_of_filter in Hy as [HQy Hy]. by apply Hu.
Qed.

(** The carrier query is the reducer's own index: on a canonical chain it returns the
    object of the live carrier at an outpoint, and nothing for an outpoint that carries none. *)
Lemma query_carrier_iff b g chain (db : DB) s txid vout v :
  db_ok b chain db s -> reachable b g s ->
  query_carrier db txid vout = Some v <->
  exists k o, active s !! OutPoint txid vout = Some k /\ objects s !! k = Some o /\ v = to_value o.
Proof.
  intros [_ Eo _ _] Hr. destruct (reachable_state_inv _ _ _ Hr) as [[_ Hix _] _].
  pose proof Hix as [_ Ha].
  assert (Hrow : forall row, row ∈ bt_values (objects_t db) ->
    or_txid row = txid /\ or_vout row = vout /\ or_status row = 0 ->
    exists k o, active s !! OutPoint txid vout = Some k /\ objects s !! k = Some o /\ row = object_row o).
  { intros row [k Hk]%elem_of_bt_values (E1 & E2 & E3). rewrite Eo in Hk.
    apply (object_rows_lookup _ _ _ _ Hix) in Hk as (o & Hk & ->). exists k, o. split; [|done].
    apply Ha. exists o. split; [done|]. apply status_code_active in E3. split; [done|].
    cbn in E1, E2. destruct (current_outpoint o). cbn in *. by subst. }
  unfold query_carrier. split.
  - intros (row & Hh & ->)%fmap_Some. assert (Hin : row ∈ filter
      (fun row => or_txid row = txid /\ or_vout row = vout /\ or_status row = 0) (bt_values (objects_t db))).
    { by apply head_Some_elem_of. }
    apply list_elem_of_filter in Hin as [HQ Hin]. destruct (Hrow row Hin HQ) as (k & o & ? & ? & ->).
    by exists k, o.
  - intros (k & o & Hk & Hob & ->). apply fmap_Some. exists (object_row o). split; [|done].
    destruct (index_active_object _ _ _ _ Hix Hk) as (o' & Hob' & _ & Hs & Hcur). simplify_eq.
    apply head_filter_unique.
    + apply elem_of_bt_values. exists k. rewrite Eo. apply (object_rows_lookup _ _ _ _ Hix). by exists o.
    + cbn. rewrite Hcur, Hs. done.
    + intros row Hin HQ. destruct (Hrow row Hin HQ) as (k' & o' & Hk' & Hob'' & ->). by simplify_eq.
Qed.

End Queries.
