(* ===== verification/Ingest.v ===== *)
(** * The ingestion worker (crates/tandem-verifier/src/ingest.rs, the source trait of rpc.rs)

    One pass of the worker over its two neighbours: the block source, whose answers may change
    from one call to the next, and the store, whose transactions may fail.  Both are read at the
    worker's clock, which ticks at every call, so a chain that reorganises in the middle of a
    pass, a node that goes away and a lost connection are all environments of the same model. *)

From Stdlib Require Import String.
From stdpp Require Import strings.
From S2P Require Import Prelude Types Marker Roots Reducer Store.

(** [rpc::CoreStatus]. *)
Record CoreStatus := mkCoreStatus {
  cs_chain : string;
  cs_blocks : Z;
  cs_headers : Z;
  initial_block_download : bool;
  txindex_synced : bool;
}.

Definition chain_label (n : Network) : string :=
  match n with
  | Mainnet => "main"
  | Signet => "signet"
  | Testnet4 => "testnet4"
  | Regtest => "regtest"
  end.

(** [CoreStatus::ready_for]. *)
Definition ready_for (status : CoreStatus) (n : Network) : bool :=
  String.eqb (cs_chain status) (chain_label n) && Z.eqb (cs_blocks status) (cs_headers status) &&
  negb (initial_block_download status) && txindex_synced status.

(** The error of a call to the source; its callers only look at whether there is one. *)
Inductive CallError := CallFailed.

(** [rpc::BlockSource], as it answers at one moment: a value, an error, or a panic of the method. *)
Record BlockSource := mkSource {
  src_status : res CallError CoreStatus;
  src_best_height : res CallError Z;
  src_block_hash : Z -> res CallError Hash32;
  src_block : Z -> res CallError BlockView;
  src_transaction_height : Hash32 -> res CallError (option Z);
  src_mempool : res CallError (list TxView);
}.

(** No method of the source panics. *)
Record source_calm (src : BlockSource) : Prop := {
  calm_status : src_status src <> Panic;
  calm_best_height : src_best_height src <> Panic;
  calm_block_hash : forall height, src_block_hash src height <> Panic;
  calm_block : forall height, src_block src height <> Panic;
  calm_transaction_height : forall txid, src_transaction_height src txid <> Panic;
  calm_mempool : src_mempool src <> Panic;
}.

(** Everything the worker does not control, call by call. *)
Record Env := mkEnv {
  source_at : nat -> BlockSource;
  io_at : nat -> Io;
}.

Inductive IngestError :=
| SourceFailed
| NotReady
| StoreFailed (e : StoreError)
| NoRollbackJournal
| HeightOverflow
| ReductionFailed (e : ReducerError)
| FuelExhausted.

(** [WorkerHealth]. *)
Record WorkerHealth := mkHealth {
  last_successful_height : option Z;
  last_error : option IngestError;
  catching_up : bool;
}.

Section Ingest.
Context {JV : Type} {P : Primitives}.
Context `{!Json JV Binding, !Json JV ChainState, !Json JV BlockDelta, !Json JV Event,
          !Json JV ObjectState, !Json JV TxView}.

(** [Ingestion], with the database behind its store and the clock. *)
Record Worker := mkWorker {
  w_db : Db JV;
  w_state : ChainState;
  w_clock : nat;
}.

#[local] Abbreviation wst := (st Worker IngestError).

Context (env : Env) (release : ReleaseIdentity).

Definition tick (w : Worker) : Worker := mkWorker (w_db w) (w_state w) (S (w_clock w)).
Definition set_state (s : ChainState) (w : Worker) : Worker := mkWorker (w_db w) s (w_clock w).
Definition set_db (db : Db JV) (w : Worker) : Worker := mkWorker db (w_state w) (w_clock w).

(** A call to the source; a panic of the method is a panic of the worker. *)
Definition ask {A} (f : BlockSource -> res CallError A) : wst A := fun w =>
  (tick w, map_err (fun _ => SourceFailed) (f (source_at env (w_clock w)))).

(** A call to the store; the caller sees its result. *)
Definition call_store {A} (f : Io -> st (Db JV) StoreError A) : wst (res StoreError A) := fun w =>
  let '(db, r) := f (io_at env (w_clock w)) (w_db w) in
  match r with
  | Panic => (tick (set_db db w), Panic)
  | _ => (tick (set_db db w), Ok r)
  end.

(** The [?] of a store call. *)
Definition store_try {A} (r : res StoreError A) : wst A :=
  st_lift (match r with Ok a => Ok a | Err e => Err (StoreFailed e) | Panic => Panic end).

Definition store_call {A} (f : Io -> st (Db JV) StoreError A) : wst A :=
  do r <- call_store f; store_try r.

Definition guard_w (c : bool) (e : IngestError) : wst unit := st_lift (if c then Ok tt else Err e).

(** Whether the tip in memory is still in the source's chain. *)
Definition tip_matches (tip best_height : Z) (own_hash : option Hash32) : wst bool :=
  if decide (tip > best_height) then st_ret false
  else
    do h <- ask (fun src => src_block_hash src tip);
    do own <- st_lift (expect own_hash);
    st_ret (bool_decide (h = own)).

(** [reconcile_reorg]: one iteration per unit of fuel. *)
Fixpoint reconcile_reorg (fuel : nat) (best_height : Z) : wst unit :=
  match fuel with
  | O => st_lift (Err FuelExhausted)
  | S fuel =>
      do w <- st_get;
      match tip_height (w_state w) with
      | None => st_ret tt
      | Some tip =>
          do matches <- tip_matches tip best_height (tip_hash (w_state w));
          if matches then st_ret tt
          else
            run st_lift (expect (tip_hash (w_state w)));
            do restored <- store_call rollback_tip;
            do s <- st_lift (ok_or NoRollbackJournal restored);
            run st_modify (set_state s);
            match protocol_status s with
            | AwaitingInit => st_ret tt
            | _ => reconcile_reorg fuel best_height
            end
      end
  end.

(** Every iteration that goes on removes a stored block, so one more than there are is enough. *)
Definition reconcile (best_height : Z) : wst unit :=
  do w <- st_get;
  reconcile_reorg (S (size (blocks_t (w_db w)))) best_height.

(** The body of the catch-up loop. *)
Definition ingest_height (height : Z) : wst unit :=
  do block <- ask (fun src => src_block src height);
  do w <- st_get;
  match apply_block block (w_state w) with
  | (s', Ok delta) =>
      run st_modify (set_state s');
      do r <- call_store (fun io => store_apply_block io s' delta release);
      match r with
      | Ok _ => st_ret tt
      | Err e =>
          do loaded <- call_store load_state;
          run st_modify (set_state (match loaded with Ok s => s | _ => bd_before delta end));
          st_lift (Err (StoreFailed e))
      | Panic => st_lift Panic
      end
  | (s', Err e) => run st_modify (set_state s'); st_lift (Err (ReductionFailed e))
  | (s', Panic) => run st_modify (set_state s'); st_lift Panic
  end.

Fixpoint catch_up (heights : list Z) : wst unit :=
  match heights with
  | [] => st_ret tt
  | h :: rest => run ingest_height h; catch_up rest
  end.

Definition refresh_mempool : wst unit :=
  do txs <- ask src_mempool;
  store_call (fun io => replace_mempool io txs).

(** Where a pass starts: above the tip, or at the configured INIT if it is in the chain. *)
Definition first_height : wst (option Z) :=
  do w <- st_get;
  match tip_height (w_state w) with
  | Some tip =>
      do first <- st_lift (ok_or HeightOverflow (checked_add u64_max tip 1));
      st_ret (Some first)
  | None => ask (fun src => src_transaction_height src (init_txid (binding (w_state w))))
  end.

(** [first_height..=best_height]. *)
Definition height_range (first best : Z) : list Z :=
  if decide (first <= best) then seqZ first (best - first + 1) else [].

(** [run_once], its part after the readiness checks first. *)
Definition follow (best : Z) : wst unit :=
  run reconcile best;
  do first <- first_height;
  match first with
  | Some first => run catch_up (height_range first best); refresh_mempool
  | None => refresh_mempool
  end.

Definition run_once : wst unit :=
  do w <- st_get;
  do status <- ask src_status;
  run guard_w (ready_for status (network (binding (w_state w)))) NotReady;
  do best <- ask src_best_height;
  follow best.

(** One iteration of [run]: the pass and what it leaves in the shared health. *)
Definition run_pass (h : WorkerHealth) (w : Worker) : Worker * WorkerHealth * res IngestError unit :=
  let h1 := mkHealth (last_successful_height h) (last_error h) true in
  match run_once w with
  | (w', Ok tt) => (w', mkHealth (tip_height (w_state w')) None false, Ok tt)
  | (w', Err e) => (w', mkHealth (last_successful_height h1) (Some e) false, Err e)
  | (w', Panic) => (w', h1, Panic)
  end.

(** The first [n] iterations of [run]; a panic ends the task. *)
Fixpoint run_loop (n : nat) (h : WorkerHealth) (w : Worker) : Worker * WorkerHealth * res IngestError unit :=
  match n with
  | O => (w, h, Ok tt)
  | S n =>
      match run_pass h w with
      | (w', h', Panic) => (w', h', Panic)
      | (w', h', _) => run_loop n h' w'
      end
  end.
End Ingest.
