(* ===== verification/IngestInv.v ===== *)
(** * Safety of the worker

    Whatever the source answers and whatever happens to a transaction, a pass leaves a consistent
    database behind it and a state in memory that some chain of blocks produces; and as long as
    no acknowledgement is lost, the two are the same state after every pass, failed or not. *)

From S2P Require Import Prelude Types Marker Roots Reducer Validators Steps Invariant Chain Reach EventLog Store StoreInv Commit Queries Ingest.

Section IngestInv.
Context {JV : Type} {P : Primitives}.
Context `{!Json JV Binding, !Json JV ChainState, !Json JV BlockDelta, !Json JV Event,
          !Json JV ObjectState, !Json JV TxView}.
Context (env : Env) (release : ReleaseIdentity).

#[local] Abbreviation W := (Worker (JV := JV)).
#[local] Abbreviation DB := (Db JV).

#[local] Arguments store_apply_block : simpl never.
#[local] Arguments rollback_tip : simpl never.
#[local] Arguments load_state : simpl never.
#[local] Arguments replace_mempool : simpl never.

(** The states that chains of blocks produce, newest block first. *)
Inductive held (b : Binding) : list BlockView -> ChainState -> Prop :=
| held_new : held b [] (new_state b)
| held_block chain s block s' d :
    held b chain s -> apply_block block s = (s', Ok d) -> held b (block :: chain) s'.

Lemma journal_held b chain blocks events s :
  @journal JV _ _ _ b chain blocks events s -> held b chain s.
Proof. induction 1; by econstructor. Qed.

Lemma held_tip b chain s :
  held b chain s -> tip_height s = blk_height <$> head chain /\ tip_hash s = blk_hash <$> head chain /\
  binding s = b /\ (protocol_status s = AwaitingInit -> chain = []).
Proof.
  induction 1 as [|chain s block s' d Hc IH Ha]; [done|]. destruct IH as (_ & _ & Eb & _).
  pose proof (apply_block_delta _ _ _ _ Ha) as (_ & _ & _ & Et & Eh & _ & _ & _ & Eb' & Ep).
  cbn. split_and!; [done|done|congruence|done].
Qed.

(** What holds between any two steps of the worker; [synced] is the part that needs every
    acknowledgement to arrive. *)
Definition worker_inv (synced : Prop) (b : Binding) (w : W) : Prop :=
  exists chain s, db_ok b chain (w_db w) s /\ (exists chain', held b chain' (w_state w)) /\
    (synced -> w_state w = s).

Definition db_inv (b : Binding) (w : W) : Prop := exists chain s, db_ok b chain (w_db w) s.

(** A panic ends the worker and leaves only the database. *)
Definition keeps {A} (synced : Prop) (b : Binding) (m : st W IngestError A) : Prop := forall w,
  worker_inv synced b w ->
  match m w with (w', Panic) => db_inv b w' | (w', _) => worker_inv synced b w' end.

Lemma worker_inv_db_inv synced b w : worker_inv synced b w -> db_inv b w.
Proof. intros (chain & s & Hdb & _). by exists chain, s. Qed.

Section Kept.
Context (b : Binding) (synced : Prop).
Context (lossless : synced -> forall t, io_at env t <> IoLost).

#[local] Abbreviation I := (worker_inv synced b).
#[local] Abbreviation kept := (keeps synced b).

Lemma keeps_bind {A B} (m : st W IngestError A) (f : A -> st W IngestError B) :
  kept m -> (forall a, kept (f a)) -> kept (st_bind m f).
Proof.
  intros Hm Hf w Hw. unfold st_bind. specialize (Hm w Hw). destruct (m w) as [w1 [a|e|]]; [by apply Hf|done..].
Qed.
Lemma keeps_lift {A} (r : res IngestError A) : kept (st_lift r).
Proof. intros w Hw. destruct r; [done..|by eapply worker_inv_db_inv]. Qed.
Lemma keeps_get : kept st_get.
Proof. by intros w. Qed.

Lemma keeps_ask {A} (f : BlockSource -> res CallError A) : kept (ask env f).
Proof. intros w Hw. unfold ask. destruct (f _); [done|done|by eapply worker_inv_db_inv]. Qed.

Lemma worker_inv_db chain db s s' clock :
  db_ok b chain db s -> (exists chain', held b chain' s') -> (synced -> s' = s) ->
  I (mkWorker db s' clock).
Proof. intros. by exists chain, s. Qed.

(** The overlay is not part of the invariant. *)
Lemma db_ok_mempool chain db s pool : db_ok b chain db s -> db_ok b chain (set_mempool pool db) s.
Proof. intros []. by split. Qed.

Lemma insert_mempool_db txs (db : DB) : exists pool, (insert_mempool txs db).1 = set_mempool pool db.
Proof.
  revert db. induction txs as [|tx txs IH]; intros db; cbn [insert_mempool].
  { exists (mempool_t db). by destruct db. }
  rewrite get_bind. unfold st_bind at 1, require, st_lift. case_decide.
  - rewrite modify_bind. destruct (IH (set_mempool (<[tx_txid tx := to_value tx]> (mempool_t db)) db))
      as [pool ->]. by exists pool.
  - exists (mempool_t db). by destruct db.
Qed.

Lemma replace_mempool_db io txs (db : DB) :
  exists pool, (replace_mempool io txs db).1 = set_mempool pool db.
Proof.
  unfold replace_mempool, transact. rewrite modify_bind.
  destruct (insert_mempool_db txs (set_mempool ∅ db)) as [pool Hp].
  destruct (insert_mempool txs _) as [db' [[]|e|]]; cbn in Hp; subst; [destruct io|..].
  all: try by exists pool. all: exists (mempool_t db); by destruct db.
Qed.

Lemma keeps_refresh : kept (refresh_mempool env).
Proof.
  unfold refresh_mempool. apply keeps_bind; [apply keeps_ask|]. intros txs w (chain & s & Hdb & Hh & Hs).
  unfold store_call, st_bind, call_store.
  destruct (replace_mempool_db (io_at env (w_clock w)) txs (w_db w)) as [pool Hp].
  destruct (replace_mempool _ txs _) as [db [[]|e|]]; cbn in Hp; subst;
    try by eapply worker_inv_db; [apply db_ok_mempool|..].
  exists chain, s. by apply db_ok_mempool.
Qed.

(** A commit against whatever the database holds. *)
Lemma commit_any io chain db s block s0 post d db' r :
  db_ok b chain db s -> apply_block block s0 = (post, Ok d) ->
  store_apply_block io post d release db = (db', r) ->
  s0 = s /\ r = Ok tt /\ db_ok b (block :: chain) db' post \/
  (exists e, r = Err e) /\ (db' = db \/ s0 = s /\ io = IoLost /\ db_ok b (block :: chain) db' post).
Proof.
  intros Hdb Ha Hs. destruct (decide (s0 = s)) as [->|Hne].
  - destruct (commit_cases _ _ _ _ _ _ _ _ _ _ _ Hdb Ha Hs) as [(-> & -> & H)|[[e ->] H]]; [auto|].
    right. split; [by exists e|]. naive_solver.
  - apply apply_block_delta in Ha as [E0 _].
    destruct (stale_refused _ _ _ _ post d release io Hdb) as [e He]; [congruence|].
    rewrite He in Hs. simplify_eq. right. eauto.
Qed.

Lemma load_state_db io (db : DB) : (load_state io db).1 = db.
Proof.
  unfold load_state, load_state_for_update. destruct io; [|done..]. rewrite get_bind.
  unfold st_bind, st_lift. by destruct (ok_or NoStateRow (protocol_row db)).
Qed.

Lemma load_state_stored chain db s : db_ok b chain db s -> (load_state IoOk db).2 = Ok s.
Proof.
  intros [(bv & sv & Er & _ & Es) _ _ _]. unfold load_state.
  by rewrite (proj2 (load_state_Ok db db s)) by (split; [done|]; by exists bv, sv).
Qed.

Lemma load_state_Some io chain db s r :
  db_ok b chain db s -> (load_state io db).2 = r -> r = Ok s \/ exists e, r = Err e.
Proof. intros Hdb <-. destruct io; [left; by eapply load_state_stored|right; by eexists..]. Qed.

Lemma keeps_ingest height : kept (ingest_height env release height).
Proof.
  unfold ingest_height. apply keeps_bind; [apply keeps_ask|]. intros block w (chain & s & Hdb & [c Hc] & Hs).
  unfold st_bind at 1, st_get. destruct (apply_block block (w_state w)) as [post [d|e|]] eqn:Ha.
  - rewrite modify_bind. unfold st_bind at 1, call_store. cbn.
    destruct (store_apply_block _ post d release (w_db w)) as [db' r] eqn:Hst.
    assert (Hh : exists c', held b c' post) by (exists (block :: c); by econstructor).
    destruct (commit_any _ _ _ _ _ _ _ _ _ _ Hdb Ha Hst) as [(Es & -> & Hok)|([e ->] & Hdb')].
    { by eapply worker_inv_db. }
    pose proof (apply_block_delta _ _ _ _ Ha) as [E0 _].
    assert (Hdb2 : exists chain2 s2, db_ok b chain2 db' s2 /\ (synced -> s2 = w_state w)).
    { destruct Hdb' as [->|(_ & Hl & Hok)]; [exists chain, s; split; [done|]; intros ?; by rewrite Hs|].
      exists (block :: chain), post. split; [done|]. intros Hy. by apply lossless in Hl. }
    destruct Hdb2 as (chain2 & s2 & Hdb2 & Hs2). unfold st_bind at 1, call_store. cbn.
    pose proof (load_state_db (io_at env (S (w_clock w))) db') as El.
    pose proof (load_state_Some (io_at env (S (w_clock w))) _ _ _ _ Hdb2 eq_refl) as Er.
    destruct (load_state _ db') as [db2 r2]. cbn in El, Er. subst db2. destruct Er as [->|[e2 ->]]; cbn.
    + eapply worker_inv_db; [done| |done]. exists chain2. eapply journal_held, dk_journal, Hdb2.
    + rewrite E0. eapply worker_inv_db; [done|by exists c|]. intros ?. symmetry. auto.
  - apply apply_block_error in Ha as [-> _]. cbn. exists chain, s. split_and!; [done|by exists c|done].
  - cbn. by exists chain, s.
Qed.

Lemma keeps_catch_up heights : kept (catch_up env release heights).
Proof.
  induction heights as [|h rest IH]; cbn [catch_up]; [by intros w|].
  apply keeps_bind; [apply keeps_ingest|done].
Qed.


(** ** Reorganisations *)

Lemma tip_matches_cases tip best own (w : W) :
  is_Some own ->
  exists t, (exists m, tip_matches env tip best own w = (mkWorker (w_db w) (w_state w) t, Ok m)) \/
            tip_matches env tip best own w = (mkWorker (w_db w) (w_state w) t, Err SourceFailed) \/
            tip_matches env tip best own w = (mkWorker (w_db w) (w_state w) t, Panic) /\
              exists t', src_block_hash (source_at env t') tip = Panic.
Proof.
  intros [h ->]. unfold tip_matches. case_decide.
  - exists (w_clock w). left. exists false. by destruct w.
  - exists (S (w_clock w)). unfold st_bind, ask, st_lift. cbn.
    destruct (src_block_hash _ tip) eqn:E; cbn; eauto 8.
Qed.

(** A rollback in the database of a worker. *)
Lemma rollback_call_cases chain s (w w' : W) r :
  db_ok b chain (w_db w) s -> store_call env rollback_tip w = (w', r) ->
  w_state w' = w_state w /\
  ((exists block rest s0, chain = block :: rest /\ r = Ok (Some s0) /\ db_ok b rest (w_db w') s0) \/
   chain = [] /\ r = Ok None /\ w_db w' = w_db w \/
   r = Err (StoreFailed DbFailure) /\
     (w_db w' = w_db w \/
      io_at env (w_clock w) = IoLost /\ exists chain' s', db_ok b chain' (w_db w') s')).
Proof.
  intros Hdb. unfold store_call, st_bind, call_store.
  destruct (rollback_tip (io_at env (w_clock w)) (w_db w)) as [db' r0] eqn:Hr.
  apply (rollback_cases _ _ _ _ _ _ _ Hdb) in Hr. destruct chain as [|block rest].
  - destruct Hr as [-> ->]. destruct (io_at env (w_clock w)); cbn; intros [= <- <-]; eauto 10.
  - destruct Hr as (s0 & d & _ & -> & Hio).
    destruct (io_at env (w_clock w)) eqn:Eio; cbn; intros [= <- <-]; (split; [done|]).
    + left. destruct Hio as [[? _]|(_ & Hok & _)]; [done|]. by exists block, rest, s0.
    + right. right. destruct Hio as [[_ ->]|[? _]]; [|done]. split; [done|by left].
    + right. right. destruct Hio as [[? _]|(_ & Hok & _)]; [done|]. split; [done|]. right. eauto.
Qed.

Lemma reconcile_cases fuel best (w w' : W) chain s r :
  db_ok b chain (w_db w) s -> (exists c, held b c (w_state w)) -> (synced -> w_state w = s) ->
  (length chain < fuel)%nat -> reconcile_reorg env fuel best w = (w', r) ->
  I w' /\ r <> Err FuelExhausted /\ ((forall t, source_calm (source_at env t)) -> r <> Panic).
Proof.
  revert w chain s. induction fuel as [|fuel IH]; intros w chain s Hdb Hh Hs Hf H; [lia|].
  assert (Hw : I w) by by exists chain, s.
  cbn [reconcile_reorg] in H. rewrite get_bind in H.
  destruct (tip_height (w_state w)) as [tip|] eqn:Et; [|unfold st_ret in H; by simplify_eq].
  pose proof Hh as [c (E1 & E2 & _ & _)%held_tip]. rewrite Et in E1.
  assert (Ho : is_Some (tip_hash (w_state w))) by (rewrite E2; by destruct c).
  unfold st_bind at 1 in H.
  destruct (tip_matches_cases tip best _ w Ho) as [t [[m Hm]|[Hm|[Hm [t' Hp]]]]]; rewrite Hm in H; [|by simplify_eq|].
  2: { simplify_eq. split_and!; [done..|]. intros Hcalm. by destruct (calm_block_hash _ (Hcalm t') tip). }
  destruct m; [unfold st_ret in H; by simplify_eq|].
  destruct Ho as [own Eo]. rewrite Eo in H. unfold st_bind at 1, st_lift at 1, expect in H.
  unfold st_bind at 1 in H.
  destruct (store_call env rollback_tip _) as [w2 r2] eqn:Hr in H.
  eapply rollback_call_cases in Hr as [Ew Hr]; [|exact Hdb]. cbn in Ew.
  destruct Hr as [(block & rest & s0 & -> & -> & Hok)|[(-> & -> & Ed)|[-> Ed]]].
  - unfold st_bind at 1, st_lift at 1, ok_or in H. rewrite modify_bind in H.
    assert (Hj : exists c, held b c s0) by (exists rest; by eapply journal_held, dk_journal).
    assert (HI : I (set_state s0 w2)) by by exists rest, s0.
    destruct (protocol_status s0); [unfold st_ret in H; by simplify_eq|..];
      (eapply IH; [..|exact H]; [exact Hok|exact Hj|done|simpl in Hf; lia]).
  - unfold st_bind, st_lift, ok_or in H. simplify_eq. split; [|done]. exists [], s. by rewrite Ew, Ed.
  - simplify_eq. split; [|done]. cbn in Ed. destruct Ed as [Ed|(Hl & chain' & s' & Hok)].
    + exists chain, s. by rewrite Ew, Ed.
    + exists chain', s'. rewrite Ew. split_and!; [done..|]. intros Hy. by apply lossless in Hl.
Qed.

Lemma journal_size chain (blocks : gmap Z (BlockRow JV)) events s :
  journal b chain blocks events s -> size blocks = length chain.
Proof.
  induction 1 as [|chain blocks events block s s' d rel Hj IH _ Ha _ _]; [done|].
  rewrite map_size_insert_None by by eapply journal_fresh. cbn. by rewrite IH.
Qed.

(** Only [reconcile_reorg] runs on fuel. *)
Definition fueled {A} (m : st W IngestError A) : Prop := forall w, (m w).2 <> Err FuelExhausted.

Lemma fueled_bind {A B} (m : st W IngestError A) (f : A -> st W IngestError B) :
  fueled m -> (forall a, fueled (f a)) -> fueled (st_bind m f).
Proof.
  intros Hm Hf w. unfold st_bind. specialize (Hm w). destruct (m w) as [w1 [a|e|]]; [apply Hf| |done].
  cbn in *. congruence.
Qed.
Lemma fueled_ask {A} (f : BlockSource -> res CallError A) : fueled (ask env f).
Proof. intros w. unfold ask. by destruct (f _). Qed.
Lemma fueled_call {A} (f : Io -> st DB StoreError A) : fueled (call_store env f).
Proof. intros w. unfold call_store. by destruct (f _ _) as [db [a|e|]]. Qed.
Lemma fueled_try {A} (r : res StoreError A) : fueled (store_try (JV := JV) r).
Proof. intros w. by destruct r. Qed.

Lemma fueled_refresh : fueled (refresh_mempool env).
Proof.
  apply fueled_bind; [apply fueled_ask|intros txs]. apply fueled_bind; [apply fueled_call|apply fueled_try].
Qed.

Lemma fueled_lift {A} (r : res IngestError A) :
  r <> Err FuelExhausted -> fueled (st_lift r).
Proof. by intros Hr w. Qed.

Lemma fueled_ingest h : fueled (ingest_height env release h).
Proof.
  apply fueled_bind; [apply fueled_ask|]. intros block. apply fueled_bind; [by intros w|]. intros w.
  destruct (apply_block _ _) as [s' [d|e|]]; (apply fueled_bind; [by intros ?|]); intros _;
    [|by apply fueled_lift..].
  apply fueled_bind; [apply fueled_call|]. intros [[]|e|]; [by intros ?| |by apply fueled_lift].
  apply fueled_bind; [apply fueled_call|]. intros r. apply fueled_bind; [by intros ?|].
  intros _. by apply fueled_lift.
Qed.

Lemma fueled_catch_up heights : fueled (catch_up env release heights).
Proof.
  induction heights as [|h rest IH]; [by intros w|]. apply fueled_bind; [apply fueled_ingest|done].
Qed.

Lemma keeps_first : kept (first_height env).
Proof.
  apply keeps_bind; [apply keeps_get|]. intros w. destruct (tip_height (w_state w)); [|apply keeps_ask].
  apply keeps_bind; [apply keeps_lift|by intros ? ?].
Qed.

Lemma fueled_first : fueled (first_height env).
Proof.
  apply fueled_bind; [by intros ?|]. intros w. destruct (tip_height (w_state w)); [|apply fueled_ask].
  apply fueled_bind; [|by intros ?]. intros w'. unfold st_lift, ok_or. by destruct (checked_add _ _ _).
Qed.

Lemma keeps_reconcile best : kept (reconcile env best).
Proof.
  intros w (chain & s & Hdb & Hh & Hs). unfold reconcile. rewrite get_bind.
  destruct (reconcile_reorg _ _ best w) as [w' r] eqn:H.
  eapply reconcile_cases in H as (Hi & _ & _); [|exact Hdb|done|done|].
  { destruct r; [done..|by eapply worker_inv_db_inv]. }
  rewrite (journal_size _ _ _ _ (dk_journal _ _ _ _ Hdb)). lia.
Qed.

Lemma reconcile_fuel best w : I w -> (reconcile env best w).2 <> Err FuelExhausted.
Proof.
  intros (chain & s & Hdb & Hh & Hs). unfold reconcile. rewrite get_bind.
  destruct (reconcile_reorg _ _ best w) as [w' r] eqn:H.
  eapply reconcile_cases in H as (_ & Hf & _); [done|exact Hdb|done|done|].
  rewrite (journal_size _ _ _ _ (dk_journal _ _ _ _ Hdb)). lia.
Qed.

Lemma keeps_run_once : kept (run_once env release).
Proof.
  repeat first [ apply keeps_reconcile | apply keeps_first | apply keeps_catch_up | apply keeps_refresh
    | apply keeps_bind; [|intros ?] | apply keeps_get | apply keeps_ask | apply keeps_lift
    | match goal with |- kept (match ?x with _ => _ end) => destruct x end ].
Qed.

(** The fuel of [reconcile] suffices. *)
Lemma run_once_fuel w : I w -> (run_once env release w).2 <> Err FuelExhausted.
Proof.
  intros Hw. unfold run_once. rewrite get_bind. unfold st_bind at 1.
  pose proof (keeps_ask src_status w Hw) as H1. pose proof (fueled_ask src_status w) as F1.
  destruct (ask env src_status w) as [w1 [st|e|]]; [|cbn in *; congruence|done]. unfold st_bind at 1, guard_w, st_lift.
  destruct (ready_for st _); [|done]. unfold st_bind at 1.
  pose proof (keeps_ask src_best_height w1 H1) as H2. pose proof (fueled_ask src_best_height w1) as F2.
  destruct (ask env src_best_height w1) as [w2 [best|e|]]; [|cbn in *; congruence|done].
  unfold follow, st_bind at 1. pose proof (reconcile_fuel best w2 H2) as F3. destruct (reconcile env best w2) as [w3 [u|e|]]; [|cbn in *; congruence|done].
  refine ((_ : fueled _) w3). apply fueled_bind; [apply fueled_first|]. intros [f|]; [|apply fueled_refresh].
  apply fueled_bind; [apply fueled_catch_up|intros _; apply fueled_refresh].
Qed.
End Kept.

Lemma run_loop_inv b synced n h w w' h' r :
  (synced -> forall t, io_at env t <> IoLost) ->
  worker_inv synced b w -> run_loop env release n h w = (w', h', r) ->
  match r with Panic => db_inv b w' | _ => worker_inv synced b w' end.
Proof.
  intros Hl. revert w h. induction n as [|n IH]; intros w h Hw H; cbn [run_loop] in H; [by simplify_eq|].
  unfold run_pass in H. pose proof (keeps_run_once b synced Hl w Hw) as Hk.
  destruct (run_once env release w) as [w1 [[]|e|]]; [by eapply IH|by eapply IH|by simplify_eq].
Qed.

(** C20: as long as the environment does not lose the acknowledgement of a commit, memory and
    database agree after every pass, successful or not; so a failed pass is simply retried from
    the committed state, and a healthy report names the committed tip. *)
Theorem passes_synced b n h w w' h' r chain :
  (forall t, io_at env t <> IoLost) -> db_ok b chain (w_db w) (w_state w) ->
  run_loop env release n h w = (w', h', r) -> r <> Panic ->
  exists chain', db_ok b chain' (w_db w') (w_state w') /\
    (last_error h' = None -> n <> O -> last_successful_height h' = blk_height <$> head chain').
Proof.
  intros Hl Hdb H Hr.
  assert (Hw : worker_inv True b w).
  { exists chain, (w_state w). split_and!; [done| |done]. exists chain. by eapply journal_held, dk_journal. }
  assert (Hout : forall m h0 w0, worker_inv True b w0 -> run_loop env release m h0 w0 = (w', h', r) ->
    m <> O -> last_error h' = None -> last_successful_height h' = tip_height (w_state w')).
  { clear -Hl Hr. induction m as [|m IH]; intros h0 w0 Hw0 H Hm He; [done|].
    cbn [run_loop] in H. unfold run_pass in H. pose proof (keeps_run_once b True (fun _ => Hl) w0 Hw0) as Hk.
    destruct (run_once env release w0) as [w1 [[]|e|]]; [| |by simplify_eq];
      (destruct m; [cbn in H; by simplify_eq|by eapply IH]). }
  pose proof H as Hi. apply (run_loop_inv b True) in Hi; [|done|done].
  destruct r; [| |done]; destruct Hi as (chain' & s' & Hdb' & _ & Es); specialize (Es Logic.I); subst s';
    (exists chain'; split; [done|]; intros He Hn;
     rewrite <- (proj1 (journal_tip_height _ _ _ _ _ (dk_journal _ _ _ _ Hdb'))); by eapply Hout).
Qed.

(** C30: a pass terminates: the loop that walks back over a reorganisation stops after at most
    one iteration per stored block, whatever the node answers. *)
Theorem reconcile_terminates b w chain s c :
  db_ok b chain (w_db w) s -> held b c (w_state w) ->
  (run_once env release w).2 <> Err FuelExhausted.
Proof.
  intros Hdb Hc. apply (run_once_fuel b False); [done|].
  exists chain, s. split_and!; [done|by exists c|done].
Qed.

(** ** Single steps *)

Lemma run_once_follow w st best :
  src_status (source_at env (w_clock w)) = Ok st ->
  ready_for st (network (binding (w_state w))) = true ->
  src_best_height (source_at env (S (w_clock w))) = Ok best ->
  run_once env release w = follow env release best (tick (tick w)).
Proof.
  intros Es Er Eb. unfold run_once. rewrite get_bind. unfold st_bind at 1, ask at 1. rewrite Es. cbn [map_err].
  unfold st_bind at 1, guard_w, st_lift at 1. rewrite Er. unfold st_bind at 1, ask at 1. cbn [w_clock tick].
  by rewrite Eb.
Qed.

Lemma reconcile_reorg_stop fuel best (w : W) tip own :
  tip_height (w_state w) = Some tip -> tip_hash (w_state w) = Some own -> tip <= best ->
  src_block_hash (source_at env (w_clock w)) tip = Ok own ->
  reconcile_reorg env (S fuel) best w = (tick w, Ok tt).
Proof.
  intros Et Eo Hb Eh. cbn [reconcile_reorg]. rewrite get_bind, Et, Eo. unfold st_bind at 1, tip_matches.
  rewrite decide_False by lia. unfold st_bind at 1, ask. rewrite Eh. cbn [map_err].
  unfold st_bind, st_lift, expect, st_ret. by rewrite bool_decide_eq_true_2.
Qed.

(** A tip that the node does not have is rolled back. *)
Lemma reconcile_reorg_back fuel best (w : W) tip own :
  tip_height (w_state w) = Some tip -> tip_hash (w_state w) = Some own ->
  tip > best \/ (exists h, src_block_hash (source_at env (w_clock w)) tip = Ok h /\ h <> own) ->
  exists w1, w_db w1 = w_db w /\ w_state w1 = w_state w /\
    w_clock w1 = (if decide (tip > best) then w_clock w else S (w_clock w)) /\
  reconcile_reorg env (S fuel) best w =
  (do restored <- store_call env rollback_tip;
   do s <- st_lift (ok_or NoRollbackJournal restored);
   run st_modify (set_state s);
   match protocol_status s with
   | AwaitingInit => st_ret tt
   | _ => reconcile_reorg env fuel best
   end) w1.
Proof.
  intros Et Eo Hm. cbn [reconcile_reorg]. rewrite get_bind, Et, Eo.
  destruct (decide (tip > best)) as [Hb|Hb].
  - exists w. split_and!; [done..|]. unfold st_bind at 1, tip_matches. by rewrite decide_True.
  - destruct Hm as [?|(h & Eh & Hne)]; [done|]. exists (tick w). split_and!; [done..|].
    unfold st_bind at 1, tip_matches. rewrite decide_False by done.
    unfold st_bind at 1, ask. rewrite Eh. cbn [map_err]. unfold st_bind at 1, st_lift at 1, expect, st_ret at 1.
    by rewrite bool_decide_eq_false_2.
Qed.
End IngestInv.
