(* ===== verification/Converge.v ===== *)
(** * Convergence of the worker

    When the node settles on a chain and the connections work, one pass brings the worker to that
    chain from wherever it was: the state in memory and every table of the database are those of
    a fresh replay of the node's chain, whatever branch had been followed before. *)

From S2P Require Import Prelude Types Marker Roots Reducer Validators Steps Invariant Chain Reach EventLog Store StoreInv Commit Queries Ingest IngestInv.

Section Converge.
Context {JV : Type} {P : Primitives}.
Context `{!Json JV Binding, !Json JV ChainState, !Json JV BlockDelta, !Json JV Event,
          !Json JV ObjectState, !Json JV TxView}.

#[local] Abbreviation W := (Worker (JV := JV)).
#[local] Abbreviation DB := (Db JV).

#[local] Arguments store_apply_block : simpl never.
#[local] Arguments rollback_tip : simpl never.
#[local] Arguments load_state : simpl never.
#[local] Arguments replace_mempool : simpl never.

(** ** Canonical chains *)

(** A chain, newest block first, of blocks that Bitcoin and the resolution of inputs vouch for,
    at heights the database can hold. *)
Inductive canonical (b : Binding) : Ledger -> list BlockView -> ChainState -> Prop :=
| canonical_new : canonical b empty_ledger [] (new_state b)
| canonical_block g chain s block s' d :
    canonical b g chain s -> txs_ok (namespace b) g (transactions block) ->
    apply_block block s = (s', Ok d) -> 0 <= blk_height block <= i64_max ->
    canonical b (ledger_txs (transactions block) g) (block :: chain) s'.

Lemma canonical_reachable b g chain s : canonical b g chain s -> reachable b g s.
Proof. induction 1; by econstructor. Qed.

Lemma canonical_held b g chain s : canonical b g chain s -> held b chain s.
Proof. induction 1; by econstructor. Qed.

Lemma canonical_det b g1 g2 chain s1 s2 :
  canonical b g1 chain s1 -> canonical b g2 chain s2 -> g1 = g2 /\ s1 = s2.
Proof.
  intros H1. revert g2 s2. induction H1 as [|g chain s block s' d _ IH _ Ha _]; intros g2 s2 H2.
  - by inversion H2.
  - inversion H2 as [|g' chain' s3 block' s3' d' H3 _ Ha' _]; subst.
    destruct (IH _ _ H3) as [-> Es]. rewrite Es in Ha. rewrite Ha in Ha'. by simplify_eq.
Qed.

Lemma canonical_suffix b g c1 c2 s :
  canonical b g (c1 ++ c2) s -> exists g' s', canonical b g' c2 s'.
Proof.
  revert g s. induction c1 as [|x c1 IH]; intros g s H; [by exists g, s|].
  cbn in H. inversion H; subst. by eapply IH.
Qed.

Lemma seen_ledger_txs txs g : seen g ⊆ seen (ledger_txs txs g).
Proof.
  revert g. induction txs as [|tx txs IH]; intros g; [done|]. cbn. etrans; [|apply IH]. cbn. set_solver.
Qed.

Lemma seen_txs txs g tx : tx ∈ txs -> tx_txid tx ∈ seen (ledger_txs txs g).
Proof.
  revert g. induction txs as [|tx0 txs IH]; intros g Hin; [by apply not_elem_of_nil in Hin|].
  apply elem_of_cons in Hin as [->|Hin]; cbn; [|by apply IH].
  apply (seen_ledger_txs txs (ledger_tx tx0 g)). cbn. set_solver.
Qed.

Lemma txs_ok_fresh ns g txs tx : txs_ok ns g txs -> tx ∈ txs -> tx_txid tx ∉ seen g.
Proof.
  revert g. induction txs as [|tx0 txs IH]; intros g Hok Hin; [by apply not_elem_of_nil in Hin|].
  destruct Hok as [H0 Hok]. apply elem_of_cons in Hin as [->|Hin]; [apply H0|].
  specialize (IH _ Hok Hin). intros Hs. apply IH. cbn. set_solver.
Qed.

(** The configured INIT is in the first block. *)
Lemma first_block_init b block s' d :
  apply_block block (new_state b) = (s', Ok d) ->
  exists tx, tx ∈ transactions block /\ tx_txid tx = init_txid b.
Proof.
  intros (_ & _ & s1 & evs & er & orr & He & _)%apply_block_Ok.
  unfold block_events in He. rewrite get_bind in He. cbn in He.
  destruct (list_find _ _) as [[i tx]|] eqn:Ef; [|done].
  apply list_find_Some in Ef as (Hl & Ht & _). exists tx. split; [by eapply list_elem_of_lookup_2|done].
Qed.

Lemma canonical_init_seen b g chain s : canonical b g chain s -> chain <> [] -> init_txid b ∈ seen g.
Proof.
  induction 1 as [|g chain s block s' d Hc IH _ Ha _]; [done|]. intros _. destruct chain as [|x chain].
  - inversion Hc; subst. apply first_block_init in Ha as (tx & Hin & <-). by apply seen_txs.
  - by apply seen_ledger_txs, IH.
Qed.

(** A block is the first of its chain exactly when it has the INIT. *)
Lemma canonical_bottom b g chain s block :
  canonical b g (block :: chain) s ->
  chain = [] <-> Exists (fun tx => tx_txid tx = init_txid b) (transactions block).
Proof.
  inversion 1 as [|g0 c s0 bl s' d Hc Hok Ha _]; subst. split.
  - intros ->. inversion Hc; subst. apply first_block_init in Ha as (tx & ? & ?).
    apply Exists_exists. by exists tx.
  - intros (tx & Hin & Et)%Exists_exists. destruct chain as [|x chain]; [done|].
    destruct (txs_ok_fresh _ _ _ _ Hok Hin). rewrite Et. by eapply canonical_init_seen.
Qed.

(** Where block hashes do not collide, equal tips mean equal chains. *)
Lemma canonical_agree b g1 g2 c1 c2 s1 s2 :
  canonical b g1 c1 s1 -> canonical b g2 c2 s2 ->
  (forall x y, x ∈ c1 -> y ∈ c2 -> blk_hash x = blk_hash y -> x = y) ->
  blk_hash <$> head c1 = blk_hash <$> head c2 -> c1 = c2.
Proof.
  intros H1. revert g2 c2 s2. induction H1 as [|g c1 s x s' d Hc IH Hok Ha Hh]; intros g2 c2 s2 H2 Hinj Et.
  - by destruct c2.
  - destruct c2 as [|y c2]; [done|]. injection Et as Et.
    assert (x = y) as <- by (apply Hinj; [apply list_elem_of_here..|done]). f_equal.
    assert (H1 : canonical b (ledger_txs (transactions x) g) (x :: c1) s') by by econstructor.
    pose proof (canonical_bottom _ _ _ _ _ H1) as B1. pose proof (canonical_bottom _ _ _ _ _ H2) as B2.
    inversion H2 as [|g0 c s0 bl s0' d0 Hc0 Hok0 Ha0 _]; subst.
    destruct c1 as [|x1 c1].
    { symmetry. apply B2, B1. done. }
    destruct c2 as [|y1 c2]; [by apply B1, B2|].
    eapply IH; [exact Hc0| |].
    + intros u v Hu Hv. apply Hinj; by apply list_elem_of_further.
    + apply canonical_held, held_tip in Hc as (Eh1 & Et1 & _), Hc0 as (Eh2 & Et2 & _).
      apply apply_block_delta in Ha as (_ & _ & _ & _ & _ & _ & _ & L1 & _).
      apply apply_block_delta in Ha0 as (_ & _ & _ & _ & _ & _ & _ & L2 & _).
      rewrite <- Et1, <- Et2. destruct (L1 _ Eh1) as [_ ->], (L2 _ Eh2) as [_ ->]. done.
Qed.

Lemma held_det b chain s1 s2 : held b chain s1 -> held b chain s2 -> s1 = s2.
Proof.
  intros H1. revert s2. induction H1 as [|chain s block s' d _ IH Ha]; intros s2 H2.
  - by inversion H2.
  - inversion H2 as [|? s3 ? ? d' H3 Ha']; subst. rewrite <- (IH _ H3), Ha in Ha'. by simplify_eq.
Qed.

Lemma reverse_snoc {A} (pre : list A) y post : reverse (pre ++ y :: post) = reverse post ++ y :: reverse pre.
Proof. by rewrite reverse_app, reverse_cons, <- (assoc_L (++)). Qed.

(** The next block of a canonical chain, from the state before it. *)
Lemma canonical_next b g G pre y post s sf :
  canonical b g (reverse pre) s -> canonical b G (reverse (pre ++ y :: post)) sf ->
  exists s' d, txs_ok (namespace b) g (transactions y) /\ apply_block y s = (s', Ok d) /\
    0 <= blk_height y <= i64_max /\
    canonical b (ledger_txs (transactions y) g) (reverse (pre ++ [y])) s'.
Proof.
  intros Hs HS. rewrite reverse_snoc in HS. apply canonical_suffix in HS as (g1 & s1 & H1).
  inversion H1 as [|g0 c s0 bl s' d Hc Hok Ha Hh]; subst.
  destruct (canonical_det _ _ _ _ _ _ Hs Hc) as [-> ->]. exists s1, d.
  split_and!; [done|done|lia|lia|]. by rewrite reverse_snoc.
Qed.

(** Heights are consecutive. *)
Lemma canonical_heights b G pre post sf first :
  canonical b G (reverse (pre ++ post)) sf ->
  (forall y, head post = Some y -> blk_height y = first) ->
  blk_height <$> post = seqZ first (len post).
Proof.
  revert pre first. induction post as [|y post IH]; intros pre first HS Hy; [done|].
  unfold len. rewrite fmap_cons, seqZ_cons by (cbn; lia). f_equal; [by apply Hy|].
  replace (Z.pred (Z.of_nat (length (y :: post)))) with (Z.of_nat (length post)) by (cbn; lia).
  apply (IH (pre ++ [y])); [by rewrite <- (assoc_L (++))|]. intros z Hz. destruct post as [|z' post]; [done|].
  injection Hz as ->. rewrite <- (Hy y eq_refl), <- Z.add_1_r.
  replace (pre ++ y :: z :: post) with ((pre ++ [y]) ++ z :: post) in HS by by rewrite <- (assoc_L (++)).
  rewrite reverse_snoc in HS. apply canonical_suffix in HS as (g1 & s1 & H1).
  inversion H1 as [|g0 c s0 bl s' d Hc Hok Ha Hh]; subst.
  apply apply_block_delta in Ha as (_ & _ & _ & _ & _ & _ & _ & L & _). apply L.
  apply canonical_held, held_tip in Hc as [-> _]. by rewrite reverse_snoc.
Qed.

(** ** A settled node *)

(** The node's client does not panic; the node is ready, serves the chain [canon] (oldest first) up to its best height, knows
    where the INIT is, and at the height of a stored block that is not in its chain reports
    another block; below a stored block that is in its chain the two chains agree. *)
Record serves (b : Binding) (src : BlockSource) (canon chain : list BlockView) (best : Z) : Prop := {
  sv_calm : source_calm src;
  sv_ready : exists st, src_status src = Ok st /\ ready_for st (network b) = true;
  sv_best : src_best_height src = Ok best;
  sv_last : forall x, last canon = Some x -> blk_height x = best;
  sv_bound : forall x, x ∈ canon -> blk_height x <= best;
  sv_block : forall x, x ∈ canon -> src_block src (blk_height x) = Ok x;
  sv_hash : forall x, x ∈ canon -> src_block_hash src (blk_height x) = Ok (blk_hash x);
  sv_init : src_transaction_height src (init_txid b) = Ok (blk_height <$> head canon);
  sv_stale : forall x, x ∈ chain -> x ∉ canon -> blk_height x <= best ->
    exists h, src_block_hash src (blk_height x) = Ok h /\ h <> blk_hash x;
  sv_common : forall above x below pre post,
    chain = above ++ x :: below -> canon = pre ++ x :: post -> below = reverse pre;
  sv_mempool : exists txs, src_mempool src = Ok txs /\ NoDup (tx_txid <$> txs);
}.

(** The same answers at every call, and every transaction commits. *)
Definition steady (env : Env) (src : BlockSource) : Prop :=
  forall t, source_at env t = src /\ io_at env t = IoOk.

Section Settled.
Context (env : Env) (release : ReleaseIdentity) (b : Binding) (src : BlockSource).
Context (canon : list BlockView) (best : Z).
Context (Hsteady : steady env src) (Hrelease : release_ok release = true).

Lemma steady_ask {A} (f : BlockSource -> res CallError A) (w : W) :
  ask env f w = (tick w, map_err (fun _ => SourceFailed) (f src)).
Proof. unfold ask. by destruct (Hsteady (w_clock w)) as [-> _]. Qed.

Lemma steady_call {A} (f : Io -> st DB StoreError A) (w : W) db a :
  f IoOk (w_db w) = (db, Ok a) -> store_call env f w = (tick (set_db db w), Ok a).
Proof.
  intros H. unfold store_call, st_bind, call_store. destruct (Hsteady (w_clock w)) as [_ ->].
  by rewrite H.
Qed.

Lemma insert_mempool_accepts txs (db : DB) :
  NoDup (tx_txid <$> txs) -> Forall (fun tx => mempool_t db !! tx_txid tx = None) txs ->
  exists pool, insert_mempool txs db = (set_mempool pool db, Ok tt).
Proof.
  revert db. induction txs as [|tx txs IH]; intros db Hnd Hf; cbn [insert_mempool].
  { exists (mempool_t db). by destruct db. }
  apply NoDup_cons in Hnd as [Hn Hnd]. apply Forall_cons in Hf as [H0 Hf].
  rewrite get_bind. unfold st_bind at 1, require, st_lift. rewrite decide_True by done. rewrite modify_bind.
  destruct (IH (set_mempool (<[tx_txid tx := to_value tx]> (mempool_t db)) db)) as [pool ->]; [done| |].
  - rewrite Forall_forall in *. intros tx' Hin. cbn. rewrite lookup_insert_ne; [by apply Hf|].
    intros E. apply Hn. rewrite E. by apply list_elem_of_fmap_2.
  - by exists pool.
Qed.

Lemma refresh_accepts (w : W) txs :
  src_mempool src = Ok txs -> NoDup (tx_txid <$> txs) ->
  exists w' pool, refresh_mempool env w = (w', Ok tt) /\ w_db w' = set_mempool pool (w_db w) /\
    w_state w' = w_state w.
Proof.
  intros Hm Hnd. destruct (insert_mempool_accepts txs (set_mempool ∅ (w_db w))) as [pool Hp]; [done|by apply Forall_true|].
  exists (tick (set_db (set_mempool pool (w_db w)) (tick w))), pool. split; [|done].
  unfold refresh_mempool, st_bind at 1. rewrite steady_ask, Hm. cbn [map_err].
  apply steady_call. unfold replace_mempool, transact. rewrite modify_bind. cbn. by rewrite Hp.
Qed.

Lemma journal_hashes chain (blocks : gmap Z (BlockRow JV)) events s :
  journal b chain blocks events s ->
  map_Forall (fun _ row => exists x, x ∈ chain /\ br_block_hash row = blk_hash x) blocks.
Proof.
  induction 1 as [|chain blocks events block s s' d rel Hj IH _ Ha _ _]; intros h row Hr; [done|].
  apply lookup_insert_Some in Hr as [[<- <-]|[_ Hr]].
  - exists block. split; [apply list_elem_of_here|]. by apply apply_block_delta in Ha as (_ & _ & ? & _).
  - apply IH in Hr as (x & ? & ?). exists x. split; [by apply list_elem_of_further|done].
Qed.

(** One block of the node's chain. *)
Lemma ingest_accepts chain g G pre y post s sf (w : W) :
  serves b src canon chain best -> canon = pre ++ y :: post -> NoDup (blk_hash <$> canon) ->
  canonical b g (reverse pre) s -> canonical b G (reverse canon) sf ->
  db_ok b (reverse pre) (w_db w) s -> w_state w = s ->
  exists w' s', ingest_height env release (blk_height y) w = (w', Ok tt) /\ w_state w' = s' /\
    db_ok b (reverse (pre ++ [y])) (w_db w') s' /\
    canonical b (ledger_txs (transactions y) g) (reverse (pre ++ [y])) s'.
Proof.
  intros Hsv -> Hnd Hs HS Hdb Hw.
  destruct (canonical_next _ _ _ _ _ _ _ _ Hs HS) as (s' & d & Hok & Ha & Hh & Hs').
  destruct (commit_accepts b g (reverse pre) (w_db w) s y s' d release) as (db' & Hc & Hdb');
    [done|by eapply canonical_reachable|done..| |].
  { intros h row Hr E. apply (journal_hashes _ _ _ _ (dk_journal _ _ _ _ Hdb)) in Hr as (x & Hx & E').
    rewrite fmap_app in Hnd. apply NoDup_app in Hnd as (_ & Hd & _).
    apply (Hd (blk_hash x)); [by apply list_elem_of_fmap_2; rewrite elem_of_reverse in Hx|].
    rewrite <- E', E. cbn. apply list_elem_of_here. }
  exists (tick (set_db db' (set_state s' (tick w)))), s'. split_and!; [|done|by rewrite reverse_snoc|done].
  unfold ingest_height, st_bind at 1. rewrite steady_ask, (sv_block _ _ _ _ _ Hsv y) by set_solver.
  cbn [map_err]. rewrite get_bind. cbn [w_state tick]. rewrite Hw, Ha, modify_bind.
  unfold st_bind at 1, call_store. destruct (Hsteady (w_clock (set_state s' (tick w)))) as [_ ->].
  cbn [w_db set_state tick]. by rewrite Hc.
Qed.

Lemma catch_up_accepts chain g G pre post s sf (w : W) :
  serves b src canon chain best -> canon = pre ++ post -> NoDup (blk_hash <$> canon) ->
  canonical b g (reverse pre) s -> canonical b G (reverse canon) sf ->
  db_ok b (reverse pre) (w_db w) s -> w_state w = s ->
  exists w', catch_up env release (blk_height <$> post) w = (w', Ok tt) /\ w_state w' = sf /\
    db_ok b (reverse canon) (w_db w') sf.
Proof.
  revert pre g s w. induction post as [|y post IH]; intros pre g s w Hsv Hpre Hnd Hs HS Hdb Hw.
  - exists w. rewrite app_nil_r in Hpre. subst pre.
    destruct (canonical_det _ _ _ _ _ _ Hs HS) as [_ <-]. done.
  - destruct (ingest_accepts chain g G pre y post s sf w) as (w1 & s1 & H1 & E1 & Hdb1 & Hs1); [done..|].
    assert (Hpre' : canon = (pre ++ [y]) ++ post) by by rewrite <- (assoc_L (++)).
    destruct (IH _ _ _ w1 Hsv Hpre' Hnd Hs1 HS Hdb1 E1) as (w' & H' & E' & Hdb').
    exists w'. split; [|done]. cbn [fmap list_fmap catch_up]. unfold st_bind. by rewrite H1.
Qed.

(** The walk back stops at a common block, or at the start. *)
Lemma reconcile_settles above G chain sf fuel (w : W) :
  serves b src canon (above ++ chain) best -> canonical b G (reverse canon) sf ->
  (forall x y, x ∈ chain -> y ∈ canon -> blk_hash x = blk_hash y -> x = y) ->
  (length chain < fuel)%nat ->
  held b chain (w_state w) -> db_ok b chain (w_db w) (w_state w) ->
  exists w' pre post g', reconcile_reorg env fuel best w = (w', Ok tt) /\ canon = pre ++ post /\
    canonical b g' (reverse pre) (w_state w') /\ db_ok b (reverse pre) (w_db w') (w_state w').
Proof.
  intros Hsv HS. revert above w fuel Hsv. induction chain as [|x rest IH]; intros above w fuel Hsv Hinj Hf Hc Hdb.
  { destruct fuel as [|fuel]; [lia|]. assert (w_state w = new_state b) as E by by inversion Hc.
    exists w, [], canon, empty_ledger. split_and!; [|done| |done].
    - pose proof (held_tip _ _ _ Hc) as [Et _]. cbn [reconcile_reorg]. by rewrite get_bind, Et.
    - rewrite E. constructor. }
  destruct fuel as [|fuel]; [lia|]. pose proof (held_tip _ _ _ Hc) as (Et & Eh & _).
  destruct (decide (blk_hash x ∈ blk_hash <$> canon)) as [Hin|Hout].
  - apply list_elem_of_fmap in Hin as (y & Ey & Hin). apply Hinj in Ey as <-; [|apply list_elem_of_here|done].
    apply list_elem_of_split in Hin as Hsp. destruct Hsp as (pre & post & E).
    assert (Hag : x :: rest = reverse (pre ++ [x])).
    { by rewrite reverse_snoc, reverse_nil, (sv_common _ _ _ _ _ Hsv above x rest pre post eq_refl E). }
    assert (Hcan : exists g', canonical b g' (reverse (pre ++ [x])) (w_state w)).
    { rewrite E, reverse_snoc in HS. apply canonical_suffix in HS as (g1 & s1 & H1). exists g1.
      rewrite reverse_snoc. rewrite Hag, reverse_snoc in Hc.
      by rewrite (held_det _ _ _ _ Hc (canonical_held _ _ _ _ H1)). }
    destruct Hcan as [g' Hcan].
    exists (tick w), (pre ++ [x]), post, g'. rewrite Hag in Hdb. split_and!; [| |done..].
    + eapply (reconcile_reorg_stop _ _ _ _ (blk_height x) (blk_hash x));
        [done|done|by apply (sv_bound _ _ _ _ _ Hsv)|].
      destruct (Hsteady (w_clock w)) as [-> _]. by apply (sv_hash _ _ _ _ _ Hsv).
    + by rewrite <- (assoc_L (++)).
  - destruct (reconcile_reorg_back env fuel best w (blk_height x) (blk_hash x))
      as (w1 & Ed & Es & _ & ->); [done|done| |].
    { destruct (decide (blk_height x <= best)) as [Hb|Hb]; [right|left; lia].
      destruct (Hsteady (w_clock w)) as [-> _].
      apply (sv_stale _ _ _ _ _ Hsv); [set_solver| |done].
      intros Hin. by apply Hout, list_elem_of_fmap_2. }
    rewrite <- Ed in Hdb.
    destruct (rollback_tip IoOk (w_db w1)) as [db' r] eqn:Hr.
    apply (rollback_cases _ _ _ _ _ _ _ Hdb) in Hr as Hrc.
    destruct Hrc as (s0 & d & Ha & -> & [[? _]|(_ & Hok & _)]); [done|].
    unfold st_bind at 1. rewrite (steady_call _ _ _ _ Hr). unfold st_bind at 1, st_lift at 1, ok_or.
    rewrite modify_bind. assert (Hc0 : held b rest s0) by by eapply journal_held, dk_journal.
    destruct (protocol_status s0) eqn:Ep.
    + pose proof (held_tip _ _ _ Hc0) as (_ & _ & _ & Hn). rewrite (Hn Ep) in *.
      exists (set_state s0 (tick (set_db db' w1))), [], canon, empty_ledger. split_and!; try done.
      assert (s0 = new_state b) as -> by by inversion Hc0. constructor.
    + eapply (IH (above ++ [x]) (set_state s0 (tick (set_db db' w1)))); try done;
        [by rewrite <- (assoc_L (++))|set_solver|cbn in Hf; lia].
    + eapply (IH (above ++ [x]) (set_state s0 (tick (set_db db' w1)))); try done;
        [by rewrite <- (assoc_L (++))|set_solver|cbn in Hf; lia].
Qed.

(** The heights still to fetch are those of the blocks still to apply. *)
Lemma height_range_post chain G pre post sf first :
  serves b src canon chain best -> canon = pre ++ post -> canonical b G (reverse canon) sf ->
  (forall y, head post = Some y -> blk_height y = first) ->
  (forall x, last pre = Some x -> first = blk_height x + 1) -> canon <> [] ->
  height_range first best = blk_height <$> post.
Proof.
  intros Hsv E HS Hy Hx Hne. pose proof HS as HS'. rewrite E in HS'.
  pose proof (canonical_heights _ _ _ _ _ first HS' Hy) as Hh. unfold height_range.
  destruct post as [|y post].
  - rewrite app_nil_r in E. subst pre. destruct (last canon) as [x|] eqn:El; [|by apply last_None in El].
    rewrite <- (sv_last _ _ _ _ _ Hsv x El), (Hx x eq_refl). rewrite decide_False by lia. done.
  - rewrite Hh. destruct (last (y :: post)) as [z|] eqn:El; [|by apply last_None in El].
    assert (Ez : blk_height z = first + len (y :: post) - 1).
    { assert (Hl : last (blk_height <$> y :: post) = Some (blk_height z)) by by rewrite fmap_last, El.
      rewrite Hh, last_lookup, length_seqZ in Hl. apply lookup_seqZ in Hl as [-> _].
      unfold len in *. cbn in *. lia. }
    assert (Eb : blk_height z = best).
    { apply (sv_last _ _ _ _ _ Hsv). rewrite E, last_app. by rewrite El. }
    rewrite decide_True by (unfold len in Ez; cbn in Ez; lia). f_equal. lia.
Qed.

(** The rest of a pass, once the starting height is known. *)
Lemma finish chain g G pre post s sf (w : W) txs first :
  serves b src canon chain best -> canon = pre ++ post -> NoDup (blk_hash <$> canon) ->
  canonical b g (reverse pre) s -> canonical b G (reverse canon) sf ->
  db_ok b (reverse pre) (w_db w) s -> w_state w = s ->
  src_mempool src = Ok txs -> NoDup (tx_txid <$> txs) ->
  (forall y, head post = Some y -> blk_height y = first) ->
  (forall x, last pre = Some x -> first = blk_height x + 1) -> canon <> [] ->
  exists w', (run catch_up env release (height_range first best); refresh_mempool env) w = (w', Ok tt) /\
    w_state w' = sf /\ db_ok b (reverse canon) (w_db w') sf.
Proof.
  intros Hsv E Hnd Hs HS Hdb Hw Em Hm Hy Hx Hne.
  rewrite (height_range_post chain G pre post sf first) by done.
  destruct (catch_up_accepts chain g G pre post s sf w) as (w1 & H1 & E1 & Hdb1); [done..|].
  destruct (refresh_accepts w1 txs Em Hm) as (w2 & pool & H2 & Ed & Es). exists w2.
  unfold st_bind. rewrite H1, H2, Es, Ed. split_and!; [done..|]. by apply db_ok_mempool.
Qed.

Lemma canonical_tip_bound g chain s x :
  canonical b g chain s -> head chain = Some x -> blk_height x + 1 <= u64_max.
Proof. destruct 1 as [|g chain s block s' d _ _ _ Hh]; [done|]. intros [= <-]. unfold i64_max, u64_max in *. lia. Qed.

(** One pass converges: when the node serves a canonical chain and the connections work, a
    pass from any recorded branch ends successfully with the state of the node's chain in
    memory and a database that holds exactly that chain, however deep the reorganisation and
    whatever blocks the branch was made of. *)
Lemma run_once_converges G chain sf (w : W) :
  db_ok b chain (w_db w) (w_state w) ->
  canonical b G (reverse canon) sf -> serves b src canon chain best ->
  NoDup (blk_hash <$> canon) ->
  (forall x y, x ∈ chain -> y ∈ canon -> blk_hash x = blk_hash y -> x = y) ->
  exists w', run_once env release w = (w', Ok tt) /\ w_state w' = sf /\
    db_ok b (reverse canon) (w_db w') sf.
Proof.
  intros Hdb HS Hsv Hnd Hinj. pose proof (journal_held _ _ _ _ _ (dk_journal _ _ _ _ Hdb)) as Hc.
  destruct (sv_ready _ _ _ _ _ Hsv) as (st & Es & Er).
  destruct (sv_mempool _ _ _ _ _ Hsv) as (txs & Em & Hm).
  pose proof (held_tip _ _ _ Hc) as (_ & _ & Eb & _).
  rewrite (run_once_follow _ _ w st best);
    [|by rewrite (proj1 (Hsteady _))|by rewrite Eb|by rewrite (proj1 (Hsteady _)), (sv_best _ _ _ _ _ Hsv)].
  set (w0 := tick (tick w)).
  destruct (reconcile_settles [] G chain sf (Datatypes.S (size (blocks_t (w_db w0)))) w0)
    as (w1 & pre & post & g1 & H1 & E1 & Hc1 & Hdb1); [done..| |done|done|].
  { cbn. rewrite (journal_size _ _ _ _ _ (dk_journal _ _ _ _ Hdb)). lia. }
  pose proof (held_tip _ _ _ (canonical_held _ _ _ _ Hc1)) as (Et & _ & Eb1 & _).
  rewrite head_reverse in Et.
  unfold follow, st_bind at 1, reconcile. rewrite get_bind, H1.
  destruct (last pre) as [x|] eqn:El.
  - unfold st_bind at 1, first_height. rewrite get_bind, Et. cbn [fmap option_fmap option_map].
    unfold st_bind at 1, st_lift at 1.
    rewrite (proj2 (checked_add_Some u64_max (blk_height x) 1 (blk_height x + 1)))
      by (split; [done|]; apply (canonical_tip_bound _ _ _ _ Hc1); by rewrite head_reverse).
    cbn [map_err ok_or]. unfold st_ret at 1.
    apply (finish chain g1 G pre post (w_state w1) sf w1 txs); try done; [|intros z Hz; congruence|].
    + intros y Hy. destruct post as [|y' post]; [done|]. injection Hy as ->. rewrite E1 in HS.
      destruct (canonical_next _ _ _ _ _ _ _ _ Hc1 HS) as (s' & d & _ & Ha & _).
      apply apply_block_delta in Ha as (_ & _ & _ & _ & _ & _ & _ & L & _). by apply L.
    + intros ->. destruct pre; done.
  - apply last_None in El as ->. cbn in E1. subst post. unfold st_bind at 1, first_height.
    rewrite get_bind, Et. cbn [fmap option_fmap option_map]. rewrite steady_ask, Eb1, (sv_init _ _ _ _ _ Hsv).
    cbn [map_err ok_or]. destruct canon as [|y rest] eqn:Ec; cbn [head fmap option_fmap option_map].
    + destruct (refresh_accepts (tick w1) txs Em Hm) as (w2 & pool & H2 & Ed & Es2). exists w2.
      destruct (canonical_det _ _ _ _ _ _ Hc1 HS) as [_ <-]. split_and!; [done|done|].
      rewrite Ed. by apply db_ok_mempool.
    + rewrite <- Ec in *. apply (finish chain g1 G [] canon (w_state w1) sf _ txs); try done.
      * rewrite Ec. by intros ? [= <-].
      * by rewrite Ec.
Qed.
End Settled.

(** ** A lost acknowledgement *)

(** The node answers the opening questions of a pass at time [t]: it is ready and its best block
    has this height and hash. *)
Definition best_at (env : Env) (n : Network) (t : nat) (height : Z) (hash : Hash32) : Prop :=
  (exists st, src_status (source_at env t) = Ok st /\ ready_for st n = true) /\
  src_best_height (source_at env (1 + t)) = Ok height /\
  src_block_hash (source_at env (2 + t)) height = Ok hash.

Lemma lost_rollback_pass env release b block chain (w : W) other :
  db_ok b (block :: chain) (w_db w) (w_state w) ->
  best_at env (network b) (w_clock w) (blk_height block) other -> other <> blk_hash block ->
  io_at env (3 + w_clock w) = IoLost ->
  exists db s0, db_ok b chain db s0 /\
    run_once env release w = (mkWorker db (w_state w) (4 + w_clock w), Err (StoreFailed DbFailure)).
Proof.
  intros Hdb ((st & Es & Er) & Eb & Eh) Hne Hio. cbn in Eb, Eh, Hio.
  pose proof (journal_tip_height _ _ _ _ _ (dk_journal _ _ _ _ Hdb)) as (Et & Eo & Ebd).
  rewrite (run_once_follow _ _ w st (blk_height block)); [|done|by rewrite Ebd|done].
  unfold follow, st_bind at 1, reconcile. rewrite get_bind.
  destruct (reconcile_reorg_back env (size (blocks_t (w_db (tick (tick w))))) (blk_height block)
    (tick (tick w)) (blk_height block) (blk_hash block)) as (w1 & Ed & Ews & Ecl & ->); [done|done| |].
  { right. by exists other. }
  rewrite decide_False in Ecl by lia. unfold st_bind at 1, store_call, st_bind at 1, call_store.
  rewrite Ecl, Ed. cbn [w_clock tick w_db]. rewrite Hio.
  destruct (rollback_tip IoLost (w_db w)) as [db r] eqn:Hr.
  apply (rollback_cases _ _ _ _ _ _ _ Hdb) in Hr as (s0 & d & _ & -> & [[? _]|(_ & Hok & _)]); [done|].
  exists db, s0. split; [done|]. unfold set_db, tick, store_try, st_lift. cbn. by rewrite Ecl, Ews.
Qed.

Lemma quiet_pass env release b height own (w : W) :
  tip_height (w_state w) = Some height -> tip_hash (w_state w) = Some own -> height < u64_max ->
  binding (w_state w) = b ->
  best_at env (network b) (w_clock w) height own ->
  src_mempool (source_at env (3 + w_clock w)) = Ok [] -> io_at env (4 + w_clock w) = IoOk ->
  run_once env release w =
  (mkWorker (set_mempool ∅ (w_db w)) (w_state w) (5 + w_clock w), Ok tt).
Proof.
  intros Et Eo Hh Ebd ((st & Es & Er) & Eb & Eh) Em Hio. cbn in Eb, Eh, Em, Hio.
  rewrite (run_once_follow _ _ w st height); [|done|by rewrite Ebd|done].
  unfold follow, st_bind at 1, reconcile. rewrite get_bind.
  rewrite (reconcile_reorg_stop _ _ _ _ height own) by done.
  unfold st_bind at 1, first_height. rewrite get_bind. cbn [w_state tick]. rewrite Et.
  unfold st_bind at 1, st_lift at 1.
  rewrite (proj2 (checked_add_Some u64_max height 1 (height + 1))) by lia. cbn [ok_or]. unfold st_ret at 1.
  unfold height_range. rewrite decide_False by lia. cbn [catch_up]. unfold st_bind at 1, st_ret at 1.
  unfold refresh_mempool, st_bind at 1, ask. cbn [w_clock tick]. rewrite Em. cbn [map_err].
  unfold store_call, st_bind at 1, call_store. cbn [w_clock tick w_db].
  by rewrite Hio.
Qed.

(** C35: the one gap in the worker's recovery: after a rollback whose acknowledgement is lost,
    memory is not reloaded; if the node then returns to the old tip, the next pass succeeds and
    reports that tip as healthy while the database stays one block behind it. *)
Theorem lost_rollback_unnoticed env release b block chain (w : W) other h :
  db_ok b (block :: chain) (w_db w) (w_state w) -> blk_height block < u64_max ->
  best_at env (network b) (w_clock w) (blk_height block) other -> other <> blk_hash block ->
  io_at env (3 + w_clock w) = IoLost ->
  best_at env (network b) (4 + w_clock w) (blk_height block) (blk_hash block) ->
  src_mempool (source_at env (7 + w_clock w)) = Ok [] -> io_at env (8 + w_clock w) = IoOk ->
  exists w' h' s0, run_loop env release 2 h w = (w', h', Ok tt) /\
    last_error h' = None /\ last_successful_height h' = Some (blk_height block) /\
    w_state w' = w_state w /\ db_ok b chain (w_db w') s0 /\ tip_height s0 <> Some (blk_height block).
Proof.
  intros Hdb Hh Hb1 Hne Hio1 Hb2 Em Hio2.
  destruct (lost_rollback_pass env release b block chain w other) as (db & s0 & Hok & H1); [done..|].
  pose proof (journal_tip_height _ _ _ _ _ (dk_journal _ _ _ _ Hdb)) as (Et & Eo & Ebd).
  pose proof (quiet_pass env release b (blk_height block) (blk_hash block)
    (mkWorker db (w_state w) (4 + w_clock w)) Et Eo Hh Ebd Hb2 Em Hio2) as H2.
  exists (mkWorker (set_mempool ∅ db) (w_state w) (9 + w_clock w)).
  exists (mkHealth (Some (blk_height block)) None false), s0.
  cbn [run_loop]. unfold run_pass. rewrite H1, H2. cbn [w_state]. rewrite Et. split_and!; try done.
  - cbn. by apply db_ok_mempool.
  - pose proof (journal_tip_height _ _ _ _ _ (dk_journal _ _ _ _ Hok)) as (Et0 & _).
    pose proof (dk_journal _ _ _ _ Hdb) as Hj. inversion Hj as [|? ? ? ? s1 ? d ? Hj1 ? Ha]; subst.
    apply apply_block_delta in Ha as (_ & _ & _ & _ & _ & _ & _ & L & _).
    apply journal_tip_height in Hj1 as (Et1 & _). rewrite Et0, <- Et1. intros [E _]%L. lia.
Qed.
End Converge.
