(* ===== verification/Fleet.v ===== *)
(** * Several workers over one database (crates/tandem-verifier/src/ingest.rs, store.rs)

    The worker of [Ingest] call by call: a program counter says which call of [run_once] comes
    next, and one step makes that call with whatever the node answers and whatever happens to the
    transaction at that moment.  A fleet is any number of such workers, started, scheduled and
    killed in any order over one shared database.  The advisory lock makes the transactions of
    [bind_or_load], [apply_block] and [rollback_tip] single steps; [replace_mempool] does not take
    it, so two refreshes may also overlap and leave any overlay behind.  Run alone, the machine computes [run_once]; together, the
    workers only ever push and pop whole blocks of one deployment's chain. *)

From stdpp Require Import relations.
From S2P Require Import Prelude Types Marker Roots Reducer Chain Store StoreInv Commit Queries Ingest IngestInv.

Section Fleet.
Context {JV : Type} {P : Primitives}.
Context `{!Json JV Binding, !Json JV ChainState, !Json JV BlockDelta, !Json JV Event,
          !Json JV ObjectState, !Json JV TxView}.

#[local] Abbreviation W := (Worker (JV := JV)).
#[local] Abbreviation DB := (Db JV).

(** The next call of a pass. *)
Inductive Pc :=
| AskStatus
| AskBest
| AskTipHash (best tip : Z)
| RollBack (best : Z)
| AskInit (best : Z)
| AskBlock (height : Z) (rest : list Z)
| Commit (delta : BlockDelta) (rest : list Z)
| Reload (before : ChainState) (e : StoreError)
| AskMempool
| ReplaceMempool (txs : list TxView)
| Stopped (r : res IngestError unit).

(** A worker: the state in memory, the release it stamps on its rows, and where it is. *)
Record Process := mkProcess {
  p_state : ChainState;
  p_release : ReleaseIdentity;
  p_pc : Pc;
}.

(** ** Where the code goes between two calls *)

(** The next height to ingest, or the mempool. *)
Definition next_height (heights : list Z) : Pc :=
  match heights with h :: rest => AskBlock h rest | [] => AskMempool end.

(** After [reconcile_reorg]. *)
Definition reconciled (best : Z) (s : ChainState) : Pc :=
  match tip_height s with
  | Some tip =>
      match checked_add u64_max tip 1 with
      | Some first => next_height (height_range first best)
      | None => Stopped (Err HeightOverflow)
      end
  | None => AskInit best
  end.

(** The tip is not in the node's chain. *)
Definition disconnecting (best : Z) (s : ChainState) : Pc :=
  match tip_hash s with Some _ => RollBack best | None => Stopped Panic end.

(** The head of the loop of [reconcile_reorg]. *)
Definition reconciling (best : Z) (s : ChainState) : Pc :=
  match tip_height s with
  | Some tip => if decide (tip > best) then disconnecting best s else AskTipHash best tip
  | None => reconciled best s
  end.

(** The tail of that loop, with the restored state. *)
Definition rolled_back (best : Z) (s : ChainState) : Pc :=
  match protocol_status s with AwaitingInit => reconciled best s | _ => reconciling best s end.

(** ** One call *)

(** The continuation of a call to the node: an error ends the pass, a panic the worker. *)
Definition answered {A} (answer : res CallError A) (k : A -> Pc) : Pc :=
  match answer with Ok a => k a | Err _ => Stopped (Err SourceFailed) | Panic => Stopped Panic end.

Definition goto (pc : Pc) (p : Process) : Process := mkProcess (p_state p) (p_release p) pc.
Definition become (s : ChainState) (pc : Pc) (p : Process) : Process := mkProcess s (p_release p) pc.

Definition process_step (src : BlockSource) (io : Io) (db : DB) (p : Process) : DB * Process :=
  let s := p_state p in
  match p_pc p with
  | AskStatus =>
      (db, goto (answered (src_status src) (fun status =>
        if ready_for status (network (binding s)) then AskBest else Stopped (Err NotReady))) p)
  | AskBest => (db, goto (answered (src_best_height src) (fun best => reconciling best s)) p)
  | AskTipHash best tip =>
      (db, goto (answered (src_block_hash src tip) (fun h =>
        match tip_hash s with
        | None => Stopped Panic
        | Some own => if decide (h = own) then reconciled best s else disconnecting best s
        end)) p)
  | RollBack best =>
      match rollback_tip io db with
      | (db', Ok (Some s')) => (db', become s' (rolled_back best s') p)
      | (db', Ok None) => (db', goto (Stopped (Err NoRollbackJournal)) p)
      | (db', Err e) => (db', goto (Stopped (Err (StoreFailed e))) p)
      | (db', Panic) => (db', goto (Stopped Panic) p)
      end
  | AskInit best =>
      (db, goto (answered (src_transaction_height src (init_txid (binding s))) (fun height =>
        match height with
        | Some first => next_height (height_range first best)
        | None => AskMempool
        end)) p)
  | AskBlock height rest =>
      match src_block src height with
      | Err _ => (db, goto (Stopped (Err SourceFailed)) p)
      | Panic => (db, goto (Stopped Panic) p)
      | Ok block =>
          match apply_block block s with
          | (s', Ok delta) => (db, become s' (Commit delta rest) p)
          | (s', Err e) => (db, become s' (Stopped (Err (ReductionFailed e))) p)
          | (s', Panic) => (db, become s' (Stopped Panic) p)
          end
      end
  | Commit delta rest =>
      match store_apply_block io s delta (p_release p) db with
      | (db', Ok _) => (db', goto (next_height rest) p)
      | (db', Err e) => (db', goto (Reload (bd_before delta) e) p)
      | (db', Panic) => (db', goto (Stopped Panic) p)
      end
  | Reload before e =>
      match load_state io db with
      | (db', Ok s') => (db', become s' (Stopped (Err (StoreFailed e))) p)
      | (db', Err _) => (db', become before (Stopped (Err (StoreFailed e))) p)
      | (db', Panic) => (db', goto (Stopped Panic) p)
      end
  | AskMempool => (db, goto (answered (src_mempool src) ReplaceMempool) p)
  | ReplaceMempool txs =>
      match replace_mempool io txs db with
      | (db', Ok _) => (db', goto (Stopped (Ok tt)) p)
      | (db', Err e) => (db', goto (Stopped (Err (StoreFailed e))) p)
      | (db', Panic) => (db', goto (Stopped Panic) p)
      end
  | Stopped Panic => (db, p)
  | Stopped _ => (db, goto AskStatus p)
  end.

(** ** Fleets *)

Record Fleet := mkFleet {
  f_db : DB;
  f_procs : list Process;
}.

Definition no_fleet : Fleet := mkFleet empty_db [].

(** A process starts ([bind_or_load] of whatever deployment it is configured for), makes its next
    call, refreshes the overlay at the same time as another, or dies.  [answers] says what a node
    may answer. *)
Inductive fleet_step_over (answers : BlockSource -> Prop) : Fleet -> Fleet -> Prop :=
| fleet_start db procs io b release db' s :
    bind_or_load io b db = (db', Ok s) ->
    fleet_step_over answers (mkFleet db procs) (mkFleet db' (mkProcess s release AskStatus :: procs))
| fleet_refused db procs io b db' r :
    bind_or_load io b db = (db', r) -> (forall s, r <> Ok s) ->
    fleet_step_over answers (mkFleet db procs) (mkFleet db' procs)
| fleet_run db procs i p src io db' p' :
    procs !! i = Some p -> answers src -> process_step src io db p = (db', p') ->
    fleet_step_over answers (mkFleet db procs) (mkFleet db' (<[i := p']> procs))
| fleet_overlap db procs i p txs pool r :
    procs !! i = Some p -> p_pc p = ReplaceMempool txs ->
    fleet_step_over answers (mkFleet db procs) (mkFleet (set_mempool pool db) (<[i := goto (Stopped r) p]> procs))
| fleet_die db procs i :
    fleet_step_over answers (mkFleet db procs) (mkFleet db (delete i procs)).

(** Any node, any answers. *)
Definition fleet_step : Fleet -> Fleet -> Prop := fleet_step_over (fun _ => True).

Definition fleet_reaches : Fleet -> Prop := rtc fleet_step no_fleet.
End Fleet.
