(* ===== verification/FleetInv.v ===== *)
(** * Safety of a fleet

    Any number of workers, under any schedule, with any crashes and restarts, any answers of
    their nodes and any failure of their transactions, keep one consistent database: it stays
    bound to one deployment, every live worker follows that deployment, and one step of anyone
    leaves the stored chain, puts one block on it or takes one off.  Alone, the machine is
    [run_once]. *)

From stdpp Require Import relations.
From S2P Require Import Prelude Types Marker Roots Reducer Chain Store StoreInv Commit Queries Ingest IngestInv Fleet.

Section FleetInv.
Context {JV : Type} {P : Primitives}.
Context `{!Json JV Binding, !Json JV ChainState, !Json JV BlockDelta, !Json JV Event,
          !Json JV ObjectState, !Json JV TxView}.

#[local] Abbreviation W := (Worker (JV := JV)).
#[local] Abbreviation DB := (Db JV).

#[local] Arguments store_apply_block : simpl never.
#[local] Arguments rollback_tip : simpl never.
#[local] Arguments load_state : simpl never.
#[local] Arguments replace_mempool : simpl never.

(** ** One process *)

(** A state some chain of blocks of the deployment produces. *)
Definition follows (b : Binding) (s : ChainState) : Prop := exists c, held b c s.

(** What a process may rely on between two of its calls, whatever the others do: its memory is a
    state of the deployment, and a pending commit is a step of the reducer.  A process that
    panicked has no memory. *)
Definition process_ok (b : Binding) (p : Process) : Prop :=
  match p_pc p with
  | Stopped Panic => True
  | Commit d _ => exists block s0, follows b s0 /\ apply_block block s0 = (p_state p, Ok d)
  | Reload before _ => follows b (p_state p) /\ follows b before
  | _ => follows b (p_state p)
  end.

Lemma process_ok_goto b p pc :
  follows b (p_state p) ->
  match pc with Commit _ _ | Reload _ _ => False | _ => True end -> process_ok b (goto pc p).
Proof. destruct pc as [| | | | | | | | | |[]]; by cbn. Qed.

Lemma process_ok_become b s pc p :
  follows b s ->
  match pc with Commit _ _ | Reload _ _ => False | _ => True end -> process_ok b (become s pc p).
Proof. destruct pc as [| | | | | | | | | |[]]; by cbn. Qed.

(** None of the places the code goes to by itself is a pending commit. *)
Definition quiet (pc : Pc) : Prop := match pc with Commit _ _ | Reload _ _ => False | _ => True end.

Lemma quiet_next heights : quiet (next_height heights).
Proof. by destruct heights. Qed.
Lemma quiet_reconciled best s : quiet (reconciled best s).
Proof.
  unfold reconciled. destruct (tip_height s); [|done]. destruct (checked_add _ _ _); [|done]. apply quiet_next.
Qed.
Lemma quiet_disconnecting best s : quiet (disconnecting best s).
Proof. unfold disconnecting. by destruct (tip_hash s). Qed.
Lemma quiet_reconciling best s : quiet (reconciling best s).
Proof.
  unfold reconciling. destruct (tip_height s); [|apply quiet_reconciled]. case_decide; [|done].
  apply quiet_disconnecting.
Qed.
Lemma quiet_rolled_back best s : quiet (rolled_back best s).
Proof. unfold rolled_back. destruct (protocol_status s); auto using quiet_reconciled, quiet_reconciling. Qed.
Lemma quiet_answered {A} (answer : res CallError A) k : (forall a, quiet (k a)) -> quiet (answered answer k).
Proof. by destruct answer; cbn. Qed.

#[local] Hint Resolve quiet_next quiet_reconciled quiet_disconnecting quiet_reconciling quiet_rolled_back
  quiet_answered : core.

(** What one step may do to the stored chain: nothing, one block on top of the stored state, or
    one block off. *)
Inductive moves (chain : list BlockView) (s : ChainState) : list BlockView -> ChainState -> Prop :=
| moves_not : moves chain s chain s
| moves_push block s' d : apply_block block s = (s', Ok d) -> moves chain s (block :: chain) s'
| moves_pop block rest s' d : chain = block :: rest -> apply_block block s' = (s, Ok d) -> moves chain s rest s'.

Lemma db_ok_held b chain (db : DB) s : db_ok b chain db s -> held b chain s.
Proof. intros H. by eapply journal_held, dk_journal. Qed.

(** Committing with whatever the others left in the database. *)
Lemma commit_moves b chain (db db' : DB) s p d rest io r :
  db_ok b chain db s -> p_pc p = Commit d rest -> process_ok b p ->
  store_apply_block io (p_state p) d (p_release p) db = (db', r) ->
  r <> Panic /\ (exists chain' s', db_ok b chain' db' s' /\ moves chain s chain' s') /\
  follows b (p_state p) /\ follows b (bd_before d).
Proof.
  intros Hdb Ep Hp Hc. unfold process_ok in Hp. rewrite Ep in Hp. destruct Hp as (block & s0 & [c Hf] & Ha).
  pose proof (apply_block_delta _ _ _ _ Ha) as [E0 _].
  assert (Hl : follows b (p_state p) /\ follows b (bd_before d)).
  { split; [exists (block :: c); by econstructor|]. exists c. by rewrite E0. }
  destruct (commit_any _ _ _ _ _ _ _ _ _ _ _ _ Hdb Ha Hc) as [(-> & -> & Hok)|([e ->] & Hdb')].
  - split_and!; [done| |apply Hl..]. do 2 eexists. split; [exact Hok|]. by eapply moves_push.
  - split_and!; [done| |apply Hl..]. destruct Hdb' as [->|(-> & _ & Hok)].
    + do 2 eexists. split; [done|constructor].
    + do 2 eexists. split; [exact Hok|]. by eapply moves_push.
Qed.

Lemma process_step_ok b chain (db db' : DB) s p p' src io :
  db_ok b chain db s -> process_ok b p -> process_step src io db p = (db', p') ->
  process_ok b p' /\ exists chain' s', db_ok b chain' db' s' /\ moves chain s chain' s'.
Proof.
  intros Hdb Hp H. pose proof (db_ok_held _ _ _ _ Hdb) as Hh.
  assert (Hstay : exists chain' s', db_ok b chain' db s' /\ moves chain s chain' s')
    by (do 2 eexists; split; [done|constructor]).
  unfold process_step in H. destruct (p_pc p) as [| |best tip|best|best|h rest|d rest|before e| |txs|r] eqn:Ep.
  all: try (unfold process_ok in Hp; rewrite Ep in Hp).
  1-3, 5, 9: simplify_eq; split; [apply process_ok_goto; [done|]|done]; fold (quiet);
    apply quiet_answered; intros a; repeat (case_match || case_decide); auto; done.
  - destruct (rollback_tip io db) as [db1 r] eqn:Er. apply (rollback_cases _ _ _ _ _ _ _ Hdb) in Er.
    destruct chain as [|block rest].
    + destruct Er as [-> ->]. destruct io; cbn in H; simplify_eq; (split; [by apply process_ok_goto|done]).
    + destruct Er as (s0 & d & Ha & -> & Hio).
      assert (Hm : exists chain' s', db_ok b chain' db1 s' /\ moves (block :: rest) s chain' s').
      { destruct Hio as [(_ & ->)|(_ & Hok & _)]; [done|]. do 2 eexists. split; [exact Hok|]. by eapply moves_pop. }
      destruct io; cbn in H; simplify_eq; (split; [|done]); [|by apply process_ok_goto..].
      apply process_ok_become; [|apply quiet_rolled_back]. exists rest.
      destruct Hio as [[[=] _]|(_ & Hok & _)]. by eapply db_ok_held.
  - destruct (src_block src h) as [block|e|]; [|simplify_eq; split; [by apply process_ok_goto|done]..].
    destruct (apply_block block (p_state p)) as [s1 [d|e|]] eqn:Ha; simplify_eq; (split; [|done]).
    + cbn. by exists block, (p_state p).
    + apply apply_block_error in Ha as [-> _]. by apply process_ok_become.
    + done.
  - destruct (store_apply_block io (p_state p) d (p_release p) db) as [db1 r] eqn:Ec.
    assert (Hp' : process_ok b p) by by unfold process_ok; rewrite Ep.
    destruct (commit_moves _ _ _ _ _ _ _ _ _ _ Hdb Ep Hp' Ec) as (Hr & Hm & Hf & Hb).
    destruct r; [| |done]; simplify_eq; (split; [|done]).
    + apply process_ok_goto; [done|apply quiet_next].
    + by cbn.
  - destruct (load_state io db) as [db1 r] eqn:El. destruct Hp as [Hf Hb].
    pose proof (load_state_db io db) as E1. pose proof (load_state_Some b io chain db s _ Hdb eq_refl) as E2.
    rewrite El in E1, E2. cbn in E1, E2. subst. destruct E2 as [->|[e' ->]]; simplify_eq; (split; [|done]).
    + apply process_ok_become; [by exists chain|done].
    + by apply process_ok_become.
  - destruct (replace_mempool io txs db) as [db1 r] eqn:Er.
    destruct (replace_mempool_db io txs db) as [pool Ei]. rewrite Er in Ei. cbn in Ei. subst.
    assert (Hm : exists chain' s', db_ok b chain' (set_mempool pool db) s' /\ moves chain s chain' s').
    { do 2 eexists. split; [by apply db_ok_mempool|constructor]. }
    destruct r; simplify_eq; (split; [by apply process_ok_goto|done]).
  - destruct r as [[]|e|]; simplify_eq; (split; [|done]); [by apply process_ok_goto..|].
    unfold process_ok. by rewrite Ep.
Qed.

(** ** The whole fleet *)

Lemma bind_empty io b (db' : DB) r :
  bind_or_load io b empty_db = (db', r) ->
  r = acked io (new_state b) /\ (io = IoFail /\ db' = empty_db \/ db_ok b [] db' (new_state b)).
Proof.
  destruct (bind_fresh (JV := JV) b) as (db1 & Hf & Hok). unfold bind_or_load, transact in *.
  destruct io; intros H; cbn in H, Hf; simplify_eq; auto.
Qed.

(** The processes follow the deployment the database is bound to; without a database there is no
    process. *)
Definition fleet_inv (f : Fleet) : Prop :=
  f_db f = empty_db /\ f_procs f = [] \/
  exists b chain s, db_ok b chain (f_db f) s /\ Forall (process_ok b) (f_procs f).

Lemma fleet_step_ok b chain s (f f' : Fleet) :
  db_ok b chain (f_db f) s -> Forall (process_ok b) (f_procs f) -> fleet_step f f' ->
  Forall (process_ok b) (f_procs f') /\ exists chain' s', db_ok b chain' (f_db f') s' /\ moves chain s chain' s'.
Proof.
  intros Hdb Hps Hs. pose proof (db_ok_held _ _ _ _ Hdb) as Hh.
  destruct Hs as [db procs io b' release db' s1 Hb|db procs io b' db' r Hb _|db procs i p src io db' p' Hi _ Hp
    |db procs i p txs pool r Hi Hp|db procs i];
    cbn in *.
  - rewrite (bind_exact _ _ _ _ _ _ Hdb) in Hb. case_decide; [|done]. destruct io; cbn in Hb; simplify_eq.
    split; [constructor; [by exists chain|done]|]. do 2 eexists. split; [exact Hdb|constructor].
  - rewrite (bind_exact _ _ _ _ _ _ Hdb) in Hb. simplify_eq. split; [done|].
    do 2 eexists. split; [exact Hdb|constructor].
  - destruct (process_step_ok _ _ _ _ _ _ _ _ _ Hdb (Forall_lookup_1 _ _ _ _ Hps Hi) Hp) as [Hp' Hm].
    split; [by apply Forall_insert|done].
  - pose proof (Forall_lookup_1 _ _ _ _ Hps Hi) as Hok. unfold process_ok in Hok. rewrite Hp in Hok.
    split; [apply Forall_insert; [done|by apply process_ok_goto]|].
    do 2 eexists. split; [by apply db_ok_mempool|constructor].
  - split; [by apply Forall_delete|]. do 2 eexists. split; [exact Hdb|constructor].
Qed.

Lemma fleet_start_ok (f f' : Fleet) :
  f_db f = empty_db -> f_procs f = [] -> fleet_step f f' ->
  f_db f' = empty_db /\ f_procs f' = [] \/
  exists b, db_ok b [] (f_db f') (new_state b) /\ Forall (process_ok b) (f_procs f').
Proof.
  intros Ed Ep Hs.
  destruct Hs as [db procs io b' release db' s1 Hb|db procs io b' db' r Hb Hr|db procs i p src io db' p' Hi _ Hp
    |db procs i p txs pool r Hi Hp|db procs i];
    cbn in *; subst.
  - apply bind_empty in Hb as [Er Hdb]. destruct io; cbn in Er; [|done..]. destruct Hdb as [[? _]|Hdb]; [done|].
    injection Er as ->. right. exists b'. split; [done|]. constructor; [|constructor]. exists []. constructor.
  - apply bind_empty in Hb as [_ [[_ ->]|Hdb]]; [auto|]. right. by exists b'.
  - done.
  - done.
  - by left.
Qed.

Lemma fleet_reaches_inv (f : Fleet) : fleet_reaches f -> fleet_inv f.
Proof.
  intros H. refine (rtc_ind_r fleet_inv no_fleet _ _ f H); [by left|]. clear f H. intros f1 f2 _ H23 IH.
  destruct IH as [[Ed Ep]|(b & chain & s & Hdb & Hps)].
  - destruct (fleet_start_ok _ _ Ed Ep H23) as [?|(b & Hdb & Hps)]; [by left|]. right. eauto.
  - destruct (fleet_step_ok _ _ _ _ _ Hdb Hps H23) as [Hps' (chain' & s' & Hdb' & _)]. right. eauto.
Qed.

Lemma db_ok_unique b1 b2 c1 c2 (db : DB) s1 s2 :
  db_ok b1 c1 db s1 -> db_ok b2 c2 db s2 -> b1 = b2 /\ s1 = s2.
Proof.
  intros [(bv & sv & E & Eb & Es) _ _ _] [(bv' & sv' & E' & Eb' & Es') _ _ _]. split; congruence.
Qed.

(** C9: whatever the workers of a fleet do, in any order, with any nodes, failures, crashes and
    restarts, the database is either still empty or holds the complete record of a chain of one
    deployment, and every live worker of the fleet works for that deployment, on a state one of
    its chains produces.  A worker configured for another deployment never starts. *)
Theorem fleet_safe (f : Fleet) :
  fleet_reaches f ->
  f_db f = empty_db /\ f_procs f = [] \/
  exists b chain s, db_ok b chain (f_db f) s /\
    Forall (fun p => p_pc p = Stopped Panic \/ binding (p_state p) = b /\ exists c, held b c (p_state p)) (f_procs f).
Proof.
  intros [?|(b & chain & s & Hdb & Hps)]%fleet_reaches_inv; [by left|]. right.
  exists b, chain, s. split; [done|]. eapply Forall_impl; [exact Hps|]. intros p Hp.
  assert (Hf : p_pc p = Stopped Panic \/ follows b (p_state p)).
  { unfold process_ok in Hp. destruct (p_pc p) as [| | | | | |d rest| | | |[]]; try tauto.
    destruct Hp as (block & s0 & [c Hf] & Ha). right. exists (block :: c). by econstructor. }
  destruct Hf as [?|[c Hc]]; [by left|]. right. split; [|by exists c]. by apply held_tip in Hc as (_ & _ & -> & _).
Qed.

(** C10: the shared chain changes by whole blocks only: a step of a fleet leaves the stored chain
    and state as they are, or puts on it one block reduced from exactly the stored state, or takes
    its newest block off and restores the state below it.  No interleaving loses an update or
    mixes two of them. *)
Theorem fleet_linear (f f' : Fleet) b chain s :
  fleet_reaches f -> db_ok b chain (f_db f) s -> fleet_step f f' ->
  exists chain' s', db_ok b chain' (f_db f') s' /\ moves chain s chain' s'.
Proof.
  intros [[Ed _]|(b0 & chain0 & s0 & Hdb0 & Hps)]%fleet_reaches_inv Hdb Hs.
  - destruct Hdb as [(bv & sv & E & _) _ _ _]. by rewrite Ed in E.
  - destruct (db_ok_unique _ _ _ _ _ _ _ Hdb Hdb0) as [<- _].
    by apply (fleet_step_ok _ _ _ _ _ Hdb Hps Hs).
Qed.

(** When two workers have each reduced a block from the stored state, whichever commits first
    wins: the other's commit is refused without a trace, and it reloads the winner's state, in
    step with the database again. *)
Lemma loser_resyncs b chain (db db1 : DB) s p1 p2 d1 rest1 d2 rest2 src1 src2 src3 io2 :
  db_ok b chain db s -> process_ok b p1 -> process_ok b p2 ->
  p_pc p1 = Commit d1 rest1 -> p_pc p2 = Commit d2 rest2 -> bd_before d1 = s -> bd_before d2 = s ->
  process_step src1 IoOk db p1 = (db1, goto (next_height rest1) p1) ->
  exists e, process_step src2 io2 db1 p2 = (db1, goto (Reload s e) p2) /\
    process_step src3 IoOk db1 (goto (Reload s e) p2) =
      (db1, become (p_state p1) (Stopped (Err (StoreFailed e))) p2).
Proof.
  intros Hdb Hp1 Hp2 E1 E2 B1 B2 H1. pose proof Hp1 as Hok1. unfold process_ok in Hp1. rewrite E1 in Hp1.
  destruct Hp1 as (block & s1 & _ & Ha). pose proof (apply_block_delta _ _ _ _ Ha) as [Eb1 Ed1].
  unfold process_step in H1. rewrite E1 in H1.
  destruct (store_apply_block IoOk (p_state p1) d1 (p_release p1) db) as [db2 r] eqn:Ec.
  assert (s1 = s) as -> by congruence.
  destruct (commit_cases _ _ _ _ _ _ _ _ _ _ _ Hdb Ha Ec) as [(-> & _ & Hok)|[[e ->] _]]; [|by destruct rest1].
  injection H1 as ->.
  assert (Hne : bd_before d2 <> p_state p1).
  { rewrite B2. intros E. destruct (apply_block_delta _ _ _ _ Ha) as (_ & _ & _ & Et & _ & _ & _ & Hl & _).
    rewrite <- E in Et. destruct (Hl _ Et). lia. }
  destruct (stale_refused _ _ _ _ (p_state p2) d2 (p_release p2) io2 Hok Hne) as [e He]. exists e. split.
  - unfold process_step. by rewrite E2, He, B2.
  - unfold process_step. cbn. pose proof (load_state_db IoOk db1) as L1.
    pose proof (load_state_stored b _ _ _ Hok) as L2. destruct (load_state IoOk db1) as [db3 r3]. cbn in *. by subst.
Qed.

(** Rollbacks are not guarded like that: [rollback_tip] takes the block off that is on top by now.
    Of two workers that both decided to undo one orphaned block, the second takes off whatever
    the first has put, or found, below it, even a block of the node's chain; the worker goes on
    from the state it restored, so a later pass brings the block back. *)
Lemma stale_rollback_pops b block rest (db : DB) s p best src :
  db_ok b (block :: rest) db s -> p_pc p = RollBack best ->
  exists db' s0, process_step src IoOk db p = (db', become s0 (rolled_back best s0) p) /\ db_ok b rest db' s0.
Proof.
  intros Hdb Hp. unfold process_step. rewrite Hp. destruct (rollback_tip IoOk db) as [db' r] eqn:Hr.
  destruct (rollback_cases _ _ _ _ _ _ _ Hdb Hr) as (s0 & d & _ & -> & [[? _]|(_ & Hok & _)]); [done|].
  by exists db', s0.
Qed.
End FleetInv.
