(* ===== verification/PassSteps.v ===== *)
(** * One worker of a fleet, alone

    The program counters of [Fleet] are the calls of [Ingest.run_once]: run alone, with the node
    and the transactions of an environment, the machine makes the calls of a pass one by one and
    ends where [run_once] ends, in as many steps as the pass has calls. *)

From S2P Require Import Prelude Types Marker Roots Reducer Chain Store StoreInv Commit Queries Ingest IngestInv Fleet.

Section PassSteps.
Context {JV : Type} {P : Primitives}.
Context `{!Json JV Binding, !Json JV ChainState, !Json JV BlockDelta, !Json JV Event,
          !Json JV ObjectState, !Json JV TxView}.
Context (env : Env) (release : ReleaseIdentity).

#[local] Abbreviation W := (Worker (JV := JV)).
#[local] Abbreviation DB := (Db JV).

#[local] Arguments store_apply_block : simpl never.
#[local] Arguments rollback_tip : simpl never.
#[local] Arguments load_state : simpl never.
#[local] Arguments replace_mempool : simpl never.

(** The clock, the database and the process. *)
Definition Config : Type := nat * DB * Process.

Definition alone_step (c : Config) : Config :=
  let '(t, db, p) := c in
  let '(db', p') := process_step (source_at env t) (io_at env t) db p in (S t, db', p').

(** A worker about to make the call [pc]. *)
Definition at_call (w : W) (pc : Pc) : Config :=
  (w_clock w, w_db w, mkProcess (w_state w) release pc).

(** The machine gets from one configuration to another in as many steps as the clock advances. *)
Definition steps_to (c c' : Config) : Prop :=
  (c.1.1 <= c'.1.1)%nat /\ Nat.iter (c'.1.1 - c.1.1) alone_step c = c'.

Lemma steps_refl c : steps_to c c.
Proof. split; [lia|]. by rewrite Nat.sub_diag. Qed.

Lemma steps_trans c1 c2 c3 : steps_to c1 c2 -> steps_to c2 c3 -> steps_to c1 c3.
Proof.
  intros [L1 E1] [L2 E2]. split; [lia|].
  replace (c3.1.1 - c1.1.1)%nat with ((c3.1.1 - c2.1.1) + (c2.1.1 - c1.1.1))%nat by lia.
  by rewrite Nat.iter_add, E1.
Qed.

Lemma steps_one (w w' : W) pc pc' :
  alone_step (at_call w pc) = at_call w' pc' -> steps_to (at_call w pc) (at_call w' pc').
Proof.
  intros E. assert (Ew : w_clock w' = S (w_clock w)).
  { apply (f_equal (fun c => c.1.1)) in E. unfold alone_step, at_call in E. cbn in E.
    destruct (process_step _ _ _ _) in E. done. }
  split; cbn [fst at_call]; [lia|]. replace (w_clock w' - w_clock w)%nat with 1%nat by lia. done.
Qed.

(** Where a computation that is followed by [k] ends. *)
Definition ends {A} (r : res IngestError A) (k : A -> Pc) : Pc :=
  match r with Ok a => k a | Err e => Stopped (Err e) | Panic => Stopped Panic end.

(** [m] is the calls from [pc] on, up to where [k] takes over with the result and the worker. *)
Definition computes {A} (m : st W IngestError A) (w : W) (pc : Pc) (k : A -> W -> Pc) : Prop :=
  forall w' r, m w = (w', r) -> r <> Err FuelExhausted ->
  steps_to (at_call w pc) (at_call w' (ends r (fun a => k a w'))).

Lemma computes_bind {A B} (m : st W IngestError A) (f : A -> st W IngestError B) w pc k1 k :
  computes m w pc k1 -> (forall a w1, computes (f a) w1 (k1 a w1) k) -> computes (st_bind m f) w pc k.
Proof.
  intros Hm Hf w' r H Hr. unfold st_bind in H. destruct (m w) as [w1 [a|e|]] eqn:E.
  - eapply steps_trans; [by apply (Hm _ _ E)|]. by apply (Hf a w1).
  - simplify_eq. apply (Hm _ _ E). congruence.
  - simplify_eq. by apply (Hm _ _ E).
Qed.

Lemma computes_ret {A} (a : A) w k : computes (st_ret a) w (k a w) k.
Proof. intros w' r [= <- <-] _. apply steps_refl. Qed.

Lemma computes_get {A} (f : W -> st W IngestError A) w pc k :
  computes (f w) w pc k -> computes (st_bind st_get f) w pc k.
Proof. done. Qed.

Lemma computes_lift {A} (r0 : res IngestError A) w k : computes (st_lift r0) w (ends r0 (fun a => k a w)) k.
Proof. intros w' r [= <- <-] _. apply steps_refl. Qed.

(** A call to the node, made by a step that goes on with the answer. *)
Lemma computes_ask {A} (f : BlockSource -> res CallError A) w pc (k : A -> W -> Pc) :
  (forall src io db, process_step src io db (mkProcess (w_state w) release pc) =
     (db, mkProcess (w_state w) release (answered (f src) (fun a => k a (tick w))))) ->
  computes (ask env f) w pc k.
Proof.
  intros Hstep w' r H _. unfold ask in H. injection H as <- <-. apply steps_one.
  unfold alone_step, at_call. rewrite Hstep. cbn. by destruct (f _).
Qed.

Lemma computes_refresh w : computes (refresh_mempool env) w AskMempool (fun _ _ => Stopped (Ok tt)).
Proof.
  unfold refresh_mempool. apply (computes_bind _ _ _ _ (fun txs _ => ReplaceMempool txs)); [apply computes_ask; reflexivity|].
  intros txs w1 w' r H _. apply steps_one. unfold store_call, st_bind, call_store in H.
  unfold alone_step, at_call, process_step. cbn [p_pc p_state p_release].
  destruct (replace_mempool _ txs _) as [db [[]|e|]]; cbn in H; by injection H as <- <-.
Qed.

Lemma computes_ingest h rest w : computes (ingest_height env release h) w (AskBlock h rest) (fun _ _ => next_height rest).
Proof.
  intros w' r H _. unfold ingest_height, st_bind at 1, ask in H.
  destruct (src_block (source_at env (w_clock w)) h) as [block|e|] eqn:Eb; cbn [map_err] in H.
  2,3: injection H as <- <-; apply steps_one; unfold alone_step, at_call, process_step; cbn; by rewrite Eb.
  rewrite get_bind in H. cbn [w_state tick] in H.
  assert (Hone : alone_step (at_call w (AskBlock h rest)) =
    match apply_block block (w_state w) with
    | (s', Ok d) => at_call (mkWorker (w_db w) s' (S (w_clock w))) (Commit d rest)
    | (s', Err e) => at_call (mkWorker (w_db w) s' (S (w_clock w))) (Stopped (Err (ReductionFailed e)))
    | (s', Panic) => at_call (mkWorker (w_db w) s' (S (w_clock w))) (Stopped Panic)
    end).
  { unfold alone_step, at_call, process_step. cbn [p_pc p_state]. rewrite Eb.
    by destruct (apply_block block (w_state w)) as [s1 [d|e|]]. }
  destruct (apply_block block (w_state w)) as [s1 [d|e|]].
  2,3: rewrite modify_bind in H; injection H as <- <-; by apply steps_one.
  eapply steps_trans; [by apply steps_one|]. rewrite modify_bind in H.
  unfold st_bind at 1, call_store in H. cbn in H.
  assert (Hcommit : alone_step (at_call (mkWorker (w_db w) s1 (S (w_clock w))) (Commit d rest)) =
    match store_apply_block (io_at env (S (w_clock w))) s1 d release (w_db w) with
    | (db', Ok _) => at_call (mkWorker db' s1 (S (S (w_clock w)))) (next_height rest)
    | (db', Err e) => at_call (mkWorker db' s1 (S (S (w_clock w)))) (Reload (bd_before d) e)
    | (db', Panic) => at_call (mkWorker db' s1 (S (S (w_clock w)))) (Stopped Panic)
    end).
  { unfold alone_step, at_call, process_step. cbn. by destruct (store_apply_block _ _ _ _ _) as [db' [u|e|]]. }
  destruct (store_apply_block _ _ _ _ _) as [db' [[]|e|]]; cbn in H.
  - injection H as <- <-. by apply steps_one.
  - eapply steps_trans; [by apply steps_one|]. unfold st_bind at 1, call_store in H. cbn in H.
    apply steps_one. unfold alone_step, at_call, process_step. cbn.
    destruct (load_state _ _) as [db2 [s2|e2|]]; cbn in H; by injection H as <- <-.
  - injection H as <- <-. by apply steps_one.
Qed.

Lemma computes_catch_up heights w :
  computes (catch_up env release heights) w (next_height heights) (fun _ _ => AskMempool).
Proof.
  revert w. induction heights as [|h rest IH]; intros w; cbn [catch_up next_height]; [apply (computes_ret tt w)|].
  eapply computes_bind; [apply computes_ingest|]. intros u w1. apply IH.
Qed.

(** The loop of [reconcile_reorg]. *)
Lemma computes_disconnect best w (f : ChainState -> st W IngestError unit) k own :
  tip_hash (w_state w) = Some own ->
  (forall s w1, w_state w1 = s -> computes (f s) w1 (rolled_back best s) k) ->
  computes (do restored <- store_call env rollback_tip;
            do s <- st_lift (ok_or NoRollbackJournal restored);
            run st_modify (set_state s); f s) w (disconnecting best (w_state w)) k.
Proof.
  intros Eo Hf w' r H Hr. unfold disconnecting. rewrite Eo.
  assert (Hone : alone_step (at_call w (RollBack best)) =
    match rollback_tip (io_at env (w_clock w)) (w_db w) with
    | (db', Ok (Some s')) => at_call (mkWorker db' s' (S (w_clock w))) (rolled_back best s')
    | (db', Ok None) => at_call (mkWorker db' (w_state w) (S (w_clock w))) (Stopped (Err NoRollbackJournal))
    | (db', Err e) => at_call (mkWorker db' (w_state w) (S (w_clock w))) (Stopped (Err (StoreFailed e)))
    | (db', Panic) => at_call (mkWorker db' (w_state w) (S (w_clock w))) (Stopped Panic)
    end).
  { unfold alone_step, at_call, process_step. cbn. by destruct (rollback_tip _ _) as [db1 [[s1|]|e|]]. }
  unfold store_call, st_bind at 1 2, call_store in H.
  destruct (rollback_tip _ _) as [db1 [[s1|]|e|]]; cbn in H;
    [|injection H as <- <-; by apply steps_one..].
  eapply steps_trans; [by apply steps_one|]. by eapply (Hf s1 (mkWorker db1 s1 (S (w_clock w)))).
Qed.

Lemma computes_reconcile fuel best w :
  computes (reconcile_reorg env fuel best) w (reconciling best (w_state w))
    (fun _ w1 => reconciled best (w_state w1)).
Proof.
  revert w. induction fuel as [|fuel IH]; intros w; [by intros w' r [= <- <-]|].
  cbn [reconcile_reorg]. apply computes_get. unfold reconciling.
  destruct (tip_height (w_state w)) as [tip|]; [|apply (computes_ret tt w)].
  set (loop := run st_lift (expect (tip_hash (w_state w)));
     do restored <- store_call env rollback_tip;
     do s <- st_lift (ok_or NoRollbackJournal restored);
     run st_modify (set_state s);
     match protocol_status s with AwaitingInit => st_ret tt | _ => reconcile_reorg env fuel best end).
  assert (Hloop : forall w1, w_state w1 = w_state w ->
    computes loop w1 (disconnecting best (w_state w1)) (fun _ w2 => reconciled best (w_state w2))).
  { intros w1 Ew. subst loop. rewrite <- Ew. destruct (tip_hash (w_state w1)) as [own|] eqn:Eo.
    - eapply computes_disconnect; [done|]. intros s w2 <-. unfold rolled_back.
      destruct (protocol_status (w_state w2)); [apply (computes_ret tt w2)|apply IH..].
    - unfold disconnecting. rewrite Eo. intros w' r [= <- <-] _. apply steps_refl. }
  unfold tip_matches. case_decide; [by apply Hloop|]. intros w' r H' Hr.
  assert (Hone : alone_step (at_call w (AskTipHash best tip)) =
    at_call (tick w) (answered (src_block_hash (source_at env (w_clock w)) tip) (fun h =>
      match tip_hash (w_state w) with
      | None => Stopped Panic
      | Some own => if decide (h = own) then reconciled best (w_state w) else disconnecting best (w_state w)
      end))) by done.
  unfold st_bind at 1 2, ask in H'. destruct (src_block_hash _ tip) as [h|e|]; cbn [map_err answered] in *.
  2,3: injection H' as <- <-; by apply steps_one.
  unfold st_bind at 1, st_lift at 1 in H'.
  destruct (tip_hash (w_state w)) as [own|] eqn:Eo; cbn [expect] in *.
  2:{ injection H' as <- <-. by apply steps_one. }
  unfold st_ret at 1 in H'. case_decide as Ed.
  - rewrite bool_decide_eq_true_2 in H' by done. injection H' as <- <-. by apply steps_one.
  - rewrite bool_decide_eq_false_2 in H' by done. eapply steps_trans; [by apply steps_one|].
    by apply (Hloop (tick w)).
Qed.

Lemma computes_first best w :
  computes (first_height env) w (reconciled best (w_state w))
    (fun first _ => match first with
                    | Some first => next_height (height_range first best)
                    | None => AskMempool
                    end).
Proof.
  unfold first_height. apply computes_get. unfold reconciled. destruct (tip_height (w_state w)) as [tip|].
  - eapply computes_bind.
    + intros w' r [= <- <-] _. unfold ok_or. instantiate (1 := fun first _ => next_height (height_range first best)).
      destruct (checked_add u64_max tip 1); apply steps_refl.
    + intros first w1. apply (computes_ret (Some first) w1).
  - by apply computes_ask.
Qed.

Lemma computes_follow best w :
  computes (follow env release best) w (reconciling best (w_state w)) (fun _ _ => Stopped (Ok tt)).
Proof.
  unfold follow. eapply computes_bind; [apply computes_get, computes_reconcile|]. intros u w1.
  eapply computes_bind; [apply computes_first|]. intros [first|] w2; [|apply computes_refresh].
  eapply computes_bind; [apply computes_catch_up|]. intros ? w3. apply computes_refresh.
Qed.

Lemma computes_run_once w : computes (run_once env release) w AskStatus (fun _ _ => Stopped (Ok tt)).
Proof.
  unfold run_once. apply computes_get.
  eapply (computes_bind _ _ _ _ (fun status w1 =>
    if ready_for status (network (binding (w_state w))) then AskBest else Stopped (Err NotReady)));
    [by apply computes_ask|].
  intros status w1. eapply (computes_bind _ _ _ _ (fun _ _ => AskBest)).
  { intros w' r [= <- <-] _. destruct (ready_for _ _); apply steps_refl. }
  intros u w2. eapply (computes_bind _ _ _ _ (fun best w3 => reconciling best (w_state w3)));
    [by apply computes_ask|].
  intros best w3. apply computes_follow.
Qed.

(** A worker that has the database to itself makes, call by call, the pass of [run_once]: the
    machine stops with its result, its database and its memory after as many steps as the pass
    made calls, and the fuel of the model's loop never shows. *)
Lemma alone_is_run_once b chain s c w w' r :
  db_ok b chain (w_db w) s -> held b c (w_state w) -> run_once env release w = (w', r) ->
  Nat.iter (w_clock w' - w_clock w) alone_step (at_call w AskStatus) = at_call w' (Stopped r).
Proof.
  intros Hdb Hc H. destruct (computes_run_once w w' r H) as [_ E].
  { pose proof (run_once_fuel env release b False (fun f => False_ind _ f) w) as Hf. rewrite H in Hf. apply Hf.
    exists chain, s. split_and!; [done|by exists c|done]. }
  cbn [fst at_call] in E. rewrite E. by destruct r as [[]| |].
Qed.
End PassSteps.
