(* ===== verification/Serde.v ===== *)
(** * The JSON form of the data (the serde impls of crates/tandem-core/src/types.rs, marker.rs)

    The store keeps the binding, the chain state, the journal's deltas, events, objects and pool
    transactions as JSON in [jsonb] columns, and the tool reads chains from JSON files.  This file
    writes out the hand-written impls (hexadecimal digests, keys and byte strings, the
    carrier index as an array of pairs) and what the derive attributes say of every struct and
    enum: an object with one field per Rust field, an enum as its renamed variant, the protocol
    status tagged by [state].  Numbers are read at their width.

    Only the forms that serde writes are read here: of the other inputs a derived reader takes
    (a struct as an array, a unit variant as an object) nothing is said. *)

From Stdlib Require Import String.
From stdpp Require Import strings.
From S2P Require Import Prelude Types Marker Reducer.

Inductive JsonValue :=
| VNull
| VBool (b : bool)
| VNumber (z : Z)
| VString (s : string)
| VArray (l : list JsonValue)
| VObject (fields : list (string * JsonValue)).

(** The value of a field; a JSON object read into memory has no duplicate keys. *)
Fixpoint assoc {V} (k : string) (fields : list (string * V)) : option V :=
  match fields with
  | [] => None
  | (k', v) :: rest => if String.eqb k k' then Some v else assoc k rest
  end.

(** [Serialize] and [Deserialize] of a type. *)
Record Serde (A : Type) := mkSerde {
  encode : A -> JsonValue;
  decode : JsonValue -> option A;
}.
#[global] Arguments mkSerde {A}.
#[global] Arguments encode {A}.
#[global] Arguments decode {A}.

(** ** Scalars *)

Definition serde_bool : Serde bool := mkSerde VBool
  (fun v => match v with VBool b => Some b | _ => None end).

(** An integer type reads a number in its range. *)
Definition serde_int (low high : Z) : Serde Z := mkSerde VNumber
  (fun v => match v with
            | VNumber z => if decide (low <= z <= high) then Some z else None
            | _ => None
            end).
Definition serde_u32 : Serde Z := serde_int 0 u32_max.
Definition serde_u64 : Serde Z := serde_int 0 u64_max.
Definition serde_i32 : Serde Z := serde_int (-2147483648) 2147483647.

(** A unit enum is the name of its variant. *)
Definition serde_enum {A} (name : A -> string) (variants : list A) : Serde A := mkSerde
  (fun a => VString (name a))
  (fun v => match v with
            | VString s => head (filter (fun a => name a = s) variants)
            | _ => None
            end).

(** ** Composites *)

Definition serde_option {A} (c : Serde A) : Serde (option A) := mkSerde
  (fun o => match o with Some a => encode c a | None => VNull end)
  (fun v => match v with VNull => Some None | _ => Some <$> decode c v end).

Definition serde_list {A} (c : Serde A) : Serde (list A) := mkSerde
  (fun l => VArray (encode c <$> l))
  (fun v => match v with VArray l => mapM (decode c) l | _ => None end).

Definition serde_pair {A B} (c : Serde A) (d : Serde B) : Serde (A * B) := mkSerde
  (fun p => VArray [encode c p.1; encode d p.2])
  (fun v => match v with
            | VArray [x; y] => a ← decode c x; b ← decode d y; Some (a, b)
            | _ => None
            end).

(** A field of a struct, and one of an optional type, which may be absent. *)
Definition field {A} (c : Serde A) (name : string) (fields : list (string * JsonValue)) : option A :=
  v ← assoc name fields; decode c v.
Definition opt_field {A} (c : Serde A) (name : string) (fields : list (string * JsonValue)) : option (option A) :=
  match assoc name fields with
  | Some v => decode (serde_option c) v
  | None => Some None
  end.

(** The reader of a struct from its fields. *)
Definition from_fields {A} (f : list (string * JsonValue) -> option A) (v : JsonValue) : option A :=
  match v with VObject fields => f fields | _ => None end.

Section Serde.
Context {X : HexCodec}.

(** ** Hexadecimal text: [Hash32], [Key33], [hex_bytes] and [hex_vec] *)

Definition serde_hash : Serde Hash32 := mkSerde
  (fun h => VString (to_hex h))
  (fun v => match v with VString s => from_hex s | _ => None end).

Definition serde_key : Serde Key33 := mkSerde
  (fun k => VString (key_to_hex k))
  (fun v => match v with VString s => key_from_hex s | _ => None end).

Definition hex_bytes : Serde (list byte) := mkSerde
  (fun l => VString (hex_encode l))
  (fun v => match v with VString s => hex_decode s | _ => None end).

Definition hex_vec : Serde (list (list byte)) := serde_list hex_bytes.

(** ** Maps *)

(** [BTreeMap<Hash32, A>]: the keys are the fields of an object, as text. *)
Definition serde_map {A} (c : Serde A) : Serde (gmap Hash32 A) := mkSerde
  (fun m => VObject ((fun kv => (to_hex kv.1, encode c kv.2)) <$> bt_entries m))
  (from_fields (fun fields =>
    entries ← mapM (fun kv => k ← from_hex kv.1; a ← decode c kv.2; Some (k, a)) fields;
    Some (foldl (fun m kv => <[kv.1 := kv.2]> m) ∅ entries))).

(** ** Structs and enums of types.rs *)

Definition serde_outpoint : Serde OutPointRef := mkSerde
  (fun o => VObject [("txid", encode serde_hash (op_txid o)); ("vout", encode serde_u32 (op_vout o))])
  (from_fields (fun fs => txid ← field serde_hash "txid" fs; vout ← field serde_u32 "vout" fs;
                          Some (OutPoint txid vout))).

(** [outpoint_map]: an array of pairs, in key order; duplicates are refused. *)
Definition serde_outpoint_map : Serde (gmap OutPointRef Hash32) := mkSerde
  (fun m => encode (serde_list (serde_pair serde_outpoint serde_hash)) (outpoint_map_serialize m))
  (fun v => pairs ← decode (serde_list (serde_pair serde_outpoint serde_hash)) v;
            outpoint_map_deserialize pairs).

Definition serde_keypair : Serde KeyPair := mkSerde
  (fun p => VObject [("key0", encode serde_key (key0 p)); ("key1", encode serde_key (key1 p))])
  (from_fields (fun fs => k0 ← field serde_key "key0" fs; k1 ← field serde_key "key1" fs;
                          Some (mkKeyPair k0 k1))).

Definition serde_network : Serde Network :=
  serde_enum network_label [Mainnet; Signet; Testnet4; Regtest].

Definition serde_binding : Serde Binding := mkSerde
  (fun b => VObject [("network", encode serde_network (network b));
                     ("init_txid", encode serde_hash (init_txid b));
                     ("spec_hash", encode serde_hash (spec_hash b))])
  (from_fields (fun fs =>
     n ← field serde_network "network" fs; i ← field serde_hash "init_txid" fs;
     s ← field serde_hash "spec_hash" fs; Some (mkBinding n i s))).

Definition reason_name (r : Reason) : string :=
  match r with
  | Valid => "VALID"
  | MultipleMarkers => "MULTIPLE_MARKERS"
  | BadMarkerEncodingOrLength => "BAD_MARKER_ENCODING_OR_LENGTH"
  | UnknownVersion => "UNKNOWN_VERSION"
  | WrongNetwork => "WRONG_NETWORK"
  | UnknownOpcode => "UNKNOWN_OPCODE"
  | WrongNamespace => "WRONG_NAMESPACE"
  | UnsupportedOrReservedField => "UNSUPPORTED_OR_RESERVED_FIELD"
  | BadTxVersionOrLocktime => "BAD_TX_VERSION_OR_LOCKTIME"
  | BadInputCountOrOrder => "BAD_INPUT_COUNT_OR_ORDER"
  | BadOutputCountOrOrder => "BAD_OUTPUT_COUNT_OR_ORDER"
  | UnconfirmedOrSameBlockPrevout => "UNCONFIRMED_OR_SAME_BLOCK_PREVOUT"
  | BadInputScript => "BAD_INPUT_SCRIPT"
  | BadKeyOrderOrBinding => "BAD_KEY_ORDER_OR_BINDING"
  | BadSignatureOrSighash => "BAD_SIGNATURE_OR_SIGHASH"
  | BadOutputScriptOrValue => "BAD_OUTPUT_SCRIPT_OR_VALUE"
  | NonpositiveOrInvalidFee => "NONPOSITIVE_OR_INVALID_FEE"
  | BadFeeSplitOrChange => "BAD_FEE_SPLIT_OR_CHANGE"
  | PredecessorNotActive => "PREDECESSOR_NOT_ACTIVE"
  | BadStateSequence => "BAD_STATE_SEQUENCE"
  | BadSuccessor => "BAD_SUCCESSOR"
  | BadCommitment => "BAD_COMMITMENT"
  | BadHeightOrPhase => "BAD_HEIGHT_OR_PHASE"
  | BadRefundShapeOrMaturity => "BAD_REFUND_SHAPE_OR_MATURITY"
  | MultipleCarriers => "MULTIPLE_CARRIERS"
  | UnmarkedCarrierSpend => "UNMARKED_CARRIER_SPEND"
  end.

Definition serde_reason : Serde Reason := serde_enum reason_name
  [Valid; MultipleMarkers; BadMarkerEncodingOrLength; UnknownVersion; WrongNetwork; UnknownOpcode;
   WrongNamespace; UnsupportedOrReservedField; BadTxVersionOrLocktime; BadInputCountOrOrder;
   BadOutputCountOrOrder; UnconfirmedOrSameBlockPrevout; BadInputScript; BadKeyOrderOrBinding;
   BadSignatureOrSighash; BadOutputScriptOrValue; NonpositiveOrInvalidFee; BadFeeSplitOrChange;
   PredecessorNotActive; BadStateSequence; BadSuccessor; BadCommitment; BadHeightOrPhase;
   BadRefundShapeOrMaturity; MultipleCarriers; UnmarkedCarrierSpend].

Definition event_type_name (t : EventType) : string :=
  match t with
  | EvInit => "INIT" | EvCreate => "CREATE" | EvMark => "MARK" | EvRotate => "ROTATE"
  | EvClose => "CLOSE" | EvRefund => "REFUND" | EvExitedNoncanonical => "EXITED_NONCANONICAL"
  | EvInvalid => "INVALID"
  end.
Definition serde_event_type : Serde EventType := serde_enum event_type_name
  [EvInit; EvCreate; EvMark; EvRotate; EvClose; EvRefund; EvExitedNoncanonical; EvInvalid].

Definition validity_name (v : ValidityClass) : string :=
  match v with
  | InvalidNoState => "INVALID_NO_STATE" | ValidOperation => "VALID_OPERATION"
  | TerminalNoncanonical => "TERMINAL_NONCANONICAL"
  end.
Definition serde_validity : Serde ValidityClass :=
  serde_enum validity_name [InvalidNoState; ValidOperation; TerminalNoncanonical].

Definition status_name (s : ObjectStatus) : string :=
  match s with
  | Active => "ACTIVE" | Closed => "CLOSED" | Refunded => "REFUNDED"
  | ExitedNoncanonical => "EXITED_NONCANONICAL"
  end.
Definition serde_status : Serde ObjectStatus :=
  serde_enum status_name [Active; Closed; Refunded; ExitedNoncanonical].

Definition serde_input : Serde InputView := mkSerde
  (fun i => VObject [("prevout", encode serde_outpoint (prevout i));
                     ("sequence", encode serde_u32 (sequence i));
                     ("script_sig", encode hex_bytes (script_sig i));
                     ("witness", encode hex_vec (witness i));
                     ("prevout_value", encode serde_u64 (prevout_value i));
                     ("prevout_script", encode hex_bytes (prevout_script i));
                     ("prevout_height", encode (serde_option serde_u64) (prevout_height i));
                     ("signatures_valid", encode serde_bool (signatures_valid i))])
  (from_fields (fun fs =>
     p ← field serde_outpoint "prevout" fs; s ← field serde_u32 "sequence" fs;
     sg ← field hex_bytes "script_sig" fs; w ← field hex_vec "witness" fs;
     v ← field serde_u64 "prevout_value" fs; ps ← field hex_bytes "prevout_script" fs;
     h ← opt_field serde_u64 "prevout_height" fs; ok ← field serde_bool "signatures_valid" fs;
     Some (mkInput p s sg w v ps h ok))).

Definition serde_output : Serde OutputView := mkSerde
  (fun o => VObject [("value", encode serde_u64 (value o));
                     ("script_pubkey", encode hex_bytes (script_pubkey o))])
  (from_fields (fun fs => v ← field serde_u64 "value" fs; s ← field hex_bytes "script_pubkey" fs;
                          Some (mkOutput v s))).

Definition serde_tx : Serde TxView := mkSerde
  (fun t => VObject [("txid", encode serde_hash (tx_txid t)); ("wtxid", encode serde_hash (tx_wtxid t));
                     ("version", encode serde_i32 (tx_version t));
                     ("lock_time", encode serde_u32 (lock_time t));
                     ("inputs", encode (serde_list serde_input) (inputs t));
                     ("outputs", encode (serde_list serde_output) (outputs t))])
  (from_fields (fun fs =>
     i ← field serde_hash "txid" fs; w ← field serde_hash "wtxid" fs;
     v ← field serde_i32 "version" fs; l ← field serde_u32 "lock_time" fs;
     ins ← field (serde_list serde_input) "inputs" fs;
     outs ← field (serde_list serde_output) "outputs" fs; Some (mkTx i w v l ins outs))).

Definition serde_block : Serde BlockView := mkSerde
  (fun b => VObject [("hash", encode serde_hash (blk_hash b));
                     ("previous_hash", encode serde_hash (previous_hash b));
                     ("height", encode serde_u64 (blk_height b));
                     ("transactions", encode (serde_list serde_tx) (transactions b))])
  (from_fields (fun fs =>
     h ← field serde_hash "hash" fs; p ← field serde_hash "previous_hash" fs;
     n ← field serde_u64 "height" fs; txs ← field (serde_list serde_tx) "transactions" fs;
     Some (mkBlock h p n txs))).

Definition serde_event : Serde Event := mkSerde
  (fun e => VObject [("namespace", encode serde_hash (ev_namespace e));
                     ("block_hash", encode serde_hash (ev_block_hash e));
                     ("height", encode serde_u64 (ev_height e));
                     ("tx_index", encode serde_u32 (tx_index e));
                     ("event_index", encode serde_u32 (event_index e));
                     ("sub_index", encode serde_u32 (sub_index e));
                     ("event_type", encode serde_event_type (event_type e));
                     ("validity_class", encode serde_validity (validity_class e));
                     ("reason", encode serde_reason (ev_reason e));
                     ("txid", encode serde_hash (ev_txid e));
                     ("wtxid", encode serde_hash (ev_wtxid e));
                     ("object_key", encode serde_hash (ev_object_key e));
                     ("state_seq", encode serde_u32 (ev_state_seq e));
                     ("predecessor", encode serde_outpoint (predecessor e));
                     ("successor", encode serde_outpoint (successor e));
                     ("key0", encode serde_key (ev_key0 e));
                     ("key1", encode serde_key (ev_key1 e));
                     ("commitment", encode serde_hash (commitment e))])
  (from_fields (fun fs =>
     ns ← field serde_hash "namespace" fs; bh ← field serde_hash "block_hash" fs;
     h ← field serde_u64 "height" fs; ti ← field serde_u32 "tx_index" fs;
     ei ← field serde_u32 "event_index" fs; si ← field serde_u32 "sub_index" fs;
     et ← field serde_event_type "event_type" fs; vc ← field serde_validity "validity_class" fs;
     r ← field serde_reason "reason" fs; t ← field serde_hash "txid" fs;
     w ← field serde_hash "wtxid" fs; ok ← field serde_hash "object_key" fs;
     sq ← field serde_u32 "state_seq" fs; pr ← field serde_outpoint "predecessor" fs;
     su ← field serde_outpoint "successor" fs; k0 ← field serde_key "key0" fs;
     k1 ← field serde_key "key1" fs; cm ← field serde_hash "commitment" fs;
     Some (mkEvent ns bh h ti ei si et vc r t w ok sq pr su k0 k1 cm))).

Definition serde_object : Serde ObjectState := mkSerde
  (fun o => VObject [("object_key", encode serde_hash (object_key o));
                     ("genesis", encode serde_outpoint (genesis o));
                     ("founding", encode serde_bool (founding o));
                     ("status", encode serde_status (status o));
                     ("create_height", encode serde_u64 (create_height o));
                     ("state_seq", encode serde_u32 (state_seq o));
                     ("current_outpoint", encode serde_outpoint (current_outpoint o));
                     ("keys", encode serde_keypair (keys o));
                     ("terminal_txid", encode serde_hash (terminal_txid o));
                     ("chapter_count", encode serde_u32 (chapter_count o))])
  (from_fields (fun fs =>
     k ← field serde_hash "object_key" fs; g ← field serde_outpoint "genesis" fs;
     f ← field serde_bool "founding" fs; st ← field serde_status "status" fs;
     h ← field serde_u64 "create_height" fs; sq ← field serde_u32 "state_seq" fs;
     c ← field serde_outpoint "current_outpoint" fs; ks ← field serde_keypair "keys" fs;
     t ← field serde_hash "terminal_txid" fs; n ← field serde_u32 "chapter_count" fs;
     Some (mkObject k g f st h sq c ks t n))).

(** [ProtocolStatus], internally tagged by [state]. *)
Definition serde_protocol_status : Serde ProtocolStatus := mkSerde
  (fun s => match s with
            | AwaitingInit => VObject [("state", VString "AWAITING_INIT")]
            | PActive ih ho hc =>
                VObject [("state", VString "ACTIVE"); ("init_height", encode serde_u64 ih);
                         ("h_open", encode serde_u32 ho); ("h_close", encode serde_u32 hc)]
            | FailedInit r ih =>
                VObject [("state", VString "FAILED_INIT"); ("reason", encode serde_reason r);
                         ("init_height", encode serde_u64 ih)]
            end)
  (from_fields (fun fs =>
     match assoc "state" fs with
     | Some (VString tag) =>
         if decide (tag = "AWAITING_INIT") then Some AwaitingInit
         else if decide (tag = "ACTIVE") then
           ih ← field serde_u64 "init_height" fs; ho ← field serde_u32 "h_open" fs;
           hc ← field serde_u32 "h_close" fs; Some (PActive ih ho hc)
         else if decide (tag = "FAILED_INIT") then
           r ← field serde_reason "reason" fs; ih ← field serde_u64 "init_height" fs;
           Some (FailedInit r ih)
         else None
     | _ => None
     end)).

Definition serde_state : Serde ChainState := mkSerde
  (fun s => VObject [("binding", encode serde_binding (binding s));
                     ("protocol_status", encode serde_protocol_status (protocol_status s));
                     ("tip_height", encode (serde_option serde_u64) (tip_height s));
                     ("tip_hash", encode (serde_option serde_hash) (tip_hash s));
                     ("chained_root", encode serde_hash (chained_root s));
                     ("objects", encode (serde_map serde_object) (objects s));
                     ("active", encode serde_outpoint_map (active s))])
  (from_fields (fun fs =>
     b ← field serde_binding "binding" fs; p ← field serde_protocol_status "protocol_status" fs;
     th ← opt_field serde_u64 "tip_height" fs; ti ← opt_field serde_hash "tip_hash" fs;
     cr ← field serde_hash "chained_root" fs; os ← field (serde_map serde_object) "objects" fs;
     a ← field serde_outpoint_map "active" fs; Some (mkState b p th ti cr os a))).

Definition serde_counters : Serde Counters := mkSerde
  (fun c => VObject [("founding_created", encode serde_u64 (founding_created c));
                     ("all_objects", encode serde_u64 (all_objects c));
                     ("active_objects", encode serde_u64 (active_objects c))])
  (from_fields (fun fs =>
     f ← field serde_u64 "founding_created" fs; a ← field serde_u64 "all_objects" fs;
     x ← field serde_u64 "active_objects" fs; Some (mkCounters f a x))).

Definition serde_roots : Serde HeightRoots := mkSerde
  (fun r => VObject [("height", encode serde_u64 (hr_height r));
                     ("block_hash", encode serde_hash (hr_block_hash r));
                     ("event_root", encode serde_hash (hr_event_root r));
                     ("object_state_root", encode serde_hash (hr_object_state_root r));
                     ("chained_root", encode serde_hash (hr_chained_root r));
                     ("counters", encode serde_counters (hr_counters r))])
  (from_fields (fun fs =>
     h ← field serde_u64 "height" fs; bh ← field serde_hash "block_hash" fs;
     er ← field serde_hash "event_root" fs; orr ← field serde_hash "object_state_root" fs;
     cr ← field serde_hash "chained_root" fs; c ← field serde_counters "counters" fs;
     Some (mkRoots h bh er orr cr c))).

(** [marker::hex_bytes], its own copy of the module, and [marker::MarkerCandidate]; [usize] is 64
    bits wide. *)
Definition payload_hex : Serde (list byte) := mkSerde
  (fun l => VString (hex_encode l))
  (fun v => match v with VString s => hex_decode s | _ => None end).

Definition serde_candidate : Serde MarkerCandidate := mkSerde
  (fun c => VObject [("vout", encode serde_u32 (mc_vout c));
                     ("declared_len", encode serde_u64 (declared_len c));
                     ("payload", encode payload_hex (mc_payload c));
                     ("prefix_complete", encode serde_bool (prefix_complete c));
                     ("payload_complete", encode serde_bool (payload_complete c));
                     ("no_trailing_bytes", encode serde_bool (no_trailing_bytes c));
                     ("minimal_push", encode serde_bool (minimal_push c))])
  (from_fields (fun fs =>
     o ← field serde_u32 "vout" fs; n ← field serde_u64 "declared_len" fs;
     p ← field payload_hex "payload" fs; a ← field serde_bool "prefix_complete" fs;
     b ← field serde_bool "payload_complete" fs; c ← field serde_bool "no_trailing_bytes" fs;
     d ← field serde_bool "minimal_push" fs; Some (mkCandidate o n p a b c d))).

(** [reducer::BlockDelta], the journal entry. *)
Definition serde_delta : Serde BlockDelta := mkSerde
  (fun d => VObject [("before", encode serde_state (bd_before d));
                     ("block_hash", encode serde_hash (bd_block_hash d));
                     ("previous_hash", encode serde_hash (bd_previous_hash d));
                     ("height", encode serde_u64 (bd_height d));
                     ("events", encode (serde_list serde_event) (bd_events d));
                     ("roots", encode serde_roots (bd_roots d))])
  (from_fields (fun fs =>
     b ← field serde_state "before" fs; bh ← field serde_hash "block_hash" fs;
     p ← field serde_hash "previous_hash" fs; h ← field serde_u64 "height" fs;
     es ← field (serde_list serde_event) "events" fs; r ← field serde_roots "roots" fs;
     Some (mkDelta b bh p h es r))).
End Serde.
