(* ===== verification/SerdeFacts.v ===== *)
(** * What survives a [jsonb] column

    A [jsonb] column gives back the value it was given except for the order of object keys.  A
    serde is faithful on the values whose numbers fit their widths: whatever order the keys come
    back in, the reader returns the value that was written.  Canonical chains only have such
    values, so their states and journals survive being stored. *)

From Stdlib Require Import String.
From stdpp Require Import strings.
From S2P Require Import Prelude Types Marker Roots Reducer Validators Steps Invariant Chain Reach EventLog RootBinding Store StoreInv Counting Ingest IngestInv Converge Serde.

(** ** Stored values *)

(** What reading a [jsonb] column may give for what was written. *)
Inductive stored : JsonValue -> JsonValue -> Prop :=
| stored_null : stored VNull VNull
| stored_bool b : stored (VBool b) (VBool b)
| stored_number z : stored (VNumber z) (VNumber z)
| stored_string s : stored (VString s) (VString s)
| stored_array l l' : Forall2 stored l l' -> stored (VArray l) (VArray l')
| stored_object fields fields' order :
    NoDup fields.*1 -> Forall2 (fun kv kv' => kv.1 = kv'.1 /\ stored kv.2 kv'.2) fields fields' ->
    fields' ≡ₚ order -> stored (VObject fields) (VObject order).

Lemma assoc_elem {V} k (v : V) fields : NoDup fields.*1 -> assoc k fields = Some v <-> (k, v) ∈ fields.
Proof.
  induction fields as [|[k' v'] rest IH]; cbn; intros Hnd; [by rewrite elem_of_nil|].
  apply NoDup_cons in Hnd as [Hk Hnd]. rewrite elem_of_cons, <- IH by done.
  destruct (String.eqb_spec k k') as [->|Hne].
  - split; [intros [= ->]; by left|]. intros [[= ->]|Ha]; [done|]. destruct Hk.
    apply list_elem_of_fmap. exists (k', v). split; [done|]. by apply IH.
  - split; [by right|]. by intros [[= -> ->]|].
Qed.

Lemma stored_object_inv fields v :
  stored (VObject fields) v -> exists fields', v = VObject fields' /\
    forall k x, assoc k fields = Some x -> exists x', assoc k fields' = Some x' /\ stored x x'.
Proof.
  inversion 1 as [| | | | |? mid order Hnd Hf Hp]; subst. exists order. split; [done|].
  assert (Ek : mid.*1 = fields.*1).
  { clear -Hf. induction Hf as [|[] [] ? ? [E _] _ IH]; cbn in *; [done|by subst; f_equal]. }
  intros k x Hx. apply assoc_elem in Hx; [|done]. apply list_elem_of_lookup in Hx as [i Hi].
  destruct (Forall2_lookup_l _ _ _ _ _ Hf Hi) as ([k' x'] & Hi' & E & Hs). cbn in E, Hs. subst k'. exists x'. split; [|done].
  apply assoc_elem; [by rewrite <- Hp, Ek|]. rewrite <- Hp. by eapply list_elem_of_lookup_2.
Qed.

(** ** Faithful serdes *)

(** [c] reads back every value [ok] allows, from whatever a column returns. *)
Class Faithful {A} (c : Serde A) (ok : A -> Prop) : Prop :=
  faithful : forall a v, ok a -> stored (encode c a) v -> decode c v = Some a.

(** Only the optional types write null. *)
Class NotNull {A} (c : Serde A) : Prop := not_null : forall a, encode c a <> VNull.

Definition anything {A} (_ : A) : Prop := True.

#[export] Instance bool_faithful : Faithful serde_bool anything.
Proof. intros b v _ H. by inversion H. Qed.

#[export] Instance int_faithful low high : Faithful (serde_int low high) (fun z => low <= z <= high).
Proof. intros z v Hz H. inversion H; subst. cbn. by rewrite decide_True. Qed.
#[export] Instance u32_faithful : Faithful serde_u32 is_u32 := int_faithful 0 u32_max.
#[export] Instance u64_faithful : Faithful serde_u64 is_u64 := int_faithful 0 u64_max.

Lemma enum_faithful {A} (name : A -> string) variants :
  (forall a, head (filter (fun x => name x = name a) variants) = Some a) ->
  Faithful (serde_enum name variants) anything.
Proof. intros Hv a v _ H. inversion H; subst. apply Hv. Qed.

#[export] Instance list_faithful {A} (c : Serde A) ok : Faithful c ok -> Faithful (serde_list c) (Forall ok).
Proof.
  intros Hc l v Hl H. inversion H as [| | | |? l' Hs|]; subst. clear H. cbn. revert l' Hs.
  induction Hl as [|a l Ha Hl IH]; intros l' Hs; inversion Hs as [|? v' ? l'' Hv Hs']; subst; [done|].
  cbn. rewrite (Hc a v' Ha Hv). cbn. by rewrite (IH l'' Hs').
Qed.

#[export] Instance pair_faithful {A B} (c : Serde A) (d : Serde B) okc okd :
  Faithful c okc -> Faithful d okd -> Faithful (serde_pair c d) (fun p => okc p.1 /\ okd p.2).
Proof.
  intros Hc Hd [a b] v [Ha Hb] H. inversion H as [| | | |? l' Hs|]; subst.
  inversion Hs as [|? x ? r Hx Hr]; subst. inversion Hr as [|? y ? r' Hy Hr']; subst.
  inversion Hr'; subst. cbn. rewrite (Hc a x Ha Hx). cbn. by rewrite (Hd b y Hb Hy).
Qed.

#[export] Instance int_not_null low high : NotNull (serde_int low high).
Proof. by intros z. Qed.
#[export] Instance u64_not_null : NotNull serde_u64 := int_not_null 0 u64_max.

Lemma stored_null_inv v v' : stored v v' -> v' = VNull -> v = VNull.
Proof. by destruct 1. Qed.

#[export] Instance option_faithful {A} (c : Serde A) ok :
  Faithful c ok -> NotNull c -> Faithful (serde_option c) (from_option ok True).
Proof.
  intros Hc Hn [a|] v Ha H; cbn in *.
  - assert (Hv : v <> VNull) by (intros E; by apply (Hn a), (stored_null_inv _ v)).
    pose proof (Hc a v Ha H) as E. destruct v; [done|cbn [decode serde_option]; by rewrite E..].
  - by inversion H.
Qed.

(** A field of a struct, as written and as it comes back. *)
Lemma field_faithful {A} (c : Serde A) ok k a fields fields' :
  Faithful c ok -> ok a ->
  (forall k x, assoc k fields = Some x -> exists x', assoc k fields' = Some x' /\ stored x x') ->
  assoc k fields = Some (encode c a) -> field c k fields' = Some a.
Proof. intros Hc Ha Hf (x' & Hx & Hs)%Hf. unfold field. rewrite Hx. cbn. by apply Hc. Qed.

Lemma opt_field_faithful {A} (c : Serde A) ok k (a : option A) fields fields' :
  Faithful c ok -> NotNull c -> from_option ok True a ->
  (forall k x, assoc k fields = Some x -> exists x', assoc k fields' = Some x' /\ stored x x') ->
  assoc k fields = Some (encode (serde_option c) a) -> opt_field c k fields' = Some a.
Proof.
  intros Hc Hn Ha Hf (x' & Hx & Hs)%Hf. unfold opt_field. rewrite Hx. by apply (option_faithful c ok).
Qed.

(** Reads the fields of a struct one by one; the widths of the fields are left as goals. *)
Ltac read_fields Hf :=
  repeat match goal with
  | |- context [field ?c ?k ?fs] =>
      erewrite (field_faithful c _ k _ _ fs); [|typeclasses eauto| |exact Hf|reflexivity]; cbn [mbind option_bind]
  | |- context [opt_field ?c ?k ?fs] =>
      erewrite (opt_field_faithful c _ k _ _ fs);
        [|typeclasses eauto|typeclasses eauto| |exact Hf|reflexivity]; cbn [mbind option_bind]
  end.
Ltac struct_faithful :=
  let a := fresh "a" in let v := fresh "v" in let Hok := fresh "Hok" in let Hst := fresh "Hst" in
  let fs := fresh "fs" in let Hf := fresh "Hf" in
  intros a v Hok Hst; destruct a; apply stored_object_inv in Hst as (fs & -> & Hf);
  match goal with |- decode ?c _ = _ => let h := lazymatch c with ?f _ => f | _ => c end in unfold h end;
  cbn [decode from_fields]; read_fields Hf; cbn; try done; try apply Hok.

Section Faithful.
Context {X : HexCodec}.

(** ** Text *)

#[export] Instance hash_faithful : Faithful serde_hash anything.
Proof. intros h v _ H. inversion H; subst. apply from_to_hex. Qed.
#[export] Instance key_faithful : Faithful serde_key anything.
Proof. intros k v _ H. inversion H; subst. apply key_from_to_hex. Qed.
#[export] Instance hex_bytes_faithful : Faithful hex_bytes anything.
Proof. intros l v _ H. inversion H; subst. apply hex_decode_encode. Qed.
#[export] Instance hash_not_null : NotNull serde_hash.
Proof. by intros h. Qed.
#[export] Instance hex_vec_faithful : Faithful hex_vec (Forall anything) := list_faithful hex_bytes _ _.

(** ** Enums *)

#[export] Instance network_faithful : Faithful serde_network anything.
Proof. apply enum_faithful. by intros []. Qed.
#[export] Instance reason_faithful : Faithful serde_reason anything.
Proof. apply enum_faithful. by intros []. Qed.
#[export] Instance event_type_faithful : Faithful serde_event_type anything.
Proof. apply enum_faithful. by intros []. Qed.
#[export] Instance validity_faithful : Faithful serde_validity anything.
Proof. apply enum_faithful. by intros []. Qed.
#[export] Instance status_faithful : Faithful serde_status anything.
Proof. apply enum_faithful. by intros []. Qed.

(** ** Structs *)

Definition outpoint_ok (o : OutPointRef) : Prop := is_u32 (op_vout o).

#[export] Instance outpoint_faithful : Faithful serde_outpoint outpoint_ok.
Proof. unfold outpoint_ok. struct_faithful. Qed.

#[export] Instance keypair_faithful : Faithful serde_keypair anything.
Proof. struct_faithful. Qed.

#[export] Instance binding_faithful : Faithful serde_binding anything.
Proof. struct_faithful. Qed.

#[export] Instance event_faithful : Faithful serde_event event_wf.
Proof. struct_faithful. Qed.

#[export] Instance counters_faithful : Faithful serde_counters counters_wf.
Proof. struct_faithful. Qed.

Record object_fits (o : ObjectState) : Prop := {
  of_create_height : is_u64 (create_height o);
  of_state_seq : is_u32 (state_seq o);
  of_genesis : outpoint_ok (genesis o);
  of_current : outpoint_ok (current_outpoint o);
  of_chapter_count : is_u32 (chapter_count o);
}.

#[export] Instance object_faithful : Faithful serde_object object_fits.
Proof. struct_faithful. Qed.

Record roots_fit (r : HeightRoots) : Prop := {
  rf_height : is_u64 (hr_height r);
  rf_counters : counters_wf (hr_counters r);
}.

#[export] Instance roots_faithful : Faithful serde_roots roots_fit.
Proof. struct_faithful. Qed.

Definition status_fits (p : ProtocolStatus) : Prop :=
  match p with
  | AwaitingInit => True
  | PActive ih ho hc => is_u64 ih /\ is_u32 ho /\ is_u32 hc
  | FailedInit _ ih => is_u64 ih
  end.

#[export] Instance protocol_status_faithful : Faithful serde_protocol_status status_fits.
Proof.
  intros p v Hok Hst. destruct p as [|ih ho hc|r ih]; cbn in Hok, Hst;
    apply stored_object_inv in Hst as (fs & -> & Hf); unfold serde_protocol_status; cbn [decode from_fields];
    destruct (Hf "state" _ eq_refl) as (t & -> & Ht); inversion Ht; subst; cbn; [done|..]; read_fields Hf; try done; apply Hok.
Qed.

(** ** Maps *)

Lemma entries_faithful {A} (c : Serde A) ok (entries : list (Hash32 * A)) mid :
  Faithful c ok -> Forall (fun e => ok e.2) entries ->
  Forall2 (fun kv kv' => kv.1 = kv'.1 /\ stored kv.2 kv'.2)
    ((fun e => (to_hex e.1, encode c e.2)) <$> entries) mid ->
  Forall2 (fun kv e => (k ← from_hex kv.1; a ← decode c kv.2; Some (k, a)) = Some e) mid entries.
Proof.
  intros Hc Hok. revert mid. induction Hok as [|[k a] entries Ha Hok IH]; intros mid Hf; cbn in Hf;
    inversion Hf as [|? [name v] ? rest [E Hs] Hr]; subst; constructor; [|by apply IH].
  cbn in *. subst name. rewrite from_to_hex. cbn. by rewrite (Hc a v Ha Hs).
Qed.

(** A map of objects: the keys come back in any order, and the map is the same. *)
#[export] Instance map_faithful {A} (c : Serde A) ok :
  Faithful c ok -> Faithful (serde_map c) (map_Forall (fun _ a => ok a)).
Proof.
  intros Hc m v Hm H. inversion H as [| | | | |? mid order _ Hf Hp]; subst. clear H.
  apply (entries_faithful c ok) in Hf; [|done|].
  2:{ apply Forall_forall. intros [k a] Hin. apply elem_of_bt_entries in Hin. by apply (Hm k). }
  destruct (Permutation_Forall2 Hp Hf) as (entries & He & Hd).
  cbn [decode serde_map from_fields]. rewrite (mapM_Some_2 _ _ _ Hd). cbn. f_equal.
  by apply foldl_insert_entries.
Qed.

#[export] Instance outpoint_map_faithful :
  Faithful serde_outpoint_map (map_Forall (fun op (_ : Hash32) => outpoint_ok op)).
Proof.
  intros m v Hm Hst. cbn [decode encode serde_outpoint_map] in *.
  rewrite (faithful (Faithful := list_faithful _ _ _) (outpoint_map_serialize m) v); [apply outpoint_map_roundtrip| |done].
  apply Forall_forall. intros [op k] Hin. apply elem_of_bt_entries in Hin. split; [by apply (Hm op k)|done].
Qed.

(** The carrier index in a column: an array with an outpoint twice is refused, whatever keys it
    is given. *)
Lemma duplicate_outpoint_refused l1 l2 l3 op k1 k2 v1 v2 :
  decode (serde_pair serde_outpoint serde_hash) v1 = Some (op, k1) ->
  decode (serde_pair serde_outpoint serde_hash) v2 = Some (op, k2) ->
  decode serde_outpoint_map (VArray (l1 ++ v1 :: l2 ++ v2 :: l3)) = None.
Proof.
  intros H1 H2. cbn [decode serde_outpoint_map serde_list]. destruct (mapM _ _) as [pairs|] eqn:E; [|done]. cbn.
  apply mapM_Some_1 in E. apply Forall2_app_inv_l in E as (p1 & r & _ & Hr & ->).
  inversion Hr as [|? x ? r1 Hx Hr1]; subst. apply Forall2_app_inv_l in Hr1 as (p2 & r2 & _ & Hr2 & ->).
  inversion Hr2 as [|? y ? p3 Hy _]; subst. rewrite H1 in Hx. rewrite H2 in Hy. simplify_eq.
  destruct (outpoint_map_deserialize _) as [m|] eqn:Em; [|done].
  apply outpoint_map_deserialize_Some in Em as [Hnd _].
  rewrite fmap_app, fmap_cons, fmap_app, fmap_cons in Hnd. cbn in Hnd.
  apply NoDup_app in Hnd as (_ & _ & Hnd). apply NoDup_cons in Hnd as [Hn _]. destruct Hn.
  apply elem_of_app. right. by left.
Qed.

(** ** The state and the journal *)

Record state_fits (s : ChainState) : Prop := {
  sf_status : status_fits (protocol_status s);
  sf_tip : from_option is_u64 True (tip_height s);
  sf_tip_hash : from_option anything True (tip_hash s);
  sf_objects : map_Forall (fun _ o => object_fits o) (objects s);
  sf_active : map_Forall (fun op (_ : Hash32) => outpoint_ok op) (active s);
}.

#[export] Instance state_faithful : Faithful serde_state state_fits.
Proof. struct_faithful. Qed.

Record delta_fits (d : BlockDelta) : Prop := {
  df_before : state_fits (bd_before d);
  df_height : is_u64 (bd_height d);
  df_events : Forall event_wf (bd_events d);
  df_roots : roots_fit (bd_roots d);
}.

#[export] Instance delta_faithful : Faithful serde_delta delta_fits.
Proof. struct_faithful. Qed.

(** ** The views of transactions and blocks *)

Record input_fits (i : InputView) : Prop := {
  if_prevout : outpoint_ok (prevout i);
  if_sequence : is_u32 (sequence i);
  if_value : is_u64 (prevout_value i);
  if_height : from_option is_u64 True (prevout_height i);
}.

Lemma all_anything {A} (l : list A) : Forall anything l.
Proof. by apply Forall_true. Qed.
#[local] Hint Resolve all_anything : core.

#[export] Instance input_faithful : Faithful serde_input input_fits.
Proof. struct_faithful; auto. Qed.

#[export] Instance output_faithful : Faithful serde_output (fun o => is_u64 (value o)).
Proof. struct_faithful. Qed.

Record tx_fits (t : TxView) : Prop := {
  tf_version : -2147483648 <= tx_version t <= 2147483647;
  tf_lock_time : is_u32 (lock_time t);
  tf_inputs : Forall input_fits (inputs t);
  tf_outputs : Forall (fun o => is_u64 (value o)) (outputs t);
}.

#[export] Instance i32_faithful : Faithful serde_i32 (fun z => -2147483648 <= z <= 2147483647) :=
  int_faithful _ _.

#[export] Instance tx_faithful : Faithful serde_tx tx_fits.
Proof. struct_faithful. Qed.

Record block_fits (b : BlockView) : Prop := {
  bf_height : is_u64 (blk_height b);
  bf_transactions : Forall tx_fits (transactions b);
}.

#[export] Instance block_faithful : Faithful serde_block block_fits.
Proof. struct_faithful. Qed.

Record candidate_fits (c : MarkerCandidate) : Prop := {
  cf_vout : is_u32 (mc_vout c);
  cf_declared_len : is_u64 (declared_len c);
}.

#[export] Instance payload_hex_faithful : Faithful payload_hex anything.
Proof. intros l v _ H. inversion H; subst. apply hex_decode_encode. Qed.

#[export] Instance candidate_faithful : Faithful serde_candidate candidate_fits.
Proof. struct_faithful. Qed.

(** ** Canonical chains *)

Context {P : Primitives}.

Lemma dispatch_status_fits block s s1 evs :
  dispatch block s s1 evs -> status_fits (protocol_status s) -> 0 <= blk_height block <= i64_max ->
  status_fits (protocol_status s1).
Proof.
  unfold i64_max. intros Hd Hs Hh.
  destruct Hd as [s1 evs ih ho hc Es Hst|i tx p evs Es Hi Ht Hru s0 Hst|i tx r Es Hi Ht He|r ih Es].
  - apply txs_steps_frame in Hst as (_ & -> & _). done.
  - destruct Hru as (c & m & inp & o0 & o1 & key & Hru). cbn. unfold is_u64, is_u32, u64_max, u32_max in *.
    unfold FOUNDING_WINDOW, INIT_LEAD in Hru. destruct_and! Hru. lia.
  - cbn. unfold is_u64, u64_max. lia.
  - done.
Qed.

(** The widths of a reachable state, given the heights at which its objects were created. *)
Lemma reachable_fits b g s :
  reachable b g s -> status_fits (protocol_status s) -> from_option is_u64 True (tip_height s) ->
  map_Forall (fun _ o => is_u64 (create_height o)) (objects s) -> state_fits s.
Proof.
  intros Hr Hs Ht Hc. destruct (reachable_state_inv _ _ _ Hr) as [[_ [Ho Ha] _] _]. split; [done..|by destruct (tip_hash s)| |].
  - intros k o Hk. destruct (Ho k o Hk) as (_ & [Hch Hsq _ [_ Hg] Hact Hterm _] & _). unfold outpoint_ok.
    assert (Hcur : op_vout (current_outpoint o) = 1 \/ op_vout (current_outpoint o) = 0).
    { destruct (decide (status o = Active)) as [E|E]; [left; by apply Hact|right; by rewrite (Hterm E)]. }
    unfold is_u32, u32_max in *. split; [by apply (Hc k)|..]; unfold outpoint_ok, is_u32, u32_max; lia.
  - intros op k Hop. apply Ha in Hop as (o & Hk & Hst & <-).
    destruct (Ho k o Hk) as (_ & [_ _ _ _ Hact _ _] & _). destruct (Hact Hst) as [_ E].
    unfold outpoint_ok, is_u32, u32_max. lia.
Qed.

Lemma canonical_fits b g chain s :
  canonical b g chain s -> state_fits s /\ map_Forall (fun _ o => is_u64 (create_height o)) (objects s).
Proof.
  induction 1 as [|g chain s block s' d Hc [IH IHc] Hok Ha Hh].
  { assert (Hn : map_Forall (fun _ o => is_u64 (create_height o)) (objects (new_state b))) by (intros ?? ?; done).
    split; [|done]. by eapply reachable_fits; [constructor|..]. }
  pose proof (canonical_reachable _ _ _ _ Hc) as Hr. pose proof (reach_block _ _ _ _ _ _ Hr Hok Ha) as Hr'.
  pose proof (apply_block_delta _ _ _ _ Ha) as (_ & _ & _ & Et & _ & Hev & _).
  assert (Hu : is_u64 (blk_height block)) by (unfold is_u64, u64_max; unfold i64_max in Hh; lia).
  assert (Hch : map_Forall (fun _ o => is_u64 (create_height o)) (objects s')).
  { intros k o Hk. rewrite (apply_block_replay _ _ _ _ _ _ Hr Hok Ha) in Hk.
    destruct (replay_create_height _ _ _ _ _ _ Hev Hk) as [->|(o0 & Hk0 & <-)]; [done|]. by apply (IHc k). }
  split; [|done]. eapply reachable_fits; [exact Hr'| |by rewrite Et|done].
  destruct (reachable_state_inv _ _ _ Hr) as [Hinv Eb]. rewrite <- Eb in Hok.
  destruct (apply_block_dispatch _ _ _ _ _ Hinv Hok Ha) as (s1 & evs & er & orr & Hd & _ & -> & _). cbn.
  eapply dispatch_status_fits; [exact Hd|apply IH|done].
Qed.

Lemma delta_of_counters b g s block s' d :
  reachable b g s -> txs_ok (namespace b) g (transactions block) -> apply_block block s = (s', Ok d) ->
  hr_counters (bd_roots d) = counters s'.
Proof.
  intros Hr Hok Ha. destruct (reachable_state_inv _ _ _ Hr) as [Hinv <-].
  by destruct (apply_block_dispatch _ _ _ _ _ Hinv Hok Ha) as (s1 & evs & er & orr & _ & -> & -> & _).
Qed.

Lemma canonical_delta_fits b g chain s block s' d :
  canonical b g chain s -> txs_ok (namespace b) g (transactions block) ->
  apply_block block s = (s', Ok d) -> 0 <= blk_height block <= i64_max ->
  Z.of_nat (size (seen (ledger_txs (transactions block) g))) <= u64_max -> delta_fits d.
Proof.
  intros Hc Hok Ha Hh Hsz. pose proof (canonical_reachable _ _ _ _ Hc) as Hr.
  pose proof (apply_block_delta _ _ _ _ Ha) as (Eb & Eh & _ & _ & _ & _ & Er & _).
  assert (Hu : is_u64 (blk_height block)) by (unfold is_u64, u64_max; unfold i64_max in Hh; lia).
  split.
  - rewrite Eb. by apply (canonical_fits _ _ _ _ Hc).
  - by rewrite Eh.
  - by apply (events_sorted_wf _ _ _ _ _ _ Hr Hok Hu Ha).
  - split; [by rewrite Er|]. rewrite (delta_of_counters _ _ _ _ _ _ Hr Hok Ha).
    destruct (counters_bound _ _ _ (reach_block _ _ _ _ _ _ Hr Hok Ha)) as (_ & H1 & H2 & H3).
    split; unfold is_u64; lia.
Qed.

(** C14: what the store writes of a canonical chain it reads back: after any block of a canonical
    chain with fewer than 2^64 transactions, whatever order the [jsonb] columns return object
    keys in, the state column decodes to the state after the block, the journal column to the
    delta that undoes it, and the binding column to the deployment. *)
Theorem columns_faithful b g chain s block s' d vs vd vb :
  canonical b g chain s -> txs_ok (namespace b) g (transactions block) ->
  apply_block block s = (s', Ok d) -> 0 <= blk_height block <= i64_max ->
  Z.of_nat (size (seen (ledger_txs (transactions block) g))) <= u64_max ->
  stored (encode serde_state s') vs -> stored (encode serde_delta d) vd ->
  stored (encode serde_binding b) vb ->
  decode serde_state vs = Some s' /\ decode serde_delta vd = Some d /\ decode serde_binding vb = Some b.
Proof.
  intros Hc Hok Ha Hh Hsz Hs Hd Hb. split_and!.
  - apply (state_faithful s' vs); [|done].
    by apply (canonical_fits b (ledger_txs (transactions block) g) (block :: chain)); econstructor.
  - apply (delta_faithful d vd); [|done]. by eapply canonical_delta_fits.
  - by apply (binding_faithful b vb).
Qed.

(** A state column whose carrier index names an outpoint twice is refused, whatever the rest
    of the state is: the reader never resolves a corrupt index to one of its two objects. *)
Lemma corrupt_index_refused fields l1 l2 l3 v1 v2 op k1 k2 :
  assoc "active" fields = Some (VArray (l1 ++ v1 :: l2 ++ v2 :: l3)) ->
  decode (serde_pair serde_outpoint serde_hash) v1 = Some (op, k1) ->
  decode (serde_pair serde_outpoint serde_hash) v2 = Some (op, k2) ->
  decode serde_state (VObject fields) = None.
Proof.
  intros Ha H1 H2. unfold serde_state. cbn [decode from_fields].
  assert (Hf : field serde_outpoint_map "active" fields = None).
  { unfold field. rewrite Ha. cbn [mbind option_bind]. by eapply duplicate_outpoint_refused. }
  rewrite Hf. by repeat (match goal with |- (mbind _ ?o) = None => destruct o; [|done] end; cbn [mbind option_bind]).
Qed.
End Faithful.
