(* ===== verification/Total.v ===== *)
(** * The reducer on arbitrary input

    Nothing is assumed of the blocks here: they need not be canonical, transactions may repeat,
    inputs may spend what they like, digests may collide.  Every state the reducer can produce
    keeps its objects under their own keys with their chapters bounded by their sequence, and from
    such a state every block either is applied or is refused with an error: no index, [expect],
    counter or [unreachable!] of the reducer can panic.  The one bound is that a transaction has
    at most 2^32 inputs.  The fuzz targets of the repository test two consequences. *)

From Stdlib Require Import String.
From stdpp Require Import strings.
From S2P Require Import Prelude Types Marker Roots Reducer Validators Steps Chain Serde.

(** Takes a rule apart, up to its last condition. *)
Ltac open_rule H :=
  repeat match type of H with
         | exists _, _ => destruct H as [? H]
         | _ /\ _ => let H1 := fresh in destruct H as [H1 H]
         end.

Section Total.
Context {P : Primitives}.

(** ** The program's fuzz targets *)

(** fuzz_targets/marker.rs. *)
Definition fuzz_marker (data : list byte) : res Reason unit :=
  match find_marker_candidate data 0 with
  | Some candidate => match parse candidate with Panic => Panic | _ => Ok tt end
  | None => Ok tt
  end.

(** fuzz_targets/replay.rs: at most 32 blocks, up to the first error; the text of the JSON document
    is read by serde_json. *)
Definition fuzz_binding : Binding := mkBinding Regtest (arr_repeat 32 x01) (arr_repeat 32 x02).

Fixpoint replay_until_error (blocks : list BlockView) (s : ChainState) : res ReducerError unit :=
  match blocks with
  | [] => Ok tt
  | block :: rest =>
      match apply_block block s with
      | (s', Ok _) => replay_until_error rest s'
      | (_, Err _) => Ok tt
      | (_, Panic) => Panic
      end
  end.

Definition fuzz_replay `{HexCodec} (from_slice : list byte -> option JsonValue) (data : list byte) :
  res ReducerError unit :=
  match v ← from_slice data; decode (serde_list serde_block) v with
  | Some blocks => replay_until_error (take 32 blocks) (new_state fuzz_binding)
  | None => Ok tt
  end.

(** ** What every state satisfies *)

(** Objects are stored under their own keys, and their chapters are bounded by their sequence. *)
Definition sound (s : ChainState) : Prop :=
  forall k o, objects s !! k = Some o -> object_key o = k /\ chapter_count o <= state_seq o.

Lemma sound_chapters s : sound s -> chapters_bounded s.
Proof. intros Hs k o Hk. by apply (Hs k o). Qed.

Lemma sound_new b : sound (new_state b).
Proof. by intros k o. Qed.

(** A computation that leads from sound states to sound states, even when it fails. *)
Definition preserves {A} (m : st ChainState ReducerError A) : Prop := forall s, sound s -> sound (m s).1.

Lemma preserves_bind {A B} (m : st ChainState ReducerError A) (f : A -> st ChainState ReducerError B) :
  preserves m -> (forall a, preserves (f a)) -> preserves (st_bind m f).
Proof.
  intros Hm Hf s Hs. unfold st_bind. specialize (Hm s Hs). destruct (m s) as [s1 [a|e|]]; [by apply Hf|done..].
Qed.
Lemma preserves_lift {A} (r : res ReducerError A) : preserves (st_lift r).
Proof. by intros s Hs. Qed.
Lemma preserves_ret {A} (a : A) : preserves (st_ret a).
Proof. by intros s Hs. Qed.
Lemma preserves_modify f : (forall s, sound s -> sound (f s)) -> preserves (st_modify f).
Proof. intros Hf s Hs. by apply Hf. Qed.
Lemma preserves_get {A} (f : ChainState -> st ChainState ReducerError A) :
  (forall s, sound s -> sound (f s s).1) -> preserves (st_bind st_get f).
Proof. intros Hf s Hs. by apply Hf. Qed.

Lemma sound_alter s f k act :
  sound s -> (forall o, object_key (f o) = object_key o) ->
  (forall o, objects s !! k = Some o -> chapter_count o <= state_seq o -> chapter_count (f o) <= state_seq (f o)) ->
  sound (set_maps (alter f k (objects s)) act s).
Proof.
  intros Hs Hk Hc k' o' Ho'. cbn in Ho'.
  apply lookup_alter_Some in Ho' as [(-> & o & Ho & ->)|[_ Ho]]; [|by apply Hs].
  destruct (Hs _ _ Ho) as [E Hb]. split; [by rewrite Hk|by apply Hc].
Qed.

Lemma sound_insert s o act :
  sound s -> chapter_count o <= state_seq o -> sound (set_maps (<[object_key o := o]> (objects s)) act s).
Proof. intros Hs Hc k o' Ho'. cbn in Ho'.
  by apply lookup_insert_Some in Ho' as [[<- <-]|[_ Ho]]; [|by apply Hs]. Qed.

Lemma sound_terminate s o st txid : sound s -> sound (terminate_object o st txid s).
Proof. intros Hs. by apply sound_alter. Qed.

Lemma preserves_terminate block tx txi evi r ns sub carriers :
  preserves (terminate_loop block tx txi evi r ns sub carriers).
Proof.
  revert sub. induction carriers as [|[i o] carriers IH]; intros sub; [apply preserves_ret|].
  cbn [terminate_loop]. apply preserves_bind; [apply preserves_lift|intros z].
  apply preserves_bind; [apply preserves_modify; intros s; apply sound_terminate|intros _].
  apply preserves_bind; [apply IH|intros evs; apply preserves_ret].
Qed.

Lemma sound_operation block tx txi evi op s m h :
  sound s -> operation_rule s h tx m (head (carrier_spends s tx)) op ->
  sound (op_state block tx op s) /\
  apply_valid_operation block tx txi evi op s = (op_state block tx op s, Ok (op_event s block tx txi evi op)).
Proof.
  intros Hs Hr.
  assert (Hc : forall i o, head (carrier_spends s tx) = Some (i, o) -> objects s !! object_key o = Some o /\ chapter_count o <= state_seq o).
  { intros i o Hh. apply head_elem, carrier_spends_object in Hh as [k Hk]. destruct (Hs _ _ Hk) as [-> ?]. done. }
  split; [|by eapply apply_valid_operation_run; [done|]; intros o i Hh; apply (Hc i o)].
  destruct Hr as [_ Hop]. destruct op as [kp|o seq c|o seq kp|o seq c]; cbn [op_state].
  - destruct (protocol_status s); [done| |done].
    set (o := created_object _ _ _ _ _ _). change (derive_object_key _ _) with (object_key o) at 1.
    by apply sound_insert.
  - destruct Hop as (_ & Ec & Hr). unfold mark_rule in Hr. open_rule Hr.
    destruct (Hc _ _ Ec) as [_ Hb]. set (o' := advanced _ _ _ _ _). change (object_key o) with (object_key o') at 1.
    apply sound_insert; [done|]. cbn. lia.
  - destruct Hop as (_ & Ec & Hr). unfold rotate_rule in Hr. open_rule Hr.
    destruct (Hc _ _ Ec) as [_ Hb]. set (o' := advanced _ _ _ _ _). change (object_key o) with (object_key o') at 1.
    apply sound_insert; [done|]. cbn. lia.
  - destruct Hop as (_ & Ec & Hr). destruct (Hc _ _ Ec) as [Ho Hb].
    apply sound_alter; [done..|]. intros o1 Ho1 _. rewrite Ho in Ho1. injection Ho1 as <-. cbn.
    unfold close_rule in Hr. open_rule Hr. lia.
Qed.

Lemma preserves_process block tx txi : preserves (process_transaction block tx txi).
Proof.
  unfold process_transaction. apply preserves_get. intros s Hs.
  assert (Hexit : forall evi r ns cs, sound (terminate_carriers block tx txi evi r ns cs s).1)
    by (intros; by apply preserves_terminate).
  case_decide; [by destruct (carrier_spends s tx)|]. case_decide; [done|].
  destruct (marker_candidates tx (binding s)) as [|c rest].
  - destruct (carrier_spends s tx) as [|[i o] cs]; [done|]. case_decide; [|done].
    destruct (validate_refund _ tx o); [|done..]. by apply sound_terminate.
  - destruct (rbind (parse c) _) as [op|r|] eqn:Ev; [|by destruct (carrier_spends s tx)|done].
    apply rbind_Ok in Ev as (m & _ & Ho%operation_rule_sound).
    destruct (sound_operation block tx txi (mc_vout c) op s m (blk_height block) Hs Ho) as [Hs' E].
    unfold st_bind. by rewrite E.
Qed.

Lemma preserves_active_loop block i txs : preserves (active_block_loop block i txs).
Proof.
  revert i. induction txs as [|tx txs IH]; intros i; [apply preserves_ret|]. cbn [active_block_loop].
  apply preserves_bind; [apply preserves_lift|intros txi]. apply preserves_bind; [apply preserves_process|intros e1].
  apply preserves_bind; [apply IH|intros e2; apply preserves_ret].
Qed.

Lemma preserves_init_loop block i txs : preserves (init_block_loop block i txs).
Proof.
  revert i. induction txs as [|tx txs IH]; intros i; [apply preserves_ret|]. cbn [init_block_loop].
  apply preserves_bind; [apply preserves_lift|intros txi]. apply preserves_get. intros s Hs.
  apply (preserves_bind _ _); [|intros e1|done].
  - case_decide; [apply preserves_ret|apply preserves_process].
  - apply preserves_bind; [apply IH|intros e2; apply preserves_ret].
Qed.

Lemma preserves_events block : preserves (block_events block).
Proof.
  unfold block_events. apply preserves_get. intros s Hs.
  destruct (protocol_status s); [|by apply preserves_active_loop|done].
  destruct (list_find _ _) as [[i tx]|]; [|done].
  apply preserves_bind; [apply preserves_lift|intros z|done]. destruct (validate_configured_init _ _ _).
  - apply preserves_bind; [by apply preserves_modify|intros _; apply preserves_init_loop].
  - apply preserves_bind; [by apply preserves_modify|intros _; apply preserves_ret].
  - apply preserves_lift.
Qed.

(** Every outcome of a block leaves a sound state. *)
Lemma apply_block_sound block s : sound s -> sound (apply_block block s).1.
Proof.
  revert s. change (preserves (apply_block block)). unfold apply_block. apply preserves_get. intros s Hs.
  apply preserves_bind; [apply preserves_lift|intros _|done].
  case_decide; [apply preserves_lift|]. apply preserves_bind; [apply preserves_events|intros evs].
  apply preserves_get. intros s1 Hs1.
  apply preserves_bind; [apply preserves_lift|intros er|done].
  apply preserves_bind; [apply preserves_lift|intros orr].
  apply preserves_bind; [by apply preserves_modify|intros _]. apply preserves_ret.
Qed.

(** ** No panic *)

(** A transaction of a size that fits in memory. *)
Definition sized (block : BlockView) : Prop :=
  Forall (fun tx => len (inputs tx) <= u32_max + 1) (transactions block).

Definition calm {A} (m : st ChainState ReducerError A) : Prop := forall s, sound s -> (m s).2 <> Panic.

Lemma calm_bind {A B} (m : st ChainState ReducerError A) (f : A -> st ChainState ReducerError B) :
  preserves m -> calm m -> (forall a, calm (f a)) -> calm (st_bind m f).
Proof.
  intros Hp Hm Hf s Hs. unfold st_bind. specialize (Hp s Hs). specialize (Hm s Hs).
  destruct (m s) as [s1 [a|e|]]; [by apply Hf|done..].
Qed.
Lemma calm_get {A} (f : ChainState -> st ChainState ReducerError A) :
  (forall s, sound s -> (f s s).2 <> Panic) -> calm (st_bind st_get f).
Proof. intros Hf s Hs. by apply Hf. Qed.
Lemma calm_ret {A} (a : A) : calm (st_ret a).
Proof. by intros s _. Qed.
Lemma calm_modify f : calm (st_modify f).
Proof. by intros s _. Qed.
Lemma calm_lift {A} (r : res ReducerError A) : r <> Panic -> calm (st_lift r).
Proof. by intros Hr s _. Qed.
Lemma calm_index (i : nat) : calm (st_lift (ok_or TransactionIndexOverflow (try_from u32_max (Z.of_nat i)))).
Proof. apply calm_lift. unfold ok_or. by destruct (try_from _ _). Qed.

Lemma calm_process block tx txi :
  len (inputs tx) <= u32_max + 1 -> calm (process_transaction block tx txi).
Proof.
  intros Hl s Hs. destruct (process_transaction_step block tx txi s Hl (sound_chapters _ Hs)) as (s' & evs & -> & _).
  done.
Qed.

Lemma calm_active_loop block i txs :
  Forall (fun tx => len (inputs tx) <= u32_max + 1) txs -> calm (active_block_loop block i txs).
Proof.
  intros Hl. revert i. induction Hl as [|tx txs Hx _ IH]; intros i; [apply calm_ret|]. cbn [active_block_loop].
  apply calm_bind; [apply preserves_lift|apply calm_index|intros txi].
  apply calm_bind; [apply preserves_process|by apply calm_process|intros e1].
  apply calm_bind; [apply preserves_active_loop|apply IH|intros e2; apply calm_ret].
Qed.

Lemma calm_init_loop block i txs :
  Forall (fun tx => len (inputs tx) <= u32_max + 1) txs -> calm (init_block_loop block i txs).
Proof.
  intros Hl. revert i. induction Hl as [|tx txs Hx _ IH]; intros i; [apply calm_ret|]. cbn [init_block_loop].
  apply calm_bind; [apply preserves_lift|apply calm_index|intros txi]. apply calm_get. intros s Hs.
  apply calm_bind; [| |intros e1|done].
  - case_decide; [apply preserves_ret|apply preserves_process].
  - case_decide; [apply calm_ret|by apply calm_process].
  - apply calm_bind; [apply preserves_init_loop|apply IH|intros e2; apply calm_ret].
Qed.

Lemma calm_events block : sized block -> calm (block_events block).
Proof.
  intros Hl. unfold block_events. apply calm_get. intros s Hs.
  destruct (protocol_status s); [|by apply calm_active_loop|done].
  destruct (list_find _ _) as [[i tx]|]; [|done].
  apply calm_bind; [apply preserves_lift|apply calm_index|intros z|done].
  pose proof (validate_configured_init_returns (binding s) (blk_height block) tx) as Hr.
  destruct (validate_configured_init _ _ _).
  - apply calm_bind; [by apply preserves_modify|apply calm_modify|intros _; by apply calm_init_loop].
  - apply calm_bind; [by apply preserves_modify|apply calm_modify|intros _; apply calm_ret].
  - done.
Qed.

Lemma apply_block_calm block s : sound s -> sized block -> (apply_block block s).2 <> Panic.
Proof.
  intros Hs Hl. revert s Hs. change (calm (apply_block block)). unfold apply_block. apply calm_get. intros s Hs.
  apply calm_bind; [apply preserves_lift|apply calm_lift, validate_linkage_no_panic|intros _|done].
  case_decide; [by apply calm_lift|].
  apply calm_bind; [apply preserves_events|by apply calm_events|intros evs]. apply calm_get. intros s1 Hs1.
  destruct (event_root_total (E := ReducerError) (namespace (binding s)) evs) as [er Her].
  destruct (object_state_root_total (E := ReducerError) (namespace (binding s)) (bt_values (objects s1))) as [orr Hor].
  rewrite Her, Hor. by unfold st_bind, st_lift, st_modify, st_ret.
Qed.

Lemma replay_calm blocks s :
  sound s -> Forall sized blocks -> replay_until_error blocks s <> Panic.
Proof.
  intros Hs Hl. revert s Hs. induction Hl as [|block blocks Hb _ IH]; intros s Hs; [done|]. cbn [replay_until_error].
  pose proof (apply_block_sound block s Hs) as H1. pose proof (apply_block_calm block s Hs Hb) as H2.
  destruct (apply_block block s) as [s' [d|e|]]; [by apply IH|done..].
Qed.

(** C12: no input makes the reducer panic.  From the state of a new deployment, any sequence of
    blocks, canonical or not, whose transactions have at most 2^32 inputs, is applied block by
    block or refused with an error; the state it leaves, whatever the outcome, keeps every object
    under its own key with its chapters bounded by its sequence. *)
Theorem reducer_total b blocks block s ds :
  connect_all blocks (new_state b) = (s, Ok ds) -> sized block ->
  (apply_block block s).2 <> Panic /\ sound (apply_block block s).1.
Proof.
  intros Hc Hl. assert (Hs : sound s).
  { revert Hc. generalize (sound_new b). generalize (new_state b). revert ds.
    induction blocks as [|b0 blocks IH]; intros ds s0 Hs0 Hc; [by injection Hc as <- _|].
    apply connect_all_cons in Hc as (s1 & d & ds1 & Ha & Hc & _). eapply IH; [|exact Hc].
    pose proof (apply_block_sound b0 s0 Hs0) as H1. by rewrite Ha in H1. }
  split; [by apply apply_block_calm|by apply apply_block_sound].
Qed.

Lemma fuzz_marker_passes data : fuzz_marker data = Ok tt.
Proof.
  unfold fuzz_marker. destruct (find_marker_candidate data 0) as [c|] eqn:E; [|done].
  pose proof (parse_returns c data 0 E) as Hr. by destruct (parse c).
Qed.

Lemma replay_passes blocks s :
  sound s -> Forall sized blocks -> replay_until_error blocks s = Ok tt.
Proof.
  intros Hs Hl. pose proof (replay_calm blocks s Hs Hl) as Hc. revert Hc. clear. revert s.
  induction blocks as [|block blocks IH]; intros s Hc; [done|]. cbn [replay_until_error] in *.
  destruct (apply_block block s) as [s' [d|e|]]; [by apply IH|done..].
Qed.

(** The program's fuzz targets pass on every input: the parser never panics on what the
    detector finds in any bytes, and the reducer never panics on the blocks of any document,
    whatever the reader of JSON text makes of it. *)
Lemma fuzz_targets_pass `{HexCodec} (from_slice : list byte -> option JsonValue) data :
  (forall v blocks, from_slice data = Some v -> decode (serde_list serde_block) v = Some blocks ->
     Forall sized blocks) ->
  fuzz_marker data = Ok tt /\ fuzz_replay from_slice data = Ok tt.
Proof.
  intros Hl. split; [apply fuzz_marker_passes|]. unfold fuzz_replay.
  destruct (from_slice data) as [v|] eqn:Ev; [|done]. cbn [mbind option_bind].
  destruct (decode (serde_list serde_block) v) as [blocks|] eqn:Ed; [|done].
  apply replay_passes; [apply sound_new|]. apply Forall_take. by eapply Hl.
Qed.
End Total.
