(* ===== verification/Text.v ===== *)
(** * Text the way the standard library reads it

    Rust's strings are byte strings that hold UTF-8.  This file models what the service uses of
    them: the UTF-8 validity check, trimming of Unicode whitespace, splitting on a byte and the
    ASCII classes.  The validity check is proved to accept exactly the encodings of sequences of
    scalar values. *)

From Stdlib Require Import String.
From stdpp Require Import strings.
From S2P Require Import Prelude Types.

(** ** UTF-8 *)

(** [core::str::from_utf8(bytes).is_ok()]: the well-formed byte sequences of the Unicode standard. *)
Definition continuation (b : byte) : bool := bool_decide (128 <= bval b < 192).

Definition second_of_3 (first second : Z) : bool :=
  if decide (first = 224) then bool_decide (160 <= second < 192)
  else if decide (first = 237) then bool_decide (128 <= second < 160)
  else bool_decide (128 <= second < 192).

Definition second_of_4 (first second : Z) : bool :=
  if decide (first = 240) then bool_decide (144 <= second < 192)
  else if decide (first = 244) then bool_decide (128 <= second < 144)
  else bool_decide (128 <= second < 192).

Fixpoint valid_utf8 (bytes : list byte) : bool :=
  match bytes with
  | [] => true
  | b0 :: r0 =>
      if decide (bval b0 < 128) then valid_utf8 r0 else
      match r0 with
      | [] => false
      | b1 :: r1 =>
          if decide (194 <= bval b0 < 224) then continuation b1 && valid_utf8 r1 else
          match r1 with
          | [] => false
          | b2 :: r2 =>
              if decide (224 <= bval b0 < 240)
              then second_of_3 (bval b0) (bval b1) && continuation b2 && valid_utf8 r2 else
              match r2 with
              | [] => false
              | b3 :: r3 =>
                  bool_decide (240 <= bval b0 < 245) && second_of_4 (bval b0) (bval b1)
                  && continuation b2 && continuation b3 && valid_utf8 r3
              end
          end
      end
  end.

(** The reference: scalar values and their encodings. *)
Definition scalar (c : Z) : Prop := 0 <= c < 55296 \/ 57344 <= c < 1114112.

Definition encode (c : Z) : list byte :=
  if decide (c < 128) then [byte_of_Z c]
  else if decide (c < 2048) then [byte_of_Z (192 + c / 64); byte_of_Z (128 + c mod 64)]
  else if decide (c < 65536) then
    [byte_of_Z (224 + c / 4096); byte_of_Z (128 + (c / 64) mod 64); byte_of_Z (128 + c mod 64)]
  else
    [byte_of_Z (240 + c / 262144); byte_of_Z (128 + (c / 4096) mod 64);
     byte_of_Z (128 + (c / 64) mod 64); byte_of_Z (128 + c mod 64)].

Lemma bval_small z : 0 <= z < 256 -> bval (byte_of_Z z) = z.
Proof. intros H. rewrite bval_of_Z. by apply Z.mod_small. Qed.

Lemma byte_of_small z b : bval b = z -> byte_of_Z z = b.
Proof. intros <-. apply byte_of_bval. Qed.

(** The digits of a scalar value in base 64. *)
Lemma base64_digits c :
  0 <= c < 1114112 ->
  0 <= c mod 64 < 64 /\ 0 <= (c / 64) mod 64 < 64 /\ 0 <= (c / 4096) mod 64 < 64 /\
  c = 64 * (c / 64) + c mod 64 /\ c / 64 = 64 * (c / 4096) + (c / 64) mod 64 /\
  c / 4096 = 64 * (c / 262144) + (c / 4096) mod 64 /\ 0 <= c / 262144.
Proof.
  intros Hc. replace 4096 with (64 * 64) by lia. replace 262144 with (64 * 64 * 64) by lia.
  rewrite <- !Z.div_div by lia.
  pose proof (Z.div_mod c 64). pose proof (Z.div_mod (c / 64) 64). pose proof (Z.div_mod (c / 64 / 64) 64).
  pose proof (Z.mod_pos_bound c 64). pose proof (Z.mod_pos_bound (c / 64) 64).
  pose proof (Z.mod_pos_bound (c / 64 / 64) 64).
  pose proof (Z.div_pos (c / 64 / 64) 64). pose proof (Z.div_pos (c / 64) 64). pose proof (Z.div_pos c 64). lia.
Qed.

Lemma valid_utf8_encode c rest : scalar c -> valid_utf8 (encode c ++ rest) = valid_utf8 rest.
Proof.
  intros Hc. assert (Hr : 0 <= c < 1114112) by (unfold scalar in Hc; lia).
  destruct (base64_digits c Hr) as (H0 & H1 & H2 & E0 & E1 & E2 & H3).
  revert Hc. unfold scalar, encode. intros Hc.
  repeat case_decide; cbn [app valid_utf8]; rewrite !bval_small by lia;
    unfold continuation, second_of_3, second_of_4; rewrite ?bval_small by lia;
    repeat (first [rewrite decide_True by lia | rewrite decide_False by lia]).
  - done.
  - by rewrite bool_decide_true by lia.
  - rewrite (bool_decide_true (128 <= 128 + c mod 64 < 192)) by lia. rewrite andb_true_r.
    repeat case_decide; by rewrite bool_decide_true by lia.
  - rewrite (bool_decide_true (128 <= 128 + c mod 64 < 192)) by lia.
    rewrite (bool_decide_true (128 <= 128 + (c / 64) mod 64 < 192)) by lia.
    rewrite (bool_decide_true (240 <= 240 + c / 262144 < 245)) by lia. rewrite !andb_true_r, andb_true_l.
    repeat case_decide; by rewrite bool_decide_true by lia.
Qed.

Lemma base64_join q r : 0 <= r < 64 -> (64 * q + r) / 64 = q /\ (64 * q + r) mod 64 = r.
Proof.
  intros H. rewrite Z.add_comm, Z.mul_comm. rewrite Z.div_add, Z.mod_add by lia.
  by rewrite Z.div_small, Z.mod_small by lia.
Qed.

Lemma encode_1 b : bval b < 128 -> [b] = encode (bval b).
Proof. intros H. unfold encode. rewrite decide_True by done. by rewrite byte_of_bval. Qed.

Lemma encode_2 b0 b1 :
  194 <= bval b0 < 224 -> 128 <= bval b1 < 192 ->
  [b0; b1] = encode (64 * (bval b0 - 192) + (bval b1 - 128)).
Proof.
  intros H0 H1. destruct (base64_join (bval b0 - 192) (bval b1 - 128)) as [Ed Em]; [lia|].
  unfold encode. rewrite decide_False, decide_True by lia. rewrite Ed, Em.
  by rewrite !Zplus_minus, !byte_of_bval.
Qed.

Lemma encode_3 b0 b1 b2 c :
  c = 64 * (64 * (bval b0 - 224) + (bval b1 - 128)) + (bval b2 - 128) ->
  128 <= bval b1 < 192 -> 128 <= bval b2 < 192 -> 2048 <= c < 65536 -> [b0; b1; b2] = encode c.
Proof.
  intros Ec H1 H2 Hc. destruct (base64_join (bval b0 - 224) (bval b1 - 128)) as [Ed1 Em1]; [lia|].
  destruct (base64_join (64 * (bval b0 - 224) + (bval b1 - 128)) (bval b2 - 128)) as [Ed2 Em2]; [lia|].
  rewrite <- Ec in Ed2, Em2. rewrite <- Ed2 in Ed1, Em1. rewrite Z.div_div in Ed1 by lia.
  unfold encode. rewrite 2 decide_False, decide_True by lia.
  rewrite Em2, Em1. change 4096 with (64 * 64). rewrite Ed1. by rewrite !Zplus_minus, !byte_of_bval.
Qed.

Lemma encode_4 b0 b1 b2 b3 c :
  c = 64 * (64 * (64 * (bval b0 - 240) + (bval b1 - 128)) + (bval b2 - 128)) + (bval b3 - 128) ->
  128 <= bval b1 < 192 -> 128 <= bval b2 < 192 -> 128 <= bval b3 < 192 -> 65536 <= c ->
  [b0; b1; b2; b3] = encode c.
Proof.
  intros Ec H1 H2 H3 Hc. destruct (base64_join (bval b0 - 240) (bval b1 - 128)) as [Ed1 Em1]; [lia|].
  destruct (base64_join (64 * (bval b0 - 240) + (bval b1 - 128)) (bval b2 - 128)) as [Ed2 Em2]; [lia|].
  destruct (base64_join (64 * (64 * (bval b0 - 240) + (bval b1 - 128)) + (bval b2 - 128)) (bval b3 - 128))
    as [Ed3 Em3]; [lia|].
  rewrite <- Ec in Ed3, Em3. rewrite <- Ed3 in Ed2, Em2. rewrite <- Ed2 in Ed1, Em1.
  rewrite !Z.div_div in Ed1 by lia. change (64 * (64 * 64)) with (64 * 64 * 64) in Ed1. rewrite !Z.div_div in Em1 by lia.
  unfold encode. rewrite 3 decide_False by lia. change 4096 with (64 * 64). change 262144 with (64 * 64 * 64).
  rewrite Em3, Em2, Em1, Ed1. by rewrite !Zplus_minus, !byte_of_bval.
Qed.

Lemma second_of_3_true x y :
  second_of_3 x y = true ->
  128 <= y < 192 /\ (x = 224 -> 160 <= y) /\ (x = 237 -> y < 160).
Proof. unfold second_of_3. repeat case_decide; intros Hy%bool_decide_eq_true; lia. Qed.

Lemma second_of_4_true x y :
  second_of_4 x y = true ->
  128 <= y < 192 /\ (x = 240 -> 144 <= y) /\ (x = 244 -> y < 144).
Proof. unfold second_of_4. repeat case_decide; intros Hy%bool_decide_eq_true; lia. Qed.

(** The first character of a valid text. *)
Lemma valid_utf8_head b l :
  valid_utf8 (b :: l) = true ->
  exists c rest, scalar c /\ b :: l = encode c ++ rest /\ valid_utf8 rest = true.
Proof.
  pose proof (bval_range b) as Hb. cbn [valid_utf8]. unfold scalar. case_decide as Ha.
  { intros Hl. exists (bval b), l. rewrite <- encode_1 by done. split; [lia|done]. }
  destruct l as [|b1 l]; [done|]. case_decide as H2.
  { intros [Hc%bool_decide_eq_true Hl]%andb_true_iff.
    exists (64 * (bval b - 192) + (bval b1 - 128)), l. rewrite <- encode_2 by done. split; [lia|done]. }
  destruct l as [|b2 l]; [done|]. case_decide as H3.
  { rewrite !andb_true_iff. intros [[Hs%second_of_3_true Hc%bool_decide_eq_true] Hl].
    exists (64 * (64 * (bval b - 224) + (bval b1 - 128)) + (bval b2 - 128)), l.
    rewrite <- (encode_3 b b1 b2) by (done || lia). split; [lia|done]. }
  destruct l as [|b3 l]; [done|]. rewrite !andb_true_iff.
  intros [[[[H4%bool_decide_eq_true Hs%second_of_4_true] Hc%bool_decide_eq_true] Hd%bool_decide_eq_true] Hl].
  exists (64 * (64 * (64 * (bval b - 240) + (bval b1 - 128)) + (bval b2 - 128)) + (bval b3 - 128)), l.
  rewrite <- (encode_4 b b1 b2 b3) by (done || lia). split; [lia|done].
Qed.

Definition utf8_text (bytes : list byte) : Prop :=
  exists cs, Forall scalar cs /\ bytes = concat (encode <$> cs).

(** The check accepts exactly the encodings of texts. *)
Lemma valid_utf8_iff bytes : valid_utf8 bytes = true <-> utf8_text bytes.
Proof.
  split.
  - remember (length bytes) as n eqn:En. revert bytes En.
    induction n as [n IH] using lt_wf_ind; intros [|b l] En Hv; [by exists []|].
    apply valid_utf8_head in Hv as (c & rest & Hc & E & Hr).
    assert (Hne : encode c <> []) by (unfold encode; repeat case_decide; done).
    destruct (IH (length rest)) with (bytes := rest) as (cs & Hcs & ->); [|done|done|].
    { apply (f_equal length) in E. rewrite length_app in E. rewrite En, E.
      destruct (encode c); [done|]. simpl. lia. }
    exists (c :: cs). split; [by constructor|done].
  - intros (cs & Hcs & ->). induction Hcs as [|c cs Hc _ IH]; [done|]. cbn [fmap list_fmap concat].
    by rewrite valid_utf8_encode.
Qed.

(** ** Trimming *)

(** The characters with the Unicode property White_Space. *)
Definition white_points : list Z :=
  [9; 10; 11; 12; 13; 32; 133; 160; 5760; 8192; 8193; 8194; 8195; 8196; 8197; 8198; 8199; 8200;
   8201; 8202; 8232; 8233; 8239; 8287; 12288].
Definition white_chars : list (list byte) := encode <$> white_points.

(** Without one of the given characters at its start. *)
Definition strip_char (chars : list (list byte)) (l : list byte) : option (list byte) :=
  head (omap (fun p => if decide (take (length p) l = p) then Some (drop (length p) l) else None) chars).

Fixpoint strip (chars : list (list byte)) (fuel : nat) (l : list byte) : list byte :=
  match fuel, strip_char chars l with
  | S fuel', Some rest => strip chars fuel' rest
  | _, _ => l
  end.

(** [str::trim]. *)
Definition trim_start (l : list byte) : list byte := strip white_chars (length l) l.
Definition trim_end (l : list byte) : list byte :=
  reverse (strip (reverse <$> white_chars) (length l) (reverse l)).
Definition trim (l : list byte) : list byte := trim_end (trim_start l).

Lemma strip_char_Some chars l rest :
  strip_char chars l = Some rest -> exists p, p ∈ chars /\ l = p ++ rest.
Proof.
  unfold strip_char. intros Hh. assert (Hin : rest ∈ omap (fun p =>
    if decide (take (length p) l = p) then Some (drop (length p) l) else None) chars).
  { destruct (omap _ chars); [done|]. injection Hh as ->. apply list_elem_of_here. }
  apply list_elem_of_omap in Hin as (p & Hp & E). case_decide as Ht; [|done]. injection E as <-.
  exists p. split; [done|]. by rewrite <- Ht at 1; rewrite take_drop.
Qed.

Lemma strip_char_None chars l : strip_char chars l = None -> forall p rest, p ∈ chars -> l <> p ++ rest.
Proof.
  unfold strip_char. intros Hh p rest Hp ->. assert (Hin : rest ∈ omap (fun q =>
    if decide (take (length q) (p ++ rest) = q) then Some (drop (length q) (p ++ rest)) else None) chars).
  { apply list_elem_of_omap. exists p. split; [done|].
    by rewrite take_app_length, decide_True, drop_app_length by (by rewrite ?take_app_length). }
  destruct (omap _ chars); [by apply not_elem_of_nil in Hin|done].
Qed.

(** Stripping removes characters until none is left at the start; the length is enough fuel. *)
Lemma strip_spec chars fuel l :
  Forall (fun p => p <> []) chars -> (length l <= fuel)%nat ->
  (exists pre, Forall (fun p => p ∈ chars) pre /\ l = concat pre ++ strip chars fuel l) /\
  (forall p rest, p ∈ chars -> strip chars fuel l <> p ++ rest).
Proof.
  intros Hne. revert l. induction fuel as [|fuel IH]; intros l Hl.
  - destruct l; [|simpl in Hl; lia]. simpl. split; [by exists []|]. intros p rest Hp E.
    rewrite Forall_forall in Hne. apply Hne in Hp. by destruct p.
  - cbn [strip]. destruct (strip_char chars l) as [rest|] eqn:E.
    + apply strip_char_Some in E as (p & Hp & ->). pose proof Hp as Hpne.
      rewrite Forall_forall in Hne. apply Hne in Hpne.
      destruct (IH rest) as [(pre & Hpre & Er) Hno].
      { rewrite length_app in Hl. destruct p; [done|]. simpl in Hl. lia. }
      split; [|done]. exists (p :: pre). split; [by constructor|].
      rewrite Er at 1. cbn [concat]. by rewrite app_assoc.
    + split; [by exists []|]. by apply strip_char_None.
Qed.

Lemma white_chars_nonempty : Forall (fun p => p <> []) white_chars.
Proof. apply (bool_decide_unpack _). vm_compute. exact I. Qed.

Lemma reverse_concat (ls : list (list byte)) : reverse (concat ls) = concat (reverse (reverse <$> ls)).
Proof.
  induction ls as [|l ls IH]; [done|]. cbn [concat fmap list_fmap].
  by rewrite reverse_app, reverse_cons, concat_app, IH; cbn [concat]; rewrite app_nil_r.
Qed.

(** Trimming removes whole whitespace characters from both ends and leaves none at the end. *)
Lemma trim_spec l :
  (exists pre post, Forall (fun p => p ∈ white_chars) pre /\ Forall (fun p => p ∈ white_chars) post /\
     l = concat pre ++ trim l ++ concat post) /\
  (forall front p, p ∈ white_chars -> trim l <> front ++ p).
Proof.
  destruct (strip_spec white_chars (length l) l white_chars_nonempty (Nat.le_refl _)) as [(pre & Hpre & El) _].
  destruct (strip_spec (reverse <$> white_chars) (length (trim_start l)) (reverse (trim_start l)))
    as [(post & Hpost & Er) Hno].
  { rewrite Forall_forall. intros p (q & -> & Hq)%list_elem_of_fmap E. pose proof white_chars_nonempty as Hw.
    rewrite Forall_forall in Hw. apply (Hw q Hq). by rewrite <- (reverse_involutive q), E. }
  { by rewrite length_reverse. }
  split.
  - exists pre, (reverse (reverse <$> post)). split; [done|]. split.
    + apply Forall_reverse, Forall_fmap. eapply Forall_impl; [exact Hpost|].
      intros p (q & -> & Hq)%list_elem_of_fmap. simpl. by rewrite reverse_involutive.
    + rewrite El at 1. f_equal. fold (trim_start l). apply (f_equal reverse) in Er.
      rewrite reverse_involutive, reverse_app, reverse_concat in Er. done.
  - intros front p Hp E. unfold trim, trim_end in E. apply (f_equal reverse) in E.
    rewrite reverse_involutive, reverse_app in E. eapply Hno; [|exact E]. by apply list_elem_of_fmap_2.
Qed.

(** ** Lines and character classes *)

(** [slice.split(|b| b == sep)]. *)
Fixpoint split_on (sep : byte) (l : list byte) : list (list byte) :=
  match l with
  | [] => [[]]
  | b :: l' =>
      let parts := split_on sep l' in
      if decide (b = sep) then [] :: parts
      else match parts with [] => [[b]] | first :: rest => (b :: first) :: rest end
  end.

Lemma split_on_line sep line rest :
  sep ∉ line -> split_on sep (line ++ sep :: rest) = line :: split_on sep rest.
Proof.
  induction line as [|b line IH]; intros Hn; [simpl; by rewrite decide_True|].
  apply not_elem_of_cons in Hn as [Hb Hn]. cbn [app split_on]. rewrite IH by done.
  by rewrite decide_False.
Qed.

Definition starts_with (prefix l : list byte) : bool := bool_decide (take (length prefix) l = prefix).
Definition ends_with (suffix l : list byte) : bool :=
  starts_with (reverse suffix) (reverse l).

Definition in_range (lo hi : Z) (b : byte) : bool := bool_decide (lo <= bval b <= hi).
Definition is_ascii_alphanumeric (b : byte) : bool :=
  in_range 48 57 b || in_range 65 90 b || in_range 97 122 b.
Definition is_ascii_hexdigit (b : byte) : bool :=
  in_range 48 57 b || in_range 65 70 b || in_range 97 102 b.
Definition is_ascii_uppercase (b : byte) : bool := in_range 65 90 b.

Lemma starts_with_true p l : starts_with p l = true <-> exists rest, l = p ++ rest.
Proof.
  unfold starts_with. rewrite bool_decide_eq_true. split.
  - intros E. exists (drop (length p) l). by rewrite <- E at 1; rewrite take_drop.
  - intros [rest ->]. apply take_app_length.
Qed.
