(* ===== verification/Config.v ===== *)
(** * Process configuration (crates/tandem-verifier/src/config.rs)

    What a process checks before it starts: the byte contract of the specification, the formats
    of identifiers, and the gate in front of mainnet.  Argument parsing (clap), URLs, socket
    addresses, the file system and the JSON decoder are the operations of [Platform]. *)

From Stdlib Require Import String.
From stdpp Require Import strings.
From S2P Require Import Prelude Types Store Text.

(** [Args]; a path is its text. *)
Record Args := mkArgs {
  arg_network : string;
  arg_init_txid : string;
  arg_spec_path : string;
  arg_spec_sha256 : string;
  arg_database_url : string;
  arg_bitcoin_rpc_url : string;
  arg_bitcoin_rpc_user : string;
  arg_bitcoin_rpc_password : string;
  arg_bind_addr : string;
  arg_signing_key_file : string;
  arg_signing_key_id : string;
  arg_parser_commit : string;
  arg_indexer_commit : string;
  arg_parser_binary_sha256 : string;
  arg_indexer_binary_sha256 : string;
  arg_poll_interval_ms : Z;
  arg_zmq_rawblock_url : option string;
  arg_allow_mainnet : bool;
  arg_mainnet_authorization_file : option string;
  arg_mainnet_authorization_sha256 : option string;
}.

Record MainnetAuthorization := mkAuthorization {
  ma_schema : string;
  ma_protocol_id : string;
  ma_spec_hash : Hash32;
  ma_approved_by : list string;
  ma_approved_at : string;
}.

Class Platform := {
  Url : Type;
  url_parse : string -> option Url;
  url_scheme : Url -> string;
  SocketAddr : Type;
  socket_addr_parse : string -> option SocketAddr;
  read_file : string -> option (list byte);
  authorization_from_slice : list byte -> option MainnetAuthorization;
}.

(** [Config]; the poll interval in milliseconds. *)
Record Config {X : Platform} := mkConfig {
  cf_binding : Binding;
  cf_database_url : string;
  cf_bitcoin_rpc_url : Url;
  cf_bitcoin_rpc_user : string;
  cf_bitcoin_rpc_password : string;
  cf_bind_addr : SocketAddr;
  cf_signing_key_file : string;
  cf_signing_key_id : string;
  cf_parser_commit : string;
  cf_indexer_commit : string;
  cf_parser_binary_sha256 : Hash32;
  cf_indexer_binary_sha256 : Hash32;
  cf_poll_interval : Z;
  cf_zmq_rawblock_url : option string;
}.

Inductive ConfigError :=
| UnknownNetwork | InitLength | InitNotHex | InitZero
| SpecHashFormat | SpecUnreadable | SpecMismatch
| SpecBom | SpecNotUtf8 | SpecCarriageReturn | SpecFinalNewline
| SpecTrailingWhitespace (line : Z)
| DatabaseUrl | RpcUrl | RpcScheme | BindAddr
| KeyIdLength | KeyIdCharacter
| CommitFormat | ParserHash | IndexerHash | PollInterval | Credentials
| MainnetNotAllowed | MainnetNoFile | MainnetNoHash | MainnetHashFormat | MainnetUnreadable
| MainnetMismatch | MainnetJson | MainnetSchema | MainnetProtocol | MainnetSpec
| MainnetApprovers | MainnetTime.

Definition LF : byte := x0a.
Definition CR : byte := x0d.

(** The loop over the lines of the specification, with the index of the next line. *)
Definition ends_blank (line : list byte) : bool :=
  match last line with Some b => bool_decide (b = x20 \/ b = x09) | None => false end.

Fixpoint check_lines (index : Z) (lines : list (list byte)) : res ConfigError unit :=
  match lines with
  | [] => Ok tt
  | line :: rest =>
      if ends_blank line then Err (SpecTrailingWhitespace (index + 1)) else check_lines (index + 1) rest
  end.

Definition verify_spec_bytes (bytes : list byte) : res ConfigError unit :=
  fail_if (starts_with [xef; xbb; xbf] bytes = true) with SpecBom;
  fail_if (valid_utf8 bytes = false) with SpecNotUtf8;
  fail_if (CR ∈ bytes) with SpecCarriageReturn;
  fail_if (last bytes <> Some LF) with SpecFinalNewline;
  fail_if (ends_with [LF; LF] bytes = true) with SpecFinalNewline;
  check_lines 0 (split_on LF bytes).

Definition key_id_byte (b : byte) : bool :=
  is_ascii_alphanumeric b || bool_decide (b ∈ ascii "._:-").

Definition validate_key_id (value : string) : res ConfigError unit :=
  fail_if (~ (1 <= len (ascii value) <= 128)) with KeyIdLength;
  fail_if (forallb key_id_byte (ascii value) = false) with KeyIdCharacter;
  Ok tt.

Definition commit_byte (b : byte) : bool := is_ascii_hexdigit b && negb (is_ascii_uppercase b).

Definition validate_commit (value : string) : res ConfigError unit :=
  fail_if (len (ascii value) <> 40 \/ forallb commit_byte (ascii value) = false) with CommitFormat;
  Ok tt.

Section Config.
Context {P : Primitives} {X : Platform} `{!HexCodec}.

(** The distinct names left after trimming. *)
Definition named_approvers (approved_by : list string) : gset (list byte) :=
  list_to_set (filter (fun n => n <> []) ((fun a => trim (ascii a)) <$> approved_by)).

Definition check_authorization (authorization : MainnetAuthorization) (b : Binding) : res ConfigError unit :=
  fail_if (ma_schema authorization <> "urn:tandem:mainnet-authorization"%string) with MainnetSchema;
  fail_if (ma_protocol_id authorization <> protocol_id b) with MainnetProtocol;
  fail_if (ma_spec_hash authorization <> spec_hash b) with MainnetSpec;
  fail_if (Z.of_nat (size (named_approvers (ma_approved_by authorization))) < 2) with MainnetApprovers;
  fail_if (trim (ascii (ma_approved_at authorization)) = []) with MainnetTime;
  Ok tt.

Definition validate_mainnet_gate (args : Args) (b : Binding) : res ConfigError unit :=
  if decide (network b <> Mainnet) then Ok tt else
  fail_if (arg_allow_mainnet args = false) with MainnetNotAllowed;
  let? path := ok_or MainnetNoFile (arg_mainnet_authorization_file args) in
  let? text := ok_or MainnetNoHash (arg_mainnet_authorization_sha256 args) in
  let? expected := ok_or MainnetHashFormat (from_hex text) in
  let? bytes := ok_or MainnetUnreadable (read_file path) in
  fail_if (sha256 bytes <> expected) with MainnetMismatch;
  let? authorization := ok_or MainnetJson (authorization_from_slice bytes) in
  check_authorization authorization b.

(** [Config::from_args]. *)
Definition from_args (args : Args) : res ConfigError Config :=
  let? net := ok_or UnknownNetwork (network_from_str (arg_network args)) in
  fail_if (len (ascii (arg_init_txid args)) <> 64) with InitLength;
  let? init := ok_or InitNotHex (wire_hash (arg_init_txid args)) in
  fail_if (is_zero init = true) with InitZero;
  let? expected := ok_or SpecHashFormat (from_hex (arg_spec_sha256 args)) in
  let? spec := ok_or SpecUnreadable (read_file (arg_spec_path args)) in
  let? _ := verify_spec_bytes spec in
  let actual := sha256 spec in
  fail_if (actual <> expected) with SpecMismatch;
  fail_if (starts_with (ascii "postgres://") (ascii (arg_database_url args)) = false /\
           starts_with (ascii "postgresql://") (ascii (arg_database_url args)) = false) with DatabaseUrl;
  let? url := ok_or RpcUrl (url_parse (arg_bitcoin_rpc_url args)) in
  fail_if (url_scheme url <> "http"%string /\ url_scheme url <> "https"%string) with RpcScheme;
  let? addr := ok_or BindAddr (socket_addr_parse (arg_bind_addr args)) in
  let? _ := validate_key_id (arg_signing_key_id args) in
  let? _ := validate_commit (arg_parser_commit args) in
  let? _ := validate_commit (arg_indexer_commit args) in
  let? parser_hash := ok_or ParserHash (from_hex (arg_parser_binary_sha256 args)) in
  let? indexer_hash := ok_or IndexerHash (from_hex (arg_indexer_binary_sha256 args)) in
  fail_if (arg_poll_interval_ms args < 250) with PollInterval;
  fail_if (arg_bitcoin_rpc_user args = EmptyString \/ arg_bitcoin_rpc_password args = EmptyString)
    with Credentials;
  let b := mkBinding net init actual in
  let? _ := validate_mainnet_gate args b in
  Ok (mkConfig X b (arg_database_url args) url (arg_bitcoin_rpc_user args) (arg_bitcoin_rpc_password args)
        addr (arg_signing_key_file args) (arg_signing_key_id args) (arg_parser_commit args)
        (arg_indexer_commit args) parser_hash indexer_hash (arg_poll_interval_ms args)
        (arg_zmq_rawblock_url args)).

(** [Config::release_identity]. *)
Definition release_identity (c : Config) : ReleaseIdentity :=
  mkRelease (cf_parser_commit c) (cf_indexer_commit c) (cf_parser_binary_sha256 c)
    (cf_indexer_binary_sha256 c).
End Config.
