(* ===== verification/ConfigFacts.v ===== *)
(** * What a configuration that loads satisfies

    The byte contract of the specification as a statement about its lines, the mainnet gate as a
    condition on the authorization, and the invariant of every configuration the process starts
    with. *)

From Stdlib Require Import String.
From stdpp Require Import strings.
From S2P Require Import Prelude Types Store Text Config.

(** ** Lines *)

Definition unlines (lines : list (list byte)) : list byte := concat ((fun l => l ++ [LF]) <$> lines).

Lemma unlines_app l1 l2 : unlines (l1 ++ l2) = unlines l1 ++ unlines l2.
Proof. unfold unlines. by rewrite fmap_app, concat_app. Qed.

Lemma unlines_cons line lines : unlines (line :: lines) = line ++ LF :: unlines lines.
Proof. unfold unlines. cbn [fmap list_fmap concat]. by rewrite <- app_assoc. Qed.

Lemma split_unlines lines rest :
  Forall (fun l => LF ∉ l) lines -> LF ∉ rest -> split_on LF (unlines lines ++ rest) = lines ++ [rest].
Proof.
  intros Hl Hr. induction Hl as [|line lines Hline _ IH].
  - cbn [unlines fmap list_fmap concat app]. induction rest as [|b rest IHr]; [done|].
    apply not_elem_of_cons in Hr as [Hb Hr]. cbn [split_on]. rewrite IHr by done. by rewrite decide_False by done.
  - rewrite unlines_cons, <- app_assoc. cbn [app]. by rewrite split_on_line, IH.
Qed.

Lemma unlines_exists l :
  exists lines rest, l = unlines lines ++ rest /\ Forall (fun l => LF ∉ l) lines /\ (LF ∉ rest).
Proof.
  induction l as [|b l (lines & rest & -> & Hl & Hr)]; [exists [], []; split_and!; [done..|apply not_elem_of_nil]|].
  destruct (decide (b = LF)) as [->|Hb].
  - exists ([] :: lines), rest. split_and!; [done| |done]. constructor; [apply not_elem_of_nil|done].
  - destruct Hl as [|line lines Hline Hl].
    + exists [], (b :: rest). split_and!; [done..|]. by apply not_elem_of_cons.
    + exists ((b :: line) :: lines), rest. split_and!; [done| |done]. constructor; [|done].
      by apply not_elem_of_cons.
Qed.

Lemma ends_with_true p l : ends_with p l = true <-> exists front, l = front ++ p.
Proof.
  unfold ends_with. rewrite starts_with_true. split.
  - intros [rest E]. exists (reverse rest). apply (f_equal reverse) in E.
    by rewrite reverse_app, !reverse_involutive in E.
  - intros [front ->]. exists (reverse front). by rewrite reverse_app.
Qed.

Lemma check_lines_Ok i lines u :
  check_lines i lines = Ok u <-> Forall (fun l => ends_blank l = false) lines.
Proof.
  destruct u. revert i. induction lines as [|line lines IH]; intros i; cbn [check_lines]; [by split|].
  rewrite Forall_cons, <- (IH (i + 1)). destruct (ends_blank line); naive_solver.
Qed.

(** ** The specification *)

Definition line_ok (line : list byte) : Prop := (LF ∉ line) /\ (CR ∉ line) /\ ends_blank line = false.

(** A UTF-8 text without a byte order mark whose lines end in LF and not in a blank, the last one
    not empty unless it is the only one. *)
Definition spec_text (bytes : list byte) : Prop :=
  starts_with [xef; xbb; xbf] bytes = false /\ utf8_text bytes /\
  exists init final, bytes = unlines (init ++ [final]) /\ Forall line_ok (init ++ [final]) /\
    (final = [] -> init = []).

Lemma unlines_no_cr lines : CR ∉ unlines lines <-> Forall (fun l => CR ∉ l) lines.
Proof.
  induction lines as [|line lines IH]; [split; [constructor|intros _; apply not_elem_of_nil]|].
  rewrite unlines_cons, not_elem_of_app, not_elem_of_cons, IH, Forall_cons.
  split; [naive_solver|]. intros [? ?]. by split_and!.
Qed.

Lemma unlines_last init final : unlines (init ++ [final]) = (unlines init ++ final) ++ [LF].
Proof. by rewrite unlines_app, unlines_cons, <- app_assoc. Qed.

Lemma double_lf init final :
  LF ∉ final -> ends_with [LF; LF] (unlines (init ++ [final])) = true <-> final = [] /\ init <> [].
Proof.
  intros Hf. rewrite ends_with_true, unlines_last. split.
  - intros [front E]. change [LF; LF] with ([LF] ++ [LF]) in E. rewrite app_assoc in E.
    apply app_inj_tail in E as [E _]. destruct final as [|b final _] using rev_ind.
    + split; [done|]. intros ->. rewrite app_nil_r in E. by destruct front.
    + rewrite app_assoc in E. apply app_inj_tail in E as [_ ->]. destruct Hf.
      apply elem_of_app. right. apply list_elem_of_here.
  - intros [-> Hne]. destruct init as [|line init _] using rev_ind; [done|].
    exists (unlines init ++ line). rewrite unlines_last, app_nil_r. by rewrite <- !app_assoc.
Qed.

Lemma verify_spec_iff bytes : verify_spec_bytes bytes = Ok tt <-> spec_text bytes.
Proof.
  unfold verify_spec_bytes, spec_text. rewrite !fail_if_Ok, check_lines_Ok, <- valid_utf8_iff.
  destruct (unlines_exists bytes) as (lines & rest & E & Hl & Hr). split.
  - intros (Hb & Hu & Hcr & Hlast & Hdouble & Hblank). split; [by apply not_true_is_false|].
    split; [by apply not_false_is_true|]. apply dec_stable in Hlast.
    assert (rest = []) as ->.
    { destruct rest as [|b rest _] using rev_ind; [done|]. rewrite E, app_assoc, last_snoc in Hlast.
      injection Hlast as ->. destruct Hr. apply elem_of_app. right. apply list_elem_of_here. }
    rewrite app_nil_r in E. destruct lines as [|final init _] using rev_ind; [by rewrite E in Hlast|].
    exists init, final. split; [done|]. assert (Hf : LF ∉ final) by (apply Forall_app in Hl as [_ Hl2]; by apply Forall_cons in Hl2 as [Hl3 _]).
    rewrite E in Hdouble, Hcr, Hblank. rewrite double_lf in Hdouble by done. split.
    + rewrite <- (app_nil_r (unlines _)), split_unlines in Hblank by done.
      apply Forall_app in Hblank as [Hblank _]. apply unlines_no_cr in Hcr.
      rewrite Forall_forall in Hl, Hcr, Hblank |- *. intros line Hin. unfold line_ok. auto.
    + intros ->. destruct init; [done|]. by destruct Hdouble.
  - intros (Hb & Hu & init & final & -> & Hok & Hfin). rewrite Hb, Hu.
    assert (Hl' : Forall (fun l => LF ∉ l) (init ++ [final])) by (eapply Forall_impl; [done|by intros l0 (Hx & _)]).
    assert (Hf : LF ∉ final) by (apply Forall_app in Hl' as [_ Hl2]; by apply Forall_cons in Hl2 as [Hl3 _]).
    split; [done|]. split; [done|]. split_and!.
    + apply unlines_no_cr. eapply Forall_impl; [exact Hok|]. by intros l0 (_ & Hx & _).
    + rewrite unlines_last, last_snoc. by intros Hn.
    + rewrite double_lf by done. naive_solver.
    + rewrite <- (app_nil_r (unlines _)), split_unlines by (done || apply not_elem_of_nil).
      apply Forall_app. split; [|by constructor]. eapply Forall_impl; [exact Hok|]. by intros l0 (_ & _ & Hx).
Qed.

(** The specification check accepts exactly the UTF-8 texts without a byte order mark whose
    lines end in a single LF, contain no CR, have no trailing blank, and whose last line is not
    empty (a single empty line apart): there is one byte sequence for one such text, so that the
    specification hash is the hash of a text. *)
Lemma spec_bytes_exact bytes : verify_spec_bytes bytes = Ok tt <-> spec_text bytes.
Proof. apply verify_spec_iff. Qed.

(** ** Identifiers *)

Lemma ascii_length s : length (ascii s) = String.length s.
Proof.
  unfold ascii, String.list_byte_of_string. rewrite length_map.
  induction s as [|c s IH]; [done|]. simpl. by rewrite IH.
Qed.

(** The check of the process and the column check of the database agree. *)
Lemma commit_byte_hex c : commit_byte (Ascii.byte_of_ascii c) = is_lower_hex c.
Proof. by destruct c as [[] [] [] [] [] [] [] []]; vm_compute. Qed.

Lemma validate_commit_Ok s : validate_commit s = Ok tt <-> is_commit s = true.
Proof.
  unfold validate_commit, is_commit. rewrite fail_if_Ok, andb_true_iff, Nat.eqb_eq.
  assert (Eall : forallb commit_byte (ascii s) = forallb is_lower_hex (list_ascii_of_string s)).
  { unfold ascii, String.list_byte_of_string. induction s as [|c s IH]; [done|].
    cbn [list_ascii_of_string List.map forallb]. by rewrite IH, commit_byte_hex. }
  rewrite Eall. unfold len. rewrite ascii_length.
  destruct (forallb is_lower_hex _); split; intros Hs; destruct Hs; split; try done; try lia.
Qed.

Section ConfigFacts.
Context {P : Primitives} {X : Platform} `{!HexCodec}.

(** ** The mainnet gate *)

Lemma two_distinct {A} `{Countable A} (s : gset A) :
  (2 <= size s)%nat <-> exists x y, x ∈ s /\ y ∈ s /\ x <> y.
Proof.
  split.
  - intros Hs. destruct (set_choose_or_empty s) as [[x Hx]|E].
    2: { rewrite E, size_empty in Hs. lia. }
    destruct (set_choose_or_empty (s ∖ {[x]})) as [[y Hy]|E].
    + exists x, y. set_solver.
    + pose proof (size_union_alt {[x]} s) as Hu. rewrite E, size_empty, size_singleton in Hu.
      assert (Eu : {[x]} ∪ s ≡ s) by set_solver. rewrite Eu in Hu. lia.
  - intros (x & y & Hx & Hy & Hne). transitivity (size ({[x; y]} : gset A)).
    + by rewrite size_union, !size_singleton by set_solver.
    + apply subseteq_size. set_solver.
Qed.

(** A name that remains after trimming. *)
Definition names (n : list byte) (approved_by : list string) : Prop :=
  n <> [] /\ exists a, a ∈ approved_by /\ n = trim (ascii a).

Definition mainnet_authorised (args : Args) (b : Binding) : Prop :=
  exists path text bytes authorization,
    arg_allow_mainnet args = true /\ arg_mainnet_authorization_file args = Some path /\
    arg_mainnet_authorization_sha256 args = Some text /\ from_hex text = Some (sha256 bytes) /\
    read_file path = Some bytes /\ authorization_from_slice bytes = Some authorization /\
    ma_schema authorization = "urn:tandem:mainnet-authorization"%string /\
    ma_protocol_id authorization = protocol_id b /\ ma_spec_hash authorization = spec_hash b /\
    (exists n1 n2, names n1 (ma_approved_by authorization) /\ names n2 (ma_approved_by authorization) /\
       n1 <> n2) /\
    trim (ascii (ma_approved_at authorization)) <> [].

Lemma named_approvers_elem n l : n ∈ named_approvers l <-> names n l.
Proof.
  unfold named_approvers, names. rewrite elem_of_list_to_set, list_elem_of_filter, list_elem_of_fmap.
  naive_solver.
Qed.

Lemma check_authorization_Ok m b :
  check_authorization m b = Ok tt <->
  ma_schema m = "urn:tandem:mainnet-authorization"%string /\ ma_protocol_id m = protocol_id b /\
  ma_spec_hash m = spec_hash b /\
  (exists n1 n2, names n1 (ma_approved_by m) /\ names n2 (ma_approved_by m) /\ n1 <> n2) /\
  trim (ascii (ma_approved_at m)) <> [].
Proof.
  unfold check_authorization. rewrite !fail_if_Ok.
  setoid_rewrite <- named_approvers_elem. rewrite <- two_distinct.
  split.
  - intros (H1%dec_stable & H2%dec_stable & H3%dec_stable & H4 & H5 & _). split_and!; [done..|lia|done].
  - intros (H1 & H2 & H3 & H4 & H5). split_and!; [by intros Hn..|lia|done|done].
Qed.

Lemma mainnet_gate_iff args b :
  validate_mainnet_gate args b = Ok tt <-> (network b = Mainnet -> mainnet_authorised args b).
Proof.
  unfold validate_mainnet_gate, mainnet_authorised. case_decide as Hn; [by split|].
  split.
  - intros Hg _. res_inv. apply check_authorization_Ok in Hg as (? & ? & ? & ? & ?).
    match goal with Hd : ¬ (_ <> _) |- _ => apply dec_stable in Hd; subst end.
    match goal with Hd : ¬ (_ = false) |- _ => apply not_false_is_true in Hd end.
    do 4 eexists. split_and!; done.
  - intros Ha. destruct (Ha Hn) as (path & text & bytes & m & -> & -> & -> & Hh & Hr & Hj & Hrest).
    cbn [ok_or rbind]. rewrite decide_False by done. rewrite Hh. cbn [ok_or rbind]. rewrite Hr. cbn [ok_or rbind].
    rewrite decide_False by (intros Hne; by apply Hne). rewrite Hj. cbn [ok_or rbind].
    by apply check_authorization_Ok.
Qed.

(** ** The configuration *)

(** What every part of the service may rely on. *)
Record config_wf (args : Args) (c : Config) : Prop := {
  cw_network : network_label (network (cf_binding c)) = arg_network args;
  cw_init : is_zero (init_txid (cf_binding c)) = false /\
    wire_hash (arg_init_txid args) = Some (init_txid (cf_binding c)) ;
  cw_spec : exists bytes, read_file (arg_spec_path args) = Some bytes /\ spec_text bytes /\
    spec_hash (cf_binding c) = sha256 bytes /\ from_hex (arg_spec_sha256 args) = Some (sha256 bytes);
  cw_release : release_ok (release_identity c) = true;
  cw_key_id : 1 <= len (ascii (cf_signing_key_id c)) <= 128 /\
    forallb key_id_byte (ascii (cf_signing_key_id c)) = true;
  cw_poll : 250 <= cf_poll_interval c;
  cw_credentials : cf_bitcoin_rpc_user c <> EmptyString /\ cf_bitcoin_rpc_password c <> EmptyString;
  cw_scheme : url_scheme (cf_bitcoin_rpc_url c) = "http"%string \/
    url_scheme (cf_bitcoin_rpc_url c) = "https"%string;
  cw_mainnet : network (cf_binding c) = Mainnet -> mainnet_authorised args (cf_binding c);
}.

Lemma network_from_str_label s n : network_from_str s = Some n -> network_label n = s.
Proof. unfold network_from_str. intros Hs. by repeat (case_decide; [simplify_eq/=; done|]). Qed.

Lemma validate_key_id_Ok s u :
  validate_key_id s = Ok u -> 1 <= len (ascii s) <= 128 /\ forallb key_id_byte (ascii s) = true.
Proof.
  unfold validate_key_id. rewrite !fail_if_Ok. intros (H1 & H2%not_false_is_true & _).
  split; [|done]. lia.
Qed.

Lemma from_args_config_wf args c : from_args args = Ok c -> config_wf args c.
Proof.
  unfold from_args. intros Hc. res_inv.
  repeat match goal with Hd : ¬ (_ <> _) |- _ => apply dec_stable in Hd end. subst.
  match goal with Hs : verify_spec_bytes _ = Ok ?u |- _ => destruct u; apply verify_spec_iff in Hs end.
  repeat match goal with Hs : validate_commit _ = Ok ?u |- _ => destruct u; apply validate_commit_Ok in Hs end.
  match goal with Hs : validate_key_id _ = Ok _ |- _ => apply validate_key_id_Ok in Hs end.
  match goal with Hs : validate_mainnet_gate _ _ = Ok ?u |- _ =>
    destruct u; pose proof (proj1 (mainnet_gate_iff _ _) Hs) as Hgate end.
  split; cbn; try done.
  - by apply network_from_str_label.
  - split; [by apply not_true_is_false|done].
  - eauto.
  - unfold release_ok. cbn. by apply andb_true_iff.
  - lia.
  - tauto.
  - match goal with Hd : ¬ (?x <> "http"%string /\ _) |- _ =>
      destruct (decide (x = "http"%string)); [by left|right]; by apply dec_stable; intros ?; apply Hd end.
Qed.

(** C27: every configuration that loads is well formed: the network is the one named, the INIT
    txid is the one given and not zero, the specification hash is the digest of a file that meets
    the byte contract, the release identity passes the column checks of the database, the key
    id, poll interval and credentials are in range, and mainnet was authorised. *)
Theorem from_args_wf args c : from_args args = Ok c -> config_wf args c.
Proof. apply from_args_config_wf. Qed.
End ConfigFacts.
