(* ===== verification/Signer.v ===== *)
(** * Agreement tuples and their signatures (crates/tandem-verifier/src/signer.rs)

    The text tuple that independent indexers compare, and the envelope around it.  The JCS
    serializer and Ed25519 are third-party crates and are the operations of [AgreementCrypto];
    what is used of them is that a signature verifies under its own key. *)

From Stdlib Require Import String.
From stdpp Require Import strings pretty.
From S2P Require Import Prelude Types Marker Roots Reducer Store Text.

(** [u64::to_string]. *)
Definition decimal (z : Z) : string := pretty z.

Record AgreementTuple := mkTuple {
  at_schema : string;
  at_protocol_id : string;
  at_height : string;
  at_block_hash : string;
  at_event_root : string;
  at_object_state_root : string;
  at_chained_root : string;
  at_founding_created : string;
  at_all_objects : string;
  at_active_objects : string;
  at_parser_commit : string;
  at_indexer_commit : string;
  at_parser_binary_sha256 : string;
  at_indexer_binary_sha256 : string;
}.

Record AgreementEnvelope := mkEnvelope {
  ae_schema : string;
  ae_key_id : string;
  ae_tuple : AgreementTuple;
  ae_signature : string;
}.

Class AgreementCrypto := {
  jcs_to_vec : AgreementTuple -> option (list byte);
  SigningKey : Type;
  VerifyingKey : Type;
  signing_key_from_bytes : arr 32 -> SigningKey;
  verifying_key : SigningKey -> VerifyingKey;
  verifying_key_to_bytes : VerifyingKey -> list byte;
  ed25519_sign : SigningKey -> list byte -> arr 64;
  ed25519_verify : VerifyingKey -> list byte -> arr 64 -> bool;
  ed25519_correct : forall k m, ed25519_verify (verifying_key k) m (ed25519_sign k m) = true;
}.

Inductive SignError :=
| KeyUnreadable
| SeedLength
| SeedNotHex
| CannotCanonicalize
| SignatureNotHex
| SignatureLength
| SignatureRejected.

Section Signer.
Context `{!HexCodec}.

(** [AgreementTuple::from_roots]. *)
Definition from_roots (id : string) (roots : HeightRoots) (release : ReleaseIdentity) : AgreementTuple := {|
  at_schema := "urn:tandem:agreement-tuple";
  at_protocol_id := id;
  at_height := decimal (hr_height roots);
  at_block_hash := display_hash (hr_block_hash roots);
  at_event_root := to_hex (hr_event_root roots);
  at_object_state_root := to_hex (hr_object_state_root roots);
  at_chained_root := to_hex (hr_chained_root roots);
  at_founding_created := decimal (founding_created (hr_counters roots));
  at_all_objects := decimal (all_objects (hr_counters roots));
  at_active_objects := decimal (active_objects (hr_counters roots));
  at_parser_commit := parser_commit release;
  at_indexer_commit := indexer_commit release;
  at_parser_binary_sha256 := to_hex (parser_binary_sha256 release);
  at_indexer_binary_sha256 := to_hex (indexer_binary_sha256 release);
|}.

(** The text of a tuple loses nothing: two heights with the same tuple have the same
    deployment, height, block, roots, counters and release. *)
Lemma from_roots_injective id1 id2 r1 r2 rel1 rel2 :
  from_roots id1 r1 rel1 = from_roots id2 r2 rel2 -> id1 = id2 /\ r1 = r2 /\ rel1 = rel2.
Proof.
  unfold decimal. intros E. injection E as -> Eh Eb Ee Eo Ec Ef Ea Eac Ep Ei Epb Eib.
  apply (inj pretty) in Eh, Ef, Ea, Eac. apply display_hash_inj in Eb.
  apply to_hex_inj in Ee, Eo, Ec, Epb, Eib.
  destruct r1 as [h1 b1 e1 o1 c1 [f1 al1 ac1]], r2 as [h2 b2 e2 o2 c2 [f2 al2 ac2]], rel1, rel2.
  simpl in *. by subst.
Qed.

Context `{!AgreementCrypto}.

Record AgreementSigner := mkSigner {
  sg_key_id : string;
  signing_key : SigningKey;
}.

(** [AgreementSigner::load], with the content of the file. *)
Definition load (content : option (list byte)) (key_id : string) : res SignError AgreementSigner :=
  let? text := ok_or KeyUnreadable (b ← content; if valid_utf8 b then Some b else None) in
  let trimmed := trim text in
  fail_if (len trimmed <> 64) with SeedLength;
  let? seed := ok_or SeedNotHex (l ← hex_decode (String.string_of_list_byte trimmed); arr_of 32 l) in
  Ok (mkSigner key_id (signing_key_from_bytes seed)).

(** [AgreementSigner::public_key_hex]. *)
Definition public_key_hex (signer : AgreementSigner) : string :=
  hex_encode (verifying_key_to_bytes (verifying_key (signing_key signer))).

(** A seed file is 64 hexadecimal characters between whitespace. *)
Lemma load_Ok content key_id signer :
  load content key_id = Ok signer ->
  exists pre text post seed, content = Some (concat pre ++ text ++ concat post) /\
    Forall (fun p => p ∈ white_chars) pre /\ Forall (fun p => p ∈ white_chars) post /\
    len text = 64 /\ hex_decode (String.string_of_list_byte text) = Some (arr_bytes seed) /\
    signer = mkSigner key_id (signing_key_from_bytes seed).
Proof.
  unfold load. intros (text & Hc%ok_or_Ok & Hl)%rbind_Ok. apply fail_if_Ok in Hl as [Hlen%dec_stable Hl].
  apply rbind_Ok in Hl as (seed & Hs%ok_or_Ok & [= <-]).
  apply bind_Some in Hc as (b & -> & Hb). destruct (valid_utf8 b); [|done]. injection Hb as ->.
  apply bind_Some in Hs as (l & Hd & Ha%arr_of_Some). destruct (trim_spec text) as [(pre & post & H1 & H2 & E) _].
  exists pre, (trim text), post, seed. rewrite <- E, Ha. done.
Qed.

(** [AgreementTuple::canonical_bytes]. *)
Definition canonical_bytes (t : AgreementTuple) : res SignError (list byte) :=
  ok_or CannotCanonicalize (jcs_to_vec t).

(** [AgreementSigner::sign]. *)
Definition sign (signer : AgreementSigner) (t : AgreementTuple) : res SignError AgreementEnvelope :=
  let? bytes := canonical_bytes t in
  Ok (mkEnvelope "urn:tandem:agreement-envelope" (sg_key_id signer) t
        (hex_encode (arr_bytes (ed25519_sign (signing_key signer) bytes)))).

(** [AgreementSigner::verify]. *)
Definition verify (envelope : AgreementEnvelope) (public_key : VerifyingKey) : res SignError unit :=
  let? bytes := canonical_bytes (ae_tuple envelope) in
  let? raw := ok_or SignatureNotHex (hex_decode (ae_signature envelope)) in
  let? signature := ok_or SignatureLength (arr_of 64 raw) in
  if ed25519_verify public_key bytes signature then Ok tt else Err SignatureRejected.

Lemma sign_verifies signer t envelope :
  sign signer t = Ok envelope ->
  verify envelope (verifying_key (signing_key signer)) = Ok tt /\ ae_tuple envelope = t /\
  ae_key_id envelope = sg_key_id signer.
Proof.
  unfold sign, verify. intros (bytes & Hb & [= <-])%rbind_Ok. cbn. split; [|done].
  rewrite Hb. cbn. rewrite hex_decode_encode. cbn. rewrite arr_of_bytes. cbn. by rewrite ed25519_correct.
Qed.
End Signer.
