(* ===== verification/Api.v ===== *)
(** * The read API (crates/tandem-verifier/src/api.rs)

    The handlers that do more than forward a query: readiness, the object, carrier and event
    lookups, and the agreement endpoint with its gates.  A handler's reads of the database happen
    one after the other while the worker may commit between them, so each read has its own
    database and its own fate. *)

From Stdlib Require Import String.
From stdpp Require Import strings.
From S2P Require Import Prelude Types Marker Roots Reducer Validators Steps Invariant Chain Reach EventLog Store StoreInv Commit Queries Ingest IngestInv Signer.

(** [ApiError], by its status code. *)
Inductive ApiError := BadRequest | NotFound | ConflictError | ServiceUnavailable | InternalError.

(** The entries of [failures] in [readiness]. *)
Inductive Failure :=
| PostgresUnavailable
| CoreGateFailed
| CoreUnavailable
| InitNotCanonical
| InitFailed (r : Reason)
| StateUnavailable
| CatchingUp
| PassFailed
| BehindCore.

Section Api.
Context {JV : Type} {P : Primitives} `{!HexCodec, !AgreementCrypto}.
Context `{!Json JV Binding, !Json JV ChainState, !Json JV BlockDelta, !Json JV Event,
          !Json JV ObjectState, !Json JV TxView}.

(** What one request meets: the worker's health, the node, and the database at its [n]-th read. *)
Record ApiState := mkApi {
  api_binding : Binding;
  api_signer : AgreementSigner;
  api_health : WorkerHealth;
  api_source : BlockSource;
  api_db : nat -> Db JV;
  api_io : nat -> Io;
}.

Definition internal {E A} (r : res E A) : res ApiError A :=
  match r with Ok a => Ok a | Err _ => Err InternalError | Panic => Panic end.

(** A read that is not a transaction. *)
Definition read {A} (st : ApiState) (n : nat) (f : Db JV -> res StoreError A) : res StoreError A :=
  match api_io st n with IoOk => f (api_db st n) | _ => Err DbFailure end.

Definition parse_hash (value : string) : res ApiError Hash32 := ok_or BadRequest (from_hex value).

(** [object] and [carrier]. *)
Definition api_object (st : ApiState) (key : string) : res ApiError JV :=
  let? k := parse_hash key in
  let? v := internal (read st 0 (fun db => Ok (query_object db k))) in
  ok_or NotFound v.

Definition api_carrier (st : ApiState) (txid : string) (vout : Z) : res ApiError JV :=
  let? wire := ok_or BadRequest (wire_hash txid) in
  let? v := internal (read st 0 (fun db => Ok (query_carrier db wire vout))) in
  ok_or NotFound v.

(** [events]. *)
Definition api_events (st : ApiState) (height : option Z) (key : option string) : res ApiError (list JV) :=
  let? k := match key with
            | Some value => let? h := parse_hash value in Ok (Some h)
            | None => Ok None
            end in
  internal (read st 0 (fun db => query_events db height k)).

Definition is_active (s : ChainState) : bool :=
  match protocol_status s with PActive _ _ _ => true | _ => false end.

Definition worker_busy (h : WorkerHealth) : bool :=
  catching_up h || match last_error h with Some _ => true | None => false end.

(** [agreement]. *)
Definition api_agreement (st : ApiState) (height : Z) : res ApiError AgreementEnvelope :=
  fail_if (worker_busy (api_health st) = true) with ServiceUnavailable;
  let? status := internal (src_status (api_source st)) in
  fail_if (ready_for status (network (api_binding st)) = false) with ServiceUnavailable;
  let? chain_state := internal (load_state (api_io st 0) (api_db st 0)).2 in
  fail_if (is_active chain_state = false \/ tip_height chain_state <> Some (cs_blocks status)
           \/ height > cs_blocks status) with ServiceUnavailable;
  let? found := internal (read st 1 (fun db => roots_at db height)) in
  let? persisted := ok_or NotFound found in
  let? canonical_hash := internal (src_block_hash (api_source st) height) in
  fail_if (canonical_hash <> hr_block_hash persisted.1) with ConflictError;
  internal (sign (api_signer st) (from_roots (protocol_id (api_binding st)) persisted.1 persisted.2)).

(** [readiness]: the list of failures; the service is ready when there are none. *)
Definition core_failures (st : ApiState) : res ApiError (list Failure * option CoreStatus) :=
  match src_status (api_source st) with
  | Ok status =>
      Ok (if ready_for status (network (api_binding st)) then [] else [CoreGateFailed], Some status)
  | Err _ => Ok ([CoreUnavailable], None)
  | Panic => Panic
  end.

Definition state_failures (st : ApiState) : res ApiError (list Failure * option ChainState) :=
  match (load_state (api_io st 1) (api_db st 1)).2 with
  | Ok s =>
      Ok (match protocol_status s with
          | AwaitingInit => [InitNotCanonical]
          | FailedInit reason _ => [InitFailed reason]
          | PActive _ _ _ => []
          end, Some s)
  | Err _ => Ok ([StateUnavailable], None)
  | Panic => Panic
  end.

Definition lag_failures (core : option CoreStatus) (s : option ChainState) : list Failure :=
  match core, s with
  | Some status, Some s => if decide (tip_height s <> Some (cs_blocks status)) then [BehindCore] else []
  | _, _ => []
  end.

Definition api_readiness (st : ApiState) : res ApiError (list Failure) :=
  let pg := match api_io st 0 with IoOk => [] | _ => [PostgresUnavailable] end in
  let? core := core_failures st in
  let? state := state_failures st in
  let h := api_health st in
  Ok (pg ++ core.1 ++ state.1 ++ (if catching_up h then [CatchingUp] else [])
     ++ (match last_error h with Some _ => [PassFailed] | None => [] end) ++ lag_failures core.2 state.2).

(** ** Theorems *)

Lemma internal_Ok {E A} (r : res E A) a : internal r = Ok a <-> r = Ok a.
Proof. destruct r; naive_solver. Qed.

Lemma read_Ok {A} st n (f : Db JV -> res StoreError A) a :
  read st n f = Ok a <-> api_io st n = IoOk /\ f (api_db st n) = Ok a.
Proof. unfold read. destruct (api_io st n); naive_solver. Qed.

(** What a signed envelope means. *)
Lemma agreement_signed st height envelope b chain0 s0 chain1 s1 :
  api_binding st = b -> db_ok b chain0 (api_db st 0) s0 -> db_ok b chain1 (api_db st 1) s1 ->
  api_agreement st height = Ok envelope ->
  (worker_busy (api_health st) = false /\ is_active s0 = true /\
   exists status, src_status (api_source st) = Ok status /\ ready_for status (network b) = true /\
     blk_height <$> head chain0 = Some (cs_blocks status) /\ height <= cs_blocks status) /\
  verify envelope (verifying_key (signing_key (api_signer st))) = Ok tt /\
  exists ds d release, connect_all (reverse chain1) (new_state b) = (s1, Ok ds) /\ d ∈ ds /\
    bd_height d = height /\ src_block_hash (api_source st) height = Ok (hr_block_hash (bd_roots d)) /\
    ae_tuple envelope = from_roots (protocol_id b) (bd_roots d) release.
Proof.
  intros <- Hdb0 Hdb1. unfold api_agreement. rewrite fail_if_Ok. intros [Hbusy Ha].
  apply rbind_Ok in Ha as (status & Es & Ha). rewrite internal_Ok in Es. rewrite fail_if_Ok in Ha.
  destruct Ha as [Hready Ha]. apply rbind_Ok in Ha as (s & El & Ha). rewrite internal_Ok in El.
  destruct (load_state_Some _ _ _ _ _ _ Hdb0 El) as [[= ->]|[e ?]]; [|done].
  rewrite fail_if_Ok in Ha. destruct Ha as [Hgate Ha].
  apply rbind_Ok in Ha as (found & Ef & Ha). rewrite internal_Ok, read_Ok in Ef. destruct Ef as [_ Ef].
  apply rbind_Ok in Ha as ([roots release] & Ep & Ha). rewrite ok_or_Ok in Ep. subst found.
  apply rbind_Ok in Ha as (hash & Eh & Ha). rewrite internal_Ok in Eh. rewrite fail_if_Ok in Ha. destruct Ha as [Hhash Ha].
  rewrite internal_Ok in Ha. apply sign_verifies in Ha as (Hv & Et & _).
  destruct (roots_replay _ _ _ _ Hdb1) as (ds & Hc & Hroots).
  destruct (proj1 (Hroots height roots)) as (d & Hd & Ebh & Er); [by exists release|].
  pose proof (journal_tip_height _ _ _ _ _ (dk_journal _ _ _ _ Hdb0)) as (Eth & _).
  split_and!.
  - by apply not_true_is_false.
  - destruct (is_active s0); [done|]. destruct Hgate. by left.
  - exists status. split_and!; [done|by apply not_false_is_true| |].
    + rewrite <- Eth. apply dec_stable. intros Hn. apply Hgate. by right; left.
    + apply Z.le_ngt. intros Hn. apply Hgate. right; right. lia.
  - exact Hv.
  - exists ds, d, release. split_and!; [done..| |].
    + rewrite Eh, Er. f_equal. by apply dec_stable.
    + by rewrite Et, Er.
Qed.

(** C25: a signature is issued only for a root tuple that the replay of the stored chain computes
    at the requested height, whose block the node confirms at that height, while the worker is
    idle and the stored tip is the node's; and it verifies under the signer's public key. *)
Theorem agreement_sound st height envelope b chain0 s0 chain1 s1 :
  api_binding st = b -> db_ok b chain0 (api_db st 0) s0 -> db_ok b chain1 (api_db st 1) s1 ->
  api_agreement st height = Ok envelope ->
  (worker_busy (api_health st) = false /\ is_active s0 = true /\
   exists status, src_status (api_source st) = Ok status /\ ready_for status (network b) = true /\
     blk_height <$> head chain0 = Some (cs_blocks status) /\ height <= cs_blocks status) /\
  verify envelope (verifying_key (signing_key (api_signer st))) = Ok tt /\
  exists ds d release, connect_all (reverse chain1) (new_state b) = (s1, Ok ds) /\ d ∈ ds /\
    bd_height d = height /\ src_block_hash (api_source st) height = Ok (hr_block_hash (bd_roots d)) /\
    ae_tuple envelope = from_roots (protocol_id b) (bd_roots d) release.
Proof. apply agreement_signed. Qed.

(** When the probe passes. *)
Lemma readiness_iff st b chain s :
  api_binding st = b -> db_ok b chain (api_db st 1) s ->
  api_readiness st = Ok [] <->
  api_io st 0 = IoOk /\ api_io st 1 = IoOk /\
  (exists status, src_status (api_source st) = Ok status /\ ready_for status (network b) = true /\
     tip_height s = Some (cs_blocks status)) /\
  is_active s = true /\ worker_busy (api_health st) = false.
Proof.
  intros <- Hdb. pose proof (load_state_stored _ _ _ _ Hdb) as Hl.
  pose proof (load_state_Some _ (api_io st 1) _ _ _ _ Hdb eq_refl) as Hany.
  unfold api_readiness, core_failures, state_failures, lag_failures, is_active, worker_busy.
  destruct (src_status (api_source st)) as [status|e|]; cbn [rbind].
  2: split; [|by intros (_ & _ & (? & ? & _) & _)]; destruct Hany as [->|[e' ->]]; cbn; by destruct (api_io st 0).
  2: split; [done|by intros (_ & _ & (? & ? & _) & _)].
  destruct (api_io st 1); [rewrite Hl|by split; [destruct (api_io st 0), (ready_for _ _)|intros (_ & ? & _)]..].
  cbn [rbind fst snd].
  destruct (api_io st 0); [|by split; [|intros [? _]]..].
  destruct (ready_for status (network (api_binding st))) eqn:Ere;
    [|split; [done|]; intros (_ & _ & (? & [= <-] & ? & _) & _); congruence].
  destruct (protocol_status s); [by split; [|intros (_ & _ & _ & ? & _)]| |by split; [|intros (_ & _ & _ & ? & _)]].
  destruct (catching_up (api_health st)), (last_error (api_health st));
    [by split; [|intros (_ & _ & _ & _ & ?)]..|].
  cbn. destruct (decide (tip_height s <> Some (cs_blocks status))) as [Et|Et].
  - split; [done|]. intros (_ & _ & (? & [= <-] & _ & ?) & _). done.
  - split; [|done]. intros _. split_and!; try done. exists status. by apply dec_stable in Et.
Qed.

(** The carrier endpoint takes a transaction id in display order and answers from the
    reducer's index: on a canonical chain it returns an object exactly for a live carrier. *)
Lemma carrier_endpoint_exact st b g chain s txid vout v :
  db_ok b chain (api_db st 0) s -> reachable b g s -> api_io st 0 = IoOk ->
  api_carrier st (display_hash txid) vout = Ok v <->
  exists k o, active s !! OutPoint txid vout = Some k /\ objects s !! k = Some o /\ v = to_value o.
Proof.
  intros Hdb Hr Hio. unfold api_carrier. rewrite wire_display. cbn. unfold read. rewrite Hio. cbn.
  rewrite ok_or_Ok. by eapply query_carrier_iff.
Qed.
End Api.
