(* ===== verification/Agreement.v ===== *)
(** * Agreement between verifiers

    What the signatures are for: two independent verifiers of one deployment, each with its own
    node, database and release, whose envelopes carry the same chained root have processed the
    same history. *)

From S2P Require Import Prelude Types Marker Roots Reducer Validators Steps Invariant Chain Reach EventLog Counting RootBinding Store StoreInv Commit Queries Ingest IngestInv Converge Signer Api.

Section Agreement.
Context {JV : Type} {P : Primitives} `{!HexCodec, !AgreementCrypto}.
Context `{!Json JV Binding, !Json JV ChainState, !Json JV BlockDelta, !Json JV Event,
          !Json JV ObjectState, !Json JV TxView}.

(** The counters of the latest block are sizes, so they have the width of their columns. *)
Lemma block_counters_wf b g s block s' d :
  reachable b (ledger_txs (transactions block) g) s' -> apply_block block s = (s', Ok d) ->
  Z.of_nat (size (seen (ledger_txs (transactions block) g))) <= u64_max ->
  counters_wf (hr_counters (bd_roots d)).
Proof.
  intros Hr Ha Hs. destruct (counters_bound _ _ _ Hr) as (_ & Hf & Hl & Hall).
  apply apply_block_Ok in Ha as (_ & _ & s2 & evs & er & orr & _ & _ & _ & -> & ->).
  change (hr_counters _) with (counters (set_tip (blk_height block) (blk_hash block)
    (hr_chained_root (bd_roots (delta_of s block s2 evs er orr))) s2)).
  split; unfold is_u64; lia.
Qed.

(** What the root binding theorems need of a replayed chain, at every block of it. *)
Lemma canonical_histories b g chain s :
  canonical b g chain s -> Z.of_nat (size (seen g)) <= u64_max ->
  exists ds, connect_all (reverse chain) (new_state b) = (s, Ok ds) /\ history b g s (reverse ds) /\
    Forall (fun d => counters_wf (hr_counters (bd_roots d))) ds /\
    forall pre d post, ds = pre ++ d :: post ->
      exists g' s', history b g' s' (d :: reverse pre) /\ chained_root s' = hr_chained_root (bd_roots d).
Proof.
  induction 1 as [|g chain s block s' d Hc IH Hok Ha Hh]; intros Hs.
  { exists []. split_and!; [done|constructor|constructor|]. by intros [] ? ?. }
  assert (Hsub : Z.of_nat (size (seen g)) <= Z.of_nat (size (seen (ledger_txs (transactions block) g)))).
  { apply inj_le, subseteq_size, seen_ledger_txs. }
  destruct IH as (ds & Hcon & Hh0 & Hw & Hpre); [lia|].
  assert (Hu : is_u64 (blk_height block)) by (unfold is_u64, i64_max, u64_max in *; lia).
  assert (Hh1 : history b (ledger_txs (transactions block) g) s' (d :: reverse ds)) by by econstructor.
  destruct (history_block _ _ _ _ _ _ _ Hh0 Hok Hu Ha) as (_ & _ & _ & Er & _).
  exists (ds ++ [d]). split_and!.
  - rewrite reverse_cons. by eapply connect_all_snoc.
  - by rewrite reverse_snoc, reverse_nil.
  - apply Forall_app. split; [done|]. apply Forall_singleton.
    eapply block_counters_wf; [by eapply history_reachable|done|done].
  - intros pre d0 post E. destruct (decide (post = [])) as [->|Hne].
    + apply app_inj_tail in E as [-> ->]. by exists (ledger_txs (transactions block) g), s'.
    + destruct (exists_last Hne) as (post' & z & ->). rewrite app_comm_cons, (assoc_L (++)) in E.
      apply app_inj_tail in E as [-> _]. by eapply Hpre.
Qed.

(** A verifier of the deployment as a request for a signature meets it: its database holds a
    canonical chain of fewer than 2^64 transactions, whose replay produces the deltas [ds]. *)
Record verifier (b : Binding) (st : ApiState (JV := JV)) (ds : list BlockDelta) : Prop := {
  vf_binding : api_binding st = b;
  vf_first : exists chain s, db_ok b chain (api_db st 0) s;
  vf_stored : exists g chain s, db_ok b chain (api_db st 1) s /\ canonical b g chain s /\
    Z.of_nat (size (seen g)) <= u64_max /\ connect_all (reverse chain) (new_state b) = (s, Ok ds);
}.

(** The part of the history an envelope speaks of. *)
Lemma envelope_history b st ds height envelope :
  verifier b st ds -> api_agreement st height = Ok envelope ->
  exists pre d post g s, ds = pre ++ d :: post /\ bd_height d = height /\
    history b g s (d :: reverse pre) /\ Forall (fun x => counters_wf (hr_counters (bd_roots x))) (d :: reverse pre) /\
    at_chained_root (ae_tuple envelope) = to_hex (chained_root s).
Proof.
  intros [Eb (c0 & s0 & Hdb0) (g & chain & s & Hdb & Hc & Hs & Hcon)] Ha.
  destruct (agreement_signed _ _ _ _ _ _ _ _ Eb Hdb0 Hdb Ha) as (_ & _ & ds' & d & release & Hcon' & Hd & Hh & _ & Et).
  assert (ds' = ds) as -> by congruence.
  destruct (canonical_histories _ _ _ _ Hc Hs) as (ds' & Hcon'' & _ & Hw & Hpre).
  assert (ds' = ds) as -> by congruence.
  apply list_elem_of_split in Hd as (pre & post & ->).
  destruct (Hpre pre d post eq_refl) as (g' & s' & Hhist & Er).
  exists pre, d, post, g', s'. split_and!; [done|done|done| |by rewrite Et, Er].
  apply Forall_app in Hw as [Hw1 Hw2]. apply Forall_cons in Hw2 as [Hw2 _]. constructor; [done|by apply Forall_reverse].
Qed.

Lemma history_tip b g s ds : history b g s ds -> tip_height s = bd_height <$> head ds.
Proof.
  destruct 1 as [|g s ds block s' d _ _ _ Ha]; [done|].
  apply apply_block_delta in Ha as (_ & Eh & _ & Et & _). by rewrite Et, <- Eh.
Qed.

(** Heights only grow. *)
Lemma history_heights b g s d ds : history b g s (d :: ds) -> Forall (fun x => bd_height x <= bd_height d) ds.
Proof.
  revert g s d. induction ds as [|x ds IH]; intros g s d Hhist; [constructor|].
  inversion Hhist as [|g0 s0 ds0 block s' d0 Hh _ _ Ha]; subst. pose proof (history_tip _ _ _ _ Hh) as Ht.
  apply apply_block_delta in Ha as (_ & Eh & _ & _ & _ & _ & _ & L & _). destruct (L _ Ht) as [El _].
  constructor; [lia|]. eapply Forall_impl; [by eapply IH|]. cbn. lia.
Qed.

(** The blocks up to a height. *)
Definition signed_part (height : Z) (ds : list BlockDelta) : list BlockDelta :=
  filter (fun d => bd_height d <= height) ds.

Lemma history_preimages_mono b (ds1 ds2 : list BlockDelta) :
  ds1 ⊆ ds2 -> history_preimages b ds1 ⊆ history_preimages b ds2.
Proof.
  intros Hs x. unfold history_preimages. rewrite !elem_of_cons. intros [?|Hx]; [by left|right].
  apply list_elem_of_In, in_concat in Hx as (l & Hl & Hx). apply list_elem_of_In, in_concat. exists l. split; [|done].
  apply list_elem_of_In in Hl. apply list_elem_of_In. apply list_elem_of_fmap in Hl as (d & -> & Hd%Hs).
  apply list_elem_of_fmap. by exists d.
Qed.

(** C7: agreement is end to end: when two verifiers of a deployment sign envelopes with the same
    chained root, each over its own node, database and release, they signed the same height, and
    up to it both have processed the same number of blocks with pairwise equal hashes, heights,
    event lists, roots and counters, unless the digest collides on two of the strings hashed for
    the signed parts of their histories. *)
Theorem envelopes_agree b st1 st2 ds1 ds2 height1 height2 envelope1 envelope2 :
  verifier b st1 ds1 -> verifier b st2 ds2 ->
  collision_free (history_preimages b (signed_part height1 ds1) ++ history_preimages b (signed_part height2 ds2)) ->
  api_agreement st1 height1 = Ok envelope1 -> api_agreement st2 height2 = Ok envelope2 ->
  at_chained_root (ae_tuple envelope1) = at_chained_root (ae_tuple envelope2) ->
  height1 = height2 /\
  exists pre1 d1 post1 pre2 d2 post2, ds1 = pre1 ++ d1 :: post1 /\ ds2 = pre2 ++ d2 :: post2 /\
    bd_height d1 = height1 /\ bd_height d2 = height2 /\ Forall2 same_block (pre1 ++ [d1]) (pre2 ++ [d2]).
Proof.
  intros H1 H2 Hc Ha1 Ha2 Et.
  destruct (envelope_history _ _ _ _ _ H1 Ha1) as (pre1 & d1 & post1 & g1 & s1 & -> & Eh1 & Hh1 & Hw1 & Er1).
  destruct (envelope_history _ _ _ _ _ H2 Ha2) as (pre2 & d2 & post2 & g2 & s2 & -> & Eh2 & Hh2 & Hw2 & Er2).
  rewrite Er1, Er2 in Et. apply to_hex_inj in Et.
  assert (Hsub : forall g s (pre : list BlockDelta) d post, history b g s (d :: reverse pre) ->
    d :: reverse pre ⊆ signed_part (bd_height d) (pre ++ d :: post)).
  { intros g s pre d post Hh%history_heights x Hx. unfold signed_part. rewrite list_elem_of_filter.
    rewrite Forall_forall in Hh. rewrite elem_of_cons in Hx. split; [destruct Hx as [->|Hx]; [lia|by apply Hh]|].
    rewrite elem_of_reverse in Hx. rewrite elem_of_app, elem_of_cons. tauto. }
  assert (Hsame : Forall2 same_block (d1 :: reverse pre1) (d2 :: reverse pre2)).
  { eapply equal_roots; [exact Hh1|exact Hh2|by apply Forall_app| |done].
    eapply collision_free_mono; [|exact Hc].
    intros x. rewrite !elem_of_app. intros [Hx|Hx]; [left; rewrite <- Eh1|right; rewrite <- Eh2];
      (eapply history_preimages_mono; [by eapply Hsub|done]). }
  apply Forall2_reverse in Hsame. rewrite !reverse_cons, !reverse_involutive in Hsame.
  split.
  - apply Forall2_app_inv in Hsame as (_ & Hsame).
    + apply Forall2_cons in Hsame as [(_ & Eh & _) _]. congruence.
    + apply Forall2_length in Hsame. rewrite !length_app in Hsame. cbn in Hsame. lia.
  - exists pre1, d1, post1, pre2, d2, post2. by split_and!.
Qed.
End Agreement.
