(* ===== verification/Columns.v ===== *)
(** * Root rows at the level of columns (crates/tandem-verifier/src/store.rs)

    [Store] keeps the root tuple of a height as one value.  The table keeps it as byte strings
    and [numeric] columns, which the store writes as decimal text and reads back with a cast to
    text and a parse.  Here are the columns, the readers [roots_from_row] and [hash_from_bytes],
    and the proof that they give back what was written. *)

From Stdlib Require Import String Ascii.
From stdpp Require Import strings pretty.
From S2P Require Import Prelude Types Marker Roots Reducer Invariant Chain Reach Counting RootBinding Store StoreInv Commit Queries Ingest IngestInv Converge Signer.

(** ** Decimal text *)

Definition digit_value (c : Ascii.ascii) : option Z :=
  let n := Z.of_N (N_of_ascii c) in if decide (48 <= n <= 57) then Some (n - 48) else None.

(** The loop of [u64::from_str]: every step multiplies and adds with overflow checks. *)
Fixpoint parse_digits (acc : Z) (s : string) : option Z :=
  match s with
  | EmptyString => Some acc
  | String c rest =>
      d ← digit_value c;
      v ← checked_add u64_max (10 * acc) d;
      parse_digits v rest
  end.

(** [str::parse::<u64>]: one leading plus sign is allowed, an empty number is not. *)
Definition parse_u64 (s : string) : option Z :=
  match s with
  | EmptyString => None
  | String c rest =>
      if decide (c = "+"%char) then
        match rest with EmptyString => None | _ => parse_digits 0 rest end
      else parse_digits 0 s
  end.

(** ** Columns *)

(** A [numeric(20,0)] column: text is cast to a number when it is written and back when it is
    read, and PostgreSQL prints a number of at most twenty digits as it is. *)
Class Postgres := {
  numeric_text : string -> string;
  numeric_text_decimal : forall z, 0 <= z < 10 ^ 20 -> numeric_text (decimal z) = decimal z;
}.

(** The columns of the query in [Store::roots_at]. *)
Record RootsRow := mkRootsRow {
  c_block_hash : list byte;
  c_event_root : list byte;
  c_object_state_root : list byte;
  c_chained_root : list byte;
  c_founding_created : string;
  c_all_objects : string;
  c_active_objects : string;
  c_parser_commit : string;
  c_indexer_commit : string;
  c_parser_binary_sha256 : list byte;
  c_indexer_binary_sha256 : list byte;
}.

(** [PersistedHeight]. *)
Record PersistedHeight := mkPersisted {
  ph_roots : HeightRoots;
  ph_release : ReleaseIdentity;
}.

Inductive RowError := NotAHash | InvalidCounter (name : string) | HeightTooLarge.

(** [hash_from_bytes]. *)
Definition hash_from_bytes (bytes : list byte) : res RowError Hash32 := ok_or NotAHash (arr_of 32 bytes).

(** [roots_from_row], column by column. *)
Definition roots_from_row (height : Z) (row : RootsRow) : res RowError PersistedHeight :=
  let? block_hash := hash_from_bytes (c_block_hash row) in
  let? event_root := hash_from_bytes (c_event_root row) in
  let? object_state_root := hash_from_bytes (c_object_state_root row) in
  let? chained_root := hash_from_bytes (c_chained_root row) in
  let? founding := ok_or (InvalidCounter "founding") (parse_u64 (c_founding_created row)) in
  let? all := ok_or (InvalidCounter "object") (parse_u64 (c_all_objects row)) in
  let? live := ok_or (InvalidCounter "active") (parse_u64 (c_active_objects row)) in
  let? parser_sha := hash_from_bytes (c_parser_binary_sha256 row) in
  let? indexer_sha := hash_from_bytes (c_indexer_binary_sha256 row) in
  Ok (mkPersisted
        (mkRoots height block_hash event_root object_state_root chained_root
           {| founding_created := founding; all_objects := all; active_objects := live |})
        (mkRelease (c_parser_commit row) (c_indexer_commit row) parser_sha indexer_sha)).

Section Columns.
Context {JV : Type} {P : Primitives} `{!Postgres}.
Context `{!Json JV Binding, !Json JV ChainState, !Json JV BlockDelta, !Json JV Event,
          !Json JV ObjectState, !Json JV TxView}.

(** What the insertion of a block leaves in the columns, as the query reads them. *)
Definition row_columns (row : BlockRow JV) : RootsRow := {|
  c_block_hash := arr_bytes (br_block_hash row);
  c_event_root := arr_bytes (br_event_root row);
  c_object_state_root := arr_bytes (br_object_state_root row);
  c_chained_root := arr_bytes (br_chained_root row);
  c_founding_created := numeric_text (decimal (founding_created (br_counters row)));
  c_all_objects := numeric_text (decimal (all_objects (br_counters row)));
  c_active_objects := numeric_text (decimal (active_objects (br_counters row)));
  c_parser_commit := parser_commit (br_release row);
  c_indexer_commit := indexer_commit (br_release row);
  c_parser_binary_sha256 := arr_bytes (parser_binary_sha256 (br_release row));
  c_indexer_binary_sha256 := arr_bytes (indexer_binary_sha256 (br_release row));
|}.

(** [Store::roots_at] over the columns. *)
Definition read_roots (db : Db JV) (height : Z) : res RowError (option PersistedHeight) :=
  let? h := ok_or HeightTooLarge (try_from i64_max height) in
  match blocks_t db !! h with
  | None => Ok None
  | Some row => let? found := roots_from_row height (row_columns row) in Ok (Some found)
  end.

(** ** Decimal text reads back *)

Lemma parse_digits_go (n : N) s :
  Z.of_N n <= u64_max -> parse_digits 0 (pretty_N_go n s) = parse_digits (Z.of_N n) s.
Proof.
  revert s. induction (N.lt_wf_0 n) as [n _ IH]; intros s Hn.
  destruct (decide (n = 0%N)) as [->|Hz]; [by rewrite pretty_N_go_0|].
  pose proof (N.div_mod n 10 ltac:(lia)) as Hdm. pose proof (N.mod_lt n 10 ltac:(lia)) as Hm.
  assert (Hq : (n `div` 10 < n)%N) by (apply N.div_lt; lia).
  rewrite pretty_N_go_step by lia. specialize (IH _ Hq).
  remember (n `div` 10)%N as q eqn:Eq. remember (n `mod` 10)%N as r eqn:Er. clear Eq Er.
  rewrite IH by lia.
  cbn [parse_digits].
  assert (Hd : digit_value (pretty_N_char r) = Some (Z.of_N r)).
  { assert (r = 0 \/ r = 1 \/ r = 2 \/ r = 3 \/ r = 4 \/ r = 5 \/ r = 6 \/ r = 7 \/ r = 8 \/ r = 9)%N as Hr by lia.
    by repeat destruct Hr as [->|Hr]; [..|subst r]. }
  rewrite Hd. cbn [mbind option_bind]. unfold checked_add. rewrite decide_True by lia. cbn [mbind option_bind].
  f_equal. lia.
Qed.

(** The first character of a printed number. *)
Lemma pretty_head n s : (0 < n)%N -> exists c rest, pretty_N_go n s = String c rest /\ c <> "+"%char.
Proof.
  revert s. induction (N.lt_wf_0 n) as [n _ IH]; intros s Hn. rewrite pretty_N_go_step by done.
  destruct (decide (n `div` 10 = 0)%N) as [->|Hd].
  - rewrite pretty_N_go_0. do 2 eexists. split; [done|]. unfold pretty_N_char. by repeat case_match.
  - apply IH; [by apply N.div_lt|by apply N.neq_0_lt_0].
Qed.

Lemma parse_decimal z : is_u64 z -> parse_u64 (decimal z) = Some z.
Proof.
  intros [H0 Hmax]. unfold decimal. destruct z as [|p|p]; [done| |lia].
  change (pretty (Z.pos p)) with (pretty_N_go (N.pos p) "").
  destruct (pretty_head (N.pos p) "") as (c & rest & E & Hc); [lia|].
  rewrite E. unfold parse_u64. rewrite decide_False by done. rewrite <- E.
  by rewrite parse_digits_go.
Qed.

Lemma numeric_decimal z : is_u64 z -> parse_u64 (numeric_text (decimal z)) = Some z.
Proof. intros Hz. rewrite numeric_text_decimal; [by apply parse_decimal|]. unfold is_u64, u64_max in Hz. lia. Qed.

Lemma hash_from_arr (h : Hash32) : hash_from_bytes (arr_bytes h) = Ok h.
Proof. unfold hash_from_bytes. by rewrite arr_of_bytes. Qed.

Lemma roots_from_columns height row :
  counters_wf (br_counters row) ->
  roots_from_row height (row_columns row) =
  Ok (mkPersisted (mkRoots height (br_block_hash row) (br_event_root row) (br_object_state_root row)
                     (br_chained_root row) (br_counters row)) (br_release row)).
Proof.
  intros [Hf Ha Hl]. unfold roots_from_row, row_columns. cbn.
  rewrite !hash_from_arr, !numeric_decimal by done. cbn.
  by destruct (br_counters row), (br_release row).
Qed.
(** ** Every stored height reads back *)

Lemma canonical_counters b g chain blocks events s :
  canonical b g chain s -> journal b chain blocks events s -> Z.of_nat (size (seen g)) <= u64_max ->
  map_Forall (fun _ row => counters_wf (br_counters row)) blocks.
Proof.
  intros Hc. revert blocks events. induction Hc as [|g chain s block s' d Hc IH Hok Ha Hh]; intros blocks events Hj Hs.
  { inversion Hj; subst. apply map_Forall_empty. }
  inversion Hj as [|chain' blocks' events' block' s1 s1' d' rel Hj' _ Ha' _ _]; subst.
  assert (s1 = s) as ->.
  { eapply held_det; [by eapply journal_held|by eapply canonical_held]. }
  rewrite Ha in Ha'. injection Ha' as <-.
  assert (Hr : reachable b (ledger_txs (transactions block) g) s').
  { eapply canonical_reachable. by econstructor. }
  destruct (counters_bound _ _ _ Hr) as (_ & Hf & Hl & Hall).
  assert (Hsub : Z.of_nat (size (seen g)) <= Z.of_nat (size (seen (ledger_txs (transactions block) g)))).
  { apply inj_le, subseteq_size, seen_ledger_txs. }
  apply map_Forall_insert_2; [|eapply IH; [done|lia]].
  apply apply_block_Ok in Ha as (_ & _ & s2 & evs & er & orr & _ & _ & _ & -> & ->).
  change (br_counters _) with (counters (set_tip (blk_height block) (blk_hash block)
    (hr_chained_root (bd_roots (delta_of s block s2 evs er orr))) s2)).
  split; unfold is_u64; lia.
Qed.

(** The query for the roots of a height, at the level of columns: for a database that holds a
    canonical chain of fewer than 2^64 transactions, every height reads back as exactly the
    tuple and release that were written for it, through the decimal text and the 32-byte checks;
    an absent height is absent, and the only error is a height beyond [bigint]. *)
Lemma roots_columns_roundtrip b g chain (db : Db JV) s height :
  canonical b g chain s -> db_ok b chain db s -> Z.of_nat (size (seen g)) <= u64_max ->
  read_roots db height =
  match roots_at db height with
  | Ok found => Ok ((fun p => mkPersisted p.1 p.2) <$> found)
  | Err _ => Err HeightTooLarge
  | Panic => Panic
  end.
Proof.
  intros Hc Hdb Hs. unfold read_roots, roots_at, to_i64.
  destruct (try_from i64_max height) as [h|]; cbn; [|done].
  destruct (blocks_t db !! h) as [row|] eqn:Er; cbn; [|done].
  rewrite roots_from_columns; [done|].
  exact (canonical_counters _ _ _ _ _ _ Hc (dk_journal _ _ _ _ Hdb) Hs h row Er).
Qed.
End Columns.
