(* ===== verification/Reports.v ===== *)
(** * Listings and reports (crates/tandem-verifier/src/store.rs, api.rs)

    The endpoints that list and count: events with their filters, rejected events, the
    reorganisation journal, the mempool overlay and the statistics, and the HTTP form of
    readiness and errors.  The listings are tied to the replay of the stored chain: [newest_log]
    is its log, newest block first. *)

From Stdlib Require Import String.
From stdpp Require Import strings.
From S2P Require Import Prelude Types Marker Roots Reducer Validators Steps Invariant Chain Reach EventLog Store StoreInv Commit Queries Ingest IngestInv Converge Signer Api.

(** [Stats]. *)
Record Stats {JV : Type} := mkStats {
  sts_protocol_id : string;
  sts_protocol_status : JV;
  sts_tip_height : option Z;
  sts_tip_hash : option Hash32;
  sts_chained_root : Hash32;
  sts_counters : Counters;
  sts_invalid_events : Z;
  sts_mempool_transactions : Z;
}.
Arguments Stats : clear implicits.

(** The order PostgreSQL gives to rows with equal sort keys: some order. *)
Class RowOrder := {
  ties : forall {A}, list A -> list A;
  ties_perm : forall A (l : list A), ties l ≡ₚ l;
}.

(** [Readiness], with its status code. *)
Record Readiness := mkReadiness {
  rd_ready : bool;
  rd_protocol_id : string;
  rd_tip_height : option Z;
  rd_core : option CoreStatus;
  rd_signer_key_id : string;
  rd_signer_public_key : string;
  rd_worker : WorkerHealth;
  rd_failures : list Failure;
}.

(** The status code of [ApiError::into_response]. *)
Definition error_status (e : ApiError) : Z :=
  match e with
  | BadRequest => 400
  | NotFound => 404
  | ConflictError => 409
  | ServiceUnavailable => 503
  | InternalError => 500
  end.

Section Reports.
Context {JV : Type} {P : Primitives} `{!HexCodec, !AgreementCrypto, !RowOrder}.
Context `{!Json JV Binding, !Json JV ChainState, !Json JV BlockDelta, !Json JV Event,
          !Json JV ObjectState, !Json JV TxView, !Json JV ProtocolStatus}.

#[local] Abbreviation DB := (Db JV).

(** ** The queries *)

(** [Store::stats]: three reads, one after the other. *)
Definition count_invalid (db : DB) : Z :=
  len (filter (fun kv => er_validity_class kv.2 <> 1) (map_to_list (events_t db))).

Definition count_mempool (db : DB) : Z := Z.of_nat (size (mempool_t db)).

Definition query_stats (st : ApiState (JV := JV)) : res StoreError (Stats JV) :=
  let? state := (load_state (api_io st 0) (api_db st 0)).2 in
  let? invalid_events := read st 1 (fun db => Ok (count_invalid db)) in
  let? mempool_transactions := read st 2 (fun db => Ok (count_mempool db)) in
  Ok (mkStats JV (protocol_id (binding state)) (to_value (protocol_status state)) (tip_height state)
        (tip_hash state) (chained_root state) (counters state) invalid_events mempool_transactions).

(** [Store::mempool]: the rows of one refresh share their observation time. *)
Definition query_mempool (db : DB) : list JV := take 1000 (ties (map_to_list (mempool_t db)).*2).

(** ** The endpoints *)

Definition api_invalid_events (st : ApiState) : res ApiError (list JV) :=
  internal (read st 0 (fun db => Ok (query_invalid_events db))).

Definition api_reorgs (st : ApiState (JV := JV)) : res ApiError (list ReorgRow) :=
  internal (read st 0 (fun db => Ok (query_reorgs db))).

Definition api_stats (st : ApiState) : res ApiError (Stats JV) := internal (query_stats st).

Definition api_mempool (st : ApiState) : res ApiError (list JV) :=
  internal (read st 0 (fun db => Ok (query_mempool db))).

(** The status code of a handler's answer. *)
Definition status_of {A} (answer : res ApiError A) : option Z :=
  match answer with Ok _ => Some 200 | Err e => Some (error_status e) | Panic => None end.

(** [readiness]: status code and body. *)
Definition readiness_response (st : ApiState) (config_key_id : string) : res ApiError (Z * Readiness) :=
  let? failures := api_readiness st in
  let? core := core_failures st in
  let? state := state_failures st in
  let ready := bool_decide (failures = []) in
  Ok (if ready then 200 else 503,
   {| rd_ready := ready;
      rd_protocol_id := protocol_id (api_binding st);
      rd_tip_height := s ← state.2; tip_height s;
      rd_core := core.2;
      rd_signer_key_id := config_key_id;
      rd_signer_public_key := public_key_hex (api_signer st);
      rd_worker := api_health st;
      rd_failures := failures |}).

(** ** The log of a stored chain *)

Definition newest_log (ds : list BlockDelta) : list Event :=
  concat ((fun d => sort_by_key event_key (bd_events d)) <$> reverse ds).

Lemma newest_log_snoc ds d :
  newest_log (ds ++ [d]) = sort_by_key event_key (bd_events d) ++ newest_log ds.
Proof. unfold newest_log. by rewrite reverse_app. Qed.

Lemma elem_of_event_rows (evs : list Event) k (row : EventRow JV) :
  NoDup (event_pk <$> evs) -> event_rows evs !! k = Some row <-> (k, row) ∈ stored_event <$> evs.
Proof.
  intros Hnd. unfold event_rows. split; [apply elem_of_list_to_map_2|].
  intros Hin. apply elem_of_list_to_map_1; [by rewrite <- list_fmap_compose|done].
Qed.

Lemma union_rows (evs : list Event) (events : gmap EventKey (EventRow JV)) l :
  NoDup (event_pk <$> evs) -> map_to_list events ≡ₚ l ->
  (forall k, k ∈ event_pk <$> evs -> events !! k = None) ->
  map_to_list (event_rows evs ∪ events) ≡ₚ (stored_event <$> evs) ++ l.
Proof.
  intros Hnd <- Hd. apply NoDup_Permutation.
  - apply NoDup_map_to_list.
  - apply NoDup_app. split_and!; [|intros [k row] Hk Hin|apply NoDup_map_to_list].
    + apply (NoDup_fmap_1 fst). by rewrite <- list_fmap_compose.
    + apply elem_of_map_to_list in Hin. rewrite Hd in Hin; [done|].
      apply list_elem_of_fmap in Hk as (e & [= -> ->] & He). by apply list_elem_of_fmap_2.
  - intros [k row]. rewrite elem_of_app, !elem_of_map_to_list, lookup_union_Some_raw.
    rewrite elem_of_event_rows by done. split; [tauto|]. intros [?|Hk]; [by left|right]. split; [|done].
    apply eq_None_not_Some. intros [row' Hr]. apply elem_of_event_rows in Hr; [|done].
    apply list_elem_of_fmap in Hr as (e & [= -> ->] & He). rewrite Hd in Hk; [done|by apply list_elem_of_fmap_2].
Qed.

(** The event table is the log, and the log is in the order of the queries. *)
Lemma journal_log (b : Binding) (chain : list BlockView) (blocks : gmap Z (BlockRow JV)) (events : gmap EventKey (EventRow JV)) (s : ChainState) :
  journal b chain blocks events s ->
  exists ds, connect_all (reverse chain) (new_state b) = (s, Ok ds) /\
    map_to_list events ≡ₚ stored_event <$> newest_log ds /\
    StronglySorted (key_lt newest_first) (stored_event <$> newest_log ds) /\
    Forall (fun e => is_Some (blocks !! ev_height e)) (newest_log ds).
Proof.
  induction 1 as [|chain blocks events block s s' d release Hj IH _ Ha _ Hnd].
  { exists []. split_and!; [done|done|constructor..]. }
  destruct IH as (ds & Hc & Hp & Hs & Hf). exists (ds ++ [d]).
  pose proof (apply_block_delta _ _ _ _ Ha) as (_ & Eh & _ & _ & _ & Hev & _ & Hl & _).
  pose proof (journal_fresh _ _ _ _ _ _ _ _ Hj Ha) as Hfresh.
  assert (Hev' : StoreInv.at_height (blk_height block) (sort_by_key event_key (bd_events d))).
  { unfold StoreInv.at_height. by rewrite sort_by_key_perm. }
  rewrite newest_log_snoc, fmap_app. split_and!.
  - rewrite reverse_cons. by eapply connect_all_snoc.
  - rewrite (union_rows _ _ _ Hnd Hp), sort_by_key_perm; [done|].
    intros k (e & -> & He)%list_elem_of_fmap. apply eq_None_not_Some. intros [row Hr].
    apply (journal_events _ _ _ _ _ Hj) in Hr as [r Hr]. unfold StoreInv.at_height in Hev. rewrite Forall_forall in Hev.
    unfold key_height, event_pk in Hr. cbn in Hr. rewrite (Hev _ He) in Hr. congruence.
  - apply StronglySorted_app_2; [|by eapply sorted_stored|done].
    intros x y (e & -> & He)%list_elem_of_fmap (e' & -> & He')%list_elem_of_fmap.
    unfold StoreInv.at_height in Hev'. rewrite Forall_forall in Hev', Hf. specialize (Hev' _ He).
    destruct (journal_bound _ _ _ _ _ Hj _ (Hf _ He')) as (tip & Ht & Hle). apply Hl in Ht.
    unfold key_lt, newest_first, stored_event, event_pk. cbn [fst].
    rewrite !pair_key_ltb. cbn [fst snd]. rewrite Z_key_ltb. left; left; left. lia.
  - apply Forall_app. split; [|eapply Forall_impl; [exact Hf|]].
    + eapply Forall_impl; [exact Hev'|]. intros e ->. rewrite lookup_insert_eq. by eexists.
    + intros e He. apply lookup_insert_is_Some'. by right.
Qed.

Lemma StronglySorted_filter {A} (R : relation A) (Q : A -> Prop) `{forall x, Decision (Q x)} l :
  StronglySorted R l -> StronglySorted R (filter Q l).
Proof.
  induction 1 as [|x l Hs IH Hf]; [constructor|]. rewrite filter_cons. case_decide; [|done].
  constructor; [done|]. rewrite Forall_forall in *. intros y [_ Hy]%list_elem_of_filter. by apply Hf.
Qed.

Lemma filter_fmap_iff {A B} (f : A -> B) (Q : B -> Prop) `{!forall y, Decision (Q y)}
    (R : A -> Prop) `{!forall x, Decision (R x)} (l : list A) :
  (forall x, Q (f x) <-> R x) -> filter Q (f <$> l) = f <$> filter R l.
Proof.
  intros HQ. induction l as [|x l IH]; [done|]. rewrite fmap_cons, !filter_cons, IH.
  destruct (decide (R x)) as [Hr|Hr]; [rewrite decide_True by by apply HQ|rewrite decide_False by by rewrite HQ]; done.
Qed.

(** A query that filters the event table and sorts is a filter of the log. *)
Lemma listing_of_log (events : gmap EventKey (EventRow JV)) (log : list Event)
    (Q : EventKey * EventRow JV -> Prop) `{!forall kv, Decision (Q kv)}
    (R : Event -> Prop) `{!forall e, Decision (R e)} :
  map_to_list events ≡ₚ stored_event <$> log ->
  StronglySorted (key_lt newest_first) (stored_event <$> log) ->
  (forall e, Q (stored_event e) <-> R e) ->
  (fun kv => er_payload kv.2) <$> sort_by_key newest_first (filter Q (map_to_list events)) =
  to_value <$> filter R log.
Proof.
  intros Hp Hs HQ.
  assert (Ef : filter Q (stored_event <$> log) = stored_event <$> filter R log).
  { by apply filter_fmap_iff. }
  assert (Hs' : StronglySorted (key_lt newest_first) (filter Q (stored_event <$> log)))
    by by apply StronglySorted_filter.
  assert (Hp' : filter Q (stored_event <$> log) ≡ₚ filter Q (map_to_list events)) by by rewrite Hp.
  rewrite <- (sort_by_key_proper newest_first _ _ (key_lt_NoDup _ _ Hs') Hp').
  rewrite sort_by_key_id by by apply key_lt_le. by rewrite Ef, <- list_fmap_compose.
Qed.

(** ** What the listings show *)

Definition listed (height : option Z) (key : option Hash32) (e : Event) : Prop :=
  (height = None \/ height = Some (ev_height e)) /\ (key = None \/ key = Some (ev_object_key e)).

#[global] Instance listed_dec height key e : Decision (listed height key e).
Proof. unfold listed. apply _. Defined.

Definition rejected (e : Event) : Prop := validity_class e <> ValidOperation.

#[global] Instance rejected_dec e : Decision (rejected e).
Proof. unfold rejected. apply _. Defined.

Lemma validity_code_valid v : validity_code v = 1 <-> v = ValidOperation.
Proof. by destruct v. Qed.

(** C33: the event endpoint on every branch: text that is not a 32-byte key is a bad request, a
    height beyond the database's [bigint] is an internal error, and otherwise the answer is the
    log of the replayed chain restricted to the asked height and object, newest block first and
    in consensus order within a block, cut at 500 entries.  The rejected-event endpoint is the
    same cut of the events that were not valid. *)
Theorem listings_exact st b chain s height key :
  db_ok b chain (api_db st 0) s -> api_io st 0 = IoOk ->
  exists ds, connect_all (reverse chain) (new_state b) = (s, Ok ds) /\
    api_invalid_events st = Ok (take 500 (to_value <$> filter rejected (newest_log ds))) /\
    api_events st height key =
      match match key with Some text => Some <$> from_hex text | None => Some None end with
      | None => Err BadRequest
      | Some k =>
          if decide (is_some_and height (fun h => i64_max < h)) then Err InternalError
          else Ok (take 500 (to_value <$> filter (listed height k) (newest_log ds)))
      end.
Proof.
  intros Hdb Hio. destruct (journal_log _ _ _ _ _ (dk_journal _ _ _ _ Hdb)) as (ds & Hc & Hp & Hs & _).
  exists ds. split_and!; [done| |].
  - unfold api_invalid_events, read, query_invalid_events. rewrite Hio. cbn [internal]. do 2 f_equal.
    apply listing_of_log; [done..|]. intros e. unfold rejected. cbn. by rewrite validity_code_valid.
  - unfold api_events, parse_hash, read. rewrite Hio.
    assert (Hq : forall k, internal (query_events (api_db st 0) height k) =
      if decide (is_some_and height (fun h => i64_max < h)) then Err InternalError
      else Ok (take 500 (to_value <$> filter (listed height k) (newest_log ds)))).
    { intros k. unfold query_events, opt_i64, to_i64, try_from.
      assert (Hl : forall h, (fun kv => er_payload kv.2) <$> sort_by_key newest_first
          (filter (fun kv => (h = None \/ h = Some (key_height kv.1)) /\
                             (k = None \/ k = Some (er_object_key kv.2))) (map_to_list (events_t (api_db st 0)))) =
          to_value <$> filter (listed h k) (newest_log ds)).
      { intros h. by apply listing_of_log. }
      destruct height as [h|]; cbn [is_some_and]; 
        [|cbn [rbind internal]; by rewrite (decide_False (P := False)), Hl by tauto].
      destruct (decide (h <= i64_max)); cbn [ok_or rbind internal];
        [by rewrite decide_False, Hl by lia|by rewrite decide_True by lia]. }
    destruct key as [text|]; [|apply Hq]. destruct (from_hex text) as [k|]; cbn; [apply Hq|done].
Qed.

(** ** Statistics *)

Lemma count_rejected (events : gmap EventKey (EventRow JV)) (log : list Event) :
  map_to_list events ≡ₚ stored_event <$> log ->
  length (filter (fun kv => er_validity_class kv.2 <> 1) (map_to_list events)) = length (filter rejected log).
Proof.
  intros Hp. rewrite Hp, (filter_fmap_iff stored_event _ rejected), length_fmap; [done|].
  intros e. unfold rejected. cbn. by rewrite validity_code_valid.
Qed.

(** What one refresh leaves in the overlay. *)
Lemma insert_mempool_rows (txs : list TxView) (db db' : DB) u :
  insert_mempool txs db = (db', Ok u) ->
  map_to_list (mempool_t db') ≡ₚ ((fun tx => (tx_txid tx, to_value tx)) <$> txs) ++ map_to_list (mempool_t db).
Proof.
  revert db. induction txs as [|tx txs IH]; intros db; cbn [insert_mempool].
  - by intros [= <- _].
  - rewrite get_bind. intros (db1 & u1 & Hr & Hm)%st_bind_Ok. apply require_Ok in Hr as [Hn ->].
    rewrite modify_bind in Hm. apply IH in Hm. rewrite Hm. cbn [mempool_t set_mempool].
    rewrite map_to_list_insert by done. cbn. by rewrite Permutation_middle.
Qed.

(** The statistics are those of the stored state, and the count of rejected events is that of the
    replay; each of the three reads may meet another chain. *)
Lemma stats_exact st b chain0 s0 chain1 s1 :
  db_ok b chain0 (api_db st 0) s0 -> db_ok b chain1 (api_db st 1) s1 -> (forall n, api_io st n = IoOk) ->
  exists ds, connect_all (reverse chain1) (new_state b) = (s1, Ok ds) /\
    api_stats st = Ok (mkStats JV (protocol_id b) (to_value (protocol_status s0)) (blk_height <$> head chain0)
      (blk_hash <$> head chain0) (chained_root s0) (counters s0) (len (filter rejected (newest_log ds)))
      (Z.of_nat (size (mempool_t (api_db st 2))))).
Proof.
  intros Hdb0 Hdb1 Hio. destruct (journal_log _ _ _ _ _ (dk_journal _ _ _ _ Hdb1)) as (ds & Hc & Hp & _).
  exists ds. split; [done|]. unfold api_stats, query_stats, read. rewrite !Hio.
  rewrite (load_state_stored _ _ _ _ Hdb0). cbn [rbind internal].
  destruct (journal_tip_height _ _ _ _ _ (dk_journal _ _ _ _ Hdb0)) as (-> & -> & ->).
  unfold count_invalid, count_mempool, len. by rewrite (count_rejected _ _ Hp).
Qed.

(** After a refresh the overlay is the node's mempool: the count is its size, and the listing is
    its transactions in some order, cut at 1000. *)
Lemma mempool_exact st (db db' : DB) txs io :
  replace_mempool io txs db = (db', Ok tt) -> api_db st 0 = db' -> api_io st 0 = IoOk ->
  count_mempool db' = len txs /\
  exists order, order ≡ₚ (to_value <$> txs) /\ api_mempool st = Ok (take 1000 order).
Proof.
  intros Hr Hdb Hio. unfold replace_mempool, transact in Hr. rewrite modify_bind in Hr.
  destruct (insert_mempool txs (set_mempool ∅ db)) as [db1 [u|e|]] eqn:Hi; [|done..].
  assert (db1 = db') as -> by (destruct io; by simplify_eq).
  pose proof (insert_mempool_rows _ _ _ _ Hi) as Hp. cbn [mempool_t set_mempool] in Hp.
  rewrite map_to_list_empty, app_nil_r in Hp. split.
  - unfold count_mempool, len. rewrite <- length_map_to_list, Hp. by rewrite length_fmap.
  - exists (ties (map_to_list (mempool_t db')).*2). split.
    + rewrite ties_perm, Hp, <- list_fmap_compose. done.
    + unfold api_mempool, read, query_mempool. by rewrite Hio, Hdb.
Qed.

(** Readiness answers 200 or 503, and says so in its body. *)
Lemma readiness_status st key_id r :
  readiness_response st key_id = Ok r ->
  (r.1 = 200 <-> api_readiness st = Ok []) /\ (r.1 = 503 <-> api_readiness st <> Ok []) /\
  (rd_ready r.2 = true <-> r.1 = 200) /\ api_readiness st = Ok (rd_failures r.2).
Proof.
  unfold readiness_response. destruct (api_readiness st) as [failures|e|]; [|done..]. cbn [rbind].
  destruct (core_failures st) as [core|e|]; [|done..]. destruct (state_failures st) as [state|e|]; [|done..].
  intros [= <-]. cbn. case_bool_decide; naive_solver.
Qed.
End Reports.
