(* ===== verification/Http.v ===== *)
(** * The HTTP surface (crates/tandem-verifier/src/api.rs)

    The router and the response of every route: the framework matches the path and extracts the
    typed arguments of a [Request], [respond] is the handler's answer with its status code.  The
    theorem is the contract a client sees: the status of every request, from the stored chain and
    the node alone. *)

From Stdlib Require Import String.
From stdpp Require Import strings.
From S2P Require Import Prelude Types Marker Roots Reducer Validators Steps Invariant Chain Reach EventLog Store StoreInv Commit Queries Ingest IngestInv Converge Signer Api Reports.

(** The routes, with what the extractors hand to their handlers. *)
Inductive Request :=
| GetHealthz
| GetReadyz
| GetObject (object_key : string)
| GetCarrier (txid : string) (vout : Z)
| GetEvents (height : option Z) (object_key : option string)
| GetInvalid
| GetReorgs
| GetStats
| GetMempool
| GetAgreement (height : Z).

(** The bodies of the responses; the text of an error is its constructor. *)
Inductive Body {JV : Type} :=
| HealthBody
| ReadinessBody (r : Readiness)
| ObjectBody (v : JV)
| ListBody (vs : list JV)
| ReorgsBody (rows : list ReorgRow)
| StatsBody (r : Stats JV)
| EnvelopeBody (e : AgreementEnvelope)
| ErrorBody (e : ApiError).
Arguments Body : clear implicits.

Section Http.
Context {JV : Type} {P : Primitives} `{!HexCodec, !AgreementCrypto, !RowOrder}.
Context `{!Json JV Binding, !Json JV ChainState, !Json JV BlockDelta, !Json JV Event,
          !Json JV ObjectState, !Json JV TxView, !Json JV ProtocolStatus}.

(** [Result<Json<_>, ApiError>] as a response; a panic is none. *)
Definition into_response {A} (body : A -> Body JV) (r : res ApiError A) : option (Z * Body JV) :=
  code ← status_of r;
  match r with
  | Ok a => Some (code, body a)
  | Err e => Some (code, ErrorBody e)
  | Panic => None
  end.

Definition health : Z * Body JV := (200, HealthBody).

(** [router]. *)
Definition respond (st : ApiState (JV := JV)) (config_key_id : string) (r : Request) : option (Z * Body JV) :=
  match r with
  | GetHealthz => Some health
  | GetReadyz =>
      match readiness_response st config_key_id with
      | Ok answer => Some (prod_map id ReadinessBody answer)
      | _ => None
      end
  | GetObject key => into_response ObjectBody (api_object st key)
  | GetCarrier txid vout => into_response ObjectBody (api_carrier st txid vout)
  | GetEvents height key => into_response ListBody (api_events st height key)
  | GetInvalid => into_response ListBody (api_invalid_events st)
  | GetReorgs => into_response ReorgsBody (api_reorgs st)
  | GetStats => into_response StatsBody (api_stats st)
  | GetMempool => into_response ListBody (api_mempool st)
  | GetAgreement height => into_response EnvelopeBody (api_agreement st height)
  end.

Definition response_code (response : option (Z * Body JV)) : option Z := fst <$> response.

Lemma code_into_response {A} (body : A -> Body JV) r : response_code (into_response body r) = status_of r.
Proof. by destruct r. Qed.

(** ** What a client can expect *)

(** The block of a chain at a height. *)
Definition block_at (h : Z) (chain : list BlockView) : option BlockView :=
  head (filter (fun x => blk_height x = h) chain).

(** The deployment is active and the node is ready at exactly the stored tip. *)
Definition in_step (st : ApiState (JV := JV)) (s : ChainState) : bool :=
  match src_status (api_source st) with
  | Ok status => ready_for status (network (api_binding st)) && is_active s
                 && bool_decide (tip_height s = Some (cs_blocks status))
  | _ => false
  end.

(** The agreement endpoint: 503 while the worker, the node or the deployment is not ready or the
    height is above the tip, 404 below the deployment's first block, 409 when the node has another
    block there, 500 when the node does not answer, and no response when its client panics. *)
Definition agreement_status (st : ApiState (JV := JV)) (s : ChainState) (chain : list BlockView) (height : Z) : option Z :=
  if worker_busy (api_health st) then Some 503 else
  match src_status (api_source st) with
  | Panic => None
  | Err _ => Some 500
  | Ok status =>
      if negb (in_step st s) || bool_decide (cs_blocks status < height) then Some 503 else
      match block_at height chain, src_block_hash (api_source st) height with
      | None, _ => Some 404
      | Some _, Panic => None
      | Some _, Err _ => Some 500
      | Some x, Ok hash => Some (if decide (hash = blk_hash x) then 200 else 409)
      end
  end.

Definition expected_status (st : ApiState (JV := JV)) (s0 s1 : ChainState) (chain1 : list BlockView) (r : Request) :
  option Z :=
  match r with
  | GetHealthz | GetInvalid | GetReorgs | GetStats | GetMempool => Some 200
  | GetReadyz =>
      match src_status (api_source st) with
      | Panic => None
      | _ => Some (if in_step st s1 && negb (worker_busy (api_health st)) then 200 else 503)
      end
  | GetObject key =>
      match from_hex key with
      | None => Some 400
      | Some k => Some (if decide (is_Some (objects s0 !! k)) then 200 else 404)
      end
  | GetCarrier txid vout =>
      match wire_hash txid with
      | None => Some 400
      | Some wire => Some (if decide (is_Some (active s0 !! OutPoint wire vout)) then 200 else 404)
      end
  | GetEvents height key =>
      if decide (from_hex <$> key = Some None) then Some 400
      else if decide (is_some_and height (fun h => i64_max < h)) then Some 500 else Some 200
  | GetAgreement height => agreement_status st s0 chain1 height
  end.

(** ** The tables behind them *)

Lemma journal_block_at b chain (blocks : gmap Z (BlockRow JV)) events s h :
  journal b chain blocks events s -> br_block_hash <$> blocks !! h = blk_hash <$> block_at h chain.
Proof.
  induction 1 as [|chain blocks events block s s' d release Hj IH _ Ha _ _]; [done|].
  unfold block_at. rewrite filter_cons. pose proof (apply_block_delta _ _ _ _ Ha) as (_ & _ & Ehash & _).
  case_decide as Eh; [subst h; rewrite lookup_insert_eq; cbn; by rewrite Ehash|]. by rewrite lookup_insert_ne.
Qed.

Lemma roots_at_hash b chain (db : Db JV) s h :
  db_ok b chain db s -> h <= i64_max ->
  exists found, roots_at db h = Ok found /\
    (fun p => hr_block_hash p.1) <$> found = blk_hash <$> block_at h chain.
Proof.
  intros Hdb Hh. unfold roots_at. rewrite (proj2 (to_i64_Ok h h)) by done. eexists. split; [done|].
  rewrite <- (journal_block_at _ _ _ _ _ h (dk_journal _ _ _ _ Hdb)), <- option_fmap_compose. done.
Qed.

Lemma tip_i64 b chain (db : Db JV) s tip : db_ok b chain db s -> tip_height s = Some tip -> tip <= i64_max.
Proof.
  intros Hdb Ht. pose proof (dk_journal _ _ _ _ Hdb) as Hj.
  destruct (journal_tip_height _ _ _ _ _ Hj) as (Et & _). rewrite Et in Ht.
  destruct Hj; [done|]. by injection Ht as <-.
Qed.

Lemma query_object_iff b g chain (db : Db JV) s k :
  db_ok b chain db s -> reachable b g s -> query_object db k = to_value <$> objects s !! k.
Proof.
  intros [_ Eo _ _] Hr. destruct (reachable_state_inv _ _ _ Hr) as [[_ Hix _] _].
  unfold query_object. rewrite Eo. apply option_eq. intros v.
  rewrite !fmap_Some. setoid_rewrite (object_rows_lookup _ _ _ _ Hix). naive_solver.
Qed.

Lemma query_carrier_some b g chain (db : Db JV) s txid vout :
  db_ok b chain db s -> reachable b g s ->
  is_Some (query_carrier db txid vout) <-> is_Some (active s !! OutPoint txid vout).
Proof.
  intros Hdb Hr. destruct (reachable_state_inv _ _ _ Hr) as [[_ [_ Ha] _] _]. split; intros [v Hv].
  - apply (query_carrier_iff _ _ _ _ _ _ _ _ Hdb Hr) in Hv as (k & o & Hk & _). by exists k.
  - apply Ha in Hv as Ho. destruct Ho as (o & Ho & _). exists (to_value o).
    apply (query_carrier_iff _ _ _ _ _ _ _ _ Hdb Hr). by exists v, o.
Qed.

(** ** The contract *)

Section Contract.
Context (st : ApiState (JV := JV)) (b : Binding) (g : Ledger) (chain : nat -> list BlockView) (s : nat -> ChainState).
Context (Eb : api_binding st = b) (Hdb : forall k, db_ok b (chain k) (api_db st k) (s k)).
Context (Hr : reachable b g (s 0%nat)) (Hio : forall k, api_io st k = IoOk).

Lemma found_status {A} (r : option A) : status_of (ok_or NotFound r) = Some (if decide (is_Some r) then 200 else 404).
Proof. by destruct r. Qed.

Lemma object_status key : status_of (api_object st key) = expected_status st (s 0) (s 1) (chain 1) (GetObject key).
Proof.
  unfold api_object, parse_hash, read. cbn [expected_status]. rewrite Hio.
  destruct (from_hex key) as [k|]; cbn; [|done]. rewrite found_status, (query_object_iff _ _ _ _ _ _ (Hdb 0) Hr).
  by destruct (objects (s 0) !! k).
Qed.

Lemma carrier_status txid vout :
  status_of (api_carrier st txid vout) = expected_status st (s 0) (s 1) (chain 1) (GetCarrier txid vout).
Proof.
  unfold api_carrier, read. cbn [expected_status]. rewrite Hio.
  destruct (wire_hash txid) as [w|]; cbn; [|done]. rewrite found_status. f_equal.
  apply decide_ext. by eapply query_carrier_some.
Qed.

Lemma events_status height key :
  status_of (api_events st height key) = expected_status st (s 0) (s 1) (chain 1) (GetEvents height key).
Proof.
  unfold api_events, parse_hash, read. cbn [expected_status]. rewrite Hio.
  assert (Hq : forall k, status_of (internal (query_events (api_db st 0) height k)) =
    Some (if decide (is_some_and height (fun h => i64_max < h)) then 500 else 200)).
  { intros k. unfold query_events, opt_i64, to_i64, try_from. destruct height as [h|]; cbn [is_some_and].
    - destruct (decide (h <= i64_max));
        [by rewrite (decide_False (P := _ < _)) by lia|by rewrite (decide_True (P := _ < _)) by lia].
    - by rewrite decide_False by tauto. }
  assert (Hc : forall k : option (option Hash32), k <> Some None ->
    (if decide (k = Some None) then Some 400
     else if decide (is_some_and height (fun h => i64_max < h)) then Some 500 else Some 200) =
    Some (if decide (is_some_and height (fun h => i64_max < h)) then 500 else 200)).
  { intros k Hk. rewrite decide_False by done. by case_decide. }
  destruct key as [text|]; cbn; [|by rewrite Hq, Hc]. destruct (from_hex text) as [k|]; cbn; [by rewrite Hq, Hc|done].
Qed.

Lemma stats_status : status_of (api_stats st) = Some 200.
Proof. destruct (stats_exact st b _ _ _ _ (Hdb 0) (Hdb 1) Hio) as (ds & _ & ->). done. Qed.

(** The probe answers unless the node's client panics, 200 exactly without failures. *)
Lemma readyz_answers key_id :
  match src_status (api_source st) with
  | Panic => readiness_response st key_id = Panic
  | _ => exists failures body, api_readiness st = Ok failures /\
      readiness_response st key_id = Ok (if bool_decide (failures = []) then 200 else 503, body)
  end.
Proof.
  unfold readiness_response, api_readiness, core_failures, state_failures.
  rewrite Hio, (load_state_stored _ _ _ _ (Hdb 1)). cbn [rbind].
  destruct (src_status (api_source st)) as [status|e|]; cbn [rbind fst snd]; [by do 2 eexists..|done].
Qed.

Lemma readyz_status key_id :
  response_code (respond st key_id GetReadyz) = expected_status st (s 0) (s 1) (chain 1) GetReadyz.
Proof.
  cbn [respond expected_status]. pose proof (readyz_answers key_id) as Ha.
  pose proof (readiness_iff st b (chain 1) (s 1) Eb (Hdb 1)) as Hi. rewrite !Hio, <- Eb in Hi.
  unfold in_step. destruct (src_status (api_source st)) as [status|e|]; [| |by rewrite Ha];
    destruct Ha as (failures & body & Er & ->); rewrite Er in Hi; cbn; do 2 f_equal.
  - assert (Hb : bool_decide (failures = []) = ready_for status (network (api_binding st)) && is_active (s 1)
      && bool_decide (tip_height (s 1) = Some (cs_blocks status)) && negb (worker_busy (api_health st))).
    { apply eq_bool_prop_intro. rewrite bool_decide_spec, !Is_true_true, !andb_true_iff, negb_true_iff, bool_decide_eq_true.
      split.
      - intros ->. destruct (proj1 Hi eq_refl) as (_ & _ & (? & [= <-] & ? & ?) & ? & ?). tauto.
      - intros [[[? ?] ?] ?]. enough (Ok failures = Ok (E := ApiError) []) by congruence.
        apply Hi. split_and!; try done. by exists status. }
    by rewrite Hb.
  - rewrite bool_decide_false; [done|]. intros ->. by destruct (proj1 Hi eq_refl) as (_ & _ & (? & ? & _) & _).
Qed.

Lemma agreement_code height :
  (forall t, is_Some (jcs_to_vec t)) ->
  status_of (api_agreement st height) = agreement_status st (s 0) (chain 1) height.
Proof.
  intros Hjcs. unfold api_agreement, agreement_status, in_step.
  destruct (worker_busy (api_health st)); [by rewrite decide_True|]. rewrite decide_False by done.
  destruct (src_status (api_source st)) as [status|e|]; [|done..]. cbn [internal rbind].
  destruct (ready_for status _); [rewrite decide_False by done|by rewrite decide_True].
  rewrite Hio, (load_state_stored _ _ _ _ (Hdb 0)). cbn [internal rbind].
  destruct (is_active (s 0)); [|by rewrite decide_True by (by left)]. cbn [andb].
  destruct (decide (tip_height (s 0) = Some (cs_blocks status))) as [Et|Et];
    [rewrite bool_decide_true by done|rewrite bool_decide_false by done; by rewrite decide_True by (by right; left)].
  destruct (decide (cs_blocks status < height)) as [Hlt|Hlt];
    [rewrite (bool_decide_true (_ < _)) by done; rewrite decide_True by (right; right; lia); done|].
  rewrite (bool_decide_false (_ < _)) by done. rewrite decide_False by (intros [?|[?|?]]; [done|done|lia]).
  pose proof (tip_i64 _ _ _ _ _ (Hdb 0) Et) as Hi.
  destruct (roots_at_hash _ _ _ _ height (Hdb 1)) as (found & Ef & Eh); [lia|].
  unfold read. rewrite Hio, Ef. cbn [negb orb internal rbind].
  destruct found as [[roots release]|], (block_at height (chain 1)) as [x|]; try done.
  injection Eh as Eh. cbn [ok_or rbind fst snd] in *.
  destruct (src_block_hash (api_source st) height) as [hash|e|]; [|done..]. cbn [internal rbind].
  rewrite Eh. destruct (decide (hash = blk_hash x)) as [E|E];
    [rewrite decide_False by by intros ?|by rewrite decide_True].
  edestruct Hjcs as [bytes Hb]. unfold sign, canonical_bytes. rewrite Hb. done.
Qed.

(** A calm client lets every request have a response. *)
Lemma expected_some r : source_calm (api_source st) -> is_Some (expected_status st (s 0) (s 1) (chain 1) r).
Proof.
  intros Hcalm. pose proof (calm_status _ Hcalm) as Hs.
  destruct r as [| |key|txid vout|height key| | | | |height]; cbn [expected_status].
  - by eexists.
  - destruct (src_status _); [by eexists..|done].
  - destruct (from_hex key); by eexists.
  - destruct (wire_hash txid); by eexists.
  - repeat case_decide; by eexists.
  - by eexists.
  - by eexists.
  - by eexists.
  - by eexists.
  - unfold agreement_status. destruct (worker_busy _), (src_status _); [by eexists..| | |done]; [|by eexists].
    destruct (_ || _); [by eexists|]. pose proof (calm_block_hash _ Hcalm height) as Hh.
    destruct (block_at _ _); [|by eexists]. destruct (src_block_hash _ _); [by eexists..|done].
Qed.

End Contract.

(** C28: the status of every request: a service whose database answers never fails without a reason,
    and gives no response only where the node's client panics, which the calm clients of
    [rpc_source] never do.  Text that is not a hash is 400; an object is found exactly when the
    reducer has it, a carrier exactly when it is live; the listings always answer, but for a height
    beyond [bigint]; readiness is 200 exactly when worker, node and stored tip are in step; and the
    agreement endpoint follows [agreement_status].  Every read may meet another commit. *)
Theorem status_exact st key_id b g chain s r :
  api_binding st = b -> (forall k, db_ok b (chain k) (api_db st k) (s k)) -> reachable b g (s 0%nat) ->
  (forall k, api_io st k = IoOk) -> (forall t, is_Some (jcs_to_vec t)) ->
  response_code (respond st key_id r) = expected_status st (s 0%nat) (s 1%nat) (chain 1%nat) r /\
  (source_calm (api_source st) -> is_Some (response_code (respond st key_id r))).
Proof.
  intros Eb Hdb Hr Hio Hjcs.
  assert (Ec : response_code (respond st key_id r) = expected_status st (s 0%nat) (s 1%nat) (chain 1%nat) r).
  { destruct r; rewrite 1?(readyz_status st b chain s Eb Hdb Hio); cbn [respond]; rewrite ?code_into_response;
      [done|done|eapply object_status; eassumption|eapply carrier_status; eassumption|eapply events_status; eassumption
      |unfold api_invalid_events, read; by rewrite Hio|unfold api_reorgs, read; by rewrite Hio
      |eapply stats_status; eassumption|unfold api_mempool, read; by rewrite Hio|eapply agreement_code; eassumption]. }
  split; [done|]. intros Hcalm. rewrite Ec. by apply expected_some.
Qed.

(** With the database down, a well-formed request for data is an internal error, readiness fails,
    and only liveness still answers. *)
Lemma outage_status st key_id r :
  (forall k, api_io st k = IoFail) -> source_calm (api_source st) ->
  response_code (respond st key_id r) =
  Some match r with
       | GetHealthz => 200
       | GetReadyz => 503
       | GetObject key => if decide (is_Some (from_hex key)) then 500 else 400
       | GetCarrier txid _ => if decide (is_Some (wire_hash txid)) then 500 else 400
       | GetEvents _ (Some key) => if decide (is_Some (from_hex key)) then 500 else 400
       | GetAgreement _ =>
           if worker_busy (api_health st) then 503 else
           match src_status (api_source st) with
           | Ok status => if ready_for status (network (api_binding st)) then 500 else 503
           | _ => 500
           end
       | _ => 500
       end.
Proof.
  intros Hio Hcalm. destruct r as [| |key|txid vout|height [key|]| | | | |height]; cbn [respond]; rewrite ?code_into_response.
  - done.
  - unfold readiness_response, api_readiness, core_failures, state_failures, load_state. rewrite !Hio.
    pose proof (calm_status _ Hcalm). by destruct (src_status _).
  - unfold api_object, parse_hash, read. rewrite Hio. by destruct (from_hex key).
  - unfold api_carrier, read. rewrite Hio. by destruct (wire_hash txid).
  - unfold api_events, parse_hash, read. rewrite Hio. by destruct (from_hex key).
  - unfold api_events, read. by rewrite Hio.
  - unfold api_invalid_events, read. by rewrite Hio.
  - unfold api_reorgs, read. by rewrite Hio.
  - unfold api_stats, query_stats, load_state. by rewrite Hio.
  - unfold api_mempool, read. by rewrite Hio.
  - unfold api_agreement. destruct (worker_busy _); [by rewrite decide_True|]. rewrite decide_False by done.
    pose proof (calm_status _ Hcalm).
    destruct (src_status _) as [status|e|]; [|done..]. cbn [internal rbind].
    destruct (ready_for status _); [rewrite decide_False by done|by rewrite decide_True].
    unfold load_state. by rewrite Hio.
Qed.
End Http.
