(* ===== verification/Rpc.v ===== *)
(** * The Bitcoin Core source (crates/tandem-verifier/src/rpc.rs)

    How blocks and transactions of the node become the views the reducer reads: fetching and
    checking raw transactions, resolving the output every input spends, and verifying its
    signature.  The [bitcoin] and [secp256k1] crates are the operations of [BitcoinCrate]; the
    node is a record of answers that may differ from one call to the next. *)

From Stdlib Require Import String.
From stdpp Require Import strings.
From S2P Require Import Prelude Types Marker Roots Reducer Ingest.

(** ** Third-party operations *)

Class BitcoinCrate := {
  Txid : Type;
  txid_eq_dec :: EqDecision Txid;
  txid_countable :: Countable Txid;
  serialize_txid : Txid -> list byte;
  deserialize_txid : list byte -> option Txid;
  parse_txid : string -> option Txid;

  Transaction : Type;
  TxIn : Type;
  TxOut : Type;
  Block : Type;
  deserialize_transaction : list byte -> option Transaction;
  deserialize_block : list byte -> option Block;

  transaction_input : Transaction -> list TxIn;
  transaction_output : Transaction -> list TxOut;
  transaction_version : Transaction -> Z;
  transaction_lock_time : Transaction -> Z;
  compute_txid : Transaction -> Txid;
  serialized_wtxid : Transaction -> list byte;

  previous_txid : TxIn -> Txid;
  previous_vout : TxIn -> Z;
  previous_is_null : TxIn -> bool;
  txin_sequence : TxIn -> Z;
  txin_script_sig : TxIn -> list byte;
  txin_witness : TxIn -> list (list byte);

  txout_value : TxOut -> Z;
  txout_script : TxOut -> list byte;

  block_txdata : Block -> list Transaction;
  block_hash_display : Block -> string;
  serialized_block_hash : Block -> list byte;
  serialized_prev_hash : Block -> list byte;

  is_p2wpkh : list byte -> bool;
  is_p2wsh : list byte -> bool;

  RawSignature : Type;
  raw_eq_dec :: EqDecision RawSignature;
  Signature : Type;
  signature_from_slice : list byte -> option Signature;
  signature_to_vec : Signature -> list byte;
  signature_is_all : Signature -> bool;
  signature_raw : Signature -> RawSignature;
  normalize_s : RawSignature -> RawSignature;
  PublicKey : Type;
  public_key_from_slice : list byte -> option PublicKey;
  p2wpkh_signature_hash : Transaction -> nat -> list byte -> Z -> option (arr 32);
  p2wsh_signature_hash : Transaction -> nat -> list byte -> Z -> option (arr 32);
  verify_ecdsa : arr 32 -> RawSignature -> PublicKey -> bool;

  serialize_txid_32 : forall t, length (serialize_txid t) = 32%nat;
  serialized_wtxid_32 : forall t, length (serialized_wtxid t) = 32%nat;
  serialized_block_hash_32 : forall b, length (serialized_block_hash b) = 32%nat;
  serialized_prev_hash_32 : forall b, length (serialized_prev_hash b) = 32%nat;
  previous_vout_u32 : forall i, is_u32 (previous_vout i);
  deserialize_serialize_txid : forall t, deserialize_txid (serialize_txid t) = Some t;
}.

(** ** The node *)

(** What comes back from one request: nothing, a body that is not the expected JSON, or a status
    with the decoded envelope, in which a JSON [null] is an absent field. *)
Record RpcEnvelope (A : Type) := mkEnvelope {
  env_result : option A;
  env_error : option Z;
}.
Arguments mkEnvelope {A}.
Arguments env_result {A}.
Arguments env_error {A}.

Inductive Response (A : Type) :=
| NoResponse
| InvalidBody
| Responded (status : Z) (envelope : RpcEnvelope A).
Arguments NoResponse {A}.
Arguments InvalidBody {A}.
Arguments Responded {A}.

Record RawTransactionVerbose := mkVerbose {
  rv_hex : string;
  rv_blockhash : option string;
  rv_confirmations : option Z;
}.

Record BlockchainInfo := mkInfo {
  bi_chain : string;
  bi_blocks : Z;
  bi_headers : Z;
  bi_initialblockdownload : bool;
}.

Record Node {X : BitcoinCrate} := mkNode {
  getrawtransaction : Txid -> Response RawTransactionVerbose;
  getblockheader : string -> Response Z;
  getblockhash : Z -> Response string;
  getblock : string -> Response string;
  getblockchaininfo : Response BlockchainInfo;
  getindexinfo : Response (gmap string bool);
  getblockcount : Response Z;
  getrawmempool : Response (list string);
}.

Inductive RpcError :=
| RequestFailed
| InvalidJson
| CoreRpcError (code : Z)
| HttpError (status : Z)
| OmittedResult
| RawNotHex
| RawInvalid
| DifferentTransaction
| PrevoutOutOfRange
| InvalidBlockHash
| BlockNotHex
| BlockInvalid
| DifferentBlock
| InvalidWireTxid
| InvalidMempoolTxid.

Section Rpc.
Context {X : BitcoinCrate} `{!HexCodec}.
Context (node_at : nat -> Node).

(** A call happens at the clock of the source and advances it. *)
#[local] Abbreviation rst := (st nat RpcError).

(** [call]: an error object counts before the HTTP status, the status before the result. *)
Definition call_result {A} (response : Response A) : res RpcError A :=
  match response with
  | NoResponse => Err RequestFailed
  | InvalidBody => Err InvalidJson
  | Responded status envelope =>
      match env_error envelope with
      | Some code => Err (CoreRpcError code)
      | None =>
          if decide (200 <= status < 300) then ok_or OmittedResult (env_result envelope)
          else Err (HttpError status)
      end
  end.

Definition call {A} (f : Node -> Response A) : rst A := fun t =>
  (S t, call_result (f (node_at t))).

Definition try {A} (e : RpcError) (o : option A) : rst A := st_lift (ok_or e o).

Definition ensure (Q : Prop) `{Decision Q} (e : RpcError) : rst unit :=
  st_lift (if decide Q then Ok tt else Err e).

(** [fixed_hash] and the conversions through it. *)
Definition fixed_hash {E} (bytes : list byte) : res E Hash32 := expect (arr_of 32 bytes).
Definition txid_wire {E} (t : Txid) : res E Hash32 := fixed_hash (serialize_txid t).
Definition wtxid_wire {E} (t : Transaction) : res E Hash32 := fixed_hash (serialized_wtxid t).
Definition txid_from_wire (h : Hash32) : res RpcError Txid :=
  ok_or InvalidWireTxid (deserialize_txid (arr_bytes h)).

(** ** Signatures *)

(** [strict_signature]; only whether it fails matters to its callers. *)
Definition strict_signature (bytes : list byte) : option Signature :=
  signature ← signature_from_slice bytes;
  if decide (signature_is_all signature = true /\
             normalize_s (signature_raw signature) = signature_raw signature /\
             signature_to_vec signature = bytes)
  then Some signature else None.

Definition verify_p2wpkh (tx : Transaction) (index : nat) (prevout : TxOut)
    (signature_bytes key_bytes : list byte) : bool :=
  default false (
    signature ← strict_signature signature_bytes;
    key ← public_key_from_slice key_bytes;
    message ← p2wpkh_signature_hash tx index (txout_script prevout) (txout_value prevout);
    Some (verify_ecdsa message (signature_raw signature) key)).

Definition verify_p2wsh_2of2 (tx : Transaction) (index : nat) (prevout : TxOut)
    (sig0 sig1 script : list byte) : bool :=
  if decide (length script <> 71%nat \/ take 2 script <> [x52; x21] \/ script !! 35%nat <> Some x21
             \/ take 2 (drop 69 script) <> [x52; xae])
  then false
  else
    default false (
      signature0 ← strict_signature sig0;
      signature1 ← strict_signature sig1;
      pk0 ← public_key_from_slice (take 33 (drop 2 script));
      pk1 ← public_key_from_slice (take 33 (drop 36 script));
      message ← p2wsh_signature_hash tx index script (txout_value prevout);
      Some (verify_ecdsa message (signature_raw signature0) pk0
            && verify_ecdsa message (signature_raw signature1) pk1)).

Definition verify_input_signature (tx : Transaction) (index : nat) (prevout : TxOut) : bool :=
  match transaction_input tx !! index with
  | None => false
  | Some input =>
      match txin_script_sig input with
      | _ :: _ => false
      | [] =>
          match txin_witness input with
          | [w0; w1] =>
              if is_p2wpkh (txout_script prevout) then verify_p2wpkh tx index prevout w0 w1 else false
          | [[]; w1; w2; w3] =>
              if is_p2wsh (txout_script prevout) then verify_p2wsh_2of2 tx index prevout w1 w2 w3 else false
          | _ => false
          end
      end
  end.

(** ** Resolution *)

Record ResolvedTransaction := mkResolved {
  rt_transaction : Transaction;
  rt_height : option Z;
}.

#[local] Abbreviation Resolved := (gmap Txid ResolvedTransaction).

(** [raw_transaction]. *)
Definition raw_transaction (txid : Txid) : rst ResolvedTransaction :=
  do verbose <- call (fun n => getrawtransaction n txid);
  do raw <- try RawNotHex (hex_decode (rv_hex verbose));
  do tx <- try RawInvalid (deserialize_transaction raw);
  run ensure (compute_txid tx = txid) DifferentTransaction;
  match rv_confirmations verbose, rv_blockhash verbose with
  | Some confirmations, Some hash =>
      if decide (0 < confirmations) then
        do height <- call (fun n => getblockheader n hash);
        st_ret (mkResolved tx (Some height))
      else st_ret (mkResolved tx None)
  | _, _ => st_ret (mkResolved tx None)
  end.

(** The lookup of a parent: the block's own transactions, the cache, then the node. *)
Definition parent_of (txid : Txid) (local cache : Resolved) : rst (ResolvedTransaction * Resolved) :=
  match local !! txid with
  | Some parent => st_ret (parent, cache)
  | None =>
      match cache !! txid with
      | Some parent => st_ret (parent, cache)
      | None =>
          do parent <- raw_transaction txid;
          st_ret (parent, <[txid := parent]> cache)
      end
  end.

(** One iteration of the input loop of [resolve_transaction]. *)
Definition null_input (input : TxIn) : InputView :=
  mkInput outpoint_zero (txin_sequence input) (txin_script_sig input) (txin_witness input) 0 [] None false.

Definition resolve_input (tx : Transaction) (index : nat) (input : TxIn) (local cache : Resolved) :
  rst (InputView * Resolved) :=
  if previous_is_null input then st_ret (null_input input, cache)
  else
    do found <- parent_of (previous_txid input) local cache;
    do out <- try PrevoutOutOfRange
                (transaction_output (rt_transaction found.1) !! Z.to_nat (previous_vout input));
    do wire <- st_lift (txid_wire (previous_txid input));
    st_ret (mkInput (OutPoint wire (previous_vout input)) (txin_sequence input) (txin_script_sig input)
              (txin_witness input) (txout_value out) (txout_script out) (rt_height found.1)
              (verify_input_signature tx index out), found.2).

Fixpoint resolve_inputs (tx : Transaction) (index : nat) (ins : list TxIn) (local cache : Resolved) :
  rst (list InputView * Resolved) :=
  match ins with
  | [] => st_ret ([], cache)
  | input :: rest =>
      do first <- resolve_input tx index input local cache;
      do others <- resolve_inputs tx (S index) rest local first.2;
      st_ret (first.1 :: others.1, others.2)
  end.

Definition output_view (out : TxOut) : OutputView := mkOutput (txout_value out) (txout_script out).

(** [resolve_transaction]. *)
Definition resolve_transaction (tx : Transaction) (local cache : Resolved) : rst (TxView * Resolved) :=
  do ins <- resolve_inputs tx 0 (transaction_input tx) local cache;
  do txid <- st_lift (txid_wire (compute_txid tx));
  do wtxid <- st_lift (wtxid_wire tx);
  st_ret (mkTx txid wtxid (transaction_version tx) (transaction_lock_time tx) ins.1
            (output_view <$> transaction_output tx), ins.2).

Fixpoint resolve_all (txs : list Transaction) (local cache : Resolved) : rst (list TxView) :=
  match txs with
  | [] => st_ret []
  | tx :: rest =>
      do first <- resolve_transaction tx local cache;
      do others <- resolve_all rest local first.2;
      st_ret (first.1 :: others)
  end.

(** ** [impl BlockSource] *)

Definition rpc_status : rst CoreStatus :=
  do chain <- call getblockchaininfo;
  do indexes <- call getindexinfo;
  st_ret (mkCoreStatus (bi_chain chain) (bi_blocks chain) (bi_headers chain)
            (bi_initialblockdownload chain) (default false (indexes !! "txindex"%string))).

Definition rpc_best_height : rst Z := call getblockcount.

Definition rpc_block_hash (height : Z) : rst Hash32 :=
  do display <- call (fun n => getblockhash n height);
  try InvalidBlockHash (wire_hash display).

(** The block's own transactions, a later one under an id replacing an earlier one. *)
Definition local_of (height : Z) (txs : list Transaction) : Resolved :=
  foldl (fun m tx => <[compute_txid tx := mkResolved tx (Some height)]> m) ∅ txs.

Definition rpc_block (height : Z) : rst BlockView :=
  do display <- call (fun n => getblockhash n height);
  do block_hex <- call (fun n => getblock n display);
  do bytes <- try BlockNotHex (hex_decode block_hex);
  do block <- try BlockInvalid (deserialize_block bytes);
  run ensure (block_hash_display block = display) DifferentBlock;
  do txs <- resolve_all (block_txdata block) (local_of height (block_txdata block)) ∅;
  do hash <- st_lift (fixed_hash (serialized_block_hash block));
  do previous <- st_lift (fixed_hash (serialized_prev_hash block));
  st_ret (mkBlock hash previous height txs).

Definition rpc_transaction_height (wire : Hash32) : rst (option Z) :=
  do txid <- st_lift (txid_from_wire wire);
  fun t =>
    match raw_transaction txid t with
    | (t', Ok resolved) => (t', Ok (rt_height resolved))
    | (t', Err (CoreRpcError code)) =>
        if decide (code = -5) then (t', Ok None) else (t', Err (CoreRpcError code))
    | (t', Err e) => (t', Err e)
    | (t', Panic) => (t', Panic)
    end.

Fixpoint mempool_views (txids : list string) (cache : Resolved) : rst (list TxView) :=
  match txids with
  | [] => st_ret []
  | text :: rest =>
      do txid <- try InvalidMempoolTxid (parse_txid text);
      do resolved <- raw_transaction txid;
      do view <- resolve_transaction (rt_transaction resolved) ∅ cache;
      do others <- mempool_views rest view.2;
      st_ret (view.1 :: others)
  end.

Definition rpc_mempool : rst (list TxView) :=
  do txids <- call getrawmempool;
  mempool_views txids ∅.
End Rpc.
