(* ===== verification/RpcFacts.v ===== *)
(** * What the Bitcoin Core source guarantees

    The views that [rpc_block] hands to the reducer describe the block the node served: every
    output an input claims to spend is an output of a transaction with the txid that the input
    names, and the signature flag of an input means real ECDSA signatures over the whole
    transaction.  The first fact discharges what the reducer's theorems assume of resolved views
    ([tx_ok]); the second turns the flag into a statement about who agreed to a change. *)

From stdpp Require Import strings.
From S2P Require Import Prelude Types Marker Roots Reducer Validators Steps Invariant Chain Reach Lifecycle StoreInv Ingest Rpc.

Section RpcFacts.
Context {P : Primitives} {X : BitcoinCrate} `{!HexCodec}.

#[local] Abbreviation Resolved := (gmap Txid ResolvedTransaction).

(** ** Hashes on the wire *)

Definition wire_of (t : Txid) : Hash32 := default hash_zero (arr_of 32 (serialize_txid t)).

Lemma fixed_hash_Ok {E} l : length l = 32%nat ->
  exists h : Hash32, fixed_hash (E := E) l = Ok h /\ arr_bytes h = l.
Proof. intros (h & Hh & Hl)%arr_of_is_Some. exists h. unfold fixed_hash. by rewrite Hh. Qed.

Lemma txid_wire_of {E} t : txid_wire (E := E) t = Ok (wire_of t).
Proof.
  unfold txid_wire, wire_of, fixed_hash.
  by destruct (arr_of_is_Some 32 (serialize_txid t) (serialize_txid_32 t)) as (h & -> & _).
Qed.

Lemma wire_of_bytes t : arr_bytes (wire_of t) = serialize_txid t.
Proof.
  unfold wire_of. by destruct (arr_of_is_Some 32 (serialize_txid t) (serialize_txid_32 t)) as (h & -> & ?).
Qed.

Lemma wire_of_inj t1 t2 : wire_of t1 = wire_of t2 -> t1 = t2.
Proof.
  intros E. apply (f_equal arr_bytes) in E. rewrite !wire_of_bytes in E.
  apply (f_equal deserialize_txid) in E. rewrite !deserialize_serialize_txid in E. by injection E.
Qed.

(** ** Signatures *)

(** The bytes are a strict low-S DER signature with SIGHASH_ALL of the message under the key. *)
Definition signed_by (message : arr 32) (sig key : list byte) : Prop :=
  exists signature public_key,
    signature_from_slice sig = Some signature /\ signature_is_all signature = true /\
    normalize_s (signature_raw signature) = signature_raw signature /\ signature_to_vec signature = sig /\
    public_key_from_slice key = Some public_key /\
    verify_ecdsa message (signature_raw signature) public_key = true.

(** Both keys of a pair signed the spend of a carrier worth [v] by input [i]. *)
Definition co_signed (tx : Transaction) (i : nat) (v : Z) (kp : KeyPair) : Prop :=
  exists sig0 sig1 message,
    p2wsh_signature_hash tx i (witness_script kp) v = Some message /\
    signed_by message sig0 (arr_bytes (key0 kp)) /\ signed_by message sig1 (arr_bytes (key1 kp)).

(** A key signed the spend of a wallet coin of its own by input [i]. *)
Definition wallet_signed (tx : Transaction) (i : nat) (k : Key33) : Prop :=
  exists sig message v,
    p2wpkh_signature_hash tx i (p2wpkh_script k) v = Some message /\ signed_by message sig (arr_bytes k).

Lemma strict_signature_Some l sg :
  strict_signature l = Some sg ->
  signature_from_slice l = Some sg /\ signature_is_all sg = true /\
  normalize_s (signature_raw sg) = signature_raw sg /\ signature_to_vec sg = l.
Proof. unfold strict_signature. intros Hs. simplify_option_eq. naive_solver. Qed.

Lemma signed_by_intro message sig key sg pk :
  strict_signature sig = Some sg -> public_key_from_slice key = Some pk ->
  verify_ecdsa message (signature_raw sg) pk = true -> signed_by message sig key.
Proof. intros (? & ? & ? & ?)%strict_signature_Some Hk Hv. by exists sg, pk. Qed.

Lemma verify_p2wpkh_true tx i out sig key :
  verify_p2wpkh tx i out sig key = true ->
  exists message, p2wpkh_signature_hash tx i (txout_script out) (txout_value out) = Some message /\
    signed_by message sig key.
Proof.
  unfold verify_p2wpkh.
  destruct (strict_signature sig) as [sg|] eqn:Es; [|done].
  destruct (public_key_from_slice key) as [pk|] eqn:Ek; [|done].
  simpl. destruct (p2wpkh_signature_hash _ _ _ _) as [msg|]; [|done]. simpl. intros Hv.
  exists msg. split; [done|by eapply signed_by_intro].
Qed.

Lemma verify_p2wsh_true tx i out s0 s1 kp :
  verify_p2wsh_2of2 tx i out s0 s1 (witness_script kp) = true -> co_signed tx i (txout_value out) kp.
Proof.
  destruct kp as [k0 k1].
  destruct (proj1 (witness_script_pieces _ k0 k1) eq_refl) as (_ & _ & _ & _ & W0 & W1).
  unfold verify_p2wsh_2of2, co_signed. case_decide; [done|]. rewrite <- W0, <- W1. cbn [key0 key1].
  destruct (strict_signature s0) as [sg0|] eqn:E0; [|done]. destruct (strict_signature s1) as [sg1|] eqn:E1; [|done].
  cbn [mbind option_bind].
  destruct (public_key_from_slice (arr_bytes k0)) as [pk0|] eqn:K0; [|done].
  destruct (public_key_from_slice (arr_bytes k1)) as [pk1|] eqn:K1; [|done]. cbn [mbind option_bind].
  destruct (p2wsh_signature_hash _ _ _ _) as [msg|]; [|done]. simpl.
  intros [V0 V1]%andb_true_iff. exists s0, s1, msg.
  split_and!; [done|by eapply signed_by_intro..].
Qed.

(** ** Views *)

Context (node_at : nat -> Node).

(** A transaction that the node returned for the txid it has. *)
Definition served (tx : Transaction) : Prop :=
  exists t txid verbose raw,
    call_result (getrawtransaction (node_at t) txid) = Ok verbose /\
    hex_decode (rv_hex verbose) = Some raw /\ deserialize_transaction raw = Some tx /\
    compute_txid tx = txid.

(** Where the parent of an input may come from. *)
Definition genuine (local : Resolved) (tx : Transaction) : Prop :=
  served tx \/ exists txid h, local !! txid = Some (mkResolved tx h).

(** A cache of transactions the node served, each under its own txid. *)
Definition cache_ok (m : Resolved) : Prop :=
  forall txid r, m !! txid = Some r -> compute_txid (rt_transaction r) = txid /\ served (rt_transaction r).

Definition local_ok (m : Resolved) : Prop :=
  forall txid r, m !! txid = Some r -> compute_txid (rt_transaction r) = txid.

(** The view of one input: a null input spends nothing, any other the output it names of a
    transaction with the txid it names. *)
Inductive input_of (local : Resolved) (tx : Transaction) (i : nat) (input : TxIn) : InputView -> Prop :=
| io_null : previous_is_null input = true -> input_of local tx i input (null_input input)
| io_spend parent out :
    previous_is_null input = false ->
    genuine local (rt_transaction parent) ->
    compute_txid (rt_transaction parent) = previous_txid input ->
    (forall p, local !! previous_txid input = Some p -> parent = p) ->
    transaction_output (rt_transaction parent) !! Z.to_nat (previous_vout input) = Some out ->
    input_of local tx i input
      (mkInput (OutPoint (wire_of (previous_txid input)) (previous_vout input)) (txin_sequence input)
         (txin_script_sig input) (txin_witness input) (txout_value out) (txout_script out)
         (rt_height parent) (verify_input_signature tx i out)).

Record view_of (local : Resolved) (tx : Transaction) (view : TxView) : Prop := {
  vo_txid : tx_txid view = wire_of (compute_txid tx);
  vo_wtxid : arr_bytes (tx_wtxid view) = serialized_wtxid tx;
  vo_version : tx_version view = transaction_version tx;
  vo_lock_time : lock_time view = transaction_lock_time tx;
  vo_inputs : length (inputs view) = length (transaction_input tx);
  vo_input : forall i input iv, transaction_input tx !! i = Some input -> inputs view !! i = Some iv ->
    input_of local tx i input iv;
  vo_outputs : outputs view = output_view <$> transaction_output tx;
}.

(** ** Resolution *)

#[local] Abbreviation any := (fun (_ : nat) (_ : RpcError) => True).

Lemma post_call {A} (f : Node -> Response A) t Q :
  (forall a, call_result (f (node_at t)) = Ok a -> Q (S t) a) -> st_post (call node_at f) t Q any.
Proof.
  unfold st_post, call. intros Hq. destruct (call_result (f (node_at t))) as [a|e|] eqn:E; [by apply Hq|done|].
  unfold call_result in E. destruct (f (node_at t)) as [| |status [r [c|]]]; try done.
  simpl in E. case_decide; [|done]. by destruct r.
Qed.

Lemma post_lift {A} (m : res RpcError A) (t : nat) Q : returns m (Q t) -> st_post (st_lift m) t Q any.
Proof. by destruct m. Qed.

Lemma post_try {A} e (o : option A) (t : nat) Q : (forall a, o = Some a -> Q t a) -> st_post (try e o) t Q any.
Proof. intros. by apply post_lift, returns_ok_or. Qed.

Lemma post_ensure (D : Prop) `{Decision D} e (t : nat) (Q : nat -> unit -> Prop) :
  (D -> Q t tt) -> st_post (ensure D e) t Q any.
Proof. intros. apply post_lift. case_decide; simpl; auto. Qed.

Lemma post_ret {A} (a : A) (t : nat) (Q : nat -> A -> Prop) : Q t a -> st_post (st_ret (E := RpcError) a) t Q any.
Proof. done. Qed.

Lemma post_txid {A} (x : Txid) (f : Hash32 -> st nat RpcError A) t Q :
  st_post (f (wire_of x)) t Q any -> st_post (st_bind (st_lift (txid_wire x)) f) t Q any.
Proof. rewrite txid_wire_of. done. Qed.

(** Decompose a program of the source into its calls and checks. *)
Ltac post_step :=
  match goal with
  | |- st_post (st_bind (st_lift (txid_wire _)) _) _ _ _ => apply post_txid
  | |- st_post (st_bind _ _) _ _ _ => eapply st_post_bind
  | |- st_post (call _ _) _ _ _ => apply post_call; intros ? ?; exact I || idtac
  | |- st_post (try _ _) _ _ _ => apply post_try; intros ? ?
  | |- st_post (ensure _ _) _ _ _ => apply post_ensure; intros ?
  | |- st_post (st_ret _) _ _ _ => apply post_ret
  end.

Lemma raw_transaction_post txid t :
  st_post (raw_transaction node_at txid) t
    (fun _ r => compute_txid (rt_transaction r) = txid /\ served (rt_transaction r)) any.
Proof.
  unfold raw_transaction.
  eapply (st_post_bind _ _ _ (fun _ v => call_result (getrawtransaction (node_at t) txid) = Ok v)).
  { by apply post_call. }
  intros t1 v _ Hv. eapply (st_post_bind _ _ _ (fun _ raw => hex_decode (rv_hex v) = Some raw)).
  { by apply post_try. }
  intros t2 raw _ Hraw. eapply (st_post_bind _ _ _ (fun _ tx => deserialize_transaction raw = Some tx)).
  { by apply post_try. }
  intros t3 tx _ Htx. eapply (st_post_bind _ _ _ (fun _ _ => compute_txid tx = txid)).
  { by apply post_ensure. }
  intros t4 [] _ Hid.
  assert (Hok : forall h, compute_txid (rt_transaction (mkResolved tx h)) = txid /\
                served (rt_transaction (mkResolved tx h))).
  { intros h. split; [done|]. exists t, txid, v, raw. done. }
  destruct (rv_confirmations v), (rv_blockhash v); try apply Hok. case_decide; [|apply Hok].
  eapply (st_post_bind _ _ _ (fun _ _ => True)); [by apply post_call|]. intros. apply Hok.
Qed.

Lemma parent_of_post txid local cache t :
  local_ok local -> cache_ok cache ->
  st_post (parent_of node_at txid local cache) t
    (fun _ found => compute_txid (rt_transaction found.1) = txid /\
       genuine local (rt_transaction found.1) /\
       (forall p, local !! txid = Some p -> found.1 = p) /\ cache_ok found.2) any.
Proof.
  intros Hl Hc. unfold parent_of. destruct (local !! txid) as [p|] eqn:El.
  { split_and!; [by eapply Hl| |naive_solver|done]. right. destruct p as [tx h]. by exists txid, h. }
  destruct (cache !! txid) as [p|] eqn:Ec.
  { apply Hc in Ec as [? ?]. by split_and!; [|left| |]. }
  eapply st_post_bind; [apply raw_transaction_post|]. intros t1 r _ [Hid Hs]. apply post_ret.
  split_and!; [done|by left|done|]. cbn [snd]. intros txid' r' Hr.
  apply lookup_insert_Some in Hr as [[<- <-]|[_ Hr]]; [done|]. by apply Hc.
Qed.

Lemma resolve_input_post tx i input local cache t :
  local_ok local -> cache_ok cache ->
  st_post (resolve_input node_at tx i input local cache) t
    (fun _ r => input_of local tx i input r.1 /\ cache_ok r.2) any.
Proof.
  intros Hl Hc. unfold resolve_input. destruct (previous_is_null input) eqn:En.
  { split; [by constructor|done]. }
  eapply st_post_bind; [by apply parent_of_post|]. intros t1 [parent cache'] _ (Hid & Hg & Hloc & Hc').
  eapply (st_post_bind _ _ _ (fun _ o =>
    transaction_output (rt_transaction parent) !! Z.to_nat (previous_vout input) = Some o));
    [by apply post_try|]. intros t2 out _ Hout. apply post_txid. apply post_ret. split; [|done].
  by apply io_spend.
Qed.

Lemma resolve_inputs_post tx i ins local cache t :
  local_ok local -> cache_ok cache ->
  st_post (resolve_inputs node_at tx i ins local cache) t
    (fun _ r => length r.1 = length ins /\ cache_ok r.2 /\
       forall j input iv, ins !! j = Some input -> r.1 !! j = Some iv ->
         input_of local tx (i + j) input iv) any.
Proof.
  intros Hl. revert i cache t. induction ins as [|input ins IH]; intros i cache t Hc; [done|].
  cbn [resolve_inputs]. eapply st_post_bind; [by apply resolve_input_post|].
  intros t1 [iv cache1] _ [Hiv Hc1]. eapply st_post_bind; [by apply IH|].
  intros t2 [ivs cache2] _ (Hlen & Hc2 & Hivs). apply post_ret. simpl in *.
  split_and!; [by rewrite Hlen|done|]. intros [|j] input' iv'; simpl.
  - intros [= <-] [= <-]. by rewrite Nat.add_0_r.
  - intros H1 H2. rewrite Nat.add_succ_r. by apply Hivs.
Qed.

Lemma resolve_transaction_post tx local cache t :
  local_ok local -> cache_ok cache ->
  st_post (resolve_transaction node_at tx local cache) t
    (fun _ r => view_of local tx r.1 /\ cache_ok r.2) any.
Proof.
  intros Hl Hc. unfold resolve_transaction. eapply st_post_bind; [by apply resolve_inputs_post|].
  intros t1 [ivs cache1] _ (Hlen & Hc1 & Hivs). apply post_txid.
  destruct (fixed_hash_Ok (E := RpcError) _ (serialized_wtxid_32 tx)) as (w & Hw & Hwb).
  unfold wtxid_wire. rewrite Hw. apply post_ret. split; [|done]. by split.
Qed.

Lemma resolve_all_post txs local cache t :
  local_ok local -> cache_ok cache ->
  st_post (resolve_all node_at txs local cache) t (fun _ r => Forall2 (view_of local) txs r) any.
Proof.
  intros Hl. revert cache t. induction txs as [|tx txs IH]; intros cache t Hc; [constructor|].
  cbn [resolve_all]. eapply st_post_bind; [by apply resolve_transaction_post|].
  intros t1 [v cache1] _ [Hv Hc1]. eapply st_post_bind; [by apply IH|].
  intros t2 vs _ Hvs. by constructor.
Qed.

Lemma local_of_from h txs (m : Resolved) :
  local_ok m -> local_ok (foldl (fun m tx => <[compute_txid tx := mkResolved tx (Some h)]> m) m txs).
Proof.
  revert m. induction txs as [|tx txs IH]; intros m Hm; [done|]. apply IH. intros txid r.
  rewrite lookup_insert_Some. intros [[<- <-]|[_ ?]]; [done|]. by apply Hm.
Qed.

Lemma local_of_elem h txs txid r :
  local_of h txs !! txid = Some r -> rt_transaction r ∈ txs /\ rt_height r = Some h.
Proof.
  unfold local_of. cut (forall m : Resolved, foldl (fun m tx => <[compute_txid tx := mkResolved tx (Some h)]> m) m txs !! txid = Some r ->
    m !! txid = Some r \/ rt_transaction r ∈ txs /\ rt_height r = Some h).
  { intros Hc Hr. by destruct (Hc _ Hr) as [?|?]. }
  induction txs as [|tx txs IH]; intros m Hr; [by left|].
  apply IH in Hr as [Hr|[? ?]]; [|by right; split; [constructor|]].
  apply lookup_insert_Some in Hr as [[_ <-]|[_ ?]]; [|by left]. right. by split; [constructor|].
Qed.

Lemma local_of_ok h txs : local_ok (local_of h txs).
Proof. by apply local_of_from. Qed.

Lemma local_of_Some h txs tx : tx ∈ txs -> exists r, local_of h txs !! compute_txid tx = Some r.
Proof.
  unfold local_of. generalize (∅ : Resolved) as m. 
  cut (forall m : Resolved, tx ∈ txs \/ is_Some (m !! compute_txid tx) ->
    exists r, foldl (fun m tx => <[compute_txid tx := mkResolved tx (Some h)]> m) m txs !! compute_txid tx = Some r).
  { intros Hc m Hin. apply Hc. by left. }
  induction txs as [|a txs IH]; intros m Hin; simpl; [destruct Hin as [Hin|Hin]; [by apply not_elem_of_nil in Hin|done]|].
  apply IH. destruct Hin as [[->|Hin]%elem_of_cons|Hin]; [right|by left|right].
  - rewrite lookup_insert_eq. eauto.
  - destruct (decide (compute_txid a = compute_txid tx)) as [->|Hne].
    + rewrite lookup_insert_eq. eauto.
    + by rewrite lookup_insert_ne.
Qed.

(** The block that the node serves, from clock [t], for a height. *)
Definition block_served (t : nat) (h : Z) (decoded : Block) : Prop :=
  exists display block_hex raw,
    call_result (getblockhash (node_at t) h) = Ok display /\
    call_result (getblock (node_at (S t)) display) = Ok block_hex /\
    hex_decode block_hex = Some raw /\ deserialize_block raw = Some decoded /\
    block_hash_display decoded = display.

(** What the source promises of a block: the node's, under the hash it was asked for, with a
    view of each of its transactions. *)
Record block_of (t : nat) (h : Z) (decoded : Block) (block : BlockView) : Prop := {
  bo_served : block_served t h decoded;
  bo_height : blk_height block = h;
  bo_hash : arr_bytes (blk_hash block) = serialized_block_hash decoded;
  bo_previous : arr_bytes (previous_hash block) = serialized_prev_hash decoded;
  bo_views : Forall2 (view_of (local_of h (block_txdata decoded))) (block_txdata decoded)
               (transactions block);
}.

Lemma rpc_block_post h t :
  st_post (rpc_block node_at h) t (fun _ block => exists decoded, block_of t h decoded block) any.
Proof.
  unfold rpc_block. eapply (st_post_bind _ _ _ (fun t' display =>
    t' = S t /\ call_result (getblockhash (node_at t) h) = Ok display)); [by apply post_call|].
  intros ? display _ [-> H1]. eapply (st_post_bind _ _ _ (fun _ block_hex =>
    call_result (getblock (node_at (S t)) display) = Ok block_hex)); [by apply post_call|].
  intros t2 block_hex _ H2. eapply (st_post_bind _ _ _ (fun _ raw => hex_decode block_hex = Some raw));
    [by apply post_try|].
  intros t3 raw _ H3. eapply (st_post_bind _ _ _ (fun _ decoded => deserialize_block raw = Some decoded));
    [by apply post_try|].
  intros t4 decoded _ H4. eapply (st_post_bind _ _ _ (fun _ _ => block_hash_display decoded = display));
    [by apply post_ensure|].
  intros t5 _ _ H5. eapply st_post_bind; [by apply resolve_all_post; [apply local_of_ok|]|].
  intros t6 views _ Hviews.
  destruct (fixed_hash_Ok (E := RpcError) _ (serialized_block_hash_32 decoded)) as (bh & -> & Hbh).
  destruct (fixed_hash_Ok (E := RpcError) _ (serialized_prev_hash_32 decoded)) as (ph & -> & Hph).
  apply post_ret. exists decoded. split; [|done..]. by exists display, block_hex, raw.
Qed.
End RpcFacts.
