(* ===== verification/Service.v ===== *)
(** * The service as a whole (crates/tandem-verifier/src/main.rs)

    Start-up in the order of [main]: configuration, signing key, store, wakeup; then the worker's
    passes over the Bitcoin Core source.  The composition theorem follows a process from its
    arguments to the database after any number of passes. *)

From Stdlib Require Import String.
From stdpp Require Import strings.
From S2P Require Import Prelude Types Marker Roots Reducer Invariant Chain Store StoreInv Commit Queries Ingest IngestInv Text Config ConfigFacts Signer Api Rpc RpcFacts.

(** ** The source behind the worker *)

Section Source.
Context {P : Primitives} {X : BitcoinCrate} `{!HexCodec}.

#[local] Abbreviation any := (fun (_ : nat) (_ : RpcError) => True).

Lemma rpc_status_post nodes t : st_post (rpc_status nodes) t (fun _ _ => True) any.
Proof.
  unfold rpc_status. eapply (st_post_bind _ _ _ (fun _ _ => True)); [by apply post_call|intros t1 chain _ _].
  eapply (st_post_bind _ _ _ (fun _ _ => True)); [by apply post_call|done].
Qed.

Lemma rpc_block_hash_post nodes h t : st_post (rpc_block_hash nodes h) t (fun _ _ => True) any.
Proof.
  unfold rpc_block_hash. eapply (st_post_bind _ _ _ (fun _ _ => True)); [by apply post_call|intros t1 d _ _].
  by apply post_try.
Qed.

Lemma rpc_transaction_height_post nodes wire t :
  st_post (rpc_transaction_height nodes wire) t (fun _ _ => True) any.
Proof.
  unfold rpc_transaction_height. eapply (st_post_bind _ _ _ (fun _ _ => True)).
  { apply post_lift. by apply returns_ok_or. }
  intros t1 txid _ _. pose proof (raw_transaction_post nodes txid t1) as Hp. unfold st_post in *.
  destruct (raw_transaction nodes txid t1) as [t2 [r|e|]]; [done| |done].
  destruct e; try done. by case_decide.
Qed.

Lemma mempool_views_post nodes txids cache t :
  cache_ok nodes cache -> st_post (mempool_views nodes txids cache) t (fun _ _ => True) any.
Proof.
  revert cache t. induction txids as [|text txids IH]; intros cache t Hc; [done|]. cbn [mempool_views].
  eapply (st_post_bind _ _ _ (fun _ _ => True)); [by apply post_try|intros t1 txid _ _].
  eapply st_post_bind; [apply raw_transaction_post|intros t2 r _ _].
  eapply st_post_bind; [by apply resolve_transaction_post|intros t3 view _ [_ Hc']].
  eapply st_post_bind; [by apply IH|done].
Qed.

Lemma rpc_mempool_post nodes t : st_post (rpc_mempool nodes) t (fun _ _ => True) any.
Proof.
  unfold rpc_mempool. eapply (st_post_bind _ _ _ (fun _ _ => True)); [by apply post_call|intros t1 ids _ _].
  by apply mempool_views_post.
Qed.

(** The answer of a method; of its errors the callers only see that there is one. *)
Definition answer {A} (m : st nat RpcError A) : res CallError A :=
  map_err (fun _ => CallFailed) (m 0%nat).2.

(** [BitcoinCoreRpc] as the worker's [BlockSource]; [nodes] are the node's answers to the calls of
    one method. *)
Definition rpc_source (nodes : nat -> Node) : BlockSource := mkSource
  (answer (rpc_status nodes))
  (answer (rpc_best_height nodes))
  (fun h => answer (rpc_block_hash nodes h))
  (fun h => answer (rpc_block nodes h))
  (fun txid => answer (rpc_transaction_height nodes txid))
  (answer (rpc_mempool nodes)).

Lemma answer_calm {A} (m : st nat RpcError A) Q R : st_post m 0%nat Q R -> answer m <> Panic.
Proof. unfold st_post, answer. by destruct (m 0%nat) as [t [a|e|]]. Qed.

(** No method of the source panics, whatever the node answers. *)
Lemma rpc_source_calm nodes : source_calm (rpc_source nodes).
Proof.
  split; cbn [rpc_source src_status src_best_height src_block_hash src_block src_transaction_height src_mempool].
  - eapply answer_calm, rpc_status_post.
  - by eapply answer_calm, (post_call nodes getblockcount 0 (fun _ _ => True)).
  - intros height. eapply answer_calm, rpc_block_hash_post.
  - intros height. eapply answer_calm, rpc_block_post.
  - intros txid. eapply answer_calm, rpc_transaction_height_post.
  - eapply answer_calm, rpc_mempool_post.
Qed.
End Source.

(** ** Start-up *)

Inductive Wakeup := PollWakeup (interval : Z) | ZmqWakeup (endpoint : string).

(** What the ZMQ socket delivers next. *)
Inductive Received := RawBlock | SocketError.

(** [PollWakeup::wait] and [ZmqWakeup::wait]: the milliseconds slept by the program itself, and the
    outcome.  The bytes of a message are dropped. *)
Definition poll_wait (interval : Z) : Z * res unit unit := (interval, Ok tt).
Definition zmq_wait (next : Received) : Z * res unit unit :=
  match next with RawBlock => (0, Ok tt) | SocketError => (0, Err tt) end.

Definition wait (wakeup : Wakeup) (next : Received) : Z * res unit unit :=
  match wakeup with PollWakeup interval => poll_wait interval | ZmqWakeup _ => zmq_wait next end.

(** The tail of the loop of [Ingestion::run]: how long the worker sleeps before its next pass. *)
Definition pause (wakeup : Wakeup) (next : Received) : Z :=
  let '(slept, r) := wait wakeup next in
  match r with Ok _ => slept | _ => slept + 1000 end.

Inductive StartError :=
| BadConfig (e : ConfigError)
| BadKey (e : SignError)
| BadStore (e : StoreError)
| NoHttpClient
| ZmqUnavailable.

Section Service.
Context {JV : Type} {P : Primitives} {X : BitcoinCrate} {Y : Platform} `{!HexCodec, !AgreementCrypto}.
Context `{!Json JV Binding, !Json JV ChainState, !Json JV BlockDelta, !Json JV Event,
          !Json JV ObjectState, !Json JV TxView}.

(** The feature flag of the build, whether a ZMQ endpoint can be reached, and whether an HTTP
    client can be built. *)
Context (zmq_feature : bool) (zmq_connects : string -> bool) (client_builds : bool).

#[local] Abbreviation dst := (st (Db JV) StartError).

(** [build_wakeup]. *)
Definition build_wakeup (c : Config) : res StartError Wakeup :=
  match cf_zmq_rawblock_url c with
  | Some endpoint => if zmq_feature && zmq_connects endpoint then Ok (ZmqWakeup endpoint) else Err ZmqUnavailable
  | None => Ok (PollWakeup (cf_poll_interval c))
  end.

Record Service := mkService {
  sv_config : Config;
  sv_signer : AgreementSigner;
  sv_state : ChainState;
  sv_wakeup : Wakeup;
}.

(** [main] up to the start of the worker. *)
Definition startup (args : Args) (io : Io) : dst Service :=
  do c <- st_lift (map_err BadConfig (from_args args));
  do signer <- st_lift (map_err BadKey (load (read_file (cf_signing_key_file c)) (cf_signing_key_id c)));
  do s <- (fun db => let '(db', r) := bind_or_load io (cf_binding c) db in (db', map_err BadStore r));
  run st_lift (if client_builds then Ok tt else Err NoHttpClient);
  do wakeup <- st_lift (build_wakeup c);
  st_ret (mkService c signer s wakeup).

(** The worker over the node, started with the state the store gave. *)
Definition service_env (node_at : nat -> nat -> Node) (io_at : nat -> Io) : Env :=
  mkEnv (fun t => rpc_source (node_at t)) io_at.

Definition service_run (node_at : nat -> nat -> Node) (io_at : nat -> Io) (n : nat) (sv : Service) (db : Db JV) :
  Worker * WorkerHealth * res IngestError unit :=
  run_loop (service_env node_at io_at) (release_identity (sv_config sv)) n (mkHealth None None false)
    (mkWorker db (sv_state sv) 0).

(** What [main] hands to the router: the configuration, the signer, and the database, the node and
    the health the worker shares with it. *)
Definition api_state (sv : Service) (health : WorkerHealth) (source : BlockSource) (db_at : nat -> Db JV)
    (io_at : nat -> Io) : ApiState :=
  mkApi (cf_binding (sv_config sv)) (sv_signer sv) health source db_at io_at.

Lemma startup_Ok args io db db' sv :
  startup args io db = (db', Ok sv) ->
  from_args args = Ok (sv_config sv) /\
  bind_or_load io (cf_binding (sv_config sv)) db = (db', Ok (sv_state sv)).
Proof.
  unfold startup. intros (db1 & c & [Hc%map_err_Ok ->]%lift_Ok & Hm)%st_bind_Ok.
  apply st_bind_Ok in Hm as (db2 & sg & [_ ->]%lift_Ok & Hm).
  apply st_bind_Ok in Hm as (db3 & s & Hs & Hm).
  destruct (bind_or_load io (cf_binding c) db) as [db4 r] eqn:Eb. injection Hs as -> Hr.
  apply map_err_Ok in Hr. subst r.
  apply st_bind_Ok in Hm as (db5 & u & [_ ->]%lift_Ok & Hm).
  apply st_bind_Ok in Hm as (db6 & wk & [_ ->]%lift_Ok & Hm). injection Hm as <- <-. done.
Qed.

(** The worker does not spin: between two passes it sleeps a quarter of a second at least, unless a
    block was announced. *)
Lemma passes_paced args c wakeup next :
  from_args args = Ok c -> build_wakeup c = Ok wakeup ->
  250 <= pause wakeup next \/ (exists endpoint, wakeup = ZmqWakeup endpoint) /\ next = RawBlock.
Proof.
  intros Hc%from_args_config_wf Hw. pose proof (cw_poll _ _ Hc) as Hp. unfold build_wakeup in Hw.
  destruct (cf_zmq_rawblock_url c) as [endpoint|].
  - destruct (zmq_feature && zmq_connects endpoint); [|done]. injection Hw as <-.
    destruct next; [right|left; cbn; lia]. split; [by exists endpoint|done].
  - injection Hw as <-. by left.
Qed.

(** A database no process has used, or one left by any run of the service. *)
Definition known (db : Db JV) : Prop := db = empty_db \/ exists b chain s, db_ok b chain db s.

Lemma bind_known io b db db' s :
  known db -> bind_or_load io b db = (db', Ok s) -> exists chain, db_ok b chain db' s.
Proof.
  intros [->|(b0 & chain & s0 & Hdb)] Hb.
  - destruct (bind_fresh (JV := JV) b) as (db1 & Hf & Hdb). exists [].
    destruct io; [rewrite Hf in Hb; by injection Hb as <- <-|done..].
  - rewrite (bind_exact _ _ _ _ _ _ Hdb) in Hb. case_decide as E; [|done]. subst b0.
    exists chain. unfold acked in Hb. destruct io; by simplify_eq.
Qed.

(** C8: from the arguments to the tables: a process that starts over an empty database or one
    that the service left behind runs for the deployment of its configuration, and after any
    number of passes, whatever the node answers to any call and whatever happens to any
    transaction, the database holds the complete record of some chain of that deployment; as long
    as no acknowledgement is lost the state in memory is the stored one.  No start and no run
    turns the database of one deployment into that of another. *)
Theorem service_safe args io db db1 sv node_at io_at n w h r :
  known db -> startup args io db = (db1, Ok sv) ->
  service_run node_at io_at n sv db1 = (w, h, r) ->
  release_ok (release_identity (sv_config sv)) = true /\
  exists chain s, db_ok (cf_binding (sv_config sv)) chain (w_db w) s /\
    ((forall t, io_at t <> IoLost) -> r <> Panic -> w_state w = s).
Proof.
  intros Hk Hs Hr. apply startup_Ok in Hs as [Hc Hb].
  split; [by apply (cw_release args), from_args_config_wf|].
  destruct (bind_known _ _ _ _ _ Hk Hb) as [chain Hdb]. unfold service_run in Hr.
  apply (run_loop_inv (service_env node_at io_at) (release_identity (sv_config sv)) (cf_binding (sv_config sv))
           (forall t, io_at t <> IoLost)) in Hr; [|done|].
  - destruct r as [u|e|]; [| |destruct Hr as (chain' & s' & Hdb'); by exists chain', s'];
      destruct Hr as (chain' & s' & Hdb' & _ & Es); exists chain', s'; split; auto.
  - exists chain, (sv_state sv). split_and!; [done| |done]. exists chain. by eapply journal_held, dk_journal.
Qed.
End Service.
