(* ===== verification/WorkerTotal.v ===== *)
(** * The worker never panics

    The reducer's totality and the calm of the RPC client ([source_calm]) carried through the
    worker: whatever the node serves, in whatever order, and whatever happens to the transactions, no pass ends in a panic, so the loop of
    [Ingestion::run] never dies: every failure is an error that the next pass retries. *)

From Stdlib Require Import String.
From stdpp Require Import strings.
From S2P Require Import Prelude Types Marker Roots Reducer Chain Store StoreInv Commit Queries Ingest IngestInv Config ConfigFacts Signer Rpc RpcFacts Service Serde Total.

Section WorkerTotal.
Context {JV : Type} {P : Primitives}.
Context `{!Json JV Binding, !Json JV ChainState, !Json JV BlockDelta, !Json JV Event,
          !Json JV ObjectState, !Json JV TxView}.
Context (env : Env) (release : ReleaseIdentity) (b : Binding).

#[local] Abbreviation W := (Worker (JV := JV)).
#[local] Abbreviation DB := (Db JV).

#[local] Arguments store_apply_block : simpl never.
#[local] Arguments rollback_tip : simpl never.
#[local] Arguments load_state : simpl never.
#[local] Arguments replace_mempool : simpl never.

Lemma held_sound c s : held b c s -> sound s.
Proof.
  induction 1 as [|c s block s' d _ IH Ha]; [apply sound_new|].
  pose proof (apply_block_sound block s IH) as H. by rewrite Ha in H.
Qed.

(** The node serves blocks whose transactions fit in memory. *)
Definition serves_sized : Prop := forall t height block,
  src_block (source_at env t) height = Ok block -> sized block.

Context (Hsized : serves_sized) (Hcalm : forall t, source_calm (source_at env t)).

#[local] Abbreviation I := (worker_inv False b).
#[local] Abbreviation kept := (keeps False b).
#[local] Abbreviation no_loss := (fun f : False => False_ind (forall t, io_at env t <> IoLost) f).

Definition runs {A} (m : st W IngestError A) : Prop := forall w, I w -> (m w).2 <> Panic.

Lemma runs_bind {A B} (m : st W IngestError A) (f : A -> st W IngestError B) :
  kept m -> runs m -> (forall a, runs (f a)) -> runs (st_bind m f).
Proof.
  intros Hk Hm Hf w Hw. unfold st_bind. specialize (Hk w Hw). specialize (Hm w Hw).
  destruct (m w) as [w1 [a|e|]]; [by apply Hf|done..].
Qed.
Lemma runs_lift {A} (r : res IngestError A) : r <> Panic -> runs (st_lift r).
Proof. by intros Hr w _. Qed.
Lemma runs_get : runs st_get.
Proof. by intros w _. Qed.
Lemma runs_ask {A} (f : BlockSource -> res CallError A) :
  (forall src, source_calm src -> f src <> Panic) -> runs (ask env f).
Proof. intros Hf w _ Hp. by apply map_err_Panic, Hf in Hp. Qed.

Lemma insert_mempool_no_panic txs : no_panic (insert_mempool (JV := JV) txs).
Proof.
  induction txs as [|tx txs IH]; [by intros db|]. cbn [insert_mempool]. intros db. rewrite get_bind.
  revert db. refine (fun db => no_panic_bind _ _ (no_panic_require _ _) _ db). intros _.
  by apply (no_panic_bind (st_modify _)).
Qed.

Lemma replace_mempool_no_panic io txs : no_panic (replace_mempool (JV := JV) io txs).
Proof.
  apply no_panic_transact, (no_panic_bind (st_modify _)); [by intros db|intros _].
  apply insert_mempool_no_panic.
Qed.

Lemma runs_refresh : runs (refresh_mempool env).
Proof.
  unfold refresh_mempool. apply runs_bind; [apply keeps_ask|apply runs_ask; by intros ? []|]. intros txs w _.
  unfold store_call, st_bind, call_store.
  pose proof (replace_mempool_no_panic (io_at env (w_clock w)) txs (w_db w)) as Hp.
  by destruct (replace_mempool _ _ _) as [db [[]|e|]].
Qed.

Lemma runs_ingest height : runs (ingest_height env release height).
Proof.
  intros w (chain & s & Hdb & [c Hc] & _). unfold ingest_height, st_bind at 1, ask.
  destruct (src_block _ height) as [block|e|] eqn:Eb; [|done|by apply (calm_block _ (Hcalm _)) in Eb]. cbn [map_err]. rewrite get_bind. cbn [w_state tick].
  pose proof (apply_block_calm block (w_state w) (held_sound _ _ Hc) (Hsized _ _ _ Eb)) as Hp.
  destruct (apply_block block (w_state w)) as [post [d|e|]] eqn:Ha; [|done..]. rewrite modify_bind.
  unfold st_bind at 1, call_store. cbn.
  destruct (store_apply_block _ post d release (w_db w)) as [db' r] eqn:Hst.
  destruct (commit_any _ _ _ _ _ _ _ _ _ _ _ _ Hdb Ha Hst) as [(_ & -> & _)|([e ->] & Hdb')]; [done|].
  assert (Hdb2 : exists chain2 s2, db_ok b chain2 db' s2).
  { destruct Hdb' as [->|(_ & _ & Hok)]; eauto. }
  destruct Hdb2 as (chain2 & s2 & Hdb2). unfold st_bind at 1, call_store. cbn.
  pose proof (load_state_Some b (io_at env (S (S (w_clock w)))) chain2 db' s2 _ Hdb2 eq_refl) as El.
  destruct (load_state _ db') as [db2 r2]. cbn in El. destruct El as [->|[e2 ->]]; done.
Qed.

Lemma runs_catch_up heights : runs (catch_up env release heights).
Proof.
  induction heights as [|h rest IH]; [by intros w _|].
  apply runs_bind; [by apply keeps_ingest|apply runs_ingest|done].
Qed.

Lemma runs_reconcile best : runs (reconcile env best).
Proof.
  intros w (chain & s & Hdb & Hh & Hs). unfold reconcile. rewrite get_bind.
  destruct (reconcile_reorg _ _ best w) as [w' r] eqn:H.
  eapply (reconcile_cases env b False) in H as (_ & _ & Hp); [by apply Hp|done|exact Hdb|done|done|].
  rewrite (journal_size _ _ _ _ _ (dk_journal _ _ _ _ Hdb)). lia.
Qed.

Lemma runs_first : runs (first_height env).
Proof.
  apply runs_bind; [apply keeps_get|apply runs_get|]. intros w. destruct (tip_height (w_state w)); [|apply runs_ask; by intros ? []].
  apply runs_bind; [apply keeps_lift| |by intros ? ? ?].
  apply runs_lift. unfold ok_or. by destruct (checked_add _ _ _).
Qed.

Lemma runs_once : runs (run_once env release).
Proof.
  apply runs_bind; [apply keeps_get|apply runs_get|intros w0].
  apply runs_bind; [apply keeps_ask|apply runs_ask; by intros ? []|intros status].
  apply runs_bind; [apply keeps_lift|apply runs_lift; by destruct (ready_for _ _)|intros _].
  apply runs_bind; [apply keeps_ask|apply runs_ask; by intros ? []|intros best].
  apply runs_bind; [by apply keeps_reconcile|apply runs_reconcile|intros _].
  apply runs_bind; [apply keeps_first|apply runs_first|intros [first|]]; [|apply runs_refresh].
  apply runs_bind; [by apply keeps_catch_up|apply runs_catch_up|intros _; apply runs_refresh].
Qed.

Lemma run_loop_no_panic n h w w' h' r :
  I w -> run_loop env release n h w = (w', h', r) -> r <> Panic.
Proof.
  revert w h. induction n as [|n IH]; intros w h Hw H; cbn [run_loop] in H; [by simplify_eq|].
  unfold run_pass in H. pose proof (keeps_run_once env release b False no_loss w Hw) as Hk.
  pose proof (runs_once w Hw) as Hr.
  destruct (run_once env release w) as [w1 [[]|e|]]; [by eapply IH|by eapply IH|done].
Qed.
End WorkerTotal.

Section ServiceTotal.
Context {JV : Type} {P : Primitives} {X : BitcoinCrate} {Y : Platform} `{!HexCodec, !AgreementCrypto}.
Context `{!Json JV Binding, !Json JV ChainState, !Json JV BlockDelta, !Json JV Event,
          !Json JV ObjectState, !Json JV TxView}.
Context (zmq_feature : bool) (zmq_connects : string -> bool) (client_builds : bool).

(** What the crate's decoder returns fits in memory. *)
Definition decodes_sized : Prop := forall bytes decoded, deserialize_block bytes = Some decoded ->
  Forall (fun tx => len (transaction_input tx) <= u32_max + 1) (block_txdata decoded).

Lemma source_sized nodes height block :
  decodes_sized -> src_block (rpc_source nodes) height = Ok block -> sized block.
Proof.
  intros Hd Hb. pose proof (rpc_block_post nodes height 0%nat) as Hp. change (answer (rpc_block nodes height) = Ok block) in Hb. unfold answer in Hb.
  unfold st_post in Hp. destruct (rpc_block nodes height 0%nat) as [t [view|e|]]; [|done..].
  injection Hb as ->. destruct Hp as (decoded & [Hs _ _ _ Hv]).
  assert (Hf : Forall (fun tx => len (transaction_input tx) <= u32_max + 1) (block_txdata decoded)).
  { destruct Hs as (display & block_hex & raw & _ & _ & _ & Hraw & _). by eapply Hd. }
  unfold sized. revert Hv Hf. generalize (local_of height (block_txdata decoded)). intros local Hv Hf.
  eapply Forall2_Forall_r; [exact Hv|]. eapply Forall_impl; [exact Hf|]. intros tx Hx view Hview.
  unfold len in *. by rewrite (vo_inputs _ _ _ _ Hview).
Qed.

(** C11: the service never dies in its worker: a process started from its arguments over a database
    it can be started on makes any number of passes without a panic, of the worker, the reducer,
    the store or a method of the RPC client, whatever the node answers to any call, canonical chain
    or not, and whatever happens to any transaction; each pass succeeds or reports an error, and
    the next one starts. *)
Theorem service_never_panics args io db db1 sv node_at io_at n w h r :
  decodes_sized -> known db -> startup zmq_feature zmq_connects client_builds args io db = (db1, Ok sv) ->
  service_run node_at io_at n sv db1 = (w, h, r) -> r <> Panic.
Proof.
  intros Hd Hk Hs Hr. apply startup_Ok in Hs as [_ Hb].
  destruct (bind_known _ _ _ _ _ Hk Hb) as [chain Hdb]. unfold service_run in Hr.
  eapply (run_loop_no_panic _ _ (cf_binding (sv_config sv))); [| | |exact Hr].
  - intros t height block. by apply source_sized.
  - intros t. apply rpc_source_calm.
  - exists chain, (sv_state sv). split_and!; [done| |done]. exists chain. by eapply journal_held, dk_journal.
Qed.
End ServiceTotal.
