(* ===== verification/Settling.v ===== *)
(** * A fleet over a settled node

    Several workers whose nodes all show the same chain, some of them silent at times.  As long as
    no worker follows another branch, whatever order their calls take and whatever fails, the
    stored chain is a prefix of the node's and never shrinks; and a worker that keeps making calls
    that are answered brings it to completion, whoever else commits, refuses or dies in between. *)

From stdpp Require Import relations.
From S2P Require Import Prelude Types Marker Roots Reducer Invariant Chain Reach Store StoreInv Commit Queries Ingest IngestInv Converge Fleet FleetInv WorkerTotal.

Section Settling.
Context {JV : Type} {P : Primitives}.
Context `{!Json JV Binding, !Json JV ChainState, !Json JV BlockDelta, !Json JV Event,
          !Json JV ObjectState, !Json JV TxView}.

#[local] Abbreviation DB := (Db JV).

#[local] Arguments store_apply_block : simpl never.
#[local] Arguments rollback_tip : simpl never.
#[local] Arguments load_state : simpl never.
#[local] Arguments replace_mempool : simpl never.

(** The settled node, its chain (oldest block first) and the state of that chain. *)
Context (b : Binding) (src : BlockSource) (canon : list BlockView) (best : Z) (G : Ledger) (sf : ChainState).
Context (Hserves : serves b src canon [] best) (Hcanon : canonical b G (reverse canon) sf).
Context (Hhashes : NoDup (blk_hash <$> canon)).

(** ** Prefixes of the chain *)

(** The state after the first [n] blocks. *)
Definition prefix (n : nat) (s : ChainState) : Prop :=
  (n <= length canon)%nat /\ exists g, canonical b g (reverse (take n canon)) s.

Lemma prefix_exists n : (n <= length canon)%nat -> exists s, prefix n s.
Proof.
  intros Hn. pose proof Hcanon as HS. rewrite <- (take_drop n canon), reverse_app in HS.
  apply canonical_suffix in HS as (g & s & Hs). exists s. split; [done|by exists g].
Qed.

Lemma prefix_full s : prefix (length canon) s -> s = sf.
Proof.
  intros [_ [g Hg]]. rewrite take_ge in Hg by done. by destruct (canonical_det _ _ _ _ _ _ Hg Hcanon) as [_ ->].
Qed.

Lemma prefix_det n s1 s2 : prefix n s1 -> prefix n s2 -> s1 = s2.
Proof. intros [_ [g1 H1]] [_ [g2 H2]]. by destruct (canonical_det _ _ _ _ _ _ H1 H2) as [_ ->]. Qed.

Lemma prefix_tip n s : prefix n s ->
  tip_height s = blk_height <$> last (take n canon) /\ tip_hash s = blk_hash <$> last (take n canon) /\ binding s = b.
Proof.
  intros [_ [g Hs]]. apply canonical_held, held_tip in Hs as (E1 & E2 & E3 & _). by rewrite E1, E2, head_reverse.
Qed.

Lemma last_take n x : canon !! n = Some x -> last (take (S n) canon) = Some x.
Proof. intros Hx. by rewrite (take_S_r _ _ _ Hx), last_snoc. Qed.

Lemma prefix_tip_S n s : prefix (S n) s ->
  exists x, canon !! n = Some x /\ tip_height s = Some (blk_height x) /\ tip_hash s = Some (blk_hash x).
Proof.
  intros Hs. destruct Hs as [Hn ?] eqn:E. clear E. destruct (lookup_lt_is_Some_2 canon n) as [x Hx]; [lia|].
  exists x. destruct (prefix_tip _ _ Hs) as (-> & -> & _). by rewrite (last_take _ _ Hx).
Qed.

Lemma prefix_tip_0 s : prefix 0 s -> tip_height s = None /\ tip_hash s = None.
Proof. intros Hs. destruct (prefix_tip _ _ Hs) as (-> & -> & _). done. Qed.

(** A state determines how many blocks led to it. *)
Lemma prefix_inj n m s : prefix n s -> prefix m s -> n = m.
Proof.
  intros Hn Hm. destruct n as [|n], m as [|m]; [done| | |].
  - apply prefix_tip_0 in Hn as [Hn _]. apply prefix_tip_S in Hm as (? & _ & Hm & _). congruence.
  - apply prefix_tip_0 in Hm as [Hm _]. apply prefix_tip_S in Hn as (? & _ & Hn & _). congruence.
  - apply prefix_tip_S in Hn as (x & Hx & _ & Hn), Hm as (y & Hy & _ & Hm). f_equal.
    rewrite Hn in Hm. injection Hm as E. eapply (NoDup_lookup _ _ _ (blk_hash x) Hhashes).
    + by rewrite list_lookup_fmap, Hx.
    + rewrite list_lookup_fmap, Hy. cbn. by rewrite E.
Qed.

Lemma prefix_next n s y : prefix n s -> canon !! n = Some y ->
  exists s' d g, apply_block y s = (s', Ok d) /\ prefix (S n) s' /\ reachable b g s /\
    txs_ok (namespace b) g (transactions y) /\ 0 <= blk_height y <= i64_max.
Proof.
  intros [_ [g Hs]] Hy. pose proof (lookup_lt_Some _ _ _ Hy) as Hl.
  destruct (canonical_next b g G (take n canon) y (drop (S n) canon) s sf) as (s' & d & Hok & Ha & Hh & Hs'); [done| |].
  { by rewrite take_drop_middle. }
  exists s', d, g. split; [done|]. split; [split; [lia|]|].
  - exists (ledger_txs (transactions y) g). by rewrite (take_S_r _ _ _ Hy).
  - split; [by eapply canonical_reachable|done].
Qed.

(** The heights still to fetch. *)
Definition heights_after (n : nat) : list Z := blk_height <$> drop n canon.

Lemma heights_from n s first :
  prefix n s -> (n = 0%nat -> exists x, head canon = Some x /\ first = blk_height x) ->
  (forall t, tip_height s = Some t -> first = t + 1) -> canon <> [] -> height_range first best = heights_after n.
Proof.
  intros Hs H0 Ht Hne.
  assert (Hl : forall x, last (take n canon) = Some x -> first = blk_height x + 1).
  { intros x Hx. apply Ht. destruct (prefix_tip _ _ Hs) as (-> & _). by rewrite Hx. }
  eapply (height_range_post b src canon best [] G (take n canon)); [done|by rewrite take_drop|done| |done|done].
  intros y Hy. destruct n as [|n].
  - destruct (H0 eq_refl) as (x & Hx & ->). rewrite drop_0 in Hy. congruence.
  - destruct (prefix_tip_S _ _ Hs) as (x & Hx & Ex & _). rewrite (Hl x) by by apply last_take.
    rewrite head_lookup, lookup_drop, Nat.add_0_r in Hy.
    pose proof Hs as [_ [g Hc]]. destruct (prefix_next _ _ _ Hs Hy) as (s' & d & g' & Ha & _).
    apply apply_block_delta in Ha as (_ & _ & _ & _ & _ & _ & _ & L & _). by destruct (L _ Ex) as [-> _].
Qed.

(** ** Workers on the chain *)

(** A node that answers like the settled one whenever it answers, and never panics. *)
Record truthful (src' : BlockSource) : Prop := {
  tf_calm : source_calm src';
  tf_best : forall h, src_best_height src' = Ok h -> h = best;
  tf_hash : forall h x, src_block_hash src' h = Ok x -> src_block_hash src h = Ok x;
  tf_block : forall h x, src_block src' h = Ok x -> src_block src h = Ok x;
  tf_init : forall r, src_transaction_height src' (init_txid b) = Ok r ->
    src_transaction_height src (init_txid b) = Ok r;
}.

(** The database holds the first [j] blocks. *)
Definition stored_at (j : nat) (db : DB) : Prop :=
  exists s, prefix j s /\ db_ok b (reverse (take j canon)) db s.

(** A worker that has followed the chain for [n] blocks, not ahead of the [j] stored ones; one block
    more while its commit is pending. *)
Definition process_at (j n : nat) (p : Process) : Prop :=
  (n <= j)%nat /\
  match p_pc p with
  | AskTipHash best' tip => prefix n (p_state p) /\ best' = best /\ tip_height (p_state p) = Some tip
  | RollBack _ => False
  | AskInit best' => prefix n (p_state p) /\ best' = best /\ n = 0%nat
  | AskBlock h rest => prefix n (p_state p) /\ h :: rest = heights_after n
  | Commit d rest => exists y s0, canon !! n = Some y /\ prefix n s0 /\ apply_block y s0 = (p_state p, Ok d) /\
      rest = heights_after (S n)
  | Reload before _ => prefix n before
  | _ => prefix n (p_state p)
  end.

Definition live (p : Process) : Prop := p_pc p <> Stopped Panic.

(** How many of its own calls a worker is at most away from a commit that succeeds: one that is
    behind learns so from a commit that is refused, and starts over. *)
Definition calls_left (pc : Pc) : nat :=
  match pc with
  | RollBack _ => 0
  | Commit _ _ => 1
  | AskBlock _ _ => 2
  | AskInit _ => 3
  | AskTipHash _ _ => 4
  | AskBest => 5
  | AskStatus => 6
  | Stopped _ => 7
  | Reload _ _ => 8
  | ReplaceMempool _ => 8
  | AskMempool => 9
  end.

Definition detour (j n : nat) : nat := if decide (n = j) then 0 else 10.

Definition rank (j n : nat) (pc : Pc) : nat :=
  match pc with
  | Reload _ _ => 8
  | _ => detour j n + calls_left pc
  end.

Lemma rank_bound j n pc : (rank j n pc <= 19)%nat.
Proof. unfold rank, detour. destruct (decide (n = j)), pc; cbn; lia. Qed.

(** Where a call leaves a worker: on the chain, and, when the call was answered and there is
    something left to store, at most [r] calls before the commit. *)
Definition arrives (j n r : nat) (answered : Prop) (p : Process) : Prop :=
  process_at j n p /\ live p /\
  (answered -> (j < length canon)%nat -> (rank j n (p_pc p) <= detour j n + r)%nat).

Lemma arrives_stopped j n r p a e :
  (n <= j)%nat -> prefix n (p_state p) -> ~ a -> arrives j n r a (goto (Stopped (Err e)) p).
Proof. intros Hj Hn Ha. split; [by split|]. by split. Qed.

Lemma arrives_mono j n r r' a p : (r <= r')%nat -> arrives j n r a p -> arrives j n r' a p.
Proof. intros Hr (Hp & Hl & Ha). split_and!; [done..|]. intros H1 H2. specialize (Ha H1 H2). lia. Qed.

Lemma arrives_answered {A} j n r p (answer : res CallError A) k :
  (n <= j)%nat -> prefix n (p_state p) -> answer <> Panic ->
  (forall a, answer = Ok a -> arrives j n r True (goto (k a) p)) ->
  arrives j n r (exists a, answer = Ok a) (goto (answered answer k) p).
Proof.
  intros Hj Hn Hc Hk. destruct answer as [a|e|]; cbn.
  - destruct (Hk a eq_refl) as (H1 & H2 & H3). split_and!; [done..|]. intros _. by apply H3.
  - apply arrives_stopped; [done..|]. by intros [? ?].
  - done.
Qed.

Lemma arrives_next j n p :
  (n <= j)%nat -> prefix n (p_state p) -> arrives j n 2 True (goto (next_height (heights_after n)) p).
Proof.
  intros Hj Hn. unfold heights_after. destruct (drop n canon) as [|y rest] eqn:Ed; cbn.
  - split; [by split|]. split; [done|]. intros _ Hlt. apply (f_equal length) in Ed. rewrite length_drop in Ed.
    cbn in Ed. lia.
  - split; [|split; [done|intros _ _; cbn; lia]]. split; [done|]. cbn. unfold heights_after. by rewrite Ed.
Qed.

Lemma arrives_reconciled j n p :
  (n <= j)%nat -> prefix n (p_state p) -> arrives j n 3 True (goto (reconciled best (p_state p)) p).
Proof.
  intros Hj Hn. unfold reconciled. destruct n as [|n].
  - destruct (prefix_tip_0 _ Hn) as [-> _]. split; [by split|]. split; [done|]. cbn. lia.
  - destruct (prefix_tip_S _ _ Hn) as (x & Hx & Et & _). rewrite Et.
    assert (Hc : checked_add u64_max (blk_height x) 1 = Some (blk_height x + 1)).
    { destruct Hn as [_ [g Hg]]. eapply canonical_tip_bound in Hg; [|by rewrite head_reverse; apply last_take].
      unfold checked_add. by rewrite decide_True by lia. }
    rewrite Hc, (heights_from (S n) (p_state p)); [|done|done|by rewrite Et; intros t [= <-]|by intros ->].
    eapply arrives_mono; [|by apply arrives_next]. lia.
Qed.

Lemma arrives_reconciling j n p :
  (n <= j)%nat -> prefix n (p_state p) -> arrives j n 4 True (goto (reconciling best (p_state p)) p).
Proof.
  intros Hj Hn. unfold reconciling. destruct n as [|n].
  - destruct (prefix_tip_0 _ Hn) as [E _]. rewrite E.
    eapply arrives_mono; [|by apply arrives_reconciled]. lia.
  - destruct (prefix_tip_S _ _ Hn) as (x & Hx & Et & _). rewrite Et.
    assert (Hb : blk_height x <= best) by (eapply sv_bound; [done|by eapply list_elem_of_lookup_2]).
    rewrite decide_False by lia. split; [by split|]. split; [done|]. cbn. lia.
Qed.

(** ** One call *)

(** A step of a worker: the stored prefix does not shrink, the worker stays on the chain, and when
    the step was answered and blocks are missing, it stored one or came nearer to it. *)
Definition stepped (j n : nat) (p : Process) (answered : Prop) (db' : DB) (p' : Process) : Prop :=
  exists j' n', (j <= j')%nat /\ stored_at j' db' /\ process_at j' n' p' /\ (live p -> live p') /\
    (answered -> live p -> (j < length canon)%nat ->
     (j < j')%nat \/ j' = j /\ (rank j n' (p_pc p') < rank j n (p_pc p))%nat).

Lemma stepped_arrives j n r p a db p' :
  stored_at j db -> (r < calls_left (p_pc p))%nat -> match p_pc p with Reload _ _ => False | _ => True end ->
  arrives j n r a p' -> stepped j n p a db p'.
Proof.
  intros Hdb Hr Hpc (Hp & Hl & Ha). exists j, n. split_and!; [done..|]. intros Hs _ Hlt. right. split; [done|].
  specialize (Ha Hs Hlt). unfold rank at 2. destruct (p_pc p); try done; lia.
Qed.

Lemma stepped_mono j n p (a a' : Prop) db p' : (a' -> a) -> stepped j n p a db p' -> stepped j n p a' db p'.
Proof. intros Ha (j' & n' & ? & ? & ? & ? & Hs). exists j', n'. split_and!; auto. Qed.

(** The calls to the node. *)
Lemma asked j n db p src' io :
  stored_at j db -> process_at j n p -> truthful src' ->
  match p_pc p with AskStatus | AskBest | AskTipHash _ _ | AskInit _ | AskMempool => True | _ => False end ->
  stepped j n p (src' = src) (process_step src' io db p).1 (process_step src' io db p).2.
Proof.
  intros Hdb [Hj Hp] Ht Hpc. unfold process_step.
  destruct (p_pc p) as [| |best' tip|best'|best'|h rest|d rest|before e| |txs|r] eqn:Ep; try done; cbn [fst snd].
  - apply (stepped_arrives j n 5); [done|rewrite Ep; cbn; lia|by rewrite Ep|].
    pose proof (calm_status _ (tf_calm _ Ht)) as Hc. destruct (src_status src') as [status|e|] eqn:Es; cbn; [| |done].
    + destruct (prefix_tip _ _ Hp) as (_ & _ & ->).
      destruct (ready_for status (network b)) eqn:Er; [split; [by split|]; split; [done|cbn; lia]|].
      apply arrives_stopped; [done..|]. intros ->. destruct (sv_ready _ _ _ _ _ Hserves) as (st & E & ?). congruence.
    + apply arrives_stopped; [done..|]. intros ->. destruct (sv_ready _ _ _ _ _ Hserves) as (st & ? & ?). congruence.
  - eapply stepped_mono; [|apply (stepped_arrives j n 4); [done|rewrite Ep; cbn; lia|by rewrite Ep|]].
    2: { apply arrives_answered; [done|done|apply (calm_best_height _ (tf_calm _ Ht))|]. intros h Hh%(tf_best _ Ht). subst h. by apply arrives_reconciling. }
    intros ->. rewrite (sv_best _ _ _ _ _ Hserves). by eexists.
  - destruct Hp as (Hn & -> & Et). destruct n as [|n]; [by rewrite (proj1 (prefix_tip_0 _ Hn)) in Et|].
    destruct (prefix_tip_S _ _ Hn) as (x & Hx & Et' & Eh). rewrite Et' in Et. injection Et as <-.
    assert (Hh : src_block_hash src (blk_height x) = Ok (blk_hash x))
      by (eapply sv_hash; [done|by eapply list_elem_of_lookup_2]).
    eapply stepped_mono; [|apply (stepped_arrives j (S n) 3); [done|rewrite Ep; cbn; lia|by rewrite Ep|]].
    2: { apply arrives_answered; [done|done|apply (calm_block_hash _ (tf_calm _ Ht))|]. intros h Ha%(tf_hash _ Ht). rewrite Eh.
      rewrite decide_True by congruence. by apply arrives_reconciled. }
    intros ->. rewrite Hh. by eexists.
  - destruct Hp as (Hn & -> & ->). destruct (prefix_tip _ _ Hn) as (_ & _ & Eb).
    eapply stepped_mono; [|apply (stepped_arrives j 0 2); [done|rewrite Ep; cbn; lia|by rewrite Ep|]].
    2: { apply arrives_answered; [done|done|apply (calm_transaction_height _ (tf_calm _ Ht))|]. rewrite Eb. intros r Ha%(tf_init _ Ht).
      rewrite (sv_init _ _ _ _ _ Hserves) in Ha. injection Ha as <-. destruct (head canon) as [x|] eqn:Ex; cbn.
      - rewrite (heights_from 0 (p_state p)); [by apply arrives_next|done|by intros _; exists x| |by intros E; rewrite E in Ex].
        intros t. by rewrite (proj1 (prefix_tip_0 _ Hn)).
      - split; [by split|]. split; [done|]. intros _ Hlt. apply head_None in Ex. rewrite Ex in Hlt. cbn in Hlt. lia. }
    intros ->. rewrite Eb, (sv_init _ _ _ _ _ Hserves). by eexists.
  - eapply stepped_mono; [|apply (stepped_arrives j n 8); [done|rewrite Ep; cbn; lia|by rewrite Ep|]].
    2: { apply arrives_answered; [done|done|apply (calm_mempool _ (tf_calm _ Ht))|]. intros txs _. split; [by split|]. split; [done|]. cbn. lia. }
    intros ->. destruct (sv_mempool _ _ _ _ _ Hserves) as (txs & -> & _). by eexists.
Qed.

(** A block is read and reduced. *)
Lemma asked_block j n db p src' io h rest :
  stored_at j db -> process_at j n p -> truthful src' -> p_pc p = AskBlock h rest ->
  stepped j n p (src' = src) (process_step src' io db p).1 (process_step src' io db p).2.
Proof.
  intros Hdb [Hj Hp] Ht Ep. unfold process_step. rewrite Ep in Hp |- *. destruct Hp as [Hn Eh].
  unfold heights_after in Eh. destruct (drop n canon) as [|y post] eqn:Ed; [done|]. injection Eh as -> ->.
  assert (Hy : canon !! n = Some y) by by rewrite <- (Nat.add_0_r n), <- lookup_drop, Ed.
  assert (Hb : src_block src (blk_height y) = Ok y) by (eapply sv_block; [done|by eapply list_elem_of_lookup_2]).
  pose proof (calm_block _ (tf_calm _ Ht) (blk_height y)) as Hc.
  destruct (src_block src' (blk_height y)) as [x|e|] eqn:Ex; cbn [fst snd]; [| |done].
  - apply (tf_block _ Ht) in Ex. rewrite Hb in Ex. injection Ex as <-.
    destruct (prefix_next _ _ _ Hn Hy) as (s' & d & g & Ha & _). rewrite Ha. cbn [fst snd].
    apply (stepped_arrives j n 1); [done|rewrite Ep; cbn; lia|by rewrite Ep|].
    split; [|split; [done|cbn; lia]]. split; [done|]. cbn. exists y, (p_state p). split_and!; [done..|].
    unfold heights_after. replace (S n) with (n + 1)%nat by lia. by rewrite <- drop_drop, Ed.
  - apply (stepped_arrives j n 1); [done|rewrite Ep; cbn; lia|by rewrite Ep|].
    apply arrives_stopped; [done..|]. congruence.
Qed.

(** The node's next block is accepted on top of the stored ones. *)
Lemma next_accepted n db s y s' d g release :
  prefix n s -> db_ok b (reverse (take n canon)) db s -> canon !! n = Some y -> apply_block y s = (s', Ok d) ->
  reachable b g s -> txs_ok (namespace b) g (transactions y) -> 0 <= blk_height y <= i64_max ->
  release_ok release = true -> exists db', store_apply_block IoOk s' d release db = (db', Ok tt).
Proof.
  intros Hn Hdb Hy Ha Hr Hok Hh Hrel.
  destruct (commit_accepts b g (reverse (take n canon)) db s y s' d release) as (db' & Hc & _); [done..| |by exists db'].
  intros h row Hrow E. apply (journal_hashes b _ _ _ _ (dk_journal _ _ _ _ Hdb)) in Hrow as (x & Hx & E').
  rewrite elem_of_reverse, elem_of_take in Hx. destruct Hx as (i & Hi & Hlt).
  enough (i = n) by lia. eapply (NoDup_lookup _ _ _ (blk_hash y) Hhashes).
  - rewrite list_lookup_fmap, Hi. cbn. by rewrite <- E, E'.
  - by rewrite list_lookup_fmap, Hy.
Qed.

(** The pending commit. *)
Lemma committed j n db p io d rest src' :
  stored_at j db -> process_at j n p -> p_pc p = Commit d rest ->
  stepped j n p (io = IoOk /\ release_ok (p_release p) = true) (process_step src' io db p).1 (process_step src' io db p).2.
Proof.
  intros (s & Hs & Hdb) [Hj Hp] Ep. pose proof Ep as Ec. unfold process_step. rewrite Ep in Hp |- *.
  destruct Hp as (y & s0 & Hy & Hn & Ha & ->). pose proof (apply_block_delta _ _ _ _ Ha) as [Eb _].
  assert (Hbefore : prefix n (bd_before d)) by by rewrite Eb.
  destruct (store_apply_block io (p_state p) d (p_release p) db) as [db' r] eqn:Hst.
  assert (Hrefused : forall e j', r = Err e -> (j <= j')%nat -> stored_at j' db' ->
    ((io = IoOk /\ release_ok (p_release p) = true) -> n <> j) ->
    stepped j n p (io = IoOk /\ release_ok (p_release p) = true) db' (goto (Reload (bd_before d) e) p)).
  { intros e j' _ Hle Hdb' Hne. exists j', n. split; [done|]. split; [done|]. split; [split; [lia|done]|]. split; [done|].
    intros Hsteady _ _. specialize (Hne Hsteady). destruct (decide (j = j')) as [<-|]; [|left; lia]. right. split; [done|].
    unfold rank. rewrite Ec. cbn. unfold detour. rewrite decide_False by done. lia. }
  destruct (decide (n = j)) as [->|Hne].
  - assert (s0 = s) as -> by by eapply prefix_det.
    destruct (prefix_next _ _ _ Hs Hy) as (s' & d' & g & Ha' & Hs' & Hr & Hok & Hh). rewrite Ha in Ha'. injection Ha' as <- <-.
    assert (Hpush : forall db1, db_ok b (y :: reverse (take j canon)) db1 (p_state p) -> stored_at (S j) db1).
    { intros db1 Hdb1. exists (p_state p). split; [done|]. by rewrite (take_S_r _ _ _ Hy), reverse_snoc, reverse_nil. }
    destruct (commit_cases _ _ _ _ _ _ _ _ _ _ _ Hdb Ha Hst) as [(-> & _ & Hdb')|[[e ->] Hdb']]; cbn [fst snd].
    + destruct (arrives_next (S j) (S j) p) as (H1 & H2 & _); [done..|].
      exists (S j), (S j). split_and!; [lia|by apply Hpush|done|done|]. intros _ _ _. left. lia.
    + assert (Hlost : (io = IoOk /\ release_ok (p_release p) = true) -> j <> j).
      { intros [-> Hrel] _. destruct (next_accepted _ _ _ _ _ _ _ _ Hs Hdb Hy Ha Hr Hok Hh Hrel) as [db1 E].
        rewrite E in Hst. by injection Hst. }
      destruct Hdb' as [->|[_ Hdb']]; [apply (Hrefused e j); [done|done|by exists s|done]|].
      apply (Hrefused e (S j)); [done|lia|by apply Hpush|done].
  - destruct (stale_refused _ _ _ _ (p_state p) d (p_release p) io Hdb) as [e E].
    { intros E. apply Hne. eapply prefix_inj; [exact Hbefore|by rewrite E]. }
    rewrite E in Hst. injection Hst as <- <-. cbn [fst snd]. apply (Hrefused e j); [done|done|by exists s|done].
Qed.

(** The reload after a refusal. *)
Lemma reloaded j n db p io before e src' :
  stored_at j db -> process_at j n p -> p_pc p = Reload before e ->
  stepped j n p (io = IoOk) (process_step src' io db p).1 (process_step src' io db p).2.
Proof.
  intros Hdb [Hj Hp] Ep. pose proof Ep as Ec. pose proof Hdb as (s & Hs & Hdb0). unfold process_step. rewrite Ep in Hp |- *.
  pose proof (load_state_db io db) as E1. destruct (load_state io db) as [db1 r] eqn:El. cbn in E1. subst db1.
  destruct io; cbn in El.
  - pose proof (load_state_stored b _ _ _ Hdb0) as E2. unfold load_state in *. rewrite El in E2. cbn in E2. subst r. cbn [fst snd].
    exists j, j. split_and!; [done|done|by split|done|]. intros _ _ _. right. split; [done|].
    unfold rank. rewrite Ec. cbn. unfold detour. by rewrite decide_True by done; lia.
  - unfold load_state in El. injection El as <-. cbn [fst snd]. exists j, n. split_and!; [done|done|by split|done|done].
  - unfold load_state in El. injection El as <-. cbn [fst snd]. exists j, n. split_and!; [done|done|by split|done|done].
Qed.

(** The mempool refresh, and the start of the next pass. *)
Lemma refreshed j n db p io src' :
  stored_at j db -> process_at j n p -> match p_pc p with ReplaceMempool _ | Stopped _ => True | _ => False end ->
  stepped j n p True (process_step src' io db p).1 (process_step src' io db p).2.
Proof.
  intros Hdb [Hj Hp] Hpc. unfold process_step.
  destruct (p_pc p) as [| | | | | | | | |txs|r] eqn:Ep; try done; clear Hpc.
  - destruct (replace_mempool_db io txs db) as [pool Ei]. pose proof (replace_mempool_no_panic io txs db) as Hnp.
    destruct (replace_mempool io txs db) as [db1 r]. cbn in Ei, Hnp. subst db1.
    assert (Hpool : stored_at j (set_mempool pool db)).
    { destruct Hdb as (s & Hs & Hdb). exists s. split; [done|by apply db_ok_mempool]. }
    destruct r; [| |done]; cbn [fst snd];
      (apply (stepped_arrives j n 7); [done|rewrite Ep; cbn; lia|by rewrite Ep|];
       split; [by split|]; split; [done|cbn; lia]).
  - destruct r as [[]|e|]; cbn [fst snd];
      [apply (stepped_arrives j n 6); [done|rewrite Ep; cbn; lia|by rewrite Ep|]; split; [by split|]; split; [done|cbn; lia]..|].
    exists j, n. split_and!; [done|done|split; [done|by rewrite Ep]|done|]. intros _ Hl. unfold live in Hl. by rewrite Ep in Hl.
Qed.

(** Any call. *)
Lemma process_step_at j n db p src' io :
  stored_at j db -> process_at j n p -> truthful src' ->
  stepped j n p (src' = src /\ io = IoOk /\ release_ok (p_release p) = true)
    (process_step src' io db p).1 (process_step src' io db p).2.
Proof.
  intros Hdb Hp Ht. destruct (p_pc p) as [| |best' tip|best'|best'|h rest|d rest|before e| |txs|r] eqn:Ep.
  1-3, 5, 9: eapply stepped_mono; [|apply asked; [done..|by rewrite Ep]]; tauto.
  - destruct Hp as [_ Hp]. by rewrite Ep in Hp.
  - eapply stepped_mono; [|by eapply asked_block]. tauto.
  - eapply stepped_mono; [|by eapply committed]. tauto.
  - eapply stepped_mono; [|by eapply reloaded]. tauto.
  - eapply stepped_mono; [|apply refreshed; [done..|by rewrite Ep]]. tauto.
  - eapply stepped_mono; [|apply refreshed; [done..|by rewrite Ep]]. tauto.
Qed.

(** ** The fleet *)

Definition settled_fleet (j : nat) (f : Fleet) : Prop :=
  stored_at j (f_db f) /\ Forall (fun p => exists n, process_at j n p) (f_procs f).

Lemma process_at_mono j j' n p : (j <= j')%nat -> process_at j n p -> process_at j' n p.
Proof. intros Hj [Hn Hp]. split; [lia|done]. Qed.

Lemma processes_mono j j' (procs : list Process) : (j <= j')%nat ->
  Forall (fun p => exists n, process_at j n p) procs -> Forall (fun p => exists n, process_at j' n p) procs.
Proof. intros Hj Hf. eapply Forall_impl; [exact Hf|]. intros p [n Hp]. exists n. by eapply process_at_mono. Qed.

Lemma settled_step j f f' :
  settled_fleet j f -> fleet_step_over truthful f f' -> exists j', (j <= j')%nat /\ settled_fleet j' f'.
Proof.
  intros [Hdb Hps] Hs. pose proof Hdb as (s & Hj & Hok).
  destruct Hs as [db procs io b' release db' s1 Hb|db procs io b' db' r Hb _|db procs i p src' io db' p' Hi Ht Hp
    |db procs i p txs pool r Hi Hp|db procs i]; cbn in *.
  - rewrite (bind_exact _ _ _ _ _ _ Hok) in Hb. case_decide; [|done]. destruct io; cbn in Hb; simplify_eq.
    exists j. split; [done|]. split; [done|]. constructor; [|done]. exists j. by split.
  - rewrite (bind_exact _ _ _ _ _ _ Hok) in Hb. simplify_eq. exists j. by split.
  - destruct (Forall_lookup_1 _ _ _ _ Hps Hi) as [n Hn].
    pose proof (process_step_at j n db p src' io Hdb Hn Ht) as Hst. rewrite Hp in Hst.
    destruct Hst as (j' & n' & Hle & Hdb' & Hp' & _). exists j'. split; [done|]. split; [done|].
    apply Forall_insert; [by eapply processes_mono|by exists n'].
  - destruct (Forall_lookup_1 _ _ _ _ Hps Hi) as (n & Hn & Hn'). rewrite Hp in Hn'. exists j. split; [done|].
    split; [exists s; split; [done|by apply db_ok_mempool]|]. apply Forall_insert; [done|]. exists n. by split.
  - exists j. split; [done|]. split; [done|by apply Forall_delete].
Qed.

Lemma step_over_any answers (f f' : Fleet (JV := JV)) : fleet_step_over answers f f' -> fleet_step f f'.
Proof. destruct 1; [by eapply fleet_start|by eapply fleet_refused|by eapply fleet_run|by eapply fleet_overlap|apply fleet_die]. Qed.

(** A fleet that has seen nothing but this chain is settled, unless it works for another deployment. *)
Lemma fleet_begins (f : Fleet) :
  rtc (fleet_step_over truthful) no_fleet f ->
  f_db f = empty_db /\ f_procs f = [] \/ (exists j, settled_fleet j f) \/
  exists b' chain s, b' <> b /\ db_ok b' chain (f_db f) s /\ Forall (process_ok b') (f_procs f).
Proof.
  intros Hr. refine (rtc_ind_r (fun f => f_db f = empty_db /\ f_procs f = [] \/ (exists j, settled_fleet j f) \/
    exists b' chain s, b' <> b /\ db_ok b' chain (f_db f) s /\ Forall (process_ok b') (f_procs f)) no_fleet _ _ f Hr);
    [by left|]. clear f Hr.
  intros f1 f2 _ H12 [[Ed Ep]|[[j Hj]|(b' & chain & s & Hb & Hdb & Hps)]].
  - destruct (fleet_start_ok _ _ Ed Ep (step_over_any _ _ _ H12)) as [?|(b' & Hdb & Hps)]; [by left|]. right.
    destruct (decide (b' = b)) as [->|Hb]; [left|right; by exists b', [], (new_state b')].
    exists 0%nat. assert (H0 : prefix 0 (new_state b)) by (split; [lia|exists empty_ledger; constructor]).
    split; [by exists (new_state b)|]. clear Hps.
    destruct H12 as [db procs io b' release db' s1 H1|db procs io b' db' r H1 _|db procs i p src' io db' p' Hi
      |db procs i p txs pool r Hi|db procs i]; cbn in *; subst; [|done..|].
    + constructor; [|done]. exists 0%nat. split; [done|]. cbn.
      apply bind_empty in H1 as [Er [[-> ->]|Hdb1]]; [by destruct Hdb as [(? & ? & [=] & _)]|].
      destruct (db_ok_unique _ _ _ _ _ _ _ Hdb Hdb1) as [<- _]. by destruct io; cbn in Er; simplify_eq.
    + done.
  - right. left. destruct (settled_step _ _ _ Hj H12) as (j' & _ & ?). by exists j'.
  - right. right. destruct (fleet_step_ok _ _ _ _ _ Hdb Hps (step_over_any _ _ _ H12)) as (Hps' & chain' & s' & Hdb' & _).
    by exists b', chain', s'.
Qed.

(** ** One worker that keeps calling *)

(** One worker of a fleet, and the rest of it. *)
Record Watched := mkWatched {
  wt_db : DB;
  wt_proc : Process;
  wt_others : list Process;
}.

Definition fleet_of (w : Watched) : Fleet := mkFleet (wt_db w) (wt_others w ++ [wt_proc w]).

(** A run with [k] calls of the worker, every one answered by the node and the database; in between
    the others do what they like, with nodes that are truthful or silent. *)
Inductive watched_run : nat -> Watched -> Watched -> Prop :=
| watched_here w : watched_run 0 w w
| watched_own k w db' p' w' :
    process_step src IoOk (wt_db w) (wt_proc w) = (db', p') ->
    watched_run k (mkWatched db' p' (wt_others w)) w' -> watched_run (S k) w w'
| watched_other k w db' others' w' :
    fleet_step_over truthful (mkFleet (wt_db w) (wt_others w)) (mkFleet db' others') ->
    watched_run k (mkWatched db' (wt_proc w) others') w' -> watched_run k w w'.

Lemma truthful_self : truthful src.
Proof.
  split; [by eapply sv_calm| |done..]. intros h Hh. rewrite (sv_best _ _ _ _ _ Hserves) in Hh. by injection Hh.
Qed.

Lemma delete_app_lt {A} (l k : list A) i : (i < length l)%nat -> delete i (l ++ k) = delete i l ++ k.
Proof. revert i. induction l as [|x l IH]; intros [|i] Hi; cbn in *; [lia..|done|]. f_equal. apply IH. lia. Qed.

Lemma delete_ge_length {A} (l : list A) i : (length l <= i)%nat -> delete i l = l.
Proof. revert i. induction l as [|x l IH]; intros [|i] Hi; cbn in *; [done..|lia|]. f_equal. apply IH. lia. Qed.

(** Such a run is a run of the fleet. *)
Lemma watched_fleet k w w' : watched_run k w w' -> rtc (fleet_step_over truthful) (fleet_of w) (fleet_of w').
Proof.
  induction 1 as [w|k [db p others] db' p' w' Hp _ IH|k [db p others] db' others' w' Ho _ IH];
    [done|eapply rtc_l; [|exact IH]..]; clear IH; unfold fleet_of; cbn in *.
  - assert (E : others ++ [p'] = <[length others := p']> (others ++ [p])).
    { by rewrite insert_app_r_alt, Nat.sub_diag by done. }
    rewrite E. eapply fleet_run; [|exact truthful_self|exact Hp].
    by rewrite lookup_app_r, Nat.sub_diag by done.
  - remember (mkFleet db others) as f1 eqn:E1. remember (mkFleet db' others') as f2 eqn:E2.
    destruct Ho as [db0 procs io b' release db1 s Hb|db0 procs io b' db1 r Hb Hr|db0 procs i q src' io db1 q' Hi Ht Hq
      |db0 procs i q txs pool r Hi Hq|db0 procs i]; simplify_eq.
    + by eapply (fleet_start _ db (others ++ [p])).
    + by eapply fleet_refused.
    + rewrite <- insert_app_l by by eapply lookup_lt_Some. eapply fleet_run; [by apply lookup_app_l_Some|done..].
    + rewrite <- insert_app_l by by eapply lookup_lt_Some. eapply fleet_overlap; [by apply lookup_app_l_Some|done].
    + destruct (decide (i < length others)%nat).
      * rewrite <- delete_app_lt by done. apply fleet_die.
      * rewrite delete_ge_length by lia.
        rewrite <- (delete_ge_length (others ++ [p]) (length (others ++ [p]))) at 2 by done. apply fleet_die.
Qed.

(** The calls of the worker that are still needed at most. *)
Definition missing (j n : nat) (p : Process) : nat := rank j n (p_pc p) + 20 * (length canon - j).

Lemma process_step_release src' io db p : p_release (process_step src' io db p).2 = p_release p.
Proof.
  unfold process_step. destruct (p_pc p); repeat (case_match || case_decide); done.
Qed.

Lemma watched_settles k w w' j n :
  watched_run k w w' -> settled_fleet j (mkFleet (wt_db w) (wt_others w)) -> process_at j n (wt_proc w) ->
  live (wt_proc w) -> release_ok (p_release (wt_proc w)) = true ->
  exists j' n', (j <= j')%nat /\ settled_fleet j' (mkFleet (wt_db w') (wt_others w')) /\ process_at j' n' (wt_proc w') /\
    ((length canon <= j')%nat \/ (k + missing j' n' (wt_proc w') <= missing j n (wt_proc w))%nat).
Proof.
  intros Hr. revert j n. induction Hr as [w|k w db' p' w' Hp _ IH|k w db' others' w' Ho _ IH]; intros j n [Hdb Hps] Hat Hl Hrel;
    cbn in *.
  - exists j, n. split_and!; [done|done|done|by right].
  - pose proof (process_step_at j n (wt_db w) (wt_proc w) src IoOk Hdb Hat truthful_self) as Hst.
    pose proof (process_step_release src IoOk (wt_db w) (wt_proc w)) as Erel. rewrite Hp in Hst, Erel. cbn in Hst, Erel.
    destruct Hst as (j1 & n1 & Hle & Hdb1 & Hat1 & Hl1 & Hprog).
    destruct (IH j1 n1) as (j2 & n2 & Hle2 & Hf2 & Hat2 & Hm);
      [by split; [|eapply processes_mono]|done|by apply Hl1|congruence|].
    exists j2, n2. split_and!; [lia|done|done|]. destruct Hm as [?|Hm]; [by left|].
    destruct (decide (length canon <= j)%nat); [left; lia|right].
    unfold missing in *. pose proof (rank_bound j1 n1 (p_pc p')). 
    destruct Hprog as [?|[-> ?]]; [done|done|lia|lia|lia].
  - destruct (settled_step j (mkFleet (wt_db w) (wt_others w)) _ (conj Hdb Hps) Ho) as (j1 & Hle & Hf1).
    destruct (IH j1 n) as (j2 & n2 & Hle2 & Hf2 & Hat2 & Hm); [done|by eapply process_at_mono|done|done|].
    exists j2, n2. split_and!; [lia|done|done|]. destruct Hm as [?|Hm]; [by left|].
    destruct (decide (length canon <= j)%nat); [left; lia|right].
    unfold missing in *. destruct (decide (j = j1)) as [<-|]; [done|].
    pose proof (rank_bound j1 n (p_pc (wt_proc w))). lia.
Qed.

(** C13: the fleet settles: however the calls of its workers interleave, with new starts, crashes,
    failing transactions, lost acknowledgements and silent nodes, a fleet that follows the node's
    chain never stores anything but a prefix of it and never loses a block; and once one worker
    has made 20 calls for every missing block, answered and in any interleaving, the database
    holds exactly the node's chain.  The commits it loses on the way are those that another worker
    has won. *)
Theorem fleet_settles k w w' j :
  settled_fleet j (fleet_of w) -> live (wt_proc w) -> release_ok (p_release (wt_proc w)) = true ->
  watched_run k w w' ->
  (exists j', (j <= j')%nat /\ settled_fleet j' (fleet_of w')) /\
  ((20 * (length canon - j) <= k)%nat -> db_ok b (reverse canon) (wt_db w') sf).
Proof.
  intros [Hdb Hps] Hl Hrel Hr. cbn in Hdb, Hps. apply Forall_app in Hps as [Ho Hp]. apply Forall_singleton in Hp as [n Hp].
  destruct (watched_settles k w w' j n) as (j' & n' & Hle & [Hdb' Ho'] & Hp' & Hm); [done|by split|done..|].
  cbn in Hdb', Ho'. split.
  - exists j'. split; [done|]. split; [done|]. cbn. apply Forall_app. split; [done|]. apply Forall_singleton. by exists n'.
  - intros Hk. destruct Hdb' as (s & Hs & Hok). pose proof (proj1 Hs) as Hj'.
    assert (Hfull : j' = length canon).
    { unfold missing in Hm. pose proof (rank_bound j n (p_pc (wt_proc w))). lia. }
    subst j'. rewrite take_ge in Hok by done. by rewrite (prefix_full s) in Hok.
Qed.
End Settling.
