(* ===== verification/Resolution.v ===== *)
(** * From the node's blocks to canonical chains

    The reducer's theorems are about chains whose transactions are resolved: the script and value
    that an input reports are those of the coin it spends.  Here that assumption is discharged
    for chains read through [rpc_block]: it holds whenever no two transactions that the node
    showed the verifier share a txid but differ in their outputs.  What remains assumed of the
    node's chain is that its txids are new. *)

From S2P Require Import Prelude Types Marker Roots Reducer Validators Steps Invariant Chain Reach Lifecycle Ingest Rpc RpcFacts.

Section Resolution.
Context {P : Primitives} {X : BitcoinCrate} `{!HexCodec}.
Context (node_at : nat -> Node).

#[local] Abbreviation Resolved := (gmap Txid ResolvedTransaction).

(** ** Coins of real transactions *)

(** [K] are the transactions of the chain so far. *)
Definition coin_of (K : list Transaction) (op : OutPointRef) (out : OutputView) : Prop :=
  exists tx n o, tx ∈ K /\ op = OutPoint (wire_of (compute_txid tx)) (Z.of_nat n) /\
    transaction_output tx !! n = Some o /\ out = output_view o.

Definition ledger_real (K : list Transaction) (g : Ledger) : Prop :=
  forall op out, coins g !! op = Some out -> coin_of K op out.

(** A transaction of the chain and one that the node showed agree on their outputs when they
    agree on their txid. *)
Definition unambiguous (K : list Transaction) : Prop :=
  forall c p, c ∈ K -> p ∈ K \/ served node_at p ->
    compute_txid p = compute_txid c -> transaction_output p = transaction_output c.

(** What is left to assume of the next transactions: new txids, none of them all zero, and
    object keys that do not collide. *)
Fixpoint txs_new (ns : Hash32) (g : Ledger) (txs : list TxView) : Prop :=
  match txs with
  | [] => True
  | tx :: rest =>
      ((tx_txid tx ∉ seen g) /\ tx_txid tx <> hash_zero /\
       (forall t, t ∈ seen g -> derive_object_key ns t <> derive_object_key ns (tx_txid tx)) /\
       len (inputs tx) <= u32_max + 1) /\ txs_new ns (ledger_tx tx g) rest
  end.

Lemma coin_of_mono K1 K2 op out : K1 ⊆ K2 -> coin_of K1 op out -> coin_of K2 op out.
Proof. intros Hs (tx & n & o & Hk & Hr). exists tx, n, o. split; [by apply Hs|done]. Qed.

Lemma ledger_tx_real local K g tx view :
  view_of node_at local tx view -> tx ∈ K -> ledger_real K g -> ledger_real K (ledger_tx view g).
Proof.
  intros [Et _ _ _ _ _ Eo] Hk Hg op out. simpl. intros [Hc|[_ Hs]]%lookup_union_Some_raw.
  - apply elem_of_list_to_map_2, elem_of_lookup_imap in Hc as (n & o & [= -> ->] & Hn).
    rewrite Eo, list_lookup_fmap_Some in Hn. destruct Hn as (o' & -> & Hn). rewrite Et.
    exists tx, n, o'. done.
  - apply spend_coins_Some in Hs as [Hs _]. by apply Hg.
Qed.

Lemma view_input local tx view iv :
  view_of node_at local tx view -> iv ∈ inputs view ->
  exists i input, transaction_input tx !! i = Some input /\ inputs view !! i = Some iv /\
    input_of node_at local tx i input iv.
Proof.
  intros Hv [i Hi]%list_elem_of_lookup. pose proof (lookup_lt_Some _ _ _ Hi) as Hlt.
  rewrite (vo_inputs _ _ _ _ Hv) in Hlt. destruct (lookup_lt_is_Some_2 _ _ Hlt) as [input Hin].
  exists i, input. split; [done|]. split; [done|]. by eapply vo_input.
Qed.

(** Every input reports the coin it spends. *)
Lemma view_resolved h K g txs tx view iv out :
  view_of node_at (local_of h txs) tx view -> txs ⊆ K -> unambiguous K ->
  ledger_real K g -> coins g !! outpoint_zero = None ->
  iv ∈ inputs view -> coins g !! prevout iv = Some out ->
  prevout_script iv = script_pubkey out /\ prevout_value iv = value out.
Proof.
  intros Hv Hsub Hun Hg Hz Hiv Hop. apply (view_input _ _ _ _ Hv) in Hiv as (i & input & _ & _ & Hof).
  destruct Hof as [Hn|parent o Hn Hgen Hid _ Ho]; simpl in *; [congruence|].
  apply Hg in Hop as (c & n & o' & Hc & [= Et En] & Ho' & ->). apply wire_of_inj in Et.
  assert (Eout : transaction_output (rt_transaction parent) = transaction_output c).
  { apply Hun; [done| |congruence]. destruct Hgen as [Hs|(txid & hh & Hl)]; [by right|left].
    apply local_of_elem in Hl as [Hl _]. by apply Hsub. }
  rewrite En, Nat2Z.id, Eout in Ho. by simplify_eq.
Qed.

Lemma wf_null_coin g : ledger_wf g -> hash_zero ∉ seen g -> coins g !! outpoint_zero = None.
Proof. intros Hwf Hz. destruct (coins g !! outpoint_zero) eqn:E; [|done]. by apply Hwf in E. Qed.

Record history (K : list Transaction) (g : Ledger) : Prop := {
  hy_wf : ledger_wf g;
  hy_zero : hash_zero ∉ seen g;
  hy_real : ledger_real K g;
}.

Lemma views_txs_ok h K txs rest views ns g :
  Forall2 (view_of node_at (local_of h txs)) rest views -> rest ⊆ K -> txs ⊆ K ->
  unambiguous K -> history K g -> txs_new ns g views ->
  txs_ok ns g views /\ history K (ledger_txs views g).
Proof.
  intros Hv Hr Ht Hun. revert g Hr. induction Hv as [|tx view rest views Hv _ IH];
    intros g Hr Hh Hnew; [done|]. destruct Hh as [Hwf Hz Hreal]. destruct Hnew as [(Hf & Hnz & Hk & Hl) Hnew].
  destruct (IH (ledger_tx view g)) as [Hok Hh']; [set_solver| |done|].
  { split; [by apply ledger_tx_wf|simpl; set_solver|]. eapply ledger_tx_real; [done| |done]. apply Hr. constructor. }
  split; [|done]. split; [|done]. split; [done| |done|done].
  intros iv out Hiv Hout. eapply view_resolved; eauto using wf_null_coin.
Qed.

(** ** Chains read through the source *)

(** The chain of a worker that applies the blocks it reads, with the transactions read so far. *)
Inductive followed (b : Binding) : list Transaction -> Ledger -> ChainState -> Prop :=
| followed_new : followed b [] empty_ledger (new_state b)
| followed_block K g s h t t' decoded block s' d :
    followed b K g s ->
    rpc_block node_at h t = (t', Ok block) -> block_of node_at t h decoded block ->
    txs_new (namespace b) g (transactions block) ->
    apply_block block s = (s', Ok d) ->
    followed b (K ++ block_txdata decoded) (ledger_txs (transactions block) g) s'.

Lemma unambiguous_app K1 K2 : unambiguous (K1 ++ K2) -> unambiguous K1.
Proof. intros Hu c p Hc Hp. apply Hu; set_solver. Qed.

Lemma history_mono K1 K2 g : K1 ⊆ K2 -> history K1 g -> history K2 g.
Proof. intros Hs [? ? Hr]. split; [done..|]. intros op out Hop. eapply coin_of_mono; eauto. Qed.

Lemma followed_history b K g s :
  followed b K g s -> unambiguous K -> reachable b g s /\ history K g.
Proof.
  induction 1 as [|K g s h t t' decoded block s' d _ IH _ [_ _ _ _ Hv] Hnew Ha]; intros Hun.
  { split; [constructor|]. split; [by intros op out|done|by intros op out]. }
  destruct (IH (unambiguous_app _ _ Hun)) as [Hr Hh].
  destruct (views_txs_ok h (K ++ block_txdata decoded) (block_txdata decoded)
    (block_txdata decoded) (transactions block) (namespace b) g) as [Hok Hh'];
    [done|set_solver|set_solver|done| |done|].
  { eapply history_mono; [|done]. set_solver. }
  split; [|done]. by eapply reach_block.
Qed.

(** C17: a chain read through the Bitcoin Core source is canonical: when no two transactions the
    node showed share a txid with different outputs, and txids and object keys are new, every
    state of the chain is reachable in the sense of the reducer's theorems.  The assumption of
    those theorems that inputs report the coins they spend is proved of the source. *)
Theorem source_canonical b K g s : followed b K g s -> unambiguous K -> reachable b g s.
Proof. intros Hf Hu. by apply (followed_history b K g s). Qed.

(** C31: reading a block never panics, whatever the node answers (the [expect] in [fixed_hash]
    included), and a block that is returned is the one the node serves under the hash it gives
    for the height, with a view of every transaction in order, in which each input shows the
    output it names of a transaction with the txid it names. *)
Theorem rpc_block_faithful h t :
  st_post (rpc_block node_at h) t (fun _ block => exists decoded, block_of node_at t h decoded block)
    (fun _ _ => True).
Proof. apply rpc_block_post. Qed.
End Resolution.
