(* ===== verification/Signatures.v ===== *)
(** * Who agreed to a change

    The signature flag of an input view stands for ECDSA signatures over the whole transaction
    that the source has verified.  Composed with the reducer: whatever a block changes in an
    object, other than a forced exit, both of its keys signed. *)

From S2P Require Import Prelude Types Marker Roots Reducer Validators Steps Invariant Chain Reach Lifecycle Ingest Rpc RpcFacts.

Section Signatures.
Context {P : Primitives} {X : BitcoinCrate} `{!HexCodec}.
Context (node_at : nat -> Node).

(** ** Inputs *)

Lemma flagged_input local tx view i iv :
  view_of node_at local tx view -> inputs view !! i = Some iv -> signatures_valid iv = true ->
  exists input out, transaction_input tx !! i = Some input /\
    verify_input_signature tx i out = true /\ prevout_value iv = txout_value out /\
    prevout_script iv = txout_script out /\ witness iv = txin_witness input.
Proof.
  intros Hv Hi Hs. pose proof (lookup_lt_Some _ _ _ Hi) as Hlt.
  rewrite (vo_inputs _ _ _ _ Hv) in Hlt. destruct (lookup_lt_is_Some_2 _ _ Hlt) as [input Hin].
  destruct (vo_input _ _ _ _ Hv i input iv Hin Hi) as [|parent out _ _ _ _ _]; [done|].
  simpl in *. by exists input, out.
Qed.

Lemma verify_input_signature_true tx i out input :
  transaction_input tx !! i = Some input -> verify_input_signature tx i out = true ->
  (exists w0 w1, txin_witness input = [w0; w1] /\ verify_p2wpkh tx i out w0 w1 = true) \/
  (exists w1 w2 w3, txin_witness input = [[]; w1; w2; w3] /\ verify_p2wsh_2of2 tx i out w1 w2 w3 = true).
Proof.
  intros Hin. unfold verify_input_signature. rewrite Hin. destruct (txin_script_sig input); [|done].
  destruct (txin_witness input) as [|w0 [|w1 [|w2 [|w3 [|]]]]]; try done; try (by destruct w0).
  - destruct w0; (destruct (is_p2wpkh _); [|done]); eauto.
  - destruct w0; [|done]. destruct (is_p2wsh _); [|done]. eauto 8.
Qed.

Lemma carrier_input_signed local tx view i iv kp :
  view_of node_at local tx view -> inputs view !! i = Some iv -> signatures_valid iv = true ->
  carrier_keys iv = Some kp -> co_signed tx i (prevout_value iv) kp.
Proof.
  intros Hv Hi Hs Hk. destruct (flagged_input _ _ _ _ _ Hv Hi Hs) as (input & out & Hin & Hsig & -> & _ & Hw).
  apply carrier_keys_Some in Hk as ((_ & (s1 & s2 & Ew) & _)%carrier_revealed_keys_Some & _).
  rewrite Hw in Ew. destruct kp as [k0 k1].
  destruct (verify_input_signature_true _ _ _ _ Hin Hsig)
    as [(w0 & w1 & Ew' & _)|(w1 & w2 & w3 & Ew' & Hok)]; rewrite Ew in Ew'; simplify_eq.
  by apply verify_p2wsh_true in Hok.
Qed.

Lemma wallet_input_signed local tx view i iv k :
  view_of node_at local tx view -> inputs view !! i = Some iv -> signatures_valid iv = true ->
  p2wpkh_key iv = Some k -> wallet_signed tx i k.
Proof.
  intros Hv Hi Hs Hk. destruct (flagged_input _ _ _ _ _ Hv Hi Hs) as (input & out & Hin & Hsig & _ & Escr & Hw).
  apply p2wpkh_key_Some in Hk as ((_ & (s1 & Ew) & _)%p2wpkh_revealed_key_Some & _ & Ek).
  rewrite Hw in Ew. destruct (verify_input_signature_true _ _ _ _ Hin Hsig)
    as [(w0 & w1 & Ew' & Hok)|(w1 & w2 & w3 & Ew' & _)]; rewrite Ew in Ew'; simplify_eq.
  apply verify_p2wpkh_true in Hok as (msg & Hm & Hsb). rewrite <- Escr, Ek in Hm.
  exists w0, msg, (txout_value out). done.
Qed.

(** ** Objects *)

(** The signatures behind a change of one object.  A new object is signed by both of its owners'
    wallets; a change of an object by both of its keys over the carrier's value, and new keys by
    their own wallets too.  A forced exit is any other spend of the carrier. *)
Definition vouched (tx : Transaction) (x x' : option ObjectState) : Prop :=
  match x, x' with
  | None, None => True
  | None, Some o' => wallet_signed tx 0 (key0 (keys o')) /\ wallet_signed tx 1 (key1 (keys o'))
  | Some o, Some o' =>
      o' = o \/ status o' = ExitedNoncanonical \/
      (co_signed tx 0 CARRIER_VALUE (keys o) /\
       (keys o' <> keys o ->
        wallet_signed tx 1 (key0 (keys o')) /\ wallet_signed tx 2 (key1 (keys o'))))
  | Some _, None => False
  end.

Lemma vouched_refl tx x : vouched tx x x.
Proof. destruct x; [by left|done]. Qed.

Lemma vouched_insert tx s key (o o' : ObjectState) k :
  objects s !! key = Some o -> vouched tx (Some o) (Some o') ->
  vouched tx (objects s !! k) (<[key := o']> (objects s) !! k).
Proof.
  intros Ho Hl. destruct (decide (k = key)) as [->|Hne].
  - by rewrite lookup_insert_eq, Ho.
  - rewrite lookup_insert_ne by done. apply vouched_refl.
Qed.

Lemma vouched_alter tx s key f (o : ObjectState) k :
  objects s !! key = Some o -> vouched tx (Some o) (Some (f o)) ->
  vouched tx (objects s !! k) (alter f key (objects s) !! k).
Proof.
  intros Ho Hl. destruct (decide (k = key)) as [->|Hne].
  - by rewrite lookup_alter_eq, Ho.
  - rewrite lookup_alter_ne by done. apply vouched_refl.
Qed.

(** The carrier of a canonical state is worth the carrier value. *)
Lemma carrier_value g s tx o iv :
  state_inv g s -> tx_ok (namespace (binding s)) g tx -> live s o ->
  inputs tx !! 0%nat = Some iv -> prevout iv = current_outpoint o -> prevout_value iv = CARRIER_VALUE.
Proof.
  intros [_ _ Hb] [_ Hr _ _] (Ho & _ & Ha) Hi Ep. pose proof (Hb _ _ _ Ha Ho) as Hcoin. rewrite <- Ep in Hcoin.
  apply list_elem_of_lookup_2 in Hi. by destruct (Hr _ _ Hi Hcoin) as [_ ->].
Qed.

Lemma object_signed local tx view g s o iv :
  view_of node_at local tx view -> state_inv g s -> tx_ok (namespace (binding s)) g view -> live s o ->
  inputs view !! 0%nat = Some iv -> prevout iv = current_outpoint o ->
  signatures_valid iv = true -> carrier_keys iv = Some (keys o) -> co_signed tx 0 CARRIER_VALUE (keys o).
Proof.
  intros Hv Hinv Hok Hl Hi Ep Hs Hk. erewrite <- carrier_value by done. by eapply carrier_input_signed.
Qed.

Lemma ready_input h i iv l : Forall (input_ready h) l -> l !! i = Some iv -> signatures_valid iv = true.
Proof. intros Hf Hi. by destruct (Forall_lookup_1 _ _ _ _ Hf Hi) as (_ & _ & ?). Qed.

Lemma transition_live g s view o :
  state_inv g s -> (length (carrier_spends s view) <= 1)%nat ->
  head (carrier_spends s view) = Some (0%nat, o) -> live s o.
Proof.
  intros [_ Hix _] Hl Hh%transition_carrier; [|done].
  destruct (carrier_spends_live _ s view 0%nat o Hix) as [Hlive _]; [|done]. rewrite Hh. constructor.
Qed.

Lemma create_signed local tx view s h m kp :
  view_of node_at local tx view -> create_rule s h view m kp ->
  (exists ih h_open h_close, protocol_status s = PActive ih h_open h_close) /\
  wallet_signed tx 0 (key0 kp) /\ wallet_signed tx 1 (key1 kp).
Proof.
  intros Hv (in0 & in1 & ? & ? & ? & ? & k0 & k1 & ? & ih & ho & hc & Hshape & _ & Ein & _ & Hk0 & Hk1 & Hkp & Hr).
  apply keypair_checked_Some in Hkp as (-> & _). apply ts_inputs in Hshape. cbn [key0 key1].
  split; [exists ih, ho, hc; by destruct Hr as (_ & _ & _ & _ & _ & _ & _ & _ & _ & _ & ? & _)|].
  rewrite Ein in Hshape. split.
  - eapply wallet_input_signed; [done|by rewrite Ein|by apply (ready_input _ 0 _ _ Hshape)|done].
  - eapply wallet_input_signed; [done|by rewrite Ein|by apply (ready_input _ 1 _ _ Hshape)|done].
Qed.

Lemma mark_signed local tx view g s h m o seq c :
  view_of node_at local tx view -> state_inv g s -> tx_ok (namespace (binding s)) g view -> live s o ->
  mark_rule h view m o seq c -> co_signed tx 0 CARRIER_VALUE (keys o).
Proof.
  intros Hv Hinv Hok Hl (in0 & in1 & ? & ? & ? & ? & ? & Hshape & _ & _ & _ & _ & Ein & _ & Hp & Hk & _).
  apply ts_inputs in Hshape. rewrite Ein in Hshape.
  eapply object_signed; [done..|by rewrite Ein|done|by apply (ready_input _ 0 _ _ Hshape)|done].
Qed.

Lemma close_signed local tx view g s h m o seq c :
  view_of node_at local tx view -> state_inv g s -> tx_ok (namespace (binding s)) g view -> live s o ->
  close_rule h view m o seq c -> co_signed tx 0 CARRIER_VALUE (keys o).
Proof.
  intros Hv Hinv Hok Hl (in0 & ? & ? & ? & ? & Hshape & _ & _ & _ & _ & Ein & _ & Hp & Hk & _).
  apply ts_inputs in Hshape. rewrite Ein in Hshape.
  eapply object_signed; [done..|by rewrite Ein|done|by apply (ready_input _ 0 _ _ Hshape)|done].
Qed.

Lemma rotate_signed local tx view g s h m o seq kp :
  view_of node_at local tx view -> state_inv g s -> tx_ok (namespace (binding s)) g view -> live s o ->
  rotate_rule h view m o seq kp ->
  co_signed tx 0 CARRIER_VALUE (keys o) /\ wallet_signed tx 1 (key0 kp) /\ wallet_signed tx 2 (key1 kp).
Proof.
  intros Hv Hinv Hok Hl (in0 & in1 & in2 & ? & ? & ? & ? & k0 & k1 & ? & Hshape & _ & Ein & _ & Hp & Hk & Hk0 & Hk1 & Hkp & _).
  apply keypair_checked_Some in Hkp as (-> & _). apply ts_inputs in Hshape. rewrite Ein in Hshape.
  split; [|split].
  - eapply object_signed; [done..|by rewrite Ein|done|by apply (ready_input _ 0 _ _ Hshape)|done].
  - eapply wallet_input_signed; [done|by rewrite Ein|by apply (ready_input _ 1 _ _ Hshape)|done].
  - eapply wallet_input_signed; [done|by rewrite Ein|by apply (ready_input _ 2 _ _ Hshape)|done].
Qed.

Lemma refund_signed local tx view g s h o :
  view_of node_at local tx view -> state_inv g s -> tx_ok (namespace (binding s)) g view -> live s o ->
  refund_rule h view o -> co_signed tx 0 CARRIER_VALUE (keys o).
Proof.
  intros Hv Hinv Hok Hl (input & ? & ? & ? & _ & _ & Ein & _ & _ & _ & Hp & Hk & Hs & _).
  eapply object_signed; [done|done|done|done|by rewrite Ein|done..].
Qed.

Lemma operation_signed local tx view g s block m op k :
  view_of node_at local tx view -> state_inv g s -> tx_ok (namespace (binding s)) g view ->
  (length (carrier_spends s view) <= 1)%nat ->
  operation_rule s (blk_height block) view m (head (carrier_spends s view)) op ->
  vouched tx (objects s !! k) (objects (op_state block view op s) !! k).
Proof.
  intros Hv Hinv Hok Hl [_ Hop]. destruct op as [kp|o seq c|o seq kp|o seq c].
  - destruct Hop as (_ & Hr). destruct (create_signed _ _ _ _ _ _ _ Hv Hr) as ((ih & ho & hc & Es) & Hw).
    unfold op_state. rewrite Es. cbn [objects set_maps].
    destruct (decide (k = derive_object_key (namespace (binding s)) (tx_txid view))) as [->|Hne].
    + by rewrite lookup_insert_eq, (create_key_fresh _ _ _ (si_index _ _ Hinv) Hok).
    + rewrite lookup_insert_ne by done. apply vouched_refl.
  - destruct Hop as (_ & Hh & Hr). pose proof (transition_live _ _ _ _ Hinv Hl Hh) as Hlive.
    eapply vouched_insert; [apply Hlive|]. right. right. split; [by eapply mark_signed|done].
  - destruct Hop as (_ & Hh & Hr). pose proof (transition_live _ _ _ _ Hinv Hl Hh) as Hlive.
    eapply vouched_insert; [apply Hlive|]. right. right.
    destruct (rotate_signed _ _ _ _ _ _ _ _ _ _ Hv Hinv Hok Hlive Hr) as [Hc Hw]. split; [done|]. by intros _.
  - destruct Hop as (_ & Hh & Hr). pose proof (transition_live _ _ _ _ Hinv Hl Hh) as Hlive.
    eapply (vouched_alter _ _ _ (with_state_seq seq ∘ terminated Closed (tx_txid view))); [apply Hlive|].
    right. right. split; [by eapply close_signed|done].
Qed.

Lemma step_signed local tx view g s block txi s' evs k :
  view_of node_at local tx view -> state_inv g s -> tx_ok (namespace (binding s)) g view ->
  tx_step block view txi s s' evs -> vouched tx (objects s !! k) (objects s' !! k).
Proof.
  intros Hv Hinv Hok.
  destruct 1 as [Hc _|evi ty r ns Hc _ _ _|evi r ns Hne _ _|i o Hc _ Hr|c m op Em Hp Hl Hop];
    [apply vouched_refl|apply vouched_refl| | |by eapply operation_signed].
  - rewrite exit_all_objects. case_decide; [|apply vouched_refl]. destruct (objects s !! k); [|done].
    right. by left.
  - destruct (carrier_spends_live _ s view i o (si_index _ _ Hinv)) as [Hlive _]; [rewrite Hc; constructor|].
    eapply vouched_alter; [apply Hlive|]. right. right. split; [by eapply refund_signed|done].
Qed.

(** ** Blocks *)

(** One change of an object on the way of the state machine, vouched for by a transaction. *)
Definition signed_life (txs : list Transaction) (x x' : option ObjectState) : Prop :=
  life x x' /\ exists tx, tx ∈ txs /\ vouched tx x x'.

Lemma txs_steps_signed h txs all g block i views s s' evs k :
  Forall2 (view_of node_at (local_of h all)) txs views -> txs ⊆ all ->
  state_inv g s -> txs_ok (namespace (binding s)) g views -> txs_steps block i views s s' evs ->
  rtc (signed_life all) (objects s !! k) (objects s' !! k).
Proof.
  intros Hv Hsub Hinv Hok Hs. revert g txs Hv Hsub Hinv Hok.
  induction Hs as [|i view views s s1 s2 e1 e2 H1 _ IH]; intros g txs Hv Hsub Hinv Hok; [apply rtc_refl|].
  inversion Hv as [|tx ? txs' ? Htx Hv']; subst. destruct Hok as [Hok1 Hok].
  assert (Hrest : rtc (signed_life all) (objects s1 !! k) (objects s2 !! k)).
  { eapply (IH (ledger_tx view g)); [done|set_solver|by eapply block_step_inv|].
    apply block_step_frame in H1 as (-> & _). done. }
  destruct H1 as [s1 evs Ht|Hi Hc]; [|done]. eapply rtc_l; [|done].
  split; [by eapply tx_step_life|]. exists tx. split; [set_solver|]. by eapply step_signed.
Qed.

(** C4: nothing happens to an object without its owners.  In a block that the worker reads from
    the node and applies, every change of an object, one step of the state machine at a time, is
    either a forced exit or carried by a transaction of the block that both keys of the object
    signed: strict low-S ECDSA signatures with SIGHASH_ALL that commit to the carrier's value,
    verified under the keys of the object before the change.  New keys, and the keys of a new
    object, signed too, by spending coins of their own. *)
Theorem changes_signed b g s h t t' block s' d k :
  reachable b g s -> rpc_block node_at h t = (t', Ok block) ->
  txs_ok (namespace b) g (transactions block) -> apply_block block s = (s', Ok d) ->
  exists decoded, block_of node_at t h decoded block /\
    rtc (signed_life (block_txdata decoded)) (objects s !! k) (objects s' !! k).
Proof.
  intros Hr Hb Hok Ha. pose proof (rpc_block_post node_at h t) as Hpost. unfold st_post in Hpost.
  rewrite Hb in Hpost. destruct Hpost as (decoded & Hbo). exists decoded. split; [done|].
  destruct (reachable_state_inv _ _ _ Hr) as [Hinv <-].
  destruct (apply_block_dispatch _ _ _ _ _ Hinv Hok Ha) as (s1 & evs & er & orr & Hd & _ & -> & _).
  cbn [objects set_tip]. destruct Hd; [|apply rtc_refl..]. by eapply txs_steps_signed; [apply (bo_views _ _ _ _ _ Hbo)|..].
Qed.
End Signatures.
