(* ===== verification/Settled.v ===== *)
(** * A settled node and the service over it

    What the answers of one Bitcoin Core node look like when nothing changes: it is synced, it
    serves the blocks of one chain with the parents of their inputs, and its mempool resolves.
    Over such a node every method of the source succeeds, the views of its blocks form a
    canonical chain, and a service that starts over any database of its deployment has, after
    one pass, exactly that chain in its tables. *)

From Stdlib Require Import String.
From stdpp Require Import strings.
From S2P Require Import Prelude Types Marker Roots Reducer Validators Steps Invariant Chain Reach Lifecycle Store StoreInv Commit Queries Ingest IngestInv Converge Fleet FleetInv Text Config ConfigFacts Signer Api Rpc RpcFacts Service Resolution.

(** ** Programs that succeed *)

(** From every state the program returns a value with the property. *)
Definition succeeds {S E A} (m : st S E A) (Q : A -> Prop) : Prop :=
  forall s, exists s' a, m s = (s', Ok a) /\ Q a.

Lemma succeeds_ret {S E A} (a : A) (Q : A -> Prop) : Q a -> succeeds (S := S) (E := E) (st_ret a) Q.
Proof. intros Hq s. by exists s, a. Qed.

Lemma succeeds_bind {S E A B} (m : st S E A) (f : A -> st S E B) (Q : A -> Prop) (R : B -> Prop) :
  succeeds m Q -> (forall a, Q a -> succeeds (f a) R) -> succeeds (st_bind m f) R.
Proof.
  intros Hm Hf s. destruct (Hm s) as (s1 & a & E1 & Ha). destruct (Hf a Ha s1) as (s2 & c & E2 & Hc).
  exists s2, c. unfold st_bind. by rewrite E1, E2.
Qed.

Section Answers.
Context {P : Primitives} {X : BitcoinCrate} `{!HexCodec} (n : Node).

#[local] Abbreviation nodes := (fun _ : nat => n).
#[local] Abbreviation Resolved := (gmap Txid ResolvedTransaction).

Lemma call_step {A B} (f : Node -> Response A) a (g : A -> st nat RpcError B) (R : B -> Prop) :
  call_result (f n) = Ok a -> succeeds (g a) R -> succeeds (st_bind (call nodes f) g) R.
Proof.
  intros Ha Hg t. destruct (Hg (S t)) as (t' & c & E & Hc). exists t', c.
  unfold st_bind, call. by rewrite Ha, E.
Qed.

Lemma lift_step {A B} (r : res RpcError A) a (g : A -> st nat RpcError B) (R : B -> Prop) :
  r = Ok a -> succeeds (g a) R -> succeeds (st_bind (st_lift r) g) R.
Proof. intros -> Hg. exact Hg. Qed.

Lemma try_step {A B} e (o : option A) a (g : A -> st nat RpcError B) (R : B -> Prop) :
  o = Some a -> succeeds (g a) R -> succeeds (st_bind (try e o) g) R.
Proof. intros ->. by apply lift_step. Qed.

Lemma ensure_step {B} (D : Prop) `{Decision D} e (g : unit -> st nat RpcError B) (R : B -> Prop) :
  D -> succeeds (g tt) R -> succeeds (st_bind (ensure D e) g) R.
Proof. intros Hd. apply lift_step. by rewrite decide_True. Qed.

Lemma answer_succeeds {A} (m : st nat RpcError A) Q : succeeds m Q -> exists a, answer m = Ok a /\ Q a.
Proof. intros Hm. destruct (Hm 0%nat) as (t & a & E & Ha). exists a. unfold answer. by rewrite E. Qed.

(** ** Transactions *)

(** The node returns this transaction for this txid, and knows the header of its block. *)
Definition raw_serves (txid : Txid) (tx : Transaction) : Prop :=
  exists verbose raw,
    call_result (getrawtransaction n txid) = Ok verbose /\
    hex_decode (rv_hex verbose) = Some raw /\ deserialize_transaction raw = Some tx /\
    compute_txid tx = txid /\
    forall c hash, rv_confirmations verbose = Some c -> 0 < c -> rv_blockhash verbose = Some hash ->
      exists h, call_result (getblockheader n hash) = Ok h.

Lemma raw_serves_det txid tx1 tx2 : raw_serves txid tx1 -> raw_serves txid tx2 -> tx1 = tx2.
Proof.
  intros (v1 & r1 & H1 & H2 & H3 & _) (v2 & r2 & G1 & G2 & G3 & _).
  rewrite H1 in G1. injection G1 as <-. rewrite H2 in G2. injection G2 as <-. congruence.
Qed.

Lemma raw_succeeds txid tx :
  raw_serves txid tx -> succeeds (raw_transaction nodes txid) (fun r => rt_transaction r = tx).
Proof.
  intros (verbose & raw & H1 & H2 & H3 & H4 & H5). unfold raw_transaction.
  eapply call_step; [eassumption|].
  eapply try_step; [eassumption|].
  eapply try_step; [eassumption|].
  apply ensure_step; [done|].
  destruct (rv_confirmations verbose) as [c|] eqn:Ec; [|by apply succeeds_ret].
  destruct (rv_blockhash verbose) as [hash|] eqn:Eh; [|by apply succeeds_ret].
  case_decide as Hc; [|by apply succeeds_ret]. destruct (H5 c hash eq_refl Hc eq_refl) as [h Hh].
  eapply call_step; [eassumption|]. by apply succeeds_ret.
Qed.

(** The output an input spends can be found: in the block itself, or at the node. *)
Definition spendable (local : Resolved) (input : TxIn) : Prop :=
  previous_is_null input = true \/
  exists parent,
    match local !! previous_txid input with
    | Some r => parent = rt_transaction r
    | None => raw_serves (previous_txid input) parent
    end /\ is_Some (transaction_output parent !! Z.to_nat (previous_vout input)).

Definition cache_serves (m : Resolved) : Prop :=
  forall txid r, m !! txid = Some r -> raw_serves txid (rt_transaction r).

Lemma parent_succeeds txid parent (local cache : Resolved) :
  match local !! txid with Some r => parent = rt_transaction r | None => raw_serves txid parent end ->
  cache_serves cache ->
  succeeds (parent_of nodes txid local cache)
    (fun found => rt_transaction found.1 = parent /\ cache_serves found.2).
Proof.
  intros Hp Hc. unfold parent_of. destruct (local !! txid) as [r|]; [by apply succeeds_ret|].
  destruct (cache !! txid) as [r|] eqn:Er.
  { apply succeeds_ret. split; [|done]. by eapply raw_serves_det; [apply Hc|]. }
  eapply succeeds_bind; [by apply raw_succeeds|]. intros r <-. apply succeeds_ret. split; [done|].
  intros txid' r'. cbn [snd]. rewrite lookup_insert_Some. intros [[<- <-]|[_ Hr]]; [done|by apply Hc].
Qed.

Lemma input_succeeds tx i input (local cache : Resolved) :
  spendable local input -> cache_serves cache ->
  succeeds (resolve_input nodes tx i input local cache) (fun r => cache_serves r.2).
Proof.
  intros [Hn|(parent & Hp & out & Ho)] Hc; unfold resolve_input; [by rewrite Hn; apply succeeds_ret|].
  destruct (previous_is_null input); [by apply succeeds_ret|].
  eapply succeeds_bind; [by apply parent_succeeds|]. intros [r cache'] [<- Hc'].
  eapply try_step; [eassumption|].
  eapply lift_step; [apply txid_wire_of|].
  by apply succeeds_ret.
Qed.

Lemma inputs_succeed tx i ins (local cache : Resolved) :
  Forall (spendable local) ins -> cache_serves cache ->
  succeeds (resolve_inputs nodes tx i ins local cache) (fun r => cache_serves r.2).
Proof.
  intros Hf. revert i cache. induction Hf as [|input ins Hi _ IH]; intros i cache Hc; [by apply succeeds_ret|].
  cbn [resolve_inputs]. eapply succeeds_bind; [by apply input_succeeds|intros first Hc1].
  eapply succeeds_bind; [by apply IH|intros others Hc2]. by apply succeeds_ret.
Qed.

Lemma transaction_succeeds tx (local cache : Resolved) :
  Forall (spendable local) (transaction_input tx) -> cache_serves cache ->
  succeeds (resolve_transaction nodes tx local cache)
    (fun r => tx_txid r.1 = wire_of (compute_txid tx) /\ cache_serves r.2).
Proof.
  intros Hf Hc. unfold resolve_transaction. eapply succeeds_bind; [by apply inputs_succeed|intros ins Hc1].
  eapply lift_step; [apply txid_wire_of|].
  destruct (fixed_hash_Ok (E := RpcError) _ (serialized_wtxid_32 tx)) as (w & Hw & _).
  eapply lift_step; [eassumption|]. by apply succeeds_ret.
Qed.

Lemma all_succeed txs (local cache : Resolved) :
  Forall (fun tx => Forall (spendable local) (transaction_input tx)) txs -> cache_serves cache ->
  succeeds (resolve_all nodes txs local cache) (fun _ => True).
Proof.
  intros Hf. revert cache. induction Hf as [|tx txs Hx _ IH]; intros cache Hc; [by apply succeeds_ret|].
  cbn [resolve_all]. eapply succeeds_bind; [by apply transaction_succeeds|intros first [_ Hc1]].
  eapply succeeds_bind; [by apply IH|intros others _]. by apply succeeds_ret.
Qed.

Lemma cache_serves_empty : cache_serves ∅.
Proof. by intros txid r. Qed.

(** ** Blocks *)

(** The node serves this block at this height, and every output it spends can be found. *)
Record serves_block (h : Z) (blk : Block) : Prop := {
  sb_hash : call_result (getblockhash n h) = Ok (block_hash_display blk);
  sb_block : exists text bytes, call_result (getblock n (block_hash_display blk)) = Ok text /\
    hex_decode text = Some bytes /\ deserialize_block bytes = Some blk;
  sb_display : wire_hash (block_hash_display blk) = arr_of 32 (serialized_block_hash blk);
  sb_spends : Forall (fun tx => Forall (spendable (local_of h (block_txdata blk))) (transaction_input tx))
    (block_txdata blk);
}.

Lemma block_succeeds h blk :
  serves_block h blk -> succeeds (rpc_block nodes h) (fun _ => True).
Proof.
  intros [H1 (text & bytes & H2 & H3 & H4) _ H5]. unfold rpc_block.
  eapply call_step; [eassumption|].
  eapply call_step; [eassumption|].
  eapply try_step; [eassumption|].
  eapply try_step; [eassumption|].
  apply ensure_step; [done|].
  eapply succeeds_bind; [by apply all_succeed; [|apply cache_serves_empty]|intros txs _].
  destruct (fixed_hash_Ok (E := RpcError) _ (serialized_block_hash_32 blk)) as (bh & Hb & _).
  destruct (fixed_hash_Ok (E := RpcError) _ (serialized_prev_hash_32 blk)) as (ph & Hp & _).
  eapply lift_step; [eassumption|].
  eapply lift_step; [eassumption|]. by apply succeeds_ret.
Qed.

(** The view of a served block. *)
Definition view_at (h : Z) (blk : Block) (view : BlockView) : Prop :=
  answer (rpc_block nodes h) = Ok view /\ block_of nodes 0 h blk view.

Lemma serves_view h blk : serves_block h blk -> exists view, view_at h blk view.
Proof.
  intros Hs. pose proof (rpc_block_post nodes h 0) as Hp. unfold st_post in Hp.
  destruct (block_succeeds h blk Hs 0%nat) as (t & view & E & _). rewrite E in Hp.
  destruct Hp as [decoded Hd]. exists view. split; [unfold answer; by rewrite E|].
  assert (decoded = blk) as ->; [|done].
  destruct Hs as [H1 (text & bytes & H2 & H3 & H4) _ _].
  destruct (bo_served _ _ _ _ _ Hd) as (d & hex & raw & G1 & G2 & G3 & G4 & _).
  rewrite H1 in G1. injection G1 as <-. rewrite H2 in G2. injection G2 as <-. by simplify_eq.
Qed.

Lemma view_hash h blk view :
  serves_block h blk -> view_at h blk view ->
  answer (rpc_block_hash nodes h) = Ok (blk_hash view).
Proof.
  intros [H1 _ Hd _] [_ Hv]. unfold answer, rpc_block_hash, st_bind, call, try, st_lift.
  rewrite H1, Hd. rewrite <- (bo_hash _ _ _ _ _ Hv), arr_of_bytes. done.
Qed.

(** ** The mempool *)

Definition mempool_serves (texts : list string) (ids : list Txid) : Prop :=
  Forall2 (fun text id => parse_txid text = Some id /\
    exists tx, raw_serves id tx /\ Forall (spendable ∅) (transaction_input tx)) texts ids.

Lemma mempool_succeeds texts ids cache :
  mempool_serves texts ids -> cache_serves cache ->
  succeeds (mempool_views nodes texts cache) (fun views => tx_txid <$> views = wire_of <$> ids).
Proof.
  intros Hf. revert cache. induction Hf as [|text id texts ids (H1 & tx & H2 & H3) _ IH]; intros cache Hc;
    [by apply succeeds_ret|].
  cbn [mempool_views]. eapply try_step; [eassumption|].
  eapply succeeds_bind; [by apply raw_succeeds|intros r Er]. rewrite <- Er in H3.
  eapply succeeds_bind; [by apply transaction_succeeds|intros [view cache'] [Hv Hc']].
  eapply succeeds_bind; [by apply IH|intros views Hvs]. apply succeeds_ret.
  cbn [fst] in *. rewrite !fmap_cons, Hv, Hvs, Er. do 2 f_equal. by destruct H2 as (? & ? & _ & _ & _ & ? & _).
Qed.
End Answers.

(** ** One chain *)

Section Chain.
Context {P : Primitives} {X : BitcoinCrate} `{!HexCodec} (n : Node) (b : Binding).

#[local] Abbreviation nodes := (fun _ : nat => n).

(** What the source sees of a height. *)
Definition node_view (h : Z) : BlockView :=
  match answer (rpc_block nodes h) with Ok view => view | _ => mkBlock hash_zero hash_zero h [] end.

(** Where the node finds the configured INIT: in a block, or nowhere yet. *)
Definition locates (wire : Hash32) (first : option Z) : Prop :=
  exists txid, deserialize_txid (arr_bytes wire) = Some txid /\
    match first with
    | Some h =>
        exists verbose raw tx c hash,
          call_result (getrawtransaction n txid) = Ok verbose /\ hex_decode (rv_hex verbose) = Some raw /\
          deserialize_transaction raw = Some tx /\ compute_txid tx = txid /\
          rv_confirmations verbose = Some c /\ 0 < c /\ rv_blockhash verbose = Some hash /\
          call_result (getblockheader n hash) = Ok h
    | None => call_result (getrawtransaction n txid) = Err (CoreRpcError (-5))
    end.

(** The node is synced on the network, serves the linked blocks [blocks] up to height [best], the
    INIT is in block [first] of them and nowhere else, and its mempool resolves. *)
Record settled (best : Z) (blocks : Z -> Block) (first : option Z) : Prop := {
  sn_status : exists info indexes,
    call_result (getblockchaininfo n) = Ok info /\ bi_blocks info = best /\
    call_result (getindexinfo n) = Ok indexes /\
    ready_for (mkCoreStatus (bi_chain info) (bi_blocks info) (bi_headers info)
      (bi_initialblockdownload info) (default false (indexes !! "txindex"%string))) (network b) = true;
  sn_count : call_result (getblockcount n) = Ok best;
  sn_best : 0 <= best <= i64_max;
  sn_blocks : forall h, 0 <= h <= best -> serves_block n h (blocks h);
  sn_linked : forall h, 0 <= h < best ->
    serialized_prev_hash (blocks (h + 1)) = serialized_block_hash (blocks h);
  sn_small : forall h, 0 <= h <= best -> len (block_txdata (blocks h)) <= u32_max;
  sn_init : locates (init_txid b) first;
  sn_first : forall f, first = Some f -> 0 <= f <= best /\
    exists tx, tx ∈ block_txdata (blocks f) /\ wire_of (compute_txid tx) = init_txid b;
  sn_only : forall h tx, 0 <= h <= best -> tx ∈ block_txdata (blocks h) ->
    wire_of (compute_txid tx) = init_txid b -> first = Some h;
  sn_mempool : exists texts ids,
    call_result (getrawmempool n) = Ok texts /\ mempool_serves n texts ids /\ NoDup ids;
}.

(** The heights of the deployment's chain, its blocks as the source shows them, oldest first,
    and their transactions. *)
Definition canon_heights (best : Z) (first : option Z) : list Z :=
  match first with Some f => height_range f best | None => [] end.

Definition node_canon (best : Z) (first : option Z) : list BlockView :=
  node_view <$> canon_heights best first.

Definition node_txs (best : Z) (blocks : Z -> Block) (first : option Z) : list Transaction :=
  concat ((fun h => block_txdata (blocks h)) <$> canon_heights best first).

Definition ledger_blocks (chain : list BlockView) : Ledger :=
  foldl (fun g x => ledger_txs (transactions x) g) empty_ledger chain.

(** The transactions of the chain are new when their block comes. *)
Definition fresh_txs (canon : list BlockView) : Prop :=
  forall pre x post, canon = pre ++ x :: post ->
    txs_new (namespace b) (ledger_blocks pre) (transactions x).

Context (best : Z) (blocks : Z -> Block) (first : option Z) (Hn : settled best blocks first).

Lemma node_view_at h : 0 <= h <= best -> view_at n h (blocks h) (node_view h).
Proof.
  intros Hh. destruct (serves_view n h (blocks h)) as [v Hv]; [by apply (sn_blocks _ _ _ Hn)|].
  unfold node_view. destruct Hv as [E Hv]. rewrite E. by split.
Qed.

Lemma node_view_height h : 0 <= h <= best -> blk_height (node_view h) = h.
Proof. intros Hh. destruct (node_view_at h Hh) as [_ Hv]. by apply (bo_height _ _ _ _ _ Hv). Qed.

Lemma node_view_linked h :
  0 <= h < best -> previous_hash (node_view (h + 1)) = blk_hash (node_view h).
Proof.
  intros Hh. destruct (node_view_at h) as [_ Hv]; [lia|]. destruct (node_view_at (h + 1)) as [_ Hv']; [lia|].
  apply arr_eq. rewrite (bo_hash _ _ _ _ _ Hv), (bo_previous _ _ _ _ _ Hv'). by apply (sn_linked _ _ _ Hn).
Qed.

Lemma node_view_views h :
  0 <= h <= best ->
  Forall2 (view_of nodes (local_of h (block_txdata (blocks h)))) (block_txdata (blocks h)) (transactions (node_view h)).
Proof. intros Hh. destruct (node_view_at h Hh) as [_ Hv]. by apply (bo_views _ _ _ _ _ Hv). Qed.

(** The INIT of a view is the INIT of its block. *)
Lemma node_view_init h :
  0 <= h <= best ->
  Exists (fun tx => tx_txid tx = init_txid b) (transactions (node_view h)) <-> first = Some h.
Proof.
  intros Hh. pose proof (node_view_views h Hh) as Hv. rewrite Exists_exists. split.
  - intros (view & [i Hi]%list_elem_of_lookup & Et).
    destruct (Forall2_lookup_r _ _ _ _ _ Hv Hi) as (tx & Hx & Hof).
    apply (sn_only _ _ _ Hn h tx Hh); [by eapply list_elem_of_lookup_2|].
    by rewrite <- (vo_txid _ _ _ _ Hof).
  - intros Hf. destruct (sn_first _ _ _ Hn h Hf) as (_ & tx & [i Hi]%list_elem_of_lookup & Et).
    destruct (Forall2_lookup_l _ _ _ _ _ Hv Hi) as (view & Hx & Hof).
    exists view. split; [by eapply list_elem_of_lookup_2|]. by rewrite (vo_txid _ _ _ _ Hof).
Qed.

(** ** The chain is canonical *)

Lemma seqZ_snoc f k : seqZ f (Z.of_nat (S k)) = seqZ f (Z.of_nat k) ++ [f + Z.of_nat k].
Proof. replace (Z.of_nat (S k)) with (Z.of_nat k + 1) by lia. rewrite seqZ_app by lia. done. Qed.

Lemma ledger_blocks_snoc chain x :
  ledger_blocks (chain ++ [x]) = ledger_txs (transactions x) (ledger_blocks chain).
Proof. unfold ledger_blocks. by rewrite foldl_app. Qed.

Lemma heights_of f : first = Some f -> canon_heights best first = seqZ f (best - f + 1).
Proof.
  intros ->. pose proof (sn_first _ _ _ Hn f eq_refl) as [Hf _]. unfold canon_heights, height_range.
  by rewrite decide_True by lia.
Qed.

Lemma elem_of_heights h f : first = Some f -> h ∈ canon_heights best first <-> f <= h <= best.
Proof. intros Hf. rewrite (heights_of f Hf), elem_of_seqZ. lia. Qed.

(** The transactions of one height are among those of the chain. *)
Lemma block_in_txs h : h ∈ canon_heights best first -> block_txdata (blocks h) ⊆ node_txs best blocks first.
Proof.
  intros Hh tx Hx. unfold node_txs. induction (canon_heights best first) as [|h' hs IH];
    [by apply not_elem_of_nil in Hh|].
  rewrite fmap_cons. cbn. apply elem_of_app. apply elem_of_cons in Hh as [<-|Hh]; [by left|right; by apply IH].
Qed.

Section Canonical.
Context (Hfresh : fresh_txs (node_canon best first)) (Hun : unambiguous nodes (node_txs best blocks first)).

(** The next view of the chain after [k] of them. *)
Lemma canon_split f k :
  first = Some f -> f + Z.of_nat k <= best ->
  exists post, node_canon best first =
    (node_view <$> seqZ f (Z.of_nat k)) ++ node_view (f + Z.of_nat k) :: post.
Proof.
  intros Hf Hk. unfold node_canon. rewrite (heights_of f Hf).
  replace (best - f + 1) with (Z.of_nat k + (best - f + 1 - Z.of_nat k)) by lia.
  rewrite seqZ_app, fmap_app by lia. rewrite (seqZ_cons (f + Z.of_nat k)) by lia. eexists. done.
Qed.

Lemma canon_next f k g s :
  first = Some f -> f + Z.of_nat k <= best ->
  canonical b g (reverse (node_view <$> seqZ f (Z.of_nat k))) s ->
  g = ledger_blocks (node_view <$> seqZ f (Z.of_nat k)) -> history (node_txs best blocks first) g ->
  exists s', canonical b (ledger_txs (transactions (node_view (f + Z.of_nat k))) g)
               (reverse (node_view <$> seqZ f (Z.of_nat (S k)))) s' /\
    history (node_txs best blocks first) (ledger_txs (transactions (node_view (f + Z.of_nat k))) g).
Proof.
  intros Hf Hk Hc Hg Hh. destruct (sn_first _ _ _ Hn f Hf) as [Hfb _]. pose proof (sn_best _ _ _ Hn) as Hb.
  set (h := f + Z.of_nat k) in *. assert (Hhb : 0 <= h <= best) by (subst h; lia).
  destruct (canon_split f k Hf Hk) as [post Ep].
  destruct (views_txs_ok nodes h (node_txs best blocks first) (block_txdata (blocks h)) (block_txdata (blocks h))
    (transactions (node_view h)) (namespace b) g) as [Hok Hh'].
  { by apply node_view_views. }
  1,2: apply block_in_txs, (elem_of_heights h f Hf); lia.
  { done. } { done. } { rewrite Hg. by eapply Hfresh. }
  pose proof (held_tip _ _ _ (canonical_held _ _ _ _ Hc)) as (Et & Eh & _ & Hn0).
  assert (Hlink : validate_linkage s (node_view h) = Ok tt /\
    (protocol_status s = AwaitingInit -> Exists (fun tx => tx_txid tx = init_txid b) (transactions (node_view h)))).
  { destruct k as [|k].
    - split; [unfold validate_linkage; by rewrite Et|]. intros _. apply node_view_init; [done|].
      subst h. by rewrite Z.add_0_r.
    - rewrite seqZ_snoc, fmap_app, reverse_app in Et, Eh, Hn0. cbn in Et, Eh.
      split; [|by intros E%Hn0].
      assert (E1 : h = f + Z.of_nat k + 1) by (subst h; lia).
      rewrite node_view_height in Et by lia.
      unfold validate_linkage. rewrite Et, Eh.
      rewrite (proj2 (checked_add_Some u64_max (f + Z.of_nat k) 1 h)) by (unfold i64_max, u64_max in *; lia).
      cbn [ok_or rbind]. rewrite (node_view_height h Hhb). rewrite decide_False by (intros Hne; by apply Hne).
      rewrite E1, node_view_linked by lia. by rewrite decide_False by (intros Hne; by apply Hne). }
  destruct Hlink as [Hlink Hinit].
  destruct (reachable_advance b g s (node_view h)) as (s' & d & Ha & _).
  { by eapply canonical_reachable. } { done. } { done. }
  { unfold len. rewrite <- (Forall2_length _ _ _ (node_view_views h Hhb)). by apply (sn_small _ _ _ Hn). }
  { done. }
  exists s'. split; [|done]. rewrite seqZ_snoc, fmap_app, reverse_app. cbn.
  eapply canonical_block; [done|done|done|]. subst h. rewrite node_view_height; lia.
Qed.

Lemma canon_prefix f k :
  first = Some f -> f + Z.of_nat k - 1 <= best ->
  exists s, canonical b (ledger_blocks (node_view <$> seqZ f (Z.of_nat k)))
              (reverse (node_view <$> seqZ f (Z.of_nat k))) s /\
    history (node_txs best blocks first) (ledger_blocks (node_view <$> seqZ f (Z.of_nat k))).
Proof.
  intros Hf. induction k as [|k IH]; intros Hk.
  - exists (new_state b). split; [constructor|]. split; [by intros op out|done|by intros op out].
  - destruct IH as (s & Hc & Hh); [lia|].
    destruct (canon_next f k _ s Hf ltac:(lia) Hc eq_refl Hh) as (s' & Hc' & Hh'). exists s'.
    rewrite <- ledger_blocks_snoc in Hc', Hh'. rewrite seqZ_snoc, fmap_app in *. done.
Qed.

Lemma canon_canonical :
  exists sf, canonical b (ledger_blocks (node_canon best first)) (reverse (node_canon best first)) sf.
Proof.
  assert (Hd : (exists f, first = Some f) \/ first = None) by (destruct first; eauto).
  unfold node_canon. destruct Hd as [[f Hf]|Hf].
  - destruct (sn_first _ _ _ Hn f Hf) as [Hfb _].
    destruct (canon_prefix f (Z.to_nat (best - f + 1)) Hf) as (s & Hc & _); [lia|].
    exists s. rewrite (heights_of f Hf). by rewrite Z2Nat.id in Hc by lia.
  - exists (new_state b). unfold canon_heights. rewrite Hf. constructor.
Qed.
End Canonical.

(** ** The node serves the chain *)

Definition distinct_hashes (bs : list BlockView) : Prop :=
  forall x y, x ∈ bs -> y ∈ bs -> blk_hash x = blk_hash y -> x = y.

Definition node_views : list BlockView := node_view <$> seqZ 0 (best + 1).

Lemma elem_of_node_views h : 0 <= h <= best -> node_view h ∈ node_views.
Proof. intros Hh. apply list_elem_of_fmap_2, elem_of_seqZ. lia. Qed.

Lemma elem_of_canon x :
  x ∈ node_canon best first -> exists h f, first = Some f /\ f <= h <= best /\ 0 <= h /\ x = node_view h.
Proof.
  unfold node_canon. intros (h & -> & Hh)%list_elem_of_fmap. exists h.
  assert (Hd : (exists f, first = Some f) \/ first = None) by (destruct first; eauto).
  destruct Hd as [[f Hf]|Hf].
  - apply (elem_of_heights h f Hf) in Hh. exists f. pose proof (proj1 (sn_first _ _ _ Hn f Hf)).
    split_and!; [done|lia..|done].
  - unfold canon_heights in Hh. rewrite Hf in Hh. by apply not_elem_of_nil in Hh.
Qed.

Lemma canon_elem h f : first = Some f -> f <= h <= best -> node_view h ∈ node_canon best first.
Proof. intros Hf Hh. by apply list_elem_of_fmap_2, (elem_of_heights h f Hf). Qed.

Definition natural_heights (chain : list BlockView) : Prop := Forall (fun x => 0 <= blk_height x) chain.

(** Below a stored block that the node has too, the stored chain is the node's: going back along
    both leads to the INIT. *)
Lemma common_below x below s h :
  held b (x :: below) s -> natural_heights below -> distinct_hashes ((x :: below) ++ node_views) ->
  x = node_view h -> 0 <= h <= best ->
  exists f, first = Some f /\ f <= h /\ below = reverse (node_view <$> seqZ f (h - f)).
Proof.
  revert x s h. induction below as [|y below IH]; intros x s h Hc H0 Hd -> Hh.
  - inversion Hc as [|c s0 bl s' d Hc0 Ha]; subst. inversion Hc0; subst.
    apply first_block_init in Ha as (tx & Hin & Et).
    exists h. split; [|split; [lia|by rewrite Z.sub_diag]].
    apply (node_view_init h Hh), Exists_exists. by exists tx.
  - inversion Hc as [|c s0 bl s' d Hc0 Ha]; subst. apply Forall_cons in H0 as [Hy H0].
    pose proof (held_tip _ _ _ Hc0) as (Et & Eh & _).
    apply apply_block_delta in Ha as (_ & _ & _ & _ & _ & _ & _ & L & _).
    destruct (L _ Et) as [E1 E2]. rewrite (node_view_height h Hh) in E1.
    rewrite Eh in E2. injection E2 as E2.
    assert (Ey : y = node_view (blk_height y)).
    { apply Hd; [set_solver|apply elem_of_app; right; apply elem_of_node_views; lia|].
      rewrite <- node_view_linked by lia. rewrite <- E1, E2. done. }
    destruct (IH y _ (blk_height y) Hc0 H0) as (f & Hf & Hle & Eb); [|done|lia|].
    { intros u v Hu Hv. apply Hd; set_solver. }
    exists f. split; [done|]. split; [lia|]. rewrite Eb, Ey at 1.
    replace (h - f) with (blk_height y - f + 1) by lia.
    rewrite seqZ_app, fmap_app, reverse_app by lia.
    replace (f + (blk_height y - f)) with (blk_height y) by lia. done.
Qed.

Lemma locates_answer : answer (rpc_transaction_height nodes (init_txid b)) = Ok first.
Proof.
  destruct (sn_init _ _ _ Hn) as (txid & Hd & Hl). unfold answer, rpc_transaction_height, st_bind, st_lift.
  unfold txid_from_wire. rewrite Hd. cbn [ok_or].
  destruct first as [f|].
  - destruct Hl as (verbose & raw & tx & c & hash & H1 & H2 & H3 & H4 & H5 & H6 & H7 & H8).
    unfold raw_transaction, st_bind, call, try, ensure, st_lift.
    rewrite H1, H2. cbn [ok_or]. rewrite H3. cbn [ok_or]. rewrite decide_True by done.
    rewrite H5, H7. rewrite decide_True by done. unfold st_ret. by rewrite H8.
  - unfold raw_transaction, st_bind, call. by rewrite Hl.
Qed.

Lemma node_mempool :
  exists txs, answer (rpc_mempool nodes) = Ok txs /\ NoDup (tx_txid <$> txs).
Proof.
  destruct (sn_mempool _ _ _ Hn) as (texts & ids & H1 & H2 & H3).
  assert (Hs : succeeds (rpc_mempool nodes) (fun views => tx_txid <$> views = wire_of <$> ids)).
  { unfold rpc_mempool. eapply (call_step n); [done|].
    apply (mempool_succeeds n texts ids); [done|apply cache_serves_empty]. }
  destruct (answer_succeeds _ _ Hs) as (txs & E & Et). exists txs. split; [done|]. rewrite Et.
  apply NoDup_fmap; [|done]. intros t1 t2. apply wire_of_inj.
Qed.

Lemma node_status :
  exists st, answer (rpc_status nodes) = Ok st /\ cs_blocks st = best /\ ready_for st (network b) = true.
Proof.
  destruct (sn_status _ _ _ Hn) as (info & indexes & H1 & Hb & H2 & H3).
  exists (mkCoreStatus (bi_chain info) (bi_blocks info) (bi_headers info) (bi_initialblockdownload info)
    (default false (indexes !! "txindex"%string))). split; [|by split]. unfold answer, rpc_status, st_bind, call, st_ret. by rewrite H1, H2.
Qed.

Lemma node_last x : last (node_canon best first) = Some x -> blk_height x = best.
Proof.
  intros Hl. assert (Hin : x ∈ node_canon best first) by by apply last_Some_elem_of.
  destruct (elem_of_canon x Hin) as (h & f & Hf & Hh & _). unfold node_canon in Hl.
  rewrite (heights_of f Hf) in Hl.
  replace (best - f + 1) with ((best - f) + 1) in Hl by lia. rewrite seqZ_app, fmap_app, last_app in Hl by lia.
  cbn in Hl. injection Hl as <-. pose proof (sn_best _ _ _ Hn). pose proof (proj1 (sn_first _ _ _ Hn f Hf)).
  rewrite node_view_height by lia. lia.
Qed.

(** A suffix of a recorded chain is recorded. *)
Lemma held_suffix above below s : held b (above ++ below) s -> exists s', held b below s'.
Proof.
  revert s. induction above as [|x above IH]; intros s Hc; [by exists s|].
  cbn in Hc. inversion Hc; subst. by eapply IH.
Qed.

Lemma stored_common above x below s :
  held b (above ++ x :: below) s -> natural_heights (above ++ x :: below) ->
  distinct_hashes ((above ++ x :: below) ++ node_views) -> x ∈ node_views ->
  exists f, first = Some f /\ f <= blk_height x /\ blk_height x <= best /\ x = node_view (blk_height x) /\
    below = reverse (node_view <$> seqZ f (blk_height x - f)).
Proof.
  intros Hc H0 Hd Hin. apply held_suffix in Hc as [s' Hc].
  apply Forall_app in H0 as [_ H0]. apply Forall_cons in H0 as [_ H0].
  apply list_elem_of_fmap in Hin as (h & E & Hh). apply elem_of_seqZ in Hh.
  assert (Eh : blk_height x = h) by (rewrite E; apply node_view_height; lia).
  destruct (common_below x below s' h Hc H0) as (f & Hf & Hle & Eb); [|done|lia|].
  { intros u v Hu Hv. apply Hd; set_solver. }
  exists f. rewrite Eh. split_and!; [done|lia|lia|done|done].
Qed.

Lemma canon_in_views x : x ∈ node_canon best first -> x ∈ node_views.
Proof. intros (h & f & _ & Hh & Hge & ->)%elem_of_canon. apply elem_of_node_views. lia. Qed.

Lemma node_serves G sf chain s :
  canonical b G (reverse (node_canon best first)) sf ->
  held b chain s -> natural_heights chain -> distinct_hashes (chain ++ node_views) ->
  serves b (rpc_source nodes) (node_canon best first) chain best.
Proof.
  intros HS Hc H0 Hd.
  split; [apply rpc_source_calm|..];
    cbn [src_status src_best_height src_block src_block_hash src_transaction_height src_mempool rpc_source].
  - destruct node_status as (st & ? & _ & ?). by exists st.
  - unfold answer, rpc_best_height, call. by rewrite (sn_count _ _ _ Hn).
  - apply node_last.
  - intros x (h & f & _ & Hh & Hge & ->)%elem_of_canon. rewrite node_view_height; lia.
  - intros x (h & f & _ & Hh & Hge & ->)%elem_of_canon. rewrite node_view_height by lia.
    apply node_view_at. lia.
  - intros x (h & f & _ & Hh & Hge & ->)%elem_of_canon. rewrite node_view_height by lia.
    apply (view_hash n h (blocks h)); [apply (sn_blocks _ _ _ Hn); lia|apply node_view_at; lia].
  - rewrite locates_answer. f_equal.
    assert (Hf : (exists f, first = Some f) \/ first = None) by (destruct first; eauto).
    unfold node_canon. destruct Hf as [[f Hf]|Hf].
    + pose proof (proj1 (sn_first _ _ _ Hn f Hf)). rewrite (heights_of f Hf), seqZ_cons by lia. cbn.
      by rewrite node_view_height by lia.
    + unfold canon_heights. by rewrite Hf.
  - intros x Hx Hout Hle. unfold natural_heights in H0. rewrite Forall_forall in H0. pose proof (H0 x Hx) as Hx0.
    exists (blk_hash (node_view (blk_height x))). split.
    { apply (view_hash n (blk_height x) (blocks (blk_height x)));
        [apply (sn_blocks _ _ _ Hn); lia|apply node_view_at; lia]. }
    intros E. apply Hout. assert (Ex : node_view (blk_height x) = x).
    { apply Hd; [apply elem_of_app; right; apply elem_of_node_views; lia|set_solver|done]. }
    apply list_elem_of_split in Hx as (c1 & c2 & ->).
    destruct (stored_common c1 x c2 s) as (f & Hf & Hfx & _); [done|by apply Forall_forall|done| |].
    { rewrite <- Ex. apply elem_of_node_views. lia. }
    rewrite <- Ex. by eapply canon_elem.
  - intros above x below pre post -> Ec.
    assert (Hx : x ∈ node_views) by (apply canon_in_views; rewrite Ec; set_solver).
    destruct (stored_common above x below s) as (f & Hf & _ & _ & _ & ->); [done..|].
    assert (Hin : forall y, y ∈ reverse post ++ x :: reverse pre -> y ∈ node_views).
    { intros y Hy. apply canon_in_views. rewrite Ec. revert Hy.
      rewrite !elem_of_app, !elem_of_cons, !elem_of_reverse. tauto. }
    destruct (stored_common (reverse post) x (reverse pre) sf) as (f' & Hf' & _ & _ & _ & ->); [| | |done|congruence].
    + rewrite <- reverse_snoc, <- Ec. by eapply canonical_held.
    + apply Forall_forall. intros y (h & -> & Hh)%Hin%list_elem_of_fmap. apply elem_of_seqZ in Hh.
      rewrite node_view_height; lia.
    + intros u v Hu Hv. apply Hd; [rewrite elem_of_app in *|rewrite elem_of_app in *]; right; naive_solver.
  - destruct node_mempool as (txs & E & Hnd). by exists txs.
Qed.

(** The blocks of the chain have different hashes. *)
Lemma canon_hashes : distinct_hashes node_views -> NoDup (blk_hash <$> node_canon best first).
Proof.
  intros Hd. assert (Hnd : NoDup (node_canon best first)).
  { apply (NoDup_fmap_1 blk_height). unfold node_canon. rewrite <- list_fmap_compose.
    assert (Hf : (exists f, first = Some f) \/ first = None) by (destruct first; eauto).
    destruct Hf as [[f Hf]|Hf]; [|unfold canon_heights; rewrite Hf; constructor].
    pose proof (proj1 (sn_first _ _ _ Hn f Hf)).
    rewrite (heights_of f Hf). erewrite list_fmap_ext; [rewrite list_fmap_id; apply NoDup_seqZ|].
    intros i h Hi. apply list_elem_of_lookup_2, elem_of_seqZ in Hi. cbn. rewrite node_view_height; lia. }
  pose proof canon_in_views as Hin.
  revert Hnd Hin. induction (node_canon best first) as [|x l IH]; [constructor|].
  intros [Hx Hl]%NoDup_cons Hin. cbn. constructor; [|apply IH; [done|set_solver]].
  intros (y & E & Hy)%list_elem_of_fmap. apply Hd in E; [by subst|apply Hin; set_solver..].
Qed.
End Chain.

(** ** The service *)

Section Service.
Context {JV : Type} {P : Primitives} {X : BitcoinCrate} {Y : Platform} `{!HexCodec, !AgreementCrypto}.
Context `{!Json JV Binding, !Json JV ChainState, !Json JV BlockDelta, !Json JV Event,
          !Json JV ObjectState, !Json JV TxView}.
Context (zmq_feature : bool) (zmq_connects : string -> bool) (client_builds : bool).

(** An unused database, or one that some run of the service left behind: the record of whatever
    chain of blocks it was shown. *)
Definition left_behind (b : Binding) (chain : list BlockView) (db : Db JV) : Prop :=
  (chain = [] /\ db = empty_db) \/ exists s, db_ok b chain db s.

Lemma bind_left b chain db db1 s :
  left_behind b chain db -> bind_or_load IoOk b db = (db1, Ok s) -> db_ok b chain db1 s.
Proof.
  intros [[-> ->]|(s0 & Hdb)] Hb.
  - destruct (bind_fresh (JV := JV) b) as (db0 & Hf & Hdb). rewrite Hf in Hb. by injection Hb as <- <-.
  - rewrite (bind_exact _ _ _ _ _ _ Hdb), decide_True in Hb by done. cbn in Hb. by injection Hb as <- <-.
Qed.

(** Several workers at once leave nothing else behind. *)
Lemma fleet_left (f : Fleet (JV := JV)) b db1 s :
  fleet_reaches f -> bind_or_load IoOk b (f_db f) = (db1, Ok s) -> exists chain, left_behind b chain (f_db f).
Proof.
  intros [[-> _]|(b0 & chain & s0 & Hdb & _)]%fleet_reaches_inv Hb; [by exists []; left|].
  exists chain. right. exists s0. rewrite (bind_exact _ _ _ _ _ _ Hdb) in Hb. case_decide; [by subst|done].
Qed.

(** C5: the service heals itself: over a node that has settled on a chain, a service that starts
    on an unused database or on whatever earlier runs left behind, one after the other or several
    at once, for every node they talked to and every failure they met (see [service_safe] and
    [fleet_left]), has after one pass exactly the node's chain
    from the INIT on in its tables and in memory, with every input resolved and every block
    applied.  It reports no error, and its readiness probe passes exactly when the deployment is
    active.  What is asked of the settled chain is that its txids are new and unambiguous; of the
    recorded blocks, that their hashes do not collide with the node's. *)
Theorem service_converges args db db1 sv n best blocks first chain :
  let b := cf_binding (sv_config sv) in
  startup zmq_feature zmq_connects client_builds args IoOk db = (db1, Ok sv) ->
  left_behind b chain db -> natural_heights chain -> settled n b best blocks first ->
  fresh_txs b (node_canon n best first) -> unambiguous (fun _ => n) (node_txs best blocks first) ->
  distinct_hashes (chain ++ node_views n best) ->
  exists w sf,
    service_run (fun _ _ => n) (fun _ => IoOk) 1 sv db1 = (w, mkHealth (tip_height sf) None false, Ok tt) /\
    canonical b (ledger_blocks (node_canon n best first)) (reverse (node_canon n best first)) sf /\
    db_ok b (reverse (node_canon n best first)) (w_db w) sf /\ w_state w = sf /\
    (api_readiness (api_state sv (mkHealth (tip_height sf) None false) (rpc_source (fun _ => n)) (fun _ => w_db w)
       (fun _ => IoOk)) = Ok [] <-> is_active sf = true).
Proof.
  intros b Hs Hst Hnat Hn Hfresh Hun Hd. apply startup_Ok in Hs as [Hc Hb].
  pose proof (bind_left _ _ _ _ _ Hst Hb) as Hdb.
  destruct (canon_canonical n b best blocks first Hn Hfresh Hun) as [sf Hsf].
  destruct (run_once_converges (service_env (fun _ _ => n) (fun _ => IoOk)) (release_identity (sv_config sv)) b
    (rpc_source (fun _ => n)) (node_canon n best first) best) with (G := ledger_blocks (node_canon n best first))
    (chain := chain) (sf := sf) (w := mkWorker db1 (sv_state sv) 0) as (w & Hr & Ew & Hw).
  { done. } { by apply (cw_release args), from_args_config_wf. } { done. } { done. }
  { eapply node_serves; [done|done|by eapply journal_held, dk_journal|done|done]. }
  { eapply canon_hashes; [done|]. intros x y Hx Hy. apply Hd; set_solver. }
  { intros x y Hx Hy. apply Hd; [set_solver|]. apply elem_of_app. right.
    by apply (canon_in_views n b best blocks first Hn). }
  exists w, sf. split_and!; [|done..|].
  { unfold service_run. cbn [run_loop]. unfold run_pass. by rewrite Hr, Ew. }
  rewrite (readiness_iff _ b (reverse (node_canon n best first)) sf) by done.
  cbn [api_state api_io api_health api_source api_binding]. destruct (node_status n b best blocks first Hn) as (status & E & Ebest & Er).
  cbn [src_status rpc_source]. split; [by intros (_ & _ & _ & ? & _)|]. intros Ha.
  split_and!; try done. exists status. split_and!; [done..|]. rewrite Ebest.
  pose proof (held_tip _ _ _ (canonical_held _ _ _ _ Hsf)) as (Et & _ & _ & _). rewrite Et, head_reverse.
  destruct (last (node_canon n best first)) as [x|] eqn:El.
  - cbn. f_equal. by eapply node_last.
  - apply last_None in El. rewrite El, reverse_nil in Hsf. apply canonical_held in Hsf. assert (sf = new_state b) as -> by by inversion Hsf. discriminate.
Qed.
End Service.
