(* ===== verification/Cli.v ===== *)
(** * The verification tool (crates/tandem-cli/src/main.rs)

    Three commands: [verify_inputs] compares files with a lock, [verify_vectors] recomputes the
    values of a fixture, [replay] runs resolved blocks through the reducer.  The JSON crate is the
    class [JsonDocument]: its dynamic value with the accessors that are used, and the decoders of
    the three typed inputs.  Files are read through [Files]. *)

From Stdlib Require Import String.
From stdpp Require Import strings.
From S2P Require Import Prelude Types Marker Roots Reducer Text.

(** ** Inputs and reports *)

Record InputLock := mkLock {
  il_schema : string;
  il_inputs : gmap (list byte) Hash32;
}.

Record InputReport := mkInputReport {
  ir_schema : string;
  ir_files_verified : Z;
  ir_hashes : gmap (list byte) Hash32;
}.

Record Manifest := mkManifest {
  mf_schema : string;
  mf_specification : string;
  mf_spec_hash : Hash32;
  mf_fixture_file : string;
  mf_fixture_sha256 : Hash32;
  mf_vector_root : Hash32;
}.

Record VectorReport := mkVectorReport {
  vr_schema : string;
  vr_spec_hash : Hash32;
  vr_fixture_sha256 : Hash32;
  vr_vector_root : Hash32;
  vr_markers_verified : Z;
  vr_event_leaves_verified : Z;
  vr_object_leaves_verified : Z;
  vr_event_root : Hash32;
  vr_object_state_root : Hash32;
  vr_chained_root : Hash32;
}.

Record ReplayInput := mkReplayInput {
  ri_binding : Binding;
  ri_blocks : list BlockView;
  ri_expected_roots : list HeightRoots;
}.

Record ReplayReport := mkReplayReport {
  rr_schema : string;
  rr_protocol_id : string;
  rr_heights : list HeightRoots;
  rr_event_counts : list Z;
  rr_final_state : ChainState;
}.

(** A missing key or an index into something else is [null]; only a string equals a string. *)
Class JsonDocument := {
  Value : Type;
  as_str : Value -> option string;
  as_array : Value -> option (list Value);
  as_u64 : Value -> option Z;
  get_key : Value -> string -> Value;
  get_index : Value -> nat -> Value;
  value_from_slice : list byte -> option Value;
  lock_from_slice : list byte -> option InputLock;
  manifest_from_slice : list byte -> option Manifest;
  replay_from_slice : list byte -> option ReplayInput;
}.

Class Files := fs_read : list byte -> option (list byte).

Inductive CliError :=
| Unreadable | InvalidJson | WrongSchema | EmptyLock | UnsafePath (relative : list byte)
| HashMismatch (what : string) | Missing (what : string) | NotHex | InvalidHash
| IdentityMismatch (what : string) | MarkerNotDetected | MarkerParseFailed (r : Reason)
| MarkerMismatch (what : string) | InvalidPair | CarrierMismatch (what : string)
| LeafMismatch | EmptyLevels | EmptyChild | WidthMismatch | ParentMismatch | EmptyRootLevel | RootMismatch
| BlockRootMismatch (what : string)
| ReplayFailed (index : Z) (e : ReducerError) | RootsDiffer (height : Z) | RootsLength.

(** ** Paths (std::path on Unix, a path as its bytes) *)

Definition SLASH : byte := x2f.
Definition is_absolute (p : list byte) : bool := bool_decide (head p = Some SLASH).

Inductive Component := RootDir | CurDir | ParentDir | Normal (name : list byte).
#[global] Instance Component_eq_dec : EqDecision Component.
Proof. solve_decision. Defined.

Definition component_of (part : list byte) : option Component :=
  if decide (part = [] \/ part = ascii ".") then None
  else if decide (part = ascii "..") then Some ParentDir else Some (Normal part).

(** [Path::components]: empty parts and dots disappear, except for a leading one. *)
Definition components (p : list byte) : list Component :=
  match split_on SLASH p with
  | [] => []
  | first :: rest =>
      (if is_absolute p then [RootDir]
       else if decide (first = ascii ".") then [CurDir] else option_list (component_of first))
      ++ omap component_of rest
  end.

Definition is_normal (c : Component) : bool := match c with Normal _ => true | _ => false end.

(** [Path::join]. *)
Definition path_join (base p : list byte) : list byte :=
  if is_absolute p then p
  else if decide (base = [] \/ last base = Some SLASH) then base ++ p
  else base ++ SLASH :: p.

(** [Path::parent]: the text before the last component. *)
Fixpoint drop_void (parts : list (list byte)) : list (list byte) :=
  match parts with
  | part :: rest => if decide (component_of part = None) then drop_void rest else parts
  | [] => []
  end.

Fixpoint join_parts (parts : list (list byte)) : list byte :=
  match parts with
  | [] => []
  | [part] => part
  | part :: rest => part ++ SLASH :: join_parts rest
  end.

Definition path_parent (p : list byte) : option (list byte) :=
  match split_on SLASH p with
  | [] => None
  | first :: rest =>
      match drop_void (reverse rest) with
      | _ :: before =>
          match drop_void before with
          | [] => Some (if decide (first = []) then [SLASH] else first)
          | kept => Some (join_parts (first :: reverse kept))
          end
      | [] => if decide (first = []) then None else Some []
      end
  end.

Section Cli.
Context {P : Primitives} `{!HexCodec} {J : JsonDocument} {F : Files}.

Definition need {A} (what : string) (o : option A) : res CliError A := ok_or (Missing what) o.

(** ** verify_inputs *)

Definition safe_path (relative : list byte) : bool :=
  negb (is_absolute relative) && forallb is_normal (components relative).

Fixpoint check_inputs (root : list byte) (entries : list (list byte * Hash32))
    (hashes : gmap (list byte) Hash32) : res CliError (gmap (list byte) Hash32) :=
  match entries with
  | [] => Ok hashes
  | (relative, expected) :: rest =>
      fail_if (safe_path relative = false) with UnsafePath relative;
      let? content := ok_or Unreadable (fs_read (path_join root relative)) in
      let actual := sha256 content in
      fail_if (actual <> expected) with HashMismatch "protocol input";
      check_inputs root rest (<[relative := actual]> hashes)
  end.

Definition verify_inputs (lock_path root : list byte) : res CliError InputReport :=
  let? bytes := ok_or Unreadable (fs_read lock_path) in
  let? lock := ok_or InvalidJson (lock_from_slice bytes) in
  fail_if (il_schema lock <> "urn:tandem:rust-protocol-input-lock"%string) with WrongSchema;
  fail_if (il_inputs lock = ∅) with EmptyLock;
  let? hashes := check_inputs root (bt_entries (il_inputs lock)) ∅ in
  Ok (mkInputReport "urn:tandem:rust-input-verification-report" (Z.of_nat (size hashes)) hashes).

(** ** Hashes in JSON *)

Definition parse_json_hash (v : Value) : res CliError Hash32 :=
  let? text := need "hexadecimal hash" (as_str v) in ok_or InvalidHash (from_hex text).

Fixpoint parse_hashes (vs : list Value) : res CliError (list Hash32) :=
  match vs with
  | [] => Ok []
  | v :: rest =>
      let? h := parse_json_hash v in
      let? hs := parse_hashes rest in
      Ok (h :: hs)
  end.

Definition parse_hash_array (v : Value) : res CliError (list Hash32) :=
  let? vs := need "hash array" (as_array v) in parse_hashes vs.

(** [value == text] between a JSON value and a string. *)
Definition is_str (v : Value) (text : string) : Prop := as_str v = Some text.

#[global] Instance is_str_dec v text : Decision (is_str v text).
Proof. unfold is_str. apply _. Defined.

(** [hex::decode(value.as_str()?)?]. *)
Definition json_hex (what : string) (v : Value) : res CliError (list byte) :=
  let? text := need what (as_str v) in ok_or NotHex (hex_decode text).

(** ** Merkle levels *)

Fixpoint check_parents (domain : list byte) (children parents : list Hash32) : res CliError unit :=
  match children, parents with
  | a :: b :: rest, parent :: parents' =>
      fail_if (sha256 (domain ++ arr_bytes a ++ arr_bytes b) <> parent) with ParentMismatch;
      check_parents domain rest parents'
  | _, _ => Ok tt
  end.

Definition check_pair (domain : list byte) (below above : Value) : res CliError unit :=
  let? children := parse_hash_array below in
  let? parents := parse_hash_array above in
  let? padded := if decide (Nat.odd (length children) = true)
                 then let? l := ok_or EmptyChild (last children) in Ok (children ++ [l])
                 else Ok children in
  fail_if (length parents <> (length padded / 2)%nat) with WidthMismatch;
  check_parents domain padded parents.

(** [levels.windows(2)]. *)
Fixpoint check_levels (domain : list byte) (levels : list Value) : res CliError unit :=
  match levels with
  | below :: ((above :: _) as rest) =>
      let? _ := check_pair domain below above in check_levels domain rest
  | _ => Ok tt
  end.

Definition verify_merkle_levels (v : Value) (domain : list byte) (expected : Hash32) :
  res CliError Hash32 :=
  let? levels := need "Merkle levels" (as_array v) in
  fail_if (levels = []) with EmptyLevels;
  let? _ := check_levels domain levels in
  let? top := need "root level" (last levels) in
  let? hashes := parse_hash_array top in
  let? root := ok_or EmptyRootLevel (head hashes) in
  fail_if (root <> expected) with RootMismatch;
  Ok root.

(** ** verify_vectors *)

Definition vector_root (filename : string) (fixture_hash : Hash32) : Hash32 :=
  sha256 (domain "TANDEM/VECTOR-ROOT" ++ ascii filename ++ [x00] ++ arr_bytes fixture_hash).

Definition COLON : byte := x3a.

(** [str::split(':')]. *)
Definition split_colon (s : string) : list string :=
  String.string_of_list_byte <$> split_on COLON (ascii s).

Definition verify_identity (fixture : Value) (spec : Hash32) : res CliError unit :=
  let identity := get_key fixture "identity" in
  let? id := need "protocol id" (as_str (get_key identity "protocolId")) in
  let parts := split_colon id in
  fail_if (length parts <> 3%nat \/ take 2 parts <> ["tndm"%string; "regtest"%string])
    with IdentityMismatch "protocol id";
  let? init_text := index parts 2 in
  let? init := ok_or InvalidHash (wire_hash init_text) in
  let b := mkBinding Regtest init spec in
  fail_if (protocol_id b <> id) with IdentityMismatch "protocol id derivation";
  let? expected_namespace := parse_json_hash (get_key identity "namespace") in
  fail_if (namespace b <> expected_namespace) with IdentityMismatch "namespace";
  let? display := need "object display id" (as_str (get_key identity "objectDisplayId")) in
  let object_parts := split_colon display in
  fail_if (length object_parts <> 5%nat \/ take 2 object_parts <> ["tandem"%string; "regtest"%string]
           \/ object_parts !! 2%nat <> Some init_text \/ object_parts !! 4%nat <> Some "1"%string)
    with IdentityMismatch "object display id";
  let? create_text := index object_parts 3 in
  let? expected_object := parse_json_hash (get_key identity "objectKey") in
  let? create := ok_or InvalidHash (wire_hash create_text) in
  fail_if (derive_object_key expected_namespace create <> expected_object) with IdentityMismatch "object key";
  Ok tt.

Definition opcode_named (text : string) : option Opcode :=
  if decide (text = "INIT"%string) then Some OpInit
  else if decide (text = "CREATE"%string) then Some OpCreate
  else if decide (text = "MARK"%string) then Some OpMark
  else if decide (text = "ROTATE"%string) then Some OpRotate
  else if decide (text = "CLOSE"%string) then Some OpClose
  else None.

Definition parse_marker (c : MarkerCandidate) : res CliError ParsedMarker :=
  match parse c with Ok m => Ok m | Err r => Err (MarkerParseFailed r) | Panic => Panic end.

(** The body of the loop of [verify_markers]. *)
Definition verify_marker (marker : Value) : res CliError unit :=
  let? script := json_hex "marker script" (get_key marker "scriptHex") in
  let? candidate := ok_or MarkerNotDetected (find_marker_candidate script 0) in
  let? parsed := parse_marker candidate in
  let? operation := need "marker operation" (as_str (get_key marker "operation")) in
  let? expected := ok_or (MarkerMismatch "operation") (opcode_named operation) in
  fail_if (pm_opcode parsed <> Some expected) with MarkerMismatch "opcode";
  fail_if (len (pm_payload parsed) <> payload_len expected) with MarkerMismatch "payload length";
  let? script_size := need "script size" (as_u64 (get_key marker "scriptBytes")) in
  fail_if (len script <> script_size) with MarkerMismatch "script size";
  let? payload_size := need "payload size" (as_u64 (get_key marker "payloadBytes")) in
  fail_if (len (pm_payload parsed) <> payload_size) with MarkerMismatch "payload size";
  Ok tt.

Fixpoint for_all (check : Value -> res CliError unit) (vs : list Value) : res CliError unit :=
  match vs with
  | [] => Ok tt
  | v :: rest => let? _ := check v in for_all check rest
  end.

Definition verify_markers (fixture : Value) : res CliError Z :=
  let? markers := need "marker vectors" (as_array (get_key fixture "markers")) in
  let? _ := for_all verify_marker markers in
  Ok (len markers).

Definition verify_carrier (fixture : Value) : res CliError unit :=
  let carrier := get_key fixture "carrier" in
  let? text0 := need "key0" (as_str (get_key carrier "key0")) in
  let? k0 := ok_or NotHex (key_from_hex text0) in
  let? text1 := need "key1" (as_str (get_key carrier "key1")) in
  let? k1 := ok_or NotHex (key_from_hex text1) in
  let? pair := ok_or InvalidPair (keypair_checked k0 k1) in
  fail_if (~ is_str (get_key carrier "witnessScript") (hex_encode (witness_script pair)))
    with CarrierMismatch "witness script";
  fail_if (~ is_str (get_key carrier "scriptPubKey") (hex_encode (carrier_script pair)))
    with CarrierMismatch "scriptPubKey";
  Ok tt.

Definition verify_leaf (leaf : Value) : res CliError unit :=
  let? preimage := json_hex "preimage" (get_key leaf "preimageHex") in
  let? expected := parse_json_hash (get_key leaf "leafHex") in
  fail_if (sha256 preimage <> expected) with LeafMismatch;
  Ok tt.

Definition verify_preimage_leaves (v : Value) : res CliError Z :=
  let? leaves := need "root leaves" (as_array v) in
  let? _ := for_all verify_leaf leaves in
  Ok (len leaves).

(** [bytes[a..b].try_into()]; the slice panics when the preimage is too short. *)
Definition slice_array (n a : nat) (l : list byte) : res CliError (arr n) :=
  let? s := slice a (a + n) l in expect (arr_of n s).

(** The loop over the snapshots of [verify_block_root]; the sums cannot overflow, each byte is at
    most 255. *)
Fixpoint count_snapshots (snapshots : list Value) (founding active : Z) : res CliError (Z * Z) :=
  match snapshots with
  | [] => Ok (founding, active)
  | snapshot :: rest =>
      let? preimage := json_hex "snapshot preimage" (get_key snapshot "preimageHex") in
      let at_byte := (fun i => index preimage (length (domain "TANDEM/OBJECT-STATE") + i)) in
      let? f := at_byte 32%nat in
      let? st := at_byte 33%nat in
      count_snapshots rest (founding + bval f) (active + (if decide (st = x00) then 1 else 0))
  end.

Definition verify_block_root (fixture : Value) (event_rt object_rt : Hash32) : res CliError Hash32 :=
  let roots := get_key fixture "roots" in
  let? ns := parse_json_hash (get_key (get_key fixture "identity") "namespace") in
  let? initial_root := parse_json_hash (get_key roots "initialStateRoot") in
  fail_if (sha256 (domain "TANDEM/STATE-EMPTY" ++ arr_bytes ns) <> initial_root)
    with BlockRootMismatch "initial state root";
  let? first := json_hex "event preimage" (get_key (get_index (get_key roots "events") 0) "preimageHex") in
  let skip := length (domain "TANDEM/EVENT") in
  let? block_hash := slice_array 32 (skip + 32) first in
  let? height := slice_array 8 (skip + 64) first in
  let? snapshots := need "snapshots" (as_array (get_key roots "snapshots")) in
  let? '(founding, active) := count_snapshots snapshots 0 0 in
  let calculated := block_root ns initial_root block_hash (of_le (arr_bytes height)) event_rt object_rt
                      (mkCounters founding (len snapshots) active) in
  let? expected := parse_json_hash (get_key roots "chainedBlockRoot") in
  fail_if (calculated <> expected) with BlockRootMismatch "chained block root";
  Ok calculated.

Definition verify_vectors (manifest_path spec_path : list byte) : res CliError VectorReport :=
  let? manifest_bytes := ok_or Unreadable (fs_read manifest_path) in
  let? manifest := ok_or InvalidJson (manifest_from_slice manifest_bytes) in
  fail_if (mf_schema manifest <> "urn:tandem:golden-vector-manifest"%string) with WrongSchema;
  fail_if (mf_specification manifest <> "tandem.md"%string) with Missing "specification filename";
  fail_if (mf_fixture_file manifest <> "golden.json"%string) with Missing "fixture filename";
  let? spec_bytes := ok_or Unreadable (fs_read spec_path) in
  let spec := sha256 spec_bytes in
  fail_if (spec <> mf_spec_hash manifest) with HashMismatch "specification";
  let? parent := need "parent directory" (path_parent manifest_path) in
  let? fixture_bytes := ok_or Unreadable (fs_read (path_join parent (ascii (mf_fixture_file manifest)))) in
  let fixture_hash := sha256 fixture_bytes in
  fail_if (fixture_hash <> mf_fixture_sha256 manifest) with HashMismatch "fixture";
  let vroot := vector_root (mf_fixture_file manifest) fixture_hash in
  fail_if (vroot <> mf_vector_root manifest) with HashMismatch "vector root";
  let? fixture := ok_or InvalidJson (value_from_slice fixture_bytes) in
  fail_if (~ is_str (get_key fixture "schema") "urn:tandem:golden-fixtures") with WrongSchema;
  fail_if (~ is_str (get_key fixture "specHash") (to_hex spec)) with HashMismatch "fixture spec hash";
  let? _ := verify_identity fixture spec in
  let? markers := verify_markers fixture in
  let? _ := verify_carrier fixture in
  let roots := get_key fixture "roots" in
  let? event_leaves := verify_preimage_leaves (get_key roots "events") in
  let? object_leaves := verify_preimage_leaves (get_key roots "snapshots") in
  let? expected_events := parse_json_hash (get_key roots "eventRoot") in
  let? event_rt := verify_merkle_levels (get_key roots "eventMerkleLevels") (domain "TANDEM/EVENT-NODE")
                     expected_events in
  let? expected_objects := parse_json_hash (get_key roots "objectStateRoot") in
  let? object_rt := verify_merkle_levels (get_key roots "objectMerkleLevels")
                      (domain "TANDEM/OBJECT-NODE") expected_objects in
  let? chained := verify_block_root fixture event_rt object_rt in
  Ok (mkVectorReport "urn:tandem:rust-vector-report" spec fixture_hash vroot markers event_leaves
        object_leaves event_rt object_rt chained).

(** ** replay *)

Fixpoint replay_blocks (i : nat) (blocks : list BlockView) (expected : list HeightRoots)
    (heights : list HeightRoots) (counts : list Z) (s : ChainState) :
  res CliError (list HeightRoots * list Z * ChainState) :=
  match blocks with
  | [] => Ok (heights, counts, s)
  | block :: rest =>
      match apply_block block s with
      | (s', Ok delta) =>
          match expected !! i with
          | Some e =>
              if decide (bd_roots delta <> e) then Err (RootsDiffer (blk_height block))
              else replay_blocks (S i) rest expected (heights ++ [bd_roots delta])
                     (counts ++ [len (bd_events delta)]) s'
          | None => replay_blocks (S i) rest expected (heights ++ [bd_roots delta])
                      (counts ++ [len (bd_events delta)]) s'
          end
      | (_, Err e) => Err (ReplayFailed (Z.of_nat i) e)
      | (_, Panic) => Panic
      end
  end.

Definition replay_input (input : ReplayInput) : res CliError ReplayReport :=
  let? '(heights, counts, s) := replay_blocks 0 (ri_blocks input) (ri_expected_roots input) [] []
                                  (new_state (ri_binding input)) in
  fail_if (~ (ri_expected_roots input = [] \/ length (ri_expected_roots input) = length heights))
    with RootsLength;
  Ok (mkReplayReport "urn:tandem:rust-replay-report" (protocol_id (binding s)) heights counts s).

Definition replay (path : list byte) : res CliError ReplayReport :=
  let? bytes := ok_or Unreadable (fs_read path) in
  let? input := ok_or InvalidJson (replay_from_slice bytes) in
  replay_input input.
End Cli.
