(* ===== verification/CliFacts.v ===== *)
(** * What the verification tool establishes

    A replay report is the replay of its input, and confirms what a database serves; a verified
    lock means safe paths and matching digests; verified Merkle levels are the levels of the
    reducer's Merkle root, provided their widths are those of a tree, which the tool does not
    check. *)

From Stdlib Require Import String.
From stdpp Require Import strings.
From S2P Require Import Prelude Types Marker Roots Reducer Chain Store StoreInv Commit Queries Text Cli.

Section CliFacts.
Context {P : Primitives} `{!HexCodec} {J : JsonDocument} {F : Files}.

(** ** Replay *)

Lemma replay_blocks_Ok i blocks expected hs cs s hs' cs' s' :
  replay_blocks i blocks expected hs cs s = Ok (hs', cs', s') <->
  exists ds, connect_all blocks s = (s', Ok ds) /\ hs' = hs ++ (bd_roots <$> ds) /\
    cs' = cs ++ ((fun d => len (bd_events d)) <$> ds) /\
    (forall j d e, ds !! j = Some d -> expected !! (i + j)%nat = Some e -> bd_roots d = e).
Proof.
  revert i hs cs s. induction blocks as [|block blocks IH]; intros i hs cs s; cbn [replay_blocks].
  - split.
    + intros [= -> -> ->]. exists []. cbn. rewrite !app_nil_r. split_and!; try done.
    + intros (ds & [= <- <-] & -> & -> & _). cbn. by rewrite !app_nil_r.
  - setoid_rewrite connect_all_cons.
    assert (Hstep : forall s1 d, apply_block block s = (s1, Ok d) ->
      (forall e, expected !! i = Some e -> bd_roots d = e) ->
      replay_blocks (S i) blocks expected (hs ++ [bd_roots d]) (cs ++ [len (bd_events d)]) s1 = Ok (hs', cs', s') <->
      exists ds, (exists s2 d' ds', apply_block block s = (s2, Ok d') /\
          connect_all blocks s2 = (s', Ok ds') /\ ds = d' :: ds') /\ hs' = hs ++ (bd_roots <$> ds) /\
        cs' = cs ++ ((fun d => len (bd_events d)) <$> ds) /\
        (forall j d' e, ds !! j = Some d' -> expected !! (i + j)%nat = Some e -> bd_roots d' = e)).
    { intros s1 d Ha Hi. rewrite IH. split.
      - intros (ds & Hc & -> & -> & He). exists (d :: ds). rewrite <- !app_assoc. split_and!; [eauto 6|done..|].
        intros [|j] d' e; simpl; [rewrite Nat.add_0_r; intros [= <-]; apply Hi|].
        rewrite Nat.add_succ_r. apply (He j).
      - intros (? & (s2 & d' & ds' & Ha' & Hc & ->) & -> & -> & He). rewrite Ha in Ha'. simplify_eq.
        exists ds'. rewrite <- !app_assoc. split_and!; [done..|]. intros j d1 e H1 H2.
        apply (He (S j) d1 e); [done|by rewrite Nat.add_succ_r]. }
    destruct (apply_block block s) as [s1 [d|e|]] eqn:Ea.
    + destruct (expected !! i) as [e|] eqn:Ee.
      * case_decide as Hd.
        { split; [done|]. intros (? & (s2 & d' & ds' & [= <- <-] & _ & ->) & _ & _ & He).
          destruct Hd. apply (He 0%nat); [done|by rewrite Nat.add_0_r]. }
        apply Hstep; [done|]. naive_solver.
      * apply Hstep; [done|naive_solver].
    + split; [done|]. naive_solver.
    + split; [done|]. naive_solver.
Qed.

Lemma replay_iff input report :
  replay_input input = Ok report <->
  exists s ds, connect_all (ri_blocks input) (new_state (ri_binding input)) = (s, Ok ds) /\
    (ri_expected_roots input = [] \/ ri_expected_roots input = bd_roots <$> ds) /\
    report = mkReplayReport "urn:tandem:rust-replay-report" (protocol_id (binding s))
               (bd_roots <$> ds) ((fun d => len (bd_events d)) <$> ds) s.
Proof.
  unfold replay_input. rewrite rbind_Ok. split.
  - intros ([[hs cs] s] & Hr & Hx). apply replay_blocks_Ok in Hr as (ds & Hc & -> & -> & He).
    apply fail_if_Ok in Hx as [Hlen%dec_stable [= <-]]. exists s, ds. split; [done|]. split; [|done].
    destruct Hlen as [?|Hlen]; [by left|right]. cbn in Hlen. rewrite length_fmap in Hlen.
    apply list_eq_same_length with (length ds); [by rewrite length_fmap|done|].
    intros j e r Hj H1 H2. rewrite list_lookup_fmap_Some in H2. destruct H2 as (d & -> & Hd).
    symmetry. by apply (He j).
  - intros (s & ds & Hc & Hexp & ->). exists (bd_roots <$> ds, (fun d => len (bd_events d)) <$> ds, s). split.
    + apply replay_blocks_Ok. exists ds. split_and!; [done..|]. intros j d e Hd He. simpl in He.
      destruct Hexp as [Hx|Hx]; rewrite Hx in He; [done|]. rewrite list_lookup_fmap, Hd in He. by injection He.
    + cbn. rewrite decide_False; [done|]. intros Hn. apply Hn.
      destruct Hexp as [Hx|Hx]; rewrite Hx; [by left|right]. by rewrite length_fmap.
Qed.

(** ** Replay against a database *)

Context {JV : Type} `{!Json JV Binding, !Json JV ChainState, !Json JV BlockDelta, !Json JV Event,
  !Json JV ObjectState, !Json JV TxView}.

(** C34: the tool and the service agree: a replay of the blocks a consistent database was built
    from, without expectations, succeeds, ends in the stored state, and reports for every height
    exactly the roots the database serves; with expectations it succeeds exactly when they are
    those roots. *)
Theorem replay_confirms_store b chain (db : Db JV) s expected :
  db_ok b chain db s ->
  exists report, replay_input (mkReplayInput b (reverse chain) []) = Ok report /\
    rr_final_state report = s /\
    (forall h roots, (exists release, roots_at db h = Ok (Some (roots, release))) <->
       roots ∈ rr_heights report /\ hr_height roots = h) /\
    ((exists report', replay_input (mkReplayInput b (reverse chain) expected) = Ok report') <->
       expected = [] \/ expected = rr_heights report).
Proof.
  intros Hdb. destruct (roots_replay _ _ _ _ Hdb) as (ds & Hc & Hr).
  destruct Hdb as [_ _ _ (ds' & Hc' & Hf & _)%journal_deltas]. rewrite Hc in Hc'. injection Hc' as <-.
  eexists. split; [apply replay_iff; exists s, ds; by split_and!; [|left|]|].
  cbn [rr_final_state rr_heights]. split; [done|]. split.
  - intros h roots. rewrite Hr, list_elem_of_fmap. rewrite Forall_forall in Hf. split.
    + intros (d & Hd & <- & <-). split; [by exists d|]. by destruct (Hf d Hd) as (_ & _ & _ & _ & ? & _).
    + intros ((d & -> & Hd) & <-). exists d. split_and!; [done| |done].
      by destruct (Hf d Hd) as (_ & _ & _ & _ & ? & _).
  - setoid_rewrite replay_iff. cbn [ri_blocks ri_binding ri_expected_roots]. split.
    + intros (report' & s' & ds' & Hc' & He & _). rewrite Hc in Hc'. by injection Hc' as -> ->.
    + intros He. eexists. exists s, ds. by split_and!.
Qed.

(** ** Merkle levels *)

Lemma check_parents_Ok dom children parents u :
  length parents = (length children / 2)%nat ->
  check_parents dom children parents = Ok u <-> parents = merkle_pairs dom children.
Proof.
  destruct u. revert parents. remember (length children) as n eqn:En. revert children En.
  induction n as [n IH] using lt_wf_ind. intros [|a [|b children]] En parents Hl; subst n.
  1, 2: destruct parents; [by split|done].
  cbn [length] in Hl. replace (S (S (length children))) with (length children + 1 * 2)%nat in Hl by lia.
  rewrite Nat.div_add in Hl by lia. destruct parents as [|p parents]; [cbn [length] in Hl; lia|].
  cbn [check_parents merkle_pairs]. rewrite fail_if_Ok. unfold node_preimage.
  rewrite (IH (length children)); [|cbn; lia|done|cbn [length] in Hl; lia].
  split; [intros [<-%dec_stable ->]; done|]. intros [= -> ->]. split; [by intros Hn|done].
Qed.

Lemma padded_pad (l : list Hash32) :
  (if decide (Nat.odd (length l) = true)
   then let? x := ok_or EmptyChild (last l) in Ok (l ++ [x]) else Ok l) = Ok (merkle_pad l).
Proof.
  unfold merkle_pad. destruct (Nat.odd (length l)) eqn:Eo; [|by rewrite decide_False].
  rewrite decide_True by done. destruct (last l) as [x|] eqn:El; [done|].
  apply last_None in El. by subst.
Qed.

Lemma check_pair_Ok dom below above u :
  check_pair dom below above = Ok u <->
  exists l, parse_hash_array below = Ok l /\ parse_hash_array above = Ok (merkle_level dom l).
Proof.
  unfold check_pair. destruct (parse_hash_array below) as [l| |]; cbn [rbind]; [|naive_solver..].
  destruct (parse_hash_array above) as [ps| |]; cbn [rbind]; [|naive_solver..].
  rewrite padded_pad. cbn [rbind]. rewrite fail_if_Ok. unfold merkle_level. split.
  - intros [Hl%dec_stable Hc]. apply check_parents_Ok in Hc as ->; [|done]. by exists l.
  - intros (l' & [= <-] & [= ->]). rewrite merkle_pairs_length. split; [by intros Hn|].
    apply check_parents_Ok; [apply merkle_pairs_length|done].
Qed.

(** Every level is the one below it, reduced. *)
Fixpoint tower (dom : list byte) (levels : list (list Hash32)) : Prop :=
  match levels with
  | below :: ((above :: _) as rest) => above = merkle_level dom below /\ tower dom rest
  | _ => True
  end.

Definition parses (v : Value) (l : list Hash32) : Prop := parse_hash_array v = Ok l.

Lemma check_levels_Ok dom vs u top :
  check_levels dom vs = Ok u /\ (exists v, last vs = Some v /\ parses v top) <->
  exists ls, Forall2 parses vs ls /\ tower dom ls /\ last ls = Some top.
Proof.
  destruct u. induction vs as [|v [|v' vs] IH].
  - split; [by intros (_ & v & ? & _)|]. intros (ls & Hf & _ & Hl). by inversion Hf; subst.
  - split.
    + intros (_ & v1 & [= <-] & Hp). exists [top]. split_and!; [by repeat constructor|done..].
    + intros (ls & Hf & _ & Hl). inversion Hf as [|? l ? ls' Hp Hf']; subst. inversion Hf'; subst.
      injection Hl as ->. split; [done|]. by exists v.
  - change (check_levels dom (v :: v' :: vs)) with
      (let? _ := check_pair dom v v' in check_levels dom (v' :: vs)).
    rewrite rbind_Ok. setoid_rewrite check_pair_Ok. split.
    + intros ((u & (l & Hl & Hl') & Hc) & Htop).
      destruct (proj1 IH (conj Hc Htop)) as (ls & Hf & Ht & Hlast). exists (l :: ls).
      split; [by constructor|]. inversion Hf as [|? l1 ? ls' Hp Hf']; subst.
      unfold parses in Hp. rewrite Hl' in Hp. injection Hp as <-. by split.
    + intros (ls & Hf & Ht & Hlast). inversion Hf as [|? l ? ls1 Hp Hf1]; subst.
      inversion Hf1 as [|? l1 ? ls2 Hp1 Hf2]; subst. destruct Ht as [-> Ht].
      destruct (proj2 IH) as [Hc Htop]; [exists (merkle_level dom l :: ls2); by split_and!|].
      split; [|done]. exists tt. split; [by exists l|done].
Qed.

#[local] Opaque parse_hash_array.

Lemma verify_levels_iff v dom expected r :
  verify_merkle_levels v dom expected = Ok r <->
  exists vs ls top, as_array v = Some vs /\ Forall2 parses vs ls /\ tower dom ls /\
    last ls = Some (r :: top) /\ r = expected.
Proof.
  unfold verify_merkle_levels, need. destruct (as_array v) as [vs|]; cbn [ok_or rbind]; [|naive_solver].
  rewrite fail_if_Ok, rbind_Ok. setoid_rewrite rbind_Ok. setoid_rewrite rbind_Ok. setoid_rewrite rbind_Ok.
  setoid_rewrite fail_if_Ok. setoid_rewrite ok_or_Ok. split.
  - intros (Hne & u & Hc & vt & Hlast & top & Htop & r' & Hh & Hr%dec_stable & [= ->]).
    assert (Hx : exists ls, Forall2 parses vs ls /\ tower dom ls /\ last ls = Some top)
      by (apply (check_levels_Ok dom vs u top); split; [done|by exists vt]).
    destruct Hx as (ls & Hf & Ht & Hl).
    destruct top as [|r0 top]; [done|]. injection Hh as ->. by exists vs, ls, top.
  - intros (vs' & ls & top & [= <-] & Hf & Ht & Hl & ->). 
    assert (Hx : check_levels dom vs = Ok tt /\ exists v, last vs = Some v /\ parses v (expected :: top))
      by (apply check_levels_Ok; by exists ls).
    destruct Hx as (Hc & vt & Hlast & Hp).
    split; [by intros ->|]. exists tt. split; [done|]. exists vt. split; [done|].
    exists (expected :: top). split; [done|]. exists expected. split; [done|]. split; [by intros Hn|done].
Qed.

(** A list of levels with the widths of a tree: only the last has one node. *)
Definition tree_shaped (ls : list (list Hash32)) : Prop :=
  exists below r, ls = below ++ [[r]] /\ Forall (fun l => (1 < length l)%nat) below.

Lemma merkle_step {E} (l : list Hash32) dom :
  (1 < length l)%nat -> merkle (E := E) l dom = merkle (merkle_level dom l) dom.
Proof.
  intros Hl. pose proof (merkle_level_decreases dom l Hl) as Hd. unfold merkle.
  rewrite !merkle_loop_tree; [|by intros E0; rewrite E0 in Hd; simpl in Hd; lia|lia|by intros ->; simpl in Hl; lia|lia].
  rewrite (log2_up_half (length l)), merkle_level_length, tree_root_level by lia. done.
Qed.

Lemma tower_merkle {E} dom ls leaves r top :
  tower dom ls -> tree_shaped ls -> head ls = Some leaves -> last ls = Some (r :: top) ->
  merkle (E := E) leaves dom = Ok r.
Proof.
  intros Ht (below & r' & -> & Hb) Hh Hl. rewrite last_snoc in Hl. injection Hl as -> <-.
  revert leaves Ht Hh. induction Hb as [|l below Hlen _ IH]; intros leaves Ht Hh.
  - by injection Hh as <-.
  - injection Hh as <-. rewrite merkle_step by done.
    destruct below as [|l1 below]; cbn [app tower] in Ht; destruct Ht as [<- Ht]; by apply IH.
Qed.

(** C38: the Merkle check accepts exactly the lists of levels in which every level is the reducer's
    reduction of the one below and the top starts with the expected root; when the levels have
    the widths of a tree, that root is the reducer's Merkle root of the lowest level. *)
Theorem merkle_levels_exact v dom expected r :
  (verify_merkle_levels v dom expected = Ok r <->
   exists vs ls top, as_array v = Some vs /\ Forall2 parses vs ls /\ tower dom ls /\
     last ls = Some (r :: top) /\ r = expected) /\
  (forall vs ls leaves, verify_merkle_levels v dom expected = Ok r -> as_array v = Some vs ->
     Forall2 parses vs ls -> tree_shaped ls -> head ls = Some leaves ->
     merkle (E := ReducerError) leaves dom = Ok r).
Proof.
  split; [apply verify_levels_iff|]. intros vs ls leaves Hv Ha Hf Hs Hh.
  apply verify_levels_iff in Hv as (vs' & ls' & top & Ha' & Hf' & Ht & Hl & _). simplify_eq.
  assert (ls' = ls) as ->; [|by eapply tower_merkle].
  clear -Hf Hf'. revert ls' Hf'. induction Hf as [|v l vs ls Hp _ IH]; intros ls' Hf'; inversion Hf'; subst; [done|].
  unfold parses in *. f_equal; [congruence|by apply IH].
Qed.

(** The widths are not checked: any single level is accepted with its first hash as the root,
    however many nodes it has, so that a fixture whose levels stop early passes. *)
Lemma merkle_levels_truncated v vs dom r rest :
  as_array v = Some [vs] -> parse_hash_array vs = Ok (r :: rest) ->
  verify_merkle_levels v dom r = Ok r.
Proof.
  intros Ha Hp. apply verify_levels_iff. exists [vs], [r :: rest], rest.
  split_and!; [done|by repeat constructor|done..].
Qed.

(** ** Locked inputs *)

(** A path that stays below its root: it is relative and names only children. *)
Definition stays_below (p : list byte) : Prop :=
  head p <> Some SLASH /\ Forall (fun c => exists name, c = Normal name /\ name <> ascii "..") (components p).

Lemma component_normal part name : component_of part = Some (Normal name) -> name <> ascii "..".
Proof. unfold component_of. repeat case_decide; naive_solver. Qed.

Lemma components_names p name : Normal name ∈ components p -> name <> ascii "..".
Proof.
  unfold components. destruct (split_on SLASH p) as [|first rest]; [by intros ?%not_elem_of_nil|].
  rewrite elem_of_app, list_elem_of_omap. intros [Hf|(part & _ & Hp)]; [|by eapply component_normal].
  destruct (is_absolute p); [by apply list_elem_of_singleton in Hf|]. case_decide.
  { by apply list_elem_of_singleton in Hf. }
  destruct (component_of first) as [c|] eqn:Ec; [|by apply not_elem_of_nil in Hf].
  apply list_elem_of_singleton in Hf as <-. by eapply component_normal.
Qed.

Lemma safe_path_true p : safe_path p = true <-> stays_below p.
Proof.
  unfold safe_path, stays_below, is_absolute.
  rewrite andb_true_iff, negb_true_iff, bool_decide_eq_false, forallb_forall, Forall_forall.
  apply and_iff_compat_l. split.
  - intros Hn c Hc. pose proof (Hn c (proj1 (list_elem_of_In _ _) Hc)) as Hx. destruct c as [| | |name]; try done.
    exists name. split; [done|]. by eapply components_names.
  - intros Hn c Hc%list_elem_of_In. by destruct (Hn c Hc) as (name & -> & _).
Qed.

(** The file of an entry has the digest of the entry. *)
Definition input_matches (root : list byte) (e : list byte * Hash32) : Prop :=
  stays_below e.1 /\ exists content, fs_read (path_join root e.1) = Some content /\ sha256 content = e.2.

Lemma check_inputs_Ok root entries hashes hashes' :
  check_inputs root entries hashes = Ok hashes' <->
  Forall (input_matches root) entries /\ hashes' = foldl (fun m e => <[e.1 := e.2]> m) hashes entries.
Proof.
  revert hashes. induction entries as [|[relative h] entries IH]; intros hashes; cbn [check_inputs foldl].
  { split; [intros [= ->]; by split|]. by intros [_ ->]. }
  rewrite Forall_cons, fail_if_Ok, rbind_Ok. setoid_rewrite ok_or_Ok. setoid_rewrite fail_if_Ok.
  setoid_rewrite IH. unfold input_matches at 2. cbn [fst snd]. rewrite <- safe_path_true, <- not_false_iff_true.
  split.
  - intros (Hs & content & Hr & Hh%dec_stable & Hf & ->). rewrite Hh. eauto 10.
  - intros (((Hs & content & Hr & <-) & Hf) & ->). split; [done|]. exists content. split; [done|].
    split; [by intros Hn|done].
Qed.

(** A lock is verified exactly when it parses under its schema, is not empty, and every one of
    its entries names a file strictly below the root, never an absolute path or one with [..],
    whose content has the locked digest; the report repeats the lock, entry for entry. *)
Lemma verify_inputs_exact lock_path root report :
  verify_inputs lock_path root = Ok report <->
  exists bytes lock, fs_read lock_path = Some bytes /\ lock_from_slice bytes = Some lock /\
    il_schema lock = "urn:tandem:rust-protocol-input-lock"%string /\ il_inputs lock <> ∅ /\
    (forall relative h, il_inputs lock !! relative = Some h -> input_matches root (relative, h)) /\
    report = mkInputReport "urn:tandem:rust-input-verification-report"
               (Z.of_nat (size (il_inputs lock))) (il_inputs lock).
Proof.
  assert (Hall : forall lock, Forall (input_matches root) (bt_entries (il_inputs lock)) <->
    forall relative h, il_inputs lock !! relative = Some h -> input_matches root (relative, h)).
  { intros lock. rewrite Forall_forall. setoid_rewrite <- elem_of_bt_entries. split; [naive_solver|].
    intros Hm [k h]. apply Hm. }
  unfold verify_inputs. split.
  - intros (bytes & Hb%ok_or_Ok & (lock & Hl%ok_or_Ok & Hv)%rbind_Ok)%rbind_Ok.
    apply fail_if_Ok in Hv as [Hs%dec_stable Hv]. apply fail_if_Ok in Hv as [Hne Hv].
    apply rbind_Ok in Hv as (hashes & [Hm ->]%check_inputs_Ok & [= <-]).
    rewrite (foldl_insert_entries (il_inputs lock)) by done.
    exists bytes, lock. split_and!; [done..|by apply Hall|done].
  - intros (bytes & lock & Hb & Hl & Hs & Hne & Hm%Hall & ->). rewrite Hb. cbn [ok_or rbind]. rewrite Hl.
    cbn [ok_or rbind]. apply fail_if_Ok. split; [by intros Hn|]. apply fail_if_Ok. split; [done|].
    apply rbind_Ok. exists (il_inputs lock). split; [|done]. apply check_inputs_Ok.
    split; [done|]. by rewrite (foldl_insert_entries (il_inputs lock)).
Qed.

(** ** Vectors *)

Lemma for_all_Ok check vs u : for_all check vs = Ok u <-> Forall (fun v => check v = Ok tt) vs.
Proof.
  destruct u. induction vs as [|v vs IH]; cbn [for_all]; [by split|].
  rewrite Forall_cons, <- IH, rbind_Ok. split; [by intros ([] & ? & ?)|]. intros [? ?]. by exists tt.
Qed.

Lemma verify_identity_Ok fixture spec u :
  verify_identity fixture spec = Ok u ->
  exists init, as_str (get_key (get_key fixture "identity") "protocolId") =
      Some (protocol_id (mkBinding Regtest init spec)) /\
    parse_json_hash (get_key (get_key fixture "identity") "namespace") =
      Ok (namespace (mkBinding Regtest init spec)) /\
    exists create, parse_json_hash (get_key (get_key fixture "identity") "objectKey") =
      Ok (derive_object_key (namespace (mkBinding Regtest init spec)) create).
Proof.
  unfold verify_identity, need. intros Hv. res_inv.
  repeat match goal with Hd : ¬ (_ <> _) |- _ => apply dec_stable in Hd end. subst. eauto 8.
Qed.

(** A marker fixture is a script the reducer's parser accepts, with its operation and sizes. *)
Definition marker_agrees (marker : Value) : Prop :=
  exists script c m name op,
    json_hex "marker script" (get_key marker "scriptHex") = Ok script /\
    find_marker_candidate script 0 = Some c /\ parse c = Ok m /\
    as_str (get_key marker "operation") = Some name /\ opcode_named name = Some op /\
    pm_opcode m = Some op /\ len (pm_payload m) = payload_len op /\
    as_u64 (get_key marker "scriptBytes") = Some (len script) /\
    as_u64 (get_key marker "payloadBytes") = Some (payload_len op).

Lemma verify_marker_Ok marker u : verify_marker marker = Ok u -> marker_agrees marker.
Proof.
  unfold verify_marker, parse_marker, need. intros Hv. res_inv.
  repeat match goal with Hd : ¬ (_ <> _) |- _ => apply dec_stable in Hd end.
  match goal with Hp : match parse ?c with _ => _ end = Ok _ |- _ => destruct (parse c) eqn:Ep; try done end.
  simplify_eq. do 5 eexists. split_and!; try done; congruence.
Qed.

Lemma count_snapshots_bounds vs f a f' a' :
  count_snapshots vs f a = Ok (f', a') -> f <= f' <= f + 255 * len vs /\ a <= a' <= a + len vs.
Proof.
  revert f a. induction vs as [|v vs IH]; intros f a; cbn [count_snapshots].
  { intros [= -> ->]. unfold len. simpl. lia. }
  intros Hv. unfold json_hex, need in Hv. res_inv. apply IH in Hv. unfold len in *. cbn [length].
  match goal with Hv : context [bval ?b] |- _ => pose proof (bval_range b) end.
  case_decide; lia.
Qed.

Lemma verify_block_root_Ok fixture ert ort c :
  verify_block_root fixture ert ort = Ok c ->
  exists ns initial snapshots bh height founding active_count,
    parse_json_hash (get_key (get_key fixture "identity") "namespace") = Ok ns /\
    initial = sha256 (domain "TANDEM/STATE-EMPTY" ++ arr_bytes ns) /\
    as_array (get_key (get_key fixture "roots") "snapshots") = Some snapshots /\
    c = block_root ns initial bh height ert ort (mkCounters founding (len snapshots) active_count) /\
    0 <= founding <= 255 * len snapshots /\ 0 <= active_count <= len snapshots.
Proof.
  unfold verify_block_root, need. intros Hv. res_inv.
  match goal with q : (Z * Z)%type |- _ => destruct q as [nf na] end. res_inv.
  repeat match goal with Hd : ¬ (_ <> _) |- _ => apply dec_stable in Hd end.
  match goal with Hc : count_snapshots _ _ _ = Ok _ |- _ => apply count_snapshots_bounds in Hc end.
  do 7 eexists. split_and!; try eassumption; try done; lia.
Qed.

(** A verified fixture belongs to the reducer: its protocol id, namespace and object key are
    those of a regtest deployment of the given specification, every marker is one the parser
    accepts under the operation and sizes that the fixture says, and the chained root is the
    reducer's block root over the two verified roots, starting from the chained root of a new
    deployment; the counters that go into it fit their 64 bits. *)
Lemma vectors_sound manifest_path spec_path r :
  verify_vectors manifest_path spec_path = Ok r ->
  exists spec_bytes fixture init, fs_read spec_path = Some spec_bytes /\
    vr_spec_hash r = sha256 spec_bytes /\
    let b := mkBinding Regtest init (vr_spec_hash r) in
    as_str (get_key (get_key fixture "identity") "protocolId") = Some (protocol_id b) /\
    parse_json_hash (get_key (get_key fixture "identity") "namespace") = Ok (namespace b) /\
    (exists markers, as_array (get_key fixture "markers") = Some markers /\ Forall marker_agrees markers) /\
    (exists snapshots block_hash height founding active_count,
      as_array (get_key (get_key fixture "roots") "snapshots") = Some snapshots /\
      vr_chained_root r = block_root (namespace b) (chained_root (new_state b)) block_hash height
        (vr_event_root r) (vr_object_state_root r) (mkCounters founding (len snapshots) active_count) /\
      0 <= founding <= 255 * len snapshots /\ 0 <= active_count <= len snapshots).
Proof.
  unfold verify_vectors. intros Hv. res_inv.
  match goal with Hi : verify_identity ?f _ = Ok _ |- _ =>
    rename f into fixture; apply verify_identity_Ok in Hi as (init & Hid & Hns & _) end.
  match goal with Hm : verify_markers _ = Ok _ |- _ =>
    unfold verify_markers, need in Hm; apply rbind_Ok in Hm as (markers & Hma & Hmk); apply ok_or_Ok in Hma;
    apply rbind_Ok in Hmk as (u0 & Hms%for_all_Ok & _) end.
  match goal with Hb : verify_block_root _ _ _ = Ok _ |- _ =>
    apply verify_block_root_Ok in Hb as (ns & initial & snapshots & bh & h & f & ac & Hns' & -> & Hs & -> & Hf & Hac) end.
  rewrite Hns in Hns'. injection Hns' as <-.
  eexists _, fixture, init. split; [eassumption|]. split; [done|]. cbn [vr_spec_hash vr_chained_root].
  split; [done|]. split; [done|]. split.
  - exists markers. split; [done|]. eapply Forall_impl; [exact Hms|]. intros m. apply verify_marker_Ok.
  - by exists snapshots, bh, h, f, ac.
Qed.

(** ** Panics *)

Lemma slice_array_short (n a : nat) (l : list byte) : (length l < a + n)%nat -> slice_array n a l = Panic.
Proof. intros Hl. unfold slice_array, slice, get_range. by rewrite decide_False by lia. Qed.
End CliFacts.
