(* ===== verification/Tool.v ===== *)
(** * The commands of the tool (crates/tandem-cli/src/main.rs)

    [main] with its three subcommands, and when a run ends in a panic instead of an error: when the
    report cannot be printed; and of the commands themselves, checking inputs never does, replaying
    never does, and verifying vectors does exactly for a fixture whose pinned preimages are too
    short. *)

From Stdlib Require Import String.
From stdpp Require Import strings.
From S2P Require Import Prelude Types Marker Roots Reducer Validators Text Cli CliFacts Total.

(** [Command], with paths as bytes. *)
Inductive Command :=
| VerifyVectors (manifest spec : list byte)
| VerifyInputs (lock protocol_root : list byte)
| Replay (input : list byte).

Inductive Report :=
| VectorsVerified (r : VectorReport)
| InputsVerified (r : InputReport)
| Replayed (r : ReplayReport).

(** [serde_json::to_string_pretty] of a report. *)
Class ReportPrinter := to_string_pretty : Report -> option (list byte).

(** Whether the standard output takes a text: [println!] panics when it cannot be written, as into a
    closed pipe. *)
Class Stdout := stdout_accepts : list byte -> bool.

Section Tool.
Context {P : Primitives} `{!HexCodec, !JsonDocument, !Files, !ReportPrinter, !Stdout}.

(** The report of a command. *)
Definition run_command (command : Command) : res CliError Report :=
  match command with
  | VerifyVectors manifest spec => let? report := verify_vectors manifest spec in Ok (VectorsVerified report)
  | VerifyInputs lock protocol_root => let? report := verify_inputs lock protocol_root in Ok (InputsVerified report)
  | Replay input => let? report := replay input in Ok (Replayed report)
  end.

(** [println!]. *)
Definition println {E} (text : list byte) : res E (list byte) :=
  let line := text ++ [x0a] in if stdout_accepts line then Ok line else Panic.

(** [main]: what it prints. *)
Definition tandem_main (command : Command) : res CliError (list byte) :=
  let? report := run_command command in
  let? text := ok_or InvalidJson (to_string_pretty report) in
  println text.

(** The process's exit code; the release profile aborts on a panic, and the process, killed by a
    signal, has none. *)
Definition exit_code (r : res CliError (list byte)) : option Z :=
  match r with Ok _ => Some 0 | Err _ => Some 1 | Panic => None end.

(** ** Panics *)

(** The computation ends with a value or an error. *)
Definition graceful {E A} (r : res E A) : Prop := r <> Panic.

Lemma rbind_Panic {E A B} (m : res E A) (f : A -> res E B) :
  rbind m f = Panic <-> m = Panic \/ exists a, m = Ok a /\ f a = Panic.
Proof. destruct m; naive_solver. Qed.

Lemma fail_if_Panic {E A} (Q : Prop) `{Decision Q} (e : E) (m : res E A) :
  (fail_if Q with e; m) = Panic <-> ~ Q /\ m = Panic.
Proof. case_decide; naive_solver. Qed.

Lemma step_Panic {E A B} (m : res E A) (f : A -> res E B) :
  rbind m f = Panic -> graceful m -> exists a, m = Ok a /\ f a = Panic.
Proof. by intros [Hp|Hp]%rbind_Panic. Qed.
Lemma graceful_bind {E A B} (m : res E A) (f : A -> res E B) :
  graceful m -> (forall a, m = Ok a -> graceful (f a)) -> graceful (rbind m f).
Proof. intros Hm Hf [Hp|(a & Ha & Hp)]%rbind_Panic; [done|by eapply Hf]. Qed.
Lemma graceful_fail_if {E A} (Q : Prop) `{Decision Q} (e : E) (m : res E A) :
  (~ Q -> graceful m) -> graceful (fail_if Q with e; m).
Proof. intros Hm [Hq Hp]%fail_if_Panic. by apply Hm. Qed.
Lemma graceful_Ok {E A} (a : A) : graceful (E := E) (Ok a).
Proof. done. Qed.
Lemma graceful_ok_or {E A} (e : E) (o : option A) : graceful (ok_or e o).
Proof. by destruct o. Qed.
Lemma graceful_need {A} what (o : option A) : graceful (need what o).
Proof. by destruct o. Qed.
Lemma graceful_index {E A} (l : list A) i : (i < length l)%nat -> graceful (index (E := E) l i).
Proof. intros Hi. unfold index. by destruct (lookup_lt_is_Some_2 l i Hi) as [a ->]. Qed.

Create HintDb graceful.
#[local] Hint Resolve graceful_Ok graceful_ok_or graceful_need : graceful.

Ltac graceful_steps :=
  repeat first [ by auto with graceful
               | apply graceful_bind; [|intros ? ?]
               | apply graceful_fail_if; intros ?
               | match goal with |- graceful (match ?x with (_, _) => _ end) => destruct x end ].

Lemma check_inputs_graceful root entries hashes : graceful (check_inputs root entries hashes).
Proof.
  revert hashes. induction entries as [|[relative expected] rest IH]; intros hashes; [done|].
  cbn [check_inputs]. graceful_steps.
Qed.

Lemma verify_inputs_graceful lock root : graceful (verify_inputs lock root).
Proof. unfold verify_inputs. graceful_steps. apply check_inputs_graceful. Qed.

Lemma parse_json_hash_graceful v : graceful (parse_json_hash v).
Proof. unfold parse_json_hash. graceful_steps. Qed.
Lemma json_hex_graceful what v : graceful (json_hex what v).
Proof. unfold json_hex. graceful_steps. Qed.
#[local] Hint Resolve parse_json_hash_graceful json_hex_graceful : graceful.

Lemma parse_hash_array_graceful v : graceful (parse_hash_array v).
Proof.
  unfold parse_hash_array. graceful_steps. rename a into vs. clear. induction vs; cbn [parse_hashes]; graceful_steps.
Qed.
#[local] Hint Resolve parse_hash_array_graceful : graceful.

Lemma check_parents_graceful domain children parents : graceful (check_parents domain children parents).
Proof.
  revert parents.
  enough (forall n children parents, (length children <= n)%nat -> graceful (check_parents domain children parents))
    by eauto.
  clear children. induction n as [|n IH]; intros [|x [|y children]] [|parent parents] Hl; try done; cbn in *; [lia|].
  graceful_steps. apply IH. lia.
Qed.
#[local] Hint Resolve check_parents_graceful : graceful.

Lemma check_pair_graceful domain below above : graceful (check_pair domain below above).
Proof. unfold check_pair. graceful_steps. case_decide; graceful_steps. Qed.
#[local] Hint Resolve check_pair_graceful : graceful.

Lemma check_levels_graceful domain levels : graceful (check_levels domain levels).
Proof.
  induction levels as [|below levels IH]; [done|]. destruct levels as [|above rest]; [done|].
  cbn [check_levels]. by graceful_steps.
Qed.
#[local] Hint Resolve check_levels_graceful : graceful.

Lemma verify_merkle_levels_graceful v domain expected : graceful (verify_merkle_levels v domain expected).
Proof. unfold verify_merkle_levels. graceful_steps. Qed.

Lemma for_all_graceful check vs : (forall v, graceful (check v)) -> graceful (for_all check vs).
Proof. intros Hc. induction vs; cbn [for_all]; graceful_steps; auto. Qed.

Lemma verify_identity_graceful fixture spec : graceful (verify_identity fixture spec).
Proof.
  unfold verify_identity. graceful_steps.
  - apply graceful_index. lia.
  - apply graceful_index. lia.
Qed.

Lemma verify_marker_graceful marker : graceful (verify_marker marker).
Proof.
  unfold verify_marker. graceful_steps.
  - unfold parse_marker. match goal with Hc : ok_or _ (find_marker_candidate ?s 0) = Ok ?c |- _ =>
      apply ok_or_Ok in Hc; pose proof (parse_returns c s 0 Hc) end. by destruct (parse _).
Qed.

Lemma verify_markers_graceful fixture : graceful (verify_markers fixture).
Proof. unfold verify_markers. graceful_steps. apply for_all_graceful, verify_marker_graceful. Qed.

Lemma verify_carrier_graceful fixture : graceful (verify_carrier fixture).
Proof.
  unfold verify_carrier. graceful_steps.
Qed.

Lemma verify_preimage_leaves_graceful v : graceful (verify_preimage_leaves v).
Proof. unfold verify_preimage_leaves. graceful_steps. apply for_all_graceful. intros leaf. unfold verify_leaf. graceful_steps. Qed.

(** ** Preimages that are too short *)

Definition preimage_of (what : string) (leaf : Value) : res CliError (list byte) :=
  json_hex what (get_key leaf "preimageHex").

(** The loop over the snapshots reads two bytes behind the 20 of the domain. *)
Definition readable (snapshot : Value) : Prop :=
  exists preimage, preimage_of "snapshot preimage" snapshot = Ok preimage /\ (54 <= length preimage)%nat.
Definition cut_short (snapshot : Value) : Prop :=
  exists preimage, preimage_of "snapshot preimage" snapshot = Ok preimage /\ (length preimage < 54)%nat.

Lemma index_Panic {E A} (l : list A) i : index (E := E) l i = Panic <-> (length l <= i)%nat.
Proof. unfold index. rewrite <- lookup_ge_None. destruct (l !! i); cbn; naive_solver. Qed.

Lemma count_snapshots_Panic snapshots founding active :
  count_snapshots snapshots founding active = Panic <->
  exists before v after, snapshots = before ++ v :: after /\ Forall readable before /\ cut_short v.
Proof.
  assert (Ed : length (domain "TANDEM/OBJECT-STATE") = 20%nat) by reflexivity.
  revert founding active. induction snapshots as [|v rest IH]; intros founding active; cbn [count_snapshots].
  { split; [done|]. by intros ([] & ? & ? & ? & _). }
  unfold readable, cut_short, preimage_of in *. rewrite Ed.
  destruct (json_hex _ (get_key v "preimageHex")) as [preimage|e|] eqn:Ep; cbn [rbind].
  - destruct (decide (length preimage < 54)%nat) as [Hl|Hl].
    + split; [intros _; exists [], v, rest; eauto|intros _].
      unfold index. destruct (preimage !! (20 + 32)%nat) eqn:E1; [|done]. cbn [expect rbind].
      destruct (preimage !! (20 + 33)%nat) eqn:E2; [|done]. apply lookup_lt_Some in E2. lia.
    + unfold index. destruct (lookup_lt_is_Some_2 preimage (20 + 32)) as [b1 ->]; [lia|].
      destruct (lookup_lt_is_Some_2 preimage (20 + 33)) as [b2 ->]; [lia|]. cbn [expect rbind]. rewrite IH. split.
      * intros (before & u & after & -> & Hf & Hu). exists (v :: before), u, after. split_and!; [done| |done].
        constructor; [|done]. exists preimage. split; [done|lia].
      * intros ([|v' before] & u & after & E & Hf & Hu); injection E as <- ->.
        -- destruct Hu as (q & Eq & Hq). rewrite Ep in Eq. injection Eq as <-. lia.
        -- exists before, u, after. apply Forall_cons in Hf as [_ Hf]. done.
  - split; [done|]. intros ([|v' before] & u & after & E & Hf & Hu); injection E as <- ->.
    + destruct Hu as (q & Eq & _). congruence.
    + apply Forall_cons in Hf as [(q & Eq & _) _]. congruence.
  - by apply json_hex_graceful in Ep.
Qed.

(** Where [verify_block_root] stands when it slices: the namespace and the initial root agree, and
    the first event has a preimage. *)
Definition root_header (fixture : Value) (first : list byte) : Prop :=
  let roots := get_key fixture "roots" in
  (exists ns, parse_json_hash (get_key (get_key fixture "identity") "namespace") = Ok ns /\
     parse_json_hash (get_key roots "initialStateRoot") =
       Ok (sha256 (Types.domain "TANDEM/STATE-EMPTY" ++ arr_bytes ns))) /\
  preimage_of "event preimage" (get_index (get_key roots "events") 0) = Ok first.

(** The preimages the panic needs. *)
Definition short_preimages (fixture : Value) : Prop :=
  exists first, root_header fixture first /\
    ((length first < 85)%nat \/
     exists before v after, as_array (get_key (get_key fixture "roots") "snapshots") = Some (before ++ v :: after) /\
       Forall readable before /\ cut_short v).

Lemma slice_array_total (n a : nat) (l : list byte) :
  (a + n <= length l)%nat -> exists v, slice_array n a l = Ok v.
Proof.
  intros Hl. unfold slice_array, slice, get_range. rewrite decide_True by lia. cbn [expect rbind].
  destruct (arr_of_is_Some n (take (a + n - a) (drop a l))) as (v & -> & _); [|by exists v].
  rewrite length_take, length_drop. lia.
Qed.

Lemma count_result snapshots (first : list byte) (k : Z * Z -> res CliError Hash32) :
  (85 <= length first)%nat -> (forall counts, graceful (k counts)) ->
  (let? counts := count_snapshots snapshots 0 0 in k counts) = Panic <->
  (length first < 85)%nat \/
  exists before v after, Some snapshots = Some (before ++ v :: after) /\ Forall readable before /\ cut_short v.
Proof.
  intros Hl Hk. rewrite rbind_Panic, count_snapshots_Panic. split.
  - intros [(before & v & after & -> & Hf)|(counts & _ & Hp)]; [right; by exists before, v, after|by apply Hk in Hp].
  - intros [?|(before & v & after & [= ->] & Hf)]; [lia|left; by exists before, v, after].
Qed.

Lemma verify_block_root_Panic fixture event_rt object_rt :
  verify_block_root fixture event_rt object_rt = Panic <-> short_preimages fixture.
Proof.
  unfold verify_block_root, short_preimages, root_header, preimage_of.
  assert (E1 : length (Types.domain "TANDEM/EVENT") = 13%nat) by reflexivity. rewrite E1.
  set (roots := get_key fixture "roots").
  destruct (parse_json_hash (get_key (get_key fixture "identity") "namespace")) as [ns|e|] eqn:En;
    [|split; [done|]; by intros (? & [(? & [=] & _) _] & _)|by apply parse_json_hash_graceful in En].
  destruct (parse_json_hash (get_key roots "initialStateRoot")) as [initial|e|] eqn:Ei;
    [|split; [done|]; by intros (? & [(? & _ & [=]) _] & _)|by apply parse_json_hash_graceful in Ei].
  cbn [rbind]. rewrite fail_if_Panic.
  destruct (json_hex "event preimage" _) as [first|e|] eqn:Ef;
    [|split; [by intros [_ ?]|]; by intros (? & [_ [=]] & _)|by apply json_hex_graceful in Ef].
  cbn [rbind].
  match goal with |- _ /\ ?m = Panic <-> _ =>
    enough (Hm : m = Panic <-> (length first < 85)%nat \/
      exists before v after, as_array (get_key roots "snapshots") = Some (before ++ v :: after) /\
        Forall readable before /\ cut_short v) end.
  - rewrite Hm. split.
    + intros [Hi%dec_stable Hs]. exists first. split; [|done]. split; [|done]. exists ns. by rewrite Hi.
    + intros (f & [(ns' & [= <-] & [= ->]) [= <-]] & Hs). split; [by intros Hn|done].
  - destruct (decide (length first < 85)%nat) as [Hl|Hl].
    { split; [by left|intros _]. destruct (decide (length first < 77)%nat); [by rewrite slice_array_short by lia|].
      destruct (slice_array_total 32 (13 + 32) first) as [bh ->]; [lia|]. cbn [rbind].
      by rewrite slice_array_short by lia. }
    destruct (slice_array_total 32 (13 + 32) first) as [bh ->]; [lia|]. cbn [rbind].
    destruct (slice_array_total 8 (13 + 64) first) as [height ->]; [lia|]. cbn [rbind].
    destruct (as_array (get_key roots "snapshots")) as [snapshots|]; cbn [need ok_or rbind].
    + apply count_result; [lia|]. intros [founding active]. graceful_steps.
    + split; [done|]. intros [?|(? & ? & ? & ? & _)]; [lia|done].
Qed.

(** ** The commands *)

Lemma replay_blocks_graceful i blocks expected heights counts s :
  sound s -> Forall sized blocks -> graceful (replay_blocks i blocks expected heights counts s).
Proof.
  intros Hs Hl. revert i heights counts s Hs.
  induction Hl as [|block blocks Hb _ IH]; intros i heights counts s Hs; [done|]. cbn [replay_blocks].
  pose proof (apply_block_sound block s Hs) as Hs'. pose proof (apply_block_calm block s Hs Hb) as Hc.
  destruct (apply_block block s) as [s' [d|e|]]; [|done..]. cbn in Hs'.
  destruct (expected !! i); [case_decide; [done|]|]; by apply IH.
Qed.

Lemma verify_vectors_Panic manifest spec :
  verify_vectors manifest spec = Panic ->
  exists m bytes fixture, fs_read manifest ≫= manifest_from_slice = Some m /\ sha256 bytes = mf_fixture_sha256 m /\
    value_from_slice bytes = Some fixture /\ short_preimages fixture.
Proof.
  unfold verify_vectors.
  repeat lazymatch goal with
  | |- rbind (verify_block_root _ _ _) _ = Panic -> _ => fail
  | |- rbind _ _ = Panic -> _ =>
      intros Hk; apply step_Panic in Hk as (? & ? & Hk);
      [revert Hk; cbv beta zeta|solve [auto using verify_identity_graceful, verify_markers_graceful, verify_carrier_graceful,
        verify_preimage_leaves_graceful, verify_merkle_levels_graceful with graceful]]
  | |- (if decide _ then _ else _) = Panic -> _ => intros [? Hk]%fail_if_Panic; revert Hk
  end.
  intros [Hp%verify_block_root_Panic|(? & _ & [=])]%rbind_Panic.
  do 3 eexists. split_and!; [|by eapply dec_stable|by eapply ok_or_Ok|done].
  apply bind_Some. eexists. split; by eapply ok_or_Ok.
Qed.

(** C32: the tool dies of a panic for two reasons only.  One is a standard output that does not take
    the report of a command that succeeded.  The other is [verify_vectors] on
    a fixture that matches its manifest and has a first event or a snapshot whose preimage is too
    short to be sliced; for every such fixture the computation of the block root does panic.
    Replayed blocks are taken to fit in memory. *)
Theorem tool_panics_exact command :
  (forall path input, command = Replay path -> fs_read path ≫= replay_from_slice = Some input ->
     Forall sized (ri_blocks input)) ->
  exit_code (tandem_main command) = None ->
  (exists manifest spec m bytes fixture, command = VerifyVectors manifest spec /\
    fs_read manifest ≫= manifest_from_slice = Some m /\ sha256 bytes = mf_fixture_sha256 m /\
    value_from_slice bytes = Some fixture /\ short_preimages fixture /\
    forall event_rt object_rt, verify_block_root fixture event_rt object_rt = Panic) \/
  (exists report text, run_command command = Ok report /\ to_string_pretty report = Some text /\
    stdout_accepts (text ++ [x0a]) = false).
Proof.
  intros Hsized. unfold exit_code. destruct (tandem_main command) as [text|e|] eqn:Hm; [done..|]. intros _.
  unfold tandem_main in Hm. apply rbind_Panic in Hm as [Hm|(report & Hrun & Hm)].
  2: { right. apply step_Panic in Hm as (text & Ht%ok_or_Ok & Hp); [|apply graceful_ok_or].
       exists report, text. split_and!; [done..|]. unfold println in Hp. by destruct (stdout_accepts _). }
  left. destruct command as [manifest spec|lock root|input]; cbn [run_command] in Hm;
    apply rbind_Panic in Hm as [Hm|(report & _ & [=])].
  - apply verify_vectors_Panic in Hm as (m & bytes & fixture & ? & ? & ? & Hs).
    exists manifest, spec, m, bytes, fixture. split_and!; [done..|]. intros event_rt object_rt.
    by apply verify_block_root_Panic.
  - by apply verify_inputs_graceful in Hm.
  - unfold replay in Hm. apply step_Panic in Hm as (bytes & Hb%ok_or_Ok & Hm); [|apply graceful_ok_or].
    apply step_Panic in Hm as (ri & Hi%ok_or_Ok & Hm); [|apply graceful_ok_or].
    unfold replay_input in Hm.
    apply step_Panic in Hm as ([[heights counts] s] & _ & Hm); [by apply fail_if_Panic in Hm as [_ ?]|].
    apply replay_blocks_graceful; [apply sound_new|]. apply (Hsized input); [done|]. by rewrite Hb.
Qed.
End Tool.
