(* ===== verification/Concrete.v ===== *)
(** * A concrete instance and a concrete chain

    The theorems are about arbitrary hash functions and an arbitrary curve check.  This file
    gives one small executable instance of them, the real hexadecimal codec, and a chain of
    blocks that runs one object through its life: INIT, the lead time, CREATE, MARK, ROTATE,
    CLOSE, and a second object that is left to a noncanonical exit.  The witnesses are evaluated
    on it. *)

From Stdlib Require Import String Ascii.
From stdpp Require Import strings.
From S2P Require Import Prelude Types Marker Roots Reducer Validators Steps Invariant Chain Reach Lifecycle EventLog.

(** ** Hexadecimal text *)

Definition hex_digit (n : Z) : Ascii.ascii :=
  ascii_of_N (Z.to_N (if decide (n < 10) then 48 + n else 87 + n)).

(** Both cases are read, as the [hex] crate does. *)
Definition hex_value (c : Ascii.ascii) : option Z :=
  let n := Z.of_N (N_of_ascii c) in
  if decide (48 <= n <= 57) then Some (n - 48)
  else if decide (97 <= n <= 102) then Some (n - 87)
  else if decide (65 <= n <= 70) then Some (n - 55)
  else None.

Fixpoint hex_encode_bytes (l : list byte) : string :=
  match l with
  | [] => EmptyString
  | b :: l' => String (hex_digit (bval b / 16)) (String (hex_digit (bval b mod 16)) (hex_encode_bytes l'))
  end.

Fixpoint hex_decode_string (s : string) : option (list byte) :=
  match s with
  | EmptyString => Some []
  | String hi (String lo rest) =>
      h ← hex_value hi; l ← hex_value lo; r ← hex_decode_string rest;
      Some (byte_of_Z (16 * h + l) :: r)
  | _ => None
  end.

Lemma hex_byte_roundtrip b :
  hex_value (hex_digit (bval b / 16)) = Some (bval b / 16) /\
  hex_value (hex_digit (bval b mod 16)) = Some (bval b mod 16) /\
  byte_of_Z (16 * (bval b / 16) + bval b mod 16) = b.
Proof. destruct b; vm_compute; done. Qed.

Lemma hex_roundtrip l : hex_decode_string (hex_encode_bytes l) = Some l.
Proof.
  induction l as [|b l IH]; [done|]. cbn [hex_encode_bytes hex_decode_string].
  destruct (hex_byte_roundtrip b) as (-> & -> & Hb). cbn [mbind option_bind].
  rewrite IH. cbn [mbind option_bind]. by rewrite Hb.
Qed.

#[export] Instance real_hex : HexCodec := {|
  hex_encode := hex_encode_bytes;
  hex_decode := hex_decode_string;
  hex_decode_encode := hex_roundtrip;
|}.

(** ** Small executable primitives *)

Definition last_bytes (n : nat) (l : list byte) : list byte :=
  take n (reverse l ++ replicate n x00).

Lemma last_bytes_length n l : Nat.eqb (length (last_bytes n l)) n = true.
Proof.
  apply Nat.eqb_eq. unfold last_bytes. rewrite length_take, length_app, length_replicate. lia.
Qed.

(** Each digest keeps the end of its input; every 33-byte string passes for a point. *)
#[export] Instance small_primitives : Primitives := {|
  sha256_digest l := Arr (last_bytes 32 l) (last_bytes_length 32 l);
  hash160_hash l := Arr (last_bytes 20 l) (last_bytes_length 20 l);
  secp_parses l := Nat.eqb (length l) 33;
|}.

(** ** The deployment and its parties *)

Definition num_hash (z : Z) : Hash32 :=
  arr_reverse (Arr (to_le 32 z) (proj2 (Nat.eqb_eq _ _) (length_to_le 32 z))).

Lemma key_bytes_length (b : byte) : Nat.eqb (length (x02 :: replicate 32 b)) 33 = true.
Proof. reflexivity. Qed.

Definition demo_key (b : byte) : Key33 := Arr (x02 :: replicate 32 b) (key_bytes_length b).

Definition demo_binding : Binding := mkBinding Regtest (num_hash 1) (num_hash 77).
Definition demo_ns : Hash32 := namespace demo_binding.

Definition pairA : KeyPair := mkKeyPair (demo_key x11) (demo_key x22).
Definition pairB : KeyPair := mkKeyPair (demo_key x33) (demo_key x44).

Definition marker_payload (opcode : byte) (rest : list byte) : list byte :=
  MAGIC ++ [x01; network_code Regtest; opcode] ++ rest.

Definition wallet_input (txid : Z) (k : Key33) (seq amount : Z) : InputView :=
  mkInput (OutPoint (num_hash txid) 0) seq [] [[]; arr_bytes k] amount (p2wpkh_script k) (Some 50) true.

Definition carrier_input (op : OutPointRef) (kp : KeyPair) (seq height : Z) : InputView :=
  mkInput op seq [] [[]; []; []; witness_script kp] CARRIER_VALUE (carrier_script kp) (Some height) true.

Definition marker_output (payload : list byte) : OutputView := mkOutput 0 (marker_script payload).
Definition carrier_output (kp : KeyPair) : OutputView := mkOutput CARRIER_VALUE (carrier_script kp).
Definition pay (k : Key33) (amount : Z) : OutputView := mkOutput amount (p2wpkh_script k).

Definition demo_tx (txid : Z) (ins : list InputView) (outs : list OutputView) : TxView :=
  mkTx (num_hash txid) (num_hash txid) 2 0 ins outs.

Definition demo_block (h : Z) (txs : list TxView) : BlockView :=
  mkBlock (num_hash (1000000 + h)) (num_hash (1000000 + (h - 1))) h txs.

Definition init_tx : TxView :=
  demo_tx 1 [wallet_input 900 (demo_key x11) u32_max 5000]
    [marker_output (marker_payload x00
       (to_le 4 1108 ++ to_le 4 5428 ++ to_le 8 CARRIER_VALUE ++ to_le 4 REFUND_DELAY
        ++ arr_bytes (num_hash 77)));
     pay (demo_key x11) 4000].

Definition create_tx (txid : Z) (kp : KeyPair) : TxView :=
  demo_tx txid
    [wallet_input (txid + 900) (key0 kp) RBF_SEQUENCE 12501;
     wallet_input (txid + 1900) (key1 kp) RBF_SEQUENCE 12500]
    [marker_output (marker_payload x01 (x01 :: arr_bytes demo_ns));
     carrier_output kp; pay (key0 kp) 2000; pay (key1 kp) 2000].

Definition mark_tx : TxView :=
  demo_tx 20
    [carrier_input (OutPoint (num_hash 10) 1) pairA RBF_SEQUENCE 1108;
     wallet_input 920 (demo_key x11) RBF_SEQUENCE 3000]
    [marker_output (marker_payload x02 ((x01 :: arr_bytes demo_ns) ++ to_le 4 1 ++ [x05; x00]
       ++ arr_bytes (num_hash 42)));
     carrier_output pairA; pay (demo_key x11) 2500].

Definition rotate_tx : TxView :=
  demo_tx 30
    [carrier_input (OutPoint (num_hash 20) 1) pairA RBF_SEQUENCE 1109;
     wallet_input 930 (demo_key x33) RBF_SEQUENCE 2001;
     wallet_input 931 (demo_key x44) RBF_SEQUENCE 2000]
    [marker_output (marker_payload x03 ((x01 :: arr_bytes demo_ns) ++ to_le 4 2));
     carrier_output pairB; pay (demo_key x33) 1500; pay (demo_key x44) 1500].

Definition close_tx : TxView :=
  demo_tx 40
    [carrier_input (OutPoint (num_hash 30) 1) pairB RBF_SEQUENCE 1110]
    [marker_output (marker_payload x04 ((xff :: arr_bytes demo_ns) ++ to_le 4 3 ++ [x00; x00; x00; x00]
       ++ arr_bytes (num_hash 43)));
     pay (demo_key x33) 9000; pay (demo_key x44) 9000].

(** An unmarked spend of the second object's carrier, in the block after its creation. *)
Definition exit_tx : TxView :=
  demo_tx 60
    [carrier_input (OutPoint (num_hash 50) 1) pairA RBF_SEQUENCE 1109] [pay (demo_key x11) 19000].

Definition lead_blocks : list BlockView :=
  (fun i => demo_block (101 + Z.of_nat i) []) <$> seq 0 1007.

Definition lead_chain : list BlockView := demo_block 100 [init_tx] :: lead_blocks.

Definition life_blocks : list BlockView :=
  [demo_block 1108 [create_tx 10 pairA];
   demo_block 1109 [mark_tx; create_tx 50 pairA];
   demo_block 1110 [rotate_tx; exit_tx];
   demo_block 1111 [close_tx]].

(** ** Running a chain with its ledger *)

(** The promises of [tx_ok], as a test. *)
Definition tx_okb (ns : Hash32) (g : Ledger) (tx : TxView) : bool :=
  bool_decide (tx_txid tx ∉ seen g) &&
  forallb (fun i => match coins g !! prevout i with
                    | Some out => bool_decide (prevout_script i = script_pubkey out /\
                                               prevout_value i = value out)
                    | None => true
                    end) (inputs tx) &&
  bool_decide (set_Forall (fun t => derive_object_key ns t <> derive_object_key ns (tx_txid tx)) (seen g)) &&
  bool_decide (len (inputs tx) <= u32_max + 1).

Lemma tx_okb_ok ns g tx : tx_okb ns g tx = true -> tx_ok ns g tx.
Proof.
  unfold tx_okb. rewrite !andb_true_iff, !bool_decide_eq_true, forallb_forall.
  intros [[[Hf Hi] Hk] Hl]. split; [done| |by intros t Ht; apply Hk|done].
  intros i out Hin Hc. specialize (Hi i (proj1 (list_elem_of_In _ _) Hin)). rewrite Hc in Hi.
  by apply bool_decide_eq_true in Hi.
Qed.

Fixpoint txs_okb (ns : Hash32) (g : Ledger) (txs : list TxView) : bool :=
  match txs with
  | [] => true
  | tx :: rest => tx_okb ns g tx && txs_okb ns (ledger_tx tx g) rest
  end.

Lemma txs_okb_ok ns g txs : txs_okb ns g txs = true -> txs_ok ns g txs.
Proof.
  revert g. induction txs as [|tx txs IH]; intros g; simpl; [done|].
  rewrite andb_true_iff. intros [H1 H2]. split; [by apply tx_okb_ok|by apply IH].
Qed.

Fixpoint run_chain (b : Binding) (g : Ledger) (s : ChainState) (blocks : list BlockView) :
  option (Ledger * ChainState) :=
  match blocks with
  | [] => Some (g, s)
  | block :: rest =>
      if txs_okb (namespace b) g (transactions block) then
        match apply_block block s with
        | (s', Ok _) => run_chain b (ledger_txs (transactions block) g) s' rest
        | _ => None
        end
      else None
  end.

Lemma run_chain_continues b g s g' s' blocks :
  run_chain b g s blocks = Some (g', s') -> continues b g s g' s'.
Proof.
  assert (Hgen : forall g0 s0, continues b g s g0 s0 ->
    run_chain b g0 s0 blocks = Some (g', s') -> continues b g s g' s').
  { induction blocks as [|block rest IH]; intros g0 s0 Hc; simpl; [by intros [= <- <-]|].
    destruct (txs_okb _ _ _) eqn:Eo; [|done].
    destruct (apply_block block s0) as [s1 [d| |]] eqn:Ea; [|done..].
    apply IH. eapply cont_block; [done|by apply txs_okb_ok|done]. }
  apply Hgen. constructor.
Qed.

Lemma run_chain_reachable b g s blocks :
  run_chain b empty_ledger (new_state b) blocks = Some (g, s) -> reachable b g s.
Proof.
  intros Hr. eapply continues_reachable; [apply reach_new|]. by eapply run_chain_continues.
Qed.

(** The state and the ledger at the end of the lead time. *)
Definition is_Someb {A} (o : option A) : bool := match o with Some _ => true | None => false end.

Definition lead_result : option (Ledger * ChainState) :=
  Eval vm_compute in run_chain demo_binding empty_ledger (new_state demo_binding) lead_chain.

Definition lead_ledger : Ledger := match lead_result with Some (g, _) => g | None => empty_ledger end.
Definition lead_state : ChainState :=
  match lead_result with Some (_, s) => s | None => new_state demo_binding end.

Lemma lead_run :
  run_chain demo_binding empty_ledger (new_state demo_binding) lead_chain = Some (lead_ledger, lead_state).
Proof. vm_compute. reflexivity. Qed.

Lemma lead_reachable : reachable demo_binding lead_ledger lead_state.
Proof. eapply run_chain_reachable. exact lead_run. Qed.

(** The object's life up to its [n]-th block. *)
Definition demo_run (n : nat) : option (Ledger * ChainState) :=
  run_chain demo_binding lead_ledger lead_state (take n life_blocks).

Definition demo_state (n : nat) : ChainState :=
  match demo_run n with Some (_, s) => s | None => lead_state end.
Definition demo_ledger (n : nat) : Ledger :=
  match demo_run n with Some (g, _) => g | None => lead_ledger end.

Lemma demo_continues n : continues demo_binding lead_ledger lead_state (demo_ledger n) (demo_state n).
Proof.
  unfold demo_state, demo_ledger. destruct (demo_run n) as [[g s]|] eqn:E; [|constructor].
  by eapply run_chain_continues.
Qed.

Lemma demo_reachable n : reachable demo_binding (demo_ledger n) (demo_state n).
Proof. eapply continues_reachable; [apply lead_reachable|apply demo_continues]. Qed.

(** The whole life runs: the first object ends Closed with one chapter at sequence 3, the second
    exits, and nothing stays active. *)
Example demo_outcome :
  is_Someb (demo_run 4) = true /\
  (fun p => (status p.2, state_seq p.2, chapter_count p.2)) <$> bt_entries (objects (demo_state 4))
  = [(Closed, 3, 1); (ExitedNoncanonical, 0, 0)] /\
  bt_entries (active (demo_state 4)) = [].
Proof. vm_compute. done. Qed.
