(* ===== verification/UnitTests.v ===== *)
(** * The program's own unit tests, run on the model

    Every [#[test]] of the workspace, translated line by line: an [assert!] that fails and an
    [expect] on an error are panics, so a test passes when its definition is [Ok tt].  Tests that
    fix no digest are proved for all hash functions, files and crates; the two that walk a whole
    chain run on the stand-ins of [Concrete].  The property tests of tests/properties.rs become
    statements about all inputs. *)

From Stdlib Require Import String.
From stdpp Require Import strings.
From S2P Require Import Prelude Types Marker Roots Reducer Validators Steps Chain Serde SerdeFacts Total Config Signer Ingest Rpc Concrete.

(** ** Assertions *)

Definition must {S E A} (m : st S E A) : st S E A := fun s =>
  match m s with (s', Ok a) => (s', Ok a) | (s', _) => (s', Panic) end.

Definition must_fail {S E A} (m : st S E A) : st S E E := fun s =>
  match m s with (s', Err e) => (s', Ok e) | (s', _) => (s', Panic) end.

Definition must_res {E F A} (m : res E A) : res F A :=
  match m with Ok a => Ok a | _ => Panic end.

Definition must_fail_res {E F A} (m : res E A) : res F E :=
  match m with Err e => Ok e | _ => Panic end.

Definition assert_that {E} (Q : Prop) `{!Decision Q} : res E unit := if decide Q then Ok tt else Panic.

Definition assert_state {S E} (Q : S -> Prop) `{!forall s, Decision (Q s)} : st S E unit := fun s =>
  (s, assert_that (Q s)).

Definition verdict {S E A} (m : st S E A) (s : S) : res E A := snd (m s).

#[local] Instance ReducerError_eq_dec : EqDecision ReducerError.
Proof. solve_decision. Defined.

(** ** reducer.rs: fixtures *)

Section ReducerTests.
Context {P : Primitives} {X : HexCodec}.

Definition filled (b : byte) : Hash32 := arr_repeat 32 b.

Definition test_binding : Binding := mkBinding Regtest (filled x01) (filled x02).

Definition key_pair {E} : res E KeyPair :=
  let? k0 := expect (key_from_hex "0279be667ef9dcbbac55a06295ce870b07029bfcdb2dce28d959f2815b16f81798") in
  let? k1 := expect (key_from_hex "02c6047f9441ed7d6d3045406e95c07cd85c778e4b8cef3ca7abac09b95c709ee5") in
  expect (keypair_checked k0 k1).

Definition p2wpkh_input (key : Key33) (txid_byte : byte) (height amount seq : Z) : InputView :=
  mkInput (OutPoint (filled txid_byte) 0) seq [] [[x30; x01]; arr_bytes key] amount
    (p2wpkh_script key) (Some height) true.

Definition carrier_input (kp : KeyPair) (op : OutPointRef) (height seq : Z) : InputView :=
  mkInput op seq [] [[]; [x30; x01]; [x30; x01]; witness_script kp] CARRIER_VALUE
    (carrier_script kp) (Some height) true.

Lemma height_bytes_length (height : Z) : Nat.eqb (length (to_le 8 height ++ replicate 24 x00)) 32 = true.
Proof. by rewrite length_app, length_to_le, length_replicate. Qed.

Definition height_hash (height : Z) : Hash32 :=
  Arr (to_le 8 height ++ replicate 24 x00) (height_bytes_length height).

(** [txid_byte.wrapping_add(n)]. *)
Definition wrapping_add (b : byte) (n : Z) : byte := byte_of_Z (bval b + n).

Definition init_transaction (b : Binding) (key : Key33) : TxView :=
  let payload := MAGIC ++ [VERSION; network_code Regtest; x00]
    ++ to_le 4 1108 ++ to_le 4 5428 ++ to_le 8 CARRIER_VALUE ++ to_le 4 REFUND_DELAY
    ++ arr_bytes (spec_hash b) in
  mkTx (init_txid b) (filled x09) 2 0 [p2wpkh_input key x08 99 2000 u32_max]
    [mkOutput 0 (marker_script payload); mkOutput 1000 (p2wpkh_script key)].

Definition create_transaction (b : Binding) (kp : KeyPair) : TxView :=
  let payload := MAGIC ++ [VERSION; network_code Regtest; x01; x01] ++ arr_bytes (namespace b) in
  mkTx (filled x14) (filled x15) 2 0
    [p2wpkh_input (key0 kp) x0c 1000 20000 RBF_SEQUENCE; p2wpkh_input (key1 kp) x0d 1000 20000 RBF_SEQUENCE]
    [mkOutput 0 (marker_script payload); mkOutput CARRIER_VALUE (carrier_script kp);
     mkOutput 8485 (p2wpkh_script (key0 kp)); mkOutput 8485 (p2wpkh_script (key1 kp))].

Definition mark_transaction (b : Binding) (kp : KeyPair) (predecessor : OutPointRef)
    (predecessor_height : Z) (txid_byte : byte) (seq : Z) (commitment : Hash32) : TxView :=
  let payload := MAGIC ++ [VERSION; network_code Regtest; x02; x01] ++ arr_bytes (namespace b)
    ++ to_le 4 seq ++ [x00; x00] ++ arr_bytes commitment in
  mkTx (filled txid_byte) (filled (wrapping_add txid_byte 1)) 2 0
    [carrier_input kp predecessor predecessor_height RBF_SEQUENCE;
     p2wpkh_input (key0 kp) (wrapping_add txid_byte 20) 1000 5000 RBF_SEQUENCE]
    [mkOutput 0 (marker_script payload); mkOutput CARRIER_VALUE (carrier_script kp);
     mkOutput 4000 (p2wpkh_script (key0 kp))].

Definition close_transaction (b : Binding) (kp : KeyPair) (predecessor : OutPointRef) : TxView :=
  let payload := MAGIC ++ [VERSION; network_code Regtest; x04; xff] ++ arr_bytes (namespace b)
    ++ to_le 4 2 ++ [x00; x00; x00; x00] ++ replicate 32 x2c in
  mkTx (filled x28) (filled x29) 2 0 [carrier_input kp predecessor 1109 RBF_SEQUENCE]
    [mkOutput 0 (marker_script payload); mkOutput 9500 (p2wpkh_script (key0 kp));
     mkOutput 9500 (p2wpkh_script (key1 kp))].

(** ** reducer.rs: tests *)

Definition state_fails_closed_without_configured_init : res ReducerError unit :=
  verdict (do e <- must_fail (apply_block (mkBlock (filled x03) hash_zero 100 []));
           run st_lift (assert_that (e = ConfiguredInitAbsent));
           assert_state (fun s => protocol_status s = AwaitingInit))
    (new_state test_binding).

(** The state the second test starts from: an active deployment one block high. *)
Definition active_state : ChainState :=
  let s := new_state test_binding in
  mkState (binding s) (PActive 1 1009 5329) (Some 1) (Some (filled x04)) (chained_root s) (objects s) (active s).

Definition unknown_transactions_do_not_emit_events : res ReducerError unit :=
  verdict (do delta <- must (apply_block (mkBlock (filled x05) (filled x04) 2
                              [mkTx (filled x06) (filled x06) 2 0 [] [mkOutput 0 [x6a; x01; x00]]]));
           run st_lift (assert_that (bd_events delta = []));
           run must (disconnect_block delta);
           assert_state (fun s => tip_height s = Some 1))
    active_state.

(** The loop over the heights without transactions. *)
Fixpoint empty_heights (height : Z) (n : nat) : st ChainState ReducerError unit :=
  match n with
  | O => st_ret tt
  | S n' =>
      do delta <- must (apply_block (mkBlock (height_hash height) (height_hash (height - 1)) height []));
      run st_lift (assert_that (bd_events delta = []));
      empty_heights (height + 1) n'
  end.

(** [delta.events[0]]. *)
Definition first_event (delta : BlockDelta) : st ChainState ReducerError Event :=
  st_lift (index (bd_events delta) 0).

(** [state.objects.values().next().expect("object")]. *)
Definition first_object : st ChainState ReducerError ObjectState := fun s =>
  (s, index (bt_values (objects s)) 0).

Definition one_tx_block (height : Z) (tx : TxView) : BlockView :=
  mkBlock (height_hash height) (height_hash (height - 1)) height [tx].

Definition refund_transaction (kp : KeyPair) (marked : OutPointRef) : TxView :=
  mkTx (filled x32) (filled x33) 2 0 [carrier_input kp marked 1109 REFUND_DELAY]
    [mkOutput 9830 (p2wpkh_script (key0 kp)); mkOutput 9830 (p2wpkh_script (key1 kp))].

Definition full_lifecycle_reduces_terminates_and_reverses : res ReducerError unit :=
  let b := test_binding in
  verdict (
    do kp <- st_lift key_pair;
    do init_delta <- must (apply_block (one_tx_block 100 (init_transaction b (key0 kp))));
    do e <- first_event init_delta;
    run st_lift (assert_that (event_type e = EvInit));
    run empty_heights 101 1007;
    do create_delta <- must (apply_block (one_tx_block 1108 (create_transaction b kp)));
    do e <- first_event create_delta;
    run st_lift (assert_that (event_type e = EvCreate));
    run assert_state (fun s => founding_created (counters s) = 1);
    let created := OutPoint (filled x14) 1 in
    do mark_delta <- must (apply_block (one_tx_block 1109
                       (mark_transaction b kp created 1108 x1e 1 (filled x2a))));
    do e <- first_event mark_delta;
    run st_lift (assert_that (event_type e = EvMark));
    do object <- first_object;
    run st_lift (assert_that (state_seq object = 1));
    run st_lift (assert_that (chapter_count object = 1));
    let marked := current_outpoint object in
    let refund := refund_transaction kp marked in
    do _ok <- st_lift (must_res (validate_refund 53669 refund object));
    do early <- st_lift (must_fail_res (validate_refund 53668 refund object));
    run st_lift (assert_that (early = BadRefundShapeOrMaturity));
    do bad_delta <- must (apply_block (one_tx_block 1110
                      (mark_transaction b kp marked 1109 x20 2 hash_zero)));
    do e <- first_event bad_delta;
    run st_lift (assert_that (ev_reason e = BadCommitment));
    run st_lift (assert_that (validity_class e = TerminalNoncanonical));
    run must (disconnect_block bad_delta);
    do close_delta <- must (apply_block (one_tx_block 1110 (close_transaction b kp marked)));
    do e <- first_event close_delta;
    run st_lift (assert_that (event_type e = EvClose));
    run assert_state (fun s => active_objects (counters s) = 0);
    do object <- first_object;
    run st_lift (assert_that (status object = Closed));
    run must (disconnect_block close_delta);
    run must (disconnect_block mark_delta);
    run must (disconnect_block create_delta);
    run assert_state (fun s => objects s = ∅);
    assert_state (fun s => tip_height s = Some 1107))
  (new_state b).
End ReducerTests.

(** ** marker.rs *)

Section MarkerTests.
Context {X : HexCodec}.

Definition broad_candidate_keeps_truncated_payload : res Reason unit :=
  let? script := expect (hex_decode "6a4c4e544e444d0102") in
  let? candidate := expect (find_marker_candidate script 7) in
  let? _ := assert_that (payload_complete candidate = false) in
  let? _ := assert_that (mc_vout candidate = 7) in
  let? error := must_fail_res (parse candidate) in
  assert_that (error = BadMarkerEncodingOrLength).

Definition foreign_init_is_detected_before_strict_parse : res Reason unit :=
  let? script := expect (hex_decode "6a07544e444d010300") in
  let? candidate := expect (find_marker_candidate script 0) in
  let? _ := assert_that (is_init_candidate candidate = true) in
  let? error := must_fail_res (parse candidate) in
  assert_that (error = BadMarkerEncodingOrLength).
End MarkerTests.

(** The body of the property test of tests/properties.rs for one script. *)
Definition marker_detection_and_parse_never_panics (script : list byte) : res Reason unit :=
  match find_marker_candidate script 0 with
  | None => Ok tt
  | Some candidate =>
      match parse candidate with
      | Ok marker =>
          let? _ := assert_that (7 <= len (pm_payload marker) <= 80) in
          match pm_opcode marker with
          | Some opcode => assert_that (len (pm_payload marker) = payload_len opcode)
          | None => Ok tt
          end
      | Err _ => Ok tt
      | Panic => Panic
      end
  end.

(** ** roots.rs *)

Section RootsTests.
Context {P : Primitives}.

Definition one_leaf_is_not_rehashed : res ReducerError unit :=
  let? root := merkle [filled x07] (ascii "unused") in assert_that (root = filled x07).

Definition odd_leaf_is_duplicated : res ReducerError unit :=
  let? root := merkle [filled x01; filled x02; filled x03] (ascii "domain") in
  assert_that (root <> hash_zero).
End RootsTests.

(** ** config.rs *)

Section ConfigTests.
Context {P : Primitives} {X : HexCodec} {F : Platform}.

Definition rejects_crlf_spec : res ConfigError unit :=
  let? _ := must_fail_res (verify_spec_bytes (ascii "abc" ++ [CR; LF])) in Ok tt.

Definition accepts_exact_lf_contract : res ConfigError unit :=
  must_res (verify_spec_bytes (ascii "abc" ++ [LF])).

(** [text.repeat(n)]. *)
Fixpoint repeat_text (text : string) (n : nat) : string :=
  match n with O => EmptyString | S n' => (text ++ repeat_text text n')%string end.

Definition unused_args : Args := {|
  arg_network := "mainnet";
  arg_init_txid := repeat_text "01" 32;
  arg_spec_path := "unused";
  arg_spec_sha256 := repeat_text "02" 32;
  arg_database_url := "postgresql://unused";
  arg_bitcoin_rpc_url := "http://127.0.0.1:8332";
  arg_bitcoin_rpc_user := "unused";
  arg_bitcoin_rpc_password := "unused";
  arg_bind_addr := "127.0.0.1:8088";
  arg_signing_key_file := "unused";
  arg_signing_key_id := "unused";
  arg_parser_commit := repeat_text "a" 40;
  arg_indexer_commit := repeat_text "b" 40;
  arg_parser_binary_sha256 := repeat_text "c" 64;
  arg_indexer_binary_sha256 := repeat_text "d" 64;
  arg_poll_interval_ms := 5000;
  arg_zmq_rawblock_url := None;
  arg_allow_mainnet := false;
  arg_mainnet_authorization_file := None;
  arg_mainnet_authorization_sha256 := None;
|}.

(** The message with [TANDEM_ALLOW_MAINNET] in it is the one of [MainnetNotAllowed]. *)
Definition mainnet_gate_rejects_implicit_activation : res ConfigError unit :=
  match validate_mainnet_gate unused_args (mkBinding Mainnet (filled x01) (filled x02)) with
  | Err MainnetNotAllowed => Ok tt
  | _ => Panic
  end.
End ConfigTests.

(** ** signer.rs *)

Section SignerTests.
Context {X : HexCodec} {C : AgreementCrypto}.

Definition test_signer : AgreementSigner := mkSigner "test-key" (signing_key_from_bytes (filled x07)).

Definition test_tuple : AgreementTuple := {|
  at_schema := "urn:tandem:agreement-tuple";
  at_protocol_id := "tndm:regtest:aaaaaaaaaaaaaaaaaaaaaaaaaaaaaaaaaaaaaaaaaaaaaaaaaaaaaaaaaaaaaaaa";
  at_height := "1";
  at_block_hash := repeat_text "00" 32;
  at_event_root := repeat_text "01" 32;
  at_object_state_root := repeat_text "02" 32;
  at_chained_root := repeat_text "03" 32;
  at_founding_created := "0";
  at_all_objects := "0";
  at_active_objects := "0";
  at_parser_commit := repeat_text "a" 40;
  at_indexer_commit := repeat_text "b" 40;
  at_parser_binary_sha256 := repeat_text "c" 64;
  at_indexer_binary_sha256 := repeat_text "d" 64;
|}.

Definition jcs_signatures_are_stable_and_verifiable : res SignError unit :=
  let? first := must_res (sign test_signer test_tuple) in
  let? second := must_res (sign test_signer test_tuple) in
  let? _ := assert_that (ae_signature first = ae_signature second) in
  must_res (verify first (verifying_key (signing_key test_signer))).
End SignerTests.

(** ** rpc.rs *)

Section RpcTests.
Context {X : HexCodec} {B : BitcoinCrate}.

(** [to_string] is the crate's [Display] of a txid. *)
Definition display_and_wire_txid_round_trip (to_string : Txid -> string) : res RpcError unit :=
  let display := "0000000000000000000000000000000000000000000000000000000000000001"%string in
  let? wire := expect (wire_hash display) in
  let? txid := must_res (txid_from_wire wire) in
  let? _ := assert_that (to_string txid = display) in
  let? again := txid_wire txid in
  assert_that (again = wire).

Definition core_status_requires_synced_txindex : res RpcError unit :=
  assert_that (ready_for (mkCoreStatus "regtest" 10 10 false false) Regtest = false).
End RpcTests.

(** ** tests/state_json.rs and tests/properties.rs *)

Section StateJsonTests.
Context {P : Primitives} {X : HexCodec}.

Definition json_state : ChainState := new_state (mkBinding Signet (filled x11) (filled x22)).

Definition carrier_state : ChainState :=
  set_maps (objects json_state) (<[OutPoint (filled x33) 1 := filled x44]> (active json_state)) json_state.

Definition is_array (v : option JsonValue) : bool :=
  match v with Some (VArray _) => true | _ => false end.

(** [value[key]] and [value[key] = new] on an object that has the key. *)
Definition at_key (key : string) (v : JsonValue) : option JsonValue :=
  match v with VObject fields => assoc key fields | _ => None end.

Definition set_key (key : string) (new : JsonValue) (v : JsonValue) : JsonValue :=
  match v with
  | VObject fields =>
      VObject ((fun '(k, old) => (k, if String.eqb k key then new else old)) <$> fields)
  | other => other
  end.

Definition chain_state_with_active_carrier_round_trips_through_json : res ReducerError unit :=
  let v := encode serde_state carrier_state in
  let? _ := assert_that (is_array (at_key "active" v) = true) in
  let? restored := expect (decode serde_state v) in
  assert_that (restored = carrier_state).

Definition duplicate_active_outpoints_are_rejected : res ReducerError unit :=
  let pair := VArray [VObject [("txid"%string, VString (repeat_text "33" 32)); ("vout"%string, VNumber 1)];
                      VString (repeat_text "44" 32)] in
  let v := set_key "active" (VArray [pair; pair]) (encode serde_state json_state) in
  match decode serde_state v with None => Ok tt | Some _ => Panic end.

Definition object_keys_are_domain_separated (ns first second : Hash32) : res ReducerError unit :=
  if decide (first = second) then Ok tt
  else assert_that (derive_object_key ns first <> derive_object_key ns second).

Definition exact_payload_lengths_match_the_specification : res ReducerError unit :=
  let? _ := assert_that (payload_len OpInit = 59) in
  let? _ := assert_that (payload_len OpCreate = 40) in
  let? _ := assert_that (payload_len OpMark = 78) in
  let? _ := assert_that (payload_len OpRotate = 44) in
  assert_that (payload_len OpClose = 80).
End StateJsonTests.

(** ** They pass *)

(** The reducer fails closed and stays silent on foreign transactions whatever the digests are. *)
Lemma fails_closed_passes `{P : Primitives} : state_fails_closed_without_configured_init = Ok tt.
Proof. reflexivity. Qed.

Lemma unknown_passes `{P : Primitives} : unknown_transactions_do_not_emit_events = Ok tt.
Proof. vm_compute. reflexivity. Qed.

Lemma full_lifecycle_passes : full_lifecycle_reduces_terminates_and_reverses = Ok tt.
Proof. vm_compute. reflexivity. Qed.

Lemma marker_tests_pass :
  broad_candidate_keeps_truncated_payload = Ok tt /\ foreign_init_is_detected_before_strict_parse = Ok tt.
Proof. split; vm_compute; reflexivity. Qed.

(** A parsed payload has the declared length. *)
Lemma parsed_length script vout c m :
  find_marker_candidate script vout = Some c -> parse c = Ok m -> 7 <= len (pm_payload m) <= 80.
Proof.
  intros (_ & dlen & pl & mi & _ & _ & _ & _ & ->)%find_marker_candidate_Some
    (_ & Hd & _ & Ht & _ & (_ & Hpl & _) & _)%parse_Ok. simpl in *.
  apply bool_decide_eq_true in Ht. rewrite Hpl, Ht, Z.min_id, take_ge by (rewrite length_drop; lia).
  unfold len. rewrite length_drop. lia.
Qed.

(** The property test holds of every script, not only of the generated ones. *)
Lemma marker_property_passes script : marker_detection_and_parse_never_panics script = Ok tt.
Proof.
  unfold marker_detection_and_parse_never_panics.
  destruct (find_marker_candidate script 0) as [c|] eqn:Hc; [|done].
  destruct (parse c) as [m|r|] eqn:Hp; [|done|by apply (parse_no_panic script 0 c) in Hp].
  unfold assert_that. rewrite decide_True by (by eapply parsed_length). cbn [rbind].
  apply parse_Ok in Hp as (_ & _ & _ & _ & _ & (_ & Hpl & _) & Hlen).
  destruct (pm_opcode m) as [o|] eqn:Ho; [|done]. rewrite decide_True; [done|].
  rewrite Hpl. symmetry. by apply Hlen.
Qed.

Lemma roots_tests_pass `{P : Primitives} : one_leaf_is_not_rehashed = Ok tt.
Proof. vm_compute. reflexivity. Qed.

Lemma odd_leaf_passes : odd_leaf_is_duplicated = Ok tt.
Proof. vm_compute. reflexivity. Qed.

(** The three tests of the configuration hold on every platform: the gate closes before it reads. *)
Lemma config_tests_pass `{P : Primitives} `{X : HexCodec} `{F : Platform} :
  rejects_crlf_spec = Ok tt /\ accepts_exact_lf_contract = Ok tt /\
  mainnet_gate_rejects_implicit_activation = Ok tt.
Proof. repeat split; vm_compute; reflexivity. Qed.

(** Whatever the signature scheme, if the tuple has a canonical form. *)
Lemma signer_test_passes `{X : HexCodec} `{C : AgreementCrypto} :
  jcs_to_vec test_tuple <> None -> jcs_signatures_are_stable_and_verifiable = Ok tt.
Proof.
  intros Hj. unfold jcs_signatures_are_stable_and_verifiable.
  destruct (sign test_signer test_tuple) as [envelope|e|] eqn:Hs.
  - cbn [must_res rbind]. unfold assert_that. rewrite decide_True by done. cbn [rbind].
    by destruct (sign_verifies _ _ _ Hs) as (-> & _).
  - unfold sign, canonical_bytes in Hs. by destruct (jcs_to_vec test_tuple).
  - unfold sign, canonical_bytes in Hs. by destruct (jcs_to_vec test_tuple).
Qed.
Lemma status_test_passes : core_status_requires_synced_txindex = Ok tt.
Proof. reflexivity. Qed.

(** The crate's types enter the txid test by two documented facts: 32 bytes are a txid that
    serializes to them, and a txid is displayed as the reversed hexadecimal of its bytes. *)
Lemma txid_test_passes `{B : BitcoinCrate} (to_string : Txid -> string) :
  (forall h : Hash32, exists t, deserialize_txid (arr_bytes h) = Some t /\ serialize_txid t = arr_bytes h /\
                               to_string t = display_hash h) ->
  display_and_wire_txid_round_trip to_string = Ok tt.
Proof.
  intros Hcrate. unfold display_and_wire_txid_round_trip.
  set (display := "0000000000000000000000000000000000000000000000000000000000000001"%string).
  destruct (wire_hash display) as [h|] eqn:Hw; [|by vm_compute in Hw].
  assert (Hd : display_hash h = display) by (vm_compute in Hw; injection Hw as <-; vm_compute; done).
  clearbody display. cbn [expect rbind]. destruct (Hcrate h) as (t & Ht & Hs & Hdisplay).
  unfold txid_from_wire. rewrite Ht. cbn [ok_or must_res rbind]. unfold assert_that at 1.
  rewrite decide_True by congruence. cbn [rbind]. unfold txid_wire, fixed_hash. rewrite Hs, arr_of_bytes.
  cbn [expect rbind]. unfold assert_that. by rewrite decide_True.
Qed.

Lemma state_json_tests_pass :
  chain_state_with_active_carrier_round_trips_through_json = Ok tt /\
  duplicate_active_outpoints_are_rejected = Ok tt.
Proof. split; vm_compute; reflexivity. Qed.

(** The second property test is collision resistance of the digest, for two strings that differ. *)
Lemma object_key_property_passes `{P : Primitives} ns first second :
  object_keys_are_domain_separated ns first second = Ok tt \/
  exists x y, x <> y /\ sha256 x = sha256 y.
Proof.
  unfold object_keys_are_domain_separated, assert_that. case_decide as Hne; [by left|].
  case_decide as Hk; [by left|]. right. do 2 eexists. split; [|exact Hk]. intros E. apply Hne.
  apply app_inv_head, app_inv_head in E. apply arr_eq. by eapply app_inv_tail.
Qed.

Lemma payload_lengths_pass : exact_payload_lengths_match_the_specification = Ok tt.
Proof. reflexivity. Qed.
