(* ===== verification/Witnesses.v ===== *)
(** * Witnesses

    Each theorem with hypotheses is applied here to the concrete deployment and chain of
    [Concrete], so that its hypotheses are seen to hold together. *)

From Stdlib Require Import String.
From stdpp Require Import strings.
From S2P Require Import Prelude Types Marker Roots Reducer Validators Steps Invariant Chain Reach Lifecycle EventLog RootBinding Progress Concrete.

(** Settle a decidable proposition by evaluation. *)
Ltac by_decide := apply (bool_decide_unpack _); vm_compute; exact I.

(** ** Encodings *)

Definition demo_candidate : MarkerCandidate :=
  default (mkCandidate 0 0 [] false false false false)
    (find_marker_candidate (marker_script (marker_payload x03 [x01])) 0).

Lemma merkle_is_tree_witness :
  merkle (E := Reason) [num_hash 1; num_hash 2; num_hash 3] (domain "TANDEM/EVENT-NODE")
  = Ok (tree_root (domain "TANDEM/EVENT-NODE") (Nat.log2_up 3) [num_hash 1; num_hash 2; num_hash 3]).
Proof. apply (merkle_is_tree [num_hash 1; num_hash 2; num_hash 3]). discriminate. Defined.

(** ** Validation *)

Definition parsed_marker (p : list byte) : ParsedMarker :=
  match parse (default demo_candidate (find_marker_candidate (marker_script p) 0)) with
  | Ok m => m
  | _ => mkMarker 0 x00 x00 x00 None []
  end.

Definition demo_marker_candidate : MarkerCandidate :=
  default demo_candidate (head (marker_candidates mark_tx demo_binding)).

Lemma validators_never_panic_witness :
  (let? m := parse demo_marker_candidate in validate_single lead_state 1108 mark_tx m None) <> Panic /\
  validate_configured_init demo_binding 1108 mark_tx <> Panic /\
  validate_refund 1108 mark_tx (created_object hash_zero mark_tx 0 0 0 pairA) <> Panic.
Proof.
  apply (validators_never_panic demo_binding lead_state 1108 mark_tx demo_marker_candidate).
  vm_compute. constructor.
Defined.

(** ** Chains *)

Definition block_at (h : Z) : BlockView := default (demo_block h []) (life_blocks !! Z.to_nat (h - 1108)).

(** The outcome of one block, as a test. *)
Definition ok_delta (r : ChainState * res ReducerError BlockDelta) : option (ChainState * BlockDelta) :=
  match r with (s, Ok d) => Some (s, d) | _ => None end.

Definition next_state (s : ChainState) (block : BlockView) : ChainState := fst (apply_block block s).
Definition next_delta (s : ChainState) (block : BlockView) : BlockDelta :=
  match apply_block block s with
  | (_, Ok d) => d
  | _ => delta_of s block s [] hash_zero hash_zero
  end.

Lemma next_ok s block :
  is_Someb (ok_delta (apply_block block s)) = true ->
  apply_block block s = (next_state s block, Ok (next_delta s block)).
Proof.
  unfold next_state, next_delta. by destruct (apply_block block s) as [s' [d| |]].
Qed.

Definition keyA : Hash32 := derive_object_key demo_ns (num_hash 10).
Definition carrierA : OutPointRef := OutPoint (num_hash 10) 1.
Definition objectA : ObjectState := created_object keyA (create_tx 10 pairA) 1108 1108 5428 pairA.

Lemma apply_block_error_example :
  apply_block (demo_block 1110 []) lead_state = (lead_state, Err (NonconsecutiveHeight 1108 1110)).
Proof. reflexivity. Qed.

Lemma reachable_index_witness :
  (forall op k, active (demo_state 2) !! op = Some k <->
     exists o, objects (demo_state 2) !! k = Some o /\ status o = Active /\ current_outpoint o = op) /\
  (forall k o, objects (demo_state 2) !! k = Some o ->
     object_key o = k /\ object_ok (protocol_status (demo_state 2)) (namespace demo_binding) o).
Proof. apply (reachable_index demo_binding (demo_ledger 2) (demo_state 2)), demo_reachable. Defined.

(** The first MARK of the object, in the block after its creation. *)
Definition mark_marker : ParsedMarker :=
  parsed_marker (marker_payload x02 ((x01 :: arr_bytes demo_ns) ++ to_le 4 1 ++ [x05; x00] ++ arr_bytes (num_hash 42))).

Definition accepted_operation (r : res Reason ValidatedOperation) : option ValidatedOperation :=
  match r with Ok op => Some op | _ => None end.

Definition mark_operation : ValidatedOperation :=
  default (VCreate pairA)
    (accepted_operation (validate_single (demo_state 1) 1109 mark_tx mark_marker (head (carrier_spends (demo_state 1) mark_tx)))).

Lemma operations_pay_witness :
  0 < fee_of mark_tx /\ (exists o seq c, mark_operation = VMark o seq c) /\ money_rule mark_tx mark_operation.
Proof.
  destruct (operations_pay (demo_ledger 1) (demo_state 1) 1109 mark_tx) as [Hpay _].
  - exact (proj1 (reachable_state_inv _ _ _ (demo_reachable 1))).
  - apply tx_okb_ok. vm_compute. reflexivity.
  - assert (Hs : is_Someb (accepted_operation (validate_single (demo_state 1) 1109 mark_tx mark_marker
                   (head (carrier_spends (demo_state 1) mark_tx)))) = true) by (vm_compute; reflexivity).
    destruct (Hpay mark_marker mark_operation) as [Hf Hm].
    + unfold mark_operation. by destruct (validate_single _ _ _ _ _).
    + split; [exact Hf|]. split; [|exact Hm]. do 3 eexists. vm_compute. reflexivity.
Defined.

Lemma reachable_backed_witness :
  coins (demo_ledger 1) !! carrierA = Some (mkOutput CARRIER_VALUE (carrier_script pairA)).
Proof.
  apply (reachable_backed demo_binding (demo_ledger 1) (demo_state 1) carrierA keyA objectA).
  - apply demo_reachable.
  - by_decide.
  - by_decide.
Defined.

(** The next two blocks are applied; the second one alone is not. *)
Lemma chain_progress_witness :
  (exists s' ds, connect_all [block_at 1109; block_at 1110] (demo_state 1) = (s', Ok ds) /\
    tip_of s' = Some (name_of (block_at 1110))) /\
  ~ processable (demo_state 1) [block_at 1110].
Proof.
  assert (Hok : blocks_ok (namespace demo_binding) (demo_ledger 1) [block_at 1109; block_at 1110]).
  { split; [|split; [|exact I]]; apply txs_okb_ok; vm_compute; reflexivity. }
  assert (Et : tip_of (demo_state 1) = Some (name_of (block_at 1108))) by by_decide.
  split.
  - destruct (chain_progress demo_binding (demo_ledger 1) (demo_state 1) [block_at 1109; block_at 1110]) as [[Hp _] Hc];
      [apply demo_reachable|exact Hok|].
    destruct Hp as (s' & ds & Hds); [split|].
    + rewrite Et. split; [|split; [|exact I]]; (split; [by_decide|split; by_decide]).
    + repeat constructor; vm_compute; discriminate.
    + intros E. vm_compute in E. discriminate E.
    + exists s', ds. split; [exact Hds|]. by destruct (Hc _ _ Hds) as (_ & -> & _).
  - intros [Hl _ _]. rewrite Et in Hl. destruct Hl as [[Hh _] _]. vm_compute in Hh. discriminate Hh.
Defined.

Lemma apply_block_lives_witness :
  rtc life (objects (demo_state 1) !! keyA)
    (objects (next_state (demo_state 1) (block_at 1109)) !! keyA).
Proof.
  apply (apply_block_lives demo_binding (demo_ledger 1) (demo_state 1) (block_at 1109) _
           (next_delta (demo_state 1) (block_at 1109))).
  - apply demo_reachable.
  - apply txs_okb_ok. vm_compute. reflexivity.
  - apply next_ok. vm_compute. reflexivity.
Defined.

Lemma objects_evolve_witness :
  exists o', objects (demo_state 1) !! keyA = Some o' /\ same_identity objectA o' /\
    state_seq objectA <= state_seq o' /\ chapter_count objectA <= chapter_count o' /\
    (status objectA <> Active -> o' = objectA).
Proof.
  apply (objects_evolve demo_binding (demo_ledger 1) (demo_state 1) (demo_ledger 1)).
  - apply demo_reachable.
  - apply cont_here.
  - by_decide.
Defined.

Definition chain_state (blocks : list BlockView) (s : ChainState) : ChainState :=
  fst (connect_all blocks s).
Definition chain_journal (blocks : list BlockView) (s : ChainState) : list BlockDelta :=
  match snd (connect_all blocks s) with Ok ds => ds | _ => [] end.
Definition chain_runs (blocks : list BlockView) (s : ChainState) : bool :=
  match snd (connect_all blocks s) with Ok _ => true | _ => false end.

Lemma chain_ok blocks s :
  chain_runs blocks s = true ->
  connect_all blocks s = (chain_state blocks s, Ok (chain_journal blocks s)).
Proof.
  unfold chain_runs, chain_state, chain_journal. by destruct (connect_all blocks s) as [s' [ds| |]].
Qed.

Lemma disconnect_inverts_connect_witness :
  disconnect_all (reverse (chain_journal life_blocks lead_state)) (chain_state life_blocks lead_state)
  = (lead_state, Ok tt).
Proof.
  apply (disconnect_inverts_connect life_blocks). apply chain_ok. vm_compute. reflexivity.
Defined.

Lemma events_reconstruct_witness :
  objects (next_state (demo_state 1) (block_at 1109)) =
  replay (protocol_status (next_state (demo_state 1) (block_at 1109))) (objects (demo_state 1))
    (bd_events (next_delta (demo_state 1) (block_at 1109))).
Proof.
  apply (events_reconstruct demo_binding (demo_ledger 1) _ (block_at 1109)).
  - apply demo_reachable.
  - apply txs_okb_ok. vm_compute. reflexivity.
  - apply next_ok. vm_compute. reflexivity.
Defined.

Lemma events_ordered_witness :
  let d := next_delta (demo_state 2) (block_at 1110) in
  StronglySorted (key_lt event_key) (bd_events d) /\
  sort_by_key event_key (bd_events d) = bd_events d /\
  Forall (event_ok (block_at 1110)) (bd_events d).
Proof.
  apply (events_ordered demo_binding (demo_ledger 2) (demo_state 2) (block_at 1110)
           (next_state (demo_state 2) (block_at 1110))).
  - apply demo_reachable.
  - apply txs_okb_ok. vm_compute. reflexivity.
  - vm_compute. split; discriminate.
  - apply next_ok. vm_compute. reflexivity.
Defined.

(** ** Roots *)

Definition collision_freeb (xs : list (list byte)) : bool :=
  forallb (fun x => forallb (fun y => implb (bool_decide (sha256 x = sha256 y)) (bool_decide (x = y))) xs) xs.

Lemma collision_freeb_ok xs : collision_freeb xs = true -> collision_free xs.
Proof.
  unfold collision_freeb. rewrite forallb_forall. intros H x y Hx Hy E.
  apply list_elem_of_In in Hx, Hy. specialize (H x Hx). rewrite forallb_forall in H. specialize (H y Hy).
  rewrite (bool_decide_eq_true_2 _ E) in H. by apply bool_decide_eq_true in H.
Qed.

(** Two events of one transaction with different commitments. *)
Definition demo_event (sub : Z) : Event :=
  mkEvent demo_ns hash_zero 1110 0 0 sub EvMark ValidOperation Valid (num_hash 20) (num_hash 20)
    keyA 1 carrierA (OutPoint (num_hash 20) 1) (demo_key x11) (demo_key x22) (num_hash (42 + sub)).

Lemma demo_event_wf sub : 0 <= sub <= 9 -> event_wf (demo_event sub).
Proof.
  intros H. split; unfold is_u64, is_u32, u64_max, u32_max; simpl; lia.
Qed.

Lemma demo_events_sorted : StronglySorted (key_lt event_key) [demo_event 0; demo_event 1].
Proof. repeat constructor. Qed.

(** Two live objects. *)
Definition demo_objects : gmap Hash32 ObjectState :=
  list_to_map [(num_hash 5, mkObject (num_hash 5) carrierA true Active 1108 3 carrierA pairA hash_zero 2);
               (num_hash 6, mkObject (num_hash 6) carrierA false Active 9999 1 carrierA pairB hash_zero 1)].

Lemma demo_objects_fit : objects_fit demo_objects.
Proof.
  intros k o Hk. unfold demo_objects in Hk. apply elem_of_list_to_map_2 in Hk.
  apply elem_of_cons in Hk as [[= -> ->]|Hk]; [|apply list_elem_of_singleton in Hk as [= -> ->]].
  all: split; [done|]; split; unfold is_u64, is_u32, u64_max, u32_max; simpl; lia.
Qed.

Lemma object_root_binding_witness : committed <$> demo_objects = committed <$> demo_objects.
Proof.
  apply (object_root_binding demo_ns); [apply demo_objects_fit..| |reflexivity].
  apply collision_freeb_ok. vm_compute. reflexivity.
Defined.

(** The history of the INIT block. *)
Definition init_block : BlockView := demo_block 100 [init_tx].
Definition init_delta : BlockDelta := next_delta (new_state demo_binding) init_block.

Lemma demo_history :
  history demo_binding (ledger_txs [init_tx] empty_ledger)
    (next_state (new_state demo_binding) init_block) [init_delta].
Proof.
  apply (hist_block _ empty_ledger (new_state demo_binding) [] init_block); [constructor|..].
  - apply txs_okb_ok. vm_compute. reflexivity.
  - vm_compute. split; discriminate.
  - apply next_ok. vm_compute. reflexivity.
Qed.

Lemma chained_root_agreement_witness : Forall2 same_block [init_delta] [init_delta].
Proof.
  apply (chained_root_agreement demo_binding _ _ _ _ _ _ demo_history demo_history); [| |reflexivity].
  - repeat (apply Forall_cons; split; [|]); [| |constructor];
      (split; vm_compute; split; discriminate).
  - apply collision_freeb_ok. vm_compute. reflexivity.
Defined.
