(* ===== verification/StoreWitnesses.v ===== *)
(** * Witnesses for the service

    A concrete JSON carrier, a database built by the store itself from the demonstration chain,
    and a node that serves a fork of it: the theorems about the store and the worker applied to
    them. *)

From Stdlib Require Import String.
From stdpp Require Import strings.
From S2P Require Import Prelude Types Marker Roots Reducer Validators Steps Invariant Chain Reach EventLog Store StoreInv Commit Queries Ingest IngestInv Converge Concrete Witnesses.

(** ** A carrier for the stored values *)

Inductive StoredValue :=
| SBinding (b : Binding)
| SState (s : ChainState)
| SDelta (d : BlockDelta)
| SEvent (e : Event)
| SObject (o : ObjectState)
| STx (t : TxView)
| SStatus (p : ProtocolStatus).

#[export] Instance json_binding : Json StoredValue Binding :=
  {| to_value := SBinding; from_value v := match v with SBinding b => Some b | _ => None end;
     from_to_value _ := eq_refl |}.
#[export] Instance json_state : Json StoredValue ChainState :=
  {| to_value := SState; from_value v := match v with SState s => Some s | _ => None end;
     from_to_value _ := eq_refl |}.
#[export] Instance json_delta : Json StoredValue BlockDelta :=
  {| to_value := SDelta; from_value v := match v with SDelta d => Some d | _ => None end;
     from_to_value _ := eq_refl |}.
#[export] Instance json_event : Json StoredValue Event :=
  {| to_value := SEvent; from_value v := match v with SEvent e => Some e | _ => None end;
     from_to_value _ := eq_refl |}.
#[export] Instance json_object : Json StoredValue ObjectState :=
  {| to_value := SObject; from_value v := match v with SObject o => Some o | _ => None end;
     from_to_value _ := eq_refl |}.
#[export] Instance json_tx : Json StoredValue TxView :=
  {| to_value := STx; from_value v := match v with STx t => Some t | _ => None end;
     from_to_value _ := eq_refl |}.

#[export] Instance json_status : Json StoredValue ProtocolStatus :=
  {| to_value := SStatus; from_value v := match v with SStatus p => Some p | _ => None end;
     from_to_value _ := eq_refl |}.

Definition demo_release : ReleaseIdentity :=
  mkRelease "00112233445566778899aabbccddeeff00112233" "ffeeddccbbaa99887766554433221100ffeeddcc"
    (num_hash 7) (num_hash 8).

Example demo_release_ok : release_ok demo_release = true.
Proof. reflexivity. Qed.

(** ** A database for every canonical chain *)

Lemma canonical_db b g chain s :
  canonical b g chain s -> NoDup (blk_hash <$> chain) ->
  exists db : Db StoredValue, db_ok b chain db s.
Proof.
  induction 1 as [|g chain s block s' d Hc IH Hok Ha Hh]; intros Hnd.
  { destruct (bind_fresh (JV := StoredValue) b) as (db & _ & Hdb). by exists db. }
  apply NoDup_cons in Hnd as [Hn Hnd]. destruct (IH Hnd) as [db Hdb].
  destruct (commit_accepts b g chain db s block s' d demo_release) as (db' & _ & Hdb');
    [done|by eapply canonical_reachable|done..| |by exists db'].
  intros h row Hr E. apply (journal_hashes b chain _ _ s (dk_journal _ _ _ _ Hdb)) in Hr as (x & Hx & E').
  apply Hn. rewrite <- E, E'. by apply list_elem_of_fmap_2.
Qed.

Definition height_okb (block : BlockView) : bool := bool_decide (0 <= blk_height block <= i64_max).

Lemma run_chain_canonical b g s g' s' blocks chain :
  canonical b g chain s -> run_chain b g s blocks = Some (g', s') -> forallb height_okb blocks = true ->
  canonical b g' (reverse blocks ++ chain) s'.
Proof.
  revert g s chain. induction blocks as [|block rest IH]; intros g s chain Hc; [by intros [= <- <-]|].
  cbn [run_chain forallb]. destruct (txs_okb _ _ _) eqn:Eo; [|done].
  destruct (apply_block block s) as [s1 [d| |]] eqn:Ea; [|done..]. intros Hr [Hh Hf]%andb_true_iff.
  rewrite reverse_cons, <- (assoc_L (++)). apply (IH (ledger_txs (transactions block) g) s1); [|done|done].
  eapply canonical_block; [done|by apply txs_okb_ok|done|]. by apply bool_decide_eq_true in Hh.
Qed.

(** The lead chain and its hashes. *)
Lemma lead_canonical : canonical demo_binding lead_ledger (reverse lead_chain) lead_state.
Proof.
  rewrite <- (app_nil_r (reverse lead_chain)). eapply run_chain_canonical; [constructor|exact lead_run|].
  vm_compute. reflexivity.
Qed.

(** ** Short chains *)

Definition b101 : BlockView := demo_block 101 [].
Definition b102 : BlockView := demo_block 102 [].
Definition fork101 : BlockView := mkBlock (num_hash 5000101) (blk_hash init_block) 101 [].

Definition chain_result (blocks : list BlockView) : option (Ledger * ChainState) :=
  run_chain demo_binding empty_ledger (new_state demo_binding) blocks.
Definition chain_end (blocks : list BlockView) : ChainState :=
  match chain_result blocks with Some (_, s) => s | None => new_state demo_binding end.
Definition chain_ledger (blocks : list BlockView) : Ledger :=
  match chain_result blocks with Some (g, _) => g | None => empty_ledger end.

Lemma short_canonical blocks :
  is_Someb (chain_result blocks) = true -> forallb height_okb blocks = true ->
  canonical demo_binding (chain_ledger blocks) (reverse blocks) (chain_end blocks).
Proof.
  unfold chain_ledger, chain_end, chain_result. intros Hr Hh.
  destruct (run_chain _ _ _ blocks) as [[g s]|] eqn:E; [|done].
  rewrite <- (app_nil_r (reverse blocks)). eapply run_chain_canonical; [constructor|done|done].
Qed.

Definition hash_number (h : Hash32) : Z := of_le (drop 28 (arr_bytes h)).

Lemma hashes_NoDup (blocks : list BlockView) :
  bool_decide (NoDup (hash_number ∘ blk_hash <$> blocks)) = true -> NoDup (blk_hash <$> blocks).
Proof.
  intros H%bool_decide_eq_true. apply (NoDup_fmap_1 hash_number). by rewrite <- list_fmap_compose.
Qed.

Lemma short_db blocks :
  is_Someb (chain_result blocks) = true -> forallb height_okb blocks = true ->
  bool_decide (NoDup (hash_number ∘ blk_hash <$> reverse blocks)) = true ->
  exists db : Db StoredValue, db_ok demo_binding (reverse blocks) db (chain_end blocks).
Proof.
  intros Hr Hh Hn. eapply canonical_db; [by apply short_canonical|by apply hashes_NoDup].
Qed.

Definition post101 : ChainState := next_state (chain_end [init_block]) b101.
Definition delta101 : BlockDelta := next_delta (chain_end [init_block]) b101.

Lemma apply101 : apply_block b101 (chain_end [init_block]) = (post101, Ok delta101).
Proof. apply next_ok. vm_compute. reflexivity. Qed.

Lemma init_db : exists db : Db StoredValue, db_ok demo_binding [init_block] db (chain_end [init_block]).
Proof. apply (short_db [init_block]); vm_compute; reflexivity. Qed.

Lemma init_fresh (db : Db StoredValue) :
  db_ok demo_binding [init_block] db (chain_end [init_block]) ->
  map_Forall (fun _ row => br_block_hash row <> blk_hash b101) (blocks_t db).
Proof.
  intros Hdb h row Hr E. apply (journal_hashes demo_binding [init_block] _ _ _ (dk_journal _ _ _ _ Hdb)) in Hr
    as (x & Hx & E'). apply list_elem_of_singleton in Hx as ->.
  assert (Hne : blk_hash init_block <> blk_hash b101) by by_decide. congruence.
Qed.

(** ** The store *)

Lemma commit_atomic_witness :
  exists (db db' : Db StoredValue) r,
    store_apply_block IoLost post101 delta101 demo_release db = (db', r) /\
    (r = Ok tt /\ IoLost = IoOk /\ db_ok demo_binding [b101; init_block] db' post101 \/
     (exists e, r = Err e) /\
     (db' = db \/ IoLost = IoLost /\ db_ok demo_binding [b101; init_block] db' post101)).
Proof.
  destruct init_db as [db Hdb]. exists db.
  destruct (store_apply_block IoLost post101 delta101 demo_release db) as [db' r] eqn:E.
  exists db', r. split; [reflexivity|].
  apply (commit_atomic demo_binding [init_block] db (chain_end [init_block]) b101 post101 delta101
           demo_release IoLost db' r Hdb apply101 E).
Defined.

Lemma rollback_exact_witness :
  exists (db db' : Db StoredValue) r, rollback_tip IoOk db = (db', r) /\
  exists s0 d, apply_block init_block s0 = (chain_end [init_block], Ok d) /\
      r = acked IoOk (Some s0) /\
      (IoOk = IoFail /\ db' = db \/
       IoOk <> IoFail /\ db_ok demo_binding [] db' s0 /\ mempool_t db' = mempool_t db /\
       reorgs_t db' = mkReorgRow 100 (blk_hash init_block) (tip_height s0) (tip_hash s0) :: reorgs_t db).
Proof.
  destruct init_db as [db Hdb]. destruct (rollback_tip IoOk db) as [db' r] eqn:E.
  exists db, db', r. split; [exact E|].
  apply (rollback_exact demo_binding [init_block] db (chain_end [init_block]) IoOk db' r Hdb E).
Defined.

Lemma commit_rollback_roundtrip_witness :
  exists db db1 db2 : Db StoredValue,
    store_apply_block IoOk post101 delta101 demo_release db = (db1, Ok tt) /\
    rollback_tip IoOk db1 = (db2, Ok (Some (chain_end [init_block]))) /\
    load_state IoOk db2 = (db2, Ok (chain_end [init_block])) /\
    blocks_t db2 = blocks_t db /\ events_t db2 = events_t db /\ objects_t db2 = objects_t db /\
    mempool_t db2 = mempool_t db /\
    reorgs_t db2 = mkReorgRow 101 (blk_hash b101) (tip_height (chain_end [init_block]))
                     (tip_hash (chain_end [init_block])) :: reorgs_t db.
Proof.
  destruct init_db as [db Hdb].
  destruct (commit_accepts demo_binding (chain_ledger [init_block]) [init_block] db (chain_end [init_block])
           b101 post101 delta101 demo_release Hdb) as (db1 & E & _).
  - eapply canonical_reachable, (short_canonical [init_block]); vm_compute; reflexivity.
  - apply txs_okb_ok. vm_compute. reflexivity.
  - exact apply101.
  - vm_compute. split; discriminate.
  - reflexivity.
  - exact (init_fresh db Hdb).
  - destruct (commit_rollback_roundtrip demo_binding [init_block] db _ b101 post101 delta101 demo_release db1
                Hdb apply101 E) as (db2 & H2).
    exists db, db1, db2. exact (conj E H2).
Defined.

(** ** Queries *)

Lemma bind_exact_witness :
  exists db : Db StoredValue,
    bind_or_load IoOk (mkBinding Mainnet (num_hash 1) (num_hash 77)) db = (db, Err BoundElsewhere) /\
    bind_or_load IoOk demo_binding db = (db, Ok (chain_end [init_block])).
Proof.
  destruct init_db as [db Hdb]. exists db. split.
  - exact (bind_exact demo_binding [init_block] db _ (mkBinding Mainnet (num_hash 1) (num_hash 77)) IoOk Hdb).
  - exact (bind_exact demo_binding [init_block] db _ demo_binding IoOk Hdb).
Defined.

Lemma stored_chain_replay_witness :
  exists (db : Db StoredValue) ds,
    connect_all [init_block] (new_state demo_binding) = (chain_end [init_block], Ok ds) /\
    forall h roots, (exists release, roots_at db h = Ok (Some (roots, release))) <->
      exists d, d ∈ ds /\ bd_height d = h /\ bd_roots d = roots.
Proof.
  destruct init_db as [db Hdb]. exists db.
  apply (stored_chain_replay demo_binding [init_block] db (chain_end [init_block]) Hdb).
Defined.

Lemma events_at_height_witness :
  exists (db : Db StoredValue) ds,
    connect_all [init_block] (new_state demo_binding) = (chain_end [init_block], Ok ds) /\
    forall d, d ∈ ds ->
      query_events db (Some (bd_height d)) None =
      Ok (take 500 (to_value <$> sort_by_key event_key (bd_events d))).
Proof.
  destruct init_db as [db Hdb]. exists db.
  apply (events_at_height demo_binding [init_block] db (chain_end [init_block]) Hdb).
Defined.

Definition carrier_chain : list BlockView := block_at 1108 :: reverse lead_chain.

Lemma carrier_canonical : canonical demo_binding (demo_ledger 1) carrier_chain (demo_state 1).
Proof.
  apply (run_chain_canonical demo_binding lead_ledger lead_state _ _ [block_at 1108]).
  - exact lead_canonical.
  - assert (H : is_Someb (demo_run 1) = true) by (vm_compute; reflexivity).
    unfold demo_ledger, demo_state. change (run_chain demo_binding lead_ledger lead_state [block_at 1108])
      with (demo_run 1). by destruct (demo_run 1) as [[g s]|].
  - vm_compute. reflexivity.
Qed.

Lemma carrier_db : exists db : Db StoredValue, db_ok demo_binding carrier_chain db (demo_state 1).
Proof.
  apply (canonical_db _ _ _ _ carrier_canonical). apply hashes_NoDup. vm_compute. reflexivity.
Qed.

(** ** The worker *)

(** A node whose chain is [blocks], oldest first. *)
Definition node_block (blocks : list BlockView) (h : Z) : option BlockView :=
  head (filter (fun x => blk_height x = h) blocks).

Definition demo_node (blocks : list BlockView) (best : Z) : BlockSource := {|
  src_status := Ok (mkCoreStatus "regtest" best best false true);
  src_best_height := Ok best;
  src_block_hash h := Ok (default hash_zero (blk_hash <$> node_block blocks h));
  src_block h := ok_or CallFailed (node_block blocks h);
  src_transaction_height txid :=
    Ok (blk_height <$> head (filter
      (fun x => Exists (fun tx => tx_txid tx = txid) (transactions x)) blocks));
  src_mempool := Ok [];
|}.

Lemma demo_node_calm blocks best : source_calm (demo_node blocks best).
Proof. split; try done. intros h. cbn. by destruct (node_block blocks h). Qed.

Definition demo_canon : list BlockView := [init_block; b101; b102].
Definition demo_env : Env := mkEnv (fun _ => demo_node demo_canon 102) (fun _ => IoOk).

Lemma fork_db : exists db : Db StoredValue,
  db_ok demo_binding [fork101; init_block] db (chain_end [init_block; fork101]).
Proof. apply (short_db [init_block; fork101]); vm_compute; reflexivity. Qed.

Lemma fork_canonical : canonical demo_binding (chain_ledger [init_block; fork101]) [fork101; init_block]
  (chain_end [init_block; fork101]).
Proof. apply (short_canonical [init_block; fork101]); vm_compute; reflexivity. Qed.

Definition idle : WorkerHealth := mkHealth None None false.

(** Every third transaction is lost or fails. *)
Definition rough_env : Env :=
  mkEnv (fun _ => demo_node demo_canon 102)
    (fun t => match (t mod 3)%nat with O => IoLost | 1%nat => IoFail | _ => IoOk end).

(** Every other transaction fails. *)
Definition failing_env : Env :=
  mkEnv (fun _ => demo_node demo_canon 102) (fun t => if Nat.even t then IoOk else IoFail).

Lemma passes_synced_witness :
  exists w w' : Worker (JV := StoredValue), exists h' r,
    run_loop failing_env demo_release 3 idle w = (w', h', r) /\
    (r <> Panic -> exists chain', db_ok demo_binding chain' (w_db w') (w_state w') /\
       (last_error h' = None -> 3%nat <> O -> last_successful_height h' = blk_height <$> head chain')).
Proof.
  destruct fork_db as [db Hdb]. set (w := mkWorker db (chain_end [init_block; fork101]) 0).
  destruct (run_loop failing_env demo_release 3 idle w) as [[w' h'] r] eqn:E. exists w, w', h', r.
  split; [exact E|].
  apply (passes_synced failing_env demo_release demo_binding 3 idle w w' h' r [fork101; init_block]);
    [|exact Hdb|exact E].
  intros t. cbn. by destruct (Nat.even t).
Defined.

Lemma reconcile_terminates_witness :
  exists w : Worker (JV := StoredValue),
    (run_once rough_env demo_release w).2 <> Err FuelExhausted.
Proof.
  destruct fork_db as [db Hdb]. exists (mkWorker db (chain_end [init_block; fork101]) 0).
  apply (reconcile_terminates rough_env demo_release demo_binding
           (mkWorker db (chain_end [init_block; fork101]) 0) [fork101; init_block]
           (chain_end [init_block; fork101]) [fork101; init_block] Hdb).
  exact (canonical_held _ _ _ _ fork_canonical).
Defined.

(** The node leaves the fork during the first pass and returns to it before the second; the
    acknowledgement of the rollback in between is lost. *)
Definition flapping_env : Env :=
  mkEnv (fun t => if Nat.ltb t 4 then demo_node [init_block; b101] 101
                  else demo_node [init_block; fork101] 101)
    (fun t => if Nat.eqb t 3 then IoLost else IoOk).

Lemma flapping_best t blocks :
  (forall i, (i < 3)%nat -> source_at flapping_env (i + t) = demo_node blocks 101) ->
  best_at flapping_env Regtest t 101 (default hash_zero (blk_hash <$> node_block blocks 101)).
Proof.
  intros H. split_and!.
  - exists (mkCoreStatus "regtest" 101 101 false true). pose proof (H 0%nat ltac:(lia)) as E.
    cbn [Nat.add] in E. by rewrite E.
  - by rewrite (H 1%nat ltac:(lia)).
  - by rewrite (H 2%nat ltac:(lia)).
Qed.

Lemma lost_rollback_unnoticed_witness :
  exists (w w' : Worker (JV := StoredValue)) h' s0,
    run_loop flapping_env demo_release 2 idle w = (w', h', Ok tt) /\
    last_error h' = None /\ last_successful_height h' = Some 101 /\
    w_state w' = w_state w /\ db_ok demo_binding [init_block] (w_db w') s0 /\
    tip_height s0 <> Some 101.
Proof.
  destruct fork_db as [db Hdb]. exists (mkWorker db (chain_end [init_block; fork101]) 0).
  apply (lost_rollback_unnoticed flapping_env demo_release demo_binding fork101 [init_block]
           (mkWorker db (chain_end [init_block; fork101]) 0) (blk_hash b101) idle Hdb).
  - vm_compute. reflexivity.
  - apply (flapping_best 0 [init_block; b101]). intros i Hi.
    do 3 (destruct i; [reflexivity|]). lia.
  - by_decide.
  - reflexivity.
  - apply (flapping_best 4 [init_block; fork101]). intros i Hi.
    do 3 (destruct i; [reflexivity|]). lia.
  - reflexivity.
  - reflexivity.
Defined.
