(* ===== verification/FleetWitnesses.v ===== *)
(** * The theorems about fleets at concrete inputs

    Two workers of the demonstration deployment race for its first block. *)

From Stdlib Require Import String.
From stdpp Require Import strings relations.
From S2P Require Import Prelude Types Marker Roots Reducer Invariant Chain Reach Store StoreInv Commit Queries Ingest IngestInv Converge Fleet FleetInv WorkerTotal Settling Concrete Witnesses StoreWitnesses.

#[local] Abbreviation F := (Fleet (JV := StoredValue)).

(** A schedule. *)
Inductive Act :=
| Starts (b : Binding) (release : ReleaseIdentity) (io : Io)
| Runs (i : nat) (src : BlockSource) (io : Io)
| Dies (i : nat).

Definition perform (f : F) (a : Act) : F :=
  match a with
  | Starts b release io =>
      match bind_or_load io b (f_db f) with
      | (db, Ok s) => mkFleet db (mkProcess s release AskStatus :: f_procs f)
      | (db, _) => mkFleet db (f_procs f)
      end
  | Runs i src io =>
      match f_procs f !! i with
      | Some p => let '(db, p') := process_step src io (f_db f) p in mkFleet db (<[i := p']> (f_procs f))
      | None => f
      end
  | Dies i => mkFleet (f_db f) (delete i (f_procs f))
  end.

Lemma perform_steps f a : rtc fleet_step f (perform f a).
Proof.
  destruct f as [db procs], a as [b release io|i src io|i]; cbn.
  - destruct (bind_or_load io b db) as [db' [s|e|]] eqn:E; apply rtc_once.
    + by eapply fleet_start.
    + by eapply fleet_refused.
    + by eapply fleet_refused.
  - destruct (procs !! i) as [p|] eqn:E; [|done]. destruct (process_step src io db p) as [db' p'] eqn:Ep.
    apply rtc_once. by eapply fleet_run.
  - apply rtc_once, fleet_die.
Qed.

Lemma schedule_steps (acts : list Act) f : rtc fleet_step f (foldl perform f acts).
Proof.
  revert f. induction acts as [|a acts IH]; intros f; [done|]. etrans; [apply perform_steps|apply IH].
Qed.

Definition first_node : BlockSource := demo_node demo_canon 102.
Definition other_release : ReleaseIdentity :=
  mkRelease "00112233445566778899aabbccddeeff00112233" "0000000000000000000000000000000000000000"
    (num_hash 9) (num_hash 10).
Definition other_binding : Binding := mkBinding Mainnet (num_hash 1) (num_hash 77).

(** Two workers reduce the first block and race to commit it; a third, of another deployment, is
    refused; one call to a node fails, and the winner dies. *)
Definition race : list Act :=
  [Starts demo_binding demo_release IoOk; Starts demo_binding other_release IoOk;
   Runs 0 first_node IoOk; Runs 1 first_node IoOk; Runs 0 first_node IoOk; Runs 1 first_node IoOk;
   Runs 0 first_node IoOk; Runs 1 first_node IoOk; Runs 0 first_node IoOk; Runs 1 first_node IoOk;
   Starts other_binding demo_release IoOk;
   Runs 1 first_node IoOk; Runs 0 first_node IoOk; Runs 0 first_node IoOk;
   Runs 1 (demo_node [] 102) IoOk; Dies 1].

Definition raced : F := foldl perform no_fleet race.

Lemma raced_reached : fleet_reaches raced.
Proof. apply schedule_steps. Qed.

(** The loser stopped with a conflict; its memory has the winner's block. *)
Example race_lost :
  (fun p => (p_pc p, tip_height (p_state p))) <$> f_procs raced =
  [(Stopped (Err (StoreFailed StateChanged)), Some 100)].
Proof. vm_compute. reflexivity. Qed.

Lemma fleet_safe_witness :
  fleet_reaches raced /\
  (f_db raced = empty_db /\ f_procs raced = [] \/
   exists b chain s, db_ok b chain (f_db raced) s /\
     Forall (fun p => p_pc p = Stopped Panic \/ binding (p_state p) = b /\ exists c, held b c (p_state p))
       (f_procs raced)).
Proof. split; [exact raced_reached|exact (fleet_safe raced raced_reached)]. Defined.

Definition post100 : ChainState := next_state (new_state demo_binding) init_block.
Definition delta100 : BlockDelta := next_delta (new_state demo_binding) init_block.

Lemma apply100 : apply_block init_block (new_state demo_binding) = (post100, Ok delta100).
Proof. apply next_ok. vm_compute. reflexivity. Qed.

Lemma fleet_linear_witness :
  exists (f f' : F), fleet_reaches f /\ fleet_step f f' /\
    exists chain' s', db_ok demo_binding chain' (f_db f') s' /\ moves [] (new_state demo_binding) chain' s'.
Proof.
  destruct (bind_fresh (JV := StoredValue) demo_binding) as (db & Hb & Hdb).
  set (p := mkProcess (new_state demo_binding) demo_release AskStatus).
  destruct (process_step first_node IoOk db p) as [db' p'] eqn:Ep.
  exists (mkFleet db [p]), (mkFleet db' [p']).
  assert (Hr : fleet_reaches (mkFleet db [p])).
  { apply rtc_once. eapply fleet_start. exact Hb. }
  assert (Hs : fleet_step (mkFleet db [p]) (mkFleet db' [p'])) by exact (fleet_run _ db [p] 0 p first_node IoOk db' p' eq_refl I Ep).
  split; [exact Hr|]. split; [exact Hs|].
  exact (fleet_linear (mkFleet db [p]) (mkFleet db' [p']) demo_binding [] (new_state demo_binding) Hr Hdb Hs).
Defined.

Lemma delta100_before : bd_before delta100 = new_state demo_binding.
Proof. apply (apply_block_delta _ _ _ _ apply100). Qed.

Definition winner : Process := mkProcess post100 demo_release (Commit delta100 []).
Definition loser : Process := mkProcess post100 other_release (Commit delta100 [101]).

Lemma racing (p : Process) rest :
  p_state p = post100 -> p_pc p = Commit delta100 rest -> process_ok demo_binding p.
Proof.
  intros Es Ep. unfold process_ok. rewrite Ep, Es. exists init_block, (new_state demo_binding).
  split; [exists []; constructor|exact apply100].
Qed.

Lemma loser_resyncs_witness :
  exists (db db1 : Db StoredValue) e,
    process_step first_node IoOk db winner = (db1, goto (next_height []) winner) /\
    process_step first_node IoLost db1 loser = (db1, goto (Reload (new_state demo_binding) e) loser) /\
    process_step first_node IoOk db1 (goto (Reload (new_state demo_binding) e) loser) =
      (db1, become post100 (Stopped (Err (StoreFailed e))) loser).
Proof.
  destruct (bind_fresh (JV := StoredValue) demo_binding) as (db & Hb & Hdb).
  destruct (commit_accepts demo_binding empty_ledger [] db (new_state demo_binding) init_block post100 delta100
              demo_release Hdb) as (db1 & Hc & _).
  - constructor.
  - apply txs_okb_ok. vm_compute. reflexivity.
  - exact apply100.
  - vm_compute. split; discriminate.
  - reflexivity.
  - intros h row Hr. apply (journal_hashes demo_binding [] _ _ _ (dk_journal _ _ _ _ Hdb)) in Hr as (x & Hx & _).
    by apply elem_of_nil in Hx.
  - assert (H1 : process_step first_node IoOk db winner = (db1, goto (next_height []) winner)).
    { unfold process_step, winner. cbn [p_pc p_state p_release]. by rewrite Hc. }
    destruct (loser_resyncs demo_binding [] db db1 (new_state demo_binding) winner loser delta100 [] delta100 [101]
                first_node first_node first_node IoLost Hdb (racing winner [] eq_refl eq_refl)
                (racing loser [101] eq_refl eq_refl) eq_refl eq_refl
                delta100_before delta100_before H1) as (e & H2 & H3).
    exists db, db1, e. exact (conj H1 (conj H2 H3)).
Defined.

(** ** Settling *)

Lemma first_serves : serves demo_binding first_node demo_canon [] 102.
Proof.
  split.
  - apply demo_node_calm.
  - exists (mkCoreStatus "regtest" 102 102 false true). split; [reflexivity|vm_compute; reflexivity].
  - reflexivity.
  - intros x. vm_compute last. by intros [= <-].
  - intros x Hx. repeat (apply elem_of_cons in Hx as [->|Hx]; [by_decide|]). by apply elem_of_nil in Hx.
  - intros x Hx. repeat (apply elem_of_cons in Hx as [->|Hx]; [vm_compute; reflexivity|]). by apply elem_of_nil in Hx.
  - intros x Hx. repeat (apply elem_of_cons in Hx as [->|Hx]; [vm_compute; reflexivity|]). by apply elem_of_nil in Hx.
  - vm_compute. reflexivity.
  - intros x Hx. by apply elem_of_nil in Hx.
  - intros above x below pre post E. by destruct above.
  - exists []. split; [reflexivity|constructor].
Qed.

#[local] Abbreviation Watch := (Watched (JV := StoredValue)).
#[local] Abbreviation run_of := (watched_run demo_binding first_node 102).

(** The worker's next call, and a call of the only other one. *)
Definition own_call (w : Watch) : Watch :=
  let '(db, p) := process_step first_node IoOk (wt_db w) (wt_proc w) in mkWatched db p (wt_others w).
Definition other_call (io : Io) (w : Watch) : Watch :=
  match wt_others w with
  | [q] => let '(db, q') := process_step first_node io (wt_db w) q in mkWatched db (wt_proc w) [q']
  | _ => w
  end.

Fixpoint own_calls (k : nat) (w : Watch) : Watch :=
  match k with O => w | S k => own_calls k (own_call w) end.

Lemma own_calls_run k w : run_of k w (own_calls k w).
Proof.
  revert w. induction k as [|k IH]; intros w; [constructor|]. cbn. unfold own_call.
  destruct (process_step first_node IoOk (wt_db w) (wt_proc w)) as [db p] eqn:E. by eapply watched_own.
Qed.

Lemma other_call_run k io w w' : run_of k (other_call io w) w' -> run_of k w w'.
Proof.
  unfold other_call. destruct (wt_others w) as [|q [|]] eqn:Eq; [done| |done].
  destruct (process_step first_node io (wt_db w) q) as [db q'] eqn:E. intros H. eapply watched_other; [|exact H].
  rewrite Eq. eapply (fleet_run _ _ [q] 0); [done|by eapply truthful_self, first_serves|exact E].
Qed.

(** The other worker is first to commit the INIT block, and its acknowledgement is lost; then this
    one makes its calls. *)
Lemma fleet_settles_witness :
  exists w w' : Watch, run_of 60 w w' /\
    db_ok demo_binding (reverse demo_canon) (wt_db w') (chain_end demo_canon).
Proof.
  destruct (bind_fresh (JV := StoredValue) demo_binding) as (db & _ & Hdb).
  set (p := mkProcess (new_state demo_binding) demo_release AskStatus).
  set (q := mkProcess (new_state demo_binding) other_release AskStatus).
  set (w := mkWatched db p [q]). set (w' := own_calls 60 (Nat.iter 6 (other_call IoLost) w)).
  assert (Hr : run_of 60 w w').
  { unfold w'. generalize (own_calls_run 60 (Nat.iter 6 (other_call IoLost) w)).
    generalize (own_calls 60 (Nat.iter 6 (other_call IoLost) w)). generalize 60%nat. clear. intros k w1.
    generalize w. generalize 6%nat. clear. intros n. induction n as [|n IH]; intros w H; [exact H|].
    apply IH. cbn [Nat.iter] in H. by eapply other_call_run. }
  exists w, w'. split; [exact Hr|].
  assert (H0 : prefix demo_binding demo_canon 0 (new_state demo_binding))
    by (split; [apply Nat.le_0_l|exists empty_ledger; constructor]).
  apply (fleet_settles demo_binding first_node demo_canon 102 (chain_ledger demo_canon) (chain_end demo_canon)
           first_serves (short_canonical demo_canon eq_refl eq_refl) (hashes_NoDup demo_canon eq_refl) 60 w w' 0).
  - split; [by exists (new_state demo_binding)|]. cbn.
    repeat constructor; exists 0%nat; (split; [done|exact H0]).
  - discriminate.
  - reflexivity.
  - exact Hr.
  - cbn. lia.
Defined.
