(* ===== verification/SerdeWitnesses.v ===== *)
(** * The serde theorems at concrete inputs

    A column that returns every object with its keys in the opposite order, and the demonstration
    chain written to it. *)

From Stdlib Require Import String.
From stdpp Require Import strings.
From S2P Require Import Prelude Types Marker Roots Reducer Invariant Chain Reach Store StoreInv Ingest IngestInv Converge Serde SerdeFacts Concrete Witnesses StoreWitnesses.

Fixpoint flip_keys (v : JsonValue) : JsonValue :=
  match v with
  | VArray l => VArray (flip_keys <$> l)
  | VObject fields => VObject (reverse ((fun kv => (kv.1, flip_keys kv.2)) <$> fields))
  | _ => v
  end.

Fixpoint distinct_keys (v : JsonValue) : bool :=
  match v with
  | VArray l => forallb distinct_keys l
  | VObject fields => bool_decide (NoDup fields.*1) && forallb (fun kv => distinct_keys kv.2) fields
  | _ => true
  end.

Fixpoint flip_stored (v : JsonValue) : distinct_keys v = true -> stored v (flip_keys v).
Proof.
  destruct v as [| | | |l|fields]; cbn [distinct_keys flip_keys]; intros H; try constructor.
  - induction l as [|x l IH]; [constructor|]. apply andb_true_iff in H as [Hx Hl].
    constructor; [by apply flip_stored|by apply IH].
  - apply andb_true_iff in H as [Hnd Hf]. apply bool_decide_eq_true in Hnd.
    eapply stored_object; [exact Hnd| |symmetry; apply reverse_Permutation].
    clear Hnd. induction fields as [|[k x] fields IH]; [constructor|]. apply andb_true_iff in Hf as [Hx Hl].
    constructor; [split; [done|by apply flip_stored]|by apply IH].
Qed.

Example flipped :
  flip_keys (encode serde_outpoint (OutPoint (num_hash 10) 1)) =
  VObject [("vout", VNumber 1); ("txid", VString (to_hex (num_hash 10)))].
Proof. reflexivity. Qed.

(** A MARK, written and read back. *)
Definition marked_state : ChainState := next_state (demo_state 1) (block_at 1109).
Definition marked_delta : BlockDelta := next_delta (demo_state 1) (block_at 1109).

Lemma columns_faithful_witness :
  decode serde_state (flip_keys (encode serde_state marked_state)) = Some marked_state /\
  decode serde_delta (flip_keys (encode serde_delta marked_delta)) = Some marked_delta /\
  decode serde_binding (flip_keys (encode serde_binding demo_binding)) = Some demo_binding.
Proof.
  apply (columns_faithful demo_binding (demo_ledger 1) carrier_chain (demo_state 1) (block_at 1109)
           marked_state marked_delta).
  - exact carrier_canonical.
  - apply txs_okb_ok. vm_compute. reflexivity.
  - apply next_ok. vm_compute. reflexivity.
  - vm_compute. split; discriminate.
  - vm_compute. discriminate.
  - apply flip_stored. vm_compute. reflexivity.
  - apply flip_stored. vm_compute. reflexivity.
  - apply flip_stored. vm_compute. reflexivity.
Defined.

(** The example of the program's own test: one outpoint, twice. *)
Definition twice : JsonValue :=
  flip_keys (encode (serde_pair serde_outpoint serde_hash) (OutPoint (num_hash 51) 1, num_hash 68)).

Lemma twice_read :
  decode (serde_pair serde_outpoint serde_hash) twice = Some (OutPoint (num_hash 51) 1, num_hash 68).
Proof.
  apply (pair_faithful serde_outpoint serde_hash outpoint_ok anything _ _); [|by apply flip_stored].
  split; [|done]. cbn. unfold outpoint_ok, is_u32, u32_max. cbn. lia.
Qed.

Lemma corrupt_index_refused_witness :
  decode serde_state (VObject [
    ("binding", encode serde_binding demo_binding);
    ("protocol_status", encode serde_protocol_status AwaitingInit);
    ("tip_height", VNull); ("tip_hash", VNull);
    ("chained_root", encode serde_hash (num_hash 5)); ("objects", VObject []);
    ("active", VArray [twice; twice])]) = None.
Proof.
  apply (corrupt_index_refused _ [] [] [] twice twice (OutPoint (num_hash 51) 1) (num_hash 68) (num_hash 68)).
  - reflexivity.
  - exact twice_read.
  - exact twice_read.
Defined.
