(* ===== verification/ServiceWitnesses.v ===== *)
(** * Witnesses for the API and the signer

    A small executable signature scheme and a service state on the demonstration chain, with the
    theorems about the read API applied to them. *)

From Stdlib Require Import String.
From stdpp Require Import strings.
From S2P Require Import Prelude Types Marker Roots Reducer Validators Steps Invariant Chain Reach EventLog Store StoreInv Commit Queries Ingest IngestInv Converge Signer Api Concrete Witnesses StoreWitnesses.

(** ** Signatures *)

(** The text of the tuple's chained root stands for its canonical bytes; a signature is the end
    of key and message. *)
#[export] Instance small_crypto : AgreementCrypto := {|
  jcs_to_vec t := Some (ascii (at_chained_root t));
  SigningKey := list byte;
  VerifyingKey := list byte;
  signing_key_from_bytes s := arr_bytes s;
  verifying_key k := k;
  verifying_key_to_bytes k := k;
  ed25519_sign k m := Arr (last_bytes 64 (k ++ m)) (last_bytes_length 64 (k ++ m));
  ed25519_verify k m s := bool_decide (last_bytes 64 (k ++ m) = arr_bytes s);
  ed25519_correct k m := bool_decide_eq_true_2 _ eq_refl;
|}.

Definition demo_roots : HeightRoots := bd_roots init_delta.

Lemma from_roots_injective_witness :
  "tndm"%string = "tndm"%string /\ demo_roots = demo_roots /\ demo_release = demo_release.
Proof.
  apply (from_roots_injective (H := real_hex) "tndm" "tndm" demo_roots demo_roots
           demo_release demo_release).
  reflexivity.
Defined.

(** ** The API *)

Definition demo_health : WorkerHealth := mkHealth (Some 100) None false.

Definition demo_api (db : Db StoredValue) (best : Z) : ApiState (JV := StoredValue) :=
  mkApi demo_binding (mkSigner "demo" [x01; x02]) demo_health (demo_node [init_block] best)
    (fun _ => db) (fun _ => IoOk).

Definition is_envelope (r : res ApiError AgreementEnvelope) : bool :=
  match r with Ok _ => true | _ => false end.

(** The node and the store are at the INIT block, and height 100 is signed. *)
Lemma agreement_sound_witness :
  exists (db : Db StoredValue) envelope, api_agreement (demo_api db 100) 100 = Ok envelope /\
  (worker_busy demo_health = false /\ is_active (chain_end [init_block]) = true /\
   exists status, src_status (demo_node [init_block] 100) = Ok status /\
     ready_for status Regtest = true /\
     blk_height <$> head [init_block] = Some (cs_blocks status) /\ 100 <= cs_blocks status) /\
  verify envelope [x01; x02] = Ok tt /\
  exists ds d release, connect_all [init_block] (new_state demo_binding) = (chain_end [init_block], Ok ds) /\
    d ∈ ds /\ bd_height d = 100 /\
    src_block_hash (demo_node [init_block] 100) 100 = Ok (hr_block_hash (bd_roots d)) /\
    ae_tuple envelope = from_roots (protocol_id demo_binding) (bd_roots d) release.
Proof.
  destruct init_db as [db Hdb]. exists db.
  assert (Hr : exists release, roots_at db 100 = Ok (Some (demo_roots, release))).
  { destruct (roots_replay _ _ _ _ Hdb) as (ds & Hc & Hiff). apply Hiff. exists init_delta.
    split; [|split; reflexivity].
    assert (E : connect_all [init_block] (new_state demo_binding) = (chain_end [init_block], Ok [init_delta])).
    { apply connect_all_cons. exists (chain_end [init_block]), init_delta, [].
      split; [|done]. apply next_ok. vm_compute. reflexivity. }
    cbn [reverse] in Hc. change (reverse [init_block]) with [init_block] in Hc. rewrite E in Hc.
    injection Hc as <-. apply list_elem_of_here. }
  destruct Hr as [release Hr].
  assert (He : exists envelope, api_agreement (demo_api db 100) 100 = Ok envelope).
  { destruct (dk_row _ _ _ _ Hdb) as (bv & sv & Er & _ & Ev).
    assert (Hl : (load_state IoOk db).2 = Ok (chain_end [init_block])).
    { unfold load_state. by rewrite (proj2 (load_state_Ok db db (chain_end [init_block])))
        by (split; [done|]; by exists bv, sv). }
    eexists. unfold api_agreement. cbn [demo_api api_health api_source api_binding api_io api_db api_signer].
    rewrite decide_False by by_decide. cbn [demo_node src_status ok_or internal rbind].
    rewrite decide_False by by_decide. rewrite Hl. cbn [internal rbind].
    rewrite decide_False by by_decide. unfold read. cbn [demo_api api_io api_db]. rewrite Hr.
    cbn [internal ok_or rbind fst snd demo_node src_block_hash api_source].
    rewrite decide_False by by_decide. reflexivity. }
  destruct He as [envelope He]. exists envelope. split; [exact He|].
  exact (agreement_sound (demo_api db 100) 100 envelope demo_binding [init_block] (chain_end [init_block])
           [init_block] (chain_end [init_block]) eq_refl Hdb Hdb He).
Defined.

Lemma carrier_endpoint_exact_witness :
  exists db : Db StoredValue,
    api_carrier (demo_api db 1108) (display_hash (num_hash 10)) 1 = Ok (SObject objectA).
Proof.
  destruct carrier_db as [db Hdb]. exists db.
  apply (carrier_endpoint_exact (demo_api db 1108) demo_binding (demo_ledger 1) carrier_chain (demo_state 1)
           (num_hash 10) 1 (SObject objectA) Hdb (demo_reachable 1) eq_refl).
  exists keyA, objectA. split; [by_decide|]. split; [by_decide|reflexivity].
Defined.
