(* ===== verification/ReportWitnesses.v ===== *)
(** * Witnesses for the listings and the columns

    A database that prints numbers as they are, the chain of the demonstration up to its CREATE
    block behind the read API, and two verifiers that sign the INIT block. *)

From Stdlib Require Import String.
From stdpp Require Import strings.
From S2P Require Import Prelude Types Marker Roots Reducer Validators Steps Invariant Chain Reach EventLog Counting RootBinding Store StoreInv Commit Queries Ingest IngestInv Converge Signer Api Agreement Columns Reports Http Concrete Witnesses StoreWitnesses ServiceWitnesses.

#[export] Instance small_postgres : Postgres := {|
  numeric_text s := s;
  numeric_text_decimal _ _ := eq_refl;
|}.

#[export] Instance small_order : RowOrder := {| ties A l := l; ties_perm A l := reflexivity l |}.

Example counters_parse :
  parse_u64 "18446744073709551615" = Some u64_max /\ parse_u64 "18446744073709551616" = None /\
  parse_u64 "+7" = Some 7 /\ parse_u64 "" = None /\ parse_u64 "+" = None /\ parse_u64 "-7" = None /\
  parse_u64 "7 " = None.
Proof. vm_compute. done. Qed.

Lemma roots_columns_roundtrip_witness :
  exists db : Db StoredValue,
  read_roots db 1108 =
  match roots_at db 1108 with
  | Ok found => Ok ((fun p => mkPersisted p.1 p.2) <$> found)
  | Err _ => Err HeightTooLarge
  | Panic => Panic
  end.
Proof.
  destruct carrier_db as [db Hdb]. exists db.
  apply (roots_columns_roundtrip demo_binding (demo_ledger 1) carrier_chain db (demo_state 1) 1108 carrier_canonical Hdb).
  by_decide.
Defined.

Lemma listings_exact_witness :
  exists (db : Db StoredValue) ds,
    connect_all (reverse carrier_chain) (new_state demo_binding) = (demo_state 1, Ok ds) /\
    api_invalid_events (demo_api db 1108) = Ok (take 500 (to_value <$> filter rejected (newest_log ds))) /\
    api_events (demo_api db 1108) (Some 1108) (Some "no key"%string) = Err BadRequest.
Proof.
  destruct carrier_db as [db Hdb]. exists db.
  destruct (listings_exact (demo_api db 1108) demo_binding carrier_chain (demo_state 1) (Some 1108)
              (Some "no key"%string) Hdb eq_refl) as (ds & Hc & Hi & He).
  exists ds. split; [exact Hc|]. split; [exact Hi|]. rewrite He.
  assert (Hk : from_hex "no key" = None) by (vm_compute; reflexivity). by rewrite Hk.
Defined.

(** The live carrier of the object, in display order, is found. *)
Lemma status_exact_witness :
  exists db : Db StoredValue,
    response_code (respond (demo_api db 1108) "demo" (GetCarrier (display_hash (num_hash 10)) 1)) = Some 200.
Proof.
  destruct carrier_db as [db Hdb]. exists db.
  assert (E : expected_status (demo_api db 1108) (demo_state 1) (demo_state 1) carrier_chain
                (GetCarrier (display_hash (num_hash 10)) 1) = Some 200).
  { cbn [expected_status]. rewrite wire_display. by_decide. }
  rewrite <- E.
  apply (status_exact (demo_api db 1108) "demo" demo_binding (demo_ledger 1) (fun _ => carrier_chain)
           (fun _ => demo_state 1) (GetCarrier (display_hash (num_hash 10)) 1) eq_refl (fun _ => Hdb)
           (demo_reachable 1) (fun _ => eq_refl)).
  intros t. eexists. reflexivity.
Defined.

(** ** Two verifiers *)

(** A verifier at the tip of a short chain. *)
Definition tip_api (blocks : list BlockView) (best : Z) (signer : AgreementSigner) (db : Db StoredValue) :
  ApiState (JV := StoredValue) :=
  mkApi demo_binding signer demo_health (demo_node blocks best) (fun _ => db) (fun _ => IoOk).

Definition deltas_of (blocks : list BlockView) : list BlockDelta :=
  match (connect_all blocks (new_state demo_binding)).2 with Ok ds => ds | _ => [] end.

Definition init_root : Hash32 := chained_root (chain_end [init_block]).

Definition roots_at_init (blocks : list BlockView) : bool :=
  forallb (fun d => negb (bd_height d =? 100) || bool_decide (hr_chained_root (bd_roots d) = init_root))
    (deltas_of blocks).

Lemma short_verifier blocks best signer :
  is_Someb (chain_result blocks) = true -> forallb height_okb blocks = true ->
  bool_decide (NoDup (hash_number ∘ blk_hash <$> reverse blocks)) = true ->
  bool_decide (Z.of_nat (size (seen (chain_ledger blocks))) <= u64_max) = true ->
  (forall db, agreement_status (tip_api blocks best signer db) (chain_end blocks) (reverse blocks) 100 = Some 200) ->
  roots_at_init blocks = true ->
  exists db envelope, verifier demo_binding (tip_api blocks best signer db) (deltas_of blocks) /\
    api_agreement (tip_api blocks best signer db) 100 = Ok envelope /\
    at_chained_root (ae_tuple envelope) = to_hex init_root.
Proof.
  intros Hr Hh Hn Hs Hst Hroots. destruct (short_db blocks Hr Hh Hn) as [db Hdb].
  destruct (roots_replay _ _ _ _ Hdb) as (ds & Hcon & _). rewrite reverse_involutive in Hcon.
  assert (Ed : deltas_of blocks = ds) by (unfold deltas_of; by rewrite Hcon).
  pose proof (agreement_code (tip_api blocks best signer db) demo_binding (fun _ => reverse blocks)
    (fun _ => chain_end blocks) (fun _ => Hdb) (fun _ => eq_refl) 100 (fun t => ex_intro _ _ eq_refl)) as Hc.
  cbn beta in Hc. rewrite Hst in Hc.
  destruct (api_agreement (tip_api blocks best signer db) 100) as [envelope|e|] eqn:Ea; [|by destruct e|done].
  exists db, envelope. split_and!; [split|done|].
  - done.
  - by exists (reverse blocks), (chain_end blocks).
  - exists (chain_ledger blocks), (reverse blocks), (chain_end blocks). rewrite reverse_involutive, Ed.
    split_and!; [done|by apply short_canonical|by apply bool_decide_eq_true in Hs|done].
  - destruct (agreement_signed (tip_api blocks best signer db) 100 envelope demo_binding (reverse blocks)
      (chain_end blocks) (reverse blocks) (chain_end blocks) eq_refl Hdb Hdb Ea)
      as (_ & _ & ds' & d & release & Hcon' & Hd & Ehd & _ & ->).
    rewrite reverse_involutive in Hcon'. assert (ds' = ds) as -> by congruence.
    unfold roots_at_init in Hroots. rewrite Ed, forallb_forall in Hroots.
    apply list_elem_of_In, Hroots in Hd. rewrite Ehd in Hd. apply bool_decide_eq_true in Hd. cbn. by rewrite Hd.
Qed.

Definition signer_one : AgreementSigner := mkSigner "one" [x01; x02].
Definition signer_two : AgreementSigner := mkSigner "two" [x03].

(** One has only the INIT block, the other is two blocks ahead. *)
Lemma envelopes_agree_witness :
  exists (db1 db2 : Db StoredValue) envelope1 envelope2,
    api_agreement (tip_api [init_block] 100 signer_one db1) 100 = Ok envelope1 /\
    api_agreement (tip_api demo_canon 102 signer_two db2) 100 = Ok envelope2 /\
    at_chained_root (ae_tuple envelope1) = at_chained_root (ae_tuple envelope2) /\
    (100 = 100 /\ exists pre1 d1 post1 pre2 d2 post2,
      deltas_of [init_block] = pre1 ++ d1 :: post1 /\ deltas_of demo_canon = pre2 ++ d2 :: post2 /\
      bd_height d1 = 100 /\ bd_height d2 = 100 /\ Forall2 same_block (pre1 ++ [d1]) (pre2 ++ [d2])).
Proof.
  destruct (short_verifier [init_block] 100 signer_one) as (db1 & e1 & H1 & A1 & R1);
    [vm_compute; reflexivity..|].
  destruct (short_verifier demo_canon 102 signer_two) as (db2 & e2 & H2 & A2 & R2);
    [vm_compute; reflexivity..|].
  assert (Hc : collision_free (history_preimages demo_binding (signed_part 100 (deltas_of [init_block])) ++
                               history_preimages demo_binding (signed_part 100 (deltas_of demo_canon)))).
  { apply collision_freeb_ok. vm_compute. reflexivity. }
  assert (Er : at_chained_root (ae_tuple e1) = at_chained_root (ae_tuple e2)) by by rewrite R1, R2.
  exists db1, db2, e1, e2.
  exact (conj A1 (conj A2 (conj Er
    (envelopes_agree demo_binding _ _ _ _ 100 100 e1 e2 H1 H2 Hc A1 A2 Er)))).
Defined.
