(* ===== verification/RpcWitnesses.v ===== *)
(** * Witnesses for the Bitcoin Core source

    A small executable stand-in for the bitcoin crate, in which a transaction is decoded from its
    number, a signature is the key followed by the message and the message is the txid, and a
    node that serves the INIT block and the CREATE block of the demonstration chain. *)

From Stdlib Require Import String.
From stdpp Require Import strings.
From S2P Require Import Prelude Types Marker Roots Reducer Validators Steps Invariant Chain Reach Lifecycle EventLog Ingest Rpc RpcFacts Resolution Signatures Api Concrete Witnesses.

(** ** Transactions *)

Record SmallIn := mkSmallIn {
  si_previous : OutPointRef;
  si_sequence : Z;
  si_witness : list (list byte);
}.

Record SmallTx := mkSmallTx {
  st_id : Hash32;
  st_ins : list SmallIn;
  st_outs : list OutputView;
}.

Definition small_wallet (txid prev : Z) (k : Key33) (seq : Z) : SmallIn :=
  mkSmallIn (OutPoint (num_hash prev) 0) seq [arr_bytes k ++ arr_bytes (num_hash txid); arr_bytes k].

Definition small_parent (txid : Z) (out : OutputView) : SmallTx := mkSmallTx (num_hash txid) [] [out].

Definition small_create : SmallTx :=
  mkSmallTx (num_hash 10)
    [small_wallet 10 910 (demo_key x11) RBF_SEQUENCE; small_wallet 10 1910 (demo_key x22) RBF_SEQUENCE]
    (outputs (create_tx 10 pairA)).

Definition small_init : SmallTx :=
  mkSmallTx (num_hash 1) [small_wallet 1 900 (demo_key x11) u32_max] (outputs init_tx).

(** The INIT of another deployment, for a short chain of its own. *)
Definition boot_spec : Hash32 := sha256 (ascii "abc" ++ [x0a]).
Definition boot_init : SmallTx :=
  mkSmallTx (num_hash 2) [small_wallet 2 902 (demo_key x11) u32_max]
    [marker_output (marker_payload x00
       (to_le 4 1108 ++ to_le 4 5428 ++ to_le 8 CARRIER_VALUE ++ to_le 4 REFUND_DELAY ++ arr_bytes boot_spec));
     pay (demo_key x11) 4000].

Definition small_txs : list SmallTx :=
  [small_create; small_init; small_parent 900 (pay (demo_key x11) 5000);
   small_parent 910 (pay (demo_key x11) 12501); small_parent 1910 (pay (demo_key x22) 12500);
   boot_init; small_parent 902 (pay (demo_key x11) 5000)].

Definition numbered {A} (l : list A) (bytes : list byte) : option A :=
  match bytes with [b] => l !! Z.to_nat (bval b) | _ => None end.

Definition small_blocks : list (Z * list SmallTx) :=
  [(100, [small_init]); (1108, [small_create]); (0, []); (1, [boot_init]); (2, [])].

Definition block_name (h : Z) : string := display_hash (num_hash (1000000 + h)).

(** The vout is a u32 by construction of the views. *)
Definition small_vout (i : SmallIn) : Z :=
  if decide (is_u32 (op_vout (si_previous i))) then op_vout (si_previous i) else 0.

Lemma small_vout_u32 i : is_u32 (small_vout i).
Proof. unfold small_vout. case_decide; [done|]. unfold is_u32, u32_max. lia. Qed.

#[export] Instance small_crate : BitcoinCrate.
Proof.
  refine {|
    Txid := Hash32;
    serialize_txid t := arr_bytes t;
    deserialize_txid l := arr_of 32 l;
    parse_txid s := wire_hash s;
    Transaction := SmallTx;
    TxIn := SmallIn;
    TxOut := OutputView;
    Block := (Z * list SmallTx)%type;
    deserialize_transaction := numbered small_txs;
    deserialize_block := numbered small_blocks;
    transaction_input := st_ins;
    transaction_output := st_outs;
    transaction_version _ := 2;
    transaction_lock_time _ := 0;
    compute_txid := st_id;
    serialized_wtxid t := arr_bytes (st_id t);
    previous_txid i := op_txid (si_previous i);
    previous_vout := small_vout;
    previous_is_null i := bool_decide (op_txid (si_previous i) = hash_zero);
    txin_sequence := si_sequence;
    txin_script_sig _ := [];
    txin_witness := si_witness;
    txout_value := value;
    txout_script := script_pubkey;
    block_txdata := snd;
    block_hash_display b := block_name b.1;
    serialized_block_hash b := arr_bytes (num_hash (1000000 + b.1));
    serialized_prev_hash b := arr_bytes (num_hash (1000000 + (b.1 - 1)));
    is_p2wpkh s := bool_decide (length s = 22%nat);
    is_p2wsh s := bool_decide (length s = 34%nat);
    RawSignature := list byte;
    Signature := list byte;
    signature_from_slice l := Some l;
    signature_to_vec l := l;
    signature_is_all _ := true;
    signature_raw l := l;
    normalize_s l := l;
    PublicKey := list byte;
    public_key_from_slice l := Some l;
    p2wpkh_signature_hash t _ _ _ := Some (st_id t);
    p2wsh_signature_hash t _ _ _ := Some (st_id t);
    verify_ecdsa m s k := bool_decide (s = k ++ arr_bytes m);
  |}.
  - intros t. apply arr_length.
  - intros t. apply arr_length.
  - intros b. apply arr_length.
  - intros b. apply arr_length.
  - apply small_vout_u32.
  - intros t. apply arr_of_bytes.
Defined.

(** ** The node *)

Definition responded {A} (a : A) : Response A := Responded 200 (mkEnvelope (Some a) None).

Definition find_tx (t : Hash32) : option byte :=
  (fun p : nat * SmallTx => byte_of_Z (Z.of_nat p.1)) <$>
  List.find (fun p : nat * SmallTx => bool_decide (st_id p.2 = t)) (imap pair small_txs).

Definition block_number (name : string) : option byte :=
  (fun p : nat * (Z * list SmallTx) => byte_of_Z (Z.of_nat p.1)) <$>
  List.find (fun p : nat * (Z * list SmallTx) => bool_decide (block_name p.2.1 = name)) (imap pair small_blocks).

Definition small_raw (t : Hash32) : Response RawTransactionVerbose :=
  match find_tx t with
  | Some b => responded (mkVerbose (hex_encode [b]) (Some "parent"%string) (Some 9))
  | None => Responded 500 (mkEnvelope None (Some (-5)))
  end.

Definition small_getblock (name : string) : Response string :=
  match block_number name with
  | Some b => responded (hex_encode [b])
  | None => Responded 500 (mkEnvelope None (Some (-5)))
  end.

Definition small_node : Node :=
  @mkNode small_crate small_raw (fun _ => responded 50) (fun h => responded (block_name h)) small_getblock
    NoResponse InvalidBody (responded 1108) (responded []).

Definition served_block (h : Z) : BlockView :=
  match rpc_block (X := small_crate) (fun _ => small_node) h 0%nat with
  | (_, Ok b) => b
  | _ => demo_block h []
  end.

Definition served_txs (h : Z) : list TxView := transactions (served_block h).

Example node_serves_create :
  tx_txid <$> served_txs 1108 = [num_hash 10] /\
  prevout_value <$> concat (inputs <$> served_txs 1108) = [12501; 12500] /\
  forallb signatures_valid (concat (inputs <$> served_txs 1108)) = true.
Proof. by_decide. Qed.

Definition is_block (r : nat * res RpcError BlockView) : bool :=
  match r with (_, Ok _) => true | _ => false end.

Lemma served_ok h :
  is_block (rpc_block (fun _ => small_node) h 0%nat) = true ->
  exists t, rpc_block (fun _ => small_node) h 0%nat = (t, Ok (served_block h)).
Proof.
  unfold served_block. destruct (rpc_block _ h 0%nat) as [t [b| |]]; [|done..]. by exists t.
Qed.

Lemma served_create : exists t, rpc_block (fun _ => small_node) 1108 0%nat = (t, Ok (served_block 1108)).
Proof. apply served_ok. vm_compute. reflexivity. Qed.

Lemma served_init : exists t, rpc_block (fun _ => small_node) 100 0%nat = (t, Ok (served_block 100)).
Proof. apply served_ok. vm_compute. reflexivity. Qed.

(** The new object of the CREATE block is vouched for. *)
Lemma changes_signed_witness :
  objects lead_state !! keyA = None /\
  keys <$> objects (next_state lead_state (served_block 1108)) !! keyA = Some pairA /\
  exists decoded, block_of (fun _ => small_node) 0%nat 1108 decoded (served_block 1108) /\
    rtc (signed_life (block_txdata decoded)) (objects lead_state !! keyA)
      (objects (next_state lead_state (served_block 1108)) !! keyA).
Proof.
  split; [vm_compute; reflexivity|]. split; [by_decide|]. destruct served_create as [t Ht].
  apply (changes_signed (fun _ => small_node) demo_binding lead_ledger lead_state 1108 0%nat t
           (served_block 1108) (next_state lead_state (served_block 1108))
           (next_delta lead_state (served_block 1108)) keyA lead_reachable Ht).
  - apply txs_okb_ok. vm_compute. reflexivity.
  - apply next_ok. vm_compute. reflexivity.
Defined.

(** The transactions of the table have different txids. *)
Lemma small_served p : served (fun _ => small_node) p -> p ∈ small_txs.
Proof.
  intros (t & txid & v & raw & _ & _ & Hd & _). destruct raw as [|b [|]]; try done.
  by apply list_elem_of_lookup_2 in Hd.
Qed.

Lemma small_ids p c : p ∈ small_txs -> c ∈ small_txs -> st_id p = st_id c -> p = c.
Proof.
  assert (Hnd : NoDup (st_id <$> small_txs)) by (apply (bool_decide_unpack _); vm_compute; exact I).
  intros [i Hi]%list_elem_of_lookup [j Hj]%list_elem_of_lookup E.
  assert (i = j) as ->; [|congruence]. eapply NoDup_lookup; [done| |].
  - by rewrite list_lookup_fmap, Hi.
  - rewrite list_lookup_fmap, Hj. simpl. by rewrite E.
Qed.

Definition init_view : TxView := default init_tx (head (served_txs 100)).

Lemma served_init_one : transactions (served_block 100) = [init_view].
Proof.
  assert (Hone : forall (l : list TxView) d, length l = 1%nat -> l = [default d (head l)]).
  { by intros [|x [|]] d. }
  apply Hone. vm_compute. reflexivity.
Qed.

Lemma source_canonical_witness :
  let g := ledger_txs (transactions (served_block 100)) empty_ledger in
  let s := next_state (new_state demo_binding) (served_block 100) in
  is_active s = true /\ reachable demo_binding g s.
Proof.
  intros g s. split; [vm_compute; reflexivity|].
  apply (source_canonical (fun _ => small_node) demo_binding [small_init] g s).
  - destruct served_init as [t Ht]. pose proof (rpc_block_post (fun _ => small_node) 100 0%nat) as Hp.
    unfold st_post in Hp. rewrite Ht in Hp. destruct Hp as [decoded Hp].
    assert (decoded = (100, [small_init])) as ->.
    { destruct (bo_served _ _ _ _ _ Hp) as (display & hex & raw & H1 & H2 & H3 & H4 & _).
      vm_compute in H1. injection H1 as <-. vm_compute in H2. injection H2 as <-.
      vm_compute in H3. injection H3 as <-. cbn in H4. by injection H4 as <-. }
    eapply (followed_block (X := small_crate) _ _ [] _ _ 100 0%nat t (100, [small_init]) (served_block 100) s
              (next_delta (new_state demo_binding) (served_block 100))); [constructor|done..| |].
    + rewrite served_init_one. split; [|exact I]. split; [by_decide|]. split; [by_decide|].
      split; [by intros t0 Ht0|by_decide].
    + apply next_ok. vm_compute. reflexivity.
  - assert (Hin : forall x, x ∈ [small_init] -> x ∈ small_txs).
    { intros x ->%list_elem_of_singleton. by apply (list_elem_of_lookup_2 _ 1). }
    intros c p Hc Hp E. f_equal. apply small_ids; [|by apply Hin|done].
    destruct Hp as [Hp|Hp%small_served]; [by apply Hin|done].
Defined.
