(* ===== verification/CliWitnesses.v ===== *)
(** * Witnesses for the configuration and the verification tool

    A dynamic value with its accessors, a few files, a fixture for the demonstration deployment
    and a mainnet configuration. *)

From Stdlib Require Import String.
From stdpp Require Import strings.
From S2P Require Import Prelude Types Marker Roots Reducer Validators Steps Invariant Chain Reach EventLog Store StoreInv Commit Queries Text Config ConfigFacts Cli CliFacts Counting Concrete Witnesses StoreWitnesses.

(** ** A fixture *)

Inductive SmallJson :=
| JNull
| JStr (s : string)
| JNum (z : Z)
| JArr (l : list SmallJson)
| JObj (l : list (string * SmallJson)).

Definition small_key (v : SmallJson) (k : string) : SmallJson :=
  match v with
  | JObj l => default JNull (snd <$> List.find (fun p => bool_decide (p.1 = k)) l)
  | _ => JNull
  end.

Definition spec_file : list byte := ascii "abc" ++ [LF].
Definition fixture_binding : Binding := mkBinding Regtest (num_hash 1) (sha256 spec_file).

Definition hex_str (l : list byte) : SmallJson := JStr (hex_encode l).
Definition hash_str (h : Hash32) : SmallJson := JStr (to_hex h).

Definition fixture_script : list byte :=
  marker_script (marker_payload x03 ((x01 :: arr_bytes (namespace fixture_binding)) ++ to_le 4 2)).

Definition fixture_event : list byte := ascii "TANDEM/EVENT" ++ [x00] ++ replicate 80 x07.
Definition fixture_snapshot : list byte := ascii "TANDEM/OBJECT-STATE" ++ [x00] ++ replicate 32 x05 ++ [x01; x00].

Definition leaf_json (preimage : list byte) : SmallJson :=
  JObj [("preimageHex", hex_str preimage); ("leafHex", hash_str (sha256 preimage))]%string.

Definition fixture_chained : Hash32 :=
  block_root (namespace fixture_binding) (chained_root (new_state fixture_binding))
    (default hash_zero (arr_of 32 (replicate 32 x07))) (of_le (replicate 8 x07))
    (sha256 fixture_event) (sha256 fixture_snapshot) (mkCounters 1 1 1).

Definition fixture_with (event : list byte) : SmallJson := JObj [
  ("schema", JStr "urn:tandem:golden-fixtures");
  ("specHash", hash_str (sha256 spec_file));
  ("identity", JObj [
     ("protocolId", JStr (protocol_id fixture_binding));
     ("namespace", hash_str (namespace fixture_binding));
     ("objectDisplayId", JStr ("tandem:regtest:" ++ display_hash (num_hash 1) ++ ":" ++ display_hash (num_hash 10) ++ ":1"));
     ("objectKey", hash_str (derive_object_key (namespace fixture_binding) (num_hash 10)))]);
  ("markers", JArr [JObj [
     ("scriptHex", hex_str fixture_script); ("operation", JStr "ROTATE");
     ("scriptBytes", JNum (len fixture_script)); ("payloadBytes", JNum 44)]]);
  ("carrier", JObj [
     ("key0", JStr (key_to_hex (demo_key x11))); ("key1", JStr (key_to_hex (demo_key x22)));
     ("witnessScript", hex_str (witness_script pairA)); ("scriptPubKey", hex_str (carrier_script pairA))]);
  ("roots", JObj [
     ("events", JArr [leaf_json event]);
     ("snapshots", JArr [leaf_json fixture_snapshot]);
     ("eventMerkleLevels", JArr [JArr [hash_str (sha256 event)]]);
     ("objectMerkleLevels", JArr [JArr [hash_str (sha256 fixture_snapshot)]]);
     ("eventRoot", hash_str (sha256 event));
     ("objectStateRoot", hash_str (sha256 fixture_snapshot));
     ("initialStateRoot", hash_str (chained_root (new_state fixture_binding)));
     ("chainedBlockRoot", hash_str fixture_chained)])]%string.

Definition small_fixture : SmallJson := fixture_with fixture_event.

Definition small_manifest : Manifest :=
  mkManifest "urn:tandem:golden-vector-manifest" "tandem.md" (sha256 spec_file) "golden.json"
    (sha256 [x01]) (vector_root "golden.json" (sha256 [x01])).

Definition json_with (fixture : SmallJson) : JsonDocument := {|
  Value := SmallJson;
  as_str v := match v with JStr s => Some s | _ => None end;
  as_array v := match v with JArr l => Some l | _ => None end;
  as_u64 v := match v with JNum z => Some z | _ => None end;
  get_key := small_key;
  get_index v i := match v with JArr l => default JNull (l !! i) | _ => JNull end;
  value_from_slice l := if decide (l = [x01]) then Some fixture else None;
  lock_from_slice l :=
    if decide (l = [x02]) then
      Some (mkLock "urn:tandem:rust-protocol-input-lock" {[ascii "tandem.md" := sha256 spec_file]})
    else None;
  manifest_from_slice l := if decide (l = [x00]) then Some small_manifest else None;
  replay_from_slice l := None;
|}.

#[export] Instance small_json : JsonDocument := json_with small_fixture.

#[export] Instance small_files : Files := fun path =>
  if decide (path = ascii "vectors/manifest.json") then Some [x00]
  else if decide (path = ascii "vectors/golden.json") then Some [x01]
  else if decide (path = ascii "tandem.lock") then Some [x02]
  else if decide (path = ascii "protocol/tandem.md") then Some spec_file
  else None.

Definition is_ok {E A} (r : res E A) : bool := match r with Ok _ => true | _ => false end.

Lemma is_ok_Ok {E A} (r : res E A) : is_ok r = true -> exists a, r = Ok a.
Proof. destruct r as [a| |]; [|done..]. by exists a. Qed.

Example fixture_verified :
  is_ok (verify_vectors (ascii "vectors/manifest.json") (ascii "protocol/tandem.md")) = true.
Proof. vm_compute. reflexivity. Qed.

Example lock_verified : is_ok (verify_inputs (ascii "tandem.lock") (ascii "protocol")) = true.
Proof. vm_compute. reflexivity. Qed.

Example paths_outside :
  safe_path (ascii "/etc/passwd") = false /\ safe_path (ascii "a/../../b") = false /\
  safe_path (ascii "./a") = false /\ safe_path (ascii "a/./b") = true.
Proof. vm_compute. done. Qed.

Lemma vectors_sound_witness :
  exists r, verify_vectors (ascii "vectors/manifest.json") (ascii "protocol/tandem.md") = Ok r /\
  exists spec_bytes fixture init, fs_read (ascii "protocol/tandem.md") = Some spec_bytes /\
    vr_spec_hash r = sha256 spec_bytes /\
    let b := mkBinding Regtest init (vr_spec_hash r) in
    as_str (get_key (get_key fixture "identity") "protocolId") = Some (protocol_id b) /\
    parse_json_hash (get_key (get_key fixture "identity") "namespace") = Ok (namespace b) /\
    (exists markers, as_array (get_key fixture "markers") = Some markers /\ Forall marker_agrees markers) /\
    (exists snapshots block_hash height founding active_count,
      as_array (get_key (get_key fixture "roots") "snapshots") = Some snapshots /\
      vr_chained_root r = block_root (namespace b) (chained_root (new_state b)) block_hash height
        (vr_event_root r) (vr_object_state_root r) (mkCounters founding (len snapshots) active_count) /\
      0 <= founding <= 255 * len snapshots /\ 0 <= active_count <= len snapshots).
Proof.
  destruct (is_ok_Ok _ fixture_verified) as [r Hr]. exists r. split; [exact Hr|].
  exact (vectors_sound (ascii "vectors/manifest.json") (ascii "protocol/tandem.md") r Hr).
Defined.

(** ** Merkle levels *)

Definition two_leaves : SmallJson := JArr [hash_str (num_hash 1); hash_str (num_hash 2)].
Definition node_hash : Hash32 :=
  sha256 (node_preimage (domain "TANDEM/EVENT-NODE") (num_hash 1) (num_hash 2)).

(** Both levels of a tree of two leaves, and the levels cut off after the leaves. *)
Example two_levels_accepted :
  is_ok (verify_merkle_levels (JArr [two_leaves; JArr [hash_str node_hash]]) (domain "TANDEM/EVENT-NODE") node_hash) = true /\
  is_ok (verify_merkle_levels (JArr [two_leaves]) (domain "TANDEM/EVENT-NODE") (num_hash 1)) = true.
Proof. vm_compute. done. Qed.

(** ** Replay *)

Lemma replay_confirms_store_witness :
  exists db : Db StoredValue,
  exists report, replay_input (mkReplayInput demo_binding [init_block] []) = Ok report /\
    rr_final_state report = chain_end [init_block] /\
    (forall h roots, (exists release, roots_at db h = Ok (Some (roots, release))) <->
       roots ∈ rr_heights report /\ hr_height roots = h) /\
    ((exists report', replay_input (mkReplayInput demo_binding [init_block] []) = Ok report') <->
       ([] : list HeightRoots) = [] \/ [] = rr_heights report).
Proof.
  destruct init_db as [db Hdb]. exists db.
  exact (replay_confirms_store demo_binding [init_block] db (chain_end [init_block]) [] Hdb).
Defined.

(** ** Counters *)

Lemma counters_bounded_witness :
  active_objects (counters (demo_state 2)) = Z.of_nat (size (active (demo_state 2))) /\
  0 <= founding_created (counters (demo_state 2)) <= all_objects (counters (demo_state 2)) /\
  0 <= active_objects (counters (demo_state 2)) <= all_objects (counters (demo_state 2)) /\
  all_objects (counters (demo_state 2)) <= Z.of_nat (size (seen (demo_ledger 2))).
Proof. apply (counters_bounded demo_binding (demo_ledger 2) (demo_state 2)), demo_reachable. Defined.

(** ** A mainnet configuration *)

Definition approval : MainnetAuthorization :=
  mkAuthorization "urn:tandem:mainnet-authorization"
    (protocol_id (mkBinding Mainnet (num_hash 1) (sha256 spec_file))) (sha256 spec_file)
    [" first.approver "; "first.approver"; "second.approver"]%string "2026-01-01"%string.

#[export] Instance small_platform : Platform := {|
  Url := string;
  url_parse s := Some s;
  url_scheme s := "http"%string;
  SocketAddr := string;
  socket_addr_parse s := Some s;
  read_file path :=
    if decide (path = "tandem.md"%string) then Some spec_file
    else if decide (path = "approval.json"%string) then Some [x03]
    else if decide (path = "seed"%string) then Some (ascii (to_hex (num_hash 5)) ++ [LF]) else None;
  authorization_from_slice l := if decide (l = [x03]) then Some approval else None;
|}.

Definition mainnet_args : Args := {|
  arg_network := "mainnet";
  arg_init_txid := display_hash (num_hash 1);
  arg_spec_path := "tandem.md";
  arg_spec_sha256 := to_hex (sha256 spec_file);
  arg_database_url := "postgres://localhost/tandem";
  arg_bitcoin_rpc_url := "http://127.0.0.1:8332";
  arg_bitcoin_rpc_user := "user";
  arg_bitcoin_rpc_password := "password";
  arg_bind_addr := "127.0.0.1:8088";
  arg_signing_key_file := "seed";
  arg_signing_key_id := "pipeline-b:1";
  arg_parser_commit := parser_commit demo_release;
  arg_indexer_commit := indexer_commit demo_release;
  arg_parser_binary_sha256 := to_hex (num_hash 7);
  arg_indexer_binary_sha256 := to_hex (num_hash 8);
  arg_poll_interval_ms := 5000;
  arg_zmq_rawblock_url := None;
  arg_allow_mainnet := true;
  arg_mainnet_authorization_file := Some "approval.json"%string;
  arg_mainnet_authorization_sha256 := Some (to_hex (sha256 [x03]));
|}.

Example mainnet_loads : is_ok (from_args mainnet_args) = true.
Proof. vm_compute. reflexivity. Qed.

Lemma from_args_wf_witness : exists c, from_args mainnet_args = Ok c /\ config_wf mainnet_args c.
Proof.
  destruct (is_ok_Ok _ mainnet_loads) as [c Hc]. exists c. split; [exact Hc|].
  exact (from_args_wf mainnet_args c Hc).
Defined.

Example spec_endings :
  is_ok (verify_spec_bytes (ascii "abc" ++ [LF])) = true /\
  verify_spec_bytes (ascii "abc" ++ [LF; LF]) = Err SpecFinalNewline /\
  verify_spec_bytes (ascii "abc" ++ [CR; LF]) = Err SpecCarriageReturn /\
  verify_spec_bytes (ascii "abc" ++ [LF] ++ ascii "d " ++ [LF]) = Err (SpecTrailingWhitespace 2) /\
  verify_spec_bytes [xed; xa0; x80; LF] = Err SpecNotUtf8.
Proof. vm_compute. done. Qed.
