(* ===== verification/MainWitnesses.v ===== *)
(** * A witness for the whole service

    The mainnet configuration of [CliWitnesses] started over an empty database and run for two
    passes against the node of [RpcWitnesses]. *)

From Stdlib Require Import String.
From stdpp Require Import strings.
From S2P Require Import Prelude Types Marker Roots Reducer Chain Store StoreInv Commit Queries Ingest IngestInv Text Config ConfigFacts Signer Rpc RpcFacts Service Concrete Witnesses StoreWitnesses ServiceWitnesses RpcWitnesses CliWitnesses.

Definition demo_start : Db StoredValue * res StartError Service :=
  startup false (fun _ => false) true mainnet_args IoOk empty_db.

Definition started (r : Db StoredValue * res StartError Service) : bool :=
  match r with (_, Ok _) => true | _ => false end.

Lemma started_Ok r : started r = true -> exists db sv, r = (db, Ok sv).
Proof. destruct r as [db [sv| |]]; [|done..]. by exists db, sv. Qed.

Example demo_starts : started demo_start = true.
Proof. vm_compute. reflexivity. Qed.

Lemma service_safe_witness :
  exists db sv w h r, demo_start = (db, Ok sv) /\
  service_run (fun _ _ => small_node) (fun _ => IoOk) 2 sv db = (w, h, r) /\
  release_ok (release_identity (sv_config sv)) = true /\
  exists chain s, db_ok (cf_binding (sv_config sv)) chain (w_db w) s /\
    ((forall t : nat, IoOk <> IoLost) -> r <> Panic -> w_state w = s).
Proof.
  destruct (started_Ok _ demo_starts) as (db & sv & Hs).
  destruct (service_run (fun _ _ => small_node) (fun _ => IoOk) 2 sv db) as [[w h] r] eqn:Hr.
  exists db, sv, w, h, r. split; [exact Hs|]. split; [exact Hr|].
  exact (service_safe false (fun _ => false) true mainnet_args IoOk empty_db db sv (fun _ _ => small_node)
           (fun _ => IoOk) 2 w h r (or_introl eq_refl) Hs Hr).
Defined.
