(* ===== verification/TotalWitnesses.v ===== *)
(** * The totality theorems at concrete inputs

    A chain no consensus rule would allow: the INIT transaction repeated, then a block that spends
    what does not exist; and the started service of [MainWitnesses]. *)

From Stdlib Require Import String.
From stdpp Require Import strings.
From S2P Require Import Prelude Types Marker Roots Reducer Chain Store StoreInv Commit Queries Ingest IngestInv Text Config ConfigFacts Signer Rpc RpcFacts Service Serde Total WorkerTotal Cli CliFacts Tool Concrete Witnesses StoreWitnesses ServiceWitnesses RpcWitnesses CliWitnesses MainWitnesses.

(** The first block carries the INIT twice and the same CREATE, too early, in between. *)
Definition odd_block : BlockView := demo_block 100 [init_tx; create_tx 10 pairA; init_tx; mark_tx].
Definition odd_next : BlockView := demo_block 101 [mark_tx; mark_tx; create_tx 10 pairA; create_tx 10 pairA].

Definition odd_state : ChainState := next_state (new_state demo_binding) odd_block.
Definition odd_delta : BlockDelta := next_delta (new_state demo_binding) odd_block.

Example odd_applies : bd_events odd_delta <> [].
Proof. vm_compute. discriminate. Qed.

Lemma reducer_total_witness :
  connect_all [odd_block] (new_state demo_binding) = (odd_state, Ok [odd_delta]) /\
  (apply_block odd_next odd_state).2 <> Panic /\ sound (apply_block odd_next odd_state).1.
Proof.
  assert (Hc : connect_all [odd_block] (new_state demo_binding) = (odd_state, Ok [odd_delta])).
  { apply connect_all_cons. exists odd_state, odd_delta, []. split; [apply next_ok; vm_compute; reflexivity|].
    split; reflexivity. }
  split; [exact Hc|]. apply (reducer_total demo_binding [odd_block] odd_next odd_state [odd_delta] Hc).
  repeat constructor; vm_compute; discriminate.
Defined.

Lemma numbered_elem {A} (l : list A) bytes x : numbered l bytes = Some x -> x ∈ l.
Proof. destruct bytes as [|b [|]]; [done| |done]. apply list_elem_of_lookup_2. Qed.

Lemma small_sized : decodes_sized.
Proof.
  intros bytes decoded H%numbered_elem.
  assert (Hf : Forall (fun blk => Forall (fun tx => len (transaction_input tx) <= u32_max + 1) (block_txdata blk))
                 small_blocks) by (repeat constructor; vm_compute; discriminate).
  rewrite Forall_forall in Hf. by apply Hf.
Qed.

(** A node that serves the blocks of another deployment under the heights of this one. *)
Definition odd_node : Node :=
  @mkNode small_crate small_raw (fun _ => responded 50) (fun h => responded (block_name (h - 99))) small_getblock
    NoResponse InvalidBody (responded 1108) (responded []).

Lemma service_never_panics_witness :
  exists db sv w h r, demo_start = (db, Ok sv) /\
  service_run (fun t i => if Nat.even (t + i) then small_node else odd_node) (fun t => if Nat.even t then IoOk else IoLost)
    2 sv db = (w, h, r) /\ r <> Panic.
Proof.
  destruct (started_Ok _ demo_starts) as (db & sv & Hs).
  destruct (service_run (fun t i => if Nat.even (t + i) then small_node else odd_node)
              (fun t => if Nat.even t then IoOk else IoLost) 2 sv db) as [[w h] r] eqn:Hr.
  exists db, sv, w, h, r. split; [exact Hs|]. split; [exact Hr|].
  exact (service_never_panics false (fun _ => false) true mainnet_args IoOk empty_db db sv
           (fun t i => if Nat.even (t + i) then small_node else odd_node) (fun t => if Nat.even t then IoOk else IoLost)
           2 w h r small_sized (or_introl eq_refl) Hs Hr).
Defined.

(** A document with the odd blocks. *)
Lemma fuzz_targets_pass_example data :
  fuzz_replay (fun _ => Some (encode (serde_list serde_block) [odd_block; odd_next])) data = Ok tt.
Proof. vm_compute. reflexivity. Qed.

(** ** The tool *)

#[export] Instance small_printer : ReportPrinter := fun _ => Some [].

Section Open.
#[local] Instance open_stdout : Stdout := fun _ => true.

Definition vectors_command : Command := VerifyVectors (ascii "vectors/manifest.json") (ascii "protocol/tandem.md").

(** A fixture that verifies, a missing file, and an input that does not parse. *)
Example tool_exits :
  exit_code (tandem_main vectors_command) = Some 0 /\
  exit_code (tandem_main (VerifyInputs (ascii "nowhere") [])) = Some 1 /\
  exit_code (tandem_main (Replay (ascii "vectors/golden.json"))) = Some 1.
Proof. vm_compute. done. Qed.

(** The fixture with the preimage of its event cut after the namespace. *)
#[local] Instance short_json : JsonDocument := json_with (fixture_with (take 45 fixture_event)).

Example short_exits : exit_code (tandem_main vectors_command) = None.
Proof. vm_compute. reflexivity. Qed.

Lemma tool_panics_exact_witness :
  exit_code (tandem_main vectors_command) = None /\
  exists manifest spec m bytes fixture, vectors_command = VerifyVectors manifest spec /\
    fs_read manifest ≫= manifest_from_slice = Some m /\ sha256 bytes = mf_fixture_sha256 m /\
    value_from_slice bytes = Some fixture /\ short_preimages fixture /\
    forall event_rt object_rt, verify_block_root fixture event_rt object_rt = Panic.
Proof.
  split; [exact short_exits|].
  destruct (tool_panics_exact vectors_command) as [Hp|(report & text & _ & _ & Hout)].
  - intros path input E. discriminate E.
  - exact short_exits.
  - exact Hp.
  - discriminate Hout.
Defined.
End Open.

(** The report of the fixture that verifies, into a closed pipe. *)
Section Closed.
#[local] Instance closed_stdout : Stdout := fun _ => false.

Example closed_exits : exit_code (tandem_main vectors_command) = None.
Proof. vm_compute. reflexivity. Qed.
End Closed.
