(* ===== verification/SettledWitnesses.v ===== *)
(** * Witnesses for the settled service

    A node that serves three blocks with the INIT of a regtest deployment in the second, a
    configuration for that deployment, and the service started over an empty database. *)

From Stdlib Require Import String.
From stdpp Require Import strings.
From S2P Require Import Prelude Types Marker Roots Reducer Validators Steps Invariant Chain Reach Lifecycle EventLog Store StoreInv Commit Queries Ingest IngestInv Converge Text Config ConfigFacts Signer Api Rpc RpcFacts Service Resolution Settled Concrete Witnesses StoreWitnesses ServiceWitnesses RpcWitnesses CliWitnesses MainWitnesses.

Definition boot_args : Args := {|
  arg_network := "regtest";
  arg_init_txid := display_hash (num_hash 2);
  arg_spec_path := "tandem.md";
  arg_spec_sha256 := to_hex boot_spec;
  arg_database_url := "postgres://localhost/tandem";
  arg_bitcoin_rpc_url := "http://127.0.0.1:18443";
  arg_bitcoin_rpc_user := "user";
  arg_bitcoin_rpc_password := "password";
  arg_bind_addr := "127.0.0.1:8088";
  arg_signing_key_file := "seed";
  arg_signing_key_id := "pipeline-b:1";
  arg_parser_commit := parser_commit demo_release;
  arg_indexer_commit := indexer_commit demo_release;
  arg_parser_binary_sha256 := to_hex (num_hash 7);
  arg_indexer_binary_sha256 := to_hex (num_hash 8);
  arg_poll_interval_ms := 5000;
  arg_zmq_rawblock_url := None;
  arg_allow_mainnet := false;
  arg_mainnet_authorization_file := None;
  arg_mainnet_authorization_sha256 := None;
|}.

Definition boot_binding : Binding := mkBinding Regtest (num_hash 2) boot_spec.

(** The node of [RpcWitnesses], synced at height 2, with the INIT at height 1. *)
Definition boot_raw (t : Hash32) : Response RawTransactionVerbose :=
  match find_tx t with
  | Some b => responded (mkVerbose (hex_encode [b])
                (Some (if bool_decide (t = num_hash 2) then "boot" else "parent")%string) (Some 9))
  | None => Responded 500 (mkEnvelope None (Some (-5)))
  end.

Definition boot_node : Node :=
  @mkNode small_crate boot_raw (fun hash => responded (if decide (hash = "boot"%string) then 1 else 0))
    (fun h => responded (block_name h)) small_getblock
    (responded (mkInfo "regtest" 2 2 false)) (responded {["txindex"%string := true]}) (responded 2) (responded []).

Definition boot_blocks (h : Z) : Block (BitcoinCrate := small_crate) :=
  if decide (h = 1) then (1, [boot_init]) else (h, []).

Lemma three_heights (Q : Z -> Prop) : Q 0 -> Q 1 -> Q 2 -> forall h, 0 <= h <= 2 -> Q h.
Proof. intros H0 H1 H2 h Hh. assert (h = 0 \/ h = 1 \/ h = 2) as [-> | [-> | ->]] by lia; done. Qed.

Lemma name_wire h : wire_hash (block_name h) = arr_of 32 (arr_bytes (num_hash (1000000 + h))).
Proof. unfold block_name. by rewrite wire_display, arr_of_bytes. Qed.

Lemma boot_parent : raw_serves boot_node (num_hash 902) (small_parent 902 (pay (demo_key x11) 5000)).
Proof.
  exists (mkVerbose (hex_encode [x06]) (Some "parent"%string) (Some 9)), [x06].
  split; [vm_compute; reflexivity|]. split; [vm_compute; reflexivity|]. split; [vm_compute; reflexivity|].
  split; [reflexivity|]. intros c hash _ _ [= <-]. exists 0. vm_compute. reflexivity.
Qed.

Lemma serves_intro h txs text :
  boot_blocks h = (h, txs) -> small_getblock (block_name h) = responded text ->
  (bytes ← hex_decode text; deserialize_block bytes) = Some (boot_blocks h) ->
  Forall (fun tx => Forall (spendable boot_node (local_of h txs)) (transaction_input tx)) txs ->
  serves_block boot_node h (boot_blocks h).
Proof.
  intros -> Hb Hd Hs. split; [reflexivity| |apply name_wire|exact Hs].
  destruct (hex_decode text) as [bytes|] eqn:E; [|done]. exists text, bytes. split; [|done].
  change (call_result (small_getblock (block_name h)) = Ok text). rewrite Hb. reflexivity.
Qed.

Lemma boot_serves : forall h, 0 <= h <= 2 -> serves_block boot_node h (boot_blocks h).
Proof.
  apply three_heights.
  - apply (serves_intro 0 [] (hex_encode [x02])); [reflexivity|vm_compute; reflexivity..|constructor].
  - apply (serves_intro 1 [boot_init] (hex_encode [x03])); [reflexivity|vm_compute; reflexivity..|].
    apply Forall_singleton, Forall_singleton. right. exists (small_parent 902 (pay (demo_key x11) 5000)).
    split; [exact boot_parent|]. exists (pay (demo_key x11) 5000). vm_compute. reflexivity.
  - apply (serves_intro 2 [] (hex_encode [x04])); [reflexivity|vm_compute; reflexivity..|constructor].
Qed.

Lemma boot_settled : settled boot_node boot_binding 2 boot_blocks (Some 1).
Proof.
  split.
  - exists (mkInfo "regtest" 2 2 false), {["txindex"%string := true]}.
    split; [reflexivity|]. split; [reflexivity|]. split; [reflexivity|vm_compute; reflexivity].
  - reflexivity.
  - unfold i64_max. lia.
  - exact boot_serves.
  - intros h Hh. assert (h = 0 \/ h = 1) as [-> | ->] by lia; vm_compute; reflexivity.
  - apply three_heights; vm_compute; discriminate.
  - exists (num_hash 2). split; [apply arr_of_bytes|].
    exists (mkVerbose (hex_encode [x05]) (Some "boot"%string) (Some 9)), [x05], boot_init, 9, "boot"%string.
    split; [vm_compute; reflexivity|]. split; [vm_compute; reflexivity|]. split; [vm_compute; reflexivity|].
    split; [reflexivity|]. split; [reflexivity|]. split; [lia|]. split; [reflexivity|vm_compute; reflexivity].
  - intros f [= <-]. split; [lia|]. exists boot_init. split; [apply list_elem_of_here|exact (arr_eq _ _ (wire_of_bytes (X := small_crate) (num_hash 2)))].
  - intros h tx Hh Hx _. revert h Hh Hx. apply (three_heights (fun h => tx ∈ block_txdata (boot_blocks h) -> Some 1 = Some h)).
    + intros Hx. by apply not_elem_of_nil in Hx.
    + done.
    + intros Hx. by apply not_elem_of_nil in Hx.
  - exists [], []. split; [reflexivity|]. split; constructor.
Qed.

Definition boot_view (h : Z) : BlockView := node_view boot_node h.
Definition boot_init_view : TxView := default init_tx (head (transactions (boot_view 1))).

Lemma boot_canon : node_canon boot_node 2 (Some 1) = [boot_view 1; boot_view 2].
Proof. reflexivity. Qed.

Lemma boot_view_1 : transactions (boot_view 1) = [boot_init_view].
Proof.
  assert (Hone : forall (l : list TxView) d, length l = 1%nat -> l = [default d (head l)]) by by intros [|x [|]] d.
  apply Hone. vm_compute. reflexivity.
Qed.

Lemma boot_view_2 : transactions (boot_view 2) = [].
Proof. apply length_zero_iff_nil. vm_compute. reflexivity. Qed.

Lemma two_places {A} (a c : A) (Q : list A -> A -> Prop) :
  Q [] a -> Q [a] c -> forall pre x post, [a; c] = pre ++ x :: post -> Q pre x.
Proof.
  intros Ha Hc [|y [|z pre]] x post E; [by simplify_eq/=..|].
  apply (f_equal length) in E. rewrite length_app in E. cbn in E. lia.
Qed.

(** Nothing has been seen before the first transaction. *)
Lemma first_fresh ns view :
  tx_txid view <> hash_zero -> len (inputs view) <= u32_max + 1 -> txs_new ns empty_ledger [view].
Proof. intros Hz Hl. split; [|exact I]. split; [apply not_elem_of_empty|]. by split; [|split; [set_solver|]]. Qed.

Lemma boot_fresh : fresh_txs boot_binding (node_canon boot_node 2 (Some 1)).
Proof.
  rewrite boot_canon. unfold fresh_txs.
  apply (two_places _ _ (fun pre x => txs_new (namespace boot_binding) (ledger_blocks pre) (transactions x))).
  - rewrite boot_view_1. apply first_fresh; by_decide.
  - rewrite boot_view_2. exact I.
Qed.

Lemma boot_unambiguous : unambiguous (fun _ => boot_node) (node_txs 2 boot_blocks (Some 1)).
Proof.
  assert (Hin : forall x, x ∈ node_txs 2 boot_blocks (Some 1) -> x ∈ small_txs).
  { intros x Hx. change (x ∈ [boot_init]) in Hx. apply list_elem_of_singleton in Hx as ->.
    by apply (list_elem_of_lookup_2 _ 5). }
  intros c p Hc Hp E. f_equal. apply small_ids; [|by apply Hin|done].
  destruct Hp as [Hp|(t & txid & v & raw & _ & _ & Hd & _)]; [by apply Hin|].
  destruct raw as [|y [|]]; try done. by apply list_elem_of_lookup_2 in Hd.
Qed.

Lemma NoDup_distinct bs : NoDup (blk_hash <$> bs) -> distinct_hashes bs.
Proof.
  intros Hnd x y [i Hi]%list_elem_of_lookup [j Hj]%list_elem_of_lookup E.
  assert (i = j) as ->; [|congruence]. eapply NoDup_lookup; [exact Hnd| |].
  - by rewrite list_lookup_fmap, Hi.
  - rewrite list_lookup_fmap, Hj. cbn. by rewrite E.
Qed.

(** A database left behind by a run against another node: a block with the INIT that is not in
    the chain of [boot_node]. *)
Definition stale_block : BlockView := mkBlock (num_hash 555) (num_hash 554) 1 [boot_init_view].
Definition stale_state : ChainState := next_state (new_state boot_binding) stale_block.

Lemma stale_db : exists db : Db StoredValue, db_ok boot_binding [stale_block] db stale_state.
Proof.
  apply (canonical_db boot_binding (ledger_txs [boot_init_view] empty_ledger)).
  - eapply (canonical_block _ _ [] (new_state boot_binding) stale_block stale_state
      (next_delta (new_state boot_binding) stale_block)); [constructor| | |vm_compute; split; discriminate].
    + apply txs_okb_ok. vm_compute. reflexivity.
    + apply next_ok. vm_compute. reflexivity.
  - apply hashes_NoDup. vm_compute. reflexivity.
Qed.

Lemma boot_distinct : distinct_hashes ([stale_block] ++ node_views boot_node 2).
Proof. apply NoDup_distinct, hashes_NoDup. vm_compute. reflexivity. Qed.

Definition start_on (db : Db StoredValue) : Db StoredValue * res StartError Service :=
  startup false (fun _ => false) true boot_args IoOk db.

(** The configuration loads for the deployment, so the start succeeds on any of its databases. *)
Lemma starts_on db s :
  db_ok boot_binding [stale_block] db s ->
  exists db1 sv, start_on db = (db1, Ok sv) /\ cf_binding (sv_config sv) = boot_binding.
Proof.
  intros Hdb. unfold start_on, startup.
  assert (Hc : match from_args boot_args with
               | Ok c => bool_decide (cf_binding c = boot_binding) &&
                         is_ok (load (read_file (cf_signing_key_file c)) (cf_signing_key_id c)) &&
                         bool_decide (cf_zmq_rawblock_url c = None)
               | _ => false
               end = true) by (vm_compute; reflexivity).
  destruct (from_args boot_args) as [c| |]; [|done..].
  apply andb_true_iff in Hc as [[Eb%bool_decide_eq_true Hl]%andb_true_iff Ez%bool_decide_eq_true].
  destruct (is_ok_Ok _ Hl) as [signer Hs].
  unfold st_bind at 1, st_lift at 1, map_err at 1. unfold st_bind at 1, st_lift at 1. rewrite Hs.
  unfold st_bind at 1. cbn [map_err]. unfold st_bind at 1. rewrite (bind_exact _ _ _ _ _ _ Hdb), decide_True by done.
  unfold build_wakeup. rewrite Ez. exists db, (mkService c signer s (PollWakeup (cf_poll_interval c))). by split.
Qed.

(** The service is ready after its first pass over an empty database. *)
Example boot_active :
  match start_on empty_db with
  | (db, Ok sv) =>
      let '(w, h, _) := service_run (fun _ _ => boot_node) (fun _ => IoOk) 1 sv db in
      is_active (w_state w) = true /\ last_successful_height h = Some 2
  | _ => False
  end.
Proof. vm_compute. done. Qed.

Lemma service_converges_witness :
  exists db db1 sv w sf, db_ok boot_binding [stale_block] db stale_state /\ start_on db = (db1, Ok sv) /\
    service_run (fun _ _ => boot_node) (fun _ => IoOk) 1 sv db1 =
      (w, mkHealth (tip_height sf) None false, Ok tt) /\
    db_ok boot_binding [boot_view 2; boot_view 1] (w_db w) sf /\ w_state w = sf.
Proof.
  destruct stale_db as [db Hdb0]. destruct (starts_on db stale_state Hdb0) as (db1 & sv & Hs & Eb).
  destruct (service_converges false (fun _ => false) true boot_args db db1 sv boot_node 2 boot_blocks (Some 1)
              [stale_block] Hs)
    as (w & sf & Hr & _ & Hdb & Hw & _).
  - rewrite Eb. right. exists stale_state. exact Hdb0.
  - apply Forall_singleton. vm_compute. discriminate.
  - rewrite Eb. exact boot_settled.
  - rewrite Eb. exact boot_fresh.
  - exact boot_unambiguous.
  - exact boot_distinct.
  - rewrite Eb in Hdb. exists db, db1, sv, w, sf.
    exact (conj Hdb0 (conj Hs (conj Hr (conj Hdb Hw)))).
Defined.
